(* ===== verification/_CoqProject ===== *)
-Q . S2P
Prelude.v
Effects.v
WaitCount.v
LockSpec.v
Mutex.v
Guard.v
WaitList.v
WaitGroup.v
Event.v
Latch.v
MarkedBuffer.v
Uring.v
UringProxy.v
IoAwaiter.v
Engine.v
Context.v
Scheduler.v
Idle.v
Runtime.v
Loop.v
Tcp.v
Timer.v
Container.v
Task.v
Lifetime.v
Local.v
Log.v
ThreadPool.v
Gate.v
StdGate.v
EventBench.v
LatchBench.v
GroupBench.v
Monitor.v
Spinlock.v
LockBench.v
MutexBench.v
CondVar.v
CvBench.v
Channel.v
ChannelEquiv.v
Bench.v
Waiting.v
Sequential.v
Programs.v
