(* ===== verification/Prelude.v ===== *)
(** * sheepcoro: a verification library

    sheepcoro is a C++20 coroutine library on io_uring. This library models its
    core (src/include/coro, src/src) in executable definitions and proves what
    makes each part correct, and in some cases what makes it fail.

    ** How the program is put together

    A [scheduler] owns [context]s, one worker thread each. A context runs an
    [engine]: a bounded queue of coroutine handles, and a [uring_proxy], which
    wraps one io_uring and one eventfd. Submitting a handle pushes it to the
    queue and raises the eventfd; the worker's loop runs what is queued,
    submits the requests that coroutines have prepared, sleeps on the eventfd,
    and turns completions back into queued handles. Coroutines are [task]s;
    they wait for each other with [co_await], for I/O with the awaiters of
    io_awaiter.hpp, timer.hpp and tcp.hpp, and for events with the components
    of comp/, whose awaiters queue themselves in lock-free lists and are
    submitted to their context again when they are woken.

    ** Files, in dependency order

    - [Prelude]: machine integers, labelled machines (reachability, runs,
      refinement), linked chains of awaiters, counting in maps, tactics.
    - [Effects]: the monad of the engine's functions: state, events, blocking,
      undefined behaviour and exhausted fuel as outcomes; [within], the rule
      for invariants of programs.
    - [WaitCount]: the count of suspended coroutines of a context
      (context.hpp: register_wait, unregister_wait), and the contract of the
      components of comp/ with the contexts, a class with its laws.
    - [LockSpec]: the queue lock, the specification of the mutex.
    - [Mutex] (comp/mutex.hpp, mutex.cpp): every atomic access a step; [Guard]
      (comp/mutex_guard.hpp): guards over [LockSpec].
    - [WaitList]: the lock-free list of waiters that wait_group and event share
      (their cpp files), as a machine with the waker's walk.
    - [WaitGroup] (comp/wait_group.hpp, wait_group.cpp), [Event]
      (comp/event.hpp, event.cpp), [Latch] (comp/latch.hpp).
    - [MarkedBuffer] (marked_buffer.hpp): the pool of indices.
    - [Uring]: what the program uses of liburing, eventfd and the kernel: a
      class of operations and a class of laws, and [sim], an instance of both.
    - [UringProxy] (uring_proxy.hpp, io/base_io_type.hpp): the ring's wrapper
      and the fixed descriptors.
    - [IoAwaiter] (io/io_info.hpp, io/base_awaiter.hpp, io/io_awaiter.cpp,
      timer.hpp): the requests and the callbacks of the awaiters.
    - [Engine] (engine.hpp, engine.cpp): one definition per function, over the
      interfaces [TaskQueue] and [Uring].
    - [Context] (context.hpp, context.cpp): the worker's loop, one engine
      function a step, next to other threads and the kernel.
    - [Scheduler] (scheduler.hpp, scheduler.cpp, dispatcher.hpp,
      meta_info.hpp): the counters that decide when everything stops, one
      atomic access a step, over the machines of the contexts.
    - [Idle]: contexts with nothing left to do, which stay so.
    - [Runtime]: the scheduler and its contexts together: each context of a
      scheduler is a context of [Context], every submission reaches one of them,
      and stop_impl reaches all of them.
    - [Loop] (scheduler.cpp: start_impl, loop_impl; context.cpp: start, join):
      a whole program, the main thread next to the scheduler and its contexts,
      and the discipline [orderly] under which it ends as it should.
    - [Tcp] (io/net/tcp/tcp.hpp, tcp.cpp, utils.cpp): which socket a request
      reaches; servers and clients over the interface [Sockets].
    - [Timer] (timer.hpp): the chained additions and the split of a duration.
    - [Container] (detail/container.hpp): Modules [General], [Reference], [Pod].
    - [Task] (task.hpp): Module [Void], the promise without a value; Module
      [Chain], frames and symmetric transfer; Module [Ownership], the task
      object as owner.
    - [Lifetime] (task.hpp: clean; the submit functions; engine.cpp: submit_task,
      exec_task): who destroys the frame of a submitted coroutine. [Local] (meta_info.hpp: linfo, and its readers):
      the thread-local context and engine. [Log] (log.hpp). [ThreadPool]
      (benchtests/bench_helper.hpp).
    - [Spinlock] (spinlock.hpp), [CondVar] (comp/condition_variable.hpp, .cpp;
      over [LockSpec]), [Channel] (comp/channel.hpp; over [CondVar]; Modules
      for the three buffers behind one interface), [ChannelEquiv] (the
      specialised channels behave as the general one). [Bench]
      (benchtests/channel_bench.cpp): a producer and a consumer over [Channel];
      [Monitor] (the same file, condition_variable_bench.cpp): the clients of
      std::mutex and std::condition_variable they are compared with; [CvBench]:
      the coroutines of condition_variable_bench.cpp over [CondVar].
    - [Gate]: the interface of what coroutines wait at until it has been opened
      often enough, and the benchmarks' clients against it; implementations and
      programs in [StdGate] (std::latch, std::promise), [EventBench]
      (benchtests/event_bench.cpp), [LatchBench] (latch_bench.cpp) and
      [GroupBench] (waitgroup_bench.cpp).
    - [LockBench]: likewise the interface of a lock and its clients;
      [MutexBench] (mutex_bench.cpp): std::mutex, [Spinlock] and [Mutex].
    - [Waiting]: the components of comp/ side by side on the same contexts.
    - [Sequential]: coroutines that do one I/O operation after the other, as the
      [resume] of a context. [Programs] (benchmark/sheepcoro_model, examples/):
      the echo server and the examples as such coroutines.

    ** What the theorems show

    - Contexts: a worker never sleeps over queued tasks or completions
      ([context_never_sleeps_on_work]), the I/O counters are exact
      ([context_io_exact]), the [io_info]s are well typed
      ([context_infos_typed]), tasks run once ([context_tasks_once]), notify_stop
      works ([notify_stop_ends]); a context without a scheduler never stops
      ([default_stop_sleeps]), and tasks that go on submitting tasks make the
      worker block itself ([spawn_chain_blocks]).
    - Scheduler: the stop token counts the busy contexts ([stop_token_exact],
      [stop_iff_idle]); no submission is lost on its way to a context, and
      round robin spreads them ([submissions_balanced]); stopping reaches all
      contexts ([stop_impl_stops_all]); the way an idle callback reads its queue
      and the token lets it stop too early ([scheduler_stops_early],
      [scheduler_stops_between]).
    - Whole programs: [loop] returns only when what the queues took has been
      done ([loop_returns_when_done]; what a full queue turns away is dropped),
      and an idle program is not stuck before that ([loop_never_hangs]), for
      programs that submit before [loop] and whose outside submissions go to
      contexts that count them, as those of comp/ do
      ([components_keep_orderly], [idle_context_waits_nowhere]).
    - Coroutines on a context: a coroutine that awaits its I/O is where the same
      program with blocking calls would be ([awaiting_is_blocking]); so the
      sessions of the echo server echo ([session_echoes]).
    - Engine and I/O: submission in every case ([submit_task_spec]), bounded
      recursion ([exec_returns]), the masks of the eventfd ([wake_up_masks]),
      the array of completions ([poll_submit_overflows]), the way of an
      operation from its awaiter to the kernel and back ([io_roundtrip]), the
      sockets requests reach ([tcp_names_socket], [fixed_slots_safe]).
    - Synchronisation: the mutex refines the queue lock, is exclusive, fair and
      never stuck; condition variables lose no waiter, and wait groups, events
      and latches lose none where they are used as meant, as long as a woken
      coroutine does not run before its waker has left its awaiter (the same
      holds of their clients below); the schedules in which they do, or use a
      destroyed object, are exhibited; channels are first in, first out, and
      closing one can leave a receiver asleep.
    - Their clients: a producer and a consumer pass every value on
      ([channel_bench_delivers]), but may hang at the end
      ([channel_bench_may_hang]); over std::mutex they always end
      ([stl_channel_completes], [stl_turns_alternate]), given a thread each
      ([one_thread_hangs]). Coroutines that wait at an event or a latch, or for
      a mutex, all get through, in the right order and with nobody else inside
      ([event_bench_ends], [latch_bench_ends], [coro_mutex_ends]); at a wait
      group they may hang ([waitgroup_bench_may_hang]); at a condition variable
      those of the benchmark never wait ([cv_bench_never_waits]).
    - Tasks: a task computes what its body means and frees its frames
      ([task_computes]), frames have one owner ([task_ownership]); a submitted
      coroutine lives as long as engines use it ([submitted_coroutines_live]),
      and for ever if the engine drops it ([dropped_task_leaks]); a nested task
      that suspended is used after it is freed ([nested_suspend_use_after_free]),
      and so may be one that is woken too early
      ([woken_too_early_use_after_free]).

    ** Conventions

    Threads interleave: a labelled machine does one atomic access (or one
    engine function on thread-local data) per step, and a theorem about
    [reach] holds in every interleaving. Memory orders are taken to be
    sequentially consistent. Integers have their width where they can
    overflow ([u64], [s32] and so on). Addresses are [Z]. The configuration
    (config.h.in: kQueCap and so on) is a parameter of every definition that
    uses it.

    Fuel: [exec_task] has the depth of the C++ stack as fuel, kMaxRecursiveDepth
    + 1 is proved to be enough ([exec_returns]); [acquire_urs] has the number of
    submissions, of which one is enough ([acquire_total]).

    ** Not modelled

    Third-party code (liburing, AtomicQueue, spdlog) and the kernel are
    interfaces with laws, or what they do with what they are given is left
    open. The compile-time traits (concepts/, attribute.hpp, types.hpp), the
    sleeps of utils.hpp and the accessors that only return a field have no
    model; neither do the tests, and of the benchmarks what measures them. What
    coroutines compute is a parameter, except in [Programs] and the benchmarks.
    Weak memory is not modelled. *)

From Stdlib Require Export ZArith Lia.
From stdpp Require Export base gmap relations functions list.

Declare Scope coro_scope.
Delimit Scope coro_scope with coro.

(** ** Machine integers *)

(** [uw w z] is the value of an unsigned [w]-bit integer after storing [z];
    [sw w z] the value of a two's complement signed one. *)
Definition uw (w z : Z) : Z := (z mod 2 ^ w)%Z.
Definition sw (w z : Z) : Z := ((z + 2 ^ (w - 1)) mod 2 ^ w - 2 ^ (w - 1))%Z.

Notation "'u64' z" := (uw 64 z) (at level 9, z at level 9) : coro_scope.
Notation "'u32' z" := (uw 32 z) (at level 9, z at level 9) : coro_scope.
Notation "'s64' z" := (sw 64 z) (at level 9, z at level 9) : coro_scope.
Notation "'s32' z" := (sw 32 z) (at level 9, z at level 9) : coro_scope.

(** ** Lists *)
Lemma length_omap_le {A B} (f : A → option B) (l : list A) : (length (omap f l) ≤ length l)%nat.
Proof. induction l as [|a l IH]; csimpl; [done|]. destruct (f a); csimpl; lia. Qed.

(** What the entries of a map give, when one of them is put in or changed. *)
Section entries.
Context {K A B : Type} `{Countable K} (f : K * A → option B).

Lemma omap_entry (m : gmap K A) k x : m !! k = Some x →
  omap f (map_to_list m) ≡ₚ from_option (λ b, [b]) [] (f (k, x)) ++ omap f (map_to_list (delete k m)).
Proof. intros Hk. rewrite <- (map_to_list_delete m k x Hk). simpl. by destruct (f (k, x)). Qed.

Lemma omap_entry_insert (m : gmap K A) k x :
  omap f (map_to_list (<[k := x]> m)) ≡ₚ from_option (λ b, [b]) [] (f (k, x)) ++ omap f (map_to_list (delete k m)).
Proof. by rewrite (omap_entry _ k x), delete_insert_eq by apply lookup_insert_eq. Qed.
End entries.

(** ** Pointers *)

Abbreviation ptr := Z (only parsing).
Definition nullptr : ptr := 0%Z.

(** ** Labelled machines

    A component that several threads drive is a machine: a set of initial
    states and an executable step function, one call per atomic action, that
    returns the next state and the events the action shows to the outside.
    [None] means the label is not enabled (or the action would be undefined
    behaviour: see the progress theorems of each component). *)
Record machine (S L E : Type) := Machine {
  m_init : S → Prop;
  m_step : L → S → option (S * list E);
}.
Arguments Machine {S L E}.
Arguments m_init {S L E}.
Arguments m_step {S L E}.

Section machine.
Context {S L E : Type} (M : machine S L E).

(** Reachable states, with the trace of events that leads to them. *)
Inductive reach : S → list E → Prop :=
  | reach_init s : m_init M s → reach s []
  | reach_step s tr l s' es :
      reach s tr → m_step M l s = Some (s', es) → reach s' (tr ++ es).

(** Running a schedule, a list of labels. *)
Fixpoint exec (ls : list L) (s : S) : option (S * list E) :=
  match ls with
  | [] => Some (s, [])
  | l :: ls =>
      match m_step M l s with
      | Some (s1, es1) =>
          match exec ls s1 with
          | Some (s2, es2) => Some (s2, es1 ++ es2)
          | None => None
          end
      | None => None
      end
  end.

Lemma exec_reach_from ls : ∀ s tr s' tr',
  reach s tr → exec ls s = Some (s', tr') → reach s' (tr ++ tr').
Proof.
  induction ls as [|l ls IH]; intros s tr s' tr' Hr He; simpl in He.
  - injection He as <- <-. by rewrite app_nil_r.
  - destruct (m_step M l s) as [[s1 e1]|] eqn:Hs; [|done].
    destruct (exec ls s1) as [[s2 e2]|] eqn:He2; [|done].
    injection He as <- <-. rewrite app_assoc.
    eapply IH; [|exact He2]. by econstructor.
Qed.

(** The form the witnesses use: a schedule evaluated from an initial state. *)
Lemma exec_reach ls s0 s tr :
  m_init M s0 → exec ls s0 = Some (s, tr) → reach s tr.
Proof.
  intros Hi He.
  apply (exec_reach_from ls s0 [] s tr); [by constructor|done].
Qed.

(** The state and the trace a schedule leads to (those of the start when it
    is not enabled to its end). *)
Definition final (ls : list L) (s : S) : S := from_option fst s (exec ls s).
Definition trace (ls : list L) (s : S) : list E := from_option snd [] (exec ls s).

Lemma exec_reach_final ls s0 :
  m_init M s0 → bool_decide (is_Some (exec ls s0)) = true →
  reach (final ls s0) (trace ls s0).
Proof.
  unfold final, trace. intros Hi He. apply bool_decide_eq_true in He as [[s tr] He0].
  rewrite He0. simpl. by eapply exec_reach.
Qed.

Lemma exec_cons l ls s s1 e1 e2 s2 es : m_step M l s = Some (s1, e1) →
  exec ls s1 = Some (s2, e2) → es = e1 ++ e2 → exec (l :: ls) s = Some (s2, es).
Proof. intros Hs He ->. simpl. by rewrite Hs, He. Qed.

Lemma exec_app ls1 ls2 s s1 e1 :
  exec ls1 s = Some (s1, e1) →
  exec (ls1 ++ ls2) s =
    match exec ls2 s1 with
    | Some (s2, e2) => Some (s2, e1 ++ e2) | None => None
    end.
Proof.
  revert s e1. induction ls1 as [|l ls1 IH]; intros s e1 He; simpl in *.
  - injection He as -> <-. by destruct (exec ls2 s1) as [[]|].
  - destruct (m_step M l s) as [[s' es]|]; [|done].
    destruct (exec ls1 s') as [[s'' es']|] eqn:He'; [|done].
    injection He as -> <-. rewrite (IH _ _ He').
    destruct (exec ls2 s1) as [[s2 e2]|]; [|done]. by rewrite app_assoc.
Qed.

(** Some schedule leads from [s] to [s'], and shows [es]. *)
Definition leads (s : S) (es : list E) (s' : S) : Prop := ∃ ls, exec ls s = Some (s', es).

Lemma leads_refl s : leads s [] s.
Proof. by exists []. Qed.
Lemma leads_step s l s' es : m_step M l s = Some (s', es) → leads s es s'.
Proof. intros Hs. exists [l]. simpl. by rewrite Hs, app_nil_r. Qed.
Lemma leads_trans s es1 s1 es2 s2 : leads s es1 s1 → leads s1 es2 s2 → leads s (es1 ++ es2) s2.
Proof. intros [l1 H1] [l2 H2]. exists (l1 ++ l2). by rewrite (exec_app _ _ _ _ _ H1), H2. Qed.
Lemma leads_reach s tr es s' : reach s tr → leads s es s' → reach s' (tr ++ es).
Proof. intros Hr [ls He]. by eapply exec_reach_from. Qed.

(** Rule induction for a state invariant. *)
Lemma reach_inv (I : S → Prop) :
  (∀ s, m_init M s → I s) →
  (∀ s l s' es, I s → m_step M l s = Some (s', es) → I s') →
  ∀ s tr, reach s tr → I s.
Proof. intros Hi Hs s tr. induction 1; eauto. Qed.

(** Rule induction for an invariant of the state and its trace. *)
Lemma reach_inv_tr (I : S → list E → Prop) :
  (∀ s, m_init M s → I s []) →
  (∀ s tr l s' es,
     I s tr → m_step M l s = Some (s', es) → I s' (tr ++ es)) →
  ∀ s tr, reach s tr → I s tr.
Proof. intros Hi Hs s tr. induction 1; eauto. Qed.

(** The step that showed an event of the trace, when steps show one at most. *)
Lemma reach_event s tr tr1 e tr2 :
  (∀ l s s' es, m_step M l s = Some (s', es) → (length es ≤ 1)%nat) →
  reach s tr → tr = tr1 ++ e :: tr2 →
  ∃ s1 l s2, reach s1 tr1 ∧ m_step M l s1 = Some (s2, [e]).
Proof.
  intros H1 Hr. revert tr2. induction Hr as [s Hi|s tr l s' es Hr IH Hs]; intros tr2 Htr.
  - by destruct tr1.
  - pose proof (H1 _ _ _ _ Hs) as Hlen.
    destruct es as [|e' [|]]; simpl in Hlen; [rewrite app_nil_r in Htr; by eapply IH| |lia].
    destruct tr2 as [|e2 tr2 _] using rev_ind.
    + apply app_inj_tail in Htr as [-> ->]. eauto.
    + rewrite app_comm_cons, app_assoc in Htr. apply app_inj_tail in Htr as [-> _].
      by eapply IH.
Qed.

(** A property that steps keep is kept by a schedule. *)
Lemma exec_inv (I : S → Prop) :
  (∀ s l s' es, I s → m_step M l s = Some (s', es) → I s') →
  ∀ ls s s' es, I s → exec ls s = Some (s', es) → I s'.
Proof.
  intros Hs ls. induction ls as [|l ls IH]; intros s s' es HI He; simpl in He.
  - by injection He as <- <-.
  - destruct (m_step M l s) as [[s1 e1]|] eqn:Hl; [|done].
    destruct (exec ls s1) as [[s2 e2]|] eqn:He2; [|done].
    injection He as <- <-. eauto.
Qed.

(** ... and so is a property of every event. *)
Lemma exec_events (I : S → Prop) (P : E → Prop) :
  (∀ s l s' es, I s → m_step M l s = Some (s', es) → I s' ∧ Forall P es) →
  ∀ ls s s' es, I s → exec ls s = Some (s', es) → Forall P es.
Proof.
  intros Hs ls. induction ls as [|l ls IH]; intros s s' es HI He; simpl in He.
  - injection He as <- <-. by constructor.
  - destruct (m_step M l s) as [[s1 e1]|] eqn:Hl; [|done].
    destruct (exec ls s1) as [[s2 e2]|] eqn:He2; [|done].
    injection He as <- <-. destruct (Hs _ _ _ _ HI Hl). apply Forall_app. eauto.
Qed.
End machine.

(** ** Machines under a discipline

    [restrict ok M] does the steps of [M] that [ok] allows: a theorem about its
    reachable states assumes that the environment keeps to the discipline. *)
Definition restrict {S L E} (ok : L → S → bool) (M : machine S L E) : machine S L E :=
  Machine (m_init M) (λ l s, if ok l s then m_step M l s else None).

Lemma restrict_step {S L E} ok (M : machine S L E) l s r :
  m_step (restrict ok M) l s = Some r → ok l s = true ∧ m_step M l s = Some r.
Proof. simpl. by destruct (ok l s). Qed.

Lemma restrict_reach {S L E} ok (M : machine S L E) s tr : reach (restrict ok M) s tr → reach M s tr.
Proof.
  induction 1 as [s Hi|s tr l s' es _ IH Hs]; [by constructor|].
  apply restrict_step in Hs as [_ Hs]. by econstructor.
Qed.

(** ** Machines side by side *)
Section beside.
Context {S1 L1 E1 S2 L2 E2 : Type} (M1 : machine S1 L1 E1) (M2 : machine S2 L2 E2).

(** Each label is a step of one of them. *)
Definition beside : machine (S1 * S2) (L1 + L2) (E1 + E2) :=
  Machine (λ s, m_init M1 s.1 ∧ m_init M2 s.2)
    (λ l s,
       match l with
       | inl l => match m_step M1 l s.1 with Some (s1, es) => Some ((s1, s.2), map inl es) | None => None end
       | inr l => match m_step M2 l s.2 with Some (s2, es) => Some ((s.1, s2), map inr es) | None => None end
       end).

(** What each of them shows. *)
Definition left_trace (tr : list (E1 + E2)) : list E1 := omap (λ e, match e with inl e => Some e | inr _ => None end) tr.
Definition right_trace (tr : list (E1 + E2)) : list E2 := omap (λ e, match e with inr e => Some e | inl _ => None end) tr.

Lemma left_trace_app t1 t2 : left_trace (t1 ++ t2) = left_trace t1 ++ left_trace t2.
Proof. apply omap_app. Qed.
Lemma right_trace_app t1 t2 : right_trace (t1 ++ t2) = right_trace t1 ++ right_trace t2.
Proof. apply omap_app. Qed.
Lemma left_trace_of es1 es2 : left_trace (map inl es1) = es1 ∧ left_trace (map inr es2) = [].
Proof. split; [induction es1 as [|e es IH]|induction es2 as [|e es IH]]; csimpl; by rewrite ?IH. Qed.
Lemma right_trace_of es1 es2 : right_trace (map inl es1) = [] ∧ right_trace (map inr es2) = es2.
Proof. split; [induction es1 as [|e es IH]|induction es2 as [|e es IH]]; csimpl; by rewrite ?IH. Qed.

Lemma beside_reach s tr : reach beside s tr → reach M1 s.1 (left_trace tr) ∧ reach M2 s.2 (right_trace tr).
Proof.
  induction 1 as [s [H1 H2]|s tr l s' es _ [IH1 IH2] Hs]; [by split; constructor|].
  rewrite left_trace_app, right_trace_app. destruct l as [l|l]; simpl in Hs.
  - destruct (m_step M1 l s.1) as [[s1 e]|] eqn:Hl; [|done]. injection Hs as <- <-. simpl.
    destruct (left_trace_of e []) as [-> _], (right_trace_of e []) as [-> _]. rewrite app_nil_r. split; [by econstructor|done].
  - destruct (m_step M2 l s.2) as [[s2 e]|] eqn:Hl; [|done]. injection Hs as <- <-. simpl.
    destruct (left_trace_of [] e) as [_ ->], (right_trace_of [] e) as [_ ->]. rewrite app_nil_r. split; [done|by econstructor].
Qed.
End beside.

(** ** Refinement between machines

    [refines R C A]: every step of [C] from related states is answered by a
    (possibly empty) run of [A] that shows the same events. *)
Section refinement.
Context {S1 L1 S2 L2 E : Type}.
Context (C : machine S1 L1 E) (A : machine S2 L2 E) (R : S1 → S2 → Prop).

Record refines : Prop := {
  ref_init : ∀ s, m_init C s → ∃ a, m_init A a ∧ R s a;
  ref_step : ∀ s a l s' es,
    R s a → m_step C l s = Some (s', es) →
    ∃ ls a', exec A ls a = Some (a', es) ∧ R s' a';
}.

Lemma refines_reach : refines →
  ∀ s tr, reach C s tr → ∃ a, reach A a tr ∧ R s a.
Proof.
  intros [Hi Hs] s tr. induction 1 as [s Hinit|s tr l s' es _ (a & Ha & HR) Hst].
  - destruct (Hi s Hinit) as (a & Ha & HR). exists a. split; [by constructor|done].
  - destruct (Hs _ _ _ _ _ HR Hst) as (ls & a' & He & HR').
    exists a'. split; [|done]. by eapply exec_reach_from.
Qed.
End refinement.
Arguments refines {S1 L1 S2 L2 E}.

(** ** Intrusive linked lists

    The awaiters of every synchronisation component are linked through a
    pointer field of their own. [chain nx p l]: following [nx] (the field read,
    [None] for a dead object) from [p] visits exactly [l] and ends at nullptr. *)
Fixpoint chain (nx : ptr → option ptr) (p : ptr) (l : list ptr) : Prop :=
  match l with
  | [] => p = nullptr
  | a :: l => p = a ∧ a ≠ nullptr ∧ ∃ q, nx a = Some q ∧ chain nx q l
  end.

Lemma chain_nil nx l : chain nx nullptr l → l = [].
Proof. destruct l as [|a l]; simpl; [done|]. intros (<- & ? & _). done. Qed.

Lemma chain_cons nx p l : chain nx p l → p ≠ nullptr →
  ∃ q l', l = p :: l' ∧ nx p = Some q ∧ chain nx q l'.
Proof.
  destruct l as [|a l]; simpl; [done|].
  intros (-> & ? & q & ? & ?) _. eauto.
Qed.

Lemma chain_inj nx p l1 l2 : chain nx p l1 → chain nx p l2 → l1 = l2.
Proof.
  revert p l2. induction l1 as [|a l1 IH]; intros p l2 H1 H2.
  - simpl in H1. subst p. by apply chain_nil in H2.
  - destruct H1 as (-> & Hn & q & Hq & H1).
    apply chain_cons in H2 as (q' & l' & -> & Hq' & H2); [|done].
    rewrite Hq in Hq'. injection Hq' as <-. f_equal. by eapply IH.
Qed.

Lemma chain_ext nx nx' p l :
  (∀ a, a ∈ l → nx a = nx' a) → chain nx p l → chain nx' p l.
Proof.
  revert p. induction l as [|a l IH]; intros p Hx; simpl; [done|].
  intros (-> & ? & q & Hq & Hl). split_and!; [done..|].
  exists q. rewrite <- Hx by left. split; [done|].
  apply IH; [|done]. intros b Hb. apply Hx. by right.
Qed.

(** ** Generic lemmas on lists *)
Lemma Forall2_impl_in {A B} (P Q : A → B → Prop) l k :
  Forall2 P l k → (∀ x y, x ∈ l → y ∈ k → P x y → Q x y) → Forall2 Q l k.
Proof.
  induction 1 as [|x y l k Hxy Hl IH]; intros Himp; constructor.
  - apply Himp; [by left..|done].
  - apply IH. intros x' y' ??. apply Himp; by right.
Qed.

Lemma NoDup_snoc {A} (l : list A) x : NoDup l → x ∉ l → NoDup (l ++ [x]).
Proof.
  intros ??. apply NoDup_app. split_and!; [done| |apply NoDup_singleton]. set_solver.
Qed.

Lemma filter_fewer {A} (P Q : A → Prop) `{!∀ x, Decision (P x)} `{!∀ x, Decision (Q x)} (l : list A) x :
  (∀ y, Q y → P y) → x ∈ l → P x → ¬ Q x → (length (filter Q l) < length (filter P l))%nat.
Proof.
  intros Himp Hin HP HQ. assert (Hle : ∀ k, (length (filter Q k) ≤ length (filter P k))%nat).
  { intros k. induction k as [|y k IH]; [done|]. rewrite !filter_cons.
    destruct (decide (Q y)) as [Hq|], (decide (P y)) as [|Hp]; simpl; try lia. by destruct (Hp (Himp y Hq)). }
  apply list_elem_of_split in Hin as (l1 & l2 & ->). rewrite !filter_app, !length_app.
  rewrite (filter_cons_True P), (filter_cons_False Q) by done. simpl. pose proof (Hle l1). pose proof (Hle l2). lia.
Qed.

(** ** Sums over lists, where one element changes *)
Lemma sum_insert {A} (f : A → nat) (l : list A) i x y : l !! i = Some x →
  (sum_list_with f (<[i := y]> l) + f x = sum_list_with f l + f y)%nat.
Proof.
  revert i. induction l as [|z l IH]; intros i Hi; [done|]. destruct i as [|i]; simplify_eq/=; [lia|].
  specialize (IH i Hi). lia.
Qed.

Lemma sum_zero {A} (f : A → nat) (l : list A) : (∀ x, x ∈ l → f x = 0%nat) → sum_list_with f l = 0%nat.
Proof. induction l as [|x l IH]; intros Hf; simpl; [done|]. rewrite Hf by left. apply IH. intros y Hy. apply Hf. by right. Qed.

Lemma sum_fmap_le {A} (f : A → nat) (g : A → A) (l : list A) k : (∀ x, x ∈ l → f (g x) ≤ f x + k)%nat →
  (sum_list_with f (g <$> l) ≤ sum_list_with f l + k * length l)%nat.
Proof.
  induction l as [|x l IH]; intros Hg; [simpl; lia|]. rewrite fmap_cons. cbn [sum_list_with length].
  assert (f (g x) ≤ f x + k)%nat by (apply Hg; by left).
  assert (sum_list_with f (g <$> l) ≤ sum_list_with f l + k * length l)%nat by (apply IH; intros y Hy; apply Hg; by right).
  lia.
Qed.

(** ** Counting the entries of a finite map *)
Definition count_if {K A} `{Countable K} (P : A → bool) (m : gmap K A) : Z :=
  Z.of_nat (size (filter (λ kv, P kv.2 = true) m)).

Section count_if.
Context {K A : Type} `{Countable K}.
Implicit Types (m : gmap K A) (P : A → bool).

Lemma count_if_empty P : count_if P (∅ : gmap K A) = 0%Z.
Proof. unfold count_if. by rewrite map_filter_empty, map_size_empty. Qed.

Lemma count_if_insert P m k x : m !! k = None →
  count_if P (<[k:=x]> m) = (count_if P m + Z.b2z (P x))%Z.
Proof.
  intros Hk. unfold count_if. destruct (P x) eqn:HP; simpl.
  - rewrite map_filter_insert_True by done.
    rewrite map_size_insert_None by (by apply map_lookup_filter_None; left). lia.
  - rewrite map_filter_insert_False by (simpl; congruence).
    rewrite delete_id by done. lia.
Qed.

Lemma count_if_delete P m k x : m !! k = Some x →
  count_if P (delete k m) = (count_if P m - Z.b2z (P x))%Z.
Proof.
  intros Hk. rewrite <- (insert_id m k x Hk) at 2.
  rewrite <- insert_delete_eq, count_if_insert by apply lookup_delete_eq. lia.
Qed.

Lemma count_if_update P m k x y : m !! k = Some x →
  count_if P (<[k:=y]> m) = (count_if P m - Z.b2z (P x) + Z.b2z (P y))%Z.
Proof.
  intros Hk. rewrite <- insert_delete_eq, count_if_insert by apply lookup_delete_eq.
  by rewrite (count_if_delete _ _ _ x).
Qed.

Lemma count_if_nonneg P m : (0 <= count_if P m)%Z.
Proof. unfold count_if. lia. Qed.

Lemma count_if_zero P m : count_if P m = 0%Z ↔ ∀ k x, m !! k = Some x → P x = false.
Proof.
  unfold count_if. split.
  - intros Hs k x Hk. destruct (P x) eqn:HP; [|done]. exfalso.
    assert (Hf : filter (λ kv, P kv.2 = true) m = ∅) by (apply map_size_empty_inv; lia).
    assert (Hl : filter (λ kv, P kv.2 = true) m !! k = Some x) by by apply map_lookup_filter_Some.
    by rewrite Hf in Hl.
  - intros Hall. assert (filter (λ kv, P kv.2 = true) m = ∅) as ->; [|by rewrite map_size_empty].
    apply map_empty. intros k. apply map_lookup_filter_None_2. right. intros x Hk. simpl.
    by rewrite (Hall _ _ Hk).
Qed.

Lemma count_if_size P m : (count_if P m <= Z.of_nat (size m))%Z.
Proof. unfold count_if. apply inj_le, map_subseteq_size, map_filter_subseteq. Qed.

Lemma count_if_pos P m k x : m !! k = Some x → P x = true → (0 < count_if P m)%Z.
Proof.
  intros Hk HP. pose proof (count_if_delete P m k x Hk) as Hd.
  pose proof (count_if_nonneg P (delete k m)). rewrite HP in Hd. simpl in Hd. lia.
Qed.
End count_if.

(** ** Lemmas on machine integers *)
Lemma uw_range w z : (0 <= w)%Z → (0 <= uw w z < 2 ^ w)%Z.
Proof. intros. unfold uw. apply Z.mod_pos_bound. lia. Qed.

Lemma uw_small w z : (0 <= z < 2 ^ w)%Z → uw w z = z.
Proof. intros. unfold uw. by apply Z.mod_small. Qed.

Lemma uw_add_l w a b : uw w (uw w a + b) = uw w (a + b).
Proof. unfold uw. apply Zplus_mod_idemp_l. Qed.

Lemma uw_add_r w a b : uw w (a + uw w b) = uw w (a + b).
Proof. unfold uw. apply Zplus_mod_idemp_r. Qed.

Lemma uw_sub_l w a b : uw w (uw w a - b) = uw w (a - b).
Proof. unfold uw. apply Zminus_mod_idemp_l. Qed.

Lemma uw_sub_r w a b : uw w (a - uw w b) = uw w (a - b).
Proof. unfold uw. apply Zminus_mod_idemp_r. Qed.

Lemma uw_idemp w a : uw w (uw w a) = uw w a.
Proof. unfold uw. apply Zmod_mod. Qed.

Lemma sw_add_l w a b : sw w (sw w a + b) = sw w (a + b).
Proof.
  unfold sw. f_equal. replace ((a + 2 ^ (w - 1)) mod 2 ^ w - 2 ^ (w - 1) + b + 2 ^ (w - 1))%Z
    with ((a + 2 ^ (w - 1)) mod 2 ^ w + b)%Z by lia.
  rewrite Zplus_mod_idemp_l. f_equal. lia.
Qed.

Lemma sw_range w z : (1 <= w)%Z → (- 2 ^ (w - 1) <= sw w z < 2 ^ (w - 1))%Z.
Proof.
  intros. unfold sw.
  assert (Hp : (2 ^ w = 2 * 2 ^ (w - 1))%Z).
  { rewrite <- (Z.pow_succ_r 2 (w - 1)) by lia. f_equal. lia. }
  pose proof (Z.mod_pos_bound (z + 2 ^ (w - 1)) (2 ^ w)). lia.
Qed.

Lemma sw_small w z : (1 <= w)%Z → (- 2 ^ (w - 1) <= z < 2 ^ (w - 1))%Z → sw w z = z.
Proof.
  intros. unfold sw.
  assert (Hp : (2 ^ w = 2 * 2 ^ (w - 1))%Z).
  { rewrite <- (Z.pow_succ_r 2 (w - 1)) by lia. f_equal. lia. }
  rewrite Z.mod_small by lia. lia.
Qed.

Create HintDb coro discriminated.
Create Rewrite HintDb words.
#[export] Hint Rewrite uw_add_l uw_add_r uw_sub_l uw_sub_r uw_idemp : words.
#[export] Hint Resolve reach_init count_if_nonneg uw_range : coro.

(** ** Tactics of the development *)

(** [step_inv H]: unfold one executed step [H : step l s = Some (s', es)] into
    its enabled branches: splits every match and conditional of [H], discards
    the [None] branches and names what is left. *)
Ltac step_inv H :=
  repeat first
    [ discriminate H
    | case_decide; try discriminate H
    | match type of H with
      | ?o ≫= _ = _ =>
          let E := fresh "E" in destruct o eqn:E; simpl in H; try discriminate H
      | context [match ?x with _ => _ end] =>
          let E := fresh "E" in destruct x eqn:E; try discriminate H
      end ];
  repeat match goal with
  | E : ?o ≫= _ = Some _ |- _ =>
      let E' := fresh "E" in destruct o eqn:E'; simpl in E; try discriminate E
  end;
  simplify_eq/=.

(** Case analysis on lookups after updates, for goals and hypotheses. *)
Ltac subst_key H i j E := first [subst j | subst i | rewrite E in H].

Ltac lookup_cases :=
  repeat match goal with
  | H : context [ <[?i:=_]> _ !! ?j ] |- _ =>
      let E := fresh "Hk" in
      destruct (decide (i = j)) as [E|E];
      [subst_key H i j E; rewrite lookup_insert_eq in H
      |rewrite lookup_insert_ne in H by exact E]
  | H : context [ delete ?i _ !! ?j ] |- _ =>
      let E := fresh "Hk" in
      destruct (decide (i = j)) as [E|E];
      [subst_key H i j E; rewrite lookup_delete_eq in H
      |rewrite lookup_delete_ne in H by exact E]
  end; simplify_eq/=.
