(* ===== verification/Effects.v ===== *)
(** * Effectful code

    The engine's functions work on a state, show events, and may not come back:
    a monad over [outcome], and the two ways the proofs go through it, [within]
    (what every run that returns does) and [never] (an outcome excluded). *)
From S2P Require Import Prelude.

Inductive outcome (A : Type) :=
  | Ok (a : A)
  | Blocked                           (* asleep in a system call *)
  | Fault                             (* a failed assertion or a bad access *)
  | OutOfFuel.                        (* recursion deeper than the fuel *)
Arguments Ok {A}.
Arguments Blocked {A}.
Arguments Fault {A}.
Arguments OutOfFuel {A}.

Section prog.
Context {S E : Type}.

Definition prog (A : Type) : Type := S → outcome (A * S * list E).

#[export] Instance prog_ret : MRet prog := λ A a s, Ok (a, s, []).
#[export] Instance prog_bind : MBind prog := λ A B f m s,
  match m s with
  | Ok (a, s1, e1) =>
      match f a s1 with
      | Ok (b, s2, e2) => Ok (b, s2, e1 ++ e2)
      | Blocked => Blocked | Fault => Fault | OutOfFuel => OutOfFuel
      end
  | Blocked => Blocked | Fault => Fault | OutOfFuel => OutOfFuel
  end.

Definition get : prog S := λ s, Ok (s, s, []).
Definition put (s : S) : prog () := λ _, Ok ((), s, []).
Definition modify (f : S → S) : prog () := λ s, Ok ((), f s, []).
Definition emit (e : E) : prog () := λ s, Ok ((), s, [e]).
Definition fault {A} : prog A := λ _, Fault.
Definition blocked {A} : prog A := λ _, Blocked.
Definition out_of_fuel {A} : prog A := λ _, OutOfFuel.

(** The bodies of [if]s without an [else]. *)
Definition when (b : bool) (m : prog ()) : prog () := if b then m else mret ().

Fixpoint for_each {A} (f : A → prog ()) (l : list A) : prog () :=
  match l with
  | [] => mret ()
  | a :: l => _ ← f a; for_each f l
  end.

Lemma bind_ok {A B} (m : prog A) (f : A → prog B) s b s2 es : (m ≫= f) s = Ok (b, s2, es) →
  ∃ a s1 e1 e2, m s = Ok (a, s1, e1) ∧ f a s1 = Ok (b, s2, e2) ∧ es = e1 ++ e2.
Proof.
  unfold mbind, prog_bind. destruct (m s) as [[[a s1] e1]| | |]; try done.
  destruct (f a s1) as [[[b' s'] e2]| | |] eqn:Hf; try done. intros [= -> -> <-]. eauto 10.
Qed.

Lemma bind_out_of_fuel {A B} (m : prog A) (f : A → prog B) s : (m ≫= f) s = OutOfFuel →
  m s = OutOfFuel ∨ ∃ a s1 e1, m s = Ok (a, s1, e1) ∧ f a s1 = OutOfFuel.
Proof.
  unfold mbind, prog_bind. destruct (m s) as [[[a s1] e1]| | |]; try done; [|by left].
  destruct (f a s1) as [[[b' s'] e2]| | |] eqn:Hf; try done. eauto 10.
Qed.

(** *** What runs do: a relation that holds of doing nothing and composes *)
Class Evolution (R : S → list E → S → Prop) : Prop := {
  evolves_refl s : R s [] s;
  evolves_trans s1 e1 s2 e2 s3 : R s1 e1 s2 → R s2 e2 s3 → R s1 (e1 ++ e2) s3;
}.

Definition within {A} (R : S → list E → S → Prop) (m : prog A) : Prop :=
  ∀ s a s' es, m s = Ok (a, s', es) → R s es s'.

Section within.
Context (R : S → list E → S → Prop) `{!Evolution R}.

Lemma within_ret {A} (a : A) : within R (mret a).
Proof. intros s a' s' es [= <- <- <-]. apply evolves_refl. Qed.

Lemma within_bind {A B} (m : prog A) (f : A → prog B) :
  within R m → (∀ a, within R (f a)) → within R (m ≫= f).
Proof.
  intros Hm Hf s b s' es Hs. apply bind_ok in Hs as (a & s1 & e1 & e2 & H1 & H2 & ->).
  eapply evolves_trans; [by eapply Hm|by eapply Hf].
Qed.

Lemma within_get {B} (f : S → prog B) :
  (∀ s0 b s' es, f s0 s0 = Ok (b, s', es) → R s0 es s') → within R (get ≫= f).
Proof.
  intros Hf s b s' es Hs. apply bind_ok in Hs as (a & s1 & e1 & e2 & [= <- <- <-] & H2 & ->). by eapply Hf.
Qed.

Lemma within_modify f : (∀ s, R s [] (f s)) → within R (modify f).
Proof. intros Hf s a s' es [= <- <- <-]. apply Hf. Qed.

Lemma within_emit e : (∀ s, R s [e] s) → within R (emit e).
Proof. intros Hf s a s' es [= <- <- <-]. apply Hf. Qed.

Lemma within_stops {A} : within R (A:=A) fault ∧ within R (A:=A) blocked ∧ within R (A:=A) out_of_fuel.
Proof. done. Qed.

Lemma within_when b m : within R m → within R (when b m).
Proof. intros Hm. destruct b; [done|apply within_ret]. Qed.

Lemma within_for_each {A} (f : A → prog ()) l : (∀ a, within R (f a)) → within R (for_each f l).
Proof.
  intros Hf. induction l as [|a l IH]; simpl; [apply within_ret|].
  apply within_bind; [done|intros; done].
Qed.
End within.
End prog.
Arguments prog : clear implicits.
#[export] Hint Resolve within_ret within_when within_for_each : coro.
