(* ===== verification/WaitCount.v ===== *)
(** * The wait counters of the contexts

    [m_num_wait_task] of every context, updated by the awaiters of the
    synchronisation components through [context::register_wait] and
    [context::unregister_wait] (include/coro/context.hpp). *)
From S2P Require Import Prelude.
Local Open Scope Z_scope.
Local Open Scope coro_scope.

(** The counter ([atomic<size_t>]) of every context. *)
Abbreviation wcount := (nat → Z) (only parsing).

(** [m_num_wait_task.fetch_add(size_t(register_cnt))] *)
Definition register_wait (c : nat) (register_cnt : Z) (w : nat → Z) : nat → Z :=
  <[c := u64 (w c + u64 register_cnt)]> w.

(** [m_num_wait_task.fetch_sub(register_cnt)] *)
Definition unregister_wait (c : nat) (register_cnt : Z) (w : nat → Z) : nat → Z :=
  <[c := u64 (w c - u64 register_cnt)]> w.

Lemma register_wait_eq c n w : register_wait c n w c = u64 (w c + n).
Proof. unfold register_wait. rewrite fn_lookup_insert. by autorewrite with words. Qed.

Lemma register_wait_ne c c' n w : c ≠ c' → register_wait c n w c' = w c'.
Proof. intros. unfold register_wait. by rewrite fn_lookup_insert_ne. Qed.

Lemma unregister_wait_eq c n w : unregister_wait c n w c = u64 (w c - n).
Proof. unfold unregister_wait. rewrite fn_lookup_insert. by autorewrite with words. Qed.

Lemma unregister_wait_ne c c' n w : c ≠ c' → unregister_wait c n w c' = w c'.
Proof. intros. unfold unregister_wait. by rewrite fn_lookup_insert_ne. Qed.

Section accounting.
(** Objects kept in a map [m], each charging the context [ctx_of] it runs on. *)
Context {Key A : Type} `{Countable Key} (ctx_of : A → nat).

(** The counters [w] charge one unit per object of [m], modulo [size_t]. *)
Definition accounts (m : gmap Key A) (w : nat → Z) : Prop :=
  ∀ c, w c = u64 (count_if (λ x, bool_decide (ctx_of x = c)) m).

Lemma accounts_register m w a x : m !! a = None →
  accounts m w → accounts (<[a:=x]> m) (register_wait (ctx_of x) 1 w).
Proof.
  intros Ha Hw c. rewrite count_if_insert by done. case_bool_decide as Hc.
  - subst c. rewrite register_wait_eq, Hw. by autorewrite with words.
  - rewrite register_wait_ne by done. rewrite Hw. f_equal. simpl. lia.
Qed.

Lemma accounts_unregister m w a x : m !! a = Some x →
  accounts m w → accounts (delete a m) (unregister_wait (ctx_of x) 1 w).
Proof.
  intros Ha Hw c. rewrite (count_if_delete _ _ _ x) by done. case_bool_decide as Hc.
  - subst c. rewrite unregister_wait_eq, Hw. by autorewrite with words.
  - rewrite unregister_wait_ne by done. rewrite Hw. f_equal. simpl. lia.
Qed.

Lemma accounts_update m w a x y : m !! a = Some x → ctx_of x = ctx_of y →
  accounts m w → accounts (<[a:=y]> m) w.
Proof.
  intros Ha Hxy Hw c. rewrite (count_if_update _ _ _ x) by done.
  rewrite Hw, Hxy. f_equal. lia.
Qed.

(** A registration of nothing ([register_wait(!m_suspend_state)]). *)
Lemma accounts_register_none m w c : accounts m w → accounts m (register_wait c 0 w).
Proof.
  intros Hw d. destruct (decide (c = d)) as [<-|Hne].
  - rewrite register_wait_eq, Hw. by rewrite Z.add_0_r, uw_idemp.
  - by rewrite register_wait_ne.
Qed.
End accounting.
#[export] Hint Resolve accounts_register accounts_unregister : coro.

(** ** The contract of a component

    What a component whose awaiters wait promises to the contexts: their
    counters are the numbers of their coroutines that are registered (between
    [register_wait] and [unregister_wait]), and when it submits a coroutine to
    its context, that coroutine is still registered there. *)
Class WaitAccounting {S L E} (M : machine S L E) := {
  counter : S → nat → Z;              (* m_num_wait_task *)
  suspended_on : S → nat → Z;
  submits : L → S → option nat;       (* the context that a step submits a coroutine to *)
}.
Class WaitAccountingLaws {S L E} (M : machine S L E) `{!WaitAccounting M} : Prop := {
  suspended_on_nonneg s c : 0 <= suspended_on s c;
  counter_suspended s tr c : reach M s tr → counter s c = u64 (suspended_on s c);
  submits_suspended s tr l c : reach M s tr → submits l s = Some c → 0 < suspended_on s c;
}.
Arguments counter {S L E} M {_}.
Arguments suspended_on {S L E} M {_}.
Arguments submits {S L E} M {_}.

(** Two components side by side, on the same contexts. *)
#[export] Instance beside_waits {S1 L1 E1 S2 L2 E2} (M1 : machine S1 L1 E1) (M2 : machine S2 L2 E2)
    `{!WaitAccounting M1, !WaitAccounting M2} : WaitAccounting (beside M1 M2) := {|
  counter s c := u64 (counter M1 s.1 c + counter M2 s.2 c);
  suspended_on s c := suspended_on M1 s.1 c + suspended_on M2 s.2 c;
  submits l s := match l with inl l => submits M1 l s.1 | inr l => submits M2 l s.2 end;
|}.

#[export] Instance beside_waits_laws {S1 L1 E1 S2 L2 E2} (M1 : machine S1 L1 E1) (M2 : machine S2 L2 E2)
    `{WaitAccountingLaws _ _ _ M1, WaitAccountingLaws _ _ _ M2} : WaitAccountingLaws (beside M1 M2).
Proof.
  split.
  - intros s c. apply Z.add_nonneg_nonneg; apply suspended_on_nonneg.
  - intros s tr c Hr. apply beside_reach in Hr as [H1 H2]. simpl.
    rewrite (counter_suspended _ _ c H1), (counter_suspended _ _ c H2).
    by rewrite uw_add_l, uw_add_r.
  - intros s tr l c Hr Hs. apply beside_reach in Hr as [H1 H2]. simpl in *.
    pose proof (suspended_on_nonneg s.1 c). pose proof (suspended_on_nonneg s.2 c).
    destruct l as [l|l]; [pose proof (submits_suspended _ _ _ _ H1 Hs)|pose proof (submits_suspended _ _ _ _ H2 Hs)]; lia.
Qed.

(** A component that keeps its awaiters in a map accounts for them. *)
Section awaiters.
Context {S L E Key A : Type} `{Countable Key} (M : machine S L E).
Context (mem : S → gmap Key A) (ctx_of : A → nat) (nwait : S → nat → Z) (woken : L → S → option Key).

Definition awaiters_waits : WaitAccounting M := {|
  counter := nwait;
  suspended_on s c := count_if (λ x, bool_decide (ctx_of x = c)) (mem s);
  submits l s := a ← woken l s; ctx_of <$> mem s !! a;
|}.

Lemma awaiters_waits_laws : (∀ s tr, reach M s tr → accounts ctx_of (mem s) (nwait s)) →
  WaitAccountingLaws (WaitAccounting0 := awaiters_waits) M.
Proof.
  intros Ha. split; simpl.
  - intros s c. apply count_if_nonneg.
  - intros s tr c Hr. by apply Ha in Hr.
  - intros s tr l c _ Hs. destruct (woken l s) as [a|]; [|done]. simpl in Hs.
    destruct (mem s !! a) as [x|] eqn:Hx; [|done]. injection Hs as <-.
    apply (count_if_pos _ _ a x); [done|]. by apply bool_decide_eq_true.
Qed.
End awaiters.
