(* ===== verification/LockSpec.v ===== *)
(** * The contract of [coro::mutex]: a queue lock

    What the mutex promises to its clients: one holder at a time, waiters
    served in the order in which they were queued, and a release that hands
    the lock to the head of the queue. [Mutex.v] proves that the code
    implements it; [CondVar.v] is proved against it. *)
From S2P Require Import Prelude.

(** A waiter: the context its coroutine must run on, and the coroutine. *)
Abbreviation waiter := (nat * nat)%type (only parsing).

Record lock_state := LockState {
  holder : option nat;
  queue : list (nat * nat);
}.

Inductive lock_event :=
  | Acquire (t : nat)                            (* lock found free *)
  | TryFail (t : nat)                            (* try_lock returned false *)
  | Enqueue (w : nat * nat)                      (* suspended behind the holder *)
  | Release (t : nat) (next : option (nat * nat)).    (* unlocked, handed to [next] *)

Inductive lock_label :=
  | LAcquire (t : nat)
  | LTryFail (t : nat)
  | LEnqueue (w : nat * nat)
  | LRelease (t : nat).

Definition lock_step (l : lock_label) (s : lock_state) : option (lock_state * list lock_event) :=
  match l with
  | LAcquire t =>
      match holder s with
      | None => Some (LockState (Some t) (queue s), [Acquire t])
      | Some _ => None
      end
  | LTryFail t =>
      match holder s with
      | None => None
      | Some _ => Some (s, [TryFail t])
      end
  | LEnqueue w =>
      match holder s with
      | None => None
      | Some _ => Some (LockState (holder s) (queue s ++ [w]), [Enqueue w])
      end
  | LRelease t =>
      if decide (holder s = Some t) then
        match queue s with
        | [] => Some (LockState None [], [Release t None])
        | w :: q => Some (LockState (Some w.2) q, [Release t (Some w)])
        end
      else None
  end.

Definition lock_init : lock_state := LockState None [].

Definition lock_machine : machine lock_state lock_label lock_event :=
  Machine (λ s, s = lock_init) lock_step.

(** ** Observations of a trace *)

(** The waiters queued, in order, and the waiters the lock was handed to. *)
Definition enqueued (tr : list lock_event) : list (nat * nat) :=
  omap (λ e, match e with Enqueue w => Some w | _ => None end) tr.
Definition handed (tr : list lock_event) : list (nat * nat) :=
  omap (λ e, match e with Release _ (Some w) => Some w | _ => None end) tr.

(** Replaying the ownership of a trace: [None] as soon as someone acquires a
    lock that is held, or releases a lock it does not hold. *)
Fixpoint ownership (tr : list lock_event) (h : option nat) : option (option nat) :=
  match tr with
  | [] => Some h
  | Acquire t :: tr =>
      match h with None => ownership tr (Some t) | Some _ => None end
  | Release t w :: tr =>
      if decide (h = Some t) then ownership tr (snd <$> w) else None
  | _ :: tr => ownership tr h
  end.

Lemma ownership_app tr1 tr2 h :
  ownership (tr1 ++ tr2) h = ownership tr1 h ≫= ownership tr2.
Proof.
  revert h. induction tr1 as [|e tr1 IH]; intros h; [done|].
  destruct e, h; simpl; try done; try case_decide; done.
Qed.

(** Every trace of the queue lock hands the lock over in arrival order, and
    never to two holders. *)
Lemma lock_trace_inv s tr : reach lock_machine s tr →
  enqueued tr = handed tr ++ queue s ∧ ownership tr None = Some (holder s) ∧
  (holder s = None → queue s = []).
Proof.
  revert s tr. apply reach_inv_tr; [by intros s ->|].
  intros s tr l s' es (Hq & Ho & Hn) Hs. unfold enqueued, handed in *.
  rewrite !omap_app, ownership_app, Ho, Hq. simpl.
  simpl in Hs. unfold lock_step in Hs. destruct l; step_inv Hs;
    rewrite ?app_nil_r, ?E0, ?E, ?H; simpl; rewrite ?decide_True by done;
    rewrite <- ?app_assoc; simpl; split_and!; try done; naive_solver.
Qed.
