(* ===== verification/Mutex.v ===== *)
(** * coro::mutex (include/coro/comp/mutex.hpp, src/comp/mutex.cpp)

    The mutex word and the awaiters that threads link behind it, with every
    atomic access of the code as one step of a machine whose agents are the
    coroutines. Sequentially consistent interleavings; a weak
    compare-exchange may fail spuriously. *)
From S2P Require Import Prelude WaitCount LockSpec.
Local Open Scope Z_scope.

(** ** Data *)

(** [mutex::nolocked] and [mutex::locked_no_waiting]; any other value of
    [m_state] is the address of the last awaiter that queued itself. *)
Definition nolocked : ptr := 1.
Definition locked_no_waiting : ptr := 0.

Record mutex_awaiter := MutexAwaiter {
  m_ctx : nat;           (* the context of the waiting coroutine *)
  m_next : ptr;
  m_await_coro : nat;    (* the coroutine to resume *)
}.

(** Where a coroutine is in the code of the mutex. A coroutine that is not in
    the map of the machine is outside of it. *)
Inductive pc :=
  | RegLoad (this : ptr)                    (* register_lock: load m_state *)
  | RegCasFree (this : ptr)                 (* ... saw nolocked, CAS to locked_no_waiting *)
  | RegCasPush (this state : ptr)           (* ... m_next = state, CAS to this *)
  | Waiting (this : ptr)                    (* suspended, register_lock returned true *)
  | Resumed (this : ptr)                    (* owns the lock, await_resume to run *)
  | Holding                                 (* owns the lock, awaiter destroyed *)
  | UnlReadList                             (* unlock: read m_resume_list_head *)
  | UnlCas                                  (* ... it is null: CAS locked_no_waiting -> nolocked *)
  | UnlXchg                                 (* ... there are waiters: take the whole stack *)
  | UnlRev (awaiter to_resume : ptr)        (* ... reverse it *)
  | UnlPop (to_resume : ptr)                (* ... m_resume_list_head = to_resume->m_next *)
  | UnlResume (to_resume : ptr).            (* ... to_resume->resume() *)

Record state := State {
  m_state : ptr;
  m_resume_list_head : ptr;
  mem : gmap ptr mutex_awaiter;   (* the awaiters alive *)
  pcs : gmap nat pc;
  nwait : nat → Z;                (* m_num_wait_task of the contexts *)
}.

Inductive label :=
  | Lock (t : nat) (this : ptr) (ctx : nat)   (* co_await lock() with its awaiter at [this] *)
  | TryLock (t : nat)
  | Unlock (t : nat)
  | Step (t : nat) (spurious : bool).

Definition init : state := State nolocked nullptr ∅ ∅ (λ _, 0).

(** ** Updates of the state *)
Definition set_pc (t : nat) (p : pc) (s : state) : state :=
  State (m_state s) (m_resume_list_head s) (mem s) (<[t := p]> (pcs s)) (nwait s).
Definition leave (t : nat) (s : state) : state :=
  State (m_state s) (m_resume_list_head s) (mem s) (delete t (pcs s)) (nwait s).
Definition set_state (v : ptr) (s : state) : state :=
  State v (m_resume_list_head s) (mem s) (pcs s) (nwait s).
Definition set_head (v : ptr) (s : state) : state :=
  State (m_state s) v (mem s) (pcs s) (nwait s).
Definition set_mem (m : gmap ptr mutex_awaiter) (s : state) : state :=
  State (m_state s) (m_resume_list_head s) m (pcs s) (nwait s).
Definition set_nwait (w : nat → Z) (s : state) : state :=
  State (m_state s) (m_resume_list_head s) (mem s) (pcs s) w.

(** [a->m_next = v], undefined when there is no awaiter at [a]. *)
Definition write_next (a v : ptr) (s : state) : option state :=
  aw ← mem s !! a;
  Some (set_mem (<[a := MutexAwaiter (m_ctx aw) v (m_await_coro aw)]> (mem s)) s).
Definition read_next (a : ptr) (s : state) : option ptr := m_next <$> mem s !! a.

(** ** The operations *)

(** [mutex_awaiter] constructor and [await_suspend] up to the call of
    [register_lock]: the awaiter takes an address that no live awaiter has. *)
Definition await_suspend (t : nat) (this : ptr) (ctx : nat) (s : state) : option state :=
  if decide (pcs s !! t = None ∧ mem s !! this = None ∧ 1 < this) then
    let s := set_mem (<[this := MutexAwaiter ctx nullptr t]> (mem s)) s in
    let s := set_nwait (register_wait ctx 1 (nwait s)) s in
    Some (set_pc t (RegLoad this) s)
  else None.

(** [mutex_awaiter::await_resume], after which the awaiter is destroyed. *)
Definition await_resume (t : nat) (this : ptr) (s : state) : option state :=
  aw ← mem s !! this;
  let s := set_nwait (unregister_wait (m_ctx aw) 1 (nwait s)) s in
  Some (set_pc t Holding (set_mem (delete this (mem s)) s)).

(** [mutex_awaiter::register_lock], one iteration of its loop per pass
    through [RegLoad]. *)
Definition register_lock (t : nat) (p : pc) (spurious : bool) (s : state)
    : option (state * list lock_event) :=
  match p with
  | RegLoad this =>
      let state := m_state s in
      s ← write_next this nullptr s;
      if decide (state = nolocked) then Some (set_pc t (RegCasFree this) s, [])
      else
        s ← write_next this state s;
        Some (set_pc t (RegCasPush this state) s, [])
  | RegCasFree this =>
      if decide (m_state s = nolocked ∧ spurious = false) then
        Some (set_pc t (Resumed this) (set_state locked_no_waiting s), [Acquire t])
      else Some (set_pc t (RegLoad this) s, [])
  | RegCasPush this state =>
      if decide (m_state s = state ∧ spurious = false) then
        aw ← mem s !! this;
        Some (set_pc t (Waiting this) (set_state this s), [Enqueue (m_ctx aw, t)])
      else Some (set_pc t (RegLoad this) s, [])
  | _ => None
  end.

(** [mutex::try_lock] *)
Definition try_lock (t : nat) (s : state) : option (state * list lock_event) :=
  if decide (pcs s !! t = None) then
    if decide (m_state s = nolocked) then
      Some (set_pc t Holding (set_state locked_no_waiting s), [Acquire t])
    else Some (s, [TryFail t])
  else None.

(** [mutex_awaiter::resume]: the coroutine is submitted to its context. *)
Definition resume (a : ptr) (s : state) : option (state * (nat * nat)) :=
  aw ← mem s !! a;
  Some (set_pc (m_await_coro aw) (Resumed a) s, (m_ctx aw, m_await_coro aw)).

(** [mutex::unlock], the assertions included (a failed one is no step). *)
Definition unlock (t : nat) (p : pc) (s : state) : option (state * list lock_event) :=
  match p with
  | UnlReadList =>
      let to_resume := m_resume_list_head s in
      if decide (to_resume = nullptr) then Some (set_pc t UnlCas s, [])
      else Some (set_pc t (UnlPop to_resume) s, [])
  | UnlCas =>
      if decide (m_state s = locked_no_waiting) then
        Some (leave t (set_state nolocked s), [Release t None])
      else Some (set_pc t UnlXchg s, [])
  | UnlXchg =>
      let head := m_state s in
      if decide (head ≠ nolocked ∧ head ≠ locked_no_waiting) then
        Some (set_pc t (UnlRev head nullptr) (set_state locked_no_waiting s), [])
      else None
  | UnlRev awaiter to_resume =>
      temp ← read_next awaiter s;
      s ← write_next awaiter to_resume s;
      if decide (temp ≠ nullptr) then Some (set_pc t (UnlRev temp awaiter) s, [])
      else Some (set_pc t (UnlPop awaiter) s, [])
  | UnlPop to_resume =>
      nx ← read_next to_resume s;
      Some (set_pc t (UnlResume to_resume) (set_head nx s), [])
  | UnlResume to_resume =>
      '(s, w) ← resume to_resume (leave t s);
      Some (s, [Release t (Some w)])
  | _ => None
  end.

Definition step (l : label) (s : state) : option (state * list lock_event) :=
  match l with
  | Lock t this ctx => s ← await_suspend t this ctx s; Some (s, [])
  | TryLock t => try_lock t s
  | Unlock t =>
      match pcs s !! t with
      | Some Holding =>
          if decide (m_state s ≠ nolocked) then Some (set_pc t UnlReadList s, []) else None
      | _ => None
      end
  | Step t spurious =>
      match pcs s !! t with
      | Some (RegLoad _ | RegCasFree _ | RegCasPush _ _) as p =>
          p ← p; register_lock t p spurious s
      | Some (Resumed this) => s ← await_resume t this s; Some (s, [])
      | Some (Waiting _ | Holding) | None => None
      | Some p => unlock t p s
      end
  end.

Definition mutex_machine : machine state label lock_event := Machine (λ s, s = init) step.

(** ** Abstraction *)

(** The coroutine that owns the lock, in any phase of the critical section or
    of [unlock]. *)
Definition owner (p : pc) : bool :=
  match p with
  | RegLoad _ | RegCasFree _ | RegCasPush _ _ | Waiting _ => false
  | _ => true
  end.

(** The address of the awaiter of a coroutine. *)
Definition awaiter_of (p : pc) : option ptr :=
  match p with
  | RegLoad a | RegCasFree a | RegCasPush a _ | Waiting a | Resumed a => Some a
  | _ => None
  end.

(** The awaiters already taken off the stack, next one first: [unlock] keeps
    them in [m_resume_list_head] and, while it reverses, in two chains. *)
Definition taken (s : state) (p : pc) (l : list ptr) : Prop :=
  let nx a := read_next a s in
  match p with
  | UnlCas | UnlXchg => m_resume_list_head s = nullptr ∧ l = []
  | UnlRev aw r => m_resume_list_head s = nullptr ∧
      ∃ la lr, aw ≠ nullptr ∧ chain nx aw la ∧ chain nx r lr ∧ l = reverse la ++ lr
  | UnlPop r => r ≠ nullptr ∧ chain nx r l
  | UnlResume r => ∃ l', l = r :: l' ∧ r ≠ nullptr ∧ chain nx (m_resume_list_head s) l'
  | _ => chain nx (m_resume_list_head s) l
  end.

(** The waiter that a queued awaiter stands for. *)
Definition is_waiting (s : state) (a : ptr) (w : nat * nat) : Prop :=
  ∃ aw, mem s !! a = Some aw ∧ w = (m_ctx aw, m_await_coro aw) ∧
        pcs s !! m_await_coro aw = Some (Waiting a).

(** Every coroutine owns its awaiter. *)
Definition owned (s : state) : Prop :=
  ∀ t p a, pcs s !! t = Some p → awaiter_of p = Some a →
    1 < a ∧ ∃ aw, mem s !! a = Some aw ∧ m_await_coro aw = t ∧
    (∀ v, p = RegCasPush a v → m_next aw = v ∧ v ≠ nolocked).

(** The queue of the mutex as the code stores it, in the order in which it
    will be served: [l] taken off the stack, [st] still on it. *)
Record queued (s : state) (q : list (nat * nat)) (p : pc) (l st : list ptr) : Prop := {
  q_locked : m_state s ≠ nolocked;
  q_taken : taken s p l;
  q_stack : chain (λ a, read_next a s) (m_state s) st;
  q_xchg : p = UnlXchg → st ≠ [];
  q_nodup : NoDup (l ++ reverse st);
  q_waiting : Forall2 (is_waiting s) (l ++ reverse st) q;
  q_all : ∀ t a, pcs s !! t = Some (Waiting a) → a ∈ l ++ reverse st;
}.

(** The representation relation between the code's state and the queue lock. *)
Record repr (s : state) (a : lock_state) : Prop := {
  r_owned : owned s;
  r_owner : ∀ t p, pcs s !! t = Some p → owner p = true → holder a = Some t;
  r_held : match holder a with
           | None => m_state s = nolocked ∧ m_resume_list_head s = nullptr ∧ queue a = [] ∧
                     ∀ t b, pcs s !! t ≠ Some (Waiting b)
           | Some t => ∃ p l st, pcs s !! t = Some p ∧ owner p = true ∧ queued s (queue a) p l st
           end;
}.

(** ** Lemmas on the representation *)

Lemma mutex_write_next_inv a v s s' : write_next a v s = Some s' →
  ∃ aw, mem s !! a = Some aw ∧
        s' = set_mem (<[a := MutexAwaiter (m_ctx aw) v (m_await_coro aw)]> (mem s)) s.
Proof. unfold write_next. destruct (mem s !! a) as [aw|]; simpl; [|done]. intros [= <-]. eauto. Qed.

Lemma mutex_write_next_ok a v s aw : mem s !! a = Some aw →
  write_next a v s =
    Some (set_mem (<[a := MutexAwaiter (m_ctx aw) v (m_await_coro aw)]> (mem s)) s).
Proof. unfold write_next. by intros ->. Qed.

(** Membership in the queue and waiting go together. *)
Lemma queued_in s q p l st a : queued s q p l st → a ∈ l ++ reverse st →
  ∃ aw, mem s !! a = Some aw ∧ pcs s !! m_await_coro aw = Some (Waiting a).
Proof.
  intros Hq Ha. apply list_elem_of_lookup in Ha as [i Hi].
  destruct (Forall2_lookup_l _ _ _ _ _ (q_waiting _ _ _ _ _ Hq) Hi)
    as (w & _ & aw & ? & _ & ?). eauto.
Qed.

(** An awaiter that is not waiting is in no list of the mutex. *)
Lemma queued_not_in s q p l st t pt a : queued s q p l st → owned s →
  pcs s !! t = Some pt → awaiter_of pt = Some a → pt ≠ Waiting a → a ∉ l ++ reverse st.
Proof.
  intros Hq Ho Ht Ha Hw Hin.
  destruct (queued_in _ _ _ _ _ _ Hq Hin) as (aw & Hm & Hp).
  destruct (Ho _ _ _ Ht Ha) as (_ & aw' & Hm' & <- & _). congruence.
Qed.

Lemma taken_ext s s' p l :
  m_resume_list_head s' = m_resume_list_head s →
  (∀ a, a ∈ l → read_next a s' = read_next a s) → taken s p l → taken s' p l.
Proof.
  intros Hh Hx. unfold taken. rewrite Hh.
  destruct p; simpl; try done;
    try (apply chain_ext; intros; symmetry; by apply Hx).
  - intros (? & la & lr & ? & Hla & Hlr & ->). split; [done|].
    exists la, lr. split_and!; [done| | |done]; (eapply chain_ext; [|done]);
      intros b Hb; symmetry; apply Hx; set_solver.
  - intros (? & Hc). split; [done|]. eapply chain_ext; [|done]. intros; symmetry; by apply Hx.
  - intros (l' & -> & ? & Hc). exists l'. split_and!; [done..|].
    eapply chain_ext; [|done]. intros; symmetry; apply Hx. by right.
Qed.

(** A change that touches neither the mutex word, nor the queued awaiters, nor
    who waits, keeps the queue. *)
Lemma queued_frame s s' q p l st :
  m_state s' = m_state s → m_resume_list_head s' = m_resume_list_head s →
  (∀ a, a ∈ l ++ reverse st → mem s' !! a = mem s !! a) →
  (∀ t a, pcs s' !! t = Some (Waiting a) ↔ pcs s !! t = Some (Waiting a)) →
  queued s q p l st → queued s' q p l st.
Proof.
  intros Hs Hh Hm Hw Hq. destruct Hq as [Hl Ht Hst Hx Hn Hwt Ha].
  assert (Hr : ∀ a, a ∈ l ++ reverse st → read_next a s' = read_next a s).
  { intros a Hin. unfold read_next. by rewrite Hm. }
  split; [congruence| | |done|done| |].
  - eapply taken_ext; [done| |done]. intros; apply Hr; set_solver.
  - rewrite Hs. eapply chain_ext; [|done]. intros a Hin. symmetry. apply Hr.
    apply elem_of_app. right. by apply elem_of_reverse.
  - eapply Forall2_impl_in; [exact Hwt|].
    intros a w Hin _ (aw & ? & ? & ?). exists aw. rewrite Hm by done. by rewrite Hw.
  - intros t a Hp. by apply (Ha t), Hw.
Qed.

Lemma owned_set_pc s t p : owned s →
  (∀ a, awaiter_of p = Some a → 1 < a ∧ ∃ aw, mem s !! a = Some aw ∧ m_await_coro aw = t ∧
        (∀ v, p = RegCasPush a v → m_next aw = v ∧ v ≠ nolocked)) →
  owned (set_pc t p s).
Proof.
  intros Ho Hp t' p' a Ht' Ha. simpl in *. lookup_cases; [by apply Hp|by eapply Ho].
Qed.

Lemma owned_leave s t : owned s → owned (leave t s).
Proof. intros Ho t' p' a Ht' Ha. simpl in *. lookup_cases. by eapply Ho. Qed.

Lemma owned_write s s' a v : write_next a v s = Some s' → owned s →
  (∀ t w, pcs s !! t ≠ Some (RegCasPush a w)) → owned s'.
Proof.
  intros (aw & Ha & ->)%mutex_write_next_inv Ho Hno t p b Ht Hb. simpl in *.
  destruct (Ho _ _ _ Ht Hb) as (? & bw & Hm & <- & Hv). split; [done|].
  destruct (decide (a = b)) as [->|].
  - rewrite lookup_insert_eq. simplify_eq. eexists. split_and!; [done..|].
    intros w ->. by destruct (Hno _ _ Ht).
  - rewrite lookup_insert_ne by done. eauto.
Qed.

(** The coroutines inside [register_lock]: they own nothing of the mutex yet. *)
Definition private (p : pc) : bool :=
  match p with RegLoad _ | RegCasFree _ | RegCasPush _ _ => true | _ => false end.

(** A step of a coroutine inside [register_lock] that neither takes the lock
    nor queues itself is invisible in the queue lock. *)
Lemma repr_private s s' a t p' :
  repr s a → owned s' →
  m_state s' = m_state s → m_resume_list_head s' = m_resume_list_head s →
  (∀ t' b, pcs s !! t' = Some (Waiting b) → mem s' !! b = mem s !! b) →
  pcs s' = <[t := p']> (pcs s) → private p' = true →
  (∀ p, pcs s !! t = Some p → private p = true) → repr s' a.
Proof.
  intros Hr Ho Hs Hh Hm Hp Hp' Hpt.
  assert (Hpc : ∀ t' p, private p = false →
      pcs s' !! t' = Some p ↔ pcs s !! t' = Some p).
  { intros t' p Hpr. rewrite Hp. destruct (decide (t = t')) as [<-|].
    - rewrite lookup_insert_eq. split; [congruence|].
      intros ?%Hpt. congruence.
    - by rewrite lookup_insert_ne. }
  destruct Hr as [_ Hown Hheld]. split; [done| |].
  - intros t' p Ht' Hop. apply (Hown t' p); [|done]. apply Hpc; [by destruct p|done].
  - destruct (holder a) as [h|].
    + destruct Hheld as (p & l & st & Hhp & Hop & Hq). exists p, l, st.
      split_and!; [apply Hpc; [by destruct p|done]|done|].
      eapply queued_frame; [done..| | |exact Hq].
      * intros b Hb. destruct (queued_in _ _ _ _ _ _ Hq Hb) as (aw & _ & Hw). by eapply Hm.
      * intros t' b. by apply Hpc.
    + destruct Hheld as (? & ? & ? & Hnw). split_and!; [congruence..|].
      intros t' b Hb. apply (Hnw t' b). by apply Hpc.
Qed.

(** A step of the owner inside its critical section or [unlock]. *)
Lemma repr_owner s s' a t p' l st :
  repr s a → holder a = Some t → owned s' →
  pcs s' = <[t := p']> (pcs s) → owner p' = true →
  queued s' (queue a) p' l st → repr s' a.
Proof.
  intros [_ Hown _] Hh Ho Hp Hop Hq. split; [done| |].
  - intros t' p. rewrite Hp. intros Ht' Hot'. lookup_cases; [done|]. by eapply Hown.
  - rewrite Hh. exists p', l, st. split_and!; [|done..]. rewrite Hp. apply lookup_insert_eq.
Qed.

(** The owner's program counter only matters through [taken]. *)
Lemma queued_pc s q p p' l l' st t :
  queued s q p l st → pcs s !! t = Some p → owner p = true → owner p' = true →
  l' = l → (taken s p l → taken s p' l') → (p' = UnlXchg → st ≠ []) →
  queued (set_pc t p' s) q p' l' st.
Proof.
  intros Hq Ht Hop Hop' -> Htk Hx. destruct Hq as [Hl Htk' Hst _ Hn Hw Ha].
  assert (Hpc : ∀ t' a, pcs (set_pc t p' s) !! t' = Some (Waiting a) ↔
                        pcs s !! t' = Some (Waiting a)).
  { intros t' a. simpl. destruct (decide (t = t')) as [<-|].
    - rewrite lookup_insert_eq, Ht. split; intros [= ->]; done.
    - by rewrite lookup_insert_ne. }
  split; simpl; try done.
  - specialize (Htk Htk'). by destruct p'.
  - eapply Forall2_impl_in; [exact Hw|]. intros a w _ _ (aw & ? & ? & ?).
    exists aw. split_and!; [done..|]. by apply Hpc.
  - intros t' a ?%Hpc. eauto.
Qed.

(** ** Every operation implements the queue lock *)

(** The queue lock answers a step to [s'] that shows [es]. *)
Definition answers (a : lock_state) (s' : state) (es : list lock_event) : Prop :=
  ∃ ls a', exec lock_machine ls a = Some (a', es) ∧ repr s' a'.

Lemma answers_silent a s' : repr s' a → answers a s' [].
Proof. intros. by exists [], a. Qed.

Lemma answers_one a s' l a' es :
  lock_step l a = Some (a', es) → repr s' a' → answers a s' es.
Proof.
  intros Hl ?. exists [l], a'. simpl. rewrite Hl. by rewrite app_nil_r.
Qed.

Lemma repr_not_owner s a t p : repr s a → pcs s !! t = Some p → owner p = false →
  holder a ≠ Some t.
Proof.
  intros [_ _ Hh] Ht Hp Ha. rewrite Ha in Hh. destruct Hh as (p' & ? & ? & ? & ? & _). congruence.
Qed.

Lemma repr_locked s a : repr s a → m_state s ≠ nolocked → ∃ h, holder a = Some h.
Proof. intros [_ _ Hh] Hs. destruct (holder a); [eauto|]. by destruct Hh. Qed.

Lemma repr_free s a : repr s a → m_state s = nolocked →
  holder a = None ∧ queue a = [] ∧ m_resume_list_head s = nullptr ∧
  ∀ t b, pcs s !! t ≠ Some (Waiting b).
Proof.
  intros [_ _ Hh] Hs. destruct (holder a).
  - destruct Hh as (p & l & st & _ & _ & Hq). by destruct (q_locked _ _ _ _ _ Hq).
  - destruct Hh as (_ & ? & ? & ?). done.
Qed.

Lemma await_suspend_answers s a t this ctx s' : repr s a →
  await_suspend t this ctx s = Some s' → answers a s' [].
Proof.
  intros Hr Hs. unfold await_suspend in Hs. case_decide as Hd; [|done].
  destruct Hd as (Ht & Hm & Hpos). injection Hs as <-.
  apply answers_silent. eapply (repr_private s _ a t); try done; simpl.
  - apply owned_set_pc.
    + intros t' p b Hp Hb. destruct (r_owned _ _ Hr _ _ _ Hp Hb) as (? & bw & Hbw & ?).
      split; [done|]. exists bw. simpl. rewrite lookup_insert_ne by congruence. done.
    + intros b [= <-]. split; [done|]. simpl. rewrite lookup_insert_eq. eexists. by split_and!.
  - intros t' b Hb. destruct (r_owned _ _ Hr _ _ _ Hb eq_refl) as (_ & bw & Hbw & _).
    rewrite lookup_insert_ne by congruence. done.
  - congruence.
Qed.

(** Writes to its own awaiter by a coroutine inside [register_lock]. *)
Lemma private_mem s a t p this (m' : gmap ptr mutex_awaiter) : repr s a → pcs s !! t = Some p → private p = true →
  awaiter_of p = Some this →
  (∀ b, b ≠ this → m' !! b = mem s !! b) →
  ∀ t' b, pcs s !! t' = Some (Waiting b) → m' !! b = mem s !! b.
Proof.
  intros Hr Ht Hp Ha Hm t' b Hb. apply Hm. intros ->.
  destruct (r_owned _ _ Hr _ _ _ Hb eq_refl) as (_ & bw & Hbw & Hc & _).
  destruct (r_owned _ _ Hr _ _ _ Ht Ha) as (_ & aw & Haw & Hc' & _).
  by simplify_eq.
Qed.

Lemma mutex_owned_coro s t p a aw : owned s → pcs s !! t = Some p → awaiter_of p = Some a →
  mem s !! a = Some aw → 1 < a ∧ m_await_coro aw = t.
Proof. intros Ho Ht Ha Hm. destruct (Ho _ _ _ Ht Ha) as (? & aw' & ? & ? & _). by simplify_eq. Qed.

(** The next pointer of an awaiter whose coroutine is in [register_lock]. *)
Lemma owned_set_next s t p this v p' : owned s → pcs s !! t = Some p →
  awaiter_of p = Some this → awaiter_of p' = Some this →
  (∀ w, p' = RegCasPush this w → w = v ∧ w ≠ nolocked) →
  ∀ aw, mem s !! this = Some aw →
  owned (set_pc t p' (set_mem (<[this := MutexAwaiter (m_ctx aw) v (m_await_coro aw)]> (mem s)) s)).
Proof.
  intros Ho Ht Ha Ha' Hv aw Haw t' q b Hq Hb. simpl in *.
  destruct (mutex_owned_coro _ _ _ _ _ Ho Ht Ha Haw) as [Hpos Hc].
  destruct (decide (t = t')) as [<-|Hne].
  - rewrite lookup_insert_eq in Hq. simplify_eq. split; [done|].
    rewrite lookup_insert_eq. eexists. split_and!; [done..|].
    intros w ->. by destruct (Hv w) as [-> ?].
  - rewrite lookup_insert_ne in Hq by done.
    destruct (Ho _ _ _ Hq Hb) as (? & bw & Hbw & Hc' & ?). split; [done|].
    rewrite lookup_insert_ne by congruence. eauto.
Qed.

Lemma register_load_answers s a t this s' es spurious : repr s a →
  pcs s !! t = Some (RegLoad this) →
  register_lock t (RegLoad this) spurious s = Some (s', es) → answers a s' es.
Proof.
  intros Hr Ht Hs. simpl in Hs.
  destruct (r_owned _ _ Hr _ _ _ Ht eq_refl) as (Hpos & aw & Haw & Hc & _).
  rewrite (mutex_write_next_ok _ _ _ _ Haw) in Hs. simpl in Hs. case_decide as Hd.
  - simplify_eq. apply answers_silent.
    eapply (repr_private s _ a (m_await_coro aw)); try done; simpl.
    + eapply owned_set_next; eauto using r_owned. done.
    + eapply (private_mem s a _ _ this); try done.
      intros b ?. by rewrite lookup_insert_ne.
    + intros p ?. by simplify_eq.
  - unfold write_next in Hs. simpl in Hs. rewrite lookup_insert_eq in Hs. simpl in Hs.
    simplify_eq. rewrite insert_insert_eq. apply answers_silent.
    eapply (repr_private s _ a (m_await_coro aw)); try done; simpl.
    + apply (owned_set_next s _ (RegLoad this)); eauto using r_owned. intros w [= <-]. done.
    + eapply (private_mem s a _ _ this); try done.
      intros b ?. by rewrite lookup_insert_ne.
    + intros p ?. by simplify_eq.
Qed.

(** A failed compare-exchange goes back to the load. *)
Lemma register_retry s a t p this : repr s a → pcs s !! t = Some p →
  private p = true → awaiter_of p = Some this → answers a (set_pc t (RegLoad this) s) [].
Proof.
  intros Hr Ht Hp Ha. apply answers_silent.
  eapply (repr_private s _ a t); try done.
  - apply owned_set_pc; [by destruct Hr|]. intros b [= <-].
    destruct (r_owned _ _ Hr _ _ _ Ht Ha) as (? & aw & ? & ? & _).
    split; [done|]. eexists. by split_and!.
  - intros q ?. by simplify_eq.
Qed.

(** A successful push queues the awaiter behind all the others. *)
Lemma repr_push s a this aw : repr s a → m_state s ≠ nolocked →
  pcs s !! m_await_coro aw = Some (RegCasPush this (m_next aw)) →
  mem s !! this = Some aw → m_next aw = m_state s →
  repr (set_pc (m_await_coro aw) (Waiting this) (set_state this s))
       (LockState (holder a) (queue a ++ [(m_ctx aw, m_await_coro aw)])).
Proof.
  intros Hr Hnl Ht Haw Hnx. destruct (repr_locked _ _ Hr Hnl) as [h Hh].
  pose proof (r_held _ _ Hr) as Hheld. rewrite Hh in Hheld.
  destruct Hheld as (p & l & st & Hhp & Hop & Hq).
  destruct (mutex_owned_coro _ _ _ _ _ (r_owned _ _ Hr) Ht eq_refl Haw) as [Hpos _].
  assert (Hni : this ∉ l ++ reverse st)
    by (eapply (queued_not_in s); [done|apply Hr|exact Ht|done|done]).
  assert (Hne : h ≠ m_await_coro aw) by (intros ->; by simplify_eq).
  assert (Hw : ∀ t' b, pcs s !! t' = Some (Waiting b) →
    <[m_await_coro aw := Waiting this]> (pcs s) !! t' = Some (Waiting b)).
  { intros t' b Hb. rewrite lookup_insert_ne; [done|]. intros <-. by simplify_eq. }
  split; simpl.
  - apply (owned_set_pc (set_state this s)); [apply Hr|].
    intros b [= <-]. split; [done|]. eexists. by split_and!.
  - intros t' p' Hp' Hop'. lookup_cases. by apply (r_owner _ _ Hr _ p').
  - rewrite Hh. exists p, l, (this :: st). rewrite lookup_insert_ne by done.
    split_and!; [done..|]. destruct Hq as [_ Htk Hst _ Hnd Hwt Hall].
    assert (Hrev : l ++ reverse (this :: st) = (l ++ reverse st) ++ [this])
      by by rewrite reverse_cons, app_assoc.
    split; rewrite ?Hrev; simpl.
    + intros ->. unfold nolocked in Hpos. lia.
    + eapply taken_ext; [done|done|exact Htk].
    + split; [done|]. split; [unfold nullptr; lia|]. exists (m_state s).
      unfold read_next. simpl. rewrite Haw. simpl. by rewrite Hnx.
    + done.
    + by apply NoDup_snoc.
    + apply Forall2_app.
      * eapply Forall2_impl_in; [exact Hwt|]. intros b w _ _ (bw & ? & ? & ?).
        exists bw. split_and!; [done..|]. simpl. by apply Hw.
      * constructor; [|constructor]. exists aw. split_and!; [done..|].
        apply lookup_insert_eq.
    + intros t' b Hb. simpl in Hb. lookup_cases; [set_solver|].
      specialize (Hall _ _ Hb). set_solver.
Qed.

(** Taking a free lock, through [register_lock] or [try_lock]. *)
Lemma acquire_answers s a t p : repr s a → m_state s = nolocked →
  p = Holding ∨ (∃ this, p = Resumed this ∧ pcs s !! t = Some (RegCasFree this)) →
  answers a (set_pc t p (set_state locked_no_waiting s)) [Acquire t].
Proof.
  intros Hr Hst Hp. destruct (repr_free _ _ Hr Hst) as (Hh & Hq & Hrl & Hnw).
  assert (owner p = true) by (destruct Hp as [->|(? & -> & _)]; done).
  eapply (answers_one _ _ (LAcquire t)); [unfold lock_step; by rewrite Hh|].
  rewrite Hq. split; simpl.
  - apply (owned_set_pc (set_state _ s)); [apply Hr|]. intros b Hb.
    destruct Hp as [->|(this & -> & Ht)]; [done|]. injection Hb as <-.
    destruct (r_owned _ _ Hr _ _ _ Ht eq_refl) as (? & aw & ? & ? & _).
    split; [done|]. eexists. by split_and!.
  - intros t' p' Hp' Hop'. lookup_cases; [done|].
    pose proof (r_owner _ _ Hr _ _ Hp' Hop'). congruence.
  - exists p, [], []. split_and!; [apply lookup_insert_eq|done|].
    split; simpl; try done.
    + destruct Hp as [->|(? & -> & _)]; done.
    + destruct Hp as [->|(? & -> & _)]; done.
    + by apply NoDup_nil_2.
    + intros t' b Hb. lookup_cases. by destruct (Hnw _ _ Hb).
Qed.

Lemma register_lock_answers s a t p s' es spurious : repr s a →
  pcs s !! t = Some p → register_lock t p spurious s = Some (s', es) → answers a s' es.
Proof.
  intros Hr Ht Hs. destruct p; try done.
  { by eapply register_load_answers. }
  all: simpl in Hs; case_decide as Hd; [|simplify_eq; by eapply register_retry].
  - (* the lock was free *)
    destruct Hd as [Hst _]. simplify_eq. apply acquire_answers; eauto.
  - (* queued behind the holder *)
    destruct Hd as [Hst _].
    destruct (r_owned _ _ Hr _ _ _ Ht eq_refl) as (Hpos & aw & Haw & Hc & Hnx).
    destruct (Hnx _ eq_refl) as [Hnext Hnl]. rewrite Haw in Hs. simpl in Hs. simplify_eq.
    destruct (repr_locked _ _ Hr) as [h Hh]; [done|].
    eapply (answers_one _ _ (LEnqueue (m_ctx aw, m_await_coro aw)));
      [unfold lock_step; by rewrite Hh|].
    rewrite <- Hh. apply repr_push; [done|done| |done|done]. by rewrite Hnext.
Qed.

Lemma try_lock_answers s a t s' es : repr s a →
  try_lock t s = Some (s', es) → answers a s' es.
Proof.
  intros Hr Hs. unfold try_lock in Hs. case_decide as Ht; [|done]. case_decide as Hst.
  - simplify_eq. apply acquire_answers; auto.
  - simplify_eq. destruct (repr_locked _ _ Hr Hst) as [h Hh].
    eapply (answers_one _ _ (LTryFail t)); [|done]. unfold lock_step. by rewrite Hh.
Qed.

Lemma await_resume_answers s a t this s' : repr s a →
  pcs s !! t = Some (Resumed this) → await_resume t this s = Some s' → answers a s' [].
Proof.
  intros Hr Ht Hs. unfold await_resume in Hs.
  destruct (mem s !! this) as [aw|] eqn:Haw; [|done]. simpl in Hs. simplify_eq.
  pose proof (r_owner _ _ Hr _ _ Ht eq_refl) as Hh.
  pose proof (r_held _ _ Hr) as Hheld. rewrite Hh in Hheld.
  destruct Hheld as (p & l & st & Hhp & Hop & Hq). simplify_eq.
  destruct (mutex_owned_coro _ _ _ _ _ (r_owned _ _ Hr) Ht eq_refl Haw) as [_ <-].
  assert (Hni : this ∉ l ++ reverse st)
    by (eapply (queued_not_in s); [done|apply Hr|exact Ht|done|done]).
  apply answers_silent. apply (repr_owner s _ a (m_await_coro aw) Holding l st); try done.
  - intros t' p b Hp Hb. simpl in *. lookup_cases.
    destruct (r_owned _ _ Hr _ _ _ Hp Hb) as (? & bw & ? & ? & ?). split; [done|].
    exists bw. rewrite lookup_delete_ne by congruence. done.
  - eapply (queued_frame (set_pc (m_await_coro aw) Holding s)); simpl; [done|done| |done|].
    + intros b Hb. rewrite lookup_delete_ne; [done|]. by intros <-.
    + eapply queued_pc; [exact Hq|exact Ht|done..].
Qed.

Lemma unlock_call_answers s a t : repr s a → pcs s !! t = Some Holding →
  answers a (set_pc t UnlReadList s) [].
Proof.
  intros Hr Ht. pose proof (r_owner _ _ Hr _ _ Ht eq_refl) as Hh.
  pose proof (r_held _ _ Hr) as Hheld. rewrite Hh in Hheld.
  destruct Hheld as (p & l & st & Hhp & Hop & Hq). simplify_eq.
  apply answers_silent. apply (repr_owner s _ a t UnlReadList l st); try done.
  - apply owned_set_pc; [apply Hr|done].
  - eapply queued_pc; [exact Hq|exact Ht|done..].
Qed.

(** The owner keeps the lock through the steps of [unlock] that only move
    awaiters from the stack to the resume list. *)
Lemma owner_step_answers s a t p p' l st l' st' v h m' :
  repr s a → pcs s !! t = Some p → holder a = Some t →
  queued s (queue a) p l st → owner p = true → owner p' = true → awaiter_of p' = None →
  let s' := set_pc t p' (State v h m' (pcs s) (nwait s)) in
  (∀ b bw, mem s !! b = Some bw → ∃ n,
     m' !! b = Some (MutexAwaiter (m_ctx bw) n (m_await_coro bw)) ∧
     (n = m_next bw ∨ b ∈ l ++ reverse st)) →
  v ≠ nolocked → l ++ reverse st = l' ++ reverse st' →
  taken s' p' l' → chain (λ b, read_next b s') v st' → (p' = UnlXchg → st' ≠ []) →
  answers a s' [].
Proof.
  intros Hr Ht Hh Hq Hop Hop' Haw s' Hm Hv Hl Htk Hst Hx. apply answers_silent.
  assert (Hpc : ∀ t' b, pcs s' !! t' = Some (Waiting b) ↔ pcs s !! t' = Some (Waiting b)).
  { intros t' b. simpl. destruct (decide (t = t')) as [<-|].
    - rewrite lookup_insert_eq, Ht. split; intros [= ->]; done.
    - by rewrite lookup_insert_ne. }
  apply (repr_owner s _ a t p' l' st'); try done.
  - intros t' q b Hq' Hb. simpl in *. lookup_cases.
    destruct (r_owned _ _ Hr _ _ _ Hq' Hb) as (? & bw & Hbw & Hc & Hpush).
    split; [done|].
    destruct (Hm _ _ Hbw) as (n & Hn & Hor).
    eexists. split; [exact Hn|]. split; [done|]. intros w ->. simpl.
    destruct Hor as [->|Hin]; [by apply Hpush|].
    destruct (queued_in _ _ _ _ _ _ Hq Hin) as (bw' & ? & Hw). simplify_eq.
  - destruct Hq as [_ _ _ _ Hnd Hwt Hall]. split; try done; rewrite <- Hl; [done| |].
    + eapply Forall2_impl_in; [exact Hwt|]. intros b w _ _ (bw & Hbw & -> & Hw).
      destruct (Hm _ _ Hbw) as (n & Hn & _). eexists. split; [exact Hn|].
      split; [done|]. by apply Hpc.
    + intros t' b ?%Hpc. eauto.
Qed.

(** The identity update of the memory in [owner_step_answers]. *)
Lemma mem_same (m : gmap ptr mutex_awaiter) (l : list ptr) b bw : m !! b = Some bw →
  ∃ n, m !! b = Some (MutexAwaiter (m_ctx bw) n (m_await_coro bw)) ∧
       (n = m_next bw ∨ b ∈ l).
Proof. intros Hb. exists (m_next bw). destruct bw. auto. Qed.

(** One turn of the loop that reverses the stack: the lists before it, and
    the lists after [awaiter->m_next = to_resume]. *)
Definition link (aw r : ptr) (x : mutex_awaiter) (s : state) : gmap ptr mutex_awaiter :=
  <[aw := MutexAwaiter (m_ctx x) r (m_await_coro x)]> (mem s).
Definition next_in (m : gmap ptr mutex_awaiter) (b : ptr) : option ptr := m_next <$> m !! b.

Lemma reverse_facts s a t aw r : repr s a → pcs s !! t = Some (UnlRev aw r) →
  ∃ x la lr st, holder a = Some t ∧ m_resume_list_head s = nullptr ∧
    mem s !! aw = Some x ∧ aw ≠ nullptr ∧
    queued s (queue a) (UnlRev aw r) (reverse (aw :: la) ++ lr) st ∧
    chain (next_in (mem s)) (m_next x) la ∧
    chain (next_in (link aw r x s)) (m_next x) la ∧
    chain (next_in (link aw r x s)) aw (aw :: lr) ∧
    chain (next_in (link aw r x s)) (m_state s) st.
Proof.
  intros Hr Ht. pose proof (r_owner _ _ Hr _ _ Ht eq_refl) as Hh.
  pose proof (r_held _ _ Hr) as Hheld. rewrite Hh in Hheld.
  destruct Hheld as (p & l & st & Hhp & Hop & Hq). simplify_eq.
  pose proof (q_taken _ _ _ _ _ Hq) as (Hrl & la0 & lr & Hn & Hla & Hlr & ->).
  apply chain_cons in Hla as (temp & la & -> & Htmp & Hla); [|done].
  unfold read_next in Htmp. destruct (mem s !! aw) as [x|] eqn:Hx; [|done].
  injection Htmp as <-. pose proof (q_nodup _ _ _ _ _ Hq) as Hnd.
  rewrite reverse_cons, <- !app_assoc in Hnd. simpl in Hnd.
  apply NoDup_app in Hnd as (_ & Hdisj & [Hnl _]%NoDup_cons).
  assert (Hext : ∀ q k, chain (next_in (mem s)) q k → aw ∉ k → chain (next_in (link aw r x s)) q k).
  { intros q k Hc Hk. eapply chain_ext; [|exact Hc]. intros b Hb. unfold next_in, link.
    rewrite lookup_insert_ne; [done|]. by intros <-. }
  exists x, la, lr, st. split_and!; try done.
  - apply Hext; [done|]. intros Hin. apply (Hdisj aw); [by apply elem_of_reverse|]. left.
  - split; [done|]. split; [done|]. exists r. unfold next_in at 1, link at 1.
    rewrite lookup_insert_eq. split; [done|]. apply Hext; [done|set_solver].
  - apply Hext; [apply Hq|]. intros Hin. apply Hnl, elem_of_app. right. by apply elem_of_reverse.
Qed.

Lemma unlock_reverse_answers s a t aw r s' es : repr s a →
  pcs s !! t = Some (UnlRev aw r) →
  unlock t (UnlRev aw r) s = Some (s', es) → answers a s' es.
Proof.
  intros Hr Ht Hs.
  destruct (reverse_facts _ _ _ _ _ Hr Ht)
    as (x & la & lr & st & Hh & Hrl & Hx & Hn & Hq & _ & Hla & Hlr & Hst).
  unfold unlock, read_next in Hs. rewrite (mutex_write_next_ok _ _ _ _ Hx), Hx in Hs. simpl in Hs.
  assert (Hmem : ∀ b bw, mem s !! b = Some bw → ∃ n,
     link aw r x s !! b = Some (MutexAwaiter (m_ctx bw) n (m_await_coro bw)) ∧
     (n = m_next bw ∨ b ∈ (reverse (aw :: la) ++ lr) ++ reverse st)).
  { intros b bw Hb. unfold link. destruct (decide (aw = b)) as [<-|].
    - rewrite lookup_insert_eq. simplify_eq. eexists. split; [done|]. right.
      rewrite reverse_cons. set_solver.
    - rewrite lookup_insert_ne by done. by apply mem_same. }
  case_decide as Htn; simplify_eq;
    eapply (owner_step_answers s a t _ _ _ st _ st); try done; try apply Hq;
    rewrite ?reverse_cons, <- ?app_assoc; try done.
  - simpl. split; [done|]. exists la, (aw :: lr). by split_and!.
  - rewrite Htn in Hla. apply chain_nil in Hla as ->. simpl. split; [done|]. exact Hlr.
Qed.

(** Nobody waits: the lock becomes free. *)
Lemma release_none_answers s a t l st : repr s a → pcs s !! t = Some UnlCas →
  holder a = Some t → queued s (queue a) UnlCas l st → m_state s = locked_no_waiting →
  answers a (leave t (set_state nolocked s)) [Release t None].
Proof.
  intros Hr Ht Hh Hq Hs. destruct (q_taken _ _ _ _ _ Hq) as [Hrl ->].
  pose proof (q_stack _ _ _ _ _ Hq) as Hst. rewrite Hs in Hst. apply chain_nil in Hst as ->.
  pose proof (q_waiting _ _ _ _ _ Hq) as Hw. apply Forall2_nil_inv_l in Hw.
  eapply (answers_one _ _ (LRelease t)).
  { unfold lock_step. rewrite decide_True by done. by rewrite Hw. }
  split; simpl.
  - apply (owned_leave (set_state nolocked s)). apply Hr.
  - intros t' p Hp Hop. lookup_cases. pose proof (r_owner _ _ Hr _ _ Hp Hop). congruence.
  - split_and!; [done..|]. intros t' b Hb. lookup_cases.
    pose proof (q_all _ _ _ _ _ Hq _ _ Hb) as Hin. set_solver.
Qed.

(** The next waiter becomes the holder. *)
Lemma hand_over_answers s a t r aw l' st : repr s a → pcs s !! t = Some (UnlResume r) →
  holder a = Some t → queued s (queue a) (UnlResume r) (r :: l') st →
  mem s !! r = Some aw →
  answers a (set_pc (m_await_coro aw) (Resumed r) (leave t s))
    [Release t (Some (m_ctx aw, m_await_coro aw))].
Proof.
  intros Hr Ht Hh Hq Haw. pose proof (q_waiting _ _ _ _ _ Hq) as Hw. simpl in Hw.
  apply Forall2_cons_inv_l in Hw as (w & q & (aw' & ? & -> & Hpw) & Hw & Hqe). simplify_eq.
  assert (Htc : t ≠ m_await_coro aw) by congruence.
  pose proof (q_nodup _ _ _ _ _ Hq) as Hnd. simpl in Hnd. apply NoDup_cons in Hnd as [Hni Hnd].
  pose proof (q_taken _ _ _ _ _ Hq) as (l'' & [= <-] & _ & Hch).
  assert (Hkeep : ∀ t' b, t' ≠ m_await_coro aw → pcs s !! t' = Some (Waiting b) →
    <[m_await_coro aw := Resumed r]> (delete t (pcs s)) !! t' = Some (Waiting b)).
  { intros t' b Hne Hb. rewrite lookup_insert_ne by done.
    rewrite lookup_delete_ne; [done|]. intros ->. congruence. }
  eapply (answers_one _ _ (LRelease t)).
  { unfold lock_step. rewrite decide_True by done. by rewrite Hqe. }
  split; simpl.
  - apply owned_set_pc; [by apply owned_leave, Hr|]. intros b [= <-].
    destruct (r_owned _ _ Hr _ _ _ Hpw eq_refl) as (? & ? & ? & ? & ?).
    split; [done|]. eexists. by split_and!.
  - intros t' p Hp Hop. lookup_cases; [done|].
    pose proof (r_owner _ _ Hr _ _ Hp Hop). congruence.
  - exists (Resumed r), l', st. split_and!; [apply lookup_insert_eq|done|].
    destruct Hq as [Hnl _ Hst _ _ _ Hall]. split; simpl; try done.
    + eapply Forall2_impl_in; [exact Hw|]. intros b w Hin _ (bw & Hb & -> & Hbw).
      exists bw. split_and!; [done..|]. apply Hkeep; [|done]. intros Heq.
      rewrite Heq in Hbw. by simplify_eq.
    + intros t' b Hb. lookup_cases. specialize (Hall _ _ Hb). simpl in Hall.
      apply elem_of_cons in Hall as [->|?]; [|done].
      destruct (r_owned _ _ Hr _ _ _ Hb eq_refl) as (_ & ? & ? & ? & _). by simplify_eq.
Qed.

(** A step of the owner that leaves the resume list at [l'] and the stack at
    [st'], and the memory as it is. *)
Ltac owner_step s a t l' st' :=
  eapply (owner_step_answers s a t _ _ _ _ l' st'); try done;
  try (intros b bw; apply mem_same).

Lemma unlock_answers s a t p s' es : repr s a → pcs s !! t = Some p →
  unlock t p s = Some (s', es) → answers a s' es.
Proof.
  intros Hr Ht Hs. assert (Hop : owner p = true) by by destruct p.
  pose proof (r_owner _ _ Hr _ _ Ht Hop) as Hh.
  pose proof (r_held _ _ Hr) as Hheld. rewrite Hh in Hheld.
  destruct Hheld as (p' & l & st & Hhp & _ & Hq). simplify_eq.
  destruct p as [| | | | | | | | |aw r|r|r]; try done;
    [| | |by eapply unlock_reverse_answers|..]; simpl in Hs;
    pose proof (q_taken _ _ _ _ _ Hq) as Htk; simpl in Htk.
  - (* is there a resume list? *)
    case_decide as Hrl; simplify_eq.
    + rewrite Hrl in Htk. apply chain_nil in Htk as ->. owner_step s a t (@nil ptr) st; apply Hq.
    + owner_step s a t l st; apply Hq.
  - (* is the word still locked_no_waiting? *)
    case_decide as Hst; simplify_eq; [by eapply release_none_answers|].
    destruct Htk as [Hrl ->]. owner_step s a t (@nil ptr) st; [apply Hq..|].
    intros _ ->. apply Hst. apply (q_stack _ _ _ _ _ Hq).
  - (* take the stack *)
    case_decide as Hst; simplify_eq. destruct Htk as [Hrl ->].
    owner_step s a t (reverse st) (@nil ptr).
    + rewrite reverse_nil. by rewrite app_nil_r.
    + simpl. split; [done|]. exists st, []. split_and!; [by apply Hst|apply Hq|done|].
      by rewrite app_nil_r.
  - (* m_resume_list_head = to_resume->m_next *)
    destruct Htk as [Hrn Hc]. apply chain_cons in Hc as (nx & l' & -> & Hnx & Hc); [|done].
    rewrite Hnx in Hs. simpl in Hs. simplify_eq.
    owner_step s a t (r :: l') st; [apply Hq| |apply Hq]. simpl. eauto.
  - (* resume *)
    destruct Htk as (l' & -> & Hrn & Hc). unfold resume in Hs. simpl in Hs.
    destruct (mem s !! r) as [aw|] eqn:Haw; [|done]. simpl in Hs. simplify_eq.
    by eapply hand_over_answers.
Qed.

Lemma init_repr : repr init lock_init.
Proof. split; simpl; [intros ?? ? H; done|done|]. split_and!; [done..|]. intros ?? H. done. Qed.

(** The machine of the code refines the queue lock. *)
Lemma mutex_refines : refines mutex_machine lock_machine repr.
Proof.
  split.
  - intros s ->. exists lock_init. split; [done|apply init_repr].
  - intros s a l s' es Hr Hs. simpl in Hs. destruct l as [t this ctx|t|t|t spurious].
    + simpl in Hs. destruct (await_suspend t this ctx s) eqn:E; [|done]. simplify_eq/=.
      by eapply await_suspend_answers.
    + by eapply try_lock_answers.
    + simpl in Hs. destruct (pcs s !! t) as [[]|] eqn:E; try done.
      case_decide; [|done]. simplify_eq. by apply unlock_call_answers.
    + simpl in Hs. destruct (pcs s !! t) as [p|] eqn:E; [|done].
      destruct p; try done;
        try (by apply (register_lock_answers s a t _ s' es spurious Hr E Hs));
        try (by apply (unlock_answers s a t _ s' es Hr E Hs)).
      destruct (await_resume t this s) eqn:E'; [|done]. simplify_eq/=.
      by eapply await_resume_answers.
Qed.

Lemma mutex_reach_repr s tr : reach mutex_machine s tr →
  ∃ a, reach lock_machine a tr ∧ repr s a.
Proof. apply (refines_reach _ _ _ mutex_refines). Qed.

(** ** The solo run of unlock *)

(** How many more steps [unlock] takes when nobody else moves. *)
Definition rank (s : state) (p : pc) (n : nat) : Prop :=
  match p with
  | UnlReadList => ∃ st, chain (next_in (mem s)) (m_state s) st ∧ n = length st + 5
  | UnlCas => ∃ st, chain (next_in (mem s)) (m_state s) st ∧ n = length st + 4
  | UnlXchg => ∃ st, chain (next_in (mem s)) (m_state s) st ∧ n = length st + 3
  | UnlRev aw _ => ∃ la, chain (next_in (mem s)) aw la ∧ n = length la + 2
  | UnlPop _ => n = 2
  | UnlResume _ => n = 1
  | _ => False
  end%nat.

Lemma lock_silent ls : ∀ a a', exec lock_machine ls a = Some (a', []) → a' = a.
Proof.
  destruct ls as [|l ls]; intros a a' He; simpl in He; [by injection He|].
  destruct (lock_step l a) as [[a1 es]|] eqn:E; [|done].
  destruct (exec lock_machine ls a1) as [[a2 es2]|]; [|done].
  injection He as -> Hes. apply app_eq_nil in Hes as [-> ->].
  unfold lock_step in E. destruct l; step_inv E.
Qed.

Lemma lock_release ls : ∀ a a' t w, exec lock_machine ls a = Some (a', [Release t w]) →
  w = head (queue a).
Proof.
  destruct ls as [|l ls]; intros a a' t w He; simpl in He; [done|].
  destruct (lock_step l a) as [[a1 es]|] eqn:E; [|done].
  destruct (exec lock_machine ls a1) as [[a2 es2]|]; [|done].
  injection He as -> Hes. unfold lock_step in E.
  destruct l; step_inv E; by rewrite ?E1.
Qed.

(** Every step of [unlock] by the owner is enabled; it either releases the lock
    or comes closer to the end. *)
Lemma unlock_progress s a t p n : repr s a → pcs s !! t = Some p → rank s p n →
  ∃ s' es, unlock t p s = Some (s', es) ∧
    ((∃ w, es = [Release t w]) ∨
     (es = [] ∧ ∃ p' n', pcs s' !! t = Some p' ∧ rank s' p' n' ∧ n' < n)%nat).
Proof.
  intros Hr Ht Hn. assert (Hop : owner p = true) by by destruct p.
  pose proof (r_owner _ _ Hr _ _ Ht Hop) as Hh.
  pose proof (r_held _ _ Hr) as Hheld. rewrite Hh in Hheld.
  destruct Hheld as (p' & l & st & Hhp & _ & Hq). simplify_eq.
  pose proof (q_taken _ _ _ _ _ Hq) as Htk. pose proof (q_stack _ _ _ _ _ Hq) as Hst.
  assert (Hin : ∀ p', <[t := p']> (pcs s) !! t = Some p') by (intros; apply lookup_insert_eq).
  destruct p as [| | | | | | | | |aw r|r|r]; try done; simpl in Hn, Htk |- *.
  - destruct Hn as (st' & Hst' & ->). case_decide; do 2 eexists; (split; [done|right]);
      (split; [done|]); do 2 eexists; (split; [apply Hin|]); simpl; eauto with lia.
  - destruct Hn as (st' & Hst' & ->). case_decide; do 2 eexists; (split; [done|]); [eauto|right].
    split; [done|]. do 2 eexists. split; [apply Hin|]. simpl. eauto with lia.
  - destruct Hn as (st' & Hst' & ->). rewrite decide_True.
    + do 2 eexists. split; [done|right]. split; [done|]. do 2 eexists.
      split; [apply Hin|]. simpl. eauto with lia.
    + split; [apply Hq|]. intros Hz. rewrite Hz in Hst. apply chain_nil in Hst.
      by apply (q_xchg _ _ _ _ _ Hq eq_refl).
  - destruct Hn as (la' & Hla' & ->).
    destruct (reverse_facts _ _ _ _ _ Hr Ht) as (x & la & lr & st' & _ & _ & Hx & Hna & _ & Hla0 & Hla & _).
    unfold read_next. rewrite (mutex_write_next_ok _ _ _ _ Hx), Hx. simpl.
    apply chain_cons in Hla' as (q & la'' & -> & Hq' & Hla'); [|done].
    unfold next_in in Hq'. rewrite Hx in Hq'. simplify_eq/=.
    pose proof (chain_inj _ _ _ _ Hla0 Hla') as ->.
    case_decide; do 2 eexists; (split; [done|right]); (split; [done|]); do 2 eexists;
      (split; [apply Hin|]); simpl; [|eauto with lia].
    split; [exists la''; by split|lia].
  - destruct Htk as [Hrn Hc]. apply chain_cons in Hc as (nx & l' & -> & Hnx & Hc); [|done].
    rewrite Hnx. simpl. do 2 eexists. split; [done|right]. split; [done|]. do 2 eexists.
    split; [apply Hin|]. simpl. eauto with lia.
  - destruct Htk as (l' & -> & Hrn & Hc). unfold resume. simpl.
    destruct (queued_in _ _ _ _ _ r Hq) as (aw & Haw & _); [by left|].
    rewrite Haw. simpl. do 2 eexists. split; [done|]. eauto.
Qed.

Lemma rank_owner s p n : rank s p n → owner p = true.
Proof. by destruct p. Qed.

Lemma rank_pos s p n : rank s p n → (0 < n)%nat.
Proof. destruct p; simpl; try done; try (intros (? & _ & ->); lia); intros ->; lia. Qed.

Lemma rank_step s t p n sp : rank s p n → pcs s !! t = Some p →
  step (Step t sp) s = unlock t p s.
Proof. intros Hn Ht. simpl. rewrite Ht. by destruct p. Qed.

Lemma unlock_run n : ∀ s a t p, repr s a → pcs s !! t = Some p → rank s p n →
  ∃ k s', (k ≤ n)%nat ∧
    exec mutex_machine (replicate k (Step t false)) s = Some (s', [Release t (head (queue a))]).
Proof.
  induction n as [n IH] using lt_wf_ind. intros s a t p Hr Ht Hn.
  destruct (unlock_progress _ _ _ _ _ Hr Ht Hn) as (s' & es & Hs & Hcase).
  assert (Hst : m_step mutex_machine (Step t false) s = Some (s', es))
    by (simpl; by rewrite <- Hs, <- (rank_step s t p n false)).
  destruct (ref_step _ _ _ mutex_refines _ _ _ _ _ Hr Hst) as (ls & a' & He & Hr').
  destruct Hcase as [[w ->]|[-> (p' & n' & Hp' & Hn' & Hlt)]].
  - exists 1%nat, s'. split; [by eapply rank_pos|].
    cbn [replicate exec]. rewrite Hst, app_nil_r. by rewrite <- (lock_release _ _ _ _ _ He).
  - apply lock_silent in He as ->.
    destruct (IH n' Hlt _ _ _ _ Hr' Hp' Hn') as (k & s'' & Hk & Hex).
    exists (S k), s''. split; [lia|]. cbn [replicate exec]. by rewrite Hst, Hex.
Qed.

(** ** Progress *)

(** The label with which a coroutine takes its next step. *)
Definition next_label (t : nat) (p : pc) : label :=
  match p with Holding => Unlock t | _ => Step t false end.

Lemma progress s a t p : repr s a → pcs s !! t = Some p → (∀ b, p ≠ Waiting b) →
  is_Some (step (next_label t p) s).
Proof.
  intros Hr Ht Hw. destruct (owner p) eqn:Hop.
  - pose proof (r_owner _ _ Hr _ _ Ht Hop) as Hh.
    pose proof (r_held _ _ Hr) as Hheld. rewrite Hh in Hheld.
    destruct Hheld as (p' & l & st & Hhp & _ & Hq). simplify_eq.
    assert (Hunl : ∀ n, rank s p n → is_Some (step (next_label t p) s)).
    { intros n Hn. destruct (unlock_progress _ _ _ _ _ Hr Ht Hn) as (s' & es & Hs & _).
      replace (next_label t p) with (Step t false) by by destruct p.
      erewrite rank_step by done. eauto. }
    pose proof (q_stack _ _ _ _ _ Hq) as Hst.
    destruct p as [| | | | | | | | |aw r|r|r]; try done;
      try (eapply Hunl; simpl; eauto; done).
    + simpl. rewrite Ht. unfold await_resume.
      destruct (r_owned _ _ Hr _ _ _ Ht eq_refl) as (_ & aw & Haw & _). rewrite Haw. simpl. eauto.
    + simpl. rewrite Ht. rewrite decide_True by apply Hq. eauto.
    + destruct (reverse_facts _ _ _ _ _ Hr Ht) as (x & la & lr & st' & _ & _ & Hx & Hn & _ & Hla & _).
      eapply (Hunl (length (aw :: la) + 2)%nat). simpl. exists (aw :: la). split; [|done].
      split; [done|]. split; [done|]. exists (m_next x). unfold next_in. by rewrite Hx.
  - simpl. destruct (awaiter_of p) as [b|] eqn:Hb; [|by destruct p].
    destruct (r_owned _ _ Hr _ _ _ Ht Hb) as (_ & aw & Haw & _).
    destruct p; simplify_eq/=; rewrite Ht; simpl; [| | |by destruct (Hw b)].
    + rewrite (mutex_write_next_ok _ _ _ _ Haw). simpl. case_decide; [eauto|].
      unfold write_next. simpl. rewrite lookup_insert_eq. simpl. eauto.
    + case_decide; eauto.
    + case_decide; [|eauto]. rewrite Haw. simpl. eauto.
Qed.

(** Every action that does not create or destroy an awaiter keeps the
    accounting of the wait counters. *)
Lemma accounts_write s s' a v : write_next a v s = Some s' →
  accounts m_ctx (mem s) (nwait s) → accounts m_ctx (mem s') (nwait s').
Proof. intros (aw & Ha & ->)%mutex_write_next_inv Hc. by eapply accounts_update. Qed.

Lemma mutex_step_accounts s l s' es : accounts m_ctx (mem s) (nwait s) →
  step l s = Some (s', es) → accounts m_ctx (mem s') (nwait s').
Proof.
  intros Hc Hs. destruct l as [t this ctx|t|t|t sp]; simpl in Hs.
  - unfold await_suspend in Hs. case_decide as Hd; [|done]. simplify_eq/=.
    apply (accounts_register m_ctx _ _ this (MutexAwaiter ctx nullptr t)); [apply Hd|done].
  - unfold try_lock in Hs. by step_inv Hs.
  - by step_inv Hs.
  - destruct (pcs s !! t) as [p|]; [|done]. destruct p; try done.
    + simpl in Hs. destruct (write_next this nullptr s) as [s1|] eqn:E1; [|done]. simpl in Hs.
      pose proof (accounts_write _ _ _ _ E1 Hc). case_decide; simplify_eq/=; [done|].
      destruct (write_next this (m_state s) s1) as [s2|] eqn:E2; [|done]. simplify_eq/=.
      by eapply accounts_write.
    + simpl in Hs. by step_inv Hs.
    + simpl in Hs. case_decide; [|by simplify_eq]. destruct (mem s !! this); by simplify_eq/=.
    + unfold await_resume in Hs. destruct (mem s !! this) as [aw|] eqn:E; [|done].
      simplify_eq/=. by apply accounts_unregister.
    + simpl in Hs. by step_inv Hs.
    + simpl in Hs. by step_inv Hs.
    + simpl in Hs. by step_inv Hs.
    + simpl in Hs. destruct (read_next awaiter s); [|done]. simpl in Hs.
      destruct (write_next awaiter to_resume s) as [s1|] eqn:E1; [|done]. simpl in Hs.
      pose proof (accounts_write _ _ _ _ E1 Hc). case_decide; by simplify_eq/=.
    + simpl in Hs. destruct (read_next to_resume s); by simplify_eq/=.
    + simpl in Hs. unfold resume in Hs. simpl in Hs.
      destruct (mem s !! to_resume) as [aw|]; by simplify_eq/=.
Qed.

(** ** Properties *)

Lemma repr_holder s a t : repr s a →
  holder a = Some t ↔ ∃ p, pcs s !! t = Some p ∧ owner p = true.
Proof.
  intros Hr. split.
  - intros Hh. pose proof (r_held _ _ Hr) as Hheld. rewrite Hh in Hheld.
    destruct Hheld as (p & l & st & ? & ? & _). eauto.
  - intros (p & ? & ?). by eapply r_owner.
Qed.

Lemma repr_waiters s a t : repr s a →
  (∃ b, pcs s !! t = Some (Waiting b)) ↔ ∃ c, (c, t) ∈ queue a.
Proof.
  intros Hr. pose proof (r_held _ _ Hr) as Hheld. destruct (holder a) as [h|].
  - destruct Hheld as (p & l & st & _ & _ & Hq). split.
    + intros [b Hb]. pose proof (q_all _ _ _ _ _ Hq _ _ Hb) as Hin.
      apply list_elem_of_lookup in Hin as [i Hi].
      destruct (Forall2_lookup_l _ _ _ _ _ (q_waiting _ _ _ _ _ Hq) Hi) as (w & Hw & aw & Haw & -> & _).
      destruct (mutex_owned_coro _ _ _ _ _ (r_owned _ _ Hr) Hb eq_refl Haw) as [_ <-].
      exists (m_ctx aw). by eapply list_elem_of_lookup_2.
    + intros [c Hc]. apply list_elem_of_lookup in Hc as [i Hi].
      destruct (Forall2_lookup_r _ _ _ _ _ (q_waiting _ _ _ _ _ Hq) Hi) as (b & _ & aw & _ & [= -> ->] & ?).
      eauto.
  - destruct Hheld as (_ & _ & -> & Hn). split; [intros [b Hb]; by destruct (Hn _ _ Hb)|].
    intros [c Hc]. by apply elem_of_nil in Hc.
Qed.

(** C10: every interleaving of the atomic actions of [lock], [try_lock] and
    [unlock] shows a behaviour of the queue lock: the coroutine that owns the
    lock is the holder of the specification, and the suspended coroutines are
    exactly the ones in its queue. *)
Theorem mutex_implements_queue_lock s tr : reach mutex_machine s tr →
  ∃ a, reach lock_machine a tr ∧
    (∀ t, holder a = Some t ↔ ∃ p, pcs s !! t = Some p ∧ owner p = true) ∧
    (∀ t, (∃ b, pcs s !! t = Some (Waiting b)) ↔ ∃ c, (c, t) ∈ queue a).
Proof.
  intros (a & Ha & Hr)%mutex_reach_repr. exists a. split_and!; [done|..]; intros t.
  - by apply repr_holder.
  - by apply repr_waiters.
Qed.

(** two coroutines are never both in the critical section (or in
    [unlock]). *)
Theorem mutex_mutual_exclusion s tr t1 t2 p1 p2 : reach mutex_machine s tr →
  pcs s !! t1 = Some p1 → owner p1 = true →
  pcs s !! t2 = Some p2 → owner p2 = true → t1 = t2.
Proof.
  intros (a & Ha & Hr)%mutex_reach_repr H1 Ho1 H2 Ho2.
  pose proof (r_owner _ _ Hr _ _ H1 Ho1). pose proof (r_owner _ _ Hr _ _ H2 Ho2). congruence.
Qed.

(** the lock is handed to the waiters in the order in which they queued
    themselves, and no waiter is lost: what was queued and not yet served is
    exactly what still waits. *)
Theorem mutex_fifo s tr : reach mutex_machine s tr →
  ∃ q, enqueued tr = handed tr ++ q ∧ ownership tr None ≠ None ∧
       (∀ t, (∃ b, pcs s !! t = Some (Waiting b)) ↔ ∃ c, (c, t) ∈ q).
Proof.
  intros (a & Ha & Hr)%mutex_reach_repr. exists (queue a).
  destruct (lock_trace_inv _ _ Ha) as (Hq & Ho & _). split_and!; [done|congruence|].
  intros t. by apply repr_waiters.
Qed.

(** [unlock] run by the owner terminates without help: within five steps
    and one per waiter it either frees the mutex (nobody waits) or resumes
    the waiter that came first. *)
Theorem unlock_hands_over s tr t : reach mutex_machine s tr →
  pcs s !! t = Some UnlReadList →
  ∃ q k s', enqueued tr = handed tr ++ q ∧ (k ≤ length q + 5)%nat ∧
    exec mutex_machine (replicate k (Step t false)) s = Some (s', [Release t (head q)]).
Proof.
  intros (a & Ha & Hr)%mutex_reach_repr Ht.
  destruct (lock_trace_inv _ _ Ha) as (Hq & _ & _).
  pose proof (r_owner _ _ Hr _ _ Ht eq_refl) as Hh.
  pose proof (r_held _ _ Hr) as Hheld. rewrite Hh in Hheld.
  destruct Hheld as (p & l & st & ? & _ & Hqd). simplify_eq.
  destruct (unlock_run (length st + 5) s a t UnlReadList Hr Ht) as (k & s' & Hk & He).
  { exists st. split; [apply (q_stack _ _ _ _ _ Hqd)|done]. }
  exists (queue a), k, s'. split_and!; [done| |done].
  pose proof (Forall2_length _ _ _ (q_waiting _ _ _ _ _ Hqd)) as Hlen.
  rewrite length_app, length_reverse in Hlen. lia.
Qed.

Lemma mutex_accounts s tr : reach mutex_machine s tr → accounts m_ctx (mem s) (nwait s).
Proof.
  revert s tr. apply reach_inv.
  - intros s ->. intros c. done.
  - intros s l s' es Hc Hs. by eapply mutex_step_accounts.
Qed.

(** The mutex keeps the contract with the contexts ([WaitCount.v]): it submits
    the awaiter that [unlock] resumes. *)
Definition woken (l : label) (s : state) : option ptr :=
  match l with
  | Step t _ => match pcs s !! t with Some (UnlResume a) => Some a | _ => None end
  | _ => None
  end.
#[global] Instance mutex_waits : WaitAccounting mutex_machine := awaiters_waits mutex_machine mem m_ctx nwait woken.
#[global] Instance mutex_waits_laws : WaitAccountingLaws mutex_machine.
Proof. apply awaiters_waits_laws, mutex_accounts. Qed.

(** C22: no coroutine inside the mutex is ever stuck, unless it waits: no
    awaiter is read after its destruction, no assertion of [unlock] fails. *)
Theorem mutex_never_stuck s tr t p : reach mutex_machine s tr →
  pcs s !! t = Some p → (∀ b, p ≠ Waiting b) → is_Some (step (next_label t p) s).
Proof. intros (a & Ha & Hr)%mutex_reach_repr. by apply progress with a. Qed.

(** the wait counter of every context is the number of its coroutines
    between [await_suspend] and [await_resume] (modulo [size_t]). *)
Theorem mutex_wait_accounting s tr : reach mutex_machine s tr →
  ∀ c, nwait s c = uw 64 (count_if (λ aw, bool_decide (m_ctx aw = c)) (mem s)).
Proof. apply mutex_accounts. Qed.

(** ** Witnesses *)

(** Coroutine 0 takes the lock, 1 and 2 queue behind it, 0 calls [unlock]. *)
Definition mutex_demo : list label :=
  [Lock 0 16 0; Step 0 false; Step 0 true; Step 0 false; Step 0 false; Step 0 false;
   Lock 1 32 1; Step 1 false; Step 1 false; Lock 2 48 0; Step 2 false; Step 2 false;
   TryLock 3; Unlock 0]%nat.

Lemma mutex_demo_reach : reach mutex_machine (final mutex_machine mutex_demo init) (trace mutex_machine mutex_demo init).
Proof. apply exec_reach_final; vm_compute; reflexivity. Defined.

Lemma mutex_implements_queue_lock_witness :
  trace mutex_machine mutex_demo init =
    [Acquire 0; Enqueue (1, 1); Enqueue (0, 2); TryFail 3]%nat ∧
  ∃ a, reach lock_machine a (trace mutex_machine mutex_demo init).
Proof.
  split; [vm_compute; reflexivity|].
  destruct (mutex_implements_queue_lock _ _ mutex_demo_reach) as (a & Ha & _). by exists a.
Defined.

Lemma mutex_mutual_exclusion_witness :
  pcs (final mutex_machine mutex_demo init) !! 0%nat = Some UnlReadList ∧
  pcs (final mutex_machine mutex_demo init) !! 1%nat ≠ Some Holding.
Proof.
  split; [vm_compute; reflexivity|]. intros H1.
  assert (H : 0%nat = 1%nat); [|done].
  refine (mutex_mutual_exclusion _ _ 0%nat 1%nat UnlReadList Holding mutex_demo_reach _ _ H1 _);
    vm_compute; reflexivity.
Defined.

Lemma mutex_fifo_witness : ∃ q,
  enqueued (trace mutex_machine mutex_demo init) = handed (trace mutex_machine mutex_demo init) ++ q ∧
  enqueued (trace mutex_machine mutex_demo init) = [(1, 1); (0, 2)]%nat.
Proof.
  destruct (mutex_fifo _ _ mutex_demo_reach) as (q & Hq & _). exists q.
  split; [exact Hq|vm_compute; reflexivity].
Defined.

Lemma unlock_hands_over_witness : ∃ q k s',
  enqueued (trace mutex_machine mutex_demo init) = handed (trace mutex_machine mutex_demo init) ++ q ∧
  exec mutex_machine (replicate k (Step 0 false)) (final mutex_machine mutex_demo init) =
    Some (s', [Release 0 (head q)]).
Proof.
  destruct (unlock_hands_over _ _ 0%nat mutex_demo_reach) as (q & k & s' & Hq & _ & He);
    [vm_compute; reflexivity|]. by exists q, k, s'.
Defined.

Lemma mutex_never_stuck_witness :
  is_Some (step (next_label 0 UnlReadList) (final mutex_machine mutex_demo init)).
Proof.
  refine (mutex_never_stuck _ _ 0%nat UnlReadList mutex_demo_reach _ _); [vm_compute; reflexivity|done].
Defined.

Lemma mutex_wait_accounting_witness :
  nwait (final mutex_machine mutex_demo init) 0%nat = 1 ∧
  nwait (final mutex_machine mutex_demo init) 0%nat = uw 64 (count_if
    (λ aw, bool_decide (m_ctx aw = 0%nat)) (mem (final mutex_machine mutex_demo init))).
Proof. split; [vm_compute; reflexivity|]. apply (mutex_wait_accounting _ _ mutex_demo_reach). Defined.
