(* ===== verification/Guard.v ===== *)
(** * coro::detail::lock_guard (include/coro/comp/mutex_guard.hpp) and
    mutex::lock_guard (include/coro/comp/mutex.hpp, src/comp/mutex.cpp)

    Guards of one mutex, on its contract ([LockSpec.v]). *)
From S2P Require Import Prelude LockSpec.
Local Open Scope coro_scope.

Section guard.
(** Whether programs move guards. *)
Context (moves : bool).

(** The guards alive, each with the coroutine it was made for (the code keeps
    the mutex only), and the coroutine that has got the mutex and is about to
    make its guard. *)
Record state := State {
  lk : lock_state;
  guards : gmap nat nat;
  resuming : option nat;
}.

Inductive label :=
  | Lock (t : nat)                    (* co_await mtx.lock_guard() *)
  | AwaitResume (t g : nat)           (* mutex_guard_awaiter::await_resume makes [g] *)
  | Move (g g' : nat)                 (* lock_guard(lock_guard&&) makes [g'] from [g] *)
  | Destroy (g : nat).                (* ~lock_guard *)

(** The destructor of a guard made for [t] released the lock of [h]. *)
Inductive event := Unlocked (t h : nat).

(** [lock]: acquired, or queued. *)
Definition lock (t : nat) (s : state) : option state :=
  match lock_step (LAcquire t) (lk s) with
  | Some (l, _) => Some (State l (guards s) (Some t))
  | None => '(l, _) ← lock_step (LEnqueue (0%nat, t)) (lk s); Some (State l (guards s) (resuming s))
  end.

(** [lock_guard(mtx)] *)
Definition await_resume (t g : nat) (s : state) : option state :=
  if decide (resuming s = Some t ∧ guards s !! g = None) then Some (State (lk s) (<[g := t]> (guards s)) None)
  else None.

(** The move constructor: [other] keeps the mutex. *)
Definition move (g g' : nat) (s : state) : option state :=
  t ← guards s !! g;
  if decide (moves = true ∧ guards s !! g' = None) then Some (State (lk s) (<[g' := t]> (guards s)) (resuming s))
  else None.

(** [m_mtx.unlock()], which does not know who calls it; of a free mutex it
    fails an assertion. *)
Definition destroy (g : nat) (s : state) : option (state * list event) :=
  t ← guards s !! g;
  h ← holder (lk s);
  '(l, _) ← lock_step (LRelease h) (lk s);
  Some (State l (delete g (guards s)) (holder l), [Unlocked t h]).

Definition step (l : label) (s : state) : option (state * list event) :=
  match l with
  | Lock t => s ← lock t s; Some (s, [])
  | AwaitResume t g => s ← await_resume t g s; Some (s, [])
  | Move g g' => s ← move g g' s; Some (s, [])
  | Destroy g => destroy g s
  end.

Definition guard_machine : machine state label event := Machine (λ s, s = State lock_init ∅ None) step.

(** The guards are the holder's: one, or none while it is resuming. *)
Record guarded (s : state) : Prop := {
  g_holder : ∀ g t, guards s !! g = Some t → holder (lk s) = Some t;
  g_one : ∀ g g' t t', guards s !! g = Some t → guards s !! g' = Some t' → g = g';
  g_resuming : ∀ t, resuming s = Some t → holder (lk s) = Some t ∧ guards s = ∅;
  g_held : ∀ t, holder (lk s) = Some t → resuming s = Some t ∨ ∃ g, guards s !! g = Some t;
}.

Lemma guards_step l s s' es : moves = false → guarded s → step l s = Some (s', es) →
  guarded s' ∧ Forall (λ e, match e with Unlocked t h => t = h end) es.
Proof.
  intros Hm [Hh Ho Hr Hd] Hs. destruct l as [t|t g|g g'|g]; simpl in Hs.
  - unfold lock in Hs. simpl in Hs. destruct (holder (lk s)) as [h|] eqn:Eh; simpl in Hs; injection Hs as <- <-.
    + split; [|done]. by split; simpl.
    + assert (Hg : guards s = ∅) by (apply map_empty; intros g; destruct (guards s !! g) eqn:E; [by specialize (Hh _ _ E)|done]).
      split; [|done]. split; simpl; [|exact Ho| |].
      * intros g u Hgu. by rewrite Hg, lookup_empty in Hgu.
      * by intros u [= <-].
      * intros u [= <-]. by left.
  - unfold await_resume in Hs. case_decide as Hc; [|done]. destruct Hc as [Hrt Hg]. injection Hs as <- <-.
    destruct (Hr _ Hrt) as [Hht Hge]. split; [|done]. rewrite Hge. split; simpl.
    + intros g0 u [[_ <-]|[_ Hu]]%lookup_insert_Some; [done|by rewrite lookup_empty in Hu].
    + intros g0 g1 u u' [[<- _]|[_ Hu]]%lookup_insert_Some [[<- _]|[_ Hu']]%lookup_insert_Some; try done;
        rewrite lookup_empty in *; done.
    + done.
    + intros u Hu. right. exists g. rewrite lookup_insert_eq. congruence.
  - unfold move in Hs. destruct (guards s !! g); [|done]. simpl in Hs. case_decide as Hc; [|done]. by destruct Hc; congruence.
  - unfold destroy in Hs. destruct (guards s !! g) as [t|] eqn:Eg; [|done]. simpl in Hs.
    rewrite (Hh _ _ Eg) in Hs. simpl in Hs. rewrite decide_True in Hs by done.
    assert (Hge : delete g (guards s) = ∅).
    { apply map_empty. intros g0. destruct (delete g (guards s) !! g0) eqn:E; [|done].
      apply lookup_delete_Some in E as [Hne E]. by destruct Hne; apply (Ho g g0 _ _ Eg E). }
    destruct (queue (lk s)) as [|w q]; simpl in Hs; injection Hs as <- <-; rewrite Hge;
      (split; [|by constructor]); (split; simpl; [by intros ?? ?|by intros ?? ?|by intros ? [= <-]|by intros ? [= <-]; left]).
Qed.

Lemma guards_reach s tr : moves = false → reach guard_machine s tr →
  guarded s ∧ Forall (λ e, match e with Unlocked t h => t = h end) tr.
Proof.
  intros Hm. revert s tr. apply reach_inv_tr.
  - intros s ->. split; [by split|done].
  - intros s tr l s' es [Hg Ht] Hs. destruct (guards_step _ _ _ _ Hm Hg Hs) as [Hg' He].
    split; [done|]. by apply Forall_app.
Qed.
End guard.

(** ** Properties *)

(** Guards that are not moved release the mutex for the coroutine they
    were made for, one guard at a time: the mutex is held by a coroutine exactly
    while its guard, or the [await_resume] that makes it, is alive. *)
Theorem guards_release_own s tr : reach (guard_machine false) s tr →
  (∀ t h, Unlocked t h ∈ tr → t = h) ∧
  (∀ t, holder (lk s) = Some t ↔ resuming s = Some t ∨ ∃ g, guards s !! g = Some t) ∧
  (∀ g g' t t', guards s !! g = Some t → guards s !! g' = Some t' → g = g').
Proof.
  intros Hr. destruct (guards_reach false s tr eq_refl Hr) as [[Hh Ho Hre Hd] Ht]. split_and!; [| |done].
  - intros t h Hin. by apply (proj1 (Forall_forall _ _) Ht) in Hin.
  - intros t. split; [apply Hd|]. intros [Hx|[g Hg]]; [by apply Hre|by eapply Hh].
Qed.

(** A guard that was moved from and the one made from it both unlock: with
    another coroutine waiting, the second destructor releases that coroutine's
    lock, inside its critical section, and a third one enters. *)
Definition moved_guard : list label :=
  [Lock 1; AwaitResume 1 10; Move 10 11; Lock 2; Destroy 10; AwaitResume 2 20; Destroy 11; Lock 3; AwaitResume 3 30]%nat.
Theorem moved_guard_unlocks_twice :
  let s := State lock_init ∅ None in
  ∃ s', exec (guard_machine true) moved_guard s = Some (s', [Unlocked 1 1; Unlocked 1 2]%nat) ∧
    guards s' !! 20%nat = Some 2%nat ∧ guards s' !! 30%nat = Some 3%nat.
Proof. eexists. split; [by vm_compute|]. split; by vm_compute. Qed.

(** ** Witnesses *)
Definition two_guards : list label :=
  [Lock 1; AwaitResume 1 10; Lock 2; Destroy 10; AwaitResume 2 20]%nat.
Definition guard_end : state := final (guard_machine false) two_guards (State lock_init ∅ None).
Lemma guards_release_own_witness : holder (lk guard_end) = Some 2%nat.
Proof.
  assert (Hr : reach (guard_machine false) guard_end (trace (guard_machine false) two_guards (State lock_init ∅ None)))
    by (apply exec_reach_final; [done|by vm_compute]).
  destruct (guards_release_own _ _ Hr) as (_ & Hh & _). apply Hh. right. exists 20%nat. by vm_compute.
Defined.
