(* ===== verification/WaitList.v ===== *)
(** * Awaiters parked in a lock-free list

    What [event] and [wait_group] share: awaiters linked through [m_next],
    pushed with a compare-exchange on a head pointer and drained by a walker
    that took the whole list with an exchange. Both components keep the same
    three fields in their awaiters. *)
From S2P Require Import Prelude.

Record awaiter := Awaiter {
  m_ctx : nat;           (* the context of the waiting coroutine *)
  m_next : ptr;
  m_await_coro : nat;    (* the coroutine to resume *)
}.

Definition next_of (mem : gmap ptr awaiter) (a : ptr) : option ptr := m_next <$> mem !! a.

(** [a->m_next = v], undefined when there is no awaiter at [a]. *)
Definition write_next (a v : ptr) (mem : gmap ptr awaiter) : option (gmap ptr awaiter) :=
  aw ← mem !! a; Some (<[a := Awaiter (m_ctx aw) v (m_await_coro aw)]> mem).

Lemma write_next_inv a v mem mem' : write_next a v mem = Some mem' →
  ∃ aw, mem !! a = Some aw ∧ mem' = <[a := Awaiter (m_ctx aw) v (m_await_coro aw)]> mem.
Proof. unfold write_next. destruct (mem !! a) as [aw|]; simpl; [|done]. intros [= <-]. eauto. Qed.

Lemma write_next_ok a v mem aw : mem !! a = Some aw →
  write_next a v mem = Some (<[a := Awaiter (m_ctx aw) v (m_await_coro aw)]> mem).
Proof. unfold write_next. by intros ->. Qed.

(** A list is not touched by a change to awaiters outside of it. *)
Lemma chain_insert mem a x p l : a ∉ l →
  chain (next_of mem) p l → chain (next_of (<[a:=x]> mem)) p l.
Proof.
  intros Ha. apply chain_ext. intros b Hb. unfold next_of.
  rewrite lookup_insert_ne; [done|]. by intros ->.
Qed.

Lemma chain_delete mem a p l : a ∉ l →
  chain (next_of mem) p l → chain (next_of (delete a mem)) p l.
Proof.
  intros Ha. apply chain_ext. intros b Hb. unfold next_of.
  rewrite lookup_delete_ne; [done|]. by intros ->.
Qed.
#[export] Hint Resolve chain_insert chain_delete : coro.

(** ** Roles

    What a thread is doing to the list, as far as the list is concerned. *)
Inductive role :=
  | RIdle                     (* nothing *)
  | RLoop (a : ptr)           (* owns [a], has not pushed it *)
  | RCas (a h : ptr)          (* ... and [a->m_next = h] is written *)
  | RParked (a : ptr)         (* pushed [a], sleeps *)
  | RReady (a : ptr)          (* owns [a], is to run await_resume *)
  | RWalk (x : ptr)           (* took a list and is to wake [x] *)
  | RVisit (x : ptr)          (* woke [x], is to read [x->m_next] *)
  | RFault (x : ptr).         (* read [m_next] of a destroyed awaiter *)

Definition role_awaiter (r : role) : option ptr :=
  match r with
  | RLoop a | RCas a _ | RParked a | RReady a => Some a | _ => None
  end.

Record pool := Pool {
  p_mem : gmap ptr awaiter;
  p_head : ptr;
  p_role : gmap nat role;
}.

Definition role_pc (t : nat) (r : role) (p : pool) : pool :=
  Pool (p_mem p) (p_head p) (<[t := r]> (p_role p)).
Definition role_out (t : nat) (p : pool) : pool :=
  Pool (p_mem p) (p_head p) (delete t (p_role p)).
Definition with_mem (m : gmap ptr awaiter) (p : pool) : pool := Pool m (p_head p) (p_role p).
Definition with_head (h : ptr) (p : pool) : pool := Pool (p_mem p) h (p_role p).

Definition visited (a : ptr) (p : pool) : Prop := ∃ t, p_role p !! t = Some (RVisit a).

Definition owned (p : pool) : Prop :=
  ∀ t r a, p_role p !! t = Some r → role_awaiter r = Some a →
    a ≠ nullptr ∧ ∃ aw, p_mem p !! a = Some aw ∧ m_await_coro aw = t ∧
    (∀ h, r = RCas a h → m_next aw = h).

(** [a] is parked: its coroutine sleeps. *)
Definition parked (p : pool) (a : ptr) : Prop :=
  ∃ aw, p_mem p !! a = Some aw ∧ p_role p !! m_await_coro aw = Some (RParked a).

(** [st] is the list at the head, [W t] what the thread [t] still has to wake. *)
Record lists (p : pool) (st : list ptr) (W : nat → list ptr) : Prop := {
  l_owned : owned p;
  l_stack : chain (next_of (p_mem p)) (p_head p) st;
  l_walk : ∀ t x, p_role p !! t = Some (RWalk x) → chain (next_of (p_mem p)) x (W t);
  l_visit : ∀ t x, p_role p !! t = Some (RVisit x) → ∃ aw, p_mem p !! x = Some aw ∧
     p_role p !! m_await_coro aw = Some (RReady x) ∧ chain (next_of (p_mem p)) (m_next aw) (W t);
  l_nofault : ∀ t x, p_role p !! t ≠ Some (RFault x);
  l_idle : ∀ t, (∀ x, p_role p !! t ≠ Some (RWalk x) ∧ p_role p !! t ≠ Some (RVisit x)) →
     W t = [];
  l_parked : ∀ a, (a ∈ st ∨ ∃ t, a ∈ W t) ↔ parked p a;
  l_nodup : NoDup st ∧ ∀ t, NoDup (W t);
  l_disj : (∀ a t, a ∈ st → a ∉ W t) ∧ ∀ a t1 t2, a ∈ W t1 → a ∈ W t2 → t1 = t2;
}.

#[global] Instance role_eq_dec : EqDecision role.
Proof. solve_decision. Defined.

(** The roles the lists depend on. *)
Definition listed (r : role) : bool :=
  match r with RParked _ | RWalk _ | RVisit _ | RFault _ => true | _ => false end.

Lemma lists_frame s s' st W :
  lists s st W → owned s' → p_head s' = p_head s →
  (∀ t p, listed p = true → p_role s' !! t = Some p → p_role s !! t = Some p) →
  (∀ t p, listed p = true → p ≠ RWalk nullptr →
     p_role s !! t = Some p → p_role s' !! t = Some p) →
  (∀ t x, p_role s !! t = Some (RReady x) → visited x s → p_role s' !! t = Some (RReady x)) →
  (∀ a, parked s a ∨ visited a s → p_mem s' !! a = p_mem s !! a) →
  lists s' st W.
Proof.
  intros [Ho Hst Hwk Hv Hnf Hid Hp Hnd Hdj] Ho' Hs Hpc Hpc2 Hrd Hm.
  assert (Hin : ∀ a, a ∈ st ∨ (∃ t, a ∈ W t) → p_mem s' !! a = p_mem s !! a).
  { intros a Ha. apply Hm. left. by apply Hp. }
  assert (Hpk : ∀ a, parked s a → parked s' a).
  { intros a (aw & Ha & Hc). exists aw. rewrite Hm by (left; by exists aw).
    split; [done|]. by apply Hpc2. }
  split; try done.
  - rewrite Hs. eapply chain_ext; [|exact Hst]. intros a Ha. unfold next_of. by rewrite Hin by auto.
  - intros t x Ht. eapply chain_ext; [|apply Hwk, (Hpc _ (RWalk x)); [done|exact Ht]].
    intros a Ha. unfold next_of. by rewrite Hin by eauto.
  - intros t x Ht. apply (Hpc _ (RVisit x)) in Ht; [|done].
    destruct (Hv _ _ Ht) as (aw & Ha & Hc & Hch).
    assert (visited x s) by by exists t. exists aw. rewrite Hm by auto.
    split_and!; [done|by apply Hrd|]. eapply chain_ext; [|exact Hch].
    intros a Hin'. unfold next_of. by rewrite Hin by eauto.
  - intros t x Ht. by apply (Hpc _ (RFault x)), Hnf in Ht.
  - intros t Ht. destruct (p_role s !! t) as [p|] eqn:E; [|by apply Hid; rewrite E].
    destruct (decide (p = RWalk nullptr)) as [->|Hn].
    { by apply (chain_nil (next_of (p_mem s))), Hwk. }
    apply Hid. intros x. rewrite E. destruct (Ht x) as [H1 H2].
    split; intros [= ->]; [apply H1|apply H2]; by apply Hpc2.
  - intros a. rewrite Hp. split; [apply Hpk|]. intros (aw & Ha & Hc).
    assert (Hc' : p_role s !! m_await_coro aw = Some (RParked a)) by by apply Hpc.
    destruct (Ho _ _ _ Hc' eq_refl) as (_ & aw' & Ha' & Hc'' & _).
    exists aw'. split; [done|]. by rewrite Hc''.
Qed.

(** Steps of a coroutine that neither parks itself nor walks a list. *)
Lemma lists_set_role s st W t p' : lists s st W → listed p' = false →
  (∀ a, role_awaiter p' = Some a → a ≠ nullptr ∧ ∃ aw, p_mem s !! a = Some aw ∧
     m_await_coro aw = t ∧ (∀ h, p' = RCas a h → m_next aw = h)) →
  (∀ p, p_role s !! t = Some p → listed p = false ∧ ∀ a, p ≠ RReady a) →
  lists (role_pc t p' s) st W.
Proof.
  intros Hl Hp' Ha Ht. eapply lists_frame; [done| |done|..].
  - intros t' q b Hq Hb. simpl in *. lookup_cases; [by apply Ha|by eapply l_owned].
  - intros t' q Hq Hq'. simpl in *. lookup_cases; congruence.
  - intros t' q Hq _ Hq'. simpl. rewrite lookup_insert_ne; [done|]. intros <-.
    destruct (Ht _ Hq'). congruence.
  - intros t' x Hx _. simpl. rewrite lookup_insert_ne; [done|]. intros <-.
    destruct (Ht _ Hx) as [_ H]. by apply (H x).
  - done.
Qed.

Lemma lists_leave s st W t : lists s st W →
  (∀ p, p_role s !! t = Some p →
     (listed p = false ∧ ∀ a, p = RReady a → ¬ visited a s) ∨ p = RWalk nullptr) →
  lists (role_out t s) st W.
Proof.
  intros Hl Ht. eapply lists_frame; [done| |done|..].
  - intros t' q b Hq Hb. simpl in *. lookup_cases. by eapply l_owned.
  - intros t' q Hq Hq'. simpl in *. by lookup_cases.
  - intros t' q Hq Hn Hq'. simpl. rewrite lookup_delete_ne; [done|]. intros <-.
    destruct (Ht _ Hq') as [[? _]| ->]; congruence.
  - intros t' x Hx Hv. simpl. rewrite lookup_delete_ne; [done|]. intros <-.
    destruct (Ht _ Hx) as [[_ H]|]; [by apply (H x)|done].
  - done.
Qed.

Lemma owned_coro s t p a aw : owned s → p_role s !! t = Some p → role_awaiter p = Some a →
  p_mem s !! a = Some aw → a ≠ nullptr ∧ m_await_coro aw = t.
Proof. intros Ho Ht Ha Hm. destruct (Ho _ _ _ Ht Ha) as (? & aw' & ? & ? & _). by simplify_eq. Qed.

(** An awaiter whose coroutine is still in the loop is in no list. *)
Lemma not_parked s st W t p a : lists s st W → p_role s !! t = Some p →
  role_awaiter p = Some a → (∀ b, p ≠ RParked b) → ¬ parked s a.
Proof.
  intros Hl Ht Ha Hp (aw & Hm & Hc).
  destruct (owned_coro _ _ _ _ _ (l_owned _ _ _ Hl) Ht Ha Hm) as [_ <-]. simplify_eq.
  by destruct (Hp a).
Qed.

Lemma not_visited s st W t p a : lists s st W → p_role s !! t = Some p →
  role_awaiter p = Some a → (∀ b, p ≠ RReady b) → ¬ visited a s.
Proof.
  intros Hl Ht Ha Hp (t' & Hq).
  destruct (l_visit _ _ _ Hl _ _ Hq) as (aw & Hm & Hc & _).
  destruct (owned_coro _ _ _ _ _ (l_owned _ _ _ Hl) Ht Ha Hm) as [_ <-]. simplify_eq.
  by destruct (Hp a).
Qed.

(** A coroutine makes an awaiter. *)
Lemma lists_enter s st W t this aw r : lists s st W →
  p_role s !! t = None → p_mem s !! this = None → this ≠ nullptr →
  m_await_coro aw = t → (r = RLoop this ∨ r = RReady this) →
  lists (role_pc t r (with_mem (<[this := aw]> (p_mem s)) s)) st W.
Proof.
  intros Hl Ht Hm Hn Hc Hr.
  assert (Hmem : ∀ a bw, p_mem s !! a = Some bw → <[this := aw]> (p_mem s) !! a = Some bw).
  { intros a bw Ha. rewrite lookup_insert_ne; [done|]. intros ->. congruence. }
  eapply lists_frame; [done| |done|..]; simpl.
  - intros t' q b Hq Hb. simpl in *. lookup_cases.
    + assert (b = this) as -> by (destruct Hr as [-> | ->]; by injection Hb).
      split; [done|]. rewrite lookup_insert_eq. exists aw. split_and!; [done..|].
      destruct Hr as [-> | ->]; done.
    + destruct (l_owned _ _ _ Hl _ _ _ Hq Hb) as (? & bw & ? & ?). split; [done|].
      exists bw. split; [by apply Hmem|done].
  - intros t' q Hq Hq'. lookup_cases; [|done]. by destruct Hr as [-> | ->].
  - intros t' q Hq _ Hq'. rewrite lookup_insert_ne; [done|]. congruence.
  - intros t' x Hx _. rewrite lookup_insert_ne; [done|]. congruence.
  - intros a [(bw & Ha & _)|(t' & Hq)].
    + by rewrite (Hmem _ _ Ha).
    + destruct (l_visit _ _ _ Hl _ _ Hq) as (bw & Ha & _). by rewrite (Hmem _ _ Ha).
Qed.

(** A coroutine in its loop writes the [m_next] of its awaiter. *)
Lemma lists_write s st W t this aw h r : lists s st W → p_role s !! t = Some (RLoop this) →
  p_mem s !! this = Some aw → (r = RCas this h ∨ r = RReady this) →
  lists (role_pc t r
          (with_mem (<[this := Awaiter (m_ctx aw) h (m_await_coro aw)]> (p_mem s)) s)) st W.
Proof.
  intros Hl Ht Hm Hr.
  destruct (owned_coro _ _ _ _ _ (l_owned _ _ _ Hl) Ht eq_refl Hm) as [Hn <-].
  pose proof (not_parked _ _ _ _ _ _ Hl Ht eq_refl) as Hnp.
  pose proof (not_visited _ _ _ _ _ _ Hl Ht eq_refl) as Hnv.
  eapply lists_frame; [done| |done|..]; simpl.
  - intros t' q b Hq Hb. simpl in *. lookup_cases.
    + assert (b = this) as -> by (destruct Hr as [-> | ->]; by injection Hb).
      split; [done|]. rewrite lookup_insert_eq. eexists. split_and!; [done..|].
      intros h' ->. by destruct Hr as [[= ->]|].
    + destruct (l_owned _ _ _ Hl _ _ _ Hq Hb) as (? & bw & ? & ? & ?). split; [done|].
      exists bw. rewrite lookup_insert_ne by congruence. done.
  - intros t' q Hq Hq'. lookup_cases; [|done]. by destruct Hr as [-> | ->].
  - intros t' q Hq _ Hq'. rewrite lookup_insert_ne; [done|]. intros <-. by simplify_eq.
  - intros t' x Hx _. rewrite lookup_insert_ne; [done|]. congruence.
  - intros a Ha. rewrite lookup_insert_ne; [done|]. intros <-.
    destruct Ha as [Ha|Ha]; [by apply Hnp in Ha|by apply Hnv in Ha].
Qed.

Lemma lists_push s st W t this aw : lists s st W →
  p_role s !! t = Some (RCas this (p_head s)) → p_mem s !! this = Some aw →
  lists (role_pc t (RParked this) (with_head this s)) (this :: st) W.
Proof.
  intros Hl Ht Hm. pose proof Hl as [Ho Hst Hwk Hv Hnf Hid Hp Hnd Hdj].
  destruct (owned_coro _ _ _ _ _ Ho Ht eq_refl Hm) as [Hn Hc].
  destruct (Ho _ _ _ Ht eq_refl) as (_ & aw' & ? & _ & Hnx). simplify_eq.
  specialize (Hnx _ eq_refl).
  assert (Hnp : ¬ parked s this) by (by eapply not_parked).
  assert (Hne : ∀ t' p, p ≠ RCas this (p_head s) → p_role s !! t' = Some p →
     <[m_await_coro aw := RParked this]> (p_role s) !! t' = Some p).
  { intros t' p Hp' Hq. rewrite lookup_insert_ne; [done|]. intros <-. congruence. }
  split; simpl.
  - intros t' q b Hq Hb. simpl in *. lookup_cases; [|by eapply Ho].
    split; [done|]. eexists. by split_and!.
  - split; [done|]. split; [done|]. exists (p_head s). unfold next_of at 1. rewrite Hm.
    simpl. by rewrite Hnx.
  - intros t' x Hx. lookup_cases. by apply Hwk.
  - intros t' x Hx. lookup_cases. destruct (Hv _ _ Hx) as (bw & ? & ? & ?).
    exists bw. split_and!; [done| |done]. by apply Hne.
  - intros t' x Hx. lookup_cases. by apply Hnf in Hx.
  - intros t' Hx. apply Hid. intros x. destruct (Hx x) as [H1 H2].
    split; intros H; [apply H1|apply H2]; by apply Hne.
  - intros a. split.
    + intros [Ha|Ha].
      * apply elem_of_cons in Ha as [->|Ha].
        -- exists aw. split; [done|]. apply lookup_insert_eq.
        -- destruct (proj1 (Hp a) (or_introl Ha)) as (bw & ? & ?). exists bw.
           split; [done|]. by apply Hne.
      * destruct (proj1 (Hp a) (or_intror Ha)) as (bw & ? & ?). exists bw.
        split; [done|]. by apply Hne.
    + intros (bw & Hb & Hbp). simpl in *. lookup_cases; [left; left|].
      destruct (proj2 (Hp a)) as [?|?]; [by exists bw|left; by right|by right].
  - split; [|apply Hnd]. constructor; [|apply Hnd]. intros Hin. apply Hnp, Hp. by left.
  - split; [|apply Hdj]. intros a t' Ha Hin. apply elem_of_cons in Ha as [->|Ha].
    + apply Hnp, Hp. eauto.
    + by eapply Hdj.
Qed.

Lemma lists_return s st W t this aw : lists s st W → p_role s !! t = Some (RReady this) →
  ¬ visited this s → p_mem s !! this = Some aw →
  lists (role_out t (with_mem (delete this (p_mem s)) s)) st W.
Proof.
  intros Hl Ht Hv Hm.
  destruct (owned_coro _ _ _ _ _ (l_owned _ _ _ Hl) Ht eq_refl Hm) as [Hn <-].
  pose proof (not_parked _ _ _ _ _ _ Hl Ht eq_refl) as Hnp.
  eapply lists_frame; [done| |done|..]; simpl.
  - intros t' q b Hq Hb. simpl in *. lookup_cases.
    destruct (l_owned _ _ _ Hl _ _ _ Hq Hb) as (? & bw & ? & ? & ?). split; [done|].
    exists bw. rewrite lookup_delete_ne by congruence. done.
  - intros t' q Hq Hq'. by lookup_cases.
  - intros t' q Hq _ Hq'. rewrite lookup_delete_ne; [done|]. intros <-. by simplify_eq.
  - intros t' x Hx Hvx. rewrite lookup_delete_ne; [done|]. intros <-. by simplify_eq.
  - intros a Ha. rewrite lookup_delete_ne; [done|]. intros <-.
    destruct Ha as [Ha|Ha]; [by apply Hnp in Ha|done].
Qed.

(** A thread that is not in the lists takes the whole list. *)
Lemma lists_xchg s st W t : lists s st W → p_role s !! t = Some RIdle ∨ p_role s !! t = None →
  lists (role_pc t (RWalk (p_head s)) (with_head nullptr s)) [] (<[t := st]> W).
Proof.
  intros [Ho Hst Hwk Hv Hnf Hid Hp Hnd Hdj] Ht.
  assert (HW : W t = []) by (apply Hid; intros x; destruct Ht as [-> | ->]; done).
  assert (Hne : ∀ t' p, p ≠ RIdle → p_role s !! t' = Some p →
     t ≠ t' ∧ <[t := RWalk (p_head s)]> (p_role s) !! t' = Some p).
  { intros t' p Hp' Hq. assert (t ≠ t') by (destruct Ht; congruence). by rewrite lookup_insert_ne. }
  split; simpl.
  - intros t' q b Hq Hb. simpl in *. lookup_cases. by eapply Ho.
  - done.
  - intros t' x Hx. lookup_cases; [by rewrite fn_lookup_insert|].
    rewrite fn_lookup_insert_ne by done. by apply Hwk.
  - intros t' x Hx. lookup_cases. destruct (Hv _ _ Hx) as (aw & ? & ? & ?).
    exists aw. rewrite fn_lookup_insert_ne by done. split_and!; [done| |done]. by apply Hne.
  - intros t' x Hx. lookup_cases. by apply Hnf in Hx.
  - intros t' Hx. destruct (decide (t = t')) as [<-|].
    + destruct (Hx (p_head s)) as [H _]. by rewrite lookup_insert_eq in H.
    + rewrite fn_lookup_insert_ne by done. apply Hid. intros x. destruct (Hx x).
      by rewrite lookup_insert_ne in * by done.
  - intros a. assert (Heq : (a ∈ [] ∨ (∃ t', a ∈ <[t:=st]> W t')) ↔ (a ∈ st ∨ ∃ t', a ∈ W t')).
    { split.
      - intros [Ha|[t' Ha]]; [by apply elem_of_nil in Ha|].
        destruct (decide (t = t')) as [<-|].
        + rewrite fn_lookup_insert in Ha. by left.
        + rewrite fn_lookup_insert_ne in Ha by done. eauto.
      - intros [Ha|[t' Ha]]; right; [exists t; by rewrite fn_lookup_insert|].
        exists t'. rewrite fn_lookup_insert_ne; [done|]. intros <-. rewrite HW in Ha.
        by apply elem_of_nil in Ha. }
    rewrite Heq, Hp. split; intros (aw & Ha & Hc); exists aw; (split; [done|]); simpl in *.
    + by apply Hne.
    + by lookup_cases.
  - split; [by apply NoDup_nil_2|]. intros t'. destruct (decide (t = t')) as [<-|].
    + rewrite fn_lookup_insert. apply Hnd.
    + rewrite fn_lookup_insert_ne by done. apply Hnd.
  - split; [intros a t' Ha; by apply elem_of_nil in Ha|]. intros a t1 t2.
    destruct (decide (t = t1)) as [<-|], (decide (t = t2)) as [<-|]; try done;
      rewrite ?fn_lookup_insert, ?fn_lookup_insert_ne by done; intros H1 H2;
      [by destruct (proj1 Hdj a t2)|by destruct (proj1 Hdj a t1)|by eapply Hdj].
Qed.

(** One awaiter of the list is woken. *)
(** The walker [t] moves on to the rest [l] of its list. *)
Lemma walk_tail_in (W : nat → list ptr) t h l t' a : W t = h :: l → a ∈ <[t:=l]> W t' → a ∈ W t'.
Proof.
  intros HW. destruct (decide (t = t')) as [<-|]; [|by rewrite fn_lookup_insert_ne].
  rewrite fn_lookup_insert, HW. by right.
Qed.

Lemma walk_tail_nodup (W : nat → list ptr) t h l : W t = h :: l → (∀ t', NoDup (W t')) → h ∉ l ∧ ∀ t', NoDup (<[t:=l]> W t').
Proof.
  intros HW Hnd. pose proof (Hnd t) as H. rewrite HW in H. apply NoDup_cons in H as [Hni Hl]. split; [done|].
  intros t'. destruct (decide (t = t')) as [<-|]; [by rewrite fn_lookup_insert|by rewrite fn_lookup_insert_ne].
Qed.

Lemma lists_resume s st W t h aw : lists s st W → p_role s !! t = Some (RWalk h) →
  h ≠ nullptr → p_mem s !! h = Some aw →
  ∃ l, W t = h :: l ∧ p_role s !! m_await_coro aw = Some (RParked h) ∧
  lists (role_pc t (RVisit h) (role_pc (m_await_coro aw) (RReady h) s)) st (<[t := l]> W).
Proof.
  intros [Ho Hst Hwk Hv Hnf Hid Hp Hnd Hdj] Ht Hn Hm.
  destruct (chain_cons _ _ _ (Hwk _ _ Ht) Hn) as (q & l & HW & Hq & Hl).
  unfold next_of in Hq. rewrite Hm in Hq. simplify_eq/=.
  destruct (proj1 (Hp h)) as (aw' & Hm' & Hc); [right; exists t; rewrite HW; left|].
  simplify_eq/=. exists l. split_and!; [done|done|].
  destruct (walk_tail_nodup W t h l HW (proj2 Hnd)) as [Hni Hndl].
  assert (Htc : t ≠ m_await_coro aw) by congruence.
  assert (Hin : ∀ t' a, a ∈ <[t:=l]> W t' → a ∈ W t') by (intros t' a; by eapply walk_tail_in).
  assert (Hne : ∀ t' p, t ≠ t' → p ≠ RParked h → p_role s !! t' = Some p →
     <[t := RVisit h]> (<[m_await_coro aw := RReady h]> (p_role s)) !! t' = Some p).
  { intros t' p ?? Hq. rewrite lookup_insert_ne by done.
    by rewrite lookup_insert_ne by congruence. }
  split; simpl.
  - intros t' q b Hq Hb. simpl in *. lookup_cases; [|by eapply Ho].
    destruct (Ho _ _ _ Hc eq_refl) as (? & ? & ? & ? & _). split; [done|].
    eexists. by split_and!.
  - done.
  - intros t' x Hx. lookup_cases. rewrite fn_lookup_insert_ne by done. by apply Hwk.
  - intros t' x Hx. lookup_cases.
    + exists aw. rewrite fn_lookup_insert. split_and!; [done| |done].
      rewrite lookup_insert_ne by done. apply lookup_insert_eq.
    + destruct (Hv _ _ Hx) as (bw & ? & ? & ?).
      exists bw. rewrite fn_lookup_insert_ne by done. split_and!; [done| |done]. apply Hne; congruence.
  - intros t' x Hx. lookup_cases. by apply Hnf in Hx.
  - intros t' Hx. destruct (decide (t = t')) as [<-|].
    + destruct (Hx h) as [_ H]. by rewrite lookup_insert_eq in H.
    + rewrite fn_lookup_insert_ne by done. apply Hid. intros x. destruct (Hx x) as [H1 H2].
      split; intros ?; [apply H1|apply H2]; apply Hne; congruence.
  - intros a. split.
    + intros Ha. assert (Hah : a ≠ h).
      { intros ->. destruct Ha as [Ha|[t' Ha]].
        - destruct (proj1 Hdj h t Ha). rewrite HW. left.
        - assert (t' = t) as ->; [|by rewrite fn_lookup_insert in Ha].
          apply (proj2 Hdj h); [by apply Hin|rewrite HW; left]. }
      destruct (proj1 (Hp a)) as (bw & ? & ?); [naive_solver|]. exists bw. split; [done|].
      apply Hne; congruence.
    + intros (bw & Hb & Hbp). simpl in *. lookup_cases.
      destruct (proj2 (Hp a)) as [?|[t' Ha]]; [by exists bw|by left|]. right. exists t'.
      destruct (decide (t = t')) as [<-|]; [|by rewrite fn_lookup_insert_ne].
      rewrite fn_lookup_insert. rewrite HW in Ha. apply elem_of_cons in Ha as [->|]; [|done].
      simplify_eq.
  - split; [apply Hnd|done].
  - split; [intros a t' Ha Hin'; by apply (proj1 Hdj a t' Ha), Hin|].
    intros a t1 t2 H1 H2. apply (proj2 Hdj a); by apply Hin.
Qed.

(** [head = head->m_next]. *)
Lemma lists_next s st W t h : lists s st W → p_role s !! t = Some (RVisit h) →
  ∃ next, next_of (p_mem s) h = Some next ∧ lists (role_pc t (RWalk next) s) st W.
Proof.
  intros [Ho Hst Hwk Hv Hnf Hid Hp Hnd Hdj] Ht.
  destruct (Hv _ _ Ht) as (aw & Hm & Hc & Hch). exists (m_next aw). unfold next_of.
  rewrite Hm. split; [done|].
  assert (Hne : ∀ t' p, p ≠ RVisit h → p_role s !! t' = Some p →
     <[t := RWalk (m_next aw)]> (p_role s) !! t' = Some p).
  { intros t' p ? Hq. rewrite lookup_insert_ne; congruence. }
  split; simpl; try done.
  - intros t' q b Hq Hb. simpl in *. lookup_cases. by eapply Ho.
  - intros t' x Hx. lookup_cases; [done|]. by apply Hwk.
  - intros t' x Hx. lookup_cases. destruct (Hv _ _ Hx) as (bw & ? & ? & ?).
    exists bw. split_and!; [done| |done]. by apply Hne.
  - intros t' x Hx. lookup_cases. by apply Hnf in Hx.
  - intros t' Hx. destruct (decide (t = t')) as [<-|].
    + destruct (Hx (m_next aw)) as [H _]. by rewrite lookup_insert_eq in H.
    + apply Hid. intros x. destruct (Hx x). by rewrite lookup_insert_ne in * by done.
  - intros a. rewrite Hp. split; intros (bw & Ha & Hcb); exists bw; (split; [done|]); simpl in *.
    + by apply Hne.
    + by lookup_cases.
Qed.

(** No awaiter, no thread. *)
Lemma lists_empty roles : roles = ∅ → lists (Pool ∅ nullptr roles) [] (λ _, []).
Proof.
  intros ->. split; simpl; try done.
  - intros a. split; [intros [H|[t H]]; by apply elem_of_nil in H|]. intros (aw & H & _). done.
  - split; intros; by apply NoDup_nil_2.
  - split; [intros a t H|intros a t1 t2 H]; simpl in H; by apply elem_of_nil in H.
Qed.

(** The last step of a walker, and steps of a coroutine in its loop. *)
Lemma lists_walked s st W t : lists s st W → p_role s !! t = Some (RWalk nullptr) →
  lists (role_out t s) st W.
Proof. intros Hl Ht. apply lists_leave; [done|]. rewrite Ht. intros p [= <-]. by right. Qed.

Lemma lists_loop s st W t this r : lists s st W →
  (∃ h, p_role s !! t = Some (RCas this h)) ∨ p_role s !! t = Some (RLoop this) →
  r = RLoop this ∨ r = RReady this → lists (role_pc t r s) st W.
Proof.
  intros Hl Ht Hr. assert (∃ q, p_role s !! t = Some q ∧ role_awaiter q = Some this ∧
    listed q = false ∧ ∀ a, q ≠ RReady a) as (q & Hq & Ha & Hlq & Hrq) by naive_solver.
  apply lists_set_role; [done|by destruct Hr as [-> | ->]| |].
  - intros a Hra. assert (a = this) as -> by (destruct Hr as [-> | ->]; by injection Hra).
    destruct (l_owned _ _ _ Hl _ _ _ Hq Ha) as (? & aw & ? & ? & _). split; [done|].
    exists aw. split_and!; [done..|]. intros h ->. by destruct Hr.
  - intros p Hp. rewrite Hq in Hp. by injection Hp as <-.
Qed.

(** ** Draining a list

    One step of a walker on the lists: wake the awaiter it is at, or go to the
    next one. *)
Definition walk_step (t : nat) (p : pool) : option (pool * list (nat * nat)) :=
  match p_role p !! t with
  | Some (RWalk x) =>
      if decide (x = nullptr) then Some (role_out t p, []) else
      aw ← p_mem p !! x;
      Some (role_pc t (RVisit x) (role_pc (m_await_coro aw) (RReady x) p),
            [(m_ctx aw, m_await_coro aw)])
  | Some (RVisit x) =>
      match next_of (p_mem p) x with
      | Some next => Some (role_pc t (RWalk next) p, [])
      | None => Some (role_pc t (RFault x) p, [])
      end
  | _ => None
  end.

(** A component whose walkers are [walk_step]: the label of a walker's step
    and the event of a wake-up. *)
Class WaitPool {St Lb Ev} (M : machine St Lb Ev) (view : St → pool)
    (walk : nat → Lb) (wake : nat * nat → Ev) : Prop :=
  walk_ok s t p ws : walk_step t (view s) = Some (p, ws) →
    ∃ s', m_step M (walk t) s = Some (s', wake <$> ws) ∧ view s' = p.

(** The waiters that a list of awaiters stands for. *)
Definition waiters (m : gmap ptr awaiter) (l : list ptr) (ws : list (nat * nat)) : Prop :=
  Forall2 (λ a w, ∃ aw, m !! a = Some aw ∧ w = (m_ctx aw, m_await_coro aw)) l ws.

(** What a run of a walker alone leaves behind. *)
Record drained (t : nat) (s s' : pool) (l : list ptr) (ws : list (nat * nat)) : Prop := {
  d_gone : p_role s' !! t = None;
  d_waiters : waiters (p_mem s) l ws;
  d_ready : ∀ a aw, a ∈ l → p_mem s !! a = Some aw →
    p_role s' !! m_await_coro aw = Some (RReady a);
  d_kept : ∀ t' a, t' ≠ t → p_role s !! t' = Some (RReady a) → p_role s' !! t' = Some (RReady a);
  d_mem : p_mem s' = p_mem s;
  d_head : p_head s' = p_head s;
}.

Lemma drained_cons t s l ws x aw nx s' : p_role s !! t = Some (RWalk x) →
  x ≠ nullptr → p_mem s !! x = Some aw → p_role s !! m_await_coro aw = Some (RParked x) →
  drained t (role_pc t (RWalk nx) (role_pc t (RVisit x) (role_pc (m_await_coro aw) (RReady x) s)))
    s' l ws →
  drained t s s' (x :: l) ((m_ctx aw, m_await_coro aw) :: ws).
Proof.
  intros Ht Hn Hm Hpk [Hg Hws Hr Hk Hme Hst]. assert (Htc : t ≠ m_await_coro aw) by congruence.
  simpl in *. split; try done.
  - constructor; [by exists aw|exact Hws].
  - intros b bw Hb Hbm. apply elem_of_cons in Hb as [->|Hb]; [|by apply Hr].
    simplify_eq. apply Hk; [done|]. rewrite !lookup_insert_ne by done. apply lookup_insert_eq.
  - intros t' b Hn' Hb. apply Hk; [done|].
    rewrite !lookup_insert_ne by done. by rewrite lookup_insert_ne by congruence.
Qed.

Section drain.
Context {St Lb Ev : Type} (M : machine St Lb Ev) (view : St → pool).
Context (walk : nat → Lb) (wake : nat * nat → Ev) `{!WaitPool M view walk wake}.

(** A walker run alone wakes its whole list, in order, and ends: two steps
    per awaiter and one more. *)
Lemma drain_run l : ∀ s st W t x, lists (view s) st W →
  p_role (view s) !! t = Some (RWalk x) → W t = l →
  ∃ s' ws, exec M (replicate (2 * length l + 1) (walk t)) s = Some (s', wake <$> ws) ∧
    drained t (view s) (view s') l ws.
Proof.
  induction l as [|a l IH]; intros s st W t x Hl Ht HW;
    pose proof (l_walk _ _ _ Hl _ _ Ht) as Hch; rewrite HW in Hch.
  - simpl in Hch. subst x.
    destruct (walk_ok s t (role_out t (view s)) []) as (s1 & Hs1 & Hv).
    { unfold walk_step. by rewrite Ht. }
    exists s1, []. split; [simpl; by rewrite Hs1|]. rewrite Hv.
    split; simpl; try done; [by apply lookup_delete_eq|by constructor| |].
    + intros a aw Ha. by apply elem_of_nil in Ha.
    + intros t' a Hn Ha. by rewrite lookup_delete_ne.
  - destruct Hch as (-> & Hn & q & Hq & Hch). unfold next_of in Hq.
    destruct (p_mem (view s) !! a) as [aw|] eqn:Hm; [|done]. injection Hq as <-.
    destruct (lists_resume _ _ _ _ _ _ Hl Ht Hn Hm) as (l' & HW' & Hpk & Hl1).
    rewrite HW in HW'. injection HW' as <-.
    edestruct (walk_ok s t) as (s1 & Hs1 & Hv1).
    { unfold walk_step. rewrite Ht, decide_False, Hm by done. done. }
    rewrite <- Hv1 in Hl1.
    assert (Ht1 : p_role (view s1) !! t = Some (RVisit a)).
    { rewrite Hv1. apply lookup_insert_eq. }
    destruct (lists_next _ _ _ _ _ Hl1 Ht1) as (nx & Hnx & Hl2).
    edestruct (walk_ok s1 t) as (s2 & Hs2 & Hv2).
    { unfold walk_step. by rewrite Ht1, Hnx. }
    rewrite <- Hv2 in Hl2.
    destruct (IH s2 st _ t nx Hl2) as (s' & ws & He & Hd).
    { rewrite Hv2. apply lookup_insert_eq. } { by rewrite fn_lookup_insert. }
    exists s', ((m_ctx aw, m_await_coro aw) :: ws). split.
    + replace (2 * length (a :: l) + 1)%nat with (S (S (2 * length l + 1))) by (simpl; lia).
      cbn [replicate exec]. by rewrite Hs1, Hs2, He.
    + rewrite Hv2, Hv1 in Hd. by eapply drained_cons.
Qed.
End drain.
