(* ===== verification/WaitGroup.v ===== *)
(** * coro::wait_group (include/coro/comp/wait_group.hpp, src/comp/wait_group.cpp)

    The counter and the list of parked awaiters, every atomic access one step.
    The machine takes a discipline: with [eager := true] a woken coroutine may
    run (and destroy its awaiter) at once, as on another context's thread;
    with [eager := false] it runs only after [done] has read the awaiter's
    [m_next], as when everything runs on one context whose queue has room. *)
From S2P Require Import Prelude WaitCount WaitList.
Local Open Scope Z_scope.
Local Open Scope coro_scope.

Inductive pc :=
  | WaitCount (this : ptr)           (* await_suspend: load m_count *)
  | WaitLoad (this : ptr)            (* ... not zero: load m_state, m_next = head *)
  | WaitCas (this head : ptr)        (* ... CAS head to this *)
  | Parked (this : ptr)              (* suspended *)
  | Ready (this : ptr)               (* to run await_resume *)
  | DoneXchg                         (* done: fetch_sub returned 1, take the list *)
  | DoneResume (head : ptr)          (* ... head->resume(), or the end of the list *)
  | DoneNext (head : ptr)            (* ... head = head->m_next *)
  | Faulted (head : ptr).            (* ... read of m_next in a destroyed awaiter *)

Record state := State {
  m_count : Z;                       (* atomic<int32_t> *)
  m_state : ptr;                     (* head of the list of awaiters *)
  mem : gmap ptr awaiter;
  pcs : gmap nat pc;
  nwait : nat → Z;
}.

Inductive label :=
  | Wait (t : nat) (this : ptr) (ctx : nat)
  | Add (count : Z)
  | Done (t : nat)
  | Step (t : nat) (spurious : bool).

Inductive event :=
  | Zero (t : nat)                   (* the counter went from 1 to 0 *)
  | Pass (t : nat)                   (* wait() found the counter at 0 *)
  | Park (w : nat * nat)             (* suspended *)
  | Wake (w : nat * nat).            (* submitted to its context *)

Definition init (count : Z) : state := State (s32 count) nullptr ∅ ∅ (λ _, 0).

Definition set_pc (t : nat) (p : pc) (s : state) : state :=
  State (m_count s) (m_state s) (mem s) (<[t := p]> (pcs s)) (nwait s).
Definition leave (t : nat) (s : state) : state :=
  State (m_count s) (m_state s) (mem s) (delete t (pcs s)) (nwait s).
Definition set_count (c : Z) (s : state) : state :=
  State c (m_state s) (mem s) (pcs s) (nwait s).
Definition set_state (v : ptr) (s : state) : state :=
  State (m_count s) v (mem s) (pcs s) (nwait s).
Definition set_mem (m : gmap ptr awaiter) (s : state) : state :=
  State (m_count s) (m_state s) m (pcs s) (nwait s).
Definition set_nwait (w : nat → Z) (s : state) : state :=
  State (m_count s) (m_state s) (mem s) (pcs s) w.

(** [wait()] and [awaiter::await_suspend] up to its loop. *)
Definition wait (t : nat) (this : ptr) (ctx : nat) (s : state) : option state :=
  if decide (pcs s !! t = None ∧ mem s !! this = None ∧ this ≠ nullptr) then
    let s := set_mem (<[this := Awaiter ctx nullptr t]> (mem s)) s in
    let s := set_nwait (register_wait ctx 1 (nwait s)) s in
    Some (set_pc t (WaitCount this) s)
  else None.

(** The loop of [awaiter::await_suspend]. *)
Definition await_suspend (t : nat) (p : pc) (spurious : bool) (s : state)
    : option (state * list event) :=
  match p with
  | WaitCount this =>
      if decide (m_count s = 0) then Some (set_pc t (Ready this) s, [Pass t])
      else Some (set_pc t (WaitLoad this) s, [])
  | WaitLoad this =>
      let head := m_state s in
      m ← write_next this head (mem s);
      Some (set_pc t (WaitCas this head) (set_mem m s), [])
  | WaitCas this head =>
      if decide (m_state s = head ∧ spurious = false) then
        aw ← mem s !! this;
        Some (set_pc t (Parked this) (set_state this s), [Park (m_ctx aw, t)])
      else Some (set_pc t (WaitCount this) s, [])
  | _ => None
  end.

(** [awaiter::await_resume], then the awaiter is destroyed. *)
Definition await_resume (t : nat) (this : ptr) (s : state) : option state :=
  aw ← mem s !! this;
  let s := set_nwait (unregister_wait (m_ctx aw) 1 (nwait s)) s in
  Some (leave t (set_mem (delete this (mem s)) s)).

(** [awaiter::resume] *)
Definition resume (a : ptr) (s : state) : option (state * (nat * nat)) :=
  aw ← mem s !! a;
  Some (set_pc (m_await_coro aw) (Ready a) s, (m_ctx aw, m_await_coro aw)).

(** [wait_group::add] *)
Definition add (count : Z) (s : state) : state := set_count (s32 (m_count s + count)) s.

(** [wait_group::done]: the decrement, and what the thread that reaches zero does. *)
Definition done_sub (t : nat) (s : state) : state * list event :=
  let old := m_count s in
  let s := set_count (s32 (old - 1)) s in
  if decide (old = 1) then (set_pc t DoneXchg s, [Zero t]) else (s, []).

Definition done_walk (t : nat) (p : pc) (s : state) : option (state * list event) :=
  match p with
  | DoneXchg => Some (set_pc t (DoneResume (m_state s)) (set_state nullptr s), [])
  | DoneResume head =>
      if decide (head = nullptr) then Some (leave t s, [])
      else '(s, w) ← resume head s; Some (set_pc t (DoneNext head) s, [Wake w])
  | DoneNext head =>
      match next_of (mem s) head with
      | Some next => Some (set_pc t (DoneResume next) s, [])
      | None => Some (set_pc t (Faulted head) s, [])
      end
  | _ => None
  end.

#[global] Instance pc_eq_dec : EqDecision pc.
Proof. solve_decision. Defined.

(** Is some [done] still at the awaiter [a]? *)
Definition visited (a : ptr) (s : state) : Prop :=
  map_Exists (λ _ p, p = DoneNext a) (pcs s).
#[global] Instance visited_dec a s : Decision (visited a s).
Proof. unfold visited. apply _. Defined.

Section machine.
(** May a woken coroutine run before [done] has left its awaiter? *)
Context (eager : bool).

Definition step (l : label) (s : state) : option (state * list event) :=
  match l with
  | Wait t this ctx => s ← wait t this ctx s; Some (s, [])
  | Add count => Some (add count s, [])
  | Done t => if decide (pcs s !! t = None) then Some (done_sub t s) else None
  | Step t spurious =>
      match pcs s !! t with
      | Some (WaitCount _ | WaitLoad _ | WaitCas _ _) as p =>
          p ← p; await_suspend t p spurious s
      | Some (Ready this) =>
          if decide (eager = true ∨ ¬ visited this s) then
            s ← await_resume t this s; Some (s, [])
          else None
      | Some (Parked _ | Faulted _) | None => None
      | Some p => done_walk t p s
      end
  end.

Definition wait_group_machine : machine state label event :=
  Machine (λ s, ∃ count, s = init count) step.
End machine.


(** ** The lists of parked awaiters *)

(** The group as a pool of awaiters ([WaitList.v]). *)
Definition role_of (p : pc) : role :=
  match p with
  | WaitCount a | WaitLoad a => RLoop a
  | WaitCas a h => RCas a h
  | Parked a => RParked a
  | Ready a => RReady a
  | DoneXchg => RIdle
  | DoneResume x => RWalk x
  | DoneNext x => RVisit x
  | Faulted x => RFault x
  end.
Definition view (s : state) : pool := Pool (mem s) (m_state s) (role_of <$> pcs s).

Lemma wg_view_set_pc t p s : view (set_pc t p s) = role_pc t (role_of p) (view s).
Proof. unfold view, role_pc. simpl. by rewrite fmap_insert. Qed.
Lemma wg_view_leave t s : view (leave t s) = role_out t (view s).
Proof. unfold view, role_out. simpl. by rewrite fmap_delete. Qed.
Lemma wg_view_role s t p : pcs s !! t = Some p → p_role (view s) !! t = Some (role_of p).
Proof. simpl. rewrite lookup_fmap. by intros ->. Qed.
Lemma wg_view_role_inv s t r : p_role (view s) !! t = Some r → ∃ p, pcs s !! t = Some p ∧ r = role_of p.
Proof. simpl. rewrite lookup_fmap. destruct (pcs s !! t); simpl; [|done]. intros [= <-]. eauto. Qed.
Create Rewrite HintDb view.
#[export] Hint Rewrite wg_view_set_pc wg_view_leave : view.

Lemma wg_view_visited a s : WaitList.visited a (view s) ↔ visited a s.
Proof.
  unfold visited. rewrite map_Exists_lookup. split.
  - intros (t & (p & ? & Hp)%wg_view_role_inv). destruct p; simplify_eq/=. by exists t, (DoneNext head).
  - intros (t & p & Hp & ->). exists t. exact (wg_view_role _ _ _ Hp).
Qed.

#[global] Instance wait_group_pool eager :
  WaitPool (wait_group_machine eager) view (λ t, Step t false) Wake.
Proof.
  intros s t p ws Hw. unfold walk_step in Hw. destruct (p_role _ !! t) as [r|] eqn:Hr; [|done].
  apply wg_view_role_inv in Hr as (q & Hq & ->). cbn [m_step wait_group_machine step]. rewrite Hq.
  destruct q; try done; simpl in *.
  - case_decide; [simplify_eq; eexists; split; [done|apply wg_view_leave]|].
    unfold resume. destruct (mem s !! head); [|done]. simplify_eq/=.
    eexists; split; [done|]. by autorewrite with view.
  - destruct (next_of (mem s) head); simplify_eq; eexists; (split; [done|apply wg_view_set_pc]).
Qed.

(** Every step of the disciplined machine keeps the lists. *)
Lemma lists_wait s st W t this ctx s' : lists (view s) st W → wait t this ctx s = Some s' →
  lists (view s') st W.
Proof.
  intros Hl Hs. unfold wait in Hs. case_decide as Hd; [|done]. destruct Hd as (Ht & Hm & Hn).
  simplify_eq. rewrite wg_view_set_pc. apply (lists_enter (view s)); try done; [|by left].
  simpl. by rewrite lookup_fmap, Ht.
Qed.

Lemma lists_suspend s st W t p sp s' es : lists (view s) st W → pcs s !! t = Some p →
  await_suspend t p sp s = Some (s', es) → ∃ st', lists (view s') st' W.
Proof.
  intros Hl Ht%wg_view_role Hs. destruct p as [a|a|a h| | | | | |]; try done; simpl in Hs, Ht.
  - exists st. case_decide; simplify_eq; rewrite wg_view_set_pc;
      (eapply lists_loop; [done|right; exact Ht|simpl; auto]).
  - destruct (write_next _ _ _) eqn:E; [|done]. simplify_eq/=.
    apply write_next_inv in E as (aw & Hm & ->). exists st. rewrite wg_view_set_pc.
    eapply (lists_write (view s)); [done|exact Ht|done|by left].
  - case_decide as Hd; [destruct (mem s !! a) as [aw|] eqn:Hm; [|done]|]; simplify_eq/=;
      rewrite wg_view_set_pc.
    + destruct Hd as [<- _]. exists (a :: st). by eapply (lists_push (view s)).
    + exists st. eapply lists_loop; [done|left; eexists; exact Ht|by left].
Qed.

Lemma lists_walk s st W t p s' es : lists (view s) st W → pcs s !! t = Some p →
  done_walk t p s = Some (s', es) → ∃ st' W', lists (view s') st' W'.
Proof.
  intros Hl Ht%wg_view_role Hs. destruct p as [| | | | | |h|h|]; try done; simpl in Hs, Ht.
  - simplify_eq. rewrite wg_view_set_pc. exists [], (<[t := st]> W). apply (lists_xchg (view s)); auto.
  - case_decide as Hn; simplify_eq.
    + rewrite wg_view_leave. exists st, W. by apply lists_walked.
    + unfold resume in Hs. destruct (mem s !! h) as [aw|] eqn:Hm; [|done]. simplify_eq/=.
      autorewrite with view.
      destruct (lists_resume _ _ _ _ _ _ Hl Ht Hn Hm) as (l & _ & _ & Hl'). by exists st, (<[t := l]> W).
  - destruct (lists_next _ _ _ _ _ Hl Ht) as (next & Hnx & Hl'). simpl in Hnx.
    rewrite Hnx in Hs. simplify_eq. exists st, W. by rewrite wg_view_set_pc.
Qed.

Lemma lists_step s st W l s' es : lists (view s) st W → step false l s = Some (s', es) →
  ∃ st' W', lists (view s') st' W'.
Proof.
  intros Hl Hs. destruct l as [t this ctx|count|t|t sp]; simpl in Hs.
  - destruct (wait t this ctx s) eqn:E; [|done]. simplify_eq/=.
    exists st, W. by eapply lists_wait.
  - simplify_eq. by exists st, W.
  - case_decide as Ht; [|done]. unfold done_sub in Hs.
    case_decide; simplify_eq; exists st, W; [|done].
    rewrite wg_view_set_pc. apply (lists_set_role (view s)); [done|done|done|]. simpl.
    rewrite lookup_fmap, Ht. done.
  - destruct (pcs s !! t) as [p|] eqn:Ht; [|done].
    destruct p as [| | | |a| | | |]; try done;
      try (destruct (lists_suspend _ _ _ _ _ sp _ _ Hl Ht Hs) as [st' ?]; by exists st', W);
      try (by eapply lists_walk).
    case_decide as Hd; [|done]. unfold await_resume in Hs.
    destruct (mem s !! a) as [aw|] eqn:Hm; [|done]. simplify_eq/=. exists st, W.
    destruct Hd as [?|Hd]; [done|]. rewrite wg_view_leave. apply wg_view_role in Ht.
    apply (lists_return (view s) _ _ _ _ aw); [done..| |done]. by rewrite wg_view_visited.
Qed.

Lemma lists_reach s tr : reach (wait_group_machine false) s tr → ∃ st W, lists (view s) st W.
Proof.
  intros Hr. revert s tr Hr. apply reach_inv.
  - intros s [c ->]. exists [], (λ _, []). by apply lists_empty.
  - intros s l s' es (st & W & Hl) Hs. exact (lists_step s st W l s' es Hl Hs).
Qed.

(** [a] is parked: its coroutine sleeps. *)
Lemma view_parked s a : parked (view s) a ↔
  ∃ aw, mem s !! a = Some aw ∧ pcs s !! m_await_coro aw = Some (Parked a).
Proof.
  split; intros (aw & Hm & Hp); exists aw; (split; [done|]).
  - apply wg_view_role_inv in Hp as (p & Hp & Hr). destruct p; by simplify_eq/=.
  - exact (wg_view_role _ _ _ Hp).
Qed.

(** ** The wake-up order, the counter *)

Definition in_done (p : pc) : bool :=
  match p with DoneXchg | DoneResume _ | DoneNext _ | Faulted _ => true | _ => false end.

(** Whoever walks the list saw the counter reach zero. *)
Definition zero_seen (s : state) (tr : list event) : Prop :=
  (∀ t p, pcs s !! t = Some p → in_done p = true → ∃ t', Zero t' ∈ tr) ∧
  (∀ w, Wake w ∈ tr → ∃ t', Zero t' ∈ tr).

Lemma zero_seen_quiet s s' tr es : zero_seen s tr →
  (∀ t p, pcs s' !! t = Some p → in_done p = true →
     ∃ t' p', pcs s !! t' = Some p' ∧ in_done p' = true) →
  (∀ w, Wake w ∈ es → ∃ t p, pcs s !! t = Some p ∧ in_done p = true) →
  zero_seen s' (tr ++ es).
Proof.
  intros [Hw He] Hp Hes. assert (Hz : ∀ t p, pcs s !! t = Some p → in_done p = true →
    ∃ t', Zero t' ∈ tr ++ es).
  { intros t p ??. destruct (Hw t p) as [t' ?]; [done..|]. exists t'. apply elem_of_app. by left. }
  split.
  - intros t p Ht Hd. destruct (Hp _ _ Ht Hd) as (t' & p' & ? & ?). by eapply Hz.
  - intros w [Hw'|Hw']%elem_of_app.
    + destruct (He _ Hw') as [t' ?]. exists t'. apply elem_of_app. by left.
    + destruct (Hes _ Hw') as (t & p & ? & ?). by eapply Hz.
Qed.

Lemma no_wake (es : list event) w : (∀ w, es ≠ [Wake w]) → (length es ≤ 1)%nat → Wake w ∉ es.
Proof.
  destruct es as [|e [|]]; simpl; intros He ? Hin; [by apply elem_of_nil in Hin| |lia].
  apply list_elem_of_singleton in Hin as <-. by apply (He w).
Qed.

(** The step of one coroutine [t] from a program counter outside [done] to
    another one outside [done]. *)
Lemma zero_seen_step eager s tr l s' es : zero_seen s tr →
  step eager l s = Some (s', es) → zero_seen s' (tr ++ es).
Proof.
  intros Hz Hs.
  destruct l as [t this ctx|count|t|t sp]; simpl in Hs.
  - unfold wait in Hs. case_decide; [|done]. simplify_eq/=.
    apply (zero_seen_quiet s); [done| |].
    + intros t' p Ht' Hd. simpl in Ht'. lookup_cases. eauto.
    + intros w Hw. by apply elem_of_nil in Hw.
  - simplify_eq. apply (zero_seen_quiet s); [done|by eauto|]. intros w Hw. by apply elem_of_nil in Hw.
  - case_decide; [|done]. unfold done_sub in Hs. case_decide; simplify_eq.
    + split; [intros; exists t; apply elem_of_app; right; left|].
      intros; exists t; apply elem_of_app; right; left.
    + apply (zero_seen_quiet s); [done|by eauto|]. intros w Hw. by apply elem_of_nil in Hw.
  - destruct (pcs s !! t) as [p|] eqn:Ht; [|done].
    destruct (in_done p) eqn:Hd.
    + apply (zero_seen_quiet s); [done|by eauto|by eauto].
    + assert (Hes : ∀ w, (Wake w ∉ es) ∧ ∀ t' p', pcs s' !! t' = Some p' → in_done p' = true →
        pcs s !! t' = Some p').
      { intros w. destruct p; try done; simpl in Hs; unfold await_resume, write_next in Hs;
          step_inv Hs;
          (split; [apply no_wake; simpl; [by intros ? Hw|lia]|]);
          intros t' p' Ht' Hd'; simpl in Ht'; lookup_cases; done. }
      apply (zero_seen_quiet s); [done| |].
      * intros t' p' Ht' Hd'. exists t', p'. split; [|done].
        by apply (proj2 (Hes (0%nat, 0%nat))).
      * intros w Hw. by destruct (Hes w).
Qed.

Lemma wg_step_accounts eager s l s' es : accounts m_ctx (mem s) (nwait s) →
  step eager l s = Some (s', es) → accounts m_ctx (mem s') (nwait s').
Proof.
  intros Hc Hs. destruct l as [t this ctx|count|t|t sp]; simpl in Hs.
  - unfold wait in Hs. case_decide as Hd; [|done]. simplify_eq/=.
    apply (accounts_register m_ctx _ _ this (Awaiter ctx nullptr t)); [apply Hd|done].
  - by simplify_eq.
  - unfold done_sub in Hs. by step_inv Hs.
  - destruct (pcs s !! t) as [p|]; [|done]. destruct p; try done; simpl in Hs.
    + by step_inv Hs.
    + destruct (write_next this (m_state s) (mem s)) eqn:E; [|done]. simplify_eq/=.
      apply write_next_inv in E as (aw & Ha & ->). by eapply accounts_update.
    + by step_inv Hs.
    + unfold await_resume in Hs. step_inv Hs. by apply accounts_unregister.
    + by step_inv Hs.
    + unfold resume in Hs. by step_inv Hs.
    + by step_inv Hs.
Qed.

(** The contract with the contexts ([WaitCount.v]): [done] submits the awaiters
    it has taken. *)
Definition woken (l : label) (s : state) : option ptr :=
  match l with
  | Step t _ => match pcs s !! t with Some (DoneResume a) => Some a | _ => None end
  | _ => None
  end.
#[global] Instance wait_group_waits eager : WaitAccounting (wait_group_machine eager) :=
  awaiters_waits (wait_group_machine eager) mem m_ctx nwait woken.
#[global] Instance wait_group_waits_laws eager : WaitAccountingLaws (wait_group_machine eager).
Proof.
  apply awaiters_waits_laws, reach_inv.
  - intros s [count ->] c. done.
  - intros s l s' es Hc Hs. exact (wg_step_accounts eager s l s' es Hc Hs).
Qed.

(** ** Properties *)

(** a waiter is woken only after the counter reached zero, in every
    interleaving. *)
Theorem wait_group_wake_after_zero eager s tr w : reach (wait_group_machine eager) s tr →
  Wake w ∈ tr → ∃ t, Zero t ∈ tr.
Proof.
  intros Hr. assert (Hz : zero_seen s tr); [|apply Hz]. revert s tr Hr. apply reach_inv_tr.
  - intros s [c ->]. split; [intros ?? H; done|]. intros ? H. by apply elem_of_nil in H.
  - intros s tr l s' es Hz Hs. exact (zero_seen_step eager s tr l s' es Hz Hs).
Qed.

(** when woken coroutines run after [done] has left their awaiter, no
    destroyed awaiter is read, and every parked awaiter is in the list of
    the group or in the list of a running [done]. *)
Theorem wait_group_parked s tr : reach (wait_group_machine false) s tr →
  (∀ t a, pcs s !! t ≠ Some (Faulted a)) ∧
  ∃ st W, chain (next_of (mem s)) (m_state s) st ∧
    (∀ t, W t ≠ [] → ∃ h, pcs s !! t = Some (DoneResume h) ∨ pcs s !! t = Some (DoneNext h)) ∧
    (∀ a, parked (view s) a ↔ a ∈ st ∨ ∃ t, a ∈ W t).
Proof.
  intros (st & W & Hl)%lists_reach. split.
  { intros t a Ht%wg_view_role. by apply (l_nofault _ _ _ Hl) in Ht. }
  exists st, W. split_and!; [exact (l_stack _ _ _ Hl)| |intros a; symmetry; apply Hl].
  intros t HW. destruct (pcs s !! t) as [[]|] eqn:E; try (by eauto);
    rewrite (l_idle _ _ _ Hl t) in HW by (simpl; intros; rewrite lookup_fmap, E; done); done.
Qed.


(** (defect) a wake-up can be lost: the counter is zero, the only
    [done] is over, the waiter is parked for ever: no thread has a step. *)
Theorem wait_group_lost_wakeup :
  ∃ s tr, reach (wait_group_machine false) s tr ∧ Zero 0 ∈ tr ∧ m_count s = 0 ∧
    pcs s = {[1%nat := Parked 16]} ∧ ∀ t sp, step false (Step t sp) s = None.
Proof.
  set (ls := [Wait 1 16 0; Step 1 false; Done 0; Step 0 false; Step 0 false;
    Step 1 false; Step 1 false]%nat).
  exists (final (wait_group_machine false) ls (init 1)), (trace (wait_group_machine false) ls (init 1)).
  split_and!.
  - apply exec_reach_final; [by exists 1|by vm_compute].
  - apply list_elem_of_In. vm_compute. auto.
  - by vm_compute.
  - by vm_compute.
  - intros t sp. assert (Hp : pcs (final (wait_group_machine false) ls (init 1)) = {[1%nat := Parked 16]})
      by by vm_compute.
    simpl. rewrite Hp. destruct (decide (t = 1%nat)) as [->|].
    + by rewrite lookup_singleton_eq.
    + by rewrite lookup_singleton_ne.
Qed.

(** C35: (defect) when the woken coroutine runs at once on another thread,
    [done] reads [m_next] in an awaiter that no longer exists. *)
Theorem wait_group_use_after_free :
  ∃ s tr, reach (wait_group_machine true) s tr ∧ pcs s !! 0%nat = Some (Faulted 16) ∧
    mem s !! 16 = None.
Proof.
  set (ls := [Wait 1 16 0; Step 1 false; Step 1 false; Step 1 false; Done 0;
    Step 0 false; Step 0 false; Step 1 false; Step 0 false]%nat).
  exists (final (wait_group_machine true) ls (init 1)), (trace (wait_group_machine true) ls (init 1)).
  split_and!; [apply exec_reach_final; [by exists 1|]|..]; by vm_compute.
Qed.

(** ** Witnesses *)

(** Two waiters park, the counter goes 2, 1, 0. *)
Definition wg_demo : list label :=
  [Wait 1 16 0; Step 1 false; Step 1 false; Step 1 false;
   Wait 2 32 1; Step 2 false; Step 2 false; Step 2 false; Done 0; Done 0]%nat.
Definition wg_demo_end : list label := wg_demo ++ replicate 6 (Step 0 false).

Lemma wg_demo_reach :
  reach (wait_group_machine false) (final (wait_group_machine false) wg_demo (init 2))
    (trace (wait_group_machine false) wg_demo (init 2)).
Proof. apply exec_reach_final; [by exists 2|by vm_compute]. Defined.

Lemma wait_group_wake_after_zero_witness :
  trace (wait_group_machine false) wg_demo_end (init 2) =
    [Park (0, 1); Park (1, 2); Zero 0; Wake (1, 2); Wake (0, 1)]%nat ∧
  ∃ t, Zero t ∈ trace (wait_group_machine false) wg_demo_end (init 2).
Proof.
  split; [by vm_compute|].
  apply (wait_group_wake_after_zero false (final (wait_group_machine false) wg_demo_end (init 2)) _ (0, 1)%nat).
  - apply exec_reach_final; [by exists 2|by vm_compute].
  - apply list_elem_of_In. vm_compute. auto 10.
Defined.

Lemma wait_group_parked_witness : ∃ st, chain
  (next_of (mem (final (wait_group_machine false) wg_demo (init 2))))
  (m_state (final (wait_group_machine false) wg_demo (init 2))) st.
Proof. destruct (wait_group_parked _ _ wg_demo_reach) as (_ & st & W & H & _). by exists st. Defined.

