(* ===== verification/Event.v ===== *)
(** * coro::event (include/coro/comp/event.hpp, src/comp/event.cpp)

    A one-shot event with a value, the base of [latch]. Every atomic access is
    one step. The discipline [eager] is that of [WaitGroup.v]: with
    [eager := true] a woken coroutine may run, and destroy its awaiter, before
    [resume_all_awaiter] has read its [m_next]. *)
From S2P Require Import Prelude WaitCount WaitList.
Local Open Scope Z_scope.
Local Open Scope coro_scope.

(** [std::atomic<awaiter_ptr> m_state]: the address of the event itself when
    it is set, the head of the list of awaiters otherwise. *)
Inductive word :=
  | This
  | Waiters (head : ptr).

#[global] Instance word_eq_dec : EqDecision word.
Proof. solve_decision. Defined.

Inductive pc :=
  | Register (waiter : ptr)           (* register_awaiter: load m_state *)
  | RegisterCas (waiter old : ptr)    (* ... m_next = old written, CAS *)
  | Parked (waiter : ptr)             (* suspended *)
  | Ready (waiter : ptr)              (* to run await_resume *)
  | SetState                          (* set_state: exchange *)
  | Resume (waiter : ptr)             (* resume_all_awaiter: submit_task, or the end *)
  | Next (waiter : ptr)               (* ... waiter = cur->m_next *)
  | Faulted (waiter : ptr).           (* ... of a destroyed awaiter *)

#[global] Instance pc_eq_dec : EqDecision pc.
Proof. solve_decision. Defined.

Section event.
(** The type of the value, and the discipline. *)
Context {V : Type} (eager : bool).

Record state := State {
  m_state : word;
  m_value : option V;                 (* the container of event<V> *)
  mem : gmap ptr awaiter;
  pcs : gmap nat pc;
  nwait : nat → Z;
}.

Inductive label :=
  | Wait (t : nat) (waiter : ptr) (ctx : nat)
  | Set_ (t : nat) (value : V)
  | Step (t : nat) (spurious : bool).

Inductive event :=
  | Stored (t : nat) (value : V)      (* return_value *)
  | Fired (t : nat)                   (* set_state took the list *)
  | Park (w : nat * nat)
  | Wake (w : nat * nat)              (* submit_task of the awaiter's context *)
  | Got (t : nat) (value : option V). (* what await_resume found in the container *)

Definition init (initial_set : bool) : state :=
  State (if initial_set then This else Waiters nullptr) None ∅ ∅ (λ _, 0).

Definition set_pc (t : nat) (p : pc) (s : state) : state :=
  State (m_state s) (m_value s) (mem s) (<[t := p]> (pcs s)) (nwait s).
Definition leave (t : nat) (s : state) : state :=
  State (m_state s) (m_value s) (mem s) (delete t (pcs s)) (nwait s).
Definition put_state (w : word) (s : state) : state :=
  State w (m_value s) (mem s) (pcs s) (nwait s).
Definition put_value (v : V) (s : state) : state :=
  State (m_state s) (Some v) (mem s) (pcs s) (nwait s).
Definition put_mem (m : gmap ptr awaiter) (s : state) : state :=
  State (m_state s) (m_value s) m (pcs s) (nwait s).
Definition put_nwait (w : nat → Z) (s : state) : state :=
  State (m_state s) (m_value s) (mem s) (pcs s) w.

(** [event_base::is_set] *)
Definition is_set (s : state) : bool := bool_decide (m_state s = This).

(** [wait()], then [awaiter_base::await_ready]: when it returns [false] the
    coroutine enters [await_suspend]. *)
Definition await_ready (t : nat) (waiter : ptr) (ctx : nat) (s : state) : option state :=
  if decide (pcs s !! t = None ∧ mem s !! waiter = None ∧ waiter ≠ nullptr) then
    let s := put_mem (<[waiter := Awaiter ctx nullptr t]> (mem s)) s in
    let s := put_nwait (register_wait ctx 1 (nwait s)) s in
    Some (set_pc t (if is_set s then Ready waiter else Register waiter) s)
  else None.

(** [event_base::register_awaiter] *)
Definition register_awaiter (t : nat) (p : pc) (spurious : bool) (s : state)
    : option (state * list event) :=
  match p with
  | Register waiter =>
      match m_state s with
      | This =>
          m ← write_next waiter nullptr (mem s);
          Some (set_pc t (Ready waiter) (put_mem m s), [])
      | Waiters old =>
          m ← write_next waiter old (mem s);
          Some (set_pc t (RegisterCas waiter old) (put_mem m s), [])
      end
  | RegisterCas waiter old =>
      if decide (m_state s = Waiters old ∧ spurious = false) then
        aw ← mem s !! waiter;
        Some (set_pc t (Parked waiter) (put_state (Waiters waiter) s), [Park (m_ctx aw, t)])
      else Some (set_pc t (Register waiter) s, [])
  | _ => None
  end.

(** [event<V>::awaiter::await_resume]: leaves the context's counter, returns
    the value; then the awaiter is destroyed. *)
Definition await_resume (t : nat) (waiter : ptr) (s : state) : option (state * list event) :=
  aw ← mem s !! waiter;
  let s := put_nwait (unregister_wait (m_ctx aw) 1 (nwait s)) s in
  Some (leave t (put_mem (delete waiter (mem s)) s), [Got t (m_value s)]).

(** [event<V>::set]: the value first, then [set_state]. *)
Definition set (t : nat) (value : V) (s : state) : option (state * list event) :=
  if decide (pcs s !! t = None) then
    Some (set_pc t SetState (put_value value s), [Stored t value])
  else None.

(** [event_base::set_state] *)
Definition set_state (t : nat) (s : state) : state * list event :=
  match m_state s with
  | This => (leave t s, [])
  | Waiters waiter => (set_pc t (Resume waiter) (put_state This s), [Fired t])
  end.

(** [event_base::resume_all_awaiter] *)
Definition resume_all_awaiter (t : nat) (p : pc) (s : state) : option (state * list event) :=
  match p with
  | Resume waiter =>
      if decide (waiter = nullptr) then Some (leave t s, []) else
      cur ← mem s !! waiter;
      Some (set_pc t (Next waiter) (set_pc (m_await_coro cur) (Ready waiter) s),
            [Wake (m_ctx cur, m_await_coro cur)])
  | Next waiter =>
      match next_of (mem s) waiter with
      | Some next => Some (set_pc t (Resume next) s, [])
      | None => Some (set_pc t (Faulted waiter) s, [])
      end
  | _ => None
  end.

(** Is [resume_all_awaiter] still at [a]? *)
Definition visited (a : ptr) (s : state) : Prop := map_Exists (λ _ p, p = Next a) (pcs s).
#[global] Instance visited_dec a s : Decision (visited a s).
Proof. unfold visited. apply _. Defined.

Definition step (l : label) (s : state) : option (state * list event) :=
  match l with
  | Wait t waiter ctx => s ← await_ready t waiter ctx s; Some (s, [])
  | Set_ t value => set t value s
  | Step t spurious =>
      match pcs s !! t with
      | Some (Register _ | RegisterCas _ _) as p => p ← p; register_awaiter t p spurious s
      | Some (Ready waiter) =>
          if decide (eager = true ∨ ¬ visited waiter s) then await_resume t waiter s else None
      | Some SetState => Some (set_state t s)
      | Some (Resume _ | Next _) as p => p ← p; resume_all_awaiter t p s
      | Some (Parked _ | Faulted _) | None => None
      end
  end.

Definition event_machine (initial_set : bool) : machine state label event :=
  Machine (λ s, s = init initial_set) step.

(** ** The lists of parked awaiters *)

Definition role_of (p : pc) : role :=
  match p with
  | Register a => RLoop a
  | RegisterCas a h => RCas a h
  | Parked a => RParked a
  | Ready a => RReady a
  | SetState => RIdle
  | Resume x => RWalk x
  | Next x => RVisit x
  | Faulted x => RFault x
  end.
Definition head_of (w : word) : ptr := match w with This => nullptr | Waiters h => h end.
Definition view (s : state) : pool := Pool (mem s) (head_of (m_state s)) (role_of <$> pcs s).

Lemma event_view_set_pc t p s : view (set_pc t p s) = role_pc t (role_of p) (view s).
Proof. unfold view, role_pc. simpl. by rewrite fmap_insert. Qed.
Lemma event_view_leave t s : view (leave t s) = role_out t (view s).
Proof. unfold view, role_out. simpl. by rewrite fmap_delete. Qed.
Lemma event_view_role s t p : pcs s !! t = Some p → p_role (view s) !! t = Some (role_of p).
Proof. simpl. rewrite lookup_fmap. by intros ->. Qed.
Lemma event_view_role_inv s t r : p_role (view s) !! t = Some r → ∃ p, pcs s !! t = Some p ∧ r = role_of p.
Proof. simpl. rewrite lookup_fmap. destruct (pcs s !! t); simpl; [|done]. intros [= <-]. eauto. Qed.

Lemma event_view_visited a s : WaitList.visited a (view s) ↔ visited a s.
Proof.
  unfold visited. rewrite map_Exists_lookup. split.
  - intros (t & (p & ? & Hp)%event_view_role_inv). destruct p; simplify_eq/=. by exists t, (Next waiter).
  - intros (t & p & Hp & ->). exists t. exact (event_view_role _ _ _ Hp).
Qed.

#[global] Instance event_pool b : WaitPool (event_machine b) view (λ t, Step t false) Wake.
Proof.
  intros s t p ws Hw. unfold walk_step in Hw. destruct (p_role _ !! t) as [r|] eqn:Hr; [|done].
  apply event_view_role_inv in Hr as (q & Hq & ->). cbn [m_step event_machine step]. rewrite Hq.
  destruct q as [| | | | |x|x|]; try done; simpl in *.
  - case_decide; [simplify_eq; eexists; split; [done|apply event_view_leave]|].
    destruct (mem s !! x); [|done]. simplify_eq/=.
    eexists; split; [done|]. by rewrite !event_view_set_pc.
  - destruct (next_of (mem s) x); simplify_eq; eexists; (split; [done|apply event_view_set_pc]).
Qed.

Lemma lists_ready s st W t a ctx s' : lists (view s) st W → await_ready t a ctx s = Some s' →
  lists (view s') st W.
Proof.
  intros Hl Hs. unfold await_ready in Hs. case_decide as Hd; [|done]. destruct Hd as (Ht & Hm & Hn).
  simplify_eq. rewrite event_view_set_pc. apply (lists_enter (view s)); try done.
  - simpl. by rewrite lookup_fmap, Ht.
  - unfold is_set. simpl. case_bool_decide; auto.
Qed.

Lemma lists_register s st W t p sp s' es : lists (view s) st W → pcs s !! t = Some p →
  register_awaiter t p sp s = Some (s', es) → ∃ st', lists (view s') st' W.
Proof.
  intros Hl Ht%event_view_role Hs. destruct p as [a|a h| | | | | |]; try done; simpl in Hs, Ht.
  - exists st. destruct (m_state s) as [|old]; (destruct (write_next _ _ _) eqn:E; [|done]);
      simplify_eq/=; apply write_next_inv in E as (aw & Hm & ->); rewrite event_view_set_pc;
      (eapply (lists_write (view s)); [done|exact Ht|done|simpl; auto]).
  - case_decide as Hd; [destruct (mem s !! a) as [aw|] eqn:Hm; [|done]|]; simplify_eq/=;
      rewrite event_view_set_pc.
    + destruct Hd as [Hh _]. exists (a :: st). eapply (lists_push (view s)); [done| |done].
      simpl. rewrite Hh. exact Ht.
    + exists st. eapply lists_loop; [done|left; eexists; exact Ht|by left].
Qed.

Lemma lists_set_state s st W t s' es : lists (view s) st W → pcs s !! t = Some SetState →
  set_state t s = (s', es) → ∃ st' W', lists (view s') st' W'.
Proof.
  intros Hl Ht%event_view_role Hs. unfold set_state in Hs. destruct (m_state s) as [|h] eqn:Hh; simplify_eq.
  - exists st, W. rewrite event_view_leave. apply lists_leave; [done|]. rewrite Ht.
    intros p [= <-]. by left.
  - rewrite event_view_set_pc. exists [], (<[t := st]> W).
    pose proof (lists_xchg (view s) st W t Hl (or_introl Ht)) as Hx.
    simpl in Hx. by rewrite Hh in Hx.
Qed.

Lemma lists_resume_all s st W t p s' es : lists (view s) st W → pcs s !! t = Some p →
  resume_all_awaiter t p s = Some (s', es) → ∃ W', lists (view s') st W'.
Proof.
  intros Hl Ht%event_view_role Hs. destruct p as [| | | | |h|h|]; try done; simpl in Hs, Ht.
  - case_decide as Hn; simplify_eq.
    + rewrite event_view_leave. exists W. by apply lists_walked.
    + destruct (mem s !! h) as [aw|] eqn:Hm; [|done]. simplify_eq/=. rewrite !event_view_set_pc.
      destruct (lists_resume _ _ _ _ _ _ Hl Ht Hn Hm) as (l & _ & _ & Hl'). by exists (<[t := l]> W).
  - destruct (lists_next _ _ _ _ _ Hl Ht) as (next & Hnx & Hl'). simpl in Hnx.
    rewrite Hnx in Hs. simplify_eq. exists W. by rewrite event_view_set_pc.
Qed.

Lemma event_lists_step s st W l s' es : eager = false → lists (view s) st W →
  step l s = Some (s', es) → ∃ st' W', lists (view s') st' W'.
Proof.
  intros He Hl Hs. destruct l as [t this ctx|t v|t sp]; simpl in Hs.
  - destruct (await_ready t this ctx s) eqn:E; [|done]. simplify_eq/=.
    exists st, W. by eapply lists_ready.
  - unfold set in Hs. case_decide as Ht; [|done]. simplify_eq. exists st, W.
    rewrite event_view_set_pc. apply (lists_set_role (view s)); [done..|]. simpl.
    rewrite lookup_fmap, Ht. done.
  - destruct (pcs s !! t) as [p|] eqn:Ht; [|done].
    destruct p as [| | |a| | | |]; try done;
      try (destruct (lists_register _ _ _ _ _ sp _ _ Hl Ht Hs) as [st' ?]; by exists st', W);
      try (destruct (lists_resume_all _ _ _ _ _ _ _ Hl Ht Hs) as [W' ?]; by exists st, W').
    + case_decide as Hd; [|done]. unfold await_resume in Hs.
      destruct (mem s !! a) as [aw|] eqn:Hm; [|done]. simplify_eq/=. exists st, W.
      destruct Hd as [?|Hd]; [done|]. rewrite event_view_leave. apply event_view_role in Ht.
      apply (lists_return (view s) _ _ _ _ aw); [done..| |done]. by rewrite event_view_visited.
    + eapply (lists_set_state s); [done..|]. by injection Hs.
Qed.

Lemma event_lists_reach b s tr : eager = false → reach (event_machine b) s tr →
  ∃ st W, lists (view s) st W.
Proof.
  intros He Hr. revert s tr Hr. apply reach_inv.
  - intros s ->. exists [], (λ _, []). destruct b; by apply lists_empty.
  - intros s l s' es (st & W & Hl) Hs. exact (event_lists_step s st W l s' es He Hl Hs).
Qed.

(** ** The set state *)

(** The program counters of coroutines that were let through, and of the
    [set_state] that lets them through. *)
Definition passed (p : pc) : bool :=
  match p with Ready _ | Resume _ | Next _ | Faulted _ => true | _ => false end.

Lemma step_one_event l s s' es : step l s = Some (s', es) → (length es ≤ 1)%nat.
Proof.
  intros Hs. destruct l as [t a c|t v|t sp]; simpl in Hs.
  - step_inv Hs. simpl. lia.
  - unfold set in Hs. step_inv Hs. simpl. lia.
  - destruct (pcs s !! t) as [[]|]; try done; simpl in Hs; unfold set_state, await_resume in Hs;
      step_inv Hs; simpl; lia.
Qed.

Definition no_park (e : event) : Prop := match e with Park _ => False | _ => True end.

Lemma set_step s l s' es : m_state s = This → step l s = Some (s', es) →
  m_state s' = This ∧ Forall no_park es.
Proof.
  intros Hset Hs. destruct l as [t a c|t v|t sp]; simpl in Hs.
  - unfold await_ready in Hs. step_inv Hs. split; [done|constructor].
  - unfold set in Hs. step_inv Hs. split; [done|by repeat constructor].
  - destruct (pcs s !! t) as [[]|]; try done; simpl in Hs; unfold set_state, await_resume in Hs;
      rewrite ?Hset in Hs; step_inv Hs; try (split; [done|by repeat constructor]).
    by destruct H as [? _].
Qed.

(** What an event that is not set initially knows of its past. *)
Record known (s : state) (tr : list event) : Prop := {
  k_passed : ∀ t p, pcs s !! t = Some p → passed p = true → m_state s = This;
  k_fired : m_state s = This → ∃ t, Fired t ∈ tr;
  k_storing : ∀ t, pcs s !! t = Some SetState → is_Some (m_value s);
  k_set : m_state s = This → is_Some (m_value s);
  k_stored : ∀ x, m_value s = Some x → ∃ u, Stored u x ∈ tr;
}.

Lemma known_frame s s' tr es : known s tr → m_state s' = m_state s → m_value s' = m_value s →
  (∀ t p, pcs s' !! t = Some p → pcs s !! t = Some p ∨
     (passed p = true → m_state s = This) ∧ p ≠ SetState) →
  known s' (tr ++ es).
Proof.
  intros [Hp Hf Hg Hst Hv] Hms Hmv Hpc. split; rewrite ?Hms, ?Hmv.
  - intros t p [Hq|[Hq _]]%Hpc; [by eapply Hp|done].
  - intros [t Ht]%Hf. exists t. apply elem_of_app. by left.
  - intros t [Hq|[_ ?]]%Hpc; [by eapply Hg|done].
  - done.
  - intros x [u Hu]%Hv. exists u. apply elem_of_app. by left.
Qed.

Ltac known_pcs := simpl; intros t' p Hp; lookup_cases; first [by left|by right].

Lemma known_step s tr l s' es : known s tr → step l s = Some (s', es) → known s' (tr ++ es).
Proof.
  intros Hk Hs. destruct l as [t a c|t v|t sp]; simpl in Hs.
  - destruct (await_ready t a c s) eqn:E; [|done]. simplify_eq/=. unfold await_ready in E.
    case_decide; simplify_eq. apply (known_frame s); [done..|]. simpl. unfold is_set. simpl.
    intros t' p Hp. lookup_cases; [|by left]. right. by case_bool_decide.
  - unfold set in Hs. step_inv Hs. destruct Hk as [Hp Hf Hg Hst Hv]. split; simpl.
    + intros t' p Hq ?. lookup_cases. by eapply Hp.
    + intros [u Hu]%Hf. exists u. apply elem_of_app. by left.
    + by eexists.
    + by eexists.
    + intros x [= <-]. exists t. apply elem_of_app. right. left.
  - destruct (pcs s !! t) as [p|] eqn:Ht; [|done].
    destruct p as [a|a old|a|a| |a|a|a]; try done; simpl in Hs.
    + destruct (m_state s) eqn:Hm; (destruct (write_next _ _ _); [|done]); simplify_eq/=;
        (apply (known_frame s); [done..|]); known_pcs.
    + case_decide as Hd; [destruct (mem s !! a); [|done]|]; simplify_eq/=.
      * destruct Hd as [Hd _]. destruct Hk as [Hp Hf Hg Hst Hv]. split; simpl.
        -- intros t' p Hq Hq'. lookup_cases. specialize (Hp _ _ Hq Hq'). congruence.
        -- done.
        -- intros t' Hq. lookup_cases. by eapply Hg.
        -- done.
        -- intros x [u Hu]%Hv. exists u. apply elem_of_app. by left.
      * apply (known_frame s); [done..|]. known_pcs.
    + unfold await_resume in Hs. step_inv Hs; (apply (known_frame s); [done..|]);
        known_pcs.
    + unfold set_state in Hs. destruct (m_state s) as [|h] eqn:Hm; simplify_eq.
      * apply (known_frame s); [done..|]. known_pcs.
      * destruct Hk as [Hp Hf Hg Hst Hv]. split; simpl.
        -- done.
        -- exists t. apply elem_of_app. right. left.
        -- intros t' Hq. lookup_cases. by eapply Hg.
        -- intros _. by eapply Hg.
        -- intros x [u Hu]%Hv. exists u. apply elem_of_app. by left.
    + pose proof (k_passed _ _ Hk _ _ Ht eq_refl) as Hset.
      step_inv Hs; (apply (known_frame s); [done..|]); known_pcs.
    + pose proof (k_passed _ _ Hk _ _ Ht eq_refl) as Hset.
      step_inv Hs; (apply (known_frame s); [done..|]); known_pcs.
Qed.

Lemma known_reach s tr : reach (event_machine false) s tr → known s tr.
Proof.
  intros Hr. revert s tr Hr. apply reach_inv_tr.
  - intros s ->. by split; intros.
  - intros s tr l s' es Hk Hs. exact (known_step s tr l s' es Hk Hs).
Qed.

Lemma event_accounts l s s' es : accounts m_ctx (mem s) (nwait s) →
  step l s = Some (s', es) → accounts m_ctx (mem s') (nwait s').
Proof.
  intros Hc Hs. destruct l as [t a ctx|t v|t sp]; simpl in Hs.
  - unfold await_ready in Hs. case_decide as Hd; [|done]. simplify_eq/=.
    apply (accounts_register m_ctx _ _ a (Awaiter ctx nullptr t)); [apply Hd|done].
  - unfold set in Hs. by step_inv Hs.
  - destruct (pcs s !! t) as [p|]; [|done]. destruct p as [a|a old|a|a| |a|a|a]; try done; simpl in Hs.
    + destruct (m_state s); (destruct (write_next _ _ _) eqn:E; [|done]); simplify_eq/=;
        apply write_next_inv in E as (aw & Ha & ->); by eapply accounts_update.
    + by step_inv Hs.
    + unfold await_resume in Hs. step_inv Hs; by apply accounts_unregister.
    + unfold set_state in Hs. by step_inv Hs.
    + by step_inv Hs.
    + by step_inv Hs.
Qed.

(** [set] has been called: the event is set or about to be. *)
Definition opening (s : state) : Prop :=
  m_state s = This ∨ ∃ t, pcs s !! t = Some SetState.

Lemma opening_set t v s s' es : set t v s = Some (s', es) → opening s'.
Proof. unfold set. intros Hs. step_inv Hs. right. exists t. apply lookup_insert_eq. Qed.

Lemma opening_back l s s' es : (∀ t v, l ≠ Set_ t v) → step l s = Some (s', es) →
  opening s' → opening s.
Proof.
  unfold opening. intros Hl Hs. destruct l as [t a c|t v|t sp]; [|by destruct (Hl t v)|]; simpl in Hs.
  - unfold await_ready in Hs. step_inv Hs. simpl. intros [?|[u Hu]]; [by left|].
    lookup_cases; [by case_match|eauto].
  - destruct (pcs s !! t) as [[]|] eqn:Ht; try done; simpl in Hs;
      unfold set_state, await_resume in Hs; step_inv Hs; simpl;
      (intros [?|[u Hu]]; [first [by left|congruence|eauto]|lookup_cases; eauto]).
Qed.

Lemma opening_kept l s s' es st W : lists (view s) st W → step l s = Some (s', es) →
  opening s → opening s'.
Proof.
  intros Hl Hs [Hset|[u Hu]]; [left; by destruct (set_step _ _ _ _ Hset Hs)|].
  assert (Hk : opening s' ∨ ∀ p', pcs s !! u = Some p' → p' = SetState → pcs s' !! u = Some p').
  2:{ destruct Hk as [|Hk]; [done|]. right. exists u. by apply (Hk SetState). }
  destruct l as [t a c|t v|t sp]; simpl in Hs.
  - unfold await_ready in Hs. step_inv Hs. right. intros p' Hp _. simpl.
    rewrite lookup_insert_ne; [done|]. intros <-. destruct H. congruence.
  - left. by eapply opening_set.
  - destruct (pcs s !! t) as [q|] eqn:Ht; [|done].
    destruct (decide (q = SetState)) as [->|Hq].
    { left. left. simpl in Hs. unfold set_state in Hs. by step_inv Hs. }
    assert (Hne : t ≠ u) by congruence. right. intros p' Hp ->.
    destruct q as [| | | | |h|h|]; try done; simpl in Hs; unfold await_resume in Hs;
      try (step_inv Hs; simpl; rewrite ?lookup_insert_ne, ?lookup_delete_ne by done; done).
    case_decide as Hn; [simplify_eq/=; by rewrite lookup_delete_ne|].
    destruct (mem s !! h) as [aw|] eqn:Hm; [|done]. simplify_eq/=.
    destruct (lists_resume _ _ _ _ _ _ Hl (event_view_role _ _ _ Ht) Hn Hm) as (? & _ & Hpk & _).
    apply event_view_role_inv in Hpk as (r & Hr & Heq).
    rewrite !lookup_insert_ne; [done| |done]. intros <-. by simplify_eq.
Qed.

Lemma event_set_kept b s s' ls es : m_state s = This →
  exec (event_machine b) ls s = Some (s', es) → m_state s' = This ∧ Forall no_park es.
Proof.
  intros Hset He. split.
  - apply (exec_inv (event_machine b) (λ s, m_state s = This)) in He; [done| |done].
    intros s1 l s2 es1 H1 H2. by apply (set_step s1 l s2 es1).
  - apply (exec_events (event_machine b) (λ s, m_state s = This) no_park) in He; [done| |done].
    intros s1 l s2 es1. exact (set_step s1 l s2 es1).
Qed.

Lemma no_parked_when_set b s tr : eager = false → reach (event_machine b) s tr →
  is_set s = true → (∀ t w, pcs s !! t ≠ Some (Resume w) ∧ pcs s !! t ≠ Some (Next w)) →
  ∀ t a, pcs s !! t ≠ Some (Parked a).
Proof.
  intros He (st & W & Hl)%event_lists_reach Hset Hno t a Ht; [|done].
  apply bool_decide_eq_true in Hset. apply event_view_role in Ht.
  destruct (l_owned _ _ _ Hl _ _ _ Ht eq_refl) as (_ & aw & Hm & Hc & _). subst t.
  pose proof (l_stack _ _ _ Hl) as Hst. simpl in Hst. rewrite Hset in Hst.
  apply chain_nil in Hst. subst st.
  destruct (proj2 (l_parked _ _ _ Hl a)) as [H|[t H]]; [by exists aw|by apply elem_of_nil in H|].
  rewrite (l_idle _ _ _ Hl t) in H; [by apply elem_of_nil in H|].
  intros x. split; intros (p & Hp & Hr)%event_view_role_inv; destruct p; simplify_eq/=;
    by destruct (Hno t waiter).
Qed.
End event.

(** The contract with the contexts ([WaitCount.v]): [resume_all_awaiter]
    submits the awaiters that [set_state] has taken. *)
Definition woken {V} (l : label (V:=V)) (s : state (V:=V)) : option ptr :=
  match l with
  | Step t _ => match pcs s !! t with Some (Resume a) => Some a | _ => None end
  | _ => None
  end.
#[global] Instance event_waits {V} eager b : WaitAccounting (event_machine (V:=V) eager b) :=
  awaiters_waits (event_machine eager b) mem m_ctx nwait woken.
#[global] Instance event_waits_laws {V} eager b : WaitAccountingLaws (event_machine (V:=V) eager b).
Proof.
  apply awaiters_waits_laws, reach_inv.
  - intros s -> c. done.
  - intros s l s' es Hc Hs. exact (event_accounts eager l s s' es Hc Hs).
Qed.

(** [~event_guard], of an [event<void>] *)
Definition event_guard_destroy (t : nat) (m_ev : state (V:=unit)) : option (state * list event) := set t tt m_ev.

(** ** Properties *)

(** C37: no lost wake-up: in any interleaving in which a woken coroutine runs
    only after [set_state] has left its awaiter (otherwise event.cpp:40 reads an
    awaiter that may be gone: [event_use_after_free]), once the event is set and
    no [resume_all_awaiter] is running, no coroutine is left suspended on the
    event. *)
Theorem event_no_lost_wakeup {V} b (s : state (V:=V)) tr :
  reach (event_machine false b) s tr → is_set s = true →
  (∀ t w, pcs s !! t ≠ Some (Resume w) ∧ pcs s !! t ≠ Some (Next w)) →
  ∀ t a, pcs s !! t ≠ Some (Parked a).
Proof.
  intros Hr. by eapply (no_parked_when_set false b).
Qed.

(** a coroutine gets through a (not initially set) event only after a
    [set] has stored its value and fired, and what it gets is a value stored
    before: in every interleaving, with any number of setters. *)
Theorem event_value_delivered {V} eager (s : state (V:=V)) tr1 t v tr2 :
  reach (event_machine eager false) s (tr1 ++ Got t v :: tr2) →
  (∃ u, Fired u ∈ tr1) ∧ ∃ x u, v = Some x ∧ Stored u x ∈ tr1.
Proof.
  intros Hr. destruct (reach_event (event_machine eager false) s _ tr1 (Got t v) tr2 (step_one_event eager) Hr eq_refl)
    as (s1 & l & s2 & Hr1 & Hs).
  apply known_reach in Hr1 as [Hp Hf Hg Hst Hv]. cbn [m_step event_machine] in Hs.
  destruct l as [t' a c|t' v'|t' sp]; simpl in Hs; [by step_inv Hs|unfold set in Hs; by step_inv Hs|].
  destruct (pcs s1 !! t') as [p|] eqn:Ht; [|done].
  destruct p as [a|a old|a|a| |a|a|a]; try done; simpl in Hs;
    try (unfold set_state in Hs; by step_inv Hs).
  assert (Hset : m_state s1 = This) by by eapply Hp.
  assert (v = m_value s1) as ->.
  { unfold await_resume in Hs. by step_inv Hs. }
  split; [by apply Hf|]. destruct (Hst Hset) as [x Hx]. destruct (Hv _ Hx) as [u Hu].
  by exists x, u.
Qed.

(** a set event stays set, and no coroutine is suspended on it any more. *)
Theorem event_set_permanent {V} eager b ls (s s' : state (V:=V)) es :
  is_set s = true → exec (event_machine eager b) ls s = Some (s', es) →
  is_set s' = true ∧ ∀ w, Park w ∉ es.
Proof.
  intros Hset He. apply bool_decide_eq_true in Hset.
  destruct (event_set_kept _ _ _ _ _ _ Hset He) as [Hs Hf].
  split; [by apply bool_decide_eq_true|]. intros w Hw.
  rewrite Forall_forall in Hf. by apply (Hf (Park w)).
Qed.

(** [set_state], run alone, terminates, two steps per waiter and two more;
    it wakes everybody parked, the last one to park first, and leaves the
    event set. *)
Theorem set_state_wakes_everyone {V} b (s : state (V:=V)) tr t h :
  reach (event_machine false b) s tr → pcs s !! t = Some SetState → m_state s = Waiters h →
  ∃ st s' ws, chain (next_of (mem s)) h st ∧ (∀ a, a ∈ st → parked (view s) a) ∧
    exec (event_machine false b) (replicate (2 * length st + 2) (Step t false)) s =
      Some (s', Fired t :: (Wake <$> ws)) ∧
    waiters (mem s) st ws ∧ is_set s' = true ∧ pcs s' !! t = None ∧
    (∀ a aw, a ∈ st → mem s !! a = Some aw → pcs s' !! m_await_coro aw = Some (Ready a)).
Proof.
  intros (st & W & Hl)%event_lists_reach Ht Hh; [|done].
  set (s1 := set_pc t (Resume h) (put_state This s)).
  assert (Hl' : lists (view s1) [] (<[t := st]> W)).
  { unfold s1. rewrite event_view_set_pc.
    pose proof (lists_xchg (view s) st W t Hl (or_introl (event_view_role _ _ _ Ht))) as Hx.
    simpl in Hx. by rewrite Hh in Hx. }
  destruct (drain_run (event_machine false b) view (λ t, Step t false) Wake st s1 _ _ t h Hl')
    as (s' & ws & He & [Hg Hw Hr _ _ Hst]).
  { apply (event_view_role s1 t (Resume h)), lookup_insert_eq. } { apply fn_lookup_insert. }
  assert (Hs1 : m_step (event_machine false b) (Step t false) s = Some (s1, [Fired t])).
  { cbn [m_step event_machine step]. rewrite Ht. unfold set_state. by rewrite Hh. }
  exists st, s', ws. split_and!; [| |idtac|done|idtac..].
  - pose proof (l_stack _ _ _ Hl) as Hc. simpl in Hc. by rewrite Hh in Hc.
  - intros a Ha. apply (l_parked _ _ _ Hl). by left.
  - replace (2 * length st + 2)%nat with (S (2 * length st + 1)) by lia.
    cbn [replicate exec]. by rewrite Hs1, He.
  - destruct (event_set_kept false b s1 s' _ _ eq_refl He). by apply bool_decide_eq_true.
  - simpl in Hg. rewrite lookup_fmap in Hg. by destruct (pcs s' !! t).
  - intros a aw Ha Hm. specialize (Hr a aw Ha Hm). apply event_view_role_inv in Hr as (p & Hp & Hr).
    destruct p; by simplify_eq/=.
Qed.

(** (defect) when the woken coroutine runs at once on another thread,
    [resume_all_awaiter] reads [m_next] in an awaiter that no longer exists. *)
Theorem event_use_after_free :
  ∃ (s : state (V:=unit)) tr, reach (event_machine true false) s tr ∧
    pcs s !! 0%nat = Some (Faulted 16) ∧ mem s !! 16 = None.
Proof.
  set (ls := [Wait 1 16 0; Step 1 false; Step 1 false; Set_ 0 tt;
    Step 0 false; Step 0 false; Step 1 false; Step 0 false]%nat).
  exists (final (event_machine true false) ls (init false)),
    (trace (event_machine true false) ls (init false)).
  split_and!; [apply exec_reach_final; [done|]|..]; by vm_compute.
Qed.

(** the wait counter of every context is the number of the context's
    coroutines between [await_ready] and [await_resume]: each [register_wait]
    is paired with its [unregister_wait] whichever way the coroutine went. *)
Theorem event_wait_accounting {V} eager b (s : state (V:=V)) tr :
  reach (event_machine eager b) s tr → accounts m_ctx (mem s) (nwait s).
Proof.
  intros Hr. revert s tr Hr. apply reach_inv.
  - intros s ->. intros c. simpl. by rewrite count_if_empty.
  - intros s l s' es Hc Hs. exact (event_accounts eager l s s' es Hc Hs).
Qed.

(** ** Witnesses *)

(** Two coroutines park, a third one sets. *)
Definition ev_demo : list (label (V:=Z)) :=
  [Wait 1 16 0; Step 1 false; Step 1 false; Wait 2 32 1; Step 2 false; Step 2 true; Step 2 false;
   Step 2 false; Set_ 0 7%Z]%nat.
Definition ev_demo_end : list (label (V:=Z)) := ev_demo ++ replicate 6 (Step 0 false) ++ [Step 1 false]%nat.

Lemma event_no_lost_wakeup_witness :
  pcs (final (event_machine false false) ev_demo_end (init false)) !! 2%nat ≠ Some (Parked 32).
Proof.
  apply (event_no_lost_wakeup false _ (trace (event_machine false false) ev_demo_end (init false))).
  - apply exec_reach_final; [done|by vm_compute].
  - by vm_compute.
  - assert (Hp : pcs (final (event_machine false false) ev_demo_end (init false)) =
      {[2%nat := Ready 32]}) by by vm_compute.
    intros t w. rewrite Hp. destruct (decide (t = 2%nat)) as [->|];
      rewrite ?lookup_singleton_eq, ?lookup_singleton_ne by done; done.
Defined.

Lemma event_value_delivered_witness :
  trace (event_machine false false) ev_demo_end (init false) =
    [Park (0, 1); Park (1, 2); Stored 0 7%Z; Fired 0; Wake (1, 2); Wake (0, 1); Got 1 (Some 7%Z)]%nat ∧
  ∃ x u, Some 7%Z = Some x ∧
    Stored u x ∈ [Park (0, 1); Park (1, 2); Stored 0 7%Z; Fired 0; Wake (1, 2); Wake (0, 1)]%nat.
Proof.
  split; [by vm_compute|].
  apply (event_value_delivered false (final (event_machine false false) ev_demo_end (init false))
    [Park (0, 1); Park (1, 2); Stored 0 7%Z; Fired 0; Wake (1, 2); Wake (0, 1)]%nat 1%nat (Some 7) []).
  change (reach (event_machine false false) (final (event_machine false false) ev_demo_end (init false))
    (trace (event_machine false false) ev_demo_end (init false))).
  apply exec_reach_final; [done|by vm_compute].
Defined.

Lemma event_set_permanent_witness :
  is_set (final (event_machine true true) [Wait 1 16 0; Step 1 false]%nat (init (V:=Z) true)) = true.
Proof.
  apply (event_set_permanent true true [Wait 1 16 0; Step 1 false]%nat (init true) _
    (trace (event_machine true true) [Wait 1 16 0; Step 1 false]%nat (init true))); by vm_compute.
Defined.

Lemma set_state_wakes_everyone_witness :
  ∃ (st : list ptr) s' ws,
    exec (event_machine false false) (replicate (2 * length st + 2) (Step 0 false))
      (final (event_machine false false) ev_demo (init false)) = Some (s', Fired 0 :: (Wake <$> ws)).
Proof.
  destruct (set_state_wakes_everyone false (final (event_machine false false) ev_demo (init false))
    (trace (event_machine false false) ev_demo (init false)) 0%nat 32) as (st & s' & ws & _ & _ & He & _).
  - apply exec_reach_final; [done|by vm_compute].
  - by vm_compute.
  - by vm_compute.
  - by exists st, s', ws.
Defined.

Lemma event_wait_accounting_witness :
  nwait (final (event_machine false false) ev_demo (init false)) 1%nat = 1 ∧
  accounts m_ctx (mem (final (event_machine false false) ev_demo (init false)))
    (nwait (final (event_machine false false) ev_demo (init false))).
Proof.
  split; [by vm_compute|].
  apply (event_wait_accounting false false _ (trace (event_machine false false) ev_demo (init false))).
  apply exec_reach_final; [done|by vm_compute].
Defined.
