(* ===== verification/Latch.v ===== *)
(** * coro::latch (include/coro/comp/latch.hpp)

    A counter in front of an event: [count_down] sets the event when the
    counter gets to zero. The latch machine runs the event machine of
    [Event.v] for [wait] and for the part of [count_down] inside
    [event::set]. *)
From S2P Require Import Prelude WaitList Event.
Local Open Scope Z_scope.
Local Open Scope coro_scope.

Record latch := Latch {
  m_count : Z;                        (* atomic<int64_t> *)
  m_ev : Event.state (V:=unit);
}.

Inductive latch_label :=
  | CountDown (t : nat)
  | LatchWait (t : nat) (waiter : ptr) (ctx : nat)
  | LatchStep (t : nat) (spurious : bool).

Inductive latch_event :=
  | Down (t : nat)
  | OfEvent (e : Event.event (V:=unit)).

(** [latch(std::uint64_t count)] *)
Definition latch_init (count : Z) : latch := Latch (s64 count) (Event.init (bool_decide (count <= 0))).

Section latch.
Context (eager : bool).

Definition on_event (l : Event.label (V:=unit)) (s : latch) : option (latch * list latch_event) :=
  match Event.step eager l (m_ev s) with
  | Some (e, es) => Some (Latch (m_count s) e, OfEvent <$> es)
  | None => None
  end.

(** [latch::count_down] *)
Definition count_down (t : nat) (s : latch) : option (latch * list latch_event) :=
  if decide (Event.pcs (m_ev s) !! t = None) then
    let old := m_count s in
    let s := Latch (s64 (old - 1)) (m_ev s) in
    if decide (old <= 1) then
      match on_event (Set_ t tt) s with
      | Some (s, es) => Some (s, Down t :: es)
      | None => None
      end
    else Some (s, [Down t])
  else None.

(** [~latch_guard] *)
Definition latch_guard_destroy (t : nat) (m_l : latch) : option (latch * list latch_event) := count_down t m_l.

Definition latch_step (l : latch_label) (s : latch) : option (latch * list latch_event) :=
  match l with
  | CountDown t => count_down t s
  | LatchWait t waiter ctx => on_event (Wait t waiter ctx) s
  | LatchStep t spurious => on_event (Step t spurious) s
  end.

Definition latch_machine (count : Z) : machine latch latch_label latch_event :=
  Machine (λ s, s = latch_init count) latch_step.

(** The number of [count_down] calls of a trace. *)
Definition is_down (e : latch_event) : bool := match e with Down _ => true | _ => false end.
Definition downs (tr : list latch_event) : Z :=
  Z.of_nat (length (filter (λ e, is_down e = true) tr)).

Lemma downs_app tr1 tr2 : downs (tr1 ++ tr2) = downs tr1 + downs tr2.
Proof. unfold downs. rewrite filter_app, length_app. lia. Qed.
Lemma downs_event es : downs (OfEvent <$> es) = 0.
Proof. unfold downs. induction es; simpl; [done|]. by rewrite filter_cons_False by done. Qed.
Lemma downs_down t es : downs (Down t :: es) = 1 + downs es.
Proof. unfold downs. rewrite filter_cons_True by done. simpl. lia. Qed.
Lemma downs_nonneg tr : 0 <= downs tr.
Proof. unfold downs. lia. Qed.

Lemma latch_event_reach count s tr : reach (latch_machine count) s tr →
  ∃ tr', reach (event_machine eager (bool_decide (count <= 0))) (m_ev s) tr'.
Proof.
  intros Hr. revert s tr Hr. apply reach_inv; [intros s ->; exists []; by constructor|].
  intros s l s' es [tr' Hr] Hs. cbn [m_step latch_machine] in Hs.
  assert (Hon : ∀ c l s' es, on_event l (Latch c (m_ev s)) = Some (s', es) →
    ∃ tr', reach (event_machine eager (bool_decide (count <= 0))) (m_ev s') tr').
  { intros c l0 s0 es0 H. unfold on_event in H. simpl in H.
    destruct (Event.step eager l0 (m_ev s)) as [[e es1]|] eqn:E; [|done]. simplify_eq/=.
    eexists. by eapply reach_step. }
  destruct l as [t|t a c|t sp]; simpl in Hs; [|by destruct s; apply Hon in Hs..].
  unfold count_down in Hs. case_decide; [|done]. case_decide.
  - destruct (on_event _ _) as [[s1 es1]|] eqn:E; [|done]. simplify_eq/=. by apply Hon in E.
  - simplify_eq/=. eauto.
Qed.

(** What the counter says, as long as it does not wrap around. *)
Definition counted (count : Z) (s : latch) (tr : list latch_event) : Prop :=
  count - downs tr >= - 2 ^ 63 →
  m_count s = count - downs tr ∧ (opening (m_ev s) ↔ count <= downs tr).

Lemma counted_step count s tr l s' es st W : eager = false →
  lists (Event.view (m_ev s)) st W → counted count s tr → 0 <= count < 2 ^ 63 →
  latch_step l s = Some (s', es) → counted count s' (tr ++ es).
Proof.
  intros He Hl Hc Hn Hs Hb. rewrite downs_app in *.
  pose proof (downs_nonneg tr). pose proof (downs_nonneg es). destruct Hc as [Hcnt Hop]; [lia|].
  assert (Hon : ∀ l, (∀ t v, l ≠ Set_ t v) → on_event l s = Some (s', es) →
    m_count s' = count - (downs tr + downs es) ∧ (opening (m_ev s') ↔ count <= downs tr + downs es)).
  { intros l0 Hl0 Hev. unfold on_event in Hev.
    destruct (Event.step eager l0 (m_ev s)) as [[e es1]|] eqn:E; [|done]. simplify_eq/=.
    rewrite downs_event, Z.add_0_r. split; [done|]. rewrite <- Hop. split.
    - by eapply opening_back.
    - by eapply opening_kept. }
  destruct l as [t|t a c|t sp]; simpl in Hs; [|eapply Hon; [|exact Hs]; done..].
  unfold count_down in Hs. case_decide as Ht; [|done]. case_decide as Hle.
  - unfold on_event in Hs. destruct (Event.step _ _ _) as [[e es1]|] eqn:E; [|done]. simplify_eq/=.
    rewrite downs_down, downs_event in *. rewrite sw_small by lia. split; [lia|].
    split; [lia|]. intros _. by eapply opening_set.
  - simplify_eq/=. rewrite downs_down in *. change (downs []) with 0 in *.
    rewrite sw_small by lia. split; [lia|]. rewrite Hop. lia.
Qed.

Lemma counted_reach count s tr : eager = false → 0 <= count < 2 ^ 63 →
  reach (latch_machine count) s tr → counted count s tr.
Proof.
  intros He Hn Hr. induction Hr as [s Hi|s tr l s' es Hr IH Hs].
  - simpl in Hi. subst s. intros _. simpl. unfold opening. simpl.
    rewrite sw_small by lia. change (downs []) with 0. split; [lia|].
    case_bool_decide as Hz; [split; [lia|by left]|]. split; [|lia].
    intros [?|[t Ht]]; [done|]. by rewrite lookup_empty in Ht.
  - destruct (latch_event_reach _ _ _ Hr) as [tr' (st & W & Hl)%event_lists_reach]; [|done].
    by eapply counted_step.
Qed.
End latch.

(** ** Properties *)

(** the latch counts: after [d] calls of [count_down] the counter is the
    initial one minus [d], and the event has been (or is being) set exactly
    when [d] has reached the initial count. *)
Theorem latch_opens count s tr : reach (latch_machine false count) s tr →
  0 <= count < 2 ^ 63 → downs tr <= count + 2 ^ 63 →
  m_count s = count - downs tr ∧
  (Event.m_state (m_ev s) = This ∨ (∃ t, Event.pcs (m_ev s) !! t = Some SetState) ↔
   count <= downs tr).
Proof. intros Hr Hn Hd. apply (counted_reach false count s tr); [done..|lia]. Qed.

(** when the count is reached and every [count_down] has returned, nobody
    is left waiting on the latch. *)
Theorem latch_releases count s tr : reach (latch_machine false count) s tr →
  0 <= count < 2 ^ 63 → count <= downs tr <= count + 2 ^ 63 →
  (∀ t, Event.pcs (m_ev s) !! t ≠ Some SetState ∧ ∀ w,
     Event.pcs (m_ev s) !! t ≠ Some (Resume w) ∧ Event.pcs (m_ev s) !! t ≠ Some (Next w)) →
  ∀ t a, Event.pcs (m_ev s) !! t ≠ Some (Parked a).
Proof.
  intros Hr Hn Hd Hq t a. destruct (latch_event_reach _ _ _ _ Hr) as [tr' He].
  destruct (counted_reach false count s tr) as [_ [_ Ho]]; [done..|lia|].
  destruct (Ho ltac:(lia)) as [Hset|[u Hu]]; [|by destruct (Hq u)].
  eapply (no_parked_when_set false); [done|exact He|by apply bool_decide_eq_true|].
  intros t' w. by apply Hq.
Qed.

(** (bounds) the constructor takes an unsigned count and keeps it in a
    signed one: a latch made for [2 ^ 63] or more count-downs opens at the
    first. *)
Theorem latch_count_bound count t : 2 ^ 63 <= count < 2 ^ 64 →
  ∃ s tr, exec (latch_machine false count) [CountDown t; LatchStep t false] (latch_init count) =
    Some (s, tr) ∧ is_set (m_ev s) = true ∧ downs tr = 1.
Proof.
  intros Hc. assert (Hs : s64 count = count - 2 ^ 64).
  { unfold sw. replace (count + 2 ^ (64 - 1)) with (count - 2 ^ 63 + 1 * 2 ^ 64) by lia.
    rewrite Z.mod_add, Z.mod_small by lia. lia. }
  unfold latch_init. rewrite bool_decide_false by lia. simpl. unfold count_down. simpl.
  rewrite decide_True by done. rewrite decide_True by lia. simpl.
  unfold on_event. simpl. unfold Event.set. simpl. rewrite decide_True by done. simpl.
  rewrite lookup_insert_eq. simpl. eexists _, _. split_and!; done.
Qed.

(** ** Witnesses *)
Definition latch_demo : list latch_label :=
  [LatchWait 1 16 0; LatchStep 1 false; LatchStep 1 false; CountDown 2; CountDown 0]%nat
  ++ replicate 4 (LatchStep 0 false).

Lemma latch_demo_reach : reach (latch_machine false 2) (final (latch_machine false 2) latch_demo (latch_init 2))
  (trace (latch_machine false 2) latch_demo (latch_init 2)).
Proof. apply exec_reach_final; [done|by vm_compute]. Defined.

Lemma latch_opens_witness : m_count (final (latch_machine false 2) latch_demo (latch_init 2)) = 0.
Proof.
  destruct (latch_opens 2 _ _ latch_demo_reach) as [H _]; [lia|by vm_compute|].
  rewrite H. by vm_compute.
Defined.

Lemma latch_releases_witness :
  Event.pcs (m_ev (final (latch_machine false 2) latch_demo (latch_init 2))) !! 1%nat ≠ Some (Parked 16).
Proof.
  apply (latch_releases 2 _ _ latch_demo_reach); [lia|split; by vm_compute|].
  assert (Hp : Event.pcs (m_ev (final (latch_machine false 2) latch_demo (latch_init 2))) =
    {[1%nat := Ready 16]}) by by vm_compute.
  intros t. rewrite Hp. destruct (decide (t = 1%nat)) as [->|];
    rewrite ?lookup_singleton_eq, ?lookup_singleton_ne by done; done.
Defined.

Lemma latch_count_bound_witness : ∃ s tr,
  exec (latch_machine false (2 ^ 63)) [CountDown 0; LatchStep 0 false] (latch_init (2 ^ 63)) = Some (s, tr) ∧
  is_set (m_ev s) = true ∧ downs tr = 1.
Proof. apply (latch_count_bound (2 ^ 63) 0%nat). lia. Defined.
