(* ===== verification/MarkedBuffer.v ===== *)
(** * coro::detail::marked_buffer (include/coro/marked_buffer.hpp)

    A fixed array with the queue of its free indices. *)
From S2P Require Import Prelude.
Local Open Scope Z_scope.

(** [marked_buffer::item]: [ptr] is the index of the array element it points
    to, [None] for nullptr. *)
Record item := Item { idx : Z; iptr : option nat }.

Definition valid (it : item) : bool := bool_decide (0 <= idx it).
Definition set_invalid (it : item) : item := Item (-1) None.

(** [std::vector]'s and the array's writes: undefined out of range. *)
Definition write_at {A} (i : nat) (x : A) (l : list A) : option (list A) :=
  if decide (i < length l)%nat then Some (<[i := x]> l) else None.

(** [marked_buffer<Type, length>]: the array has [length] elements. *)
Record marked_buffer (A : Type) := MarkedBuffer {
  data : list A;
  que : list Z;                       (* std::queue<int>, front first *)
}.
Arguments MarkedBuffer {A}.
Arguments data {A}.
Arguments que {A}.

Section marked_buffer.
Context {A : Type}.
Implicit Types b : marked_buffer A.

(** [init], which is also the constructor's body. *)
Definition init b : marked_buffer A := MarkedBuffer (data b) [].

(** The two loops of [set_data], from [i] on, for [k] rounds. *)
Fixpoint push_free (k i : nat) (q : list Z) : list Z :=
  match k with
  | O => q
  | S k => push_free k (S i) (q ++ [Z.of_nat i])
  end.

Fixpoint copy_data (values : list A) (k i : nat) (d : list A) : option (list A) :=
  match k with
  | O => Some d
  | S k => x ← values !! i; d ← write_at i x d; copy_data values k (S i) d
  end.

Definition set_data (values : list A) b : option (marked_buffer A) :=
  let n := length (data b) in
  d ← copy_data values n 0 (data b);
  Some (MarkedBuffer d (push_free n 0 (que b))).

(** [borrow] *)
Definition borrow b : item * marked_buffer A :=
  match que b with
  | [] => (Item (-1) None, b)
  | i :: q => (Item i (Some (Z.to_nat i)), MarkedBuffer (data b) q)
  end.

(** [return_back]: the item is a copy of the caller's. *)
Definition return_back (it : item) b : marked_buffer A :=
  if valid it then MarkedBuffer (data b) (que b ++ [idx it]) else b.

(** ** The free list *)

(** [outs] are the indices lent out: with the free ones they are exactly the
    indices of the array. *)
Definition balanced b (outs : list Z) : Prop :=
  que b ++ outs ≡ₚ Z.of_nat <$> seq 0 (length (data b)).

Lemma push_free_eq k : ∀ i q, push_free k i q = q ++ (Z.of_nat <$> seq i k).
Proof.
  induction k as [|k IH]; intros i q; simpl; [by rewrite app_nil_r|].
  rewrite IH, <- app_assoc. done.
Qed.

Lemma copy_data_eq values k : ∀ i d, (i + k <= length d)%nat → (i + k <= length values)%nat →
  copy_data values k i d = Some (take i d ++ take k (drop i values) ++ drop (i + k) d).
Proof.
  induction k as [|k IH]; intros i d Hd Hv; simpl.
  - by rewrite Nat.add_0_r, take_drop.
  - destruct (lookup_lt_is_Some_2 values i) as [x Hx]; [lia|]. rewrite Hx. simpl.
    unfold write_at. rewrite decide_True by lia. simpl.
    rewrite IH by (rewrite ?length_insert; lia). f_equal.
    rewrite (take_S_r _ _ x) by (rewrite list_lookup_insert_eq; [done|lia]).
    rewrite take_insert_ge, drop_insert_lt by lia.
    rewrite (drop_S values x i) by done. simpl. rewrite <- app_assoc. simpl.
    by replace (S (i + k)) with (i + S k)%nat by lia.
Qed.

Lemma balanced_range b outs i : balanced b outs → i ∈ que b ∨ i ∈ outs →
  0 <= i < Z.of_nat (length (data b)).
Proof.
  unfold balanced. intros Hb Hi. assert (Hin : i ∈ que b ++ outs) by by apply elem_of_app.
  rewrite Hb in Hin. apply list_elem_of_fmap in Hin as (n & -> & Hn%elem_of_seq). lia.
Qed.

Lemma balanced_nodup b outs : balanced b outs → NoDup (que b ++ outs).
Proof.
  unfold balanced. intros ->. apply NoDup_fmap_2; [intros ???; lia|]. apply NoDup_seq.
Qed.

Lemma balanced_length b outs : balanced b outs →
  (length (que b) + length outs = length (data b))%nat.
Proof.
  intros Hb%Permutation_length. by rewrite length_app, length_fmap, length_seq in Hb.
Qed.

Lemma balanced_borrow b outs it b' : balanced b outs → borrow b = (it, b') →
  valid it = true → balanced b' (idx it :: outs).
Proof.
  unfold borrow, balanced. intros Hb Hbo Hv. destruct (que b) as [|i q]; simplify_eq/=.
  rewrite <- Hb. by rewrite Permutation_middle.
Qed.

Lemma balanced_return b outs it : balanced b (idx it :: outs) → valid it = true →
  balanced (return_back it b) outs.
Proof.
  unfold return_back, balanced. intros Hb ->. simpl. rewrite <- Hb, <- app_assoc. done.
Qed.

Lemma balanced_perm b o1 o2 : o1 ≡ₚ o2 → balanced b o1 → balanced b o2.
Proof. unfold balanced. by intros ->. Qed.

Lemma set_data_free b values : length values = length (data b) →
  ∃ b', set_data values (init b) = Some b' ∧ data b' = values ∧ balanced b' [] ∧
    que b' = Z.of_nat <$> seq 0 (length values).
Proof.
  intros Hlen. unfold set_data, init. simpl. rewrite copy_data_eq by lia. simpl.
  rewrite (drop_ge (data b)), app_nil_r, drop_0, firstn_all2 by lia. eexists. split; [done|].
  unfold balanced. simpl. rewrite push_free_eq. simpl.
  rewrite app_nil_r, Hlen. done.
Qed.

(** ** Properties *)

(** [init] and [set_data] copy the values and make every index free, in
    order. *)
Theorem set_data_all_free b values : length values = length (data b) →
  ∃ b', set_data values (init b) = Some b' ∧ data b' = values ∧ balanced b' [] ∧
    que b' = Z.of_nat <$> seq 0 (length values).
Proof.
  apply set_data_free.
Qed.

(** [borrow] fails exactly when every index is lent out; otherwise it
    lends an index of the array that nobody has, and keeps the free list
    balanced. *)
Theorem borrow_spec b outs : balanced b outs →
  let '(it, b') := borrow b in
  data b' = data b ∧
  (valid it = false ↔ length outs = length (data b)) ∧
  (valid it = false → b' = b ∧ iptr it = None) ∧
  (valid it = true → 0 <= idx it < Z.of_nat (length (data b)) ∧ (idx it ∉ outs) ∧
     iptr it = Some (Z.to_nat (idx it)) ∧ balanced b' (idx it :: outs)).
Proof.
  intros Hb. pose proof (balanced_length _ _ Hb) as Hlen. unfold borrow.
  destruct (que b) as [|i q] eqn:Hq; simpl in Hlen.
  - split_and!; [done| |done|done]. split; [lia|done].
  - assert (Hi : 0 <= i < Z.of_nat (length (data b))).
    { apply (balanced_range b outs); [done|]. left. rewrite Hq. by left. }
    assert (Hv : valid (Item i (Some (Z.to_nat i))) = true).
    { apply bool_decide_eq_true. simpl. lia. }
    rewrite Hv. split_and!; [done| |done|].
    + split; [done|]. lia.
    + intros _. split; [exact Hi|]. split_and!; [|done|].
      * simpl. pose proof (balanced_nodup _ _ Hb) as Hnd. rewrite Hq in Hnd.
        apply NoDup_app in Hnd as (_ & Hnd & _). apply Hnd. by left.
      * apply (balanced_borrow b outs); [done| |done]. unfold borrow. by rewrite Hq.
Qed.

(** returning a lent item makes its index free again, behind the other
    free ones; an invalid item changes nothing. *)
Theorem return_back_spec b outs it :
  (valid it = false → return_back it b = b) ∧
  (valid it = true → balanced b (idx it :: outs) →
     balanced (return_back it b) outs ∧ last (que (return_back it b)) = Some (idx it) ∧
     data (return_back it b) = data b).
Proof.
  split; [unfold return_back; by intros ->|]. intros Hv Hb. split; [by apply balanced_return|].
  unfold return_back. rewrite Hv. simpl. by rewrite last_snoc.
Qed.

(** the free list relies on its clients: an item returned twice is lent
    to two clients at once. *)
Theorem double_return_lends_twice b outs it : balanced b (idx it :: outs) → valid it = true →
  que b = [] →
  let b := return_back it (return_back it b) in
  let '(it1, b1) := borrow b in
  let '(it2, _) := borrow b1 in
  idx it1 = idx it2 ∧ valid it1 = true ∧ valid it2 = true.
Proof.
  intros Hb Hv Hq. cbv zeta. unfold return_back. rewrite Hv. simpl.
  rewrite Hq. simpl. split; [done|]. split; exact Hv.
Qed.
End marked_buffer.

(** ** Witnesses *)
Definition mb0 : marked_buffer Z := MarkedBuffer [0; 0; 0] [].

Lemma set_data_all_free_witness : ∃ b', set_data [5; 6; 7] (init mb0) = Some b' ∧ data b' = [5; 6; 7].
Proof.
  destruct (set_data_all_free mb0 [5; 6; 7]) as (b' & H1 & H2 & _); [done|]. by exists b'.
Defined.

Lemma mb_balanced : balanced (MarkedBuffer [5; 6; 7] [2]) [0; 1].
Proof. unfold balanced. simpl. change [2; 0; 1] with ([2] ++ [0; 1]). by rewrite Permutation_app_comm. Defined.

Lemma borrow_spec_witness : ∃ b', borrow (MarkedBuffer [5; 6; 7] [2]) = (Item 2 (Some 2%nat), b') ∧
  balanced b' [2; 0; 1].
Proof.
  eexists. split; [reflexivity|]. pose proof (borrow_spec _ _ mb_balanced) as (_ & _ & _ & H).
  apply H. by vm_compute.
Defined.

Lemma return_back_spec_witness :
  balanced (return_back (Item 0 (Some 0%nat)) (MarkedBuffer [5; 6; 7] [2])) [1].
Proof.
  apply (return_back_spec (MarkedBuffer [5; 6; 7] [2]) [1] (Item 0 (Some 0%nat)));
    [by vm_compute|exact mb_balanced].
Defined.

Lemma double_return_lends_twice_witness :
  idx (borrow (return_back (Item 0 None) (return_back (Item 0 None) (MarkedBuffer [5] [])))).1 = 0.
Proof.
  pose proof (double_return_lends_twice (MarkedBuffer [5] []) [] (Item 0 None)) as H.
  by apply H; [unfold balanced|vm_compute|].
Defined.
