(* ===== verification/Uring.v ===== *)
(** * What the library uses of liburing, eventfd and the kernel

    None of this code is in the repository: it is an interface, with the
    documented behaviour that the proofs rely on as laws. [sim] is a small
    concrete implementation: the witnesses run on it, and it shows that the
    laws can hold. *)
From S2P Require Import Prelude.
Local Open Scope Z_scope.

(** A completion: the [user_data] of its request, and the result. *)
Record cqe := Cqe { user_data : ptr; res : Z }.

(** A request, with the arguments of its [io_uring_prep_*]. *)
Inductive request :=
  | Nop
  | Read (fd : Z) (buf : ptr) (nbytes offset : Z)
  | Accept (fd flags : Z)
  | Recv (fd : Z) (buf : ptr) (len flags : Z)
  | SendData (fd : Z) (buf : ptr) (len flags : Z)
  | CloseFd (fd : Z)
  | Connect (fd : Z) (addr : ptr) (addrlen : Z)
  | Timeout (ts : Z * Z) (count flags : Z).

(** What a read or a write of an eventfd may do. *)
Inductive efd_result (K : Type) :=
  | Blocks                            (* the thread sleeps *)
  | Failed
  | Returns (u : Z) (k : K).
Arguments Blocks {K}.
Arguments Failed {K}.
Arguments Returns {K}.

(** Calls return their [int] result and the new kernel state. *)
Class Uring (K : Type) := {
  eventfd : K → Z * K;
  eventfd_read : Z → K → efd_result K;
  eventfd_write : Z → Z → K → efd_result K;
  io_uring_queue_init_params : Z → K → Z * K;
  io_uring_register_eventfd : Z → K → Z * K;
  io_uring_register_files : list Z → K → Z * K;
  io_uring_register_files_update : Z → list Z → K → Z * K;
  io_uring_queue_exit : K → K;
  io_uring_get_sqe : K → option ptr * K;       (* None: the ring is full *)
  io_uring_sqe_set_flags : ptr → Z → K → K;
  io_uring_prep : ptr → request → K → K;
  io_uring_sqe_set_data : ptr → ptr → K → K;
  io_uring_submit : K → Z * K;
  io_uring_cq : K → list cqe;                  (* the completions not seen yet *)
  io_uring_peek_batch_cqe : nat → K → list cqe;
  io_uring_wait_cqe_nr : nat → K → option K;   (* None: sleeps *)
  io_uring_cq_advance : Z → K → K;
  io_uring_cqe_seen : K → K;
  open_null : K → Z * K;                       (* open("/dev/null", O_RDWR) *)
  close : Z → K → K;
  registered : K → list Z;                     (* the ring's fixed file table *)
  efd_count : K → Z;                           (* the counter of the ring's eventfd *)
  handed : K → option ptr;                     (* an entry handed out, not filled in yet *)
  inflight : K → list ptr;                     (* user data of the requests not completed *)
  (* the kernel completes a request and signals the eventfd *)
  kernel_complete : ptr → Z → K → option K;
}.

(** Two kernel states that differ in the eventfd at most. *)
Definition same_ring {K} `{Uring K} (k k' : K) : Prop :=
  inflight k' = inflight k ∧ io_uring_cq k' = io_uring_cq k ∧ registered k' = registered k ∧
  handed k' = handed k.
Definition same_io {K} `{Uring K} (k k' : K) : Prop :=
  inflight k' = inflight k ∧ io_uring_cq k' = io_uring_cq k ∧ efd_count k' = efd_count k.

Class UringLaws (K : Type) `{Uring K} := {
  (* a registration that succeeds installs the table *)
  register_files_ok fds k k' :
    io_uring_register_files fds k = (0, k') → registered k' = fds;
  (* an update that changed every entry asked for *)
  files_update_ok i fd k k' :
    io_uring_register_files_update (Z.of_nat i) [fd] k = (1, k') →
    registered k' = <[i := fd]> (registered k);
  open_null_files k : registered (open_null k).2 = registered k;
  (* a batch is a prefix of the queue, as long as possible *)
  peek_batch_ok n k : io_uring_peek_batch_cqe n k = take n (io_uring_cq k);
  wait_cqe_ok n k :
    match io_uring_wait_cqe_nr n k with
    | Some k' => (n ≤ length (io_uring_cq k))%nat ∧ k' = k
    | None => (length (io_uring_cq k) < n)%nat
    end;
  cqe_seen_ok k : io_uring_cqe_seen k = io_uring_cq_advance 1 k;
  cq_advance_ok n k : 0 <= n <= Z.of_nat (length (io_uring_cq k)) →
    io_uring_cq (io_uring_cq_advance n k) = drop (Z.to_nat n) (io_uring_cq k);
  cq_advance_rest n k : inflight (io_uring_cq_advance n k) = inflight k ∧
    efd_count (io_uring_cq_advance n k) = efd_count k;
  (* eventfd(2) *)
  efd_count_nonneg k : 0 <= efd_count k;
  eventfd_read_ok fd k :
    match eventfd_read fd k with
    | Returns u k' => u = efd_count k ∧ u ≠ 0 ∧ efd_count k' = 0 ∧ same_ring k k'
    | Blocks => efd_count k = 0
    | Failed => False
    end;
  eventfd_write_ok fd n k : 0 <= n →
    match eventfd_write fd n k with
    | Returns r k' => r = 0 ∧ efd_count k + n <= 2 ^ 64 - 2 ∧ efd_count k' = efd_count k + n ∧ same_ring k k'
    | Blocks => 2 ^ 64 - 2 < efd_count k + n
    | Failed => False
    end;
  (* a submission entry: taken, filled in, given its data *)
  get_sqe_ok k :
    let '(r, k') := io_uring_get_sqe k in same_io k k' ∧ (∀ sqe, r = Some sqe → handed k' = Some sqe);
  set_flags_ok sqe f k : same_io k (io_uring_sqe_set_flags sqe f k) ∧
    handed (io_uring_sqe_set_flags sqe f k) = handed k;
  prep_ok sqe r k : same_io k (io_uring_prep sqe r k) ∧ handed (io_uring_prep sqe r k) = handed k;
  set_data_ok sqe p k : handed k = Some sqe →
    inflight (io_uring_sqe_set_data sqe p k) = inflight k ++ [p] ∧
    io_uring_cq (io_uring_sqe_set_data sqe p k) = io_uring_cq k ∧
    efd_count (io_uring_sqe_set_data sqe p k) = efd_count k;
  submit_ok k : same_io k (io_uring_submit k).2;
  (* the entries are free again after a submission *)
  submit_frees k : is_Some (io_uring_get_sqe (io_uring_submit k).2).1;
  complete_ok p r k k' : kernel_complete p r k = Some k' →
    (∃ l1 l2, inflight k = l1 ++ p :: l2 ∧ inflight k' = l1 ++ l2) ∧
    io_uring_cq k' = io_uring_cq k ++ [Cqe p r] ∧ efd_count k' = efd_count k + 1;
}.

(** ** A simulated ring *)
Record sim := Sim {
  sim_files : list Z;
  sim_cq : list cqe;
  sim_efd : N;                        (* the counter of the eventfd *)
  sim_sqes : nat;                     (* free submission entries *)
  sim_room : nat;                     (* their number, less one *)
  sim_fd : Z;                         (* the next descriptor *)
  sim_sqe : ptr;                      (* the next submission entry *)
  sim_handed : option ptr;
  sim_flight : list ptr;
}.
Definition sim0 : sim := Sim [] [] 0 2 1 3 1000 None [].
Definition sim_alloc (s : sim) : Z * sim :=
  (sim_fd s, Sim (sim_files s) (sim_cq s) (sim_efd s) (sim_sqes s) (sim_room s) (sim_fd s + 1)
               (sim_sqe s) (sim_handed s) (sim_flight s)).
Definition sim_set_files (f : list Z) (s : sim) : sim :=
  Sim f (sim_cq s) (sim_efd s) (sim_sqes s) (sim_room s) (sim_fd s) (sim_sqe s) (sim_handed s) (sim_flight s).
Definition sim_set_cq (q : list cqe) (s : sim) : sim :=
  Sim (sim_files s) q (sim_efd s) (sim_sqes s) (sim_room s) (sim_fd s) (sim_sqe s) (sim_handed s) (sim_flight s).
Definition sim_set_efd (n : N) (s : sim) : sim :=
  Sim (sim_files s) (sim_cq s) n (sim_sqes s) (sim_room s) (sim_fd s) (sim_sqe s) (sim_handed s) (sim_flight s).
Definition sim_get_sqe (s : sim) : option ptr * sim :=
  match sim_sqes s with
  | O => (None, s)
  | S n => (Some (sim_sqe s),
      Sim (sim_files s) (sim_cq s) (sim_efd s) n (sim_room s) (sim_fd s) (sim_sqe s + 1)
        (Some (sim_sqe s)) (sim_flight s))
  end.
Definition sim_fill (p : ptr) (s : sim) : sim :=
  Sim (sim_files s) (sim_cq s) (sim_efd s) (sim_sqes s) (sim_room s) (sim_fd s) (sim_sqe s) None
    (sim_flight s ++ [p]).
Definition sim_submit (s : sim) : sim :=
  Sim (sim_files s) (sim_cq s) (sim_efd s) (S (sim_room s)) (sim_room s) (sim_fd s) (sim_sqe s)
    (sim_handed s) (sim_flight s).
Fixpoint remove_first (p : ptr) (l : list ptr) : option (list ptr) :=
  match l with
  | [] => None
  | q :: l => if decide (p = q) then Some l else l ← remove_first p l; Some (q :: l)
  end.
Definition sim_complete (p : ptr) (r : Z) (s : sim) : option sim :=
  l ← remove_first p (sim_flight s);
  Some (Sim (sim_files s) (sim_cq s ++ [Cqe p r]) (sim_efd s + 1) (sim_sqes s) (sim_room s)
          (sim_fd s) (sim_sqe s) (sim_handed s) l).

#[export] Instance sim_uring : Uring sim := {|
  eventfd := sim_alloc;
  eventfd_read _ s :=
    if decide (sim_efd s = 0%N) then Blocks else Returns (Z.of_N (sim_efd s)) (sim_set_efd 0 s);
  eventfd_write _ n s :=
    if decide (2 ^ 64 - 2 < Z.of_N (sim_efd s) + n) then Blocks
    else Returns 0 (sim_set_efd (sim_efd s + Z.to_N n) s);
  io_uring_queue_init_params _ s := (0, s);
  io_uring_register_eventfd _ s := (0, s);
  io_uring_register_files fds s := (0, sim_set_files fds s);
  io_uring_register_files_update off fds s :=
    (Z.of_nat (length fds), sim_set_files (list_inserts (Z.to_nat off) fds (sim_files s)) s);
  io_uring_queue_exit s := s;
  io_uring_get_sqe := sim_get_sqe;
  io_uring_sqe_set_flags _ _ s := s;
  io_uring_prep _ _ s := s;
  io_uring_sqe_set_data _ p s := sim_fill p s;
  io_uring_submit s := (0, sim_submit s);
  io_uring_cq := sim_cq;
  io_uring_peek_batch_cqe n s := take n (sim_cq s);
  io_uring_wait_cqe_nr n s := if decide (n ≤ length (sim_cq s))%nat then Some s else None;
  io_uring_cq_advance n s := sim_set_cq (drop (Z.to_nat n) (sim_cq s)) s;
  io_uring_cqe_seen s := sim_set_cq (drop 1 (sim_cq s)) s;
  open_null := sim_alloc;
  close _ s := s;
  registered := sim_files;
  efd_count s := Z.of_N (sim_efd s);
  handed := sim_handed;
  inflight := sim_flight;
  kernel_complete := sim_complete;
|}.

Lemma remove_first_ok p l l' : remove_first p l = Some l' → ∃ l1 l2, l = l1 ++ p :: l2 ∧ l' = l1 ++ l2.
Proof.
  revert l'. induction l as [|q l IH]; intros l'; simpl; [done|]. case_decide as Hq.
  - intros [= <-]. subst. by exists [], l.
  - destruct (remove_first p l) as [l0|]; [|done]. intros [= <-].
    destruct (IH _ eq_refl) as (l1 & l2 & -> & ->). by exists (q :: l1), l2.
Qed.

#[export] Instance sim_laws : UringLaws sim.
Proof.
  split; simpl; try done.
  - intros fds k k' [= <-]. done.
  - intros i fd k k' [= <-]. simpl. by rewrite Nat2Z.id.
  - intros n k. case_decide; [done|lia].
  - intros. lia.
  - intros _ k. case_decide; [lia|]. by split_and!; [|lia|..].
  - intros _ n k Hn. case_decide; [done|]. split_and!; [done|lia|simpl; lia|done].
  - intros k. unfold sim_get_sqe. destruct (sim_sqes k); (split; [done|]); by intros sqe [= <-].
  - intros p r k k' Hc. unfold sim_complete in Hc.
    destruct (remove_first p (sim_flight k)) as [l|] eqn:Hr; [|done]. simplify_eq/=.
    split_and!; [by apply remove_first_ok|done|lia].
Qed.
