(* ===== verification/UringProxy.v ===== *)
(** * coro::uring::uring_proxy (include/coro/uring_proxy.hpp) and
    coro::io::detail::fixed_fds (include/coro/io/base_io_type.hpp)

    The wrapper of the ring and its pool of fixed file slots. [None] is
    [std::exit(1)] (or an out-of-range access of an array, which the proofs
    exclude). *)
From S2P Require Import Prelude MarkedBuffer Uring.
Local Open Scope Z_scope.
Local Open Scope coro_scope.

Section uring_proxy.
Context {K : Type} `{Uring K}.
(** [config::kEnableFixfd] and [config::kFixFdArraySize] *)
Context (kEnableFixfd : bool) (kFixFdArraySize : nat).

Record uring_proxy := UringProxy {
  m_efd : Z;
  m_null_fds : list Z;
  m_fds : marked_buffer Z;
  m_uring : K;
}.

Definition set_uring (k : K) (p : uring_proxy) : uring_proxy :=
  UringProxy (m_efd p) (m_null_fds p) (m_fds p) k.
Definition set_fds (b : marked_buffer Z) (p : uring_proxy) : uring_proxy :=
  UringProxy (m_efd p) (m_null_fds p) b (m_uring p).

(** The constructor: [raw] is what the array of slots holds before [init]. *)
Definition proxy_new (raw : list Z) (k : K) : option uring_proxy :=
  let '(efd, k) := eventfd k in
  if decide (efd < 0) then None
  else Some (UringProxy efd [] (MarkedBuffer raw []) k).

(** The loop of [init] that opens the null descriptors. *)
Fixpoint open_null_fds (n : nat) (fds : list Z) (k : K) : option (list Z * K) :=
  match n with
  | O => Some (fds, k)
  | S n =>
      let '(fd, k) := open_null k in
      if decide (fd <= 0) then None else open_null_fds n (fds ++ [fd]) k
  end.

(** The part of [init] under [if constexpr (config::kEnableFixfd)]. *)
Definition init_fixed (p : uring_proxy) : option uring_proxy :=
  '(fds, k) ← open_null_fds kFixFdArraySize [] (m_uring p);
  b ← set_data fds (MarkedBuffer.init (m_fds p));
  let '(r, k) := io_uring_register_files (data b) k in
  if decide (r ≠ 0) then None else Some (UringProxy (m_efd p) fds b k).

Definition proxy_init (entry_length : Z) (p : uring_proxy) : option uring_proxy :=
  let '(r, k) := io_uring_queue_init_params entry_length (m_uring p) in
  if decide (r ≠ 0) then None else
  let '(r, k) := io_uring_register_eventfd (m_efd p) k in
  if decide (r ≠ 0) then None else
  let p := set_uring k p in
  if kEnableFixfd then init_fixed p else Some p.

Definition proxy_deinit (p : uring_proxy) : uring_proxy :=
  let k := close (m_efd p) (m_uring p) in
  let k := if kEnableFixfd then foldl (λ k fd, close fd k) k (m_null_fds p) else k in
  UringProxy (-1) (m_null_fds p) (m_fds p) (io_uring_queue_exit k).

Definition peek_uring (p : uring_proxy) : bool := negb (bool_decide (io_uring_cq (m_uring p) = [])).
(** [wait_uring]: one completion, or [num] of them; [None] is sleep. *)
Definition wait_uring (num : Z) (p : uring_proxy) : option uring_proxy :=
  (λ k, set_uring k p) <$>
    (if decide (num = 1) then io_uring_wait_cqe_nr 1 (m_uring p)
     else io_uring_wait_cqe_nr (Z.to_nat (u32 num)) (m_uring p)).
Definition seen_cqe_entry (p : uring_proxy) : uring_proxy := set_uring (io_uring_cqe_seen (m_uring p)) p.
Definition get_free_sqe (p : uring_proxy) : option ptr * uring_proxy :=
  let '(sqe, k) := io_uring_get_sqe (m_uring p) in (sqe, set_uring k p).
Definition submit (p : uring_proxy) : Z * uring_proxy :=
  let '(n, k) := io_uring_submit (m_uring p) in (n, set_uring k p).
Definition peek_batch_cqe (num : nat) (p : uring_proxy) : list cqe :=
  io_uring_peek_batch_cqe num (m_uring p).
Definition cq_advance (num : Z) (p : uring_proxy) : uring_proxy :=
  set_uring (io_uring_cq_advance num (m_uring p)) p.
Definition wait_eventfd (p : uring_proxy) : efd_result uring_proxy :=
  match eventfd_read (m_efd p) (m_uring p) with
  | Blocks => Blocks | Failed => Failed | Returns u k => Returns u (set_uring k p)
  end.
(** The assertion of [write_eventfd] fails on [Failed]. *)
Definition write_eventfd (num : Z) (p : uring_proxy) : efd_result uring_proxy :=
  match eventfd_write (m_efd p) num (m_uring p) with
  | Blocks => Blocks
  | Returns r k => if decide (r = -1) then Failed else Returns r (set_uring k p)
  | Failed => Failed
  end.

(** [handle_for_each_cqe]: the handler works on a state [S] of its own. *)
Fixpoint for_each_cqe {S} (f : cqe → S → S) (cqes : list cqe) (i : Z) (s : S) : Z * S :=
  match cqes with
  | [] => (i, s)
  | c :: cqes => for_each_cqe f cqes (u32 (i + 1)) (f c s)
  end.
Definition handle_for_each_cqe {S} (f : cqe → S → S) (mark_finish : bool) (p : uring_proxy) (s : S)
    : Z * uring_proxy * S :=
  let '(i, s) := for_each_cqe f (io_uring_cq (m_uring p)) 0 s in
  ((i, if mark_finish then cq_advance i p else p), s).

Definition invalid_fd_item : item := Item (-1) None.

Definition get_fixed_fd (p : uring_proxy) : item * uring_proxy :=
  if kEnableFixfd then let '(it, b) := borrow (m_fds p) in (it, set_fds b p)
  else (invalid_fd_item, p).

Definition update_register_fixed_fds (index : Z) (p : uring_proxy) : option uring_proxy :=
  if kEnableFixfd then
    if decide (0 <= index) then
      fd ← data (m_fds p) !! Z.to_nat index;
      let '(r, k) := io_uring_register_files_update index [fd] (m_uring p) in
      if decide (r ≠ 1) then None else Some (set_uring k p)
    else
      let '(r, k) := io_uring_register_files_update 0 (data (m_fds p)) (m_uring p) in
      if decide (r ≠ Z.of_nat kFixFdArraySize) then None else Some (set_uring k p)
  else Some p.

(** [*ptr = fd] for a pointer into the array of slots. *)
Definition write_slot (i : nat) (fd : Z) (p : uring_proxy) : option uring_proxy :=
  d ← write_at i fd (data (m_fds p));
  Some (set_fds (MarkedBuffer d (que (m_fds p))) p).

Definition back_fixed_fd (it : item) (p : uring_proxy) : option uring_proxy :=
  if valid it then
    fd ← m_null_fds p !! Z.to_nat (idx it);
    p ← write_slot (Z.to_nat (idx it)) fd p;
    p ← update_register_fixed_fds (idx it) p;
    Some (set_fds (return_back it (m_fds p)) p)
  else Some p.

(** ** fixed_fds: the slot of one descriptor *)

(** [IOSQE_FIXED_FILE] *)
Definition IOSQE_FIXED_FILE : Z := 1.

(** The constructor borrows a slot. *)
Definition fixed_new (p : uring_proxy) : item * uring_proxy := get_fixed_fd p.

(** [assign(fd, flag)]: the new values of [fd] and [flag]. *)
Definition assign (it : item) (fd flag : Z) (p : uring_proxy) : option (Z * Z * uring_proxy) :=
  if valid it then
    i ← iptr it;
    p ← write_slot i fd p;
    p ← update_register_fixed_fds (idx it) p;
    Some (idx it, Z.lor flag IOSQE_FIXED_FILE, p)
  else Some (fd, flag, p).

(** [return_back], also the destructor. *)
Definition fixed_return_back (it : item) (p : uring_proxy) : option (item * uring_proxy) :=
  if valid it then p ← back_fixed_fd it p; Some (set_invalid it, p) else Some (it, p).

(** Programs that use fixed descriptors: each object is known by a number. *)
Record pool_state := PoolState {
  proxy : uring_proxy;
  objs : gmap nat item;
}.
Inductive pool_label :=
  | New (c : nat)
  | Assign (c : nat) (fd flag : Z)
  | ReturnBack (c : nat)              (* explicitly, as tcp_connector::close does *)
  | Destroy (c : nat).

Definition pool_step (l : pool_label) (s : pool_state) : option (pool_state * list (Z * Z)) :=
  match l with
  | New c =>
      match objs s !! c with
      | Some _ => None
      | None => let '(it, p) := fixed_new (proxy s) in Some (PoolState p (<[c := it]> (objs s)), [])
      end
  | Assign c fd flag =>
      it ← objs s !! c;
      match assign it fd flag (proxy s) with
      | Some (fd, flag, p) => Some (PoolState p (objs s), [(fd, flag)])
      | None => None
      end
  | ReturnBack c =>
      it ← objs s !! c;
      match fixed_return_back it (proxy s) with
      | Some (it, p) => Some (PoolState p (<[c := it]> (objs s)), [])
      | None => None
      end
  | Destroy c =>
      it ← objs s !! c;
      match fixed_return_back it (proxy s) with
      | Some (_, p) => Some (PoolState p (delete c (objs s)), [])
      | None => None
      end
  end.

(** Programs start after [init]. *)
Definition pool_machine (raw : list Z) (k : K) (entry_length : Z) :
    machine pool_state pool_label (Z * Z) :=
  Machine (λ s, ∃ p p', proxy_new raw k = Some p ∧ proxy_init entry_length p = Some p' ∧
             s = PoolState p' ∅) pool_step.

Lemma for_each_cqe_eq {S} (f : cqe → S → S) l : ∀ i st,
  0 <= i → i + Z.of_nat (length l) < 2 ^ 32 →
  for_each_cqe f l i st = (i + Z.of_nat (length l), foldl (λ s c, f c s) st l).
Proof.
  induction l as [|c l IH]; intros i st Hi Hl; simpl in *; [f_equal; lia|].
  rewrite uw_small, IH by lia. f_equal. lia.
Qed.

(** ** The slots *)
Context `{!UringLaws K} (Hfix : kEnableFixfd = true).

(** The pool when the indices [outs] are lent out. *)
Record slots (p : uring_proxy) (outs : list Z) : Prop := {
  s_len : length (data (m_fds p)) = kFixFdArraySize;
  s_null : length (m_null_fds p) = kFixFdArraySize;
  s_reg : registered (m_uring p) = data (m_fds p);
  s_bal : balanced (m_fds p) outs;
  s_free : ∀ i : nat, Z.of_nat i ∈ que (m_fds p) → data (m_fds p) !! i = m_null_fds p !! i;
}.

Lemma open_null_fds_ok n : ∀ fds k fds' k', open_null_fds n fds k = Some (fds', k') →
  length fds' = (length fds + n)%nat ∧ (Forall (λ fd, 0 < fd) fds → Forall (λ fd, 0 < fd) fds').
Proof.
  induction n as [|n IH]; intros fds k fds' k' Ho; simpl in Ho; [simplify_eq; split; [lia|done]|].
  destruct (open_null k) as [fd k1]. case_decide as Hfd; [done|].
  apply IH in Ho as [Hl Hp]. rewrite length_app in Hl. simpl in Hl. split; [lia|].
  intros Hf. apply Hp. apply Forall_app. split; [done|]. constructor; [lia|done].
Qed.

Lemma slots_init raw k e p p' : length raw = kFixFdArraySize →
  proxy_new raw k = Some p → proxy_init e p = Some p' →
  slots p' [] ∧ data (m_fds p') = m_null_fds p' ∧ Forall (λ fd, 0 < fd) (m_null_fds p').
Proof.
  unfold proxy_new, proxy_init, init_fixed. rewrite Hfix. intros Hraw Hn Hi.
  destruct (eventfd k) as [efd k1]. case_decide; [done|]. simplify_eq/=.
  destruct (io_uring_queue_init_params _ _) as [r1 k2]. case_decide; [done|].
  destruct (io_uring_register_eventfd _ _) as [r2 k3]. case_decide; [done|].
  destruct (open_null_fds _ _ _) as [[fds k4]|] eqn:Ho; [|done]. simpl in Hi.
  apply open_null_fds_ok in Ho as [Hl Hp]. simpl in Hl.
  destruct (set_data_free (MarkedBuffer raw []) fds) as (b & Hb & Hd & Hbal & Hq);
    [simpl; lia|]. simpl in Hi. rewrite Hb in Hi. simpl in Hi.
  destruct (io_uring_register_files _ _) as [r k5] eqn:Hr. case_decide as Hr0; [done|].
  subst r. simplify_eq/=. split_and!; [|done|by apply Hp].
  split; simpl; [lia..| | |].
  - by eapply register_files_ok.
  - done.
  - done.
Qed.

Lemma slots_new p outs it p' : slots p outs → fixed_new p = (it, p') →
  if valid it then slots p' (idx it :: outs) ∧ iptr it = Some (Z.to_nat (idx it))
  else p' = p.
Proof.
  intros [Hl Hn Hr Hb Hf] Hnew. unfold fixed_new, get_fixed_fd in Hnew. rewrite Hfix in Hnew.
  destruct (borrow (m_fds p)) as [it' b] eqn:Hbo. simplify_eq.
  destruct (valid it) eqn:Hv.
  - pose proof (balanced_borrow _ _ _ _ Hb Hbo Hv) as Hb'.
    unfold borrow in Hbo. destruct (que (m_fds p)) as [|i q] eqn:Hq; simplify_eq.
    split; [|done]. split; simpl; try done. intros j Hj. apply Hf. by right.
  - unfold borrow in Hbo. destruct (que (m_fds p)) as [|i q] eqn:Hq; simplify_eq.
    + by destruct p.
    + exfalso. apply bool_decide_eq_false in Hv. apply Hv. simpl.
      destruct (balanced_range (m_fds p) outs i) as [? _]; [done|left; rewrite Hq; by left|done].
Qed.

Lemma lent_index p outs i : slots p outs → i ∈ outs →
  (Z.to_nat i < kFixFdArraySize)%nat ∧ 0 <= i.
Proof.
  intros Hs Hi. destruct (balanced_range _ _ i (s_bal _ _ Hs) (or_intror Hi)) as [? ?].
  rewrite (s_len _ _ Hs) in *. lia.
Qed.

(** Writing the slot of an index that is lent out, in the array and in the
    ring's table. *)
Lemma slots_write p outs i fd p1 p2 : slots p outs → i ∈ outs →
  write_slot (Z.to_nat i) fd p = Some p1 → update_register_fixed_fds i p1 = Some p2 →
  slots p2 outs ∧ data (m_fds p2) = <[Z.to_nat i := fd]> (data (m_fds p)) ∧
  que (m_fds p2) = que (m_fds p) ∧ m_null_fds p2 = m_null_fds p ∧
  registered (m_uring p2) !! Z.to_nat i = Some fd.
Proof.
  intros Hs Hi Hw Hu. destruct (lent_index _ _ _ Hs Hi) as [Hlt Hpos].
  destruct Hs as [Hl Hn Hr Hb Hf]. unfold write_slot, write_at in Hw.
  case_decide; [|done]. simplify_eq/=.
  unfold update_register_fixed_fds in Hu. rewrite Hfix, decide_True in Hu by lia.
  simpl in Hu. rewrite list_lookup_insert_eq in Hu by done. simpl in Hu.
  destruct (io_uring_register_files_update _ _ _) as [r k] eqn:Hk. case_decide as Hr1; [done|].
  subst r. rewrite <- (Z2Nat.id i) in Hk at 1 by done. apply files_update_ok in Hk. simplify_eq/=.
  rewrite Hk, Hr, list_lookup_insert_eq by done. split_and!; try done.
  split; simpl; [by rewrite length_insert|done|by rewrite Hk, Hr| |].
  - unfold balanced in *. simpl. by rewrite length_insert.
  - intros j Hj. rewrite list_lookup_insert_ne; [by apply Hf|]. intros <-.
    rewrite Z2Nat.id in Hj by done.
    pose proof (balanced_nodup _ _ Hb) as Hnd. apply NoDup_app in Hnd as (_ & Hnd & _).
    by apply (Hnd i).
Qed.

Lemma slots_assign p outs it fd flag fd' flag' p' : slots p outs → valid it = true →
  idx it ∈ outs → iptr it = Some (Z.to_nat (idx it)) →
  assign it fd flag p = Some (fd', flag', p') →
  slots p' outs ∧ fd' = idx it ∧ flag' = Z.lor flag IOSQE_FIXED_FILE ∧
  registered (m_uring p') !! Z.to_nat (idx it) = Some fd ∧ m_null_fds p' = m_null_fds p ∧
  que (m_fds p') = que (m_fds p).
Proof.
  intros Hs Hv Hi Hp Ha. unfold assign in Ha. rewrite Hv, Hp in Ha. simpl in Ha.
  destruct (write_slot _ fd p) as [p1|] eqn:Hw; [|done]. simpl in Ha.
  destruct (update_register_fixed_fds _ p1) as [p2|] eqn:Hu; [|done]. simplify_eq/=.
  destruct (slots_write _ _ _ _ _ _ Hs Hi Hw Hu) as (? & ? & ? & ? & ?). by split_and!.
Qed.

Lemma slots_back p outs it p' : slots p (idx it :: outs) → valid it = true →
  back_fixed_fd it p = Some p' →
  slots p' outs ∧ m_null_fds p' = m_null_fds p ∧
  registered (m_uring p') !! Z.to_nat (idx it) = m_null_fds p !! Z.to_nat (idx it).
Proof.
  intros Hs Hv Ha. unfold back_fixed_fd in Ha. rewrite Hv in Ha.
  destruct (lent_index _ _ (idx it) Hs) as [Hlt Hpos]; [by left|].
  destruct (m_null_fds p !! Z.to_nat (idx it)) as [fd|] eqn:Hfd; [|done]. simpl in Ha.
  destruct (write_slot _ fd p) as [p1|] eqn:Hw; [|done]. simpl in Ha.
  destruct (update_register_fixed_fds _ p1) as [p2|] eqn:Hu; [|done]. injection Ha as <-. simpl.
  destruct (slots_write p (idx it :: outs) (idx it) fd p1 p2 Hs ltac:(by left) Hw Hu)
    as ([Hl Hnl Hr Hb Hf] & Hd & Hq & Hnu & Hreg).
  split_and!; [|done|by rewrite Hreg].
  pose proof (balanced_return _ _ _ Hb Hv) as Hb'. unfold return_back in *. rewrite Hv in *.
  split; simpl in *; try done. intros i [Hi|Hi]%elem_of_app; [by apply Hf|].
  apply list_elem_of_singleton in Hi. rewrite <- Hi, Nat2Z.id in Hd, Hfd.
  rewrite Hd, Hnu, Hfd. apply list_lookup_insert_eq. rewrite (s_len _ _ Hs). lia.
Qed.

(** The indices that a set of objects holds. *)
Definition held (it : item) : option Z := if valid it then Some (idx it) else None.
Definition outs (m : gmap nat item) : list Z := omap (λ kv, held kv.2) (map_to_list m).

Lemma outs_insert m c it : m !! c = None →
  outs (<[c := it]> m) ≡ₚ option_list (held it) ++ outs m.
Proof.
  intros Hc. unfold outs. rewrite map_to_list_insert by done. simpl. by destruct (held it).
Qed.

Lemma outs_delete m c it : m !! c = Some it →
  outs m ≡ₚ option_list (held it) ++ outs (delete c m).
Proof.
  intros Hc. rewrite <- (outs_insert (delete c m) c it) by apply lookup_delete_eq.
  by rewrite insert_delete_eq, insert_id.
Qed.

Lemma outs_replace m c it it' : m !! c = Some it →
  outs (<[c := it']> m) ≡ₚ option_list (held it') ++ outs (delete c m).
Proof.
  intros Hc. rewrite <- insert_delete_eq. apply outs_insert, lookup_delete_eq.
Qed.

Lemma slots_perm p o1 o2 : o1 ≡ₚ o2 → slots p o1 → slots p o2.
Proof. intros Ho [Hl Hn Hr Hb Hf]. split; try done. by eapply balanced_perm. Qed.

(** The invariant of the programs: [null] are the null descriptors. *)
Record pool_ok (null : list Z) (s : pool_state) : Prop := {
  o_slots : slots (proxy s) (outs (objs s));
  o_ptr : ∀ c it, objs s !! c = Some it → valid it = true → iptr it = Some (Z.to_nat (idx it));
  o_null : m_null_fds (proxy s) = null;
}.

Lemma fixed_return_ok null s c it it' p : pool_ok null s → objs s !! c = Some it →
  fixed_return_back it (proxy s) = Some (it', p) →
  slots p (outs (delete c (objs s))) ∧ m_null_fds p = null ∧ held it' = None.
Proof.
  intros [Hs Hp Hn] Hc Hr. unfold fixed_return_back in Hr.
  apply (slots_perm _ _ _ (outs_delete _ _ _ Hc)) in Hs. unfold held in *.
  destruct (valid it) eqn:Hv; simpl in Hs.
  - destruct (back_fixed_fd it (proxy s)) as [p1|] eqn:Hb; [|done]. simplify_eq/=.
    destruct (slots_back _ _ _ _ Hs Hv Hb) as (? & ? & _). split_and!; [done|congruence|done].
  - simplify_eq. by rewrite Hv.
Qed.

Lemma pool_ok_step null l s s' es : pool_ok null s → pool_step l s = Some (s', es) →
  pool_ok null s'.
Proof.
  intros Hok Hst. destruct l as [c|c fd flag|c|c]; simpl in Hst.
  - destruct (objs s !! c) eqn:Hc; [done|]. destruct (fixed_new (proxy s)) as [it p] eqn:Hnew.
    simplify_eq/=. destruct Hok as [Hs Hp Hn]. pose proof (slots_new _ _ _ _ Hs Hnew) as Hnw.
    assert (Hnull : m_null_fds p = m_null_fds (proxy s)).
    { unfold fixed_new, get_fixed_fd in Hnew. rewrite Hfix in Hnew.
      destruct (borrow _); by simplify_eq. }
    split; simpl; [|intros c' it' Hc' Hv; lookup_cases|congruence].
    + eapply slots_perm; [symmetry; by apply outs_insert|]. unfold held.
      destruct (valid it); simpl; [by destruct Hnw|by subst].
    + rewrite Hv in Hnw. by destruct Hnw.
    + by eapply Hp.
  - destruct (objs s !! c) as [it|] eqn:Hc; [|done]. simpl in Hst.
    destruct (assign it fd flag (proxy s)) as [[[fd' flag'] p]|] eqn:Ha; [|done]. simplify_eq/=.
    destruct Hok as [Hs Hp Hn]. destruct (valid it) eqn:Hv.
    + assert (Hin : idx it ∈ outs (objs s)).
      { rewrite (outs_delete _ _ _ Hc). unfold held. rewrite Hv. left. }
      destruct (slots_assign _ _ _ _ _ _ _ _ Hs Hv Hin (Hp _ _ Hc Hv) Ha) as (? & ? & ? & ? & ? & ?).
      by split; simpl; [| |congruence].
    + unfold assign in Ha. rewrite Hv in Ha. by simplify_eq.
  - destruct (objs s !! c) as [it|] eqn:Hc; [|done]. simpl in Hst.
    destruct (fixed_return_back it (proxy s)) as [[it' p]|] eqn:Hr; [|done]. simplify_eq/=.
    destruct (fixed_return_ok _ _ _ _ _ _ Hok Hc Hr) as (Hs & Hn & Hh).
    split; simpl; [|intros c' it2 Hc' Hv; lookup_cases|done].
    + eapply slots_perm; [symmetry; by eapply outs_replace|]. by rewrite Hh.
    + unfold held in Hh. by rewrite Hv in Hh.
    + by eapply (o_ptr _ _ Hok).
  - destruct (objs s !! c) as [it|] eqn:Hc; [|done]. simpl in Hst.
    destruct (fixed_return_back it (proxy s)) as [[it' p]|] eqn:Hr; [|done]. simplify_eq/=.
    destruct (fixed_return_ok _ _ _ _ _ _ Hok Hc Hr) as (Hs & Hn & Hh).
    split; simpl; [done|intros c' it2 Hc' Hv; lookup_cases|done]. by eapply (o_ptr _ _ Hok).
Qed.

Lemma pool_ok_reach raw k e s tr : length raw = kFixFdArraySize →
  reach (pool_machine raw k e) s tr → ∃ null, pool_ok null s ∧ Forall (λ fd, 0 < fd) null.
Proof.
  intros Hraw Hr. revert s tr Hr. apply reach_inv.
  - intros s (p & p' & Hn & Hi & ->).
    destruct (slots_init _ _ _ _ _ Hraw Hn Hi) as (Hs & _ & Hp). by exists (m_null_fds p').
  - intros s l s' es (null & Hok & Hp) Hs. exists null. split; [|done].
    exact (pool_ok_step null l s s' es Hok Hs).
Qed.

Lemma outs_elem m z : z ∈ outs m ↔ ∃ c it, m !! c = Some it ∧ valid it = true ∧ idx it = z.
Proof.
  unfold outs. rewrite list_elem_of_omap. unfold held. split.
  - intros ([c it] & Hin & Hh). apply elem_of_map_to_list in Hin. simpl in Hh.
    destruct (valid it) eqn:Hv; simplify_eq. eauto.
  - intros (c & it & Hc & Hv & <-). exists (c, it). split; [by apply elem_of_map_to_list|].
    simpl. by rewrite Hv.
Qed.

(** No index is held by two objects. *)
Lemma outs_distinct m c1 c2 it1 it2 : NoDup (outs m) → m !! c1 = Some it1 → m !! c2 = Some it2 →
  valid it1 = true → valid it2 = true → idx it1 = idx it2 → c1 = c2.
Proof.
  intros Hnd H1 H2 Hv1 Hv2 Hi. destruct (decide (c1 = c2)) as [|Hne]; [done|]. exfalso.
  rewrite (outs_delete _ _ _ H1) in Hnd. unfold held at 1 in Hnd. rewrite Hv1 in Hnd.
  simpl in Hnd. apply NoDup_cons in Hnd as [Hn _]. apply Hn, outs_elem.
  exists c2, it2. by rewrite lookup_delete_ne.
Qed.

(** ** Properties *)

(** C39: the pool of fixed slots, after any sequence of constructions, assigns,
    returns and destructions: the ring's table mirrors the array; no slot is
    lent to two objects; a lent slot is in bounds; a slot that nobody holds is
    free again and holds its null descriptor (no user descriptor stays
    registered). *)
Theorem fixed_slots_safe raw k e s tr : length raw = kFixFdArraySize →
  reach (pool_machine raw k e) s tr →
  registered (m_uring (proxy s)) = data (m_fds (proxy s)) ∧
  (∀ c1 c2 it1 it2, objs s !! c1 = Some it1 → objs s !! c2 = Some it2 →
     valid it1 = true → valid it2 = true → idx it1 = idx it2 → c1 = c2) ∧
  (∀ c it, objs s !! c = Some it → valid it = true → 0 <= idx it < Z.of_nat kFixFdArraySize) ∧
  (∀ i, (i < kFixFdArraySize)%nat →
     (∀ c it, objs s !! c = Some it → valid it = true → idx it ≠ Z.of_nat i) →
     Z.of_nat i ∈ que (m_fds (proxy s)) ∧
     registered (m_uring (proxy s)) !! i = m_null_fds (proxy s) !! i).
Proof.
  intros Hraw Hr. destruct (pool_ok_reach _ _ _ _ _ Hraw Hr) as (null & [Hs Hp Hn] & _).
  destruct Hs as [Hl Hnl Hreg Hb Hf]. split_and!; [done| | |].
  - intros c1 c2 it1 it2. apply outs_distinct.
    pose proof (balanced_nodup _ _ Hb) as Hnd. by apply NoDup_app in Hnd as (_ & _ & Hnd).
  - intros c it Hc Hv. rewrite <- Hl. apply (balanced_range _ _ _ Hb). right.
    apply outs_elem. eauto.
  - intros i Hi Hno. rewrite Hreg. assert (Hq : Z.of_nat i ∈ que (m_fds (proxy s))); [|by auto].
    assert (Hin : Z.of_nat i ∈ que (m_fds (proxy s)) ++ outs (objs s)).
    { unfold balanced in Hb. rewrite Hb. apply list_elem_of_fmap. exists i.
      split; [done|]. apply elem_of_seq. lia. }
    apply elem_of_app in Hin as [|Hin]; [done|].
    apply outs_elem in Hin as (c & it & Hc & Hv & Hx). by destruct (Hno c it).
Qed.

(** [wait_uring] wakes up when as many completions as it waits for are there;
    each [seen_cqe_entry] then takes the oldest one away. *)
Lemma wait_then_seen num p p' : 0 < num < 2 ^ 32 → wait_uring num p = Some p' →
  peek_uring p' = true ∧ num <= Z.of_nat (length (io_uring_cq (m_uring p'))) ∧
  io_uring_cq (m_uring (seen_cqe_entry p')) = drop 1 (io_uring_cq (m_uring p')).
Proof.
  intros Hn Hw. assert (Hlen : p' = p ∧ num <= Z.of_nat (length (io_uring_cq (m_uring p)))).
  { unfold wait_uring in Hw. pose proof (wait_cqe_ok (if decide (num = 1) then 1%nat else Z.to_nat (u32 num)) (m_uring p)) as Hk.
    case_decide; (destruct (io_uring_wait_cqe_nr _ (m_uring p)) as [k|]; [|done]); injection Hw as <-;
      destruct Hk as [Hk ->]; (split; [by destruct p|]); [lia|]. rewrite uw_small in Hk by lia. lia. }
  destruct Hlen as [-> Hlen]. split_and!; [|done|].
  - unfold peek_uring. destruct (io_uring_cq (m_uring p)); [simpl in Hlen; lia|done].
  - simpl. rewrite cqe_seen_ok, cq_advance_ok by lia. done.
Qed.

(** [init], when no call of the ring fails, leaves every slot free, with
    a null descriptor of its own registered in each. *)
Theorem proxy_init_ok raw k e p p' : length raw = kFixFdArraySize →
  proxy_new raw k = Some p → proxy_init e p = Some p' →
  balanced (m_fds p') [] ∧ registered (m_uring p') = m_null_fds p' ∧
  length (m_null_fds p') = kFixFdArraySize ∧ Forall (λ fd, 0 < fd) (m_null_fds p').
Proof.
  intros Hraw Hn Hi. destruct (slots_init _ _ _ _ _ Hraw Hn Hi) as ([Hl Hnl Hr Hb Hf] & Hd & Hp).
  split_and!; [done|congruence|done|done].
Qed.

(** the life of a descriptor in a slot: [assign] replaces it by the slot's
    index, sets the fixed-file flag and registers it; [return_back] puts the
    null descriptor back, invalidates the item, and a second [return_back] (as
    the destructor after [close] does) changes nothing. *)
Theorem fixed_fd_life null s c it fd flag : pool_ok null s → objs s !! c = Some it →
  valid it = true →
  ∀ fd' flag' p1, assign it fd flag (proxy s) = Some (fd', flag', p1) →
  fd' = idx it ∧ Z.testbit flag' 0 = true ∧
  registered (m_uring p1) !! Z.to_nat (idx it) = Some fd ∧
  ∀ it' p2, fixed_return_back it p1 = Some (it', p2) →
    registered (m_uring p2) !! Z.to_nat (idx it) = null !! Z.to_nat (idx it) ∧
    idx it ∈ que (m_fds p2) ∧ fixed_return_back it' p2 = Some (it', p2).
Proof.
  intros [Hs Hp Hn] Hc Hv fd' flag' p1 Ha.
  assert (Hin : idx it ∈ outs (objs s)) by (apply outs_elem; eauto).
  destruct (slots_assign _ _ _ _ _ _ _ _ Hs Hv Hin (Hp _ _ Hc Hv) Ha) as (Hs1 & -> & -> & Hr & Hn1 & Hq).
  split_and!; [done|by rewrite Z.lor_spec, orb_comm|done|].
  intros it' p2 Hb. unfold fixed_return_back in Hb. rewrite Hv in Hb.
  destruct (back_fixed_fd it p1) as [p3|] eqn:Hbk; [|done]. simplify_eq/=.
  apply (slots_perm _ _ _ (outs_delete _ _ _ Hc)) in Hs1. unfold held at 1 in Hs1.
  rewrite Hv in Hs1. destruct (slots_back _ _ _ _ Hs1 Hv Hbk) as ([Hl Hnl Hrg Hbal Hf] & Hn2 & Hrb).
  split_and!; [by rewrite Hrb, Hn1| |done].
  destruct (lent_index _ _ (idx it) Hs1 ltac:(by left)) as [Hlt Hpos].
  assert (Hi : idx it ∈ que (m_fds p2) ++ outs (delete c (objs s))).
  { unfold balanced in Hbal. rewrite Hbal, Hl. apply list_elem_of_fmap.
    exists (Z.to_nat (idx it)). split; [lia|]. apply elem_of_seq. lia. }
  apply elem_of_app in Hi as [|Hi]; [done|]. exfalso.
  pose proof (balanced_nodup _ _ (s_bal _ _ Hs1)) as Hnd. apply NoDup_app in Hnd as (_ & _ & Hnd).
  by apply NoDup_cons in Hnd as [].
Qed.

(** when every slot is lent out a new object gets none, and then its
    descriptor and its flags are used unchanged: nothing is registered. *)
Theorem fixed_fd_exhausted p outs0 fd flag : slots p outs0 →
  length outs0 = kFixFdArraySize →
  ∃ it, fixed_new p = (it, p) ∧ valid it = false ∧ assign it fd flag p = Some (fd, flag, p) ∧
    fixed_return_back it p = Some (it, p).
Proof.
  intros [Hl Hnl Hr Hb Hf] Ho. pose proof (balanced_length _ _ Hb) as Hlen.
  exists (Item (-1) None). unfold fixed_new, get_fixed_fd, borrow. rewrite Hfix.
  destruct (que (m_fds p)) as [|i q]; [|simpl in Hlen; lia]. by destruct p.
Qed.
End uring_proxy.

(** [handle_for_each_cqe] applies the handler once to every completion in
    the ring, in order, returns their number (below [2 ^ 32]) and, when asked
    to, marks exactly them as seen. *)
Theorem handle_for_each_all {K} `{UringLaws K} {S} (f : cqe → S → S) mark (p : uring_proxy (K:=K)) st :
  Z.of_nat (length (io_uring_cq (m_uring p))) < 2 ^ 32 →
  let '((i, p'), st') := handle_for_each_cqe f mark p st in
  i = Z.of_nat (length (io_uring_cq (m_uring p))) ∧
  st' = foldl (λ s c, f c s) st (io_uring_cq (m_uring p)) ∧
  io_uring_cq (m_uring p') = if mark then [] else io_uring_cq (m_uring p).
Proof.
  intros Hlen. unfold handle_for_each_cqe. rewrite for_each_cqe_eq by lia.
  destruct mark; [|done]. split_and!; [lia|done|]. simpl.
  rewrite cq_advance_ok by lia. apply drop_ge. lia.
Qed.

(** ** Witnesses *)
Definition px : option uring_proxy :=
  p ← proxy_new [0; 0] sim0; proxy_init true 2 10240 p.
Definition pool_demo : list pool_label := [New 1; New 2; New 3; Assign 1 77 0; Assign 2 78 0; ReturnBack 2]%nat.
Definition pool0 : pool_state (K:=sim) :=
  match px with Some p => PoolState p ∅ | None => PoolState (UringProxy 0 [] (MarkedBuffer [] []) sim0) ∅ end.
Definition pool_end : pool_state := final (pool_machine true 2 [0; 0] sim0 10240) pool_demo pool0.

Lemma pool_demo_reach : reach (pool_machine true 2 [0; 0] sim0 10240) pool_end
  (trace (pool_machine true 2 [0; 0] sim0 10240) pool_demo pool0).
Proof.
  apply exec_reach_final; [|by vm_compute].
  destruct (proxy_new [0; 0] sim0) as [p|] eqn:Hp; [|done].
  destruct (proxy_init true 2 10240 p) as [p'|] eqn:Hp'.
  - exists p, p'. split_and!; [done..|]. unfold pool0, px. rewrite Hp. simpl. by rewrite Hp'.
  - vm_compute in Hp. injection Hp as <-. by vm_compute in Hp'.
Defined.

Lemma fixed_slots_safe_witness :
  sim_files (m_uring (proxy pool_end)) = [77; 5] ∧
  registered (m_uring (proxy pool_end)) = data (m_fds (proxy pool_end)).
Proof.
  split; [by vm_compute|].
  apply (fixed_slots_safe true 2 eq_refl [0; 0] sim0 10240 _ _ eq_refl pool_demo_reach).
Defined.

Lemma proxy_init_ok_witness : ∃ p', px = Some p' ∧ registered (m_uring p') = m_null_fds p'.
Proof.
  eexists. split; [by vm_compute|].
  eapply (proxy_init_ok true 2 eq_refl [0; 0] sim0 10240); by vm_compute.
Defined.

Lemma pool_end_ok : pool_ok 2 [4; 5] pool_end.
Proof.
  destruct (pool_ok_reach true 2 eq_refl [0; 0] sim0 10240 _ _ eq_refl pool_demo_reach) as (null & Hok & _).
  pose proof (o_null _ _ _ Hok) as Hn. vm_compute in Hn. by rewrite <- Hn in Hok.
Defined.

Lemma fixed_fd_life_witness : ∃ fd' flag' p1,
  assign true 2 (Item 0 (Some 0%nat)) 99 4 (proxy pool_end) = Some (fd', flag', p1) ∧ fd' = 0.
Proof.
  eexists _, _, _. split; [by vm_compute|].
  eapply (fixed_fd_life true 2 eq_refl [4; 5] pool_end 1%nat (Item 0 (Some 0%nat)) 99 4);
    [exact pool_end_ok|by vm_compute..].
Defined.

Lemma fixed_fd_exhausted_witness : ∃ it,
  fixed_new true (UringProxy 3 [4; 5] (MarkedBuffer [4; 5] []) (sim_set_files [4; 5] sim0)) =
    (it, UringProxy 3 [4; 5] (MarkedBuffer [4; 5] []) (sim_set_files [4; 5] sim0)) ∧ valid it = false.
Proof.
  destruct (fixed_fd_exhausted true 2 eq_refl
    (UringProxy 3 [4; 5] (MarkedBuffer [4; 5] []) (sim_set_files [4; 5] sim0)) [0; 1] 9 0)
    as (it & H1 & H2 & _); [|done|by exists it].
  split; try done. unfold balanced. done.
Defined.

Lemma handle_for_each_all_witness :
  ((handle_for_each_cqe (λ c s, s + res c) true
    (UringProxy 3 [] (MarkedBuffer [] []) (sim_set_cq [Cqe 1 5; Cqe 2 7] sim0)) 0)).2 = 12.
Proof.
  pose proof (handle_for_each_all (λ c s, s + res c) true
    (UringProxy 3 [] (MarkedBuffer [] []) (sim_set_cq [Cqe 1 5; Cqe 2 7] sim0)) 0) as H.
  destruct (handle_for_each_cqe _ _ _ _) as [[i p] st]. by destruct H as (_ & -> & _).
Defined.
