(* ===== verification/IoAwaiter.v ===== *)
(** * The io awaiters (include/coro/io/io_info.hpp, base_awaiter.hpp,
    src/io/io_awaiter.cpp, include/coro/timer.hpp)

    What each awaiter asks of the ring, what its callback makes of the result,
    and how an entry of the submission ring is acquired and filled in. *)
From S2P Require Import Prelude Uring UringProxy.
Local Open Scope Z_scope.
Local Open Scope coro_scope.

Inductive io_type :=
  | nop | tcp_accept | tcp_connect | tcp_close | tcp_read | tcp_write | stdin | timer | none.
#[export] Instance io_type_eq_dec : EqDecision io_type.
Proof. solve_decision. Defined.

(** The callbacks that the constructors store ([cb_type], a [std::function]). *)
Inductive cb_type :=
  | CbNoop | CbStdin | CbAccept | CbRead | CbWrite | CbClose | CbConnect | CbTimer.

(** [result] is not initialised before the completion, [data] only by the
    constructor that needs it. *)
Record io_info := IoInfo {
  handle : ptr;
  result : option Z;                  (* int32_t *)
  type : io_type;
  data : option Z;                    (* uintptr_t *)
  cb : cb_type;
}.
Definition set_result (r : Z) (i : io_info) : io_info := IoInfo (handle i) (Some r) (type i) (data i) (cb i).

(** A construction of an awaiter, with its arguments. *)
Inductive io_op :=
  | NoopAwaiter
  | StdinAwaiter (buf : ptr) (len io_flag sqe_flag : Z)
  | AcceptAwaiter (listenfd io_flag sqe_flag : Z)
  | ReadAwaiter (sockfd : Z) (buf : ptr) (len io_flag sqe_flag : Z)
  | WriteAwaiter (sockfd : Z) (buf : ptr) (len io_flag sqe_flag : Z)
  | CloseAwaiter (sockfd : Z)
  | ConnectAwaiter (sockfd : Z) (addr : ptr) (addrlen : Z)
  | TimerAwaiter (ts : Z * Z) (count flags : Z).

Definition STDIN_FILENO : Z := 0.
Definition ETIME : Z := 62.

(** What a constructor leaves in [m_info] and asks of the ring; a set of flags
    only where the constructor calls [io_uring_sqe_set_flags]. *)
Record io_spec := IoSpec {
  spec_type : io_type;
  spec_data : option Z;
  spec_cb : cb_type;
  spec_flags : option Z;
  spec_request : request;
}.

Definition noop_awaiter : io_spec := IoSpec nop None CbNoop None Nop.
Definition stdin_awaiter (buf : ptr) (len io_flag sqe_flag : Z) : io_spec :=
  IoSpec stdin None CbStdin (Some sqe_flag) (Read STDIN_FILENO buf len io_flag).
Definition tcp_accept_awaiter (listenfd io_flag sqe_flag : Z) : io_spec :=
  IoSpec tcp_accept None CbAccept (Some sqe_flag) (Accept listenfd io_flag).
Definition tcp_read_awaiter (sockfd : Z) (buf : ptr) (len io_flag sqe_flag : Z) : io_spec :=
  IoSpec tcp_read None CbRead (Some sqe_flag) (Recv sockfd buf len io_flag).
Definition tcp_write_awaiter (sockfd : Z) (buf : ptr) (len io_flag sqe_flag : Z) : io_spec :=
  IoSpec tcp_write None CbWrite (Some sqe_flag) (SendData sockfd buf len io_flag).
Definition tcp_close_awaiter (sockfd : Z) : io_spec := IoSpec tcp_close None CbClose None (CloseFd sockfd).
(** [m_info.data = CASTDATA(sockfd)] *)
Definition tcp_connect_awaiter (sockfd : Z) (addr : ptr) (addrlen : Z) : io_spec :=
  IoSpec tcp_connect (Some (u64 sockfd)) CbConnect None (Connect sockfd addr addrlen).
Definition timer_awaiter (ts : Z * Z) (count flags : Z) : io_spec :=
  IoSpec timer None CbTimer None (Timeout ts count flags).

Definition spec_of (op : io_op) : io_spec :=
  match op with
  | NoopAwaiter => noop_awaiter
  | StdinAwaiter buf len io_flag sqe_flag => stdin_awaiter buf len io_flag sqe_flag
  | AcceptAwaiter listenfd io_flag sqe_flag => tcp_accept_awaiter listenfd io_flag sqe_flag
  | ReadAwaiter sockfd buf len io_flag sqe_flag => tcp_read_awaiter sockfd buf len io_flag sqe_flag
  | WriteAwaiter sockfd buf len io_flag sqe_flag => tcp_write_awaiter sockfd buf len io_flag sqe_flag
  | CloseAwaiter sockfd => tcp_close_awaiter sockfd
  | ConnectAwaiter sockfd addr addrlen => tcp_connect_awaiter sockfd addr addrlen
  | TimerAwaiter ts count flags => timer_awaiter ts count flags
  end.
Definition op_flags (op : io_op) : option Z := spec_flags (spec_of op).
Definition op_request (op : io_op) : request := spec_request (spec_of op).

(** [m_info] once the constructor and [await_suspend] have filled it in. *)
Definition await_suspend (h : ptr) (op : io_op) : io_info :=
  IoInfo h None (spec_type (spec_of op)) (spec_data (spec_of op)) (spec_cb (spec_of op)).

(** What the callbacks store in [data->result]; [None] is a read of what the
    constructor did not initialise. *)
Definition noop_callback (info : io_info) (res : Z) : option Z := Some res.
Definition stdin_callback (info : io_info) (res : Z) : option Z := Some res.
Definition accept_callback (info : io_info) (res : Z) : option Z := Some res.
Definition read_callback (info : io_info) (res : Z) : option Z := Some res.
Definition write_callback (info : io_info) (res : Z) : option Z := Some res.
Definition close_callback (info : io_info) (res : Z) : option Z := Some res.
Definition connect_callback (info : io_info) (res : Z) : option Z :=
  if decide (res ≠ 0) then Some res else d ← data info; Some (s32 d).
Definition timer_callback (info : io_info) (res : Z) : option Z :=
  Some (if decide (res = - ETIME) then 0 else res).

(** [data->cb(data, res)] *)
Definition call_cb (info : io_info) : Z → option Z :=
  match cb info with
  | CbNoop => noop_callback info
  | CbStdin => stdin_callback info
  | CbAccept => accept_callback info
  | CbRead => read_callback info
  | CbWrite => write_callback info
  | CbClose => close_callback info
  | CbConnect => connect_callback info
  | CbTimer => timer_callback info
  end.

(** The tag, the callback and the datum belong together. *)
Definition well_typed (i : io_info) : bool :=
  match type i, cb i with
  | nop, CbNoop | stdin, CbStdin | tcp_accept, CbAccept | tcp_read, CbRead | tcp_write, CbWrite
  | tcp_close, CbClose | timer, CbTimer => true
  | tcp_connect, CbConnect => bool_decide (is_Some (data i))
  | _, _ => false
  end.

Lemma await_suspend_typed h op : well_typed (await_suspend h op) = true.
Proof. by destruct op. Qed.

Lemma set_result_typed r i : well_typed (set_result r i) = well_typed i.
Proof. done. Qed.

(** The callback of a well-typed one reads nothing uninitialised. *)
Lemma well_typed_calls i r : well_typed i = true → is_Some (call_cb i r).
Proof.
  destruct i as [h rs ty d c]. unfold well_typed, call_cb. simpl.
  destruct c; try (intros; eexists; done). destruct ty; try done.
  intros [x ->]%bool_decide_eq_true. unfold connect_callback. simpl. case_decide; by eexists.
Qed.

Section awaiter.
Context {K : Type} `{Uring K}.

(** [base_io_awaiter()]: the loop that submits until an entry is free; [None]
    when [fuel] submissions were not enough. *)
Fixpoint acquire_urs (fuel : nat) (p : uring_proxy) : option (ptr * uring_proxy) :=
  match get_free_sqe p with
  | (Some urs, p) => Some (urs, p)
  | (None, p) =>
      match fuel with
      | O => None
      | S fuel => acquire_urs fuel (submit p).2
      end
  end.

(** The body of the constructors up to [add_io_submit]; the awaiter's
    [m_info] is at [info]. *)
Definition fill_urs (urs info : ptr) (op : io_op) (p : uring_proxy) : uring_proxy :=
  let k := m_uring p in
  let k := match op_flags op with Some f => io_uring_sqe_set_flags urs f k | None => k end in
  let k := io_uring_prep urs (op_request op) k in
  set_uring (io_uring_sqe_set_data urs info k) p.

Context `{!UringLaws K}.

Lemma get_free_sqe_io p r p' : get_free_sqe p = (r, p') → same_io (m_uring p) (m_uring p') ∧
  (∀ urs, r = Some urs → handed (m_uring p') = Some urs).
Proof.
  unfold get_free_sqe. pose proof (get_sqe_ok (m_uring p)) as Hg.
  destruct (io_uring_get_sqe (m_uring p)) as [r0 k]. intros [= <- <-]. exact Hg.
Qed.

Lemma same_io_trans k1 k2 k3 : same_io k1 k2 → same_io k2 k3 → same_io k1 k3.
Proof. unfold same_io. intuition congruence. Qed.

Lemma submit_io p : same_io (m_uring p) (m_uring (submit p).2).
Proof. unfold submit. pose proof (submit_ok (m_uring p)). by destruct (io_uring_submit (m_uring p)). Qed.

Lemma acquire_ok fuel : ∀ p urs p', acquire_urs fuel p = Some (urs, p') →
  same_io (m_uring p) (m_uring p') ∧ handed (m_uring p') = Some urs.
Proof.
  induction fuel as [|fuel IH]; intros p urs p' Ha; simpl in Ha;
    destruct (get_free_sqe p) as [[u|] p1] eqn:Hg; simplify_eq;
    destruct (get_free_sqe_io _ _ _ Hg) as [Hio Hh]; eauto.
  destruct (IH _ _ _ Ha) as [Hio' Hh']. split; [|done].
  eapply same_io_trans; [exact Hio|]. eapply same_io_trans; [apply submit_io|done].
Qed.

(** One submission is enough. *)
Lemma acquire_total p : ∃ urs p', acquire_urs 1 p = Some (urs, p').
Proof.
  simpl. destruct (get_free_sqe p) as [[u|] p1]; [eauto|].
  pose proof (submit_frees (m_uring p1)) as [urs Hu]. unfold submit, get_free_sqe.
  destruct (io_uring_submit (m_uring p1)) as [n k]. simpl in *.
  destruct (io_uring_get_sqe k) as [r k']. simpl in *. subst. eauto.
Qed.

Lemma fill_ok urs info op p : handed (m_uring p) = Some urs →
  let k := m_uring (fill_urs urs info op p) in
  inflight k = inflight (m_uring p) ++ [info] ∧ io_uring_cq k = io_uring_cq (m_uring p) ∧
  efd_count k = efd_count (m_uring p).
Proof.
  intros Hh. unfold fill_urs. simpl.
  set (k1 := match op_flags op with Some f => _ | None => _ end).
  assert (same_io (m_uring p) k1 ∧ handed k1 = Some urs) as [Hio Hh1].
  { unfold k1. destruct (op_flags op) as [f|]; [|done]. rewrite <- Hh. apply set_flags_ok. }
  destruct (prep_ok urs (op_request op) k1) as [Hio2 Hh2].
  pose proof (same_io_trans _ _ _ Hio Hio2) as (H1 & H2 & H3).
  destruct (set_data_ok urs info (io_uring_prep urs (op_request op) k1)) as (Ha & Hb & Hc); [congruence|].
  rewrite Ha, Hb, Hc. by rewrite H1, H2, H3.
Qed.
End awaiter.
