(* ===== verification/Engine.v ===== *)
(** * coro::detail::engine (include/coro/engine.hpp, src/engine.cpp)

    The engine's queue of coroutine handles, its recursion when the queue is
    full, and its requests to the ring. The bounded queue (the AtomicQueue
    library) is an interface; what a coroutine does when it is resumed is a
    parameter, [resume], that answers with the actions the coroutine takes
    until it suspends or finishes. *)
From S2P Require Import Prelude Effects Uring UringProxy IoAwaiter.
Local Open Scope Z_scope.
Local Open Scope coro_scope.

(** ** The task queue *)

(** [AtomicQueueB2] with multiple producers and consumers promises no total
    order: the laws speak of its contents as a multiset. *)
Class TaskQueue (Q : Type) := {
  queue_new : Q;
  try_push : ptr → Q → option Q;
  pop : Q → option (ptr * Q);         (* None: spins until something is pushed *)
  was_size : Q → nat;
}.

Class TaskQueueLaws (Q : Type) `{TaskQueue Q} (kQueCap : nat) (contents : Q → list ptr) : Prop := {
  queue_new_ok : contents queue_new = [];
  try_push_ok h q :
    match try_push h q with
    | Some q' => (length (contents q) < kQueCap)%nat ∧ contents q' ≡ₚ h :: contents q
    | None => (kQueCap ≤ length (contents q))%nat
    end;
  pop_ok q :
    match pop q with
    | Some (h, q') => contents q ≡ₚ h :: contents q'
    | None => contents q = []
    end;
  was_size_ok q : was_size q = length (contents q);
}.

(** A first-in-first-out queue, for the witnesses. *)
#[export] Instance list_queue (cap : nat) : TaskQueue (list ptr) := {|
  queue_new := [];
  try_push h q := if decide (length q < cap)%nat then Some (q ++ [h]) else None;
  pop q := match q with [] => None | h :: q => Some (h, q) end;
  was_size := length;
|}.

#[export] Instance list_queue_laws (cap : nat) :
  TaskQueueLaws (H := list_queue cap) (list ptr) cap id.
Proof.
  split; simpl.
  - done.
  - intros h q. case_decide as Hl; unfold id; [|lia]. split; [done|]. by rewrite Permutation_app_comm.
  - by intros [|h q].
  - done.
Qed.

Section engine.
Context {K Q C : Type} `{Uring K} `{TaskQueue Q}.
(** [config::kEnableFixfd], [config::kFixFdArraySize] *)
Context (kEnableFixfd : bool) (kFixFdArraySize : nat).
(** [config::kQueCap], [config::kMaxRecursiveDepth], [config::kEntryLength] *)
Context (kQueCap kMaxRecursiveDepth : nat) (kEntryLength : Z).

(** *** Masks of the eventfd's counter *)
Definition task_mask : Z := 0xFFFFF00000000000.
Definition io_mask : Z := 0x00000FFFFF000000.
Definition cqe_mask : Z := 0x0000000000FFFFFF.
Definition task_flag : Z := Z.shiftl 1 44.
Definition io_flag : Z := Z.shiftl 1 24.
Definition wake_by_task (val : Z) : bool := bool_decide (Z.land val task_mask > 0).
Definition wake_by_io (val : Z) : bool := bool_decide (Z.land val io_mask > 0).
Definition wake_by_cqe (val : Z) : bool := bool_decide (Z.land val cqe_mask > 0).

(** *** The engine, and what it works on *)
Record engine := Engine {
  m_upxy : uring_proxy (K:=K);
  m_task_queue : Q;
  m_num_io_wait_submit : Z;           (* size_t *)
  m_num_io_running : Z;
  m_max_recursive_depth : Z;
}.

(** With it: the counter of the context that owns it, the [io_info]s of the
    suspended coroutines by address, and the coroutines' own state. *)
Record state := State {
  egn : engine;
  m_num_wait_task : Z;                (* atomic<size_t> *)
  infos : gmap ptr io_info;
  frames : C;
}.

Definition set_upxy (p : uring_proxy) (s : state) : state :=
  let e := egn s in
  State (Engine p (m_task_queue e) (m_num_io_wait_submit e) (m_num_io_running e) (m_max_recursive_depth e))
    (m_num_wait_task s) (infos s) (frames s).
Definition set_queue (q : Q) (s : state) : state :=
  let e := egn s in
  State (Engine (m_upxy e) q (m_num_io_wait_submit e) (m_num_io_running e) (m_max_recursive_depth e))
    (m_num_wait_task s) (infos s) (frames s).
Definition set_io (wait running : Z) (s : state) : state :=
  let e := egn s in
  State (Engine (m_upxy e) (m_task_queue e) wait running (m_max_recursive_depth e))
    (m_num_wait_task s) (infos s) (frames s).
Definition set_depth (d : Z) (s : state) : state :=
  let e := egn s in
  State (Engine (m_upxy e) (m_task_queue e) (m_num_io_wait_submit e) (m_num_io_running e) d)
    (m_num_wait_task s) (infos s) (frames s).
Definition set_engine (e : engine) (s : state) : state := State e (m_num_wait_task s) (infos s) (frames s).
Definition set_wait_task (n : Z) (s : state) : state := State (egn s) n (infos s) (frames s).
Definition set_infos (i : gmap ptr io_info) (s : state) : state :=
  State (egn s) (m_num_wait_task s) i (frames s).
Definition set_frames (c : C) (s : state) : state :=
  State (egn s) (m_num_wait_task s) (infos s) c.

Inductive event :=
  | Queued (h : ptr)                  (* pushed, and the thread woken *)
  | Popped (h : ptr)                  (* taken from the queue to run *)
  | Inline (h : ptr)                  (* run by submit_task itself *)
  | Dropped (h : ptr)                 (* the logged errors of submit_task *)
  | Cleaned (h : ptr)                 (* done: clean(handle) *)
  | Started (p : ptr)                 (* a request prepared *)
  | Completed (p : ptr) (r : Z)       (* its callback ran *)
  | Elsewhere (h : ptr)               (* run by submit_task of another context's thread *)
  | StopCb.                           (* m_stop_cb() *)

(** *** What coroutines do while they run *)
Inductive act :=
  | Submit (h : ptr)                  (* submit_to_context and the like *)
  | StartIo (p : ptr) (h : ptr) (op : io_op)   (* co_await an awaiter at [p] in coroutine [h] *)
  | EndIo (p : ptr)                   (* its await_resume: answers the result *)
  | RegisterWait (n : Z)
  | UnregisterWait (n : Z).

(** Code runs between the actions on the coroutines' own state, which other
    coroutines may have changed during an action. *)
Inductive co_run :=
  | Stop (finished : bool) (c : C)
  | Do (a : act) (c : C) (k : C → Z → co_run).

Context (resume : ptr → C → co_run).

Abbreviation M := (prog state event).

(** *** submit_task, exec_task *)

(** [wake_up] *)
Definition wake_up (val : Z) : M () :=
  s ← get;
  match write_eventfd val (m_upxy (egn s)) with
  | Returns _ p => put (set_upxy p s)
  | Blocks => blocked
  | Failed => fault
  end.

(** [submit_task]; [exec] is [exec_task]; [is_in_working_state] is whether the
    calling thread is some context's. *)
Definition submit_task (exec : ptr → M ()) (is_in_working_state : bool) (h : ptr) : M () :=
  s ← get;
  if decide (h = nullptr) then fault else
  match try_push h (m_task_queue (egn s)) with
  | Some q => _ ← put (set_queue q s); _ ← emit (Queued h); wake_up task_flag
  | None =>
      if is_in_working_state then
        if decide (Z.of_nat kMaxRecursiveDepth <= m_max_recursive_depth (egn s)) then emit (Dropped h)
        else
          _ ← modify (λ s, set_depth (u64 (m_max_recursive_depth (egn s) + 1)) s);
          _ ← emit (Inline h);
          _ ← exec h;
          modify (λ s, set_depth (u64 (m_max_recursive_depth (egn s) - 1)) s)
      else emit (Dropped h)
  end.

(** [add_io_submit] *)
Definition add_io_submit : M () :=
  modify (λ s, set_io (u64 (m_num_io_wait_submit (egn s) + 1)) (m_num_io_running (egn s)) s).

(** An awaiter's constructor and [await_suspend]. A live awaiter's address is
    not used again. *)
Definition start_io (p h : ptr) (op : io_op) : M () :=
  s ← get;
  if decide (infos s !! p = Datatypes.None ∧ h ≠ nullptr) then
    match acquire_urs 1 (m_upxy (egn s)) with
    | None => out_of_fuel
    | Some (urs, up) =>
        _ ← put (set_infos (<[p := await_suspend h op]> (infos s))
                   (set_upxy (fill_urs urs p op up) s));
        _ ← emit (Started p);
        add_io_submit
    end
  else fault.

(** [await_resume] of an awaiter, and its destruction; of one whose request is
    not complete, it is a coroutine that was resumed or destroyed too early. *)
Definition end_io (p : ptr) : M Z :=
  s ← get;
  match infos s !! p with
  | Some i =>
      match result i with
      | Some r => _ ← put (set_infos (delete p (infos s)) s); mret r
      | None => fault
      end
  | None => fault
  end.

Definition do_act (submit : ptr → M ()) (a : act) : M Z :=
  match a with
  | Submit h => _ ← submit h; mret 0
  | StartIo p h op => _ ← start_io p h op; mret 0
  | EndIo p => end_io p
  | RegisterWait n => _ ← modify (λ s, set_wait_task (u64 (m_num_wait_task s + u64 n)) s); mret 0
  | UnregisterWait n => _ ← modify (λ s, set_wait_task (u64 (m_num_wait_task s - u64 n)) s); mret 0
  end.

(** Whether the coroutine finished. *)
Fixpoint run_co (submit : ptr → M ()) (r : co_run) : M bool :=
  match r with
  | Stop finished c => _ ← modify (set_frames c); mret finished
  | Do a c k =>
      _ ← modify (set_frames c);
      x ← do_act submit a;
      s ← get;
      run_co submit (k (frames s) x)
  end.

(** [exec_task]: [fuel] is the depth of the C++ stack of [exec_task]s. *)
Fixpoint exec_task (fuel : nat) (h : ptr) : M () :=
  match fuel with
  | O => out_of_fuel
  | S fuel =>
      s ← get;
      finished ← run_co (submit_task (exec_task fuel) true) (resume h (frames s));
      when finished (emit (Cleaned h))
  end.

(** The stack is never deeper than this: [exec_total] below. *)
Definition max_stack : nat := S kMaxRecursiveDepth.
Definition exec (h : ptr) : M () := exec_task max_stack h.

(** [schedule] *)
Definition schedule : M ptr :=
  s ← get;
  match pop (m_task_queue (egn s)) with
  | None => blocked
  | Some (h, q) => _ ← put (set_queue q s); _ ← emit (Popped h); mret h
  end.

Definition exec_one_task : M () := h ← schedule; exec h.

(** [ready], [num_task_schedule], [empty_io] *)
Definition ready (e : engine) : bool := negb (bool_decide (was_size (m_task_queue e) = 0%nat)).
Definition num_task_schedule (e : engine) : nat := was_size (m_task_queue e).
Definition empty_io (e : engine) : bool :=
  bool_decide (m_num_io_wait_submit e = 0) && bool_decide (m_num_io_running e = 0).

(** *** The ring *)

(** [handle_cqe_entry]: the callback stores the result and resubmits. *)
Definition handle_cqe_entry (c : cqe) : M () :=
  s ← get;
  match infos s !! user_data c with
  | None => fault
  | Some i =>
      match call_cb i (res c) with
      | Some r =>
          _ ← put (set_infos (<[user_data c := set_result r i]> (infos s)) s);
          _ ← emit (Completed (user_data c) r);
          submit_task exec true (handle i)
      | None => fault
      end
  end.

Definition do_io_submit : M () :=
  s ← get;
  if decide (0 < m_num_io_wait_submit (egn s)) then
    put (set_io 0 (u64 (m_num_io_running (egn s) + m_num_io_wait_submit (egn s)))
           (set_upxy (submit (m_upxy (egn s))).2 s))
  else mret ().

(** [wait_eventfd] *)
Definition wait_eventfd : M Z :=
  s ← get;
  match UringProxy.wait_eventfd (m_upxy (egn s)) with
  | Blocks => blocked
  | Failed => fault
  | Returns u p => _ ← put (set_upxy p s); mret u
  end.

(** [peek_batch_cqe] into [m_urc], an array of [kQueCap] pointers. *)
Definition peek_cqes : M (list cqe) :=
  s ← get;
  let l := peek_batch_cqe (Z.to_nat (u32 (m_num_io_running (egn s)))) (m_upxy (egn s)) in
  if decide (length l ≤ kQueCap)%nat then mret l else fault.

(** The end of [poll_submit] for [num] completions. *)
Definition reap (num : Z) : M () :=
  modify (λ s, set_io (m_num_io_wait_submit (egn s)) (u64 (m_num_io_running (egn s) - num))
                 (set_upxy (cq_advance num (m_upxy (egn s))) s)).

Definition poll_submit : M () :=
  _ ← do_io_submit;
  cnt ← wait_eventfd;
  if wake_by_cqe cnt then
    l ← peek_cqes;
    when (negb (bool_decide (l = [])))
      (_ ← for_each handle_cqe_entry l; reap (Z.of_nat (length l)))
  else mret ().

(** [init] and [deinit]; [None] is [std::exit(1)]. *)
Definition init_engine (e : engine) : option engine :=
  p ← proxy_init kEnableFixfd kFixFdArraySize kEntryLength (m_upxy e);
  Some (Engine p (m_task_queue e) 0 0 0).
Definition deinit_engine (e : engine) : engine :=
  Engine (proxy_deinit kEnableFixfd (m_upxy e)) queue_new 0 0 0.

(** ** What running coroutines does to the engine *)
Definition popped (es : list event) : list ptr :=
  omap (λ e, match e with Popped h => Some h | _ => Datatypes.None end) es.
Definition queued (es : list event) : list ptr :=
  omap (λ e, match e with Queued h => Some h | _ => Datatypes.None end) es.
Definition started (es : list event) : list ptr :=
  omap (λ e, match e with Started p => Some p | _ => Datatypes.None end) es.

Definition completed (es : list event) : list ptr :=
  omap (λ e, match e with Completed p _ => Some p | _ => Datatypes.None end) es.
Definition stop_cbs (es : list event) : list () :=
  omap (λ e, match e with StopCb => Some () | _ => Datatypes.None end) es.

Lemma popped_app e1 e2 : popped (e1 ++ e2) = popped e1 ++ popped e2.
Proof. apply omap_app. Qed.
Lemma queued_app e1 e2 : queued (e1 ++ e2) = queued e1 ++ queued e2.
Proof. apply omap_app. Qed.
Lemma started_app e1 e2 : started (e1 ++ e2) = started e1 ++ started e2.
Proof. apply omap_app. Qed.
Lemma completed_app e1 e2 : completed (e1 ++ e2) = completed e1 ++ completed e2.
Proof. apply omap_app. Qed.
Lemma stop_cbs_app e1 e2 : stop_cbs (e1 ++ e2) = stop_cbs e1 ++ stop_cbs e2.
Proof. apply omap_app. Qed.

Abbreviation ring s := (m_uring (m_upxy (egn s))).
Abbreviation tasks s := (m_task_queue (egn s)).
Abbreviation depth s := (m_max_recursive_depth (egn s)).

(** The addresses of the requests that are not complete: in the kernel, or
    completed but not among the [n] entries that are being handled. *)
Definition waiting_io (n : nat) (s : state) : list ptr :=
  inflight (ring s) ++ (user_data <$> drop n (io_uring_cq (ring s))).

(** Every request is counted; no two share an address; and each address is
    that of an awaiter without a result, and the other way round. *)
Record io_ok (n : nat) (s : state) : Prop := {
  io_count : m_num_io_wait_submit (egn s) + m_num_io_running (egn s) =
    Z.of_nat (length (inflight (ring s)) + length (io_uring_cq (ring s)));
  io_wait : 0 <= m_num_io_wait_submit (egn s);
  io_running : 0 <= m_num_io_running (egn s);
  io_nodup : NoDup (waiting_io n s);
  io_infos : ∀ p, p ∈ waiting_io n s ↔ ∃ i, infos s !! p = Some i ∧ result i = Datatypes.None;
  io_typed : ∀ p i, infos s !! p = Some i → handle i ≠ nullptr ∧ well_typed i = true;
}.

Definition outstanding (s : state) : Z :=
  Z.of_nat (length (inflight (ring s)) + length (io_uring_cq (ring s))).

Context {contents : Q → list ptr} `{!UringLaws K} `{!TaskQueueLaws Q kQueCap contents}.

Record ran (n : nat) (s : state) (es : list event) (s' : state) : Prop := {
  ran_tasks : contents (tasks s') ≡ₚ contents (tasks s) ++ queued es;
  ran_popped : popped es = [] ∧ completed es = [] ∧ stop_cbs es = [];
  ran_depth : 0 <= depth s < 2 ^ 64 → depth s' = depth s;
  ran_efd : efd_count (ring s') = efd_count (ring s) + 2 ^ 44 * Z.of_nat (length (queued es));
  ran_cq : io_uring_cq (ring s') = io_uring_cq (ring s);
  ran_running : m_num_io_running (egn s') = m_num_io_running (egn s);
  ran_io : io_ok n s → outstanding s + Z.of_nat (length (started es)) < 2 ^ 32 →
    io_ok n s' ∧ outstanding s' = outstanding s + Z.of_nat (length (started es));
}.

#[export] Instance ran_evolution n : Evolution (ran n).
Proof.
  split.
  - intros s. split; simpl; try done; try lia; [by rewrite app_nil_r|].
    intros ? _. split; [done|lia].
  - intros s1 e1 s2 e2 s3 [Ht1 Hp1 Hd1 He1 Hc1 Hr1 Hi1] [Ht2 Hp2 Hd2 He2 Hc2 Hr2 Hi2].
    split; rewrite ?popped_app, ?queued_app, ?started_app, ?completed_app, ?stop_cbs_app, ?length_app.
    + by rewrite Ht2, Ht1, <- app_assoc.
    + destruct Hp1 as (-> & -> & ->), Hp2 as (-> & -> & ->). done.
    + intros Hd. rewrite Hd2; [by apply Hd1|]. by rewrite Hd1.
    + lia.
    + congruence.
    + congruence.
    + intros Hok Hlt. destruct (Hi1 Hok) as [Hok2 Ho2]; [lia|].
      destruct (Hi2 Hok2) as [Hok3 Ho3]; [lia|]. split; [done|lia].
Qed.

(** Steps that leave the queue, the depth, the ring and the [io_info]s alone. *)
Lemma ran_same n s es s' : egn s' = egn s → infos s' = infos s →
  popped es = [] → queued es = [] → started es = [] → completed es = [] → stop_cbs es = [] → ran n s es s'.
Proof.
  intros He Hi Hp Hq Hs Hc Hb. split; rewrite ?He, ?Hp, ?Hq, ?Hs, ?Hc, ?Hb; simpl; try done; try lia; [by rewrite app_nil_r|].
  intros [H1 H2 H3 H4 H5 H6] _. unfold outstanding, waiting_io in *. rewrite He.
  split; [|lia]. split; unfold waiting_io; rewrite ?He, ?Hi; done.
Qed.

Lemma same_ring_io n s s' : m_num_io_wait_submit (egn s') = m_num_io_wait_submit (egn s) →
  m_num_io_running (egn s') = m_num_io_running (egn s) → infos s' = infos s →
  same_ring (ring s) (ring s') → io_ok n s → io_ok n s' ∧ outstanding s' = outstanding s.
Proof.
  intros Hw Hr Hi (Hf & Hc & _) [H1 H2 H3 H4 H5 H6]. unfold outstanding.
  split; [|by rewrite Hf, Hc].
  split; unfold waiting_io in *; rewrite ?Hw, ?Hr, ?Hf, ?Hc, ?Hi; done.
Qed.

Lemma set_depth_io n s d : io_ok n s → io_ok n (set_depth d s) ∧ outstanding (set_depth d s) = outstanding s.
Proof. by apply same_ring_io. Qed.

(** The three things that [submit_task] does. *)
Lemma submit_cases ex w h s a s' es : submit_task ex w h s = Ok (a, s', es) →
  (∃ q r p, try_push h (tasks s) = Some q ∧ write_eventfd task_flag (m_upxy (egn s)) = Returns r p ∧
     s' = set_upxy p (set_queue q s) ∧ es = [Queued h]) ∨
  (try_push h (tasks s) = Datatypes.None ∧ s' = s ∧ es = [Dropped h] ∧
     (w = true → Z.of_nat kMaxRecursiveDepth <= depth s)) ∨
  (try_push h (tasks s) = Datatypes.None ∧ w = true ∧ depth s < Z.of_nat kMaxRecursiveDepth ∧
     ∃ s1 e1, ex h (set_depth (u64 (depth s + 1)) s) = Ok ((), s1, e1) ∧
       s' = set_depth (u64 (depth s1 - 1)) s1 ∧ es = Inline h :: e1).
Proof.
  unfold submit_task. intros Hs. apply bind_ok in Hs as (s0 & ? & e1 & e2 & [= <- <- <-] & Hs & ->).
  case_decide as Hh; [done|]. destruct (try_push h (tasks s)) as [q|] eqn:Hq.
  - left. apply bind_ok in Hs as (? & s1 & e3 & e4 & [= <- <- <-] & Hs & ->).
    apply bind_ok in Hs as (? & s2 & e5 & e6 & [= <- <- <-] & Hs & ->).
    unfold wake_up in Hs. apply bind_ok in Hs as (? & s3 & e7 & e8 & [= <- <- <-] & Hs & ->). simpl in Hs.
    destruct (write_eventfd _ _) as [| |r p] eqn:Hw; [done..|]. injection Hs as <- <- <-. eauto 10.
  - right. destruct w; [|by injection Hs as <- <- <-; left].
    case_decide as Hd; [by injection Hs as <- <- <-; left|]. right.
    apply bind_ok in Hs as (? & s1 & e3 & e4 & [= <- <- <-] & Hs & ->).
    apply bind_ok in Hs as (? & s2 & e5 & e6 & [= <- <- <-] & Hs & ->).
    apply bind_ok in Hs as ([] & s3 & e7 & e8 & Hex & [= <- <- <-] & ->). simpl.
    split_and!; [done|done|lia|]. exists s3, e7. by rewrite app_nil_r.
Qed.

Lemma task_flag_eq : task_flag = 2 ^ 44.
Proof. done. Qed.

Lemma write_flag_ok s r p : write_eventfd task_flag (m_upxy (egn s)) = Returns r p →
  efd_count (m_uring p) = efd_count (ring s) + 2 ^ 44 ∧ same_ring (ring s) (m_uring p) ∧
  efd_count (m_uring p) <= 2 ^ 64 - 2.
Proof.
  unfold write_eventfd. pose proof (eventfd_write_ok (m_efd (m_upxy (egn s))) task_flag (ring s) ltac:(done)) as Hw.
  destruct (eventfd_write _ _ _) as [| |r' k]; [done..|]. case_decide; [done|]. intros [= <- <-]. simpl.
  rewrite task_flag_eq in Hw. destruct Hw as (-> & Hle & Hc & Hs). split_and!; [done|done|lia].
Qed.

Lemma submit_ran n ex w h : (∀ h, within (ran n) (ex h)) → within (ran n) (submit_task ex w h).
Proof.
  intros Hex s a s' es Hs. destruct (submit_cases _ _ _ _ _ _ _ Hs) as
    [(q & r & p & Hq & Hw & -> & ->)|[(Hq & -> & -> & _)|(Hq & -> & Hd & s1 & e1 & He & -> & ->)]].
  - destruct (write_flag_ok _ _ _ Hw) as (Hefd & Hring & _).
    pose proof (try_push_ok h (tasks s)) as Hp. rewrite Hq in Hp. destruct Hp as [_ Hp].
    split; simpl; try done; try lia.
    + by rewrite Hp, (Permutation_app_comm _ [h]).
    + apply Hring.
    + intros Hok Hlt. destruct (same_ring_io n s (set_upxy p (set_queue q s))) as [Hok' Ho]; try done.
      split; [done|lia].
  - by apply ran_same.
  - destruct (Hex h _ _ _ _ He) as [Ht Hpo Hdp Hefd Hcq Hrun Hio]. simpl in *. split; simpl; try done.
    + intros Hd0. rewrite Hdp by (by apply uw_range). rewrite uw_sub_l, uw_small; lia.
    + intros Hok Hlt. destruct (set_depth_io n s (u64 (depth s + 1)) Hok) as [Hok0 Ho].
      destruct (Hio Hok0) as [Hok1 Ho1]; [lia|].
      destruct (set_depth_io n s1 (u64 (depth s1 - 1)) Hok1) as [Hok2 Ho2]. split; [done|lia].
Qed.

Lemma start_io_ran n p h op : within (ran n) (start_io p h op).
Proof.
  intros s a s' es Hs. unfold start_io in Hs.
  apply bind_ok in Hs as (? & ? & ? & e2 & [= <- <- <-] & Hs & ->).
  case_decide as Hp; [|done]. destruct Hp as [Hp Hh0]. destruct (acquire_urs 1 (m_upxy (egn s))) as [[urs up]|] eqn:Ha; [|done].
  apply bind_ok in Hs as (? & ? & ? & e3 & [= <- <- <-] & Hs & ->).
  apply bind_ok in Hs as (? & ? & ? & e4 & [= <- <- <-] & [= <- <- <-] & ->).
  destruct (acquire_ok _ _ _ _ Ha) as [(Hf & Hc & He) Hh].
  destruct (fill_ok urs p op up Hh) as (Hf2 & Hc2 & He2).
  generalize dependent (fill_urs urs p op up). intros up2 Hf2 Hc2 He2. simpl.
  split; simpl; try done; try lia; try congruence; [by rewrite app_nil_r|].
  intros [H1 H2 H3 H4 H5 H6] Hlt. unfold outstanding, waiting_io in *. simpl.
  rewrite Hf2, Hc2, Hf, Hc, length_app. simpl in *.
  assert (Hn : p ∉ inflight (ring s) ++ (user_data <$> drop n (io_uring_cq (ring s)))).
  { rewrite H5. intros (i & Hi & _). congruence. }
  assert (Hperm : (inflight (ring s) ++ [p]) ++ (user_data <$> drop n (io_uring_cq (ring s))) ≡ₚ
    p :: inflight (ring s) ++ (user_data <$> drop n (io_uring_cq (ring s)))).
  { rewrite (Permutation_app_comm _ [p]). done. }
  split; [|lia]. split; unfold waiting_io; simpl; rewrite ?Hf2, ?Hc2, ?Hf, ?Hc.
  - rewrite uw_small, length_app by lia. simpl. lia.
  - apply uw_range. lia.
  - lia.
  - rewrite Hperm. by constructor.
  - intros p'. rewrite Hperm, elem_of_cons, H5. destruct (decide (p' = p)) as [->|Hne].
    + rewrite lookup_insert_eq. split; [by eauto|]. auto.
    + rewrite lookup_insert_ne by done. naive_solver.
  - intros p' i Hi. destruct (decide (p' = p)) as [->|Hne].
    + rewrite lookup_insert_eq in Hi. injection Hi as <-. split; [done|apply await_suspend_typed].
    + rewrite lookup_insert_ne in Hi by done. by eapply H6.
Qed.

Lemma end_io_ran n p : within (ran n) (end_io p).
Proof.
  intros s a s' es Hs. unfold end_io in Hs.
  apply bind_ok in Hs as (? & ? & ? & e2 & [= <- <- <-] & Hs & ->).
  destruct (infos s !! p) as [i|] eqn:Hp; [|done]. destruct (result i) as [r|] eqn:Hr; [|done].
  apply bind_ok in Hs as (? & ? & ? & e3 & [= <- <- <-] & [= <- <- <-] & ->). simpl.
  split; simpl; try done; try lia; [by rewrite app_nil_r|]. intros [H1 H2 H3 H4 H5 H6] Hlt. unfold outstanding. simpl.
  split; [|lia]. split; try done.
  - intros p'. unfold waiting_io in *. simpl. rewrite H5. destruct (decide (p' = p)) as [->|Hne].
    + rewrite lookup_delete_eq. naive_solver.
    + by rewrite lookup_delete_ne.
  - intros p' i' Hi. simpl in Hi. apply lookup_delete_Some in Hi as [_ Hi]. by eapply H6.
Qed.

Lemma do_act_ran n submit a : (∀ h, within (ran n) (submit h)) → within (ran n) (do_act submit a).
Proof.
  intros Hsub. destruct a as [h|p h op|p|m|m]; simpl.
  - apply within_bind; [exact _|done|intros; apply within_ret, _].
  - apply within_bind; [exact _|apply start_io_ran|intros; apply within_ret, _].
  - apply end_io_ran.
  - apply within_bind; [exact _|apply within_modify; intros; by apply ran_same|intros; apply within_ret, _].
  - apply within_bind; [exact _|apply within_modify; intros; by apply ran_same|intros; apply within_ret, _].
Qed.

Lemma run_co_ran n submit r : (∀ h, within (ran n) (submit h)) → within (ran n) (run_co submit r).
Proof.
  intros Hsub. induction r as [fin c|a c k IH]; simpl.
  - apply within_bind; [exact _|apply within_modify; intros; by apply ran_same|intros; apply within_ret, _].
  - apply within_bind; [exact _|apply within_modify; intros; by apply ran_same|]. intros _.
    apply within_bind; [exact _|by apply do_act_ran|]. intros x.
    apply within_get. intros s b s' es Hs. by eapply IH.
Qed.

Lemma exec_task_ran n fuel : ∀ h, within (ran n) (exec_task fuel h).
Proof.
  induction fuel as [|fuel IH]; intros h; [by intros ?|]. simpl. apply within_get.
  intros s b s' es Hs. apply bind_ok in Hs as (fin & s1 & e1 & e2 & H1 & H2 & ->).
  eapply evolves_trans.
  - eapply run_co_ran; [|exact H1]. intros. by apply submit_ran.
  - destruct fin; simpl in H2; [|eapply within_ret, H2; exact _].
    injection H2 as <- <- <-. by apply ran_same.
Qed.

(** ** The recursion of submit_task and exec_task is bounded *)
Hypothesis kMax_small : Z.of_nat kMaxRecursiveDepth < 2 ^ 64.

(** At depth [d], [fuel] nested calls are enough. *)
Definition enough (fuel : nat) (d : Z) : Prop :=
  0 <= d < 2 ^ 64 ∧ Z.of_nat kMaxRecursiveDepth - d < Z.of_nat fuel ∧ (0 < fuel)%nat.

Lemma submit_total ex w h s d :
  (∀ s h, depth s = u64 (d + 1) → d < Z.of_nat kMaxRecursiveDepth → ex h s ≠ OutOfFuel) →
  0 <= d < 2 ^ 64 → depth s = d → submit_task ex w h s ≠ OutOfFuel.
Proof.
  intros Hex Hd <- Hs. unfold submit_task in Hs.
  apply bind_out_of_fuel in Hs as [|(? & ? & ? & [= <- <- <-] & Hs)]; [done|]. case_decide; [done|].
  destruct (try_push h (tasks s)).
  - apply bind_out_of_fuel in Hs as [|(? & ? & ? & [= <- <- <-] & Hs)]; [done|].
    apply bind_out_of_fuel in Hs as [|(? & ? & ? & [= <- <- <-] & Hs)]; [done|].
    unfold wake_up in Hs. apply bind_out_of_fuel in Hs as [|(? & ? & ? & [= <- <- <-] & Hs)]; [done|].
    by destruct (write_eventfd _ _).
  - destruct w; [|done]. case_decide; [done|].
    apply bind_out_of_fuel in Hs as [|(? & ? & ? & [= <- <- <-] & Hs)]; [done|].
    apply bind_out_of_fuel in Hs as [|(? & ? & ? & [= <- <- <-] & Hs)]; [done|].
    apply bind_out_of_fuel in Hs as [Hs|(? & ? & ? & _ & ?)]; [|done].
    refine (Hex _ _ _ _ Hs); [done|lia].
Qed.

Lemma do_act_total submit a s : (∀ h, submit h s ≠ OutOfFuel) → do_act submit a s ≠ OutOfFuel.
Proof.
  intros Hsub Hs. destruct a as [h|p h op|p|m|m]; simpl in Hs;
    try (apply bind_out_of_fuel in Hs as [Hs|(? & ? & ? & _ & ?)]; [|done]; try done).
  - by eapply Hsub.
  - unfold start_io in Hs. apply bind_out_of_fuel in Hs as [|(? & ? & ? & [= <- <- <-] & Hs)]; [done|].
    case_decide; [|done]. destruct (acquire_total (m_upxy (egn s))) as (urs & up & Ha). rewrite Ha in Hs.
    apply bind_out_of_fuel in Hs as [|(? & ? & ? & [= <- <- <-] & Hs)]; [done|].
    by apply bind_out_of_fuel in Hs as [|(? & ? & ? & [= <- <- <-] & Hs)].
  - unfold end_io in Hs. apply bind_out_of_fuel in Hs as [|(? & ? & ? & [= <- <- <-] & Hs)]; [done|].
    destruct (infos s !! p) as [i|]; [|done]. destruct (result i); [|done].
    by apply bind_out_of_fuel in Hs as [|(? & ? & ? & [= <- <- <-] & Hs)].
Qed.

Lemma run_co_total d submit r : 0 <= d < 2 ^ 64 → (∀ h, within (ran 0) (submit h)) →
  (∀ h s, depth s = d → submit h s ≠ OutOfFuel) →
  ∀ s, depth s = d → run_co submit r s ≠ OutOfFuel.
Proof.
  intros Hd Hran Hsub. induction r as [fin c|a c k IH]; intros s Hs Hr; simpl in Hr.
  - by apply bind_out_of_fuel in Hr as [|(? & ? & ? & [= <- <- <-] & Hr)].
  - apply bind_out_of_fuel in Hr as [|(? & ? & ? & [= <- <- <-] & Hr)]; [done|].
    apply bind_out_of_fuel in Hr as [Hr|(x & s1 & ? & H1 & Hr)].
    + revert Hr. apply do_act_total. intros h. by apply Hsub.
    + apply bind_out_of_fuel in Hr as [|(? & ? & ? & [= <- <- <-] & Hr)]; [done|].
      apply IH in Hr; [done|]. pose proof (do_act_ran 0 submit a Hran _ _ _ _ H1) as Hra.
      rewrite (ran_depth _ _ _ _ Hra); [done|]. simpl. lia.
Qed.

Lemma exec_total fuel : ∀ h s, enough fuel (depth s) → exec_task fuel h s ≠ OutOfFuel.
Proof.
  induction fuel as [|fuel IH]; intros h s (Hd & He & Hf) Hs; [lia|]. simpl in Hs.
  apply bind_out_of_fuel in Hs as [|(? & ? & ? & [= <- <- <-] & Hs)]; [done|].
  apply bind_out_of_fuel in Hs as [Hs|(fin & ? & ? & _ & Hs)]; [|by destruct fin].
  revert Hs. apply run_co_total with (depth s); [done| |..|done].
  - intros h0. apply submit_ran. intros. apply exec_task_ran.
  - intros h0 s0 Hs0. apply submit_total with (depth s); [|done|done].
    intros s1 h1 Hs1 Hlt. apply IH. rewrite uw_small in Hs1 by lia. split_and!; lia.
Qed.

(** [exec_one_task] takes one handle out of the queue. *)
Lemma exec_one_ran n s s' es : exec_one_task s = Ok ((), s', es) →
  ∃ h q es', es = Popped h :: es' ∧ contents (tasks s) ≡ₚ h :: contents q ∧ ran n (set_queue q s) es' s'.
Proof.
  unfold exec_one_task, schedule. intros Hs. apply bind_ok in Hs as (h & s1 & e1 & e2 & Hs & He & ->).
  apply bind_ok in Hs as (? & ? & ? & e3 & [= <- <- <-] & Hs & ->).
  pose proof (pop_ok (tasks s)) as Hp. destruct (pop (tasks s)) as [[h' q]|]; [|done].
  apply bind_ok in Hs as (? & ? & ? & e4 & [= <- <- <-] & Hs & ->).
  apply bind_ok in Hs as (? & ? & ? & e5 & [= <- <- <-] & [= <- <- <-] & ->).
  exists h', q, e2. split_and!; [done|done|]. by eapply exec_task_ran in He.
Qed.

(** ** The completions of a poll *)
Lemma waiting_cons n s c : io_uring_cq (ring s) !! n = Some c →
  waiting_io n s ≡ₚ user_data c :: waiting_io (S n) s.
Proof.
  clear - UringLaws0.
  intros Hc. unfold waiting_io. rewrite (drop_S _ _ _ Hc). simpl. by rewrite Permutation_middle.
Qed.

(** A completion finds its awaiter, well typed, without a result yet. *)
Lemma completion_info n s c : io_ok n s → io_uring_cq (ring s) !! n = Some c →
  ∃ i, infos s !! user_data c = Some i ∧ result i = Datatypes.None ∧ handle i ≠ nullptr ∧ well_typed i = true.
Proof.
  clear - UringLaws0.
  intros Hok Hc. destruct (proj1 (io_infos _ _ Hok (user_data c))) as (i & Hi & Hr).
  { rewrite (waiting_cons _ _ _ Hc). by left. }
  exists i. destruct (io_typed _ _ Hok _ _ Hi). done.
Qed.

Lemma set_result_ok n s c i r : io_ok n s → io_uring_cq (ring s) !! n = Some c →
  infos s !! user_data c = Some i → result i = Datatypes.None →
  io_ok (S n) (set_infos (<[user_data c := set_result r i]> (infos s)) s).
Proof.
  clear - UringLaws0.
  intros [H1 H2 H3 H4 H5 H6] Hc Hi Hr. pose proof (waiting_cons _ _ _ Hc) as Hp.
  rewrite Hp in H4. apply NoDup_cons in H4 as [Hn H4].
  split; try done.
  - intros p. change (waiting_io (S n) (set_infos _ s)) with (waiting_io (S n) s). simpl.
    specialize (H5 p). rewrite Hp, elem_of_cons in H5. destruct (decide (p = user_data c)) as [->|Hne].
    + rewrite lookup_insert_eq. naive_solver.
    + rewrite lookup_insert_ne by done. naive_solver.
  - intros p i' Hl. simpl in Hl. apply lookup_insert_Some in Hl as [[<- <-]|[_ Hl]];
      [exact (H6 _ _ Hi)|exact (H6 _ _ Hl)].
Qed.

(** [handle_cqe_entry]: the completion's result goes to its awaiter, whose
    coroutine is then submitted. *)
Lemma handle_cqe_ran n s c i s' es : io_ok n s → io_uring_cq (ring s) !! n = Some c →
  infos s !! user_data c = Some i → result i = Datatypes.None →
  handle_cqe_entry c s = Ok ((), s', es) →
  ∃ r es', call_cb i (res c) = Some r ∧ es = Completed (user_data c) r :: es' ∧
    submit_task exec true (handle i)
      (set_infos (<[user_data c := set_result r i]> (infos s)) s) = Ok ((), s', es') ∧
    ran (S n) (set_infos (<[user_data c := set_result r i]> (infos s)) s) es' s'.
Proof.
  intros Hok Hc Hi Hr Hh. unfold handle_cqe_entry in Hh.
  apply bind_ok in Hh as (? & ? & ? & e2 & [= <- <- <-] & Hh & ->). rewrite Hi in Hh.
  destruct (call_cb i (res c)) as [r|]; [|done].
  apply bind_ok in Hh as (? & ? & ? & e3 & [= <- <- <-] & Hh & ->).
  apply bind_ok in Hh as (? & ? & ? & e4 & [= <- <- <-] & Hh & ->).
  exists r, e4. split_and!; [done|done|done|]. eapply submit_ran; [|exact Hh]. intros. apply exec_task_ran.
Qed.

Lemma do_io_submit_ran n s s' es : do_io_submit s = Ok ((), s', es) → io_ok n s → outstanding s < 2 ^ 32 →
  es = [] ∧ io_ok n s' ∧ m_num_io_wait_submit (egn s') = 0 ∧ same_io (ring s) (ring s') ∧
  tasks s' = tasks s ∧ depth s' = depth s.
Proof.
  clear - UringLaws0.
  intros Hs [H1 H2 H3 H4 H5 H6] Hlt. unfold do_io_submit in Hs. unfold outstanding in Hlt.
  apply bind_ok in Hs as (? & ? & ? & e2 & [= <- <- <-] & Hs & ->). case_decide.
  - injection Hs as <- <-. pose proof (submit_io (m_upxy (egn s))) as Hio.
    pose proof Hio as (Hf & Hc & He). split_and!; try done.
    split; unfold waiting_io in *; simpl; rewrite ?Hf, ?Hc; try done; try lia;
      [rewrite uw_small; lia|apply uw_range; lia].
  - injection Hs as <- <-. split_and!; try done. lia.
Qed.

(** The batch is everything that has completed. *)
Lemma peek_all n s l s' es : peek_cqes s = Ok (l, s', es) → io_ok n s → m_num_io_wait_submit (egn s) = 0 →
  outstanding s < 2 ^ 32 → s' = s ∧ es = [] ∧ l = io_uring_cq (ring s) ∧ (length l ≤ kQueCap)%nat.
Proof.
  clear - UringLaws0.
  intros Hs [H1 H2 H3 H4 H5 H6] Hw Hlt. unfold peek_cqes in Hs. unfold outstanding in Hlt.
  apply bind_ok in Hs as (? & ? & ? & e2 & [= <- <- <-] & Hs & ->). case_decide; [|done].
  injection Hs as <- <- <-. split_and!; try done. unfold peek_batch_cqe.
  rewrite peek_batch_ok, uw_small by lia. rewrite take_ge; [done|]. lia.
Qed.

Lemma reap_ok num s s' es : reap (Z.of_nat num) s = Ok ((), s', es) → io_ok num s → outstanding s < 2 ^ 32 →
  (num ≤ length (io_uring_cq (ring s)))%nat → m_num_io_wait_submit (egn s) + Z.of_nat num <= outstanding s →
  es = [] ∧ io_ok 0 s' ∧ io_uring_cq (ring s') = drop num (io_uring_cq (ring s)) ∧
  inflight (ring s') = inflight (ring s) ∧ efd_count (ring s') = efd_count (ring s) ∧
  tasks s' = tasks s ∧ depth s' = depth s ∧
  m_num_io_wait_submit (egn s') = m_num_io_wait_submit (egn s).
Proof.
  clear - UringLaws0.
  intros Hs [H1 H2 H3 H4 H5 H6] Hlt Hn Hrun. injection Hs as <- <-. unfold outstanding in *.
  destruct (cq_advance_rest (Z.of_nat num) (ring s)) as [Hf He].
  assert (Hc : io_uring_cq (io_uring_cq_advance (Z.of_nat num) (ring s)) = drop num (io_uring_cq (ring s))).
  { rewrite cq_advance_ok by lia. by rewrite Nat2Z.id. }
  split_and!; try done.
  assert (Hw : ∀ s1, ring s1 = io_uring_cq_advance (Z.of_nat num) (ring s) → waiting_io 0 s1 = waiting_io num s).
  { intros s1 Hs1. unfold waiting_io. rewrite Hs1, Hf, Hc. by rewrite drop_0. }
  split; simpl; try done.
  - rewrite Hf, Hc, length_drop, uw_small by lia. lia.
  - apply uw_range. lia.
  - by rewrite Hw.
  - intros p. by rewrite Hw.
Qed.
End engine.

(** ** The counter of the eventfd *)
Lemma wake_by_cqe_mod val : wake_by_cqe val = bool_decide (val mod 2 ^ 24 ≠ 0).
Proof.
  unfold wake_by_cqe. change cqe_mask with (Z.ones 24). rewrite Z.land_ones by lia.
  pose proof (Z.mod_pos_bound val (2 ^ 24) ltac:(lia)). apply bool_decide_ext. lia.
Qed.

Lemma wake_by_task_div val : wake_by_task val = bool_decide ((val / 2 ^ 44) mod 2 ^ 20 ≠ 0).
Proof.
  unfold wake_by_task. change task_mask with (Z.shiftl (Z.ones 20) 44).
  assert (Heq : Z.land val (Z.shiftl (Z.ones 20) 44) = Z.shiftl ((val / 2 ^ 44) mod 2 ^ 20) 44).
  { rewrite <- Z.land_ones, <- Z.shiftr_div_pow2 by lia. apply Z.bits_inj'. intros i Hi.
    rewrite Z.land_spec. destruct (decide (i < 44)).
    - rewrite !Z.shiftl_spec_low by lia. by rewrite andb_false_r.
    - rewrite !Z.shiftl_spec, Z.land_spec, Z.shiftr_spec by lia. by replace (i - 44 + 44) with i by lia. }
  rewrite Heq, Z.shiftl_mul_pow2 by lia.
  pose proof (Z.mod_pos_bound (val / 2 ^ 44) (2 ^ 20) ltac:(lia)). apply bool_decide_ext. lia.
Qed.

Lemma wake_by_io_mod val : wake_by_io val = bool_decide ((val / 2 ^ 24) mod 2 ^ 20 ≠ 0).
Proof.
  unfold wake_by_io. change io_mask with (Z.shiftl (Z.ones 20) 24).
  assert (Heq : Z.land val (Z.shiftl (Z.ones 20) 24) = Z.shiftl ((val / 2 ^ 24) mod 2 ^ 20) 24).
  { rewrite <- Z.land_ones, <- Z.shiftr_div_pow2 by lia. apply Z.bits_inj'. intros i Hi.
    rewrite Z.land_spec. destruct (decide (i < 24)).
    - rewrite !Z.shiftl_spec_low by lia. by rewrite andb_false_r.
    - rewrite !Z.shiftl_spec, Z.land_spec, Z.shiftr_spec by lia. by replace (i - 24 + 24) with i by lia. }
  rewrite Heq, Z.shiftl_mul_pow2 by lia.
  pose proof (Z.mod_pos_bound (val / 2 ^ 24) (2 ^ 20) ltac:(lia)). apply bool_decide_ext. lia.
Qed.

(** ** Properties *)

(** C13: [submit_task] of a handle, on every branch: with room it queues the
    handle and raises the eventfd (and sleeps in the write when the counter
    would overflow); with a full queue it runs the handle at once when the
    thread is a working one and the recursion is not too deep, and drops it
    otherwise. *)
Theorem submit_task_spec {K Q C} `{UringLaws K} `{TaskQueueLaws Q kQueCap contents} kMax
    (ex : ptr → prog (state (K:=K) (Q:=Q) (C:=C)) event ()) w h s : h ≠ nullptr →
  match try_push h (m_task_queue (egn s)) with
  | Some q =>
      contents q ≡ₚ h :: contents (m_task_queue (egn s)) ∧
      if decide (efd_count (m_uring (m_upxy (egn s))) + 2 ^ 44 <= 2 ^ 64 - 2) then
        ∃ p, submit_task kMax ex w h s = Ok ((), set_upxy p (set_queue q s), [Queued h]) ∧
          efd_count (m_uring p) = efd_count (m_uring (m_upxy (egn s))) + 2 ^ 44
      else submit_task kMax ex w h s = Blocked
  | None =>
      (kQueCap ≤ length (contents (m_task_queue (egn s))))%nat ∧
      if w && bool_decide (m_max_recursive_depth (egn s) < Z.of_nat kMax) then
        ∀ s1 es, ex h (set_depth (u64 (m_max_recursive_depth (egn s) + 1)) s) = Ok ((), s1, es) →
          submit_task kMax ex w h s =
            Ok ((), set_depth (u64 (m_max_recursive_depth (egn s1) - 1)) s1, Inline h :: es)
      else submit_task kMax ex w h s = Ok ((), s, [Dropped h])
  end.
Proof.
  intros Hh. pose proof (try_push_ok h (m_task_queue (egn s))) as Hp.
  unfold submit_task, mbind, prog_bind, get. rewrite decide_False by done.
  destruct (try_push h (m_task_queue (egn s))) as [q|].
  - destruct Hp as [_ Hp]. split; [done|]. simpl. unfold wake_up, mbind, prog_bind, get. simpl.
    unfold write_eventfd.
    pose proof (eventfd_write_ok (m_efd (m_upxy (egn s))) task_flag (m_uring (m_upxy (egn s))) ltac:(done)) as Hw.
    rewrite task_flag_eq in *. destruct (eventfd_write _ _ _) as [| |r k]; [|done|].
    + by rewrite decide_False by lia.
    + destruct Hw as (-> & Hle & Hc & _). rewrite decide_True by lia. rewrite decide_False by done.
      by eexists.
  - split; [done|]. destruct w; [|done]. simpl. case_bool_decide.
    + rewrite decide_False by lia. intros s1 es He. simpl. rewrite He. simpl. by rewrite app_nil_r.
    + by rewrite decide_True by lia.
Qed.

(** C14: running a coroutine comes back, whatever the coroutines it runs submit
    to a full queue: [exec_task] and [submit_task] call each other at most
    [kMaxRecursiveDepth] deep, and leave the depth as it was. *)
Theorem exec_returns {K Q C} `{UringLaws K} `{TaskQueueLaws Q kQueCap contents} kMax
    (resume : ptr → C → co_run) h (s : state (K:=K) (Q:=Q)) :
  Z.of_nat kMax < 2 ^ 64 → 0 <= m_max_recursive_depth (egn s) < 2 ^ 64 →
  exec kMax resume h s ≠ OutOfFuel ∧
  ∀ s' es, exec kMax resume h s = Ok ((), s', es) →
    m_max_recursive_depth (egn s') = m_max_recursive_depth (egn s).
Proof.
  intros Hk Hd. split.
  - apply (exec_total kQueCap kMax resume (contents:=contents)); [done|]. unfold enough, max_stack. lia.
  - intros s1 es He. by apply (ran_depth _ _ _ _ (exec_task_ran kQueCap kMax resume (contents:=contents) 0 _ _ _ _ _ _ He)).
Qed.

(** the counter of the eventfd keeps the wake-ups apart: after fewer than
    2^20 submitted tasks and fewer than 2^24 completions it says exactly which
    of the two happened. *)
Theorem wake_up_masks a b : 0 <= a < 2 ^ 20 → 0 <= b < 2 ^ 24 →
  wake_by_task (a * task_flag + b) = bool_decide (0 < a) ∧
  wake_by_cqe (a * task_flag + b) = bool_decide (0 < b) ∧
  wake_by_io (a * task_flag + b) = false.
Proof.
  intros Ha Hb. rewrite task_flag_eq, wake_by_cqe_mod, wake_by_task_div, wake_by_io_mod.
  assert (H1 : (a * 2 ^ 44 + b) / 2 ^ 44 = a).
  { rewrite Z.add_comm, Z.div_add by lia. rewrite Z.div_small by lia. lia. }
  assert (H2 : (a * 2 ^ 44 + b) mod 2 ^ 24 = b).
  { replace (a * 2 ^ 44) with (a * 2 ^ 20 * 2 ^ 24) by lia. rewrite Z.add_comm, Z_mod_plus_full, Z.mod_small by lia. done. }
  assert (H3 : ((a * 2 ^ 44 + b) / 2 ^ 24) mod 2 ^ 20 = 0).
  { replace (a * 2 ^ 44) with (a * 2 ^ 20 * 2 ^ 24) by lia. rewrite Z.add_comm, Z.div_add by lia.
    rewrite (Z.div_small b) by lia. rewrite Z.add_0_l. by apply Z_mod_mult. }
  rewrite H1, H2, H3, Z.mod_small by lia. split_and!; [apply bool_decide_ext; lia|apply bool_decide_ext; lia|done].
Qed.

(** C25: [m_urc] has [kQueCap] places, but nothing limits the requests in flight
    to that: when more completions than that are ready, [poll_submit] lets
    [io_uring_peek_batch_cqe] write past the end of the array. *)
Theorem poll_submit_overflows {K Q C} `{UringLaws K} `{TaskQueue Q} kQueCap kMax
    (resume : ptr → C → co_run) (s : state (K:=K) (Q:=Q)) :
  io_ok 0 s → outstanding s < 2 ^ 32 → wake_by_cqe (efd_count (m_uring (m_upxy (egn s)))) = true →
  (kQueCap < length (io_uring_cq (m_uring (m_upxy (egn s)))))%nat →
  poll_submit kQueCap kMax resume s = Fault.
Proof.
  intros Hok Hlt Hwake Hcq. unfold poll_submit. unfold mbind at 1, prog_bind at 1.
  destruct (do_io_submit s) as [[[[] s1] e1]| | |] eqn:Hd.
  2-4: unfold do_io_submit, mbind, prog_bind, get in Hd; by case_decide.
  destruct (do_io_submit_ran 0 s s1 e1 Hd Hok Hlt) as (-> & Hok1 & Hw1 & (Hf & Hc & He) & _).
  unfold mbind at 1, prog_bind at 1. unfold wait_eventfd, UringProxy.wait_eventfd, mbind, prog_bind, get.
  pose proof (eventfd_read_ok (m_efd (m_upxy (egn s1))) (m_uring (m_upxy (egn s1)))) as Hr.
  destruct (eventfd_read _ _) as [| |u k]; [rewrite <- He, Hr in Hwake; done|done|].
  destruct Hr as (-> & Hne & Hk & Hf2 & Hc2 & _). simpl. rewrite He, Hwake.
  unfold peek_cqes, peek_batch_cqe, get, mbind, prog_bind. simpl. rewrite peek_batch_ok, Hc2, Hc.
  destruct Hok1 as [Hcnt _ Hrun _ _ _]. unfold outstanding in Hlt. rewrite Hf, Hc, Hw1 in Hcnt.
  rewrite uw_small by lia. rewrite take_ge by lia. rewrite decide_False by lia. done.
Qed.

(** What [co_await]ing an awaiter gives when the kernel's result is [r]. *)
Definition awaited (op : io_op) (r : Z) : Z :=
  match op with
  | ConnectAwaiter fd _ _ => if decide (r = 0) then fd else r
  | TimerAwaiter _ _ _ => if decide (r = - ETIME) then 0 else r
  | _ => r
  end.
(** A connect's descriptor is an [int]. *)
Definition is_int_fd (op : io_op) : Prop :=
  match op with ConnectAwaiter fd _ _ => - 2 ^ 31 <= fd < 2 ^ 31 | _ => True end.

Lemma cb_awaited h op r : is_int_fd op → call_cb (await_suspend h op) r = Some (awaited op r).
Proof.
  destruct op; try done. unfold is_int_fd, awaited, call_cb, connect_callback. cbn.
  intros Hfd. destruct (decide (r = 0)) as [->|Hr]; [|by rewrite decide_True]. rewrite decide_False by lia. f_equal.
  unfold sw, uw.
  replace ((sockfd mod 2 ^ 64 + 2 ^ (32 - 1)) mod 2 ^ 32) with ((sockfd + 2 ^ (32 - 1)) mod 2 ^ 32).
  - rewrite Z.mod_small by lia. lia.
  - rewrite <- (Zplus_mod_idemp_l (sockfd mod 2 ^ 64)), <- (Zplus_mod_idemp_l sockfd). f_equal. f_equal.
    symmetry. apply Z.mod_mod_divide. by exists (2 ^ 32).
Qed.

(** C15: an I/O operation comes back to the coroutine that began it: once its
    awaiter is constructed, whatever happens until its completion is handled,
    the handling stores the result in the awaiter ([s4]), so that its
    [await_resume], whenever it comes, gives the kernel's result (a connect
    gives the descriptor connected, a timer that expired 0), and then submits
    that coroutine: with room in the queue it is queued; with a full queue it
    is run at once, from a state in which its result is stored, unless the
    recursion is at its limit: then it is dropped, and nothing else happens. *)
Theorem io_roundtrip {K Q C} `{UringLaws K} `{TaskQueueLaws Q kQueCap contents} kMax
    (resume : ptr → C → co_run) p h op r (s s1 s2 s3 : state (K:=K) (Q:=Q) (C:=C)) es es' :
  is_int_fd op → start_io p h op s = Ok ((), s1, es) → infos s2 !! p = infos s1 !! p →
  handle_cqe_entry kMax resume (Cqe p r) s2 = Ok ((), s3, es') →
  let room := (length (contents (m_task_queue (egn s2))) < kQueCap)%nat in
  let depth := m_max_recursive_depth (egn s2) in
  ∃ s4 es4, es' = Completed p (awaited op r) :: es4 ∧ egn s4 = egn s2 ∧
    (∀ t : state (K:=K) (Q:=Q) (C:=C), infos t !! p = infos s4 !! p →
      end_io p t = Ok (awaited op r, set_infos (delete p (infos t)) t, [])) ∧
    (room ∧ es4 = [Queued h] ∧ contents (m_task_queue (egn s3)) ≡ₚ h :: contents (m_task_queue (egn s2)) ∧
       end_io p s3 = Ok (awaited op r, set_infos (delete p (infos s2)) s3, []) ∨
     ¬ room ∧ depth < Z.of_nat kMax ∧ (∃ s5 es5, es4 = Inline h :: es5 ∧
       exec kMax resume h (set_depth (u64 (depth + 1)) s4) = Ok ((), s5, es5) ∧
       s3 = set_depth (u64 (m_max_recursive_depth (egn s5) - 1)) s5) ∨
     ¬ room ∧ Z.of_nat kMax <= depth ∧ es4 = [Dropped h] ∧ s3 = s4).
Proof.
  intros Hfd Hst Hp Hh room depth. unfold start_io in Hst.
  apply bind_ok in Hst as (? & ? & ? & e2 & [= <- <- <-] & Hst & ->). case_decide as Hfree; [|done].
  destruct (acquire_urs 1 (m_upxy (egn s))) as [[urs up]|]; [|done].
  apply bind_ok in Hst as (? & ? & ? & e3 & [= <- <- <-] & Hst & ->).
  apply bind_ok in Hst as (? & ? & ? & e4 & [= <- <- <-] & [= <- <-] & ->).
  simpl in Hp. rewrite lookup_insert_eq in Hp. unfold handle_cqe_entry in Hh.
  apply bind_ok in Hh as (? & ? & ? & e5 & [= <- <- <-] & Hh & ->). cbn [user_data res] in Hh.
  rewrite Hp, cb_awaited in Hh by done.
  apply bind_ok in Hh as (? & ? & ? & e6 & [= <- <- <-] & Hh & ->).
  apply bind_ok in Hh as (? & ? & ? & e7 & [= <- <- <-] & Hh & ->).
  set (s4 := set_infos (<[p := set_result (awaited op r) (await_suspend h op)]> (infos s2)) s2) in *.
  assert (Hend : ∀ t : state (K:=K) (Q:=Q) (C:=C), infos t !! p = infos s4 !! p →
    end_io p t = Ok (awaited op r, set_infos (delete p (infos t)) t, [])).
  { intros t Ht. unfold end_io, mbind, prog_bind, get. rewrite Ht. unfold s4. simpl. by rewrite lookup_insert_eq. }
  pose proof (try_push_ok h (m_task_queue (egn s2))) as Ht. exists s4, e7. split; [done|]. split; [done|]. split; [exact Hend|].
  destruct (submit_cases kMax _ _ _ _ _ _ _ Hh) as
    [(q & ? & up2 & Hq & _ & -> & ->)|[(Hf & -> & -> & Hd)|(Hf & _ & Hd & s5 & e5 & He & -> & ->)]].
  - left. simpl in Hq. rewrite Hq in Ht. destruct Ht as [Hroom Hc]. split_and!; [exact Hroom|done|exact Hc|].
    rewrite Hend by done. simpl. by rewrite delete_insert_eq.
  - right. right. simpl in Hf. rewrite Hf in Ht. split_and!; [unfold room; lia|by apply Hd|done|done].
  - right. left. simpl in Hf. rewrite Hf in Ht. split_and!; [unfold room; lia|done|]. by exists s5, e5.
Qed.

(** ** Witnesses *)
Definition demo_state (q : list ptr) (k : sim) (running depth : Z) (i : gmap ptr io_info) : state (C:=()) :=
  State (Engine (UringProxy.UringProxy 3 [] (MarkedBuffer.MarkedBuffer [] []) k) q 0 running depth) 0 i ().

(** Every coroutine submits the next two, up to 8. *)
Definition demo_resume (h : ptr) (c : ()) : co_run :=
  if decide (h < 4) then Do (Submit (2 * h)) c (λ c _, Do (Submit (2 * h + 1)) c (λ c _, Stop true c))
  else Stop true c.

Lemma submit_task_spec_witness : ∃ p,
  submit_task (H0 := list_queue 2) 3 (exec (H0 := list_queue 2) 3 demo_resume) true 7 (demo_state [5] sim0 0 0 ∅) =
    Ok ((), set_upxy p (set_queue [5; 7] (demo_state [5] sim0 0 0 ∅)), [Queued 7]).
Proof.
  pose proof (submit_task_spec (H2 := list_queue_laws 2) 3 (exec (H0 := list_queue 2) 3 demo_resume) true 7
    (demo_state [5] sim0 0 0 ∅) (ltac:(discriminate) : 7 ≠ nullptr)) as [_ Hs]. simpl in Hs.
  destruct Hs as (p & Hs & _). by exists p.
Defined.

Lemma exec_returns_witness :
  exec (H0 := list_queue 1) 3 demo_resume 1 (demo_state [] sim0 0 0 ∅) ≠ OutOfFuel ∧
  ∀ s' es, exec (H0 := list_queue 1) 3 demo_resume 1 (demo_state [] sim0 0 0 ∅) = Ok ((), s', es) →
    m_max_recursive_depth (egn s') = 0.
Proof. apply (exec_returns (H2 := list_queue_laws 1) 3 demo_resume 1 (demo_state [] sim0 0 0 ∅)); simpl; lia. Defined.

Lemma wake_up_masks_witness : wake_by_cqe (5 * task_flag + 0) = false ∧ wake_by_task (5 * task_flag + 0) = true.
Proof. destruct (wake_up_masks 5 0) as (H1 & H2 & _); [lia|lia|]. split; [exact H2|exact H1]. Defined.

(** Two completed requests for an engine with one place. *)
Definition overflow_state : state := demo_state []
  (Sim [] [Cqe 100 0; Cqe 101 0] 2 2 1 3 1000 None []) 2 0
  {[ 100 := await_suspend 7 NoopAwaiter; 101 := await_suspend 8 NoopAwaiter ]}.

Lemma overflow_state_ok : io_ok 0 overflow_state.
Proof.
  split; simpl; try lia.
  - unfold waiting_io. simpl. repeat constructor; set_solver.
  - intros p. unfold waiting_io. simpl. split.
    + intros [-> | [-> | []%elem_of_nil]%elem_of_cons]%elem_of_cons; by eexists.
    + intros (i & Hi & _). apply lookup_insert_Some in Hi as [[<- _]|[_ Hi]]; [by left|].
      apply lookup_singleton_Some in Hi as [<- _]. right. by left.
  - intros p i Hi. apply lookup_insert_Some in Hi as [[<- <-]|[_ Hi]]; [done|].
    by apply lookup_singleton_Some in Hi as [<- <-].
Qed.

Lemma poll_submit_overflows_witness :
  poll_submit (H0 := list_queue 4) 1 3 demo_resume overflow_state = Fault.
Proof.
  apply (poll_submit_overflows (H1 := list_queue 4) 1 3 demo_resume overflow_state overflow_state_ok).
  - by vm_compute.
  - by vm_compute.
  - simpl. lia.
Defined.

(** A connect of the socket 7, from construction to completion. *)
Definition connecting : outcome (() * state (K:=sim) (Q:=list ptr) (C:=()) * list event) :=
  start_io 300 9 (ConnectAwaiter 7 800 16) (demo_state [] sim0 0 0 ∅).
Lemma io_roundtrip_witness : ∃ s1 es s3 es', connecting = Ok ((), s1, es) ∧
  handle_cqe_entry (H0 := list_queue 4) 3 demo_resume (Cqe 300 0) s1 = Ok ((), s3, es') ∧
  es' = [Completed 300 7; Queued 9] ∧
  end_io 300 s3 = Ok (7, set_infos (delete 300 (infos s1)) s3, []).
Proof.
  destruct connecting as [[[[] s1] es]| | |] eqn:Hc; [|by vm_compute in Hc..].
  destruct (handle_cqe_entry (H0 := list_queue 4) 3 demo_resume (Cqe 300 0) s1) as [[[[] s3] es']| | |] eqn:Hh;
    [|by vm_compute in Hc; injection Hc as <- <-; vm_compute in Hh..].
  exists s1, es, s3, es'. split; [done|]. split; [done|].
  destruct (io_roundtrip (H2 := list_queue_laws 4) 3 demo_resume 300 9 (ConnectAwaiter 7 800 16) 0
    (demo_state [] sim0 0 0 ∅) s1 s1 s3 es es') as (s4 & es4 & He & _ & _ & Hcases); [done|exact Hc|done|exact Hh|].
  destruct Hcases as [(_ & He4 & _ & Hend)|Hfull].
  - split; [rewrite He, He4; done|exact Hend].
  - exfalso. vm_compute in Hc. injection Hc as <- <-. simpl in Hfull. lia.
Defined.
