(* ===== verification/Context.v ===== *)
(** * coro::context (include/coro/context.hpp, src/context.cpp)

    The worker thread of a context, [run] with the engine's functions, next to
    other threads that submit tasks or ask it to stop and to a kernel that
    completes requests, as a machine. *)
From S2P Require Import Prelude Effects Uring UringProxy IoAwaiter Engine.
Local Open Scope Z_scope.
Local Open Scope coro_scope.

Section context.
Context {K Q C : Type} `{Uring K} `{TaskQueue Q}.
Context (kEnableFixfd : bool) (kQueCap kMaxRecursiveDepth : nat).
(** The entries of the completion ring; what coroutines do. *)
Context (kCqEntries : nat) (resume : ptr → C → co_run (C:=C)).
(** A scheduler has set [m_stop_cb]; if none has, [start] does. *)
Context (has_stop_cb : bool).

Abbreviation state := (Engine.state (K:=K) (Q:=Q) (C:=C)).

(** Where the worker thread is. *)
Inductive pc :=
  | Top                               (* while (!token.stop_requested()) *)
  | Work (n : nat)                    (* process_work: [n] tasks to go *)
  | CheckIdle                         (* empty_wait_task, ready *)
  | Poll                              (* poll_submit: do_io_submit *)
  | Wait                              (* wait_eventfd *)
  | Reap (cnt : Z)                    (* peek_batch_cqe *)
  | Handle (num : nat) (l : list cqe) (* handle_cqe_entry of the rest [l] of [num] *)
  | Stopped.                          (* deinit *)

Record context := Ctx {
  core : state;
  at_pc : pc;
  stop_requested : bool;
  owed : nat;                         (* wake_ups that other threads have to do *)
}.

Inductive label :=
  | Run                               (* the worker's next step *)
  | Push (working : bool) (h : ptr)   (* submit_task by another thread, up to its wake_up *)
  | NotifyStop                        (* notify_stop, up to its wake_up *)
  | WakeUp
  | Complete (p : ptr) (r : Z).       (* the kernel *)
#[export] Instance label_eq_dec : EqDecision label.
Proof. solve_decision. Defined.

(** [empty_wait_task] *)
Definition empty_wait_task (s : state) : bool :=
  bool_decide (m_num_wait_task s = 0) && empty_io (egn s).

(** A step of the worker: an engine function, then on to [k]. *)
Definition work {A} (m : prog state event A) (k : A → pc) (s : context) : option (context * list event) :=
  match m (core s) with
  | Ok (a, c, es) => Some (Ctx c (k a) (stop_requested s) (owed s), es)
  | _ => None
  end.

Definition goto (p : pc) (s : context) : context := Ctx (core s) p (stop_requested s) (owed s).

(** [m_stop_cb()]; the default one requests the stop, a scheduler's is in
    [Scheduler.v]. *)
Definition stop_cb (s : context) : context :=
  Ctx (core s) (at_pc s) (if has_stop_cb then stop_requested s else true) (owed s).

Definition run (s : context) : option (context * list event) :=
  match at_pc s with
  | Top =>
      if stop_requested s then
        Some (Ctx (set_engine (deinit_engine kEnableFixfd (egn (core s))) (core s)) Stopped true (owed s), [])
      else Some (goto (Work (num_task_schedule (egn (core s)))) s, [])
  | Work (S n) => work (exec_one_task kMaxRecursiveDepth resume) (λ _, Work n) s
  | Work O => Some (goto CheckIdle s, [])
  | CheckIdle =>
      if empty_wait_task (core s) then
        if ready (egn (core s)) then Some (goto Top s, [])
        else Some (goto Poll (stop_cb s), [StopCb])
      else Some (goto Poll s, [])
  | Poll => work do_io_submit (λ _, Wait) s
  | Wait => work Engine.wait_eventfd (λ cnt, Reap cnt) s
  | Reap cnt =>
      if wake_by_cqe cnt then
        work (peek_cqes kQueCap) (λ l, if decide (l = []) then Top else Handle (length l) l) s
      else Some (goto Top s, [])
  | Handle num (c :: l) => work (handle_cqe_entry kMaxRecursiveDepth resume c) (λ _, Handle num l) s
  | Handle num [] => work (reap (Z.of_nat num)) (λ _, Top) s
  | Stopped => None
  end.

(** [submit_task] by another thread; the coroutine it runs itself when the
    queue is full runs on that thread. *)
Definition push (working : bool) (h : ptr) (s : context) : option (context * list event) :=
  if decide (h = nullptr) then None else
  match try_push h (m_task_queue (egn (core s))) with
  | Some q => Some (Ctx (set_queue q (core s)) (at_pc s) (stop_requested s) (S (owed s)), [Queued h])
  | None =>
      Some (s, [if working && bool_decide (m_max_recursive_depth (egn (core s)) < Z.of_nat kMaxRecursiveDepth)
                then Elsewhere h else Dropped h])
  end.

Definition step (l : label) (s : context) : option (context * list event) :=
  match l with
  | Run => run s
  | Push working h => push working h s
  | NotifyStop => Some (Ctx (core s) (at_pc s) true (S (owed s)), [])
  | WakeUp =>
      match owed s with
      | O => None
      | S n =>
          match wake_up task_flag (core s) with
          | Ok (_, c, es) => Some (Ctx c (at_pc s) (stop_requested s) n, es)
          | _ => None
          end
      end
  | Complete p r =>
      if decide (length (io_uring_cq (m_uring (m_upxy (egn (core s))))) < kCqEntries)%nat then
        k ← kernel_complete p r (m_uring (m_upxy (egn (core s))));
        Some (Ctx (set_upxy (set_uring k (m_upxy (egn (core s)))) (core s)) (at_pc s) (stop_requested s) (owed s), [])
      else None
  end.

Abbreviation ring s := (m_uring (m_upxy (egn (core s)))).
Abbreviation tasks s := (m_task_queue (egn (core s))).

(** After [engine::init]: nothing queued, nothing in flight, and the counters
    as [init] left them. *)
Record fresh (s : context) : Prop := {
  fresh_pc : at_pc s = Top ∧ stop_requested s = false ∧ owed s = 0%nat;
  fresh_queue : m_task_queue (egn (core s)) = queue_new;
  fresh_counts : m_num_io_wait_submit (egn (core s)) = 0 ∧ m_num_io_running (egn (core s)) = 0 ∧
    m_max_recursive_depth (egn (core s)) = 0 ∧ m_num_wait_task (core s) = 0;
  fresh_ring : inflight (ring s) = [] ∧ io_uring_cq (ring s) = [] ∧ efd_count (ring s) = 0;
  fresh_infos : infos (core s) = ∅;
}.

Definition context_machine : machine context label event := Machine fresh step.

(** ** The invariant *)
Context {contents : Q → list ptr} `{!UringLaws K} `{!TaskQueueLaws Q kQueCap contents}.
(** The ring is small enough for the mask of the completions. *)
Context (entries_small : 2 * Z.of_nat kCqEntries < 2 ^ 24).

(** Queued tasks that this round of [run] will not come to, and the
    completions that have been handled. *)
Definition extra (s : context) : nat :=
  match at_pc s with
  | Work n => length (contents (tasks s)) - n
  | CheckIdle | Poll | Wait => length (contents (tasks s))
  | _ => 0
  end.
Definition handled (s : context) : nat :=
  match at_pc s with Handle num l => num - length l | _ => 0 end.

(** How the [b] signals in the eventfd speak of [m] completions in the ring. *)
Definition signalled (p : pc) (m b : Z) : Prop :=
  match p with
  | Reap cnt => b <= m ∧ ∃ a' b', cnt = 2 ^ 44 * a' + b' ∧ 0 <= a' ∧ 0 <= b' <= 2 * Z.of_nat kCqEntries ∧ m <= b + b'
  | Handle num _ => m - Z.of_nat num <= b <= m
  | _ => m <= b <= m + Z.of_nat kCqEntries
  end.

Definition cq_length (s : context) : Z := Z.of_nat (length (io_uring_cq (ring s))).

Record live (s : context) (tr : list event) : Prop := {
  l_tasks : contents (tasks s) ++ popped tr ≡ₚ queued tr;
  l_depth : m_max_recursive_depth (egn (core s)) = 0;
  l_batch : ∀ n, at_pc s = Work n → (n ≤ length (contents (tasks s)))%nat;
  l_io : io_ok (handled s) (core s);
  l_out : outstanding (core s) <= Z.of_nat (length (started tr)) ∧
    outstanding (core s) + Z.of_nat (length (completed tr)) =
      Z.of_nat (length (started tr)) + Z.of_nat (handled s);
  l_wait0 : at_pc s = Wait ∨ (∃ cnt, at_pc s = Reap cnt) → m_num_io_wait_submit (egn (core s)) = 0;
  l_handle : ∀ num l, at_pc s = Handle num l →
    l = drop (handled s) (take num (io_uring_cq (ring s))) ∧ (num ≤ length (io_uring_cq (ring s)))%nat ∧
    (length l ≤ num)%nat ∧ Z.of_nat num <= m_num_io_running (egn (core s));
  l_cq : cq_length s <= Z.of_nat kCqEntries;
  l_efd : ∃ a b, efd_count (ring s) = 2 ^ 44 * a + b ∧ 0 <= a ∧ 0 <= b ∧
    Z.of_nat (extra s) <= a + Z.of_nat (owed s) ∧ signalled (at_pc s) (cq_length s) b;
}.

Lemma live_fresh s : fresh s → live s [].
Proof.
  intros [(Hpc & _ & Ho) Hq (Hw & Hr & Hd & _) (Hf & Hc & He) Hi].
  assert (Hco : contents (tasks s) = []) by (rewrite Hq; apply queue_new_ok).
  split; unfold extra, handled, cq_length, outstanding; rewrite ?Hco, ?Hpc, ?Hf, ?Hc, ?He; simpl; try done; try lia.
  - split; unfold waiting_io; rewrite ?Hw, ?Hr, ?Hf, ?Hc, ?Hi; simpl; try done.
    + constructor.
    + intros p. rewrite lookup_empty. split; [by intros ?%elem_of_nil|naive_solver].
  - exists 0, 0. split_and!; try done; lia.
Qed.

(** A step of the worker that leaves the core alone. *)
Lemma live_goto s tr p stop : live s tr → at_pc s ≠ Stopped →
  let s' := Ctx (core s) p stop (owed s) in
  (∀ n, p = Work n → (n ≤ length (contents (tasks s)))%nat) →
  handled s' = handled s → (extra s' ≤ extra s)%nat →
  (∀ num l, p ≠ Handle num l) → (p = Wait ∨ (∃ cnt, p = Reap cnt) → m_num_io_wait_submit (egn (core s)) = 0) →
  (∀ b, 0 <= b → signalled (at_pc s) (cq_length s) b → signalled p (cq_length s) b) →
  live s' tr.
Proof.
  intros [H1 H2 H3 H4 H5 H6 H7 H8 (a & b & He & Ha & Hb & Hx & Hsig)] _ s' Hbat Hh Hex Hnh Hw0 Hs.
  split; simpl; try done.
  - by rewrite Hh.
  - by rewrite Hh.
  - intros num l ->. by destruct (Hnh num l).
  - exists a, b. split_and!; try done; [lia|by apply Hs].
Qed.

(** ... and one in which coroutines ran. *)
Lemma live_ran s tr c p stop es es0 : live s tr → ran (contents:=contents) (handled s) (core s) es c →
  Z.of_nat (length (started (tr ++ es0 ++ es))) < 2 ^ 32 → popped es0 = [] → queued es0 = [] → started es0 = [] →
  completed es0 = [] →
  let s' := Ctx c p stop (owed s) in
  handled s' = handled s →
  (∀ n, p = Work n → (n ≤ length (contents (tasks s)))%nat) →
  (extra s' ≤ extra s + length (queued es))%nat →
  (p = Wait ∨ (∃ cnt, p = Reap cnt) → m_num_io_wait_submit (egn c) = 0) →
  (∀ num l, p = Handle num l → at_pc s = Handle num l) →
  (∀ b, 0 <= b → signalled (at_pc s) (cq_length s) b → signalled p (cq_length s) b) →
  live s' (tr ++ es0 ++ es).
Proof.
  intros [H1 H2 H3 H4 H5 H6 H7 H8 (a & b & He & Ha & Hb & Hx & Hsig)] [R1 R2 R3 R4 R5 R6 R7]
    Hlt Hp0 Hq0 Hs0 Hc0 s' Hh Hbat Hex Hw0 Hha Hs.
  rewrite !started_app, Hs0, length_app in Hlt. simpl in Hlt.
  destruct R7 as [Hok Hout]; [done|lia|].
  assert (Hcq : cq_length s' = cq_length s) by (unfold cq_length; simpl; by rewrite R5).
  split; simpl.
  - rewrite R1, !popped_app, !queued_app, Hp0, Hq0, (proj1 R2), !app_nil_r, <- H1. simpl.
    rewrite <- !app_assoc. by rewrite (Permutation_app_comm (queued es)).
  - rewrite R3; [done|]. lia.
  - intros n Hn. rewrite R1, length_app. specialize (Hbat n Hn). lia.
  - by rewrite Hh.
  - rewrite Hh, !started_app, !completed_app, Hs0, Hc0, (proj1 (proj2 R2)), !length_app. simpl. lia.
  - done.
  - intros num l Hp. rewrite Hh, R5, R6. apply H7. by apply Hha.
  - by rewrite Hcq.
  - exists (a + Z.of_nat (length (queued es))), b. rewrite R4, He, Hcq.
    split_and!; try lia. by apply Hs.
Qed.

Lemma work_ok {A} (m : prog state event A) k s s' es : work m k s = Some (s', es) →
  ∃ a c, m (core s) = Ok (a, c, es) ∧ s' = Ctx c (k a) (stop_requested s) (owed s).
Proof.
  unfold work. destruct (m (core s)) as [[[a c] e]| | |]; try done. intros [= <- <-]. eauto.
Qed.

Lemma live_work n s tr s' es : live s tr → at_pc s = Work (S n) →
  Z.of_nat (length (started (tr ++ es))) < 2 ^ 32 →
  work (exec_one_task kMaxRecursiveDepth resume) (λ _, Work n) s = Some (s', es) → live s' (tr ++ es).
Proof.
  intros Hl Hpc Hlt Hw. apply work_ok in Hw as ([] & c & Hx & ->).
  apply (exec_one_ran kQueCap _ _ (contents:=contents) 0) in Hx as (h & q & es' & -> & Hq & Hran).
  set (s1 := Ctx (set_queue q (core s)) (Work n) (stop_requested s) (owed s)).
  assert (Hl1 : live s1 (tr ++ [Popped h])).
  { destruct Hl as [H1 H2 H3 H4 H5 H6 H7 H8 (a & b & He & Ha & Hb & Hxx & Hsig)].
    specialize (H3 _ Hpc). rewrite Hq in H3. unfold handled in H4. rewrite Hpc in H4, Hsig.
    unfold extra in Hxx. rewrite Hpc, Hq in Hxx. simpl in *.
    split; unfold extra, handled; simpl; try done.
    - rewrite popped_app, queued_app. simpl. rewrite app_nil_r, <- H1, Hq. simpl.
      rewrite (Permutation_app_comm (popped tr)). simpl. by rewrite Permutation_middle.
    - intros m [= <-]. lia.
    - by destruct H4.
    - rewrite started_app, completed_app. simpl. rewrite !app_nil_r. unfold handled in H5. by rewrite Hpc in H5.
    - intros [?|[? ?]]; done.
    - change (cq_length s1) with (cq_length s). exists a, b. split_and!; try done; lia. }
  rewrite (app_assoc tr [Popped h] es' : tr ++ Popped h :: es' = _) in *.
  pose proof (live_ran s1 _ c (Work n) (stop_requested s) es' [] Hl1) as Hgo. simpl in Hgo.
  apply Hgo; try done; unfold extra, handled; simpl.
  - intros m [= <-]. by apply (l_batch _ _ Hl1).
  - pose proof (ran_tasks _ _ _ _ Hran) as Ht. simpl in Ht. rewrite Ht, length_app. lia.
  - intros [?|[? ?]]; done.
Qed.

Lemma live_handle num c0 l s tr s' es : live s tr → at_pc s = Handle num (c0 :: l) →
  Z.of_nat (length (started (tr ++ es))) < 2 ^ 32 →
  work (handle_cqe_entry kMaxRecursiveDepth resume c0) (λ _, Handle num l) s = Some (s', es) → live s' (tr ++ es).
Proof.
  intros Hl Hpc Hlt Hw. apply work_ok in Hw as ([] & c & Hx & ->).
  destruct (l_handle _ _ Hl _ _ Hpc) as (Hd & Hnum & Hll & Hrun). simpl in Hll.
  assert (Hhd : handled s = (num - S (length l))%nat) by (unfold handled; by rewrite Hpc).
  assert (Hc0 : io_uring_cq (ring s) !! handled s = Some c0).
  { rewrite <- (lookup_take_lt _ num) by lia. rewrite <- (Nat.add_0_r (handled s)), <- lookup_drop, <- Hd. done. }
  pose proof (l_io _ _ Hl) as Hio. destruct (completion_info _ _ _ Hio Hc0) as (i & Hi & Hh & _).
  destruct (handle_cqe_ran kQueCap _ _ (contents:=contents) _ _ _ _ _ _ Hio Hc0 Hi Hh Hx) as (r & es' & _ & -> & _ & Hran).
  set (c1 := set_infos _ (core s)) in Hran.
  set (s1 := Ctx c1 (Handle num l) (stop_requested s) (owed s)).
  assert (Hh1 : handled s1 = S (handled s)) by (unfold handled; rewrite Hpc; simpl; lia).
  assert (Hl1 : live s1 (tr ++ [Completed (user_data c0) r])).
  { destruct Hl as [H1 H2 H3 H4 H5 H6 H7 H8 (a & b & He & Ha & Hb & Hxx & Hsig)].
    rewrite Hpc in Hsig. split; rewrite ?Hh1; simpl; try done.
    - rewrite popped_app, queued_app. simpl. by rewrite !app_nil_r.
    - by apply set_result_ok.
    - rewrite started_app, completed_app, !length_app. change (outstanding c1) with (outstanding (core s)). simpl. lia.
    - intros [?|[? ?]]; done.
    - intros num' l' [= <- <-]. split_and!; try done; [|lia].
      change l with (drop 1 (c0 :: l)) at 1. rewrite Hd, drop_drop. by rewrite Nat.add_1_r.
    - exists a, b. change (cq_length s1) with (cq_length s). unfold extra. simpl in *. split_and!; try done; lia. }
  rewrite (app_assoc tr [_] es' : tr ++ Completed _ _ :: es' = _) in *.
  pose proof (live_ran s1 _ c (Handle num l) (stop_requested s) es' [] Hl1) as Hgo. simpl in Hgo.
  apply Hgo; try done; unfold extra; simpl.
  - by rewrite Hh1.
  - lia.
  - intros [?|[? ?]]; done.
Qed.

Lemma live_poll s tr s' es : live s tr → at_pc s = Poll → Z.of_nat (length (started tr)) < 2 ^ 32 →
  work do_io_submit (λ _, Wait) s = Some (s', es) → live s' (tr ++ es).
Proof.
  intros Hl Hpc Hlt Hw. apply work_ok in Hw as ([] & c & Hx & ->).
  destruct Hl as [H1 H2 H3 H4 H5 H6 H7 H8 (a & b & He & Ha & Hb & Hxx & Hsig)].
  unfold handled, extra in *. rewrite Hpc in *.
  destruct (do_io_submit_ran 0 _ _ _ Hx H4) as (-> & Hio & Hw0 & (Hf & Hc & Hefd) & Hq & Hd); [lia|].
  rewrite app_nil_r. split; unfold extra, handled, cq_length, outstanding in *; simpl in *; rewrite ?Hq, ?Hd, ?Hc, ?Hf; try done.
  exists a, b. by rewrite Hefd.
Qed.

Lemma live_wait s tr s' es : live s tr → at_pc s = Wait →
  work Engine.wait_eventfd (λ cnt, Reap cnt) s = Some (s', es) → live s' (tr ++ es).
Proof.
  intros Hl Hpc Hw. apply work_ok in Hw as (cnt & c & Hx & ->).
  destruct Hl as [H1 H2 H3 H4 H5 H6 H7 H8 (a & b & He & Ha & Hb & Hxx & Hsig)].
  unfold handled, extra in *. rewrite Hpc in *. simpl in Hsig.
  unfold Engine.wait_eventfd in Hx. apply bind_ok in Hx as (? & ? & ? & e2 & [= <- <- <-] & Hx & ->).
  unfold UringProxy.wait_eventfd in Hx.
  pose proof (eventfd_read_ok (m_efd (m_upxy (egn (core s)))) (ring s)) as Hr.
  destruct (eventfd_read _ _) as [| |u k]; [done..|].
  apply bind_ok in Hx as (? & ? & ? & e3 & [= <- <- <-] & [= <- <- <-] & ->).
  destruct Hr as (-> & Hne & Hz & Hring). pose proof Hring as (Hf & Hc & _).
  destruct (same_ring_io 0 (core s) (set_upxy (set_uring k (m_upxy (egn (core s)))) (core s))) as [Hio Ho]; try done.
  rewrite app_nil_r. split; unfold extra, handled, cq_length in *; simpl in *; rewrite ?Ho, ?Hc; try done.
  - intros _. by apply H6; left.
  - exists 0, 0. rewrite Hz. split_and!; try lia. exists a, b. split_and!; lia.
Qed.

(** The mask of the completions misses none of them. *)
Lemma wake_by_cqe_count a b : 0 <= b < 2 ^ 24 → wake_by_cqe (2 ^ 44 * a + b) = bool_decide (b ≠ 0).
Proof.
  intros Hb. rewrite wake_by_cqe_mod. replace (2 ^ 44 * a) with (a * 2 ^ 20 * 2 ^ 24) by lia.
  by rewrite Z.add_comm, Z_mod_plus_full, Z.mod_small.
Qed.

Lemma live_no_cqe cnt s tr : live s tr → at_pc s = Reap cnt → wake_by_cqe cnt = false → live (goto Top s) tr.
Proof.
  intros Hl Hpc Hw. apply live_goto with (s := s); try done.
  - congruence.
  - unfold handled. simpl. by rewrite Hpc.
  - unfold extra. simpl. lia.
  - by intros [?|[? ?]].
  - intros b Hb Hs. rewrite Hpc in Hs. destruct Hs as (Hb1 & a' & b' & -> & Ha' & Hb' & Hm).
    rewrite wake_by_cqe_count in Hw by lia. apply bool_decide_eq_false in Hw. simpl. lia.
Qed.

Lemma live_peek cnt s tr s' es : live s tr → at_pc s = Reap cnt → Z.of_nat (length (started tr)) < 2 ^ 32 →
  work (peek_cqes kQueCap) (λ l, if decide (l = []) then Top else Handle (length l) l) s = Some (s', es) →
  live s' (tr ++ es).
Proof.
  intros Hl Hpc Hlt Hw. apply work_ok in Hw as (l & c & Hx & ->).
  destruct Hl as [H1 H2 H3 H4 H5 H6 H7 H8 (a & b & He & Ha & Hb & Hxx & Hsig)].
  unfold handled, extra in *. rewrite Hpc in *. destruct Hsig as (Hb1 & a' & b' & -> & Ha' & Hb' & Hm).
  assert (Hw0 : m_num_io_wait_submit (egn (core s)) = 0) by (apply H6; eauto).
  apply (peek_all _ 0) in Hx as (-> & -> & -> & Hcap); [|done|done|lia]. rewrite app_nil_r.
  pose proof (io_count _ _ H4) as Hcount. unfold cq_length in *.
  case_decide as Hnil.
  - rewrite Hnil in *. simpl in *. split; unfold extra, handled, cq_length; simpl; rewrite ?Hnil; simpl; try done; try lia.
    exists a, b. split_and!; try done; lia.
  - split; unfold extra, handled, cq_length; simpl; try done.
    + by rewrite Nat.sub_diag.
    + by rewrite Nat.sub_diag.
    + intros num l [= <- <-]. rewrite Nat.sub_diag, firstn_all. split_and!; [done|lia|lia|]. lia.
    + exists a, b. split_and!; try done; lia.
Qed.

Lemma live_reap num s tr s' es : live s tr → at_pc s = Handle num [] → Z.of_nat (length (started tr)) < 2 ^ 32 →
  work (reap (Z.of_nat num)) (λ _, Top) s = Some (s', es) → live s' (tr ++ es).
Proof.
  intros Hl Hpc Hlt Hw. apply work_ok in Hw as ([] & c & Hx & ->).
  destruct Hl as [H1 H2 H3 H4 H5 H6 H7 H8 (a & b & He & Ha & Hb & Hxx & Hsig)].
  destruct (H7 _ _ Hpc) as (_ & Hnum & _ & Hrun).
  unfold handled, extra in *. rewrite Hpc in *. simpl in *. rewrite Nat.sub_0_r in H4.
  pose proof (io_count _ _ H4) as Hcount. fold (outstanding (core s)) in Hcount.
  apply reap_ok in Hx as (-> & Hio & Hc & Hf & Hefd & Hq & Hd & Hw0); try done; try lia.
  rewrite app_nil_r. split; unfold extra, handled, cq_length, outstanding in *; simpl in *;
    rewrite ?Hq, ?Hd, ?Hc, ?Hf, ?length_drop; try done; try lia.
  - by intros [?|[? ?]].
  - exists a, b. rewrite Hefd. split_and!; try done; lia.
Qed.

Lemma live_run s tr s' es : live s tr → at_pc s ≠ Stopped →
  Z.of_nat (length (started (tr ++ es))) < 2 ^ 32 → run s = Some (s', es) →
  at_pc s' = Stopped ∨ live s' (tr ++ es).
Proof.
  intros Hl Hns Hlt Hr. unfold run in Hr.
  assert (Hltr : Z.of_nat (length (started tr)) < 2 ^ 32) by (rewrite started_app, length_app in Hlt; lia).
  assert (Hgo : ∀ p stop, (p = CheckIdle ∧ at_pc s = Work 0) ∨ (at_pc s = CheckIdle ∧ (p = Top ∨ p = Poll)) →
    live (Ctx (core s) p stop (owed s)) tr).
  { intros p stop Hp. apply live_goto with (s := s); try done; unfold handled, extra; simpl;
      destruct Hp as [[-> Hp]|[Hp [-> | ->]]]; try rewrite Hp; simpl; try done; try lia; by intros [?|[? ?]]. }
  destruct (at_pc s) as [|[|n]| | | |cnt|num [|c0 l]|] eqn:Hpc; [..|done].
  - destruct (stop_requested s); [by simplify_eq; left|]. right. injection Hr as <- <-.
    rewrite app_nil_r. apply live_goto with (s := s); try done; unfold handled, extra, num_task_schedule; simpl.
    + by rewrite Hpc.
    + intros n [= <-]. by rewrite (was_size_ok (contents:=contents)).
    + by rewrite Hpc.
    + rewrite (was_size_ok (contents:=contents)). lia.
    + by intros [?|[? ?]].
    + by rewrite Hpc.
  - right. injection Hr as <- <-. rewrite app_nil_r. apply Hgo. auto.
  - right. by eapply live_work.
  - right. destruct (empty_wait_task (core s)); [destruct (ready (egn (core s)))|];
      injection Hr as <- <-; rewrite ?app_nil_r.
    + apply Hgo. auto.
    + assert (Hl1 : live (goto Poll (stop_cb s)) tr) by (apply Hgo; auto).
      destruct Hl1 as [H1 H2 H3 H4 H5 H6 H7 H8 H9].
      split; rewrite ?popped_app, ?queued_app, ?started_app, ?completed_app; simpl; rewrite ?app_nil_r; done.
    + apply Hgo. auto.
  - right. by eapply live_poll.
  - right. by eapply live_wait.
  - right. destruct (wake_by_cqe cnt) eqn:Hw; [by eapply live_peek|]. injection Hr as <- <-.
    rewrite app_nil_r. by eapply live_no_cqe.
  - right. by eapply live_reap.
  - right. by eapply live_handle.
Qed.

Lemma live_push w h s tr s' es : live s tr → push w h s = Some (s', es) → live s' (tr ++ es).
Proof.
  intros [H1 H2 H3 H4 H5 H6 H7 H8 (a & b & He & Ha & Hb & Hxx & Hsig)] Hp. unfold push in Hp.
  case_decide; [done|]. pose proof (try_push_ok h (tasks s)) as Hq.
  destruct (try_push h (tasks s)) as [q|]; injection Hp as <- <-.
  - destruct Hq as [_ Hq]. destruct (same_ring_io (handled s) (core s) (set_queue q (core s))) as [Hio Ho]; try done.
    split; rewrite ?popped_app, ?queued_app, ?started_app, ?completed_app; simpl; rewrite ?app_nil_r; try done.
    + rewrite Hq, <- H1. simpl. by rewrite <- Permutation_cons_append.
    + intros n Hn. rewrite Hq. simpl. specialize (H3 n Hn). lia.
    + exists a, b. split_and!; try done. unfold extra in *. simpl.
      assert (Hlen : length (contents q) = S (length (contents (tasks s)))) by by rewrite Hq.
      rewrite Hlen. destruct (at_pc s); lia.
  - assert (Hev : ∀ e, popped [e] = [] → queued [e] = [] → started [e] = [] → completed [e] = [] → live s (tr ++ [e])).
    { intros e Hpe Hqe Hse Hce. split; try done.
      - by rewrite popped_app, queued_app, Hpe, Hqe, !app_nil_r.
      - by rewrite started_app, completed_app, Hse, Hce, !app_nil_r.
      - exists a, b. done. }
    case_match; by apply Hev.
Qed.

Lemma live_wake_up n s tr c es : live s tr → owed s = S n → wake_up task_flag (core s) = Ok ((), c, es) →
  live (Ctx c (at_pc s) (stop_requested s) n) (tr ++ es).
Proof.
  intros [H1 H2 H3 H4 H5 H6 H7 H8 (a & b & He & Ha & Hb & Hxx & Hsig)] Hn Hw. unfold wake_up in Hw.
  apply bind_ok in Hw as (? & ? & ? & e2 & [= <- <- <-] & Hw & ->).
  destruct (write_eventfd _ _) as [| |r p] eqn:Hwr; [done..|]. injection Hw as <- <-.
  destruct (write_flag_ok _ _ _ Hwr) as (Hefd & Hring & _). pose proof Hring as (Hf & Hc & _).
  destruct (same_ring_io (handled s) (core s) (set_upxy p (core s))) as [Hio Ho]; try done.
  rewrite app_nil_r. unfold extra, handled, cq_length in *.
  split; unfold extra, handled, cq_length; simpl in *; rewrite ?Ho, ?Hc; try done.
  exists (a + 1), b. rewrite Hefd. split_and!; try done; lia.
Qed.

Lemma live_complete p r k s tr : live s tr → cq_length s < Z.of_nat kCqEntries →
  kernel_complete p r (ring s) = Some k →
  live (Ctx (set_upxy (set_uring k (m_upxy (egn (core s)))) (core s)) (at_pc s) (stop_requested s) (owed s)) tr.
Proof.
  intros [H1 H2 H3 H4 H5 H6 H7 H8 (a & b & He & Ha & Hb & Hxx & Hsig)] Hlt Hk.
  destruct (complete_ok _ _ _ _ Hk) as ((l1 & l2 & Hf & Hf') & Hc & Hefd).
  assert (Hle : (handled s ≤ length (io_uring_cq (ring s)))%nat).
  { unfold handled. destruct (at_pc s) eqn:Hpc; try lia. destruct (H7 _ _ eq_refl) as (_ & ? & _). lia. }
  set (s1 := Ctx _ _ _ _). assert (Hh : handled s1 = handled s) by done.
  assert (Hw : waiting_io (handled s) (core s1) ≡ₚ waiting_io (handled s) (core s)).
  { unfold waiting_io. simpl. rewrite Hf, Hf', Hc, drop_app_le, fmap_app by done. simpl. solve_Permutation. }
  assert (Hlen : (length (inflight k) + length (io_uring_cq k) =
    length (inflight (ring s)) + length (io_uring_cq (ring s)))%nat).
  { rewrite Hf, Hf', Hc, !length_app. simpl. lia. }
  unfold cq_length in *. split; rewrite ?Hh; try done.
  - destruct H4 as [G1 G2 G3 G4 G5 G6]. split; rewrite ?Hw; try done.
    + simpl. by rewrite Hlen.
    + intros q. by rewrite Hw.
  - unfold outstanding in *. simpl. by rewrite Hlen.
  - intros num l Hp. destruct (H7 _ _ Hp) as (Hl & Hn & Hll & Hrun). simpl. rewrite Hc, length_app.
    rewrite take_app_le by done. split_and!; try done. lia.
  - unfold cq_length. simpl. rewrite Hc, length_app. simpl. lia.
  - exists a, (b + 1). simpl. rewrite Hefd. unfold cq_length. simpl. rewrite Hc, length_app. simpl.
    split_and!; try done; try lia. destruct (at_pc s); simpl in *; try lia.
    destruct Hsig as (? & a' & b' & -> & ? & ? & ?). split; [lia|]. exists a', b'. split_and!; lia.
Qed.

(** Stopped contexts stay so; the others keep the invariant. *)
Lemma stopped_step l s s' es : at_pc s = Stopped → step l s = Some (s', es) → at_pc s' = Stopped.
Proof.
  intros Hpc Hst. destruct l as [|w h| | |p r]; simpl in Hst.
  - unfold run in Hst. by rewrite Hpc in Hst.
  - unfold push in Hst. case_decide; [done|]. by case_match; simplify_eq/=.
  - by simplify_eq/=.
  - destruct (owed s); [done|]. destruct (wake_up _ _) as [[[? ?] ?]| | |]; by simplify_eq/=.
  - case_decide; [|done]. destruct (kernel_complete _ _ _); by simplify_eq/=.
Qed.

Lemma live_step l s tr s' es : at_pc s = Stopped ∨ live s tr →
  Z.of_nat (length (started (tr ++ es))) < 2 ^ 32 → step l s = Some (s', es) →
  at_pc s' = Stopped ∨ live s' (tr ++ es).
Proof.
  intros Hs Hlt Hst. assert (at_pc s = Stopped ∨ at_pc s ≠ Stopped) as [Hpc|Hpc] by (destruct (at_pc s); auto).
  { left. by eapply stopped_step. }
  destruct Hs as [?|Hl]; [done|]. destruct l as [|w h| | |p r]; simpl in Hst.
  - by eapply live_run.
  - right. by eapply live_push.
  - right. injection Hst as <- <-. rewrite app_nil_r. destruct Hl as [H1 H2 H3 H4 H5 H6 H7 H8 (a & b & He & Ha & Hb & Hxx & Hsig)].
    split; try done. exists a, b. split_and!; try done. unfold extra in *. simpl. lia.
  - right. destruct (owed s) as [|n] eqn:Hn; [done|].
    destruct (wake_up _ _) as [[[[] c] e]| | |] eqn:Hw; [|done..]. injection Hst as <- <-. by eapply live_wake_up.
  - right. case_decide; [|done]. destruct (kernel_complete _ _ _) as [k|] eqn:Hk; [|done]. injection Hst as <- <-.
    rewrite app_nil_r. apply live_complete with p r; [done| |done]. unfold cq_length. lia.
Qed.

Lemma live_reach s tr : reach context_machine s tr → Z.of_nat (length (started tr)) < 2 ^ 32 →
  at_pc s = Stopped ∨ live s tr.
Proof.
  intros Hr. revert s tr Hr. apply (reach_inv_tr context_machine
    (λ s tr, Z.of_nat (length (started tr)) < 2 ^ 32 → at_pc s = Stopped ∨ live s tr)).
  - intros s Hf _. right. by apply live_fresh.
  - intros s tr l s' es IH Hs Hlt. eapply live_step; [apply IH|done|exact Hs].
    rewrite started_app, length_app in Hlt. lia.
Qed.

(** The completion about to be handled has its awaiter. *)
Lemma live_handles s tr num c l : live s tr → at_pc s = Handle num (c :: l) →
  ∃ i, infos (core s) !! user_data c = Some i ∧ result i = None ∧ handle i ≠ nullptr ∧ well_typed i = true.
Proof.
  intros Hl Hp. destruct (l_handle _ _ Hl _ _ Hp) as (Hd & Hn & Hll & _).
  apply (completion_info (handled s)); [apply Hl|].
  assert (Hlt : (handled s < num)%nat) by (unfold handled; rewrite Hp; simpl in *; lia).
  rewrite <- (lookup_take_lt _ num) by done.
  rewrite <- (Nat.add_0_r (handled s)), <- lookup_drop, <- Hd. done.
Qed.

(** A live worker about to sleep, with no wake-up on the way. *)
Lemma live_asleep s tr : live s tr → at_pc s = Wait → efd_count (ring s) = 0 → owed s = 0%nat →
  contents (tasks s) = [] ∧ io_uring_cq (ring s) = [].
Proof.
  intros Hl Hpc Hefd Ho. destruct (l_efd _ _ Hl) as (a & b & He & Ha & Hb & Hx & Hs). unfold extra, cq_length in *.
  rewrite Hpc in *. simpl in Hs. rewrite Ho in Hx. split; apply length_zero_iff_nil; lia.
Qed.
End context.

(** ** Properties *)

(** C1: no lost wake-up: when the worker is about to read the eventfd and would
    sleep, and no other thread still has a wake-up to do, then no task is queued
    and no completion waits in the ring, in every interleaving. *)
Theorem context_never_sleeps_on_work {K Q C} `{UringLaws K} `{TaskQueueLaws Q kQueCap contents}
    fixfd kMax kCqEntries (resume : ptr → C → co_run) has_cb s tr :
  2 * Z.of_nat kCqEntries < 2 ^ 24 →
  reach (context_machine fixfd kQueCap kMax kCqEntries resume has_cb) s tr →
  Z.of_nat (length (started tr)) < 2 ^ 32 →
  at_pc s = Wait → efd_count (m_uring (m_upxy (egn (core s)))) = 0 → owed s = 0%nat →
  contents (m_task_queue (egn (core s))) = [] ∧ io_uring_cq (m_uring (m_upxy (egn (core s)))) = [].
Proof.
  intros Hsmall Hr Hlt Hpc Hefd Ho.
  destruct (live_reach fixfd kQueCap kMax kCqEntries resume has_cb (contents:=contents) Hsmall _ _ Hr Hlt) as [?|Hl]; [congruence|].
  by apply (live_asleep kCqEntries s tr).
Qed.

(** C4: I/O is accounted for: in every interleaving the two counters add up to
    the requests in flight and the completions in the ring; an awaiter waits for
    its result exactly while its request is in flight or its completion has not
    been handled; and each completion that is handled finds its awaiter, alive,
    without a result yet, with a coroutine to resume. *)
Theorem context_io_exact {K Q C} `{UringLaws K} `{TaskQueueLaws Q kQueCap contents}
    fixfd kMax kCqEntries (resume : ptr → C → co_run) has_cb s tr :
  2 * Z.of_nat kCqEntries < 2 ^ 24 →
  reach (context_machine fixfd kQueCap kMax kCqEntries resume has_cb) s tr →
  Z.of_nat (length (started tr)) < 2 ^ 32 → at_pc s ≠ Stopped →
  let k := m_uring (m_upxy (egn (core s))) in
  m_num_io_wait_submit (egn (core s)) + m_num_io_running (egn (core s)) =
    Z.of_nat (length (inflight k) + length (io_uring_cq k)) ∧
  (∀ p, p ∈ inflight k ++ (user_data <$> drop (handled s) (io_uring_cq k)) ↔
     ∃ i, infos (core s) !! p = Some i ∧ result i = None) ∧
  ∀ num c l, at_pc s = Handle num (c :: l) →
    ∃ i, infos (core s) !! user_data c = Some i ∧ result i = None ∧ handle i ≠ nullptr.
Proof.
  intros Hsmall Hr Hlt Hpc k.
  destruct (live_reach fixfd kQueCap kMax kCqEntries resume has_cb (contents:=contents) Hsmall _ _ Hr Hlt) as [?|Hl]; [done|].
  pose proof (l_io _ _ _ Hl) as Hio. split_and!; [apply Hio|apply Hio|].
  intros num c l Hp. destruct (live_handles kCqEntries s tr num c l Hl Hp) as (i & ? & ? & ? & _). eauto.
Qed.

(** C16: the [io_info]s are well typed: in every reachable state the tag, the
    callback and the datum of each of them belong together, so that every
    completion about to be handled finds a callback that stores a result
    without reading what its awaiter's constructor left uninitialised (only a
    connect's callback reads [data], and only its constructor sets it). *)
Theorem context_infos_typed {K Q C} `{UringLaws K} `{TaskQueueLaws Q kQueCap contents}
    fixfd kMax kCqEntries (resume : ptr → C → co_run) has_cb s tr :
  2 * Z.of_nat kCqEntries < 2 ^ 24 →
  reach (context_machine fixfd kQueCap kMax kCqEntries resume has_cb) s tr →
  Z.of_nat (length (started tr)) < 2 ^ 32 → at_pc s ≠ Stopped →
  (∀ p i, infos (core s) !! p = Some i → well_typed i = true) ∧
  ∀ num c l, at_pc s = Handle num (c :: l) →
    ∃ i r, infos (core s) !! user_data c = Some i ∧ call_cb i (res c) = Some r.
Proof.
  intros Hsmall Hr Hlt Hpc.
  destruct (live_reach fixfd kQueCap kMax kCqEntries resume has_cb (contents:=contents) Hsmall _ _ Hr Hlt) as [?|Hl]; [done|].
  split; [intros p i Hi; by destruct (io_typed _ _ (l_io _ _ _ Hl) _ _ Hi)|].
  intros num c l Hp. destruct (live_handles kCqEntries s tr num c l Hl Hp) as (i & Hi & _ & _ & Ht).
  destruct (well_typed_calls i (res c) Ht) as [r Hc]. eauto.
Qed.

(** C11: no task is lost or run twice: what was queued is, as a multiset, what
    was taken out to run and what is still queued; and [process_work] never
    pops from an empty queue (which would spin for ever). *)
Theorem context_tasks_once {K Q C} `{UringLaws K} `{TaskQueueLaws Q kQueCap contents}
    fixfd kMax kCqEntries (resume : ptr → C → co_run) has_cb s tr :
  2 * Z.of_nat kCqEntries < 2 ^ 24 →
  reach (context_machine fixfd kQueCap kMax kCqEntries resume has_cb) s tr →
  Z.of_nat (length (started tr)) < 2 ^ 32 → at_pc s ≠ Stopped →
  contents (m_task_queue (egn (core s))) ++ popped tr ≡ₚ queued tr ∧
  ∀ n, at_pc s = Work (S n) → is_Some (pop (m_task_queue (egn (core s)))).
Proof.
  intros Hsmall Hr Hlt Hpc.
  destruct (live_reach fixfd kQueCap kMax kCqEntries resume has_cb (contents:=contents) Hsmall _ _ Hr Hlt) as [?|Hl]; [done|].
  split; [apply Hl|]. intros n Hn. pose proof (l_batch _ _ _ Hl _ Hn) as Hb.
  pose proof (pop_ok (m_task_queue (egn (core s)))) as Hp. destruct (pop _) as [x|]; [done|].
  rewrite Hp in Hb. simpl in Hb. lia.
Qed.

(** [notify_stop] stops a context that sleeps: whatever it waits for, its
    worker leaves the loop in three steps. *)
Theorem notify_stop_ends {K Q C} `{UringLaws K} `{TaskQueue Q} fixfd kQueCap kMax kCqEntries
    (resume : ptr → C → co_run) has_cb s :
  at_pc s = Wait → efd_count (m_uring (m_upxy (egn (core s)))) = 0 → owed s = 0%nat →
  ∃ s', Prelude.exec (context_machine fixfd kQueCap kMax kCqEntries resume has_cb)
          [NotifyStop; WakeUp; Run; Run; Run] s = Some (s', []) ∧ at_pc s' = Stopped.
Proof.
  intros Hpc Hefd Ho.
  assert (Hw : ∃ p, wake_up task_flag (core s) = Ok ((), set_upxy p (core s), []) ∧ efd_count (m_uring p) = 2 ^ 44).
  { unfold wake_up, mbind, prog_bind, get, write_eventfd. simpl.
    pose proof (eventfd_write_ok (m_efd (m_upxy (egn (core s)))) task_flag (m_uring (m_upxy (egn (core s)))) ltac:(done)) as Hw.
    rewrite Hefd, task_flag_eq in *. destruct (eventfd_write _ _ _) as [| |r k]; [lia|done|].
    destruct Hw as (-> & _ & Hc & _). rewrite decide_False by done. eexists. split; [done|]. simpl. lia. }
  destruct Hw as (p & Hw & Hp).
  pose proof (eventfd_read_ok (m_efd p) (m_uring p)) as Hrd.
  destruct (eventfd_read (m_efd p) (m_uring p)) as [| |u k] eqn:Hread; [lia|done|].
  destruct Hrd as (Hu & _). rewrite Hp in Hu. subst u.
  assert (Hr : run fixfd kQueCap kMax resume has_cb (Ctx (set_upxy p (core s)) Wait true 0) =
    Some (Ctx (set_upxy (set_uring k p) (core s)) (Reap (2 ^ 44)) true 0, [])).
  { unfold run, work, Engine.wait_eventfd, UringProxy.wait_eventfd, mbind, prog_bind, get.
    cbn [at_pc core set_upxy egn m_upxy]. by rewrite Hread. }
  cbn [Prelude.exec m_step context_machine step owed core at_pc stop_requested]. rewrite Ho, Hw, Hpc, Hr.
  eexists. split; reflexivity.
Qed.

(** *** A context on the simulated ring and a queue in order *)
Definition sim_context {C} (q : list ptr) (k : sim) (c : C) : context (K:=sim) :=
  Ctx (State (Engine (UringProxy.UringProxy 3 [] (MarkedBuffer.MarkedBuffer [] []) k) q 0 0 0) 0 ∅ c) Top false 0.

Lemma sim_context_fresh {C} cap (c : C) : fresh (H0 := list_queue cap) (sim_context [] sim0 c).
Proof. split; done. Qed.

(** A coroutine that waits to be submitted again (for a mutex, say), and is
    then done; [c] says whether it has been resumed before. *)
Definition waiter (h : ptr) (c : bool) : co_run :=
  if c then Do (UnregisterWait 1) c (λ c _, Stop true c)
  else Do (RegisterWait 1) true (λ c _, Stop false c).

(** The coroutine waits, another thread submits it again, it finishes. *)
Definition default_stop : list label :=
  [Push true 7; WakeUp; Run; Run; Run; Run; Run; Run; Run; Run; Run; Run; Run;
   Push true 7; WakeUp; Run; Run; Run; Run; Run; Run; Run].

(** without a scheduler, [start] makes the stop callback ask the context's
    own thread to stop, and nobody wakes it for that: when the last coroutine
    was submitted by another thread, [run] calls the callback, goes on to read
    the eventfd and sleeps, with nothing queued, nothing waiting and nothing in
    flight. The thread never ends, nor does [join]. *)
Theorem default_stop_sleeps :
  ∃ s tr, Prelude.exec (context_machine (H0 := list_queue 4) true 4 4 8 waiter false) default_stop
      (sim_context [] sim0 false) = Some (s, tr) ∧
    tr = [Queued 7; Popped 7; Queued 7; Popped 7; Cleaned 7; StopCb] ∧
    at_pc s = Wait ∧ stop_requested s = true ∧
    m_task_queue (egn (core s)) = [] ∧ empty_wait_task (core s) = true ∧
    step (H0 := list_queue 4) true 4 4 8 waiter false Run s = None ∧
    step (H0 := list_queue 4) true 4 4 8 waiter false WakeUp s = None ∧
    ∀ p r, step (H0 := list_queue 4) true 4 4 8 waiter false (Complete p r) s = None.
Proof.
  eexists _, _. split; [vm_compute; reflexivity|]. split_and!; try reflexivity.
Qed.

(** A coroutine that submits the next one and is done. *)
Definition spawner (h : ptr) (c : ()) : co_run := Do (Submit (h + 1)) c (λ c _, Stop true c).

(** The context before the [n]th of them runs. *)
Definition spawned (n : N) : context := sim_context [Z.of_N n] (sim_set_efd (n * 2 ^ 44) sim0) ().
Definition spawn_round : list label := [Run; Run; Run; Run].

Lemma spawn_step cap has_cb n : (0 < cap)%nat → (0 < n)%N → (n + 1 < 2 ^ 20)%N →
  Prelude.exec (context_machine (H0 := list_queue cap) true cap 4 8 spawner has_cb) spawn_round (spawned n) =
    Some (spawned (n + 1), [Popped (Z.of_N n); Queued (Z.of_N n + 1); Cleaned (Z.of_N n)]).
Proof.
  intros Hcap Hn0 Hn. unfold spawned.
  assert (Hx : exec_one_task (H0 := list_queue cap) 4 spawner (core (spawned n)) =
    Ok ((), core (spawned (n + 1)), [Popped (Z.of_N n); Queued (Z.of_N n + 1); Cleaned (Z.of_N n)])).
  { assert (Hsub : ∀ ex, submit_task (H0 := list_queue cap) 4 ex true (Z.of_N n + 1)
        (core (sim_context [] (sim_set_efd (n * 2 ^ 44) sim0) ())) =
      Ok ((), core (spawned (n + 1)), [Queued (Z.of_N n + 1)])).
    { intros ex. unfold submit_task, wake_up, write_eventfd. cbv [mbind prog_bind get put emit]. cbn -[Z.add Z.pow N.pow].
      rewrite decide_False by (unfold nullptr; lia). rewrite decide_True by done. cbn -[Z.add Z.pow N.pow].
      rewrite decide_False by (rewrite task_flag_eq; lia). cbn -[Z.add Z.pow N.pow].
      unfold spawned, sim_context. cbn -[Z.add Z.pow N.pow]. unfold sim_set_efd. cbn -[Z.add Z.pow N.pow].
      rewrite task_flag_eq. change (Z.to_N (2 ^ 44)) with (2 ^ 44)%N.
      replace (n * 2 ^ 44 + 2 ^ 44)%N with ((n + 1) * 2 ^ 44)%N by lia.
      by replace (Z.of_N n + 1) with (Z.of_N (n + 1)) by lia. }
    unfold exec_one_task, schedule, exec, max_stack. cbn [exec_task].
    cbv [mbind prog_bind get put emit mret prog_ret modify run_co do_act spawner when].
    cbn [spawned sim_context core egn m_task_queue pop list_queue frames set_queue set_frames].
    match goal with |- context [submit_task _ ?ex _ _ ?s] =>
      change (submit_task 4 ex true (Z.of_N n + 1) s) with
        (submit_task (H0 := list_queue cap) 4 ex true (Z.of_N n + 1)
          (core (sim_context [] (sim_set_efd (n * 2 ^ 44) sim0) ()))) end.
    by rewrite Hsub. }
  set (M := context_machine _ _ _ _ _ _).
  eapply (exec_cons M Run _ _ (Ctx (core (spawned n)) (Work 1) false 0) []); [done| |done].
  eapply (exec_cons M Run _ _ (Ctx (core (spawned (n + 1))) (Work 0) false 0) _ []); [|reflexivity|by rewrite app_nil_r].
  unfold M. cbn [m_step context_machine step]. unfold run, work. cbn [at_pc core]. by rewrite Hx.
Qed.

Lemma spawn_reach cap has_cb n : (0 < cap)%nat → (n + 1 < 2 ^ 20)%N →
  ∃ tr, reach (context_machine (H0 := list_queue cap) true cap 4 8 spawner has_cb) (spawned (n + 1)) tr.
Proof.
  intros Hcap. induction n as [|n IH] using N.peano_ind; intros Hn.
  - eexists. eapply (exec_reach _ [Push true 1; WakeUp] (sim_context [] sim0 ())); [apply sim_context_fresh|].
    cbn [Prelude.exec m_step context_machine step]. unfold push. cbn. rewrite decide_False by done. by rewrite decide_True by done.
  - destruct IH as [tr Hr]; [lia|]. eexists. eapply exec_reach_from; [exact Hr|].
    replace (N.succ n + 1)%N with (n + 1 + 1)%N by lia. apply spawn_step; [done|lia|lia].
Qed.

(** The worker writes its own eventfd, which is full. *)
Definition jammed (cap : nat) (s : context (K:=sim) (Q:=list ptr) (C:=())) : Prop :=
  at_pc s = Work 1 ∧ (2 ^ 64 - 2 ^ 44 <= efd_count (m_uring (m_upxy (egn (core s))))) ∧
  ∃ h q, m_task_queue (egn (core s)) = h :: q ∧ (length q < cap)%nat ∧ 0 < h.

Lemma jammed_submit cap ex h s : (length (m_task_queue (egn s)) < cap)%nat → h ≠ nullptr →
  2 ^ 64 - 2 ^ 44 <= efd_count (m_uring (m_upxy (egn s))) →
  submit_task (H0 := list_queue cap) 4 ex true h s = Blocked (A := () * state (K:=sim) (C:=()) * _).
Proof.
  intros Hlen Hh Hefd. pose proof (submit_task_spec (H2 := list_queue_laws cap) 4 ex true h s Hh) as Hs.
  simpl in Hs. rewrite decide_True in Hs by done. rewrite decide_False in Hs by (simpl in *; lia). apply Hs.
Qed.

Lemma jammed_run cap has_cb s : jammed cap s → step (H0 := list_queue cap) true cap 4 8 spawner has_cb Run s = None.
Proof.
  intros (Hpc & Hefd & h & q & Hq & Hlen & Hh). cbn [step]. unfold run, work. rewrite Hpc.
  unfold exec_one_task, schedule, exec, max_stack. cbn [exec_task].
  cbv [mbind prog_bind get put emit mret prog_ret modify run_co do_act spawner when].
  rewrite Hq. cbn [pop list_queue]. rewrite jammed_submit; [done|done| |done]. unfold nullptr. lia.
Qed.

Lemma jammed_step cap has_cb l s s' es : jammed cap s →
  step (H0 := list_queue cap) true cap 4 8 spawner has_cb l s = Some (s', es) → jammed cap s'.
Proof.
  intros Hj Hs. destruct l as [|w h0| | |p r]; [by rewrite jammed_run in Hs|..];
    destruct Hj as (Hpc & Hefd & h & q & Hq & Hlen & Hh); simpl in Hs.
  - unfold push in Hs. case_decide; [done|]. simpl in Hs. rewrite Hq in Hs.
    case_decide as Hl; injection Hs as <- <-; (split_and!; [done|done|]); simpl.
    + exists h, (q ++ [h0]). rewrite length_app. simpl in *. split_and!; [done|lia|done].
    + eauto.
  - injection Hs as <- <-. split_and!; [done|done|]. eauto.
  - destruct (owed s); [done|]. unfold wake_up, mbind, prog_bind, get, write_eventfd in Hs. simpl in *.
    rewrite decide_True in Hs by (rewrite task_flag_eq; lia). done.
  - case_decide; [|done]. destruct (sim_complete p r _) as [k|] eqn:Hk; [|done]. injection Hs as <- <-.
    destruct (@complete_ok sim sim_uring sim_laws p r _ k Hk) as (_ & _ & Hc). simpl in *. split_and!; [done|simpl; lia|eauto].
Qed.

(** C26: coroutines that only submit further ones starve the poll: [run] goes
    round without reading the eventfd, every [submit_task] adds to it, and
    after 2^20 - 1 of them the write blocks. The worker then sleeps in its own
    [write_eventfd], which only it could end: whatever the other threads and
    the kernel do, it never runs again. *)
Theorem spawn_chain_blocks cap has_cb : (0 < cap)%nat →
  ∃ s tr, reach (context_machine (H0 := list_queue cap) true cap 4 8 spawner has_cb) s tr ∧
    m_task_queue (egn (core s)) = [2 ^ 20 - 1] ∧
    ∀ ls s' es, Prelude.exec (context_machine (H0 := list_queue cap) true cap 4 8 spawner has_cb) ls s = Some (s', es) →
      at_pc s' = Work 1 ∧ step (H0 := list_queue cap) true cap 4 8 spawner has_cb Run s' = None.
Proof.
  intros Hcap. destruct (spawn_reach cap has_cb (2 ^ 20 - 2) Hcap) as [tr Hr]; [lia|].
  exists (Ctx (core (spawned (2 ^ 20 - 1))) (Work 1) false 0). eexists. split_and!; [|done|].
  - eapply exec_reach_from; [exact Hr|]. instantiate (2 := [Run]). done.
  - intros ls s' es He. assert (Hj : jammed cap s').
    { eapply (exec_inv (context_machine (H0 := list_queue cap) true cap 4 8 spawner has_cb) (jammed cap)); [intros s0 l s1 es1 Hj Hs; exact (jammed_step cap has_cb l s0 s1 es1 Hj Hs)| |exact He].
      split_and!; [done|by vm_compute|]. exists (2 ^ 20 - 1), []. split_and!; [done|simpl; lia|lia]. }
    split; [apply Hj|by apply jammed_run].
Qed.

(** ** Witnesses *)

(** A coroutine that awaits a no-op. *)
Definition io_waiter (h : ptr) (c : bool) : co_run :=
  if c then Do (EndIo 500) c (λ c _, Stop true c)
  else Do (StartIo 500 h NoopAwaiter) true (λ c _, Stop false c).
Definition io_m := context_machine (H0 := list_queue 4) true 4 4 8 io_waiter true.
Definition io_start : context := sim_context [] sim0 false.
Definition io_sleep : list label := [Push true 7; WakeUp] ++ replicate 11 Run.
Definition io_handle : list label := io_sleep ++ [Complete 500 0; Run; Run].

Lemma io_sleep_reach : reach io_m (final io_m io_sleep io_start) (trace io_m io_sleep io_start).
Proof. apply exec_reach_final; [apply sim_context_fresh|by vm_compute]. Defined.
Lemma io_handle_reach : reach io_m (final io_m io_handle io_start) (trace io_m io_handle io_start).
Proof. apply exec_reach_final; [apply sim_context_fresh|by vm_compute]. Defined.

Lemma context_never_sleeps_on_work_witness :
  at_pc (final io_m io_sleep io_start) = Wait ∧
  m_task_queue (egn (core (final io_m io_sleep io_start))) = [].
Proof.
  split; [by vm_compute|].
  refine (proj1 (context_never_sleeps_on_work (H2 := list_queue_laws 4) true 4 8 io_waiter true _ _ _ io_sleep_reach _ _ _ _));
    by vm_compute.
Defined.

Lemma context_io_exact_witness : ∃ i,
  at_pc (final io_m io_handle io_start) = Handle 1 [Cqe 500 0] ∧
  infos (core (final io_m io_handle io_start)) !! 500 = Some i ∧ result i = None ∧ handle i ≠ nullptr.
Proof.
  destruct (context_io_exact (H2 := list_queue_laws 4) true 4 8 io_waiter true _ _ ltac:(by vm_compute) io_handle_reach
    ltac:(by vm_compute) ltac:(by vm_compute)) as (_ & _ & Hh).
  destruct (Hh 1%nat (Cqe 500 0) [] ltac:(by vm_compute)) as (i & Hi & Hr & Hn).
  exists i. split_and!; [by vm_compute|exact Hi|exact Hr|exact Hn].
Defined.

Lemma context_infos_typed_witness : ∃ i r,
  infos (core (final io_m io_handle io_start)) !! 500 = Some i ∧ well_typed i = true ∧ call_cb i 0 = Some r.
Proof.
  destruct (context_infos_typed (H2 := list_queue_laws 4) true 4 8 io_waiter true _ _ ltac:(by vm_compute) io_handle_reach
    ltac:(by vm_compute) ltac:(by vm_compute)) as (Ht & Hh).
  destruct (Hh 1%nat (Cqe 500 0) [] ltac:(by vm_compute)) as (i & r & Hi & Hc).
  exists i, r. split_and!; [exact Hi|exact (Ht _ _ Hi)|exact Hc].
Defined.

Lemma context_tasks_once_witness :
  m_task_queue (egn (core (final io_m io_sleep io_start))) ++ popped (trace io_m io_sleep io_start) ≡ₚ [7].
Proof.
  refine (proj1 (context_tasks_once (H2 := list_queue_laws 4) true 4 8 io_waiter true _ _ _ io_sleep_reach _ _));
    by vm_compute.
Defined.

Lemma notify_stop_ends_witness : ∃ s',
  Prelude.exec io_m [NotifyStop; WakeUp; Run; Run; Run] (final io_m io_sleep io_start) = Some (s', []) ∧
  at_pc s' = Stopped.
Proof.
  apply (notify_stop_ends (H1 := list_queue 4) true 4 4 8 io_waiter true (final io_m io_sleep io_start)); by vm_compute.
Defined.

Lemma spawn_chain_blocks_witness :
  ∃ s tr, reach (context_machine (H0 := list_queue 4) true 4 4 8 spawner true) s tr ∧ at_pc s = Work 1.
Proof.
  destruct (spawn_chain_blocks 4 true) as (s & tr & Hr & _ & Hs); [lia|].
  exists s, tr. split; [exact Hr|]. apply (Hs [] s [] eq_refl).
Defined.
