(* ===== verification/Scheduler.v ===== *)
(** * coro::scheduler (include/coro/scheduler.hpp, src/scheduler.cpp), the
    dispatcher (include/coro/dispatcher.hpp) and the identifiers of contexts
    and engines (include/coro/meta_info.hpp)

    The scheduler's counters next to the contexts it owns: a machine made of
    the machines of [Context.v], one per context, the submissions in progress
    and the stop callbacks in progress. *)
From S2P Require Import Prelude Effects Uring UringProxy IoAwaiter Engine Context.
Local Open Scope Z_scope.
Local Open Scope coro_scope.

(** ** The dispatcher *)
Record dispatcher := Dispatcher {
  m_ctx_cnt : Z;                      (* size_t *)
  m_cur : Z;
}.
Definition dispatcher_init (ctx_cnt : Z) : dispatcher := Dispatcher ctx_cnt 0.
Definition dispatch (d : dispatcher) : Z * dispatcher :=
  (m_cur d mod m_ctx_cnt d, Dispatcher (m_ctx_cnt d) (u64 (m_cur d + 1))).
(** The dispatcher of the other strategies. *)
Definition dispatch_none (d : ()) : Z * () := (0, d).

Fixpoint dispatches (n : nat) (d : dispatcher) : list Z * dispatcher :=
  match n with
  | O => ([], d)
  | S n => let '(i, d) := dispatch d in let '(l, d) := dispatches n d in (i :: l, d)
  end.

Lemma dispatches_eq n : ∀ d, 0 <= m_cur d → m_cur d + Z.of_nat n <= 2 ^ 64 →
  (dispatches n d).1 = (λ i : nat, (m_cur d + Z.of_nat i) mod m_ctx_cnt d) <$> seq 0 n.
Proof.
  induction n as [|n IH]; intros d H0 Hn; simpl; [done|].
  destruct (dispatches n _) as [l d'] eqn:Hd. simpl. rewrite Z.add_0_r. f_equal.
  destruct n as [|n]; [simpl in Hd; by simplify_eq|].
  assert (l = (dispatches (S n) (Dispatcher (m_ctx_cnt d) (u64 (m_cur d + 1)))).1) as -> by by rewrite Hd.
  rewrite IH; simpl m_cur; rewrite !uw_small by lia; [|lia|lia].
  rewrite <- (fmap_S_seq 0 (S n)), <- list_fmap_compose. apply list_fmap_ext.
  intros _ i _. simpl. f_equal. lia.
Qed.

Lemma dispatches_cons n d : dispatches (S n) d =
  ((dispatch d).1 :: (dispatches n (dispatch d).2).1, (dispatches n (dispatch d).2).2).
Proof. simpl. by destruct (dispatches n _). Qed.

Lemma dispatches_snoc n : ∀ d, dispatches (S n) d =
  ((dispatches n d).1 ++ [(dispatch (dispatches n d).2).1], (dispatch (dispatches n d).2).2).
Proof. induction n as [|n IH]; intros d; [done|]. by rewrite (dispatches_cons (S n)), IH, (dispatches_cons n d). Qed.

(** ** Identifiers *)
Record global_info := GInfo { context_id : Z; engine_id : Z }.   (* uint32_t *)
Definition init_meta_info : global_info := GInfo 0 0.
(** The constructors of [engine] and [context]: the ids they take. *)
Definition engine_new (g : global_info) : Z * global_info :=
  (engine_id g, GInfo (context_id g) (u32 (engine_id g + 1))).
Definition context_new (g : global_info) : Z * Z * global_info :=
  let '(e, g) := engine_new g in
  ((context_id g, e), GInfo (u32 (context_id g + 1)) (engine_id g)).
Fixpoint contexts_new (n : nat) (g : global_info) : list (Z * Z) * global_info :=
  match n with
  | O => ([], g)
  | S n => let '(c, g) := context_new g in let '(l, g) := contexts_new n g in (c :: l, g)
  end.

(** ** The scheduler *)
Section scheduler.
Context {K Q C : Type} `{Uring K} `{TaskQueue Q}.
Context (fixfd : bool) (kQueCap kMaxRecursiveDepth kCqEntries : nat) (resume : ptr → C → co_run (C:=C)).

(** A submitting thread: the worker of a context, from a coroutine, or any other. *)
Inductive thread := Worker (i : nat) | Outside (t : nat).
#[export] Instance thread_eq_dec : EqDecision thread.
Proof. solve_decision. Defined.
#[export] Instance thread_countable : Countable thread.
Proof.
  refine (inj_countable' (λ t, match t with Worker i => inl i | Outside i => inr i end)
    (λ s, match s with inl i => Worker i | inr i => Outside i end) _).
  by intros [].
Defined.

(** Where a call of [submit_task_impl] is. *)
Inductive sub_pc :=
  | Dispatching                       (* m_dispatcher.dispatch() *)
  | FetchOr (i : nat)
  | FetchAdd (i : nat) (old : Z)      (* m_stop_token.fetch_add(1 - old) *)
  | Pushing (i : nat).                (* m_ctxs[i]->submit_task *)

(** Where the stop callback of a context is. *)
Inductive cb_pc :=
  | FetchAnd
  | FetchSub (cnt : Z)
  | Notify (k : nat).                 (* stop_impl: m_ctxs[k]->notify_stop() next *)

Record scheduler := Sched {
  m_ctxs : list (context (K:=K) (Q:=Q) (C:=C));
  m_ctx_stop_flag : list Z;
  m_stop_token : Z;                   (* atomic<int> *)
  m_dispatcher : dispatcher;
  subs : gmap thread (ptr * sub_pc);
  cbs : gmap nat cb_pc;
}.

Inductive label :=
  | CtxStep (i : nat) (l : Context.label)
  | Submit (t : thread) (h : ptr)
  | SubStep (t : thread)
  | CbStep (i : nat).
#[export] Instance label_eq_dec : EqDecision label.
Proof. solve_decision. Defined.

Inductive sched_event :=
  | At (i : nat) (e : event)          (* shown by context [i] *)
  | Called (t : thread) (h : ptr)     (* submit(h) is called *)
  | Submitted (t : thread) (h : ptr) (i : nat)   (* and has given [h] to context [i] *)
  | StopAll (i : nat).                (* stop_impl, from the callback of [i] *)

Definition is_stop_cb (e : sched_event) : bool := match e with At _ StopCb => true | _ => false end.

Definition set_ctx (i : nat) (c : context) (s : scheduler) : scheduler :=
  Sched (<[i := c]> (m_ctxs s)) (m_ctx_stop_flag s) (m_stop_token s) (m_dispatcher s) (subs s) (cbs s).
Definition set_sub (t : thread) (p : option (ptr * sub_pc)) (s : scheduler) : scheduler :=
  Sched (m_ctxs s) (m_ctx_stop_flag s) (m_stop_token s) (m_dispatcher s) (partial_alter (λ _, p) t (subs s)) (cbs s).
Definition set_cb (i : nat) (p : option cb_pc) (s : scheduler) : scheduler :=
  Sched (m_ctxs s) (m_ctx_stop_flag s) (m_stop_token s) (m_dispatcher s) (subs s) (partial_alter (λ _, p) i (cbs s)).
Definition set_flag (i : nat) (f : Z) (s : scheduler) : scheduler :=
  Sched (m_ctxs s) (<[i := f]> (m_ctx_stop_flag s)) (m_stop_token s) (m_dispatcher s) (subs s) (cbs s).
Definition set_token (n : Z) (s : scheduler) : scheduler :=
  Sched (m_ctxs s) (m_ctx_stop_flag s) n (m_dispatcher s) (subs s) (cbs s).
Definition set_dispatcher (d : dispatcher) (s : scheduler) : scheduler :=
  Sched (m_ctxs s) (m_ctx_stop_flag s) (m_stop_token s) d (subs s) (cbs s).

(** [init_impl] with contexts just constructed. *)
Definition init_impl (ctxs : list context) : scheduler :=
  let n := length ctxs in
  Sched ctxs (replicate n 1) (s32 (Z.of_nat n)) (dispatcher_init (Z.of_nat n)) ∅ ∅.

(** The number of contexts that [init] asks [init_impl] for. *)
Definition init_ctx_cnt (hardware_concurrency ctx_cnt : Z) : Z :=
  if decide (ctx_cnt = 0) then hardware_concurrency else ctx_cnt.

Definition ctx_step (i : nat) (l : Context.label) (s : scheduler) : option (scheduler * list sched_event) :=
  match m_ctxs s !! i with
  | Some c =>
      match Context.step fixfd kQueCap kMaxRecursiveDepth kCqEntries resume true l c with
      | Some (c, es) => Some (set_ctx i c s, At i <$> es)
      | None => None
      end
  | None => None
  end.

(** A worker is busy with a call of its own? *)
Definition busy (i : nat) (s : scheduler) : bool :=
  negb (bool_decide (subs s !! Worker i = None ∧ cbs s !! i = None)).

(** Is the worker of [i] in a coroutine? *)
Definition in_coroutine (i : nat) (s : scheduler) : bool :=
  match m_ctxs s !! i with
  | Some c => match at_pc c with Work (S _) => true | _ => false end
  | None => false
  end.

(** [submit_task_impl], one atomic access after the other. *)
Definition submit_task_impl (t : thread) (h : ptr) (p : sub_pc) (s : scheduler) :
    option (scheduler * list sched_event) :=
  match p with
  | Dispatching =>
      if decide (m_stop_token s = 0) then None else
      let '(i, d) := dispatch (m_dispatcher s) in
      Some (set_sub t (Some (h, FetchOr (Z.to_nat i))) (set_dispatcher d s), [])
  | FetchOr i =>
      old ← m_ctx_stop_flag s !! i;
      Some (set_sub t (Some (h, FetchAdd i old)) (set_flag i (Z.lor old 1) s), [])
  | FetchAdd i old =>
      Some (set_sub t (Some (h, Pushing i)) (set_token (s32 (m_stop_token s + (1 - old))) s), [])
  | Pushing i =>
      '(s, es) ← ctx_step i (Push (match t with Worker _ => true | Outside _ => false end) h) s;
      Some (set_sub t None s, Submitted t h i :: es)
  end.

(** [stop_impl], called by the callback of context [i], from context [k] on. *)
Definition stop_impl (i k : nat) (s : scheduler) : option (scheduler * list sched_event) :=
  if decide (k < length (m_ctxs s))%nat then
    '(s, es) ← ctx_step k NotifyStop s; Some (set_cb i (Some (Notify (S k))) s, es)
  else Some (set_cb i None s, []).

(** The callback that [start_impl] sets. *)
Definition stop_callback (i : nat) (p : cb_pc) (s : scheduler) : option (scheduler * list sched_event) :=
  match p with
  | FetchAnd =>
      cnt ← m_ctx_stop_flag s !! i;
      Some (set_cb i (Some (FetchSub cnt)) (set_flag i (Z.land cnt 0) s), [])
  | FetchSub cnt =>
      let prev := m_stop_token s in
      let s := set_token (s32 (prev - cnt)) s in
      if decide (prev = cnt) then Some (set_cb i (Some (Notify 0)) s, [StopAll i])
      else Some (set_cb i None s, [])
  | Notify k => stop_impl i k s
  end.

Definition step (l : label) (s : scheduler) : option (scheduler * list sched_event) :=
  match l with
  | CtxStep i l =>
      match l with
      | NotifyStop => None
      | Run =>
          if busy i s then None else
          '(s, es) ← ctx_step i Run s;
          Some (if existsb is_stop_cb es then set_cb i (Some FetchAnd) s else s, es)
      | _ => ctx_step i l s
      end
  | Submit t h =>
      if bool_decide (subs s !! t = None) &&
         match t with Worker i => in_coroutine i s && bool_decide (cbs s !! i = None) | Outside _ => true end
      then Some (set_sub t (Some (h, Dispatching)) s, [Called t h]) else None
  | SubStep t => '(h, p) ← subs s !! t; submit_task_impl t h p s
  | CbStep i => p ← cbs s !! i; stop_callback i p s
  end.

Definition sched_machine (n : nat) : machine scheduler label sched_event :=
  Machine (λ s, ∃ ctxs, s = init_impl ctxs ∧ length ctxs = n ∧ Forall fresh ctxs) step.

(** ** Accounting *)
Definition is_adding (x : ptr * sub_pc) : bool :=
  match x.2 with FetchAdd _ old => bool_decide (old = 0) | _ => false end.
Definition is_subbing (x : cb_pc) : bool :=
  match x with FetchSub cnt => bool_decide (cnt = 1) | _ => false end.

(** The contexts that count as busy, the submissions that have raised a flag
    but not the token yet, the callbacks that have lowered a flag but not the
    token yet. *)
Definition flags_up (l : list Z) : Z := foldr Z.add 0 l.
Definition adding (s : scheduler) : Z := count_if is_adding (subs s).
Definition subbing (s : scheduler) : Z := count_if is_subbing (cbs s).

Definition is_flag (f : Z) : Prop := f = 0 ∨ f = 1.

Record counted (n : nat) (s : scheduler) : Prop := {
  c_flags : length (m_ctx_stop_flag s) = n ∧ Forall is_flag (m_ctx_stop_flag s);
  c_sub : ∀ t h i old, subs s !! t = Some (h, FetchAdd i old) → is_flag old;
  c_cb : ∀ i cnt, cbs s !! i = Some (FetchSub cnt) → is_flag cnt;
  c_token : m_stop_token s = s32 (flags_up (m_ctx_stop_flag s) - adding s + subbing s);
}.

Lemma flags_up_insert l i f x : l !! i = Some x → flags_up (<[i := f]> l) = flags_up l - x + f.
Proof.
  revert i. induction l as [|y l IH]; intros [|i] Hi; simplify_eq/=; [lia|]. rewrite (IH _ Hi). lia.
Qed.

Lemma flags_up_replicate n : flags_up (replicate n 1) = Z.of_nat n.
Proof. induction n as [|n IH]; simpl; lia. Qed.

Lemma flags_up_zero l : Forall is_flag l → flags_up l = 0 ↔ Forall (λ f, f = 0) l.
Proof.
  assert (Hpos : ∀ l, Forall is_flag l → 0 <= flags_up l).
  { intros k. induction 1 as [|f k [-> | ->] _ IH]; simpl; lia. }
  induction 1 as [|f l Hf Hl IH]; simpl; [done|]. specialize (Hpos _ Hl). rewrite Forall_cons.
  destruct Hf as [-> | ->]; [|lia]. rewrite Z.add_0_l, IH. naive_solver.
Qed.

Lemma flags_up_range l : Forall is_flag l → 0 <= flags_up l <= Z.of_nat (length l).
Proof. induction 1 as [|f l [-> | ->] _ IH]; simpl; lia. Qed.

(** Steps of a context do not touch the counters. *)
Lemma ctx_step_same i l s s' es : ctx_step i l s = Some (s', es) →
  m_ctx_stop_flag s' = m_ctx_stop_flag s ∧ m_stop_token s' = m_stop_token s ∧ subs s' = subs s ∧ cbs s' = cbs s ∧
  length (m_ctxs s') = length (m_ctxs s).
Proof.
  unfold ctx_step. destruct (m_ctxs s !! i); [|done]. destruct (Context.step _ _ _ _ _ _ _ _) as [[c' e]|]; [|done].
  intros [= <- <-]. simpl. by rewrite length_insert.
Qed.

Lemma counted_same n s s' : m_ctx_stop_flag s' = m_ctx_stop_flag s → m_stop_token s' = m_stop_token s →
  subs s' = subs s → cbs s' = cbs s → counted n s → counted n s'.
Proof. intros H1 H2 H3 H4 []. unfold adding, subbing in *. split; unfold adding, subbing; rewrite ?H1, ?H2, ?H3, ?H4; done. Qed.

(** A submission moves on without touching the token. *)
Lemma counted_sub n s t h p q : counted n s → subs s !! t = Some (h, p) ∨ subs s !! t = None ∧ is_adding (h, p) = false →
  is_adding (h, p) = false → (∀ x, q = Some x → is_adding x = false ∧ ∀ i old, x.2 ≠ FetchAdd i old) →
  counted n (set_sub t q s).
Proof.
  intros [Hf Hs Hc Ht] Hsub Hp Hq. split; try done.
  - intros u h' i old. unfold set_sub. simpl. destruct (decide (u = t)) as [->|Hne].
    + rewrite lookup_partial_alter_eq. intros Hx. destruct (Hq _ Hx) as [_ Hx']. by destruct (Hx' i old).
    + rewrite lookup_partial_alter_ne by done. apply Hs.
  - simpl. rewrite Ht. do 2 f_equal. unfold adding. simpl. f_equal.
    destruct q as [x|].
    + destruct (Hq x eq_refl) as [Hx _]. change (partial_alter _ _ _) with (<[t := x]> (subs s)).
      destruct Hsub as [Hsub|[Hsub _]].
      * rewrite (count_if_update _ _ _ _ _ Hsub), Hp, Hx. simpl. lia.
      * rewrite (count_if_insert _ _ _ _ Hsub), Hx. simpl. lia.
    + change (partial_alter _ _ _) with (delete t (subs s)). destruct Hsub as [Hsub|[Hsub _]].
      * rewrite (count_if_delete _ _ _ _ Hsub), Hp. simpl. lia.
      * by rewrite delete_id.
Qed.

Lemma flag_bit f : is_flag f → Z.b2z (bool_decide (f = 1)) = f ∧ Z.b2z (bool_decide (f = 0)) = 1 - f.
Proof. by intros [-> | ->]. Qed.

Lemma counted_submit n s t h p s' es : counted n s → subs s !! t = Some (h, p) →
  submit_task_impl t h p s = Some (s', es) → counted n s'.
Proof.
  intros Hc Hsub Hs. pose proof Hc as [[Hlen Hf] Hsu Hcb Ht]. destruct p as [|i|i old|i]; simpl in Hs.
  - case_decide; [done|]. injection Hs as <- <-.
    eapply counted_sub; [by eapply counted_same|by left|done|]. by intros x [= <-].
  - destruct (m_ctx_stop_flag s !! i) as [old|] eqn:Hi; [|done]. injection Hs as <- <-.
    pose proof (Forall_lookup_1 _ _ _ _ Hf Hi) as Hold. destruct (flag_bit _ Hold) as [_ Hb0].
    assert (Hor : Z.lor old 1 = 1) by (by destruct Hold as [-> | ->]). split; simpl.
    + rewrite length_insert. split; [done|]. apply Forall_insert; [done|]. rewrite Hor. by right.
    + intros u h' j o. destruct (decide (u = t)) as [->|Hne].
      * rewrite lookup_partial_alter_eq. by intros [= <- <- <-].
      * rewrite lookup_partial_alter_ne by done. apply Hsu.
    + done.
    + rewrite Ht, (flags_up_insert _ _ _ _ Hi), Hor. f_equal. unfold adding, subbing. simpl.
      change (partial_alter _ _ _) with (<[t := (h, FetchAdd i old)]> (subs s)).
      rewrite (count_if_update _ _ _ _ _ Hsub). cbn [is_adding snd]. rewrite Hb0. change (Z.b2z false) with 0. lia.
  - injection Hs as <- <-. pose proof (Hsu _ _ _ _ Hsub) as Hold. destruct (flag_bit _ Hold) as [_ Hb0].
    split; simpl; try done.
    + intros u h' j o. destruct (decide (u = t)) as [->|Hne]; [by rewrite lookup_partial_alter_eq|].
      rewrite lookup_partial_alter_ne by done. apply Hsu.
    + rewrite Ht, sw_add_l. f_equal. unfold adding, subbing. simpl.
      change (partial_alter _ _ _) with (<[t := (h, Pushing i)]> (subs s)).
      rewrite (count_if_update _ _ _ _ _ Hsub). cbn [is_adding snd]. rewrite Hb0. change (Z.b2z false) with 0. lia.
  - destruct (ctx_step _ _ s) as [[s1 e1]|] eqn:Hst; [|done]. injection Hs as <- <-.
    destruct (ctx_step_same _ _ _ _ _ Hst) as (H1 & H2 & H3 & H4 & _).
    apply (counted_sub n s1 t h (Pushing i)); [by eapply counted_same| |done|done].
    left. by rewrite H3.
Qed.

(** A callback that is not between its two accesses. *)
Lemma counted_cb n s i q : counted n s → (∀ p, cbs s !! i = Some p → is_subbing p = false) →
  (∀ x, q = Some x → ∀ cnt, x ≠ FetchSub cnt) → counted n (set_cb i q s).
Proof.
  intros [Hf Hs Hc Ht] Hp Hq. assert (Hq' : ∀ x, q = Some x → is_subbing x = false).
  { intros [|cnt|k] Hx; try done. by destruct (Hq _ Hx cnt). }
  split; try done.
  - intros j cnt. unfold set_cb. simpl. destruct (decide (j = i)) as [->|Hne].
    + rewrite lookup_partial_alter_eq. intros Hx. by destruct (Hq _ Hx cnt).
    + rewrite lookup_partial_alter_ne by done. apply Hc.
  - simpl. rewrite Ht. f_equal. f_equal. unfold subbing. simpl.
    destruct (cbs s !! i) as [p|] eqn:Hi; destruct q as [x|].
    + change (partial_alter _ _ _) with (<[i := x]> (cbs s)).
      rewrite (count_if_update _ _ _ _ _ Hi), (Hp _ eq_refl), (Hq' _ eq_refl). simpl. lia.
    + change (partial_alter _ _ _) with (delete i (cbs s)).
      rewrite (count_if_delete _ _ _ _ Hi), (Hp _ eq_refl). simpl. lia.
    + change (partial_alter _ _ _) with (<[i := x]> (cbs s)).
      rewrite (count_if_insert _ _ _ _ Hi), (Hq' _ eq_refl). simpl. lia.
    + change (partial_alter _ _ _) with (delete i (cbs s)). by rewrite delete_id.
Qed.

Lemma counted_callback n s i p s' es : counted n s → cbs s !! i = Some p →
  stop_callback i p s = Some (s', es) → counted n s'.
Proof.
  intros Hc Hi Hs. pose proof Hc as [[Hlen Hf] Hsu Hcb Ht]. destruct p as [|cnt|k]; simpl in Hs.
  - destruct (m_ctx_stop_flag s !! i) as [cnt|] eqn:Hfl; [|done]. injection Hs as <- <-.
    pose proof (Forall_lookup_1 _ _ _ _ Hf Hfl) as Hcnt. destruct (flag_bit _ Hcnt) as [Hb1 _].
    split; simpl; try done.
    + rewrite length_insert. split; [done|]. apply Forall_insert; [done|]. rewrite Z.land_0_r. by left.
    + intros j c. destruct (decide (j = i)) as [->|Hne].
      * rewrite lookup_partial_alter_eq. by intros [= <-].
      * rewrite lookup_partial_alter_ne by done. apply Hcb.
    + rewrite Ht, (flags_up_insert _ _ _ _ Hfl), Z.land_0_r. f_equal. unfold adding, subbing. simpl.
      change (partial_alter _ _ _) with (<[i := FetchSub cnt]> (cbs s)).
      rewrite (count_if_update _ _ _ _ _ Hi). cbn [is_subbing]. rewrite Hb1. change (Z.b2z false) with 0. lia.
  - pose proof (Hcb _ _ Hi) as Hcnt. destruct (flag_bit _ Hcnt) as [Hb1 _].
    assert (Hgo : ∀ q, (∀ x, q = Some x → is_subbing x = false ∧ ∀ c, x ≠ FetchSub c) →
      counted n (set_cb i q (set_token (s32 (m_stop_token s - cnt)) s))).
    { intros q Hq. split; simpl; try done.
      - intros j c. destruct (decide (j = i)) as [->|Hne].
        + rewrite lookup_partial_alter_eq. intros Hx. by destruct (proj2 (Hq _ Hx) c).
        + rewrite lookup_partial_alter_ne by done. apply Hcb.
      - rewrite Ht. unfold Z.sub at 1. rewrite sw_add_l. f_equal. unfold adding, subbing. simpl. destruct q as [x|].
        + change (partial_alter _ _ _) with (<[i := x]> (cbs s)).
          rewrite (count_if_update _ _ _ _ _ Hi), (proj1 (Hq _ eq_refl)). cbn [is_subbing]. rewrite Hb1. change (Z.b2z false) with 0. lia.
        + change (partial_alter _ _ _) with (delete i (cbs s)).
          rewrite (count_if_delete _ _ _ _ Hi). cbn [is_subbing]. rewrite Hb1. change (Z.b2z false) with 0. lia. }
    case_decide; injection Hs as <- <-; apply Hgo; [by intros x [= <-]|done].
  - unfold stop_impl in Hs. case_decide.
    + destruct (ctx_step _ _ s) as [[s1 e1]|] eqn:Hst; [|done]. injection Hs as <- <-.
      destruct (ctx_step_same _ _ _ _ _ Hst) as (G1 & G2 & G3 & G4 & _).
      apply counted_cb; [by eapply counted_same|rewrite G4, Hi; by intros p [= <-]|by intros x [= <-]].
    + injection Hs as <- <-. apply counted_cb; [done|rewrite Hi; by intros p [= <-]|done].
Qed.

Lemma sched_counted_step n l s s' es : counted n s → step l s = Some (s', es) → counted n s'.
Proof.
  intros Hc Hs. assert (Hctx : ∀ i l s' es, ctx_step i l s = Some (s', es) → counted n s').
  { intros i l0 s0 e0 Hst. destruct (ctx_step_same _ _ _ _ _ Hst) as (H1 & H2 & H3 & H4 & _). by eapply counted_same. }
  destruct l as [i l|t h|t|i]; simpl in Hs.
  - destruct l; try done; try (by eapply Hctx). destruct (busy i s) eqn:Hb; [done|].
    destruct (ctx_step i Run s) as [[s1 e1]|] eqn:Hst; [|done]. injection Hs as <- <-.
    destruct (existsb _ _); [|by eapply Hctx]. destruct (ctx_step_same _ _ _ _ _ Hst) as (_ & _ & _ & H4 & _).
    apply counted_cb; [by eapply Hctx| |by intros x [= <-]]. intros p. rewrite H4.
    unfold busy in Hb. apply negb_false_iff, bool_decide_eq_true in Hb as [_ Hb]. by rewrite Hb.
  - destruct (bool_decide (subs s !! t = None)) eqn:Ht; [|done]. apply bool_decide_eq_true in Ht.
    destruct (match t with Worker _ => _ | Outside _ => _ end); [|done]. injection Hs as <- <-.
    apply (counted_sub n s t h Dispatching); [done|by right|done|by intros x [= <-]].
  - destruct (subs s !! t) as [[h p]|] eqn:Ht; [|done]. by eapply counted_submit.
  - destruct (cbs s !! i) as [p|] eqn:Hi; [|done]. by eapply counted_callback.
Qed.

Lemma counted_init ctxs : counted (length ctxs) (init_impl ctxs).
Proof.
  split; simpl; try done.
  - rewrite length_replicate. split; [done|]. apply Forall_replicate. by right.
  - rewrite flags_up_replicate. f_equal. unfold adding, subbing. simpl. rewrite !count_if_empty. lia.
Qed.

Lemma sched_counted_reach n s tr : reach (sched_machine n) s tr → counted n s.
Proof.
  intros Hr. revert s tr Hr. apply reach_inv.
  - intros s (ctxs & -> & <- & _). apply counted_init.
  - intros s l s' es Hc Hs. exact (sched_counted_step n l s s' es Hc Hs).
Qed.

(** The token a callback finds is its own count when the others make up for
    each other. *)
Lemma token_own n s i cnt : Z.of_nat n < 2 ^ 30 → Z.of_nat (size (cbs s)) < 2 ^ 30 → Z.of_nat (size (subs s)) < 2 ^ 30 →
  counted n s → cbs s !! i = Some (FetchSub cnt) →
  m_stop_token s = cnt ↔ flags_up (m_ctx_stop_flag s) + count_if is_subbing (delete i (cbs s)) = adding s.
Proof.
  intros Hn Hsize Hsubs [[Hlen Hf] _ Hcb Ht] Hi. pose proof (Hcb _ _ Hi) as Hcnt.
  destruct (flag_bit _ Hcnt) as [Hb1 _].
  pose proof (count_if_delete is_subbing _ _ _ Hi) as Hdel. cbn [is_subbing] in Hdel. rewrite Hb1 in Hdel.
  fold (subbing s) in Hdel. pose proof (count_if_nonneg is_subbing (delete i (cbs s))) as Hpos.
  pose proof (count_if_size is_subbing (cbs s)) as Hle. fold (subbing s) in Hle.
  pose proof (count_if_nonneg is_adding (subs s)) as Hpos'. pose proof (count_if_size is_adding (subs s)) as Hle'.
  fold (adding s) in Hpos', Hle'. pose proof (flags_up_range _ Hf) as Hrange. rewrite Hlen in Hrange.
  assert (0 <= cnt <= 1) by (destruct Hcnt; lia).
  rewrite sw_small in Ht by lia. lia.
Qed.

(** ... and when nothing else counts, if no submission is between its two. *)
Lemma token_idle n s i cnt : Z.of_nat n < 2 ^ 30 → Z.of_nat (size (cbs s)) < 2 ^ 30 → counted n s →
  subs s = ∅ → cbs s !! i = Some (FetchSub cnt) →
  m_stop_token s = cnt ↔ flags_up (m_ctx_stop_flag s) = 0 ∧ count_if is_subbing (delete i (cbs s)) = 0.
Proof.
  intros Hn Hsize Hc Hs Hi. rewrite (token_own n) by (done || by rewrite Hs). unfold adding. rewrite Hs, count_if_empty.
  pose proof (flags_up_range _ (proj2 (c_flags _ _ Hc))). pose proof (count_if_nonneg is_subbing (delete i (cbs s))). lia.
Qed.

Lemma others_subbing s i : count_if is_subbing (delete i (cbs s)) = 0 ↔ ∀ j, j ≠ i → cbs s !! j ≠ Some (FetchSub 1).
Proof.
  rewrite count_if_zero. split.
  - intros Hall j Hj Hx. assert (Hd : delete i (cbs s) !! j = Some (FetchSub 1)) by by rewrite lookup_delete_ne.
    by specialize (Hall _ _ Hd).
  - intros Hall j x [Hj Hx]%lookup_delete_Some. destruct x as [|c|k]; try done. cbn [is_subbing].
    apply bool_decide_eq_false. intros ->. by destruct (Hall j).
Qed.
End scheduler.

(** ** Lemmas on the dispatcher *)
Lemma seqZ_round c s : 0 < c → (λ i : nat, (s + Z.of_nat i) mod c) <$> seq 0 (Z.to_nat c) ≡ₚ seqZ 0 c.
Proof.
  intros Hc. apply submseteq_length_Permutation.
  - apply NoDup_submseteq.
    + apply NoDup_fmap_2_strong; [|apply NoDup_seq]. intros i j Hi%elem_of_seq Hj%elem_of_seq Heq.
      assert (Hd : ((s + Z.of_nat i) - (s + Z.of_nat j)) mod c = 0).
      { rewrite Zminus_mod, Heq, Z.sub_diag. apply Z.mod_0_l. lia. }
      apply Z.mod_divide in Hd as [q Hq]; [|lia]. assert (q = 0) by nia. lia.
    + intros x (i & -> & _)%list_elem_of_fmap. apply elem_of_seqZ.
      pose proof (Z.mod_pos_bound (s + Z.of_nat i) c Hc). lia.
  - rewrite length_fmap, length_seq, length_seqZ. lia.
Qed.

Lemma rounds k c : ∀ s, 0 < c →
  (λ i : nat, (s + Z.of_nat i) mod c) <$> seq 0 (k * Z.to_nat c) ≡ₚ mjoin (replicate k (seqZ 0 c)).
Proof.
  induction k as [|k IH]; intros s Hc; simpl; [done|].
  rewrite seq_app, fmap_app, seqZ_round by done. apply Permutation_app_head.
  rewrite <- (IH (s + c) Hc). apply reflexive_eq.
  replace (seq (0 + Z.to_nat c) (k * Z.to_nat c)) with (Nat.add (Z.to_nat c) <$> seq 0 (k * Z.to_nat c))
    by (rewrite fmap_add_seq; f_equal; lia).
  rewrite <- list_fmap_compose. apply list_fmap_ext. intros _ i _. simpl. f_equal. lia.
Qed.

(** ** Properties *)

(** C7: the stop token is exact: in every interleaving of submissions, workers
    and stop callbacks it is the number of contexts whose flag is up, less the
    submissions that have raised a flag but not the token yet, plus the
    callbacks that have lowered a flag but not the token yet; and the flags are
    0 or 1. *)
Theorem stop_token_exact {K Q C} `{Uring K} `{TaskQueue Q} fixfd kQueCap kMax kCqEntries
    (resume : ptr → C → co_run) n s tr :
  reach (sched_machine (K:=K) fixfd kQueCap kMax kCqEntries resume n) s tr →
  length (m_ctx_stop_flag s) = n ∧ Forall is_flag (m_ctx_stop_flag s) ∧
  m_stop_token s = s32 (flags_up (m_ctx_stop_flag s) - adding s + subbing s).
Proof. intros Hr. by destruct (sched_counted_reach _ _ _ _ _ _ _ _ Hr) as [[] _ _ ?]. Qed.

(** C8: when a stop callback stops the scheduler, exactly: in every reachable
    state, with counters in their ranges, [fetch_sub] finds its own count, and the callback goes on to
    [stop_impl], if and only if the flags that are up and the counts that other
    callbacks still have to give back are, together, as many as the submissions
    that have raised a flag and not the token yet. So, when no submission is
    between its two counters, the callback stops everybody exactly when all
    flags are down and no other callback has a count to give back; and when
    there are such submissions, a context may be stopped although its flag is
    up. *)
Theorem stop_iff_idle {K Q C} `{Uring K} `{TaskQueue Q} fixfd kQueCap kMax kCqEntries
    (resume : ptr → C → co_run) n s tr i cnt :
  Z.of_nat n < 2 ^ 30 → Z.of_nat (size (cbs s)) < 2 ^ 30 → Z.of_nat (size (subs s)) < 2 ^ 30 →
  reach (sched_machine (K:=K) fixfd kQueCap kMax kCqEntries resume n) s tr → cbs s !! i = Some (FetchSub cnt) →
  ∃ s' es, step fixfd kQueCap kMax kCqEntries resume (CbStep i) s = Some (s', es) ∧
    (es = [StopAll i] ↔
     flags_up (m_ctx_stop_flag s) + count_if is_subbing (delete i (cbs s)) = adding s) ∧
    ((∀ t h k old, subs s !! t ≠ Some (h, FetchAdd k old)) →
     es = [StopAll i] ↔
     Forall (λ f, f = 0) (m_ctx_stop_flag s) ∧ ∀ j, j ≠ i → cbs s !! j ≠ Some (FetchSub 1)).
Proof.
  intros Hn Hsize Hsubs Hr Hi. pose proof (sched_counted_reach _ _ _ _ _ _ _ _ Hr) as Hc.
  pose proof (token_own n s i cnt Hn Hsize Hsubs Hc Hi) as Hiff.
  simpl. rewrite Hi. simpl. unfold mbind, option_bind. simpl.
  assert (He : ∃ s' es, (if decide (m_stop_token s = cnt)
      then Some (set_cb i (Some (Notify 0)) (set_token (s32 (m_stop_token s - cnt)) s), [StopAll i])
      else Some (set_cb i None (set_token (s32 (m_stop_token s - cnt)) s), [])) = Some (s', es) ∧
      (es = [StopAll i] ↔ m_stop_token s = cnt)) by (case_decide; by eexists _, _).
  destruct He as (s' & es & -> & He). exists s', es. rewrite He. split; [done|]. split; [done|]. intros Hno.
  assert (Hadd : adding s = 0).
  { apply count_if_zero. intros t [h p] Hp. destruct p as [|k|k old|k]; try done. by destruct (Hno t h k old). }
  rewrite <- flags_up_zero, <- others_subbing by apply Hc. rewrite Hiff, Hadd.
  pose proof (flags_up_range _ (proj2 (c_flags _ _ Hc))). pose proof (count_if_nonneg is_subbing (delete i (cbs s))). lia.
Qed.

(** the round-robin dispatcher is fair: as long as its counter does not
    wrap around, any [k] rounds of as many dispatches as there are contexts give
    every context exactly [k] tasks. *)
Theorem dispatch_fair d k : 0 < m_ctx_cnt d → 0 <= m_cur d →
  m_cur d + Z.of_nat k * m_ctx_cnt d <= 2 ^ 64 →
  (dispatches (k * Z.to_nat (m_ctx_cnt d)) d).1 ≡ₚ mjoin (replicate k (seqZ 0 (m_ctx_cnt d))).
Proof. intros Hc H0 Hk. rewrite dispatches_eq by nia. by apply rounds. Qed.

(** contexts constructed after [init_meta_info] get the ids 0, 1, ..., and
    so do their engines. *)
Theorem context_ids n : Z.of_nat n <= 2 ^ 32 →
  (contexts_new n init_meta_info).1 = (λ i, (i, i)) <$> seqZ 0 (Z.of_nat n).
Proof.
  intros Hn. assert (Hgen : ∀ n a, 0 <= a → a + Z.of_nat n <= 2 ^ 32 →
    (contexts_new n (GInfo a a)).1 = (λ i, (i, i)) <$> seqZ a (Z.of_nat n)).
  { clear n Hn. induction n as [|n IH]; intros a Ha Hn; [done|].
    rewrite (seqZ_cons a) by lia. rewrite fmap_cons. replace (Z.pred (Z.of_nat (S n))) with (Z.of_nat n) by lia.
    replace (Z.succ a) with (a + 1) by lia.
    transitivity ((a, a) :: (contexts_new n (GInfo (u32 (a + 1)) (u32 (a + 1)))).1);
      [cbn; by destruct (contexts_new n _)|]. f_equal.
    destruct n as [|n]; [done|]. rewrite uw_small by lia. apply IH; lia. }
  by apply (Hgen n 0).
Qed.

(** Two contexts with coroutines that finish at once; the one of the first
    context submits a task, which goes to the second. *)
Definition two_contexts : scheduler (K:=sim) (C:=()) := init_impl [sim_context [] sim0 (); sim_context [] sim0 ()].
Definition finisher (h : ptr) (c : ()) : co_run := Stop true c.
Definition two_m := sched_machine (H0 := list_queue 4) true 4 4 8 finisher 2.

Definition first_task : list label :=
  [Submit (Outside 0) 7] ++ replicate 4 (SubStep (Outside 0)) ++ [CtxStep 0 WakeUp; CtxStep 0 Run].
(** The second context is idle and enters its callback; the coroutine of the
    first submits task 8 to it; the callback goes on. *)
Definition late_task : list label :=
  replicate 3 (CtxStep 1 Run) ++ [Submit (Worker 0) 8] ++ replicate 4 (SubStep (Worker 0)) ++
  [CtxStep 1 WakeUp; CbStep 1; CbStep 1].
(** The first context runs dry, and stops everybody. *)
Definition early_stop : list label :=
  replicate 3 (CtxStep 0 Run) ++ replicate 5 (CbStep 0) ++ replicate 4 (CtxStep 1 Run).

(** C12: the scheduler can stop too early. Context 1 finds its queue empty and
    enters its callback; before the callback takes the flag down, the coroutine
    that context 0 runs submits task 8, which goes to context 1: the submission
    finds the flag still up and adds nothing to the token, and the callback
    then takes the flag down and gives back the count that should have stood
    for the task. When context 0 runs dry it finds the token at its own count
    and stops everybody, while task 8 is queued: context 1 leaves its loop (and
    deinit empties its queue), and the task is never run. *)
Theorem scheduler_stops_early :
  ∃ s tr, Prelude.exec two_m (first_task ++ late_task ++ early_stop) two_contexts = Some (s, tr) ∧
    tr = [Called (Outside 0) 7; Submitted (Outside 0) 7 0; At 0 (Queued 7); At 1 StopCb;
          Called (Worker 0) 8; Submitted (Worker 0) 8 1; At 1 (Queued 8);
          At 0 (Popped 7); At 0 (Cleaned 7); At 0 StopCb; StopAll 0] ∧
    (∃ c, m_ctxs s !! 1%nat = Some c ∧ at_pc c = Stopped ∧ m_task_queue (egn (core c)) = []) ∧ At 1 (Popped 8) ∉ tr.
Proof.
  eexists _, _. split; [vm_compute; reflexivity|]. split; [done|]. split; [eexists; split; [done|]; by split|].
  repeat (apply not_elem_of_cons; split; [done|]). apply not_elem_of_nil.
Qed.

(** The other way: context 1 is idle once; the coroutine of context 0 submits
    task 8 to it, and is held up with the flag of context 1 raised and the
    token not yet; of two submissions of another thread the second brings
    context 1 task 10; it runs it, is idle again, takes the flag down, and
    finds the token at its own count although context 0 is busy. *)
Definition between_counters : list label :=
  first_task ++ replicate 3 (CtxStep 1 Run) ++
  [CbStep 1; CbStep 1; Submit (Worker 0) 8; SubStep (Worker 0); SubStep (Worker 0)] ++
  [Submit (Outside 0) 9] ++ replicate 4 (SubStep (Outside 0)) ++ [Submit (Outside 0) 10] ++ replicate 4 (SubStep (Outside 0)) ++
  [CtxStep 1 WakeUp] ++ replicate 7 (CtxStep 1 Run) ++ [CbStep 1; CbStep 1].

(** the scheduler stops while a submission is between its two counters,
    another task is queued and a coroutine is running. *)
Theorem scheduler_stops_between :
  ∃ s tr, Prelude.exec two_m between_counters two_contexts = Some (s, tr ++ [StopAll 1]) ∧
    subs s !! Worker 0 = Some (8, FetchAdd 1 0) ∧
    ∃ c, m_ctxs s !! 0%nat = Some c ∧ at_pc c = Work 1 ∧ m_task_queue (egn (core c)) = [7; 9].
Proof.
  eexists _, [_; _; _; _; _; _; _; _; _; _; _; _; _; _]. split; [vm_compute; reflexivity|]. split; [done|].
  eexists. split; [done|]. by split.
Qed.

(** ** Witnesses *)
Lemma two_contexts_init : m_init two_m two_contexts.
Proof.
  eexists. split; [done|]. split; [done|].
  repeat (constructor; [exact (sim_context_fresh 4 ())|]). constructor.
Qed.

(** The second context is in its callback while task 8 is submitted. *)
Definition busy_schedule : list label :=
  first_task ++ replicate 3 (CtxStep 1 Run) ++ [CbStep 1; Submit (Worker 0) 8; SubStep (Worker 0); SubStep (Worker 0)].
Definition idle_schedule : list label :=
  first_task ++ replicate 3 (CtxStep 1 Run) ++ replicate 3 (CtxStep 0 Run) ++ [CbStep 1; CbStep 1; CbStep 0].

Lemma busy_reach : reach two_m (final two_m busy_schedule two_contexts) (trace two_m busy_schedule two_contexts).
Proof. apply exec_reach_final; [apply two_contexts_init|by vm_compute]. Defined.
Lemma idle_reach : reach two_m (final two_m idle_schedule two_contexts) (trace two_m idle_schedule two_contexts).
Proof. apply exec_reach_final; [apply two_contexts_init|by vm_compute]. Defined.

(** One submission and one callback in between: two flags, a token of 2. *)
Lemma stop_token_exact_witness :
  m_stop_token (final two_m busy_schedule two_contexts) = s32 (2 - 1 + 1).
Proof.
  pose proof (@stop_token_exact sim (list ptr) () sim_uring (list_queue 4) true 4 4 8 finisher 2 _ _ busy_reach) as Ht.
  etransitivity; [exact (proj2 (proj2 Ht))|]. by vm_compute.
Defined.

(** Context 0 finds nothing else that counts, and stops everybody. *)
Lemma stop_iff_idle_witness : ∃ s' es,
  step (H0 := list_queue 4) true 4 4 8 finisher (CbStep 0) (final two_m idle_schedule two_contexts) = Some (s', es) ∧
  es = [StopAll 0].
Proof.
  assert (Hsubs : subs (final two_m idle_schedule two_contexts) = ∅) by by vm_compute.
  assert (Hcbs : cbs (final two_m idle_schedule two_contexts) = {[ 0%nat := FetchSub 1 ]}) by by vm_compute.
  pose proof (@stop_iff_idle sim (list ptr) () sim_uring (list_queue 4) true 4 4 8 finisher 2
    (final two_m idle_schedule two_contexts) (trace two_m idle_schedule two_contexts) 0%nat 1) as Hx.
  destruct Hx as (s' & es & Hs & Hiff & _); [lia|by rewrite Hcbs|by rewrite Hsubs|exact idle_reach|by rewrite Hcbs|].
  exists s', es. split; [exact Hs|]. apply Hiff. by vm_compute.
Defined.

Lemma dispatch_fair_witness : (dispatches 6 (Dispatcher 3 5)).1 ≡ₚ [0; 1; 2; 0; 1; 2].
Proof. apply (dispatch_fair (Dispatcher 3 5) 2); simpl; lia. Defined.

Lemma context_ids_witness : (contexts_new 3 init_meta_info).1 = [(0, 0); (1, 1); (2, 2)].
Proof. apply (context_ids 3). lia. Defined.
