(* ===== verification/Idle.v ===== *)
(** * Contexts with nothing left to do

    What holds of a context once its worker has found it idle
    ([context::empty_wait_task], [engine::ready] in [context::run]): it stays
    idle until another thread submits a task, shows nothing, and has run and
    completed everything it was given; and a stop that was requested of it is
    not lost. *)
From S2P Require Import Prelude Effects Uring UringProxy IoAwaiter Engine Context.
Local Open Scope Z_scope.
Local Open Scope coro_scope.

(** Everything queued was run, every request started was completed. *)
Definition settled (tr : list event) : Prop :=
  popped tr ≡ₚ queued tr ∧ length (completed tr) = length (started tr).

(** Between its tasks and its completions. *)
Definition resting (p : pc) : bool := match p with Work (S _) | Handle _ _ => false | _ => true end.

(** The places from which a worker goes on to its eventfd. *)
Definition before_sleep (p : pc) : bool := match p with Work _ | CheckIdle | Poll | Wait => true | _ => false end.

Section idle.
Context {K Q C : Type} `{Uring K} `{TaskQueue Q}.
Context (fixfd : bool) (kQueCap kMax kCqEntries : nat) (resume : ptr → C → co_run (C:=C)).
Context {contents : Q → list ptr} `{!UringLaws K} `{!TaskQueueLaws Q kQueCap contents}.

Abbreviation ctx_step := (Context.step fixfd kQueCap kMax kCqEntries resume true).
Abbreviation ring c := (m_uring (m_upxy (egn (core c)))).
Abbreviation tasks c := (m_task_queue (egn (core c))).

Record quiet (c : context (K:=K) (Q:=Q) (C:=C)) : Prop := {
  q_pc : resting (at_pc c) = true;
  q_tasks : contents (tasks c) = [];
  q_wait : m_num_wait_task (core c) = 0;
  q_io : m_num_io_wait_submit (egn (core c)) = 0 ∧ m_num_io_running (egn (core c)) = 0;
  q_ring : inflight (ring c) = [] ∧ io_uring_cq (ring c) = [];
}.

(** Idle, or stopped and not waited for. *)
Definition at_rest (c : context) : Prop := at_pc c = Stopped ∧ m_num_wait_task (core c) = 0 ∨ quiet c.

Lemma at_rest_wait c : at_rest c → m_num_wait_task (core c) = 0.
Proof. intros [[_ Hw]|Hq]; [done|apply Hq]. Qed.

(** The condition under which [run] calls the stop callback. *)
Lemma idle_quiet c tr : live (contents:=contents) kCqEntries c tr → at_pc c = CheckIdle →
  empty_wait_task (core c) = true → ready (egn (core c)) = false → quiet c.
Proof.
  intros Hl Hpc He Hr. unfold empty_wait_task, empty_io, ready in *.
  apply andb_true_iff in He as [Hw [Hs Hn]%andb_true_iff].
  apply bool_decide_eq_true in Hw, Hs, Hn. apply negb_false_iff, bool_decide_eq_true in Hr.
  rewrite (was_size_ok (contents:=contents)) in Hr. apply length_zero_iff_nil in Hr.
  pose proof (io_count _ _ (l_io _ _ _ Hl)) as Hc. rewrite Hs, Hn in Hc.
  split; [by rewrite Hpc|done|done|done|]. split; apply length_zero_iff_nil; lia.
Qed.

Lemma quiet_settled c tr : live (contents:=contents) kCqEntries c tr → quiet c → settled tr.
Proof.
  intros Hl [Hpc Ht _ _ [Hf Hc]]. pose proof (l_tasks _ _ _ Hl) as Hp. rewrite Ht in Hp.
  split; [done|]. destruct (l_out _ _ _ Hl) as [_ Ho]. unfold outstanding, handled in Ho. rewrite Hf, Hc in Ho.
  destruct (at_pc c); simpl in *; try done; lia.
Qed.

Lemma settled_app tr es : es = [] ∨ es = [StopCb] → settled tr → settled (tr ++ es).
Proof.
  intros He [Hp Hc]. unfold settled.
  rewrite popped_app, queued_app, completed_app, started_app.
  destruct He as [-> | ->]; simpl; by rewrite !app_nil_r.
Qed.

(** *** Idle contexts stay so *)
Lemma quiet_goto c p stop owe : quiet c → resting p = true → quiet (Ctx (core c) p stop owe).
Proof. by intros [] Hp. Qed.

Lemma quiet_upxy c u p stop owe : quiet c → resting p = true → same_ring (ring c) (m_uring u) →
  quiet (Ctx (set_upxy u (core c)) p stop owe).
Proof. intros [? ? ? ? [Hf Hc]] Hp (Hf' & Hc' & _). split; try done. simpl. by rewrite Hf', Hc'. Qed.

Lemma quiet_poll c : quiet c → do_io_submit (core c) = Ok ((), core c, []).
Proof. intros Hq. unfold do_io_submit, mbind, prog_bind, get. rewrite decide_False; [done|]. destruct (q_io _ Hq); lia. Qed.

Lemma quiet_wait (c : context (K:=K) (Q:=Q) (C:=C)) cnt s es : Engine.wait_eventfd (core c) = Ok (cnt, s, es) →
  es = [] ∧ ∃ u, s = set_upxy u (core c) ∧ same_ring (ring c) (m_uring u).
Proof.
  unfold Engine.wait_eventfd, UringProxy.wait_eventfd, mbind, prog_bind, get.
  pose proof (eventfd_read_ok (m_efd (m_upxy (egn (core c)))) (ring c)) as Hr.
  destruct (eventfd_read _ _) as [| |u k]; [done..|]. intros [= <- <- <-]. split; [done|]. eexists. split; [done|apply Hr].
Qed.

Lemma quiet_peek c : quiet c → peek_cqes kQueCap (core c) = Ok ([], core c, []).
Proof.
  intros Hq. unfold peek_cqes, peek_batch_cqe, mbind, prog_bind, get.
  rewrite peek_batch_ok, (proj2 (q_ring _ Hq)), take_nil. rewrite decide_True by (simpl; lia). done.
Qed.

Lemma quiet_run c c' es : quiet c → run fixfd kQueCap kMax resume true c = Some (c', es) →
  at_rest c' ∧ (es = [] ∨ es = [StopCb] ∧ at_pc c = CheckIdle).
Proof.
  intros Hq Hr. pose proof (q_pc _ Hq) as Hpc. unfold run in Hr.
  destruct (at_pc c) as [|[|n]| | | |cnt|num l|] eqn:Hp; try done.
  - destruct (stop_requested c); injection Hr as <- <-.
    + split; [left; split; [done|apply Hq]|by left].
    + split; [right|by left]. apply quiet_goto; [done|]. unfold num_task_schedule.
      by rewrite (was_size_ok (contents:=contents)), (q_tasks _ Hq).
  - injection Hr as <- <-. split; [right; by apply quiet_goto|by left].
  - destruct (empty_wait_task (core c)); [destruct (ready (egn (core c)))|]; injection Hr as <- <-;
      (split; [right; refine (quiet_goto c _ _ _ Hq _); reflexivity|auto]).
  - unfold work in Hr. rewrite quiet_poll in Hr by done. injection Hr as <- <-. split; [right; by apply quiet_goto|by left].
  - apply work_ok in Hr as (cnt & s & Hx & ->). apply quiet_wait in Hx as (-> & u & -> & Hu).
    split; [right; by apply quiet_upxy|by left].
  - destruct (wake_by_cqe cnt).
    + unfold work in Hr. rewrite quiet_peek in Hr by done. injection Hr as <- <-. split; [right; by apply quiet_goto|by left].
    + injection Hr as <- <-. split; [right; by apply quiet_goto|by left].
Qed.

(** What other threads and the kernel do to any context, a [Push] apart. *)
Lemma wake_up_step c n c' es : owed c = S n → ctx_step WakeUp c = Some (c', es) →
  es = [] ∧ ∃ u, c' = Ctx (set_upxy u (core c)) (at_pc c) (stop_requested c) n ∧
    same_ring (ring c) (m_uring u) ∧ efd_count (m_uring u) = efd_count (ring c) + 2 ^ 44.
Proof.
  intros Hn Hs. simpl in Hs. rewrite Hn in Hs. unfold wake_up, mbind, prog_bind, get in Hs.
  destruct (write_eventfd _ _) as [| |r u] eqn:Hw; [done..|]. injection Hs as <- <-.
  destruct (write_flag_ok _ _ _ Hw) as (He & Hr & _). split; [done|]. by exists u.
Qed.

Lemma at_rest_step l c c' es : at_rest c → (∀ w h, l ≠ Push w h) → ctx_step l c = Some (c', es) →
  at_rest c' ∧ (es = [] ∨ es = [StopCb] ∧ l = Run ∧ at_pc c = CheckIdle).
Proof.
  intros Hr Hl Hs. destruct l as [|w h| | |p r]; [..|simpl in Hs].
  - destruct Hr as [[Hp _]|Hq]; [simpl in Hs; unfold run in Hs; by rewrite Hp in Hs|].
    destruct (quiet_run _ _ _ Hq Hs) as [? [|[? ?]]]; auto.
  - by destruct (Hl w h).
  - injection Hs as <- <-. split; [|by left].
    destruct Hr as [Hp|Hq]; [by left|right; apply quiet_goto; [done|apply Hq]].
  - destruct (owed c) as [|n] eqn:Hn; [simpl in Hs; by rewrite Hn in Hs|].
    destruct (wake_up_step _ _ _ _ Hn Hs) as (-> & u & -> & Hu & _). split; [|by left].
    destruct Hr as [Hp|Hq]; [by left|right; apply quiet_upxy; [done|apply Hq|done]].
  - case_decide; [|done]. destruct (kernel_complete _ _ _) as [k|] eqn:Hk; [|done]. injection Hs as <- <-.
    split; [|by left]. destruct Hr as [Hp|Hq]; [by left|]. right.
    destruct (complete_ok _ _ _ _ Hk) as ((l1 & l2 & Hf & _) & _). rewrite (proj1 (q_ring _ Hq)) in Hf. by destruct l1.
Qed.

(** A quiet worker can take its next step, unless it sleeps. *)
Lemma quiet_enabled c : quiet c → at_pc c ≠ Stopped → at_pc c = Wait ∧ efd_count (ring c) = 0 ∨
  is_Some (ctx_step Run c).
Proof.
  intros Hq Hns. pose proof (q_pc _ Hq) as Hpc. simpl. unfold run.
  destruct (at_pc c) as [|[|n]| | | |cnt|num l|] eqn:Hp; try done; try (right; by repeat case_match).
  - right. unfold work. by rewrite quiet_poll by done.
  - unfold work, Engine.wait_eventfd, UringProxy.wait_eventfd, mbind, prog_bind, get.
    pose proof (eventfd_read_ok (m_efd (m_upxy (egn (core c)))) (ring c)) as Hr.
    destruct (eventfd_read _ _) as [| |u k]; [by left|done|by right].
  - right. destruct (wake_by_cqe cnt); [|done]. unfold work. by rewrite quiet_peek by done.
Qed.

(** *** Only the idle branch of [run] calls the stop callback *)
Lemma handle_no_stop_cb e c s' es : handle_cqe_entry kMax resume e c = Ok ((), s', es) → stop_cbs es = [].
Proof.
  intros Hh. unfold handle_cqe_entry in Hh. apply bind_ok in Hh as (? & ? & ? & e1 & [= <- <- <-] & Hh & ->).
  destruct (infos c !! user_data e) as [i|]; [|done]. destruct (call_cb i (res e)) as [r|]; [|done].
  apply bind_ok in Hh as (? & ? & ? & e2 & [= <- <- <-] & Hh & ->).
  apply bind_ok in Hh as (? & ? & ? & e3 & [= <- <- <-] & Hh & ->).
  apply (submit_ran kQueCap kMax (contents:=contents) 0) in Hh; [apply (ran_popped _ _ _ _ Hh)|].
  intros h. by apply (exec_task_ran kQueCap).
Qed.

Lemma run_no_stop_cb c c' es : run fixfd kQueCap kMax resume true c = Some (c', es) → at_pc c ≠ CheckIdle → stop_cbs es = [].
Proof.
  intros Hr Hn. unfold run in Hr. destruct (at_pc c) as [|[|n]| | | |cnt|num [|e l]|] eqn:Hp; [..|done]; try done.
  - by destruct (stop_requested c); injection Hr as <- <-.
  - by injection Hr as <- <-.
  - apply work_ok in Hr as ([] & s & Hx & ->).
    apply (exec_one_ran kQueCap _ _ (contents:=contents) 0) in Hx as (h & q & es' & -> & _ & Hran).
    apply (ran_popped _ _ _ _ Hran).
  - apply work_ok in Hr as ([] & s & Hx & ->). unfold do_io_submit, mbind, prog_bind, get in Hx.
    by case_decide; injection Hx as <- <-.
  - apply work_ok in Hr as (cnt & s & Hx & ->). by apply quiet_wait in Hx as (-> & _).
  - destruct (wake_by_cqe cnt); [|by injection Hr as <- <-]. apply work_ok in Hr as (l & s & Hx & ->).
    unfold peek_cqes, mbind, prog_bind, get in Hx. case_decide; [|done]. by injection Hx as <- <- <-.
  - apply work_ok in Hr as ([] & s & Hx & ->). by injection Hx as <- <-.
  - apply work_ok in Hr as ([] & s & Hx & ->). by eapply handle_no_stop_cb.
Qed.

(** A worker that is at its eventfd has found itself idle, or has work left. *)
Definition parked (p : pc) : bool := match p with Poll | Wait | Reap _ => true | _ => false end.

(** Something is waited for. *)
Definition engaged (c : context (K:=K) (Q:=Q) (C:=C)) : Prop :=
  m_num_wait_task (core c) ≠ 0 ∨ m_num_io_wait_submit (egn (core c)) + m_num_io_running (egn (core c)) ≠ 0.

Lemma quiet_not_engaged c : quiet c → ¬ engaged c.
Proof. intros [_ _ Hw [Hs Hr] _] [He|He]; [done|lia]. Qed.

Lemma live_run_parked c c' es tr : live (contents:=contents) kCqEntries c tr → Z.of_nat (length (started tr)) < 2 ^ 32 →
  run fixfd kQueCap kMax resume true c = Some (c', es) → stop_cbs es = [] → parked (at_pc c') = true →
  engaged c' ∨ parked (at_pc c) = true ∧ (engaged c → engaged c').
Proof.
  intros Hl Hlt Hr Hs Hp. unfold run in Hr. destruct (at_pc c) as [|[|n]| | | |cnt|num [|e l]|] eqn:Hpc; [..|done].
  - by destruct (stop_requested c); injection Hr as <- <-.
  - by injection Hr as <- <-.
  - by apply work_ok in Hr as ([] & s & _ & ->).
  - destruct (empty_wait_task (core c)) eqn:He; [by destruct (ready (egn (core c))); injection Hr as <- <-|].
    injection Hr as <- <-. left. destruct (l_io _ _ _ Hl) as [_ Hw0 Hr0 _ _ _]. unfold engaged. simpl.
    unfold empty_wait_task, empty_io in He. destruct (decide (m_num_wait_task (core c) = 0)) as [Hw|]; [|by left]. right.
    rewrite bool_decide_true in He by done. simpl in He.
    apply andb_false_iff in He as [He|He]; apply bool_decide_eq_false in He; lia.
  - right. apply work_ok in Hr as ([] & s & Hx & ->). split; [done|]. intros [He|He]; [left|right].
    + unfold do_io_submit, mbind, prog_bind, get in Hx. by case_decide; injection Hx as <- <-.
    + pose proof (l_io _ _ _ Hl) as Hio. destruct (l_out _ _ _ Hl) as [Ho _].
      destruct (do_io_submit_ran (handled c) _ _ _ Hx Hio) as (_ & Hio' & _ & (Hf & Hc & _) & _); [lia|].
      simpl. rewrite (io_count _ _ Hio'), Hf, Hc. by rewrite <- (io_count _ _ Hio).
  - right. apply work_ok in Hr as (cnt & s & Hx & ->). apply quiet_wait in Hx as (_ & u & -> & _). done.
  - destruct (wake_by_cqe cnt); [|by injection Hr as <- <-]. apply work_ok in Hr as (l & s & _ & ->).
    simpl in Hp. by case_decide.
  - by apply work_ok in Hr as ([] & s & _ & ->).
  - by apply work_ok in Hr as ([] & s & _ & ->).
Qed.

Lemma other_parked l c c' es : l ≠ Run → ctx_step l c = Some (c', es) →
  at_pc c' = at_pc c ∧ (engaged c → engaged c').
Proof.
  intros Hl Hs. destruct l as [|w h| | |p r]; [done|simpl in Hs..].
  - unfold push in Hs. case_decide; [done|]. by destruct (try_push _ _); injection Hs as <- <-.
  - by injection Hs as <- <-.
  - destruct (owed c); [done|]. destruct (wake_up _ _) as [[[? s] ?]| | |] eqn:Hw; [|done..]. injection Hs as <- <-.
    unfold wake_up, mbind, prog_bind, get in Hw. destruct (write_eventfd _ _); [done..|]. by injection Hw as <- <-.
  - case_decide; [|done]. by destruct (kernel_complete _ _ _); [|done]; injection Hs as <- <-.
Qed.

(** *** A stop that was requested is not lost *)
Definition stop_due (c : context (K:=K) (Q:=Q) (C:=C)) : Prop :=
  (at_pc c = Stopped → stop_requested c = true) ∧
  (stop_requested c = true → before_sleep (at_pc c) = true → (0 < owed c)%nat ∨ 0 < efd_count (ring c)).

Lemma stop_due_fresh c : fresh c → stop_due c.
Proof. intros [(Hp & Hs & _) _ _ _ _]. split; congruence. Qed.

(** A step of the worker that lowers no count. *)
Lemma stop_due_same c p s : stop_due c → (p = Stopped → at_pc c = Stopped) → (before_sleep p = true → before_sleep (at_pc c) = true) →
  efd_count (ring c) <= efd_count (m_uring (m_upxy (egn s))) → stop_due (Ctx s p (stop_requested c) (owed c)).
Proof. intros [H1 Hd] Hp Hb He. split; simpl; [auto|]. intros Hs Hbs. destruct (Hd Hs (Hb Hbs)); [by left|right; lia]. Qed.

Lemma stop_due_run c c' es : stop_due c → run fixfd kQueCap kMax resume true c = Some (c', es) → stop_due c'.
Proof.
  intros Hd Hr. unfold run in Hr. destruct (at_pc c) as [|[|n]| | | |cnt|num [|e l]|] eqn:Hp; [..|done].
  - destruct (stop_requested c) eqn:Hs; injection Hr as <- <-; [done|]. split; simpl; [done|]. by rewrite Hs.
  - injection Hr as <- <-. apply (stop_due_same c); [done|done|by rewrite Hp|done].
  - apply work_ok in Hr as ([] & s & Hx & ->).
    apply (exec_one_ran kQueCap _ _ (contents:=contents) 0) in Hx as (h & q & es' & _ & _ & Hran).
    apply (stop_due_same c); [done|done|by rewrite Hp|]. rewrite (ran_efd _ _ _ _ Hran). simpl. lia.
  - destruct (empty_wait_task _); [destruct (ready _)|]; injection Hr as <- <-;
      (apply (stop_due_same c); [done|done|by rewrite Hp|done]).
  - apply work_ok in Hr as ([] & s & Hx & ->). apply (stop_due_same c); [done|done|by rewrite Hp|].
    unfold do_io_submit, mbind, prog_bind, get in Hx. case_decide; injection Hx as <- <-; simpl; [|done].
    by destruct (submit_io (m_upxy (egn (core c)))) as (_ & _ & ->).
  - apply work_ok in Hr as (cnt & s & _ & ->). split; simpl; done.
  - destruct (wake_by_cqe cnt); [|injection Hr as <- <-; split; simpl; done].
    apply work_ok in Hr as (l & s & _ & ->). by case_decide; split.
  - apply work_ok in Hr as ([] & s & _ & ->). by split.
  - apply work_ok in Hr as ([] & s & _ & ->). by split.
Qed.

Lemma stop_due_step l c c' es : stop_due c → ctx_step l c = Some (c', es) → stop_due c'.
Proof.
  intros Hd Hs. destruct l as [|w h| | |p r].
  - by eapply stop_due_run.
  - simpl in Hs. unfold push in Hs. case_decide; [done|]. destruct (try_push _ _); injection Hs as <- <-; [|done].
    destruct Hd as [Hd1 Hd2]. split; simpl; [done|]. intros _ _. left. lia.
  - injection Hs as <- <-. destruct Hd as [Hd1 Hd2]. split; simpl; [done|]. intros _ _. left. lia.
  - destruct (owed c) as [|n] eqn:Hn; [simpl in Hs; by rewrite Hn in Hs|].
    destruct (wake_up_step _ _ _ _ Hn Hs) as (-> & u & -> & _ & He). destruct Hd as [Hd1 Hd2].
    pose proof (efd_count_nonneg (ring c)). split; simpl; [done|]. intros _ _. right. lia.
  - simpl in Hs. case_decide; [|done]. destruct (kernel_complete _ _ _) as [k|] eqn:Hk; [|done]. injection Hs as <- <-.
    destruct (complete_ok _ _ _ _ Hk) as (_ & _ & He).
    apply (stop_due_same c); [done|done|done|simpl; lia].
Qed.
End idle.
