(* ===== verification/Runtime.v ===== *)
(** * The scheduler and its contexts together

    Every context of a running scheduler behaves as a context on its own
    ([Context.v]), whatever the scheduler's threads do to it: what is proved of
    contexts holds of each of them. And [stop_impl] asks every one of them to
    stop. *)
From S2P Require Import Prelude Effects Uring UringProxy IoAwaiter Engine Context Scheduler.
Local Open Scope Z_scope.
Local Open Scope coro_scope.

Section runtime.
Context {K Q C : Type} `{Uring K} `{TaskQueue Q}.
Context (fixfd : bool) (kQueCap kMaxRecursiveDepth kCqEntries : nat) (resume : ptr → C → co_run (C:=C)).

Abbreviation sched n := (sched_machine (K:=K) fixfd kQueCap kMaxRecursiveDepth kCqEntries resume n).
Abbreviation scheduler := (Scheduler.scheduler (K:=K) (Q:=Q) (C:=C)).
Abbreviation ctx := (context_machine (K:=K) fixfd kQueCap kMaxRecursiveDepth kCqEntries resume true).

(** What a context shows in a trace of the scheduler. *)
Definition shown_by (i : nat) (tr : list sched_event) : list event :=
  omap (λ e, match e with At j e => if decide (j = i) then Some e else None | _ => None end) tr.

(** ** Each context runs as a context *)
Definition runs_alone (s : scheduler) (tr : list sched_event) : Prop :=
  ∀ i c, m_ctxs s !! i = Some c → reach ctx c (shown_by i tr).

Lemma shown_by_app i t1 t2 : shown_by i (t1 ++ t2) = shown_by i t1 ++ shown_by i t2.
Proof. apply omap_app. Qed.

Lemma shown_by_at i j es : shown_by i (At j <$> es) = if decide (j = i) then es else [].
Proof.
  unfold shown_by. case_decide as Hj; [subst|]; (induction es as [|e es IH]; simpl; [done|]).
  - rewrite decide_True by done. by f_equal.
  - by rewrite decide_False.
Qed.

Lemma alone_same s s' tr es : runs_alone s tr → m_ctxs s' = m_ctxs s → (∀ i, shown_by i es = []) →
  runs_alone s' (tr ++ es).
Proof. intros Hr Hc He i c Hi. rewrite shown_by_app, He, app_nil_r. apply Hr. by rewrite <- Hc. Qed.

Lemma alone_step i l s s' tr es : runs_alone s tr →
  ctx_step fixfd kQueCap kMaxRecursiveDepth kCqEntries resume i l s = Some (s', es) →
  runs_alone s' (tr ++ es).
Proof.
  intros Hr Hs. unfold ctx_step in Hs. destruct (m_ctxs s !! i) as [c|] eqn:Hi; [|done].
  destruct (Context.step _ _ _ _ _ _ _ _) as [[c' e]|] eqn:Hst; [|done]. injection Hs as <- <-.
  intros j d Hj. rewrite shown_by_app, shown_by_at. simpl in Hj. apply list_lookup_insert_Some in Hj.
  destruct Hj as [(<- & <- & _)|(Hne & Hj)].
  - rewrite decide_True by done. eapply reach_step; [by apply Hr|exact Hst].
  - rewrite decide_False by done. rewrite app_nil_r. by apply Hr.
Qed.

Lemma alone_sched l s s' tr es : runs_alone s tr →
  step fixfd kQueCap kMaxRecursiveDepth kCqEntries resume l s = Some (s', es) → runs_alone s' (tr ++ es).
Proof.
  intros Hr Hs. destruct l as [i l|t h|t|i]; simpl in Hs.
  - destruct l; [|by eapply alone_step|done|by eapply alone_step|by eapply alone_step]. destruct (busy i s); [done|].
    destruct (ctx_step _ _ _ _ _ _ _ _) as [[s1 e]|] eqn:Hst; [|done]. injection Hs as <- <-.
    pose proof (alone_step _ _ _ _ _ _ Hr Hst) as Hr1. by destruct (existsb _ _).
  - destruct (_ && _); [|done]. injection Hs as <- <-. by apply (alone_same s).
  - destruct (subs s !! t) as [[h p]|]; [|done]. simpl in Hs. destruct p as [|k|k old|k]; simpl in Hs.
    + case_decide; [done|]. injection Hs as <- <-. by apply (alone_same s).
    + destruct (m_ctx_stop_flag s !! k); [|done]. injection Hs as <- <-. by apply (alone_same s).
    + injection Hs as <- <-. by apply (alone_same s).
    + destruct (ctx_step _ _ _ _ _ _ _ _) as [[s1 e]|] eqn:Hst; [|done]. injection Hs as <- <-.
      intros j c Hj. change (Submitted t h k :: e) with ([Submitted t h k] ++ e).
      rewrite !shown_by_app. simpl. rewrite <- shown_by_app. by eapply alone_step.
  - destruct (cbs s !! i) as [p|]; [|done]. simpl in Hs. destruct p as [|cnt|k]; simpl in Hs.
    + destruct (m_ctx_stop_flag s !! i); [|done]. injection Hs as <- <-. by apply (alone_same s).
    + case_decide; injection Hs as <- <-; by apply (alone_same s).
    + unfold stop_impl in Hs. case_decide.
      * destruct (ctx_step _ _ _ _ _ _ _ _) as [[s1 e]|] eqn:Hst; [|done]. injection Hs as <- <-.
        exact (alone_step _ _ _ _ _ _ Hr Hst).
      * injection Hs as <- <-. by apply (alone_same s).
Qed.

Lemma alone_reach n s tr : reach (sched n) s tr → runs_alone s tr.
Proof.
  revert s tr. apply reach_inv_tr.
  - intros s (ctxs & -> & _ & Hf) i c Hi. apply reach_init. exact (Forall_lookup_1 _ _ _ _ Hf Hi).
  - intros s tr l s' es Hr Hs. exact (alone_sched _ _ _ _ _ Hr Hs).
Qed.

(** ** Where submissions go *)
Definition called (tr : list sched_event) : list (thread * ptr) :=
  omap (λ e, match e with Called t h => Some (t, h) | _ => None end) tr.
Definition submitted (tr : list sched_event) : list (thread * ptr) :=
  omap (λ e, match e with Submitted t h _ => Some (t, h) | _ => None end) tr.
(** The contexts they went to, and the handles that went to context [i]. *)
Definition sent (tr : list sched_event) : list nat :=
  omap (λ e, match e with Submitted _ _ i => Some i | _ => None end) tr.
Definition handed (i : nat) (tr : list sched_event) : list ptr :=
  omap (λ e, match e with Submitted _ h j => if decide (j = i) then Some h else None | _ => None end) tr.
(** What a context was given: queued, or turned away by its full queue. *)
Definition refused (es : list event) : list ptr :=
  omap (λ e, match e with Dropped h | Elsewhere h => Some h | _ => None end) es.
Definition arrived (es : list event) : list ptr :=
  omap (λ e, match e with Queued h | Dropped h | Elsewhere h => Some h | _ => None end) es.

(** The calls in progress, and the contexts that those among them that have
    passed the dispatcher are for. *)
Definition target (p : sub_pc) : option nat :=
  match p with Dispatching => None | FetchOr i | FetchAdd i _ | Pushing i => Some i end.
Definition ongoing (s : scheduler) : list (thread * ptr) :=
  omap (λ x : thread * (ptr * sub_pc), Some (x.1, x.2.1)) (map_to_list (subs s)).
Definition on_the_way (s : scheduler) : list nat :=
  omap (λ x : thread * (ptr * sub_pc), target x.2.2) (map_to_list (subs s)).

Lemma arrived_perm es : arrived es ≡ₚ queued es ++ refused es.
Proof.
  induction es as [|e es IH]; [done|]. destruct e; csimpl; rewrite ?IH; try done; by rewrite Permutation_middle.
Qed.

Record dispatched (n : nat) (s : scheduler) (tr : list sched_event) : Prop := {
  g_next : m_dispatcher s = (dispatches (length (sent tr ++ on_the_way s)) (dispatcher_init (Z.of_nat n))).2;
  g_sent : sent tr ++ on_the_way s ≡ₚ
    Z.to_nat <$> (dispatches (length (sent tr ++ on_the_way s)) (dispatcher_init (Z.of_nat n))).1;
  g_calls : called tr ≡ₚ submitted tr ++ ongoing s;
  g_handed : ∀ i, handed i tr ⊆+ arrived (shown_by i tr);
}.

(** Steps that show nothing of a call, and keep the calls in progress. *)
Lemma dispatched_same n s s' tr es : dispatched n s tr → m_dispatcher s' = m_dispatcher s →
  on_the_way s' = on_the_way s → ongoing s' = ongoing s →
  called es = [] ∧ submitted es = [] ∧ sent es = [] ∧ (∀ i, handed i es = []) → dispatched n s' (tr ++ es).
Proof.
  intros [Hn Hs Hc Hh] Hd Ho Hg (E1 & E2 & E3 & E4). split; try intros i;
    rewrite ?Hd, ?Ho, ?Hg, ?shown_by_app; unfold called, submitted, sent, handed, arrived in *;
    rewrite ?omap_app, ?E1, ?E2, ?E3, ?E4, ?app_nil_r; try done. by apply submseteq_inserts_r.
Qed.

Lemma no_calls j es : called (At j <$> es) = [] ∧ submitted (At j <$> es) = [] ∧ sent (At j <$> es) = [] ∧
  ∀ i, handed i (At j <$> es) = [].
Proof. by induction es as [|e es (H1 & H2 & H3 & H4)]. Qed.

Lemma on_the_way_same s s' : subs s' = subs s → on_the_way s' = on_the_way s ∧ ongoing s' = ongoing s.
Proof. unfold on_the_way, ongoing. by intros ->. Qed.

Lemma ctx_step_shape i l s s' es : ctx_step fixfd kQueCap kMaxRecursiveDepth kCqEntries resume i l s = Some (s', es) →
  m_dispatcher s' = m_dispatcher s ∧ subs s' = subs s ∧ cbs s' = cbs s ∧ ∃ e c c', es = At i <$> e ∧
    Context.step fixfd kQueCap kMaxRecursiveDepth kCqEntries resume true l c = Some (c', e).
Proof.
  unfold ctx_step. destruct (m_ctxs s !! i) as [c|]; [|done]. destruct (Context.step _ _ _ _ _ _ _ _) as [[c' e]|] eqn:Hc; [|done].
  intros [= <- <-]. split_and!; [done..|]. by exists e, c, c'.
Qed.

(** A call moves on, within the scheduler. *)
Lemma dispatched_sub n s s' t h p q tr : dispatched n s tr → subs s !! t = Some (h, p) → target p = target q →
  m_dispatcher s' = m_dispatcher s → subs s' = <[t := (h, q)]> (subs s) → dispatched n s' (tr ++ []).
Proof.
  intros [Hn Hs Hc Hh] Ht Hpq Hd Hsub. rewrite app_nil_r.
  assert (Ho : on_the_way s' ≡ₚ on_the_way s).
  { unfold on_the_way. rewrite Hsub, (omap_entry_insert _ (subs s)), (omap_entry _ (subs s) _ _ Ht). simpl. by rewrite Hpq. }
  assert (Hg : ongoing s' ≡ₚ ongoing s).
  { unfold ongoing. by rewrite Hsub, (omap_entry_insert _ (subs s)), (omap_entry _ (subs s) _ _ Ht). }
  split; rewrite ?Hd, ?Hg, ?Ho; done.
Qed.

Lemma dispatched_call n s t h tr : dispatched n s tr → subs s !! t = None →
  dispatched n (set_sub t (Some (h, Dispatching)) s) (tr ++ [Called t h]).
Proof.
  intros [Hn Hs Hc Hh] Ht. assert (Hsub : subs (set_sub t (Some (h, Dispatching)) s) = <[t := (h, Dispatching)]> (subs s)) by done.
  assert (Ho : on_the_way (set_sub t (Some (h, Dispatching)) s) ≡ₚ on_the_way s).
  { unfold on_the_way. by rewrite Hsub, (omap_entry_insert _ (subs s)), delete_id. }
  assert (Hg : ongoing (set_sub t (Some (h, Dispatching)) s) ≡ₚ (t, h) :: ongoing s).
  { unfold ongoing. by rewrite Hsub, (omap_entry_insert _ (subs s)), delete_id. }
  split; try intros i; rewrite ?Ho, ?Hg; unfold called, submitted, sent, handed in *; rewrite ?omap_app, ?shown_by_app; csimpl;
    rewrite ?app_nil_r; [done|done| |by apply Hh].
  rewrite Hc, <- app_assoc. f_equiv. apply Permutation_app_comm.
Qed.

(** The dispatcher gives a call its context. *)
Lemma dispatched_dispatch n s t h tr : dispatched n s tr → subs s !! t = Some (h, Dispatching) →
  let '(i, d) := dispatch (m_dispatcher s) in
  dispatched n (set_sub t (Some (h, FetchOr (Z.to_nat i))) (set_dispatcher d s)) (tr ++ []).
Proof.
  intros [Hn Hs Hc Hh] Ht. destruct (dispatch (m_dispatcher s)) as [i d] eqn:Hd. rewrite app_nil_r.
  set (s' := set_sub t (Some (h, FetchOr (Z.to_nat i))) (set_dispatcher d s)).
  assert (Hsub : subs s' = <[t := (h, FetchOr (Z.to_nat i))]> (subs s)) by done.
  assert (Ho : on_the_way s' ≡ₚ Z.to_nat i :: on_the_way s).
  { unfold on_the_way. by rewrite Hsub, (omap_entry_insert _ (subs s)), (omap_entry _ (subs s) _ _ Ht). }
  assert (Hg : ongoing s' ≡ₚ ongoing s).
  { unfold ongoing. by rewrite Hsub, (omap_entry_insert _ (subs s)), (omap_entry _ (subs s) _ _ Ht). }
  assert (Hlen : length (sent tr ++ on_the_way s') = S (length (sent tr ++ on_the_way s))).
  { rewrite Ho, <- Permutation_middle. done. }
  split; [| |by rewrite Hg|done]; rewrite Hlen, dispatches_snoc, <- Hn, Hd; [done|].
  simpl. rewrite Ho, fmap_app, <- Hs. by rewrite <- Permutation_middle, (Permutation_app_comm _ [Z.to_nat i]).
Qed.

(** The call gives its handle to the context. *)
Lemma dispatched_push n s s1 t h i w e tr : dispatched n s tr → subs s !! t = Some (h, Pushing i) →
  ctx_step fixfd kQueCap kMaxRecursiveDepth kCqEntries resume i (Push w h) s = Some (s1, e) →
  dispatched n (set_sub t None s1) (tr ++ Submitted t h i :: e).
Proof.
  intros [Hn Hs Hc Hh] Ht Hst. destruct (ctx_step_shape _ _ _ _ _ Hst) as (Hd & Hsub & _ & es & c & c' & -> & Hp).
  assert (Harr : arrived es = [h]).
  { simpl in Hp. unfold push in Hp. case_decide; [done|]. destruct (try_push _ _); injection Hp as <- <-; [done|].
    by destruct (_ && _). }
  assert (Hsub' : subs (set_sub t None s1) = delete t (subs s)) by (simpl; by rewrite Hsub).
  assert (Ho : on_the_way s ≡ₚ i :: on_the_way (set_sub t None s1)).
  { unfold on_the_way. by rewrite Hsub', (omap_entry _ (subs s) _ _ Ht). }
  assert (Hg : ongoing s ≡ₚ (t, h) :: ongoing (set_sub t None s1)).
  { unfold ongoing. by rewrite Hsub', (omap_entry _ (subs s) _ _ Ht). }
  destruct (no_calls i es) as (E1 & E2 & E3 & E4).
  change (Submitted t h i :: (At i <$> es)) with ([Submitted t h i] ++ (At i <$> es)).
  assert (Hsent : sent (tr ++ [Submitted t h i] ++ (At i <$> es)) ++ on_the_way (set_sub t None s1) ≡ₚ sent tr ++ on_the_way s).
  { unfold sent in *. rewrite !omap_app, E3, Ho, app_nil_r, <- app_assoc. done. }
  split.
  - rewrite (Permutation_length Hsent). simpl. by rewrite Hd.
  - by rewrite (Permutation_length Hsent), Hsent.
  - unfold called, submitted in *. rewrite !omap_app, E1, E2, !app_nil_r, Hc, Hg, <- app_assoc. done.
  - intros j. rewrite !shown_by_app, shown_by_at. unfold handed, arrived in *. rewrite !omap_app, E4, app_nil_r. csimpl.
    case_decide; [|by rewrite !app_nil_r]. rewrite Harr. by apply submseteq_app.
Qed.

Lemma dispatched_step n l s s' tr es : dispatched n s tr →
  step fixfd kQueCap kMaxRecursiveDepth kCqEntries resume l s = Some (s', es) → dispatched n s' (tr ++ es).
Proof.
  intros Hg Hs. assert (Hctx : ∀ i l s1 e, ctx_step fixfd kQueCap kMaxRecursiveDepth kCqEntries resume i l s = Some (s1, e) →
    ∀ s2, subs s2 = subs s1 → m_dispatcher s2 = m_dispatcher s1 → dispatched n s2 (tr ++ e)).
  { intros i l0 s1 e Hst s2 Hb Hd. destruct (ctx_step_shape _ _ _ _ _ Hst) as (Hd1 & Hb1 & _ & e0 & _ & _ & -> & _).
    destruct (on_the_way_same s s2) as [Ho Hg']; [congruence|].
    apply (dispatched_same n s); [done|congruence|done|done|apply no_calls]. }
  destruct l as [i l|t h|t|i]; simpl in Hs.
  - destruct l; try done; try (by eapply Hctx). destruct (busy i s); [done|].
    destruct (ctx_step _ _ _ _ _ _ _ _) as [[s1 e]|] eqn:Hst; [|done]. injection Hs as <- <-.
    eapply Hctx; [exact Hst|by destruct (existsb _ _)..].
  - destruct (bool_decide (subs s !! t = None)) eqn:Ht; [|done]. apply bool_decide_eq_true in Ht.
    destruct (match t with Worker _ => _ | Outside _ => _ end); [|done]. injection Hs as <- <-. by apply dispatched_call.
  - destruct (subs s !! t) as [[h p]|] eqn:Ht; [|done]. simpl in Hs. destruct p as [|k|k old|k]; simpl in Hs.
    + case_decide; [done|]. injection Hs as <- <-. exact (dispatched_dispatch n s t h tr Hg Ht).
    + destruct (m_ctx_stop_flag s !! k) as [f|]; [|done]. injection Hs as <- <-.
      by apply (dispatched_sub n s _ t h (FetchOr k) (FetchAdd k f)).
    + injection Hs as <- <-. by apply (dispatched_sub n s _ t h (FetchAdd k old) (Pushing k)).
    + destruct (ctx_step _ _ _ _ _ _ _ _) as [[s1 e]|] eqn:Hst; [|done]. injection Hs as <- <-. by eapply dispatched_push.
  - destruct (cbs s !! i) as [p|]; [|done]. simpl in Hs. destruct p as [|cnt|k]; simpl in Hs.
    + destruct (m_ctx_stop_flag s !! i); [|done]. injection Hs as <- <-. by eapply dispatched_same.
    + case_decide; injection Hs as <- <-; by eapply dispatched_same.
    + unfold stop_impl in Hs. case_decide; [|injection Hs as <- <-; by eapply dispatched_same].
      destruct (ctx_step _ _ _ _ _ _ _ _) as [[s1 e]|] eqn:Hst; [|done]. injection Hs as <- <-. by eapply Hctx.
Qed.

Lemma dispatched_reach n s tr : reach (sched n) s tr → dispatched n s tr.
Proof.
  revert s tr. apply reach_inv_tr; [|intros s tr l s' es; apply dispatched_step].
  intros s (ctxs & -> & <- & _). by split.
Qed.

Lemma handed_sent i tr : length (handed i tr) = length (filter (λ j, j = i) (sent tr)).
Proof.
  unfold handed, sent. induction tr as [|e tr IH]; [done|]. destruct e as [j e|t h|t h j|j]; csimpl; try done.
  rewrite filter_cons. by case_decide; csimpl; rewrite IH.
Qed.

(** Of [k] dispatches over [n] contexts, each gets its share. *)
Lemma round_count n i : (i < n)%nat → ∀ k,
  Z.of_nat (length (filter (λ j, j = i) ((λ j : nat, (j mod n)%nat) <$> seq 0 k))) = (Z.of_nat k + Z.of_nat (n - 1 - i)) / Z.of_nat n.
Proof.
  intros Hi. induction k as [|k IH]; [symmetry; apply Z.div_small; simpl; lia|].
  rewrite seq_S, fmap_app, filter_app, length_app, Nat2Z.inj_add, IH. cbn [fmap list_fmap Nat.add].
  rewrite filter_cons, filter_nil. pose proof (Nat.mod_upper_bound k n ltac:(lia)) as Hm.
  pose proof (Nat.div_mod_eq k n) as Hk. revert Hm Hk. generalize (k mod n)%nat, (k / n)%nat. intros r q Hm ->.
  assert (Hq : ∀ a, (0 <= a < Z.of_nat n)%Z → (Z.of_nat (n * q) + a) / Z.of_nat n = Z.of_nat q).
  { intros a Ha. symmetry. apply Z.div_unique with a; lia. }
  assert (Hq1 : ∀ a, (Z.of_nat n <= a < 2 * Z.of_nat n)%Z → (Z.of_nat (n * q) + a) / Z.of_nat n = Z.of_nat q + 1).
  { intros a Ha. symmetry. apply Z.div_unique with (a - Z.of_nat n); lia. }
  case_decide as Hr; cbn [length].
  - replace (Z.of_nat (n * q + r) + Z.of_nat (n - 1 - i)) with (Z.of_nat (n * q) + (Z.of_nat n - 1)) by lia.
    replace (Z.of_nat (S (n * q + r)) + Z.of_nat (n - 1 - i)) with (Z.of_nat (n * q) + Z.of_nat n) by lia.
    rewrite Hq, Hq1; lia.
  - destruct (decide (r < i)%nat).
    + replace (Z.of_nat (n * q + r) + Z.of_nat (n - 1 - i)) with (Z.of_nat (n * q) + Z.of_nat (r + (n - 1 - i))) by lia.
      replace (Z.of_nat (S (n * q + r)) + Z.of_nat (n - 1 - i)) with (Z.of_nat (n * q) + Z.of_nat (S r + (n - 1 - i))) by lia.
      rewrite !Hq; lia.
    + replace (Z.of_nat (n * q + r) + Z.of_nat (n - 1 - i)) with (Z.of_nat (n * q) + Z.of_nat (r + (n - 1 - i))) by lia.
      replace (Z.of_nat (S (n * q + r)) + Z.of_nat (n - 1 - i)) with (Z.of_nat (n * q) + Z.of_nat (S r + (n - 1 - i))) by lia.
      rewrite !Hq1; lia.
Qed.

Lemma round_share n k i : (i < n)%nat →
  let c := Z.of_nat (length (filter (λ j, j = i) ((λ j : nat, (j mod n)%nat) <$> seq 0 k))) in
  Z.of_nat k / Z.of_nat n <= c <= Z.of_nat k / Z.of_nat n + 1.
Proof.
  intros Hi c. unfold c. rewrite round_count by done. split.
  - apply Z.div_le_mono; lia.
  - transitivity ((Z.of_nat k + 1 * Z.of_nat n) / Z.of_nat n); [apply Z.div_le_mono; lia|]. rewrite Z.div_add; lia.
Qed.

Lemma dispatches_round n k : Z.of_nat k <= 2 ^ 64 →
  Z.to_nat <$> (dispatches k (dispatcher_init (Z.of_nat n))).1 = (λ j : nat, (j mod n)%nat) <$> seq 0 k.
Proof.
  intros Hk. rewrite dispatches_eq by (simpl; lia). rewrite <- list_fmap_compose. apply list_fmap_ext. intros _ j _.
  change (Z.to_nat ((0 + Z.of_nat j) mod Z.of_nat n) = (j mod n)%nat). by rewrite Z.add_0_l, <- Nat2Z.inj_mod, Nat2Z.id.
Qed.

(** ** stop_impl *)
Definition notified (c : context) : context (K:=K) (Q:=Q) (C:=C) :=
  Ctx (core c) (at_pc c) true (S (owed c)).

Lemma stop_impl_run i m : ∀ k s, cbs s !! i = Some (Notify k) → length (m_ctxs s) = (k + m)%nat →
  ∃ s', Prelude.exec (sched (k + m)) (replicate (S m) (CbStep i)) s = Some (s', []) ∧ cbs s' !! i = None ∧
    m_ctxs s' = take k (m_ctxs s) ++ (notified <$> drop k (m_ctxs s)).
Proof.
  induction m as [|m IH]; intros k s Hi Hl.
  - exists (set_cb i None s). simpl. rewrite Hi. simpl. unfold stop_impl. rewrite decide_False by lia.
    split_and!; [done|apply lookup_partial_alter_eq|]. by rewrite take_ge, drop_ge, app_nil_r by lia.
  - destruct (lookup_lt_is_Some_2 (m_ctxs s) k) as [c Hc]; [lia|].
    set (s1 := set_cb i (Some (Notify (S k))) (set_ctx k (notified c) s)).
    assert (Hst : step fixfd kQueCap kMaxRecursiveDepth kCqEntries resume (CbStep i) s = Some (s1, [])).
    { simpl. rewrite Hi. simpl. unfold stop_impl. rewrite decide_True by lia. unfold ctx_step. by rewrite Hc. }
    destruct (IH (S k) s1) as (s' & He & Hn & Hm).
    { apply lookup_partial_alter_eq. }
    { simpl. rewrite length_insert. lia. }
    exists s'. split_and!; [|done|].
    + change (replicate (S (S m)) (CbStep i)) with (CbStep i :: replicate (S m) (CbStep i)).
      replace (k + S m)%nat with (S k + m)%nat by lia. exact (exec_cons (sched (S k + m)) (CbStep i) _ s s1 [] [] s' [] Hst He eq_refl).
    + rewrite Hm. unfold s1. cbn [m_ctxs set_cb set_ctx]. rewrite (drop_S (m_ctxs s) c k Hc), fmap_cons.
      rewrite (take_S_r _ _ (notified c)) by (apply list_lookup_insert_eq; lia).
      rewrite take_insert_ge, drop_insert_lt, <- app_assoc by lia. done.
Qed.
End runtime.

(** ** Properties *)

(** C9: no submission to the scheduler is lost or made twice, and round robin
    spreads them: in every interleaving of threads that submit, workers, stop
    callbacks and the kernel, the calls of [submit] made are those that have
    handed their task to a context and those in progress, each once; what was
    handed to a context it has queued or, its queue being full, turned away;
    the contexts that tasks went to or are on the way to are those of a
    sequential round robin; so, until the counter of the dispatcher wraps
    around, each of [n] contexts is given its share of [k] submissions, [k / n]
    or one more. *)
Theorem submissions_balanced {K Q C} `{Uring K} `{TaskQueue Q} fixfd kQueCap kMax kCqEntries
    (resume : ptr → C → co_run) n s tr :
  reach (sched_machine (K:=K) fixfd kQueCap kMax kCqEntries resume n) s tr →
  called tr ≡ₚ submitted tr ++ ongoing s ∧
  (∀ i, handed i tr ⊆+ queued (shown_by i tr) ++ refused (shown_by i tr)) ∧
  let k := length (sent tr ++ on_the_way s) in
  sent tr ++ on_the_way s ≡ₚ Z.to_nat <$> (dispatches k (dispatcher_init (Z.of_nat n))).1 ∧
  (Z.of_nat k <= 2 ^ 64 → ∀ i, (i < n)%nat →
    Z.of_nat k / Z.of_nat n <=
      Z.of_nat (length (handed i tr) + length (filter (λ j, j = i) (on_the_way s))) <= Z.of_nat k / Z.of_nat n + 1).
Proof.
  intros Hr. pose proof (dispatched_reach _ _ _ _ _ _ _ _ Hr) as [_ Hs Hc Hh]. split; [done|].
  split; [intros i; by rewrite <- arrived_perm|]. intros k. split; [done|]. intros Hk i Hi.
  rewrite handed_sent, <- length_app, <- filter_app. rewrite dispatches_round in Hs by done.
  rewrite (Permutation_length (filter_Permutation _ _ _ Hs)). by apply round_share.
Qed.

(** [stop_impl] stops everything: the callback that decides to stop asks
    each context once, in order, whatever they are doing, and leaves each with
    its stop requested and a wake-up on the way; then the callback is over. *)
Theorem stop_impl_stops_all {K Q C} `{Uring K} `{TaskQueue Q} fixfd kQueCap kMax kCqEntries
    (resume : ptr → C → co_run) (s : Scheduler.scheduler (K:=K) (Q:=Q) (C:=C)) i :
  cbs s !! i = Some (Notify 0) →
  ∃ s', Prelude.exec (sched_machine fixfd kQueCap kMax kCqEntries resume (length (m_ctxs s)))
          (replicate (S (length (m_ctxs s))) (CbStep i)) s = Some (s', []) ∧ cbs s' !! i = None ∧
    m_ctxs s' = (λ c, Ctx (core c) (at_pc c) true (S (owed c))) <$> m_ctxs s.
Proof.
  intros Hi. by destruct (stop_impl_run fixfd kQueCap kMax kCqEntries resume i (length (m_ctxs s)) 0 s Hi eq_refl)
    as (s' & He & Hn & Hm); eauto.
Qed.

(** ** Witnesses *)
(** Task 7 went to the first context, task 8 is on its way to the second. *)
Lemma submissions_balanced_witness :
  called (trace two_m busy_schedule two_contexts) ≡ₚ [(Outside 0, 7); (Worker 0, 8)] ∧
  handed 0 (trace two_m busy_schedule two_contexts) = [7] ∧
  handed 1 (trace two_m busy_schedule two_contexts) = [] ∧ on_the_way (final two_m busy_schedule two_contexts) = [1%nat] ∧
  1 <= Z.of_nat (length (handed 1 (trace two_m busy_schedule two_contexts)) +
                 length (filter (λ j, j = 1%nat) (on_the_way (final two_m busy_schedule two_contexts)))) <= 2.
Proof.
  destruct (submissions_balanced (H0 := list_queue 4) true 4 4 8 finisher 2 _ _ busy_reach) as (Hc & _ & _ & Hb).
  assert (Hlen : length (sent (trace two_m busy_schedule two_contexts) ++
    on_the_way (final two_m busy_schedule two_contexts)) = 2%nat) by by vm_compute.
  rewrite Hlen in Hb. split; [etransitivity; [exact Hc|]; by vm_compute|].
  split; [by vm_compute|]. split; [by vm_compute|]. split; [by vm_compute|]. apply (Hb ltac:(lia) 1%nat). lia.
Defined.

(** The callback of the second context stops both. *)
Definition stopping : scheduler (K:=sim) (Q:=list ptr) (C:=()) := set_cb 1 (Some (Notify 0)) two_contexts.
Lemma stop_impl_stops_all_witness : ∃ s',
  Prelude.exec two_m [CbStep 1; CbStep 1; CbStep 1] stopping = Some (s', []) ∧
  stop_requested <$> m_ctxs s' = [true; true] ∧ owed <$> m_ctxs s' = [1; 1]%nat.
Proof.
  destruct (stop_impl_stops_all (H0 := list_queue 4) true 4 4 8 finisher stopping 1 eq_refl) as (s' & He & _ & Hm).
  exists s'. split; [exact He|]. rewrite Hm. split; reflexivity.
Defined.
