(* ===== verification/Loop.v ===== *)
(** * scheduler::loop (src/scheduler.cpp): a whole program

    The main thread of a program submits tasks, calls [loop], which starts the
    contexts' threads and joins them, next to the scheduler and its contexts
    ([Scheduler.v], [Context.v]). [scheduler_stops_early] shows that stopping
    is not safe in general; under the discipline [orderly] it is: the scheduler
    is given its tasks before [loop], and whoever submits a coroutine to a
    context from outside does so while that context counts it as waiting, as
    the awaiters of comp/ do. *)
From S2P Require Import Prelude Effects Uring UringProxy IoAwaiter Engine Context Scheduler Idle Runtime.
Local Open Scope Z_scope.
Local Open Scope coro_scope.

Section loop.
Context {K Q C : Type} `{Uring K} `{TaskQueue Q}.
Context (fixfd : bool) (kQueCap kMax kCqEntries : nat) (resume : ptr → C → co_run (C:=C)).

Abbreviation scheduler := (Scheduler.scheduler (K:=K) (Q:=Q) (C:=C)).
Abbreviation context := (Context.context (K:=K) (Q:=Q) (C:=C)).
Abbreviation sched_step := (Scheduler.step fixfd kQueCap kMax kCqEntries resume).
Abbreviation one_step := (Context.step fixfd kQueCap kMax kCqEntries resume true).
Abbreviation sched n := (sched_machine (K:=K) fixfd kQueCap kMax kCqEntries resume n).

(** Where the main thread is; it is the thread [Outside 0]. *)
Inductive main_pc :=
  | Submitting                        (* before loop() *)
  | Starting (k : nat)                (* start_impl: m_ctxs[k] next *)
  | Joining (k : nat)                 (* loop_impl: m_ctxs[k]->join() next *)
  | Returned.

#[export] Instance main_pc_eq_dec : EqDecision main_pc.
Proof. solve_decision. Defined.

Record program := Program { main : main_pc; sch : scheduler }.

Inductive label :=
  | MainStep
  | Sched (l : Scheduler.label).
#[export] Instance label_eq_dec : EqDecision label.
Proof. solve_decision. Defined.

(** [start_impl] sets the stop callback of a context and starts its thread. *)
Definition start_impl (k : nat) (s : scheduler) : main_pc :=
  if decide (k < length (m_ctxs s))%nat then Starting (S k) else Joining 0.

(** The loop of [loop_impl]; [join] returns when the thread is over. *)
Definition join_next (k : nat) (s : scheduler) : option main_pc :=
  match m_ctxs s !! k with
  | Some c => match at_pc c with Stopped => Some (Joining (S k)) | _ => None end
  | None => Some Returned
  end.

Definition loop_impl (p : program) : option main_pc :=
  match main p with
  | Submitting => if decide (subs (sch p) !! Outside 0 = None) then Some (Starting 0) else None
  | Starting k => Some (start_impl k (sch p))
  | Joining k => join_next k (sch p)
  | Returned => None
  end.

(** Does the thread of context [i] exist? *)
Definition thread_started (i : nat) (m : main_pc) : bool :=
  match m with Submitting => false | Starting k => bool_decide (i < k)%nat | _ => true end.

Definition enabled (l : Scheduler.label) (m : main_pc) : bool :=
  match l with
  | CtxStep i Run => thread_started i m
  | Submit (Outside O) _ => match m with Submitting => true | _ => false end
  | _ => true
  end.

Definition step (l : label) (p : program) : option (program * list sched_event) :=
  match l with
  | MainStep => m ← loop_impl p; Some (Program m (sch p), [])
  | Sched l =>
      if enabled l (main p) then '(s, es) ← sched_step l (sch p); Some (Program (main p) s, es) else None
  end.

Definition loop_machine (n : nat) : machine program label sched_event :=
  Machine (λ p, main p = Submitting ∧ m_init (sched n) (sch p)) step.

(** ** The discipline *)
Definition still_waiting (i : nat) (s : scheduler) : bool :=
  match m_ctxs s !! i with Some c => negb (bool_decide (m_num_wait_task (core c) = 0)) | None => false end.
Definition submitting (p : program) : bool := match main p with Submitting => true | _ => false end.

Definition orderly (l : label) (p : program) : bool :=
  match l with
  | MainStep => negb (submitting p) || bool_decide (subs (sch p) = ∅)
  | Sched (Submit (Outside _) _) => submitting p
  | Sched (Submit (Worker _) _) => false
  | Sched (CtxStep i (Push _ _)) => submitting p || still_waiting i (sch p)
  | _ => true
  end.

Definition orderly_machine (n : nat) : machine program label sched_event := restrict orderly (loop_machine n).

Lemma loop_sched n p tr : reach (loop_machine n) p tr → reach (sched n) (sch p) tr.
Proof.
  induction 1 as [p [_ Hi]|p tr l p' es _ IH Hs]; [by constructor|]. simpl in Hs. destruct l as [|l]; simpl in Hs.
  - destruct (loop_impl p); [|done]. injection Hs as <- <-. by rewrite app_nil_r.
  - destruct (enabled l (main p)); [|done]. destruct (sched_step l (sch p)) as [[s e]|] eqn:Hst; [|done].
    injection Hs as <- <-. by econstructor.
Qed.

(** ** The steps of a scheduler that no one submits to *)
Inductive moves (s : scheduler) : list sched_event → scheduler → Prop :=
  | mv_ctx i l c c' es : m_ctxs s !! i = Some c → l ≠ NotifyStop →
      (∀ w h, l = Push w h → m_num_wait_task (core c) ≠ 0) → one_step l c = Some (c', es) → stop_cbs es = [] →
      moves s (At i <$> es) (set_ctx i c' s)
  | mv_idle i c : m_ctxs s !! i = Some c → at_pc c = CheckIdle → cbs s !! i = None →
      empty_wait_task (core c) = true → ready (egn (core c)) = false →
      moves s [At i StopCb] (set_cb i (Some FetchAnd) (set_ctx i (goto Poll c) s))
  | mv_and i f : cbs s !! i = Some FetchAnd → m_ctx_stop_flag s !! i = Some f →
      moves s [] (set_cb i (Some (FetchSub f)) (set_flag i 0 s))
  | mv_all i cnt : cbs s !! i = Some (FetchSub cnt) → m_stop_token s = cnt →
      moves s [StopAll i] (set_cb i (Some (Notify 0)) (set_token (s32 (m_stop_token s - cnt)) s))
  | mv_sub i cnt : cbs s !! i = Some (FetchSub cnt) → m_stop_token s ≠ cnt →
      moves s [] (set_cb i None (set_token (s32 (m_stop_token s - cnt)) s))
  | mv_notify i k c : cbs s !! i = Some (Notify k) → m_ctxs s !! k = Some c →
      moves s [] (set_cb i (Some (Notify (S k))) (set_ctx k (notified c) s))
  | mv_end i k : cbs s !! i = Some (Notify k) → (length (m_ctxs s) ≤ k)%nat →
      moves s [] (set_cb i None s).

Context {contents : Q → list ptr} `{!UringLaws K} `{!TaskQueueLaws Q kQueCap contents}.

(** A worker's step calls the stop callback in one place. *)
Lemma run_stop_cb i c c' es : one_step Run c = Some (c', es) → stop_cbs es = [] ∧ existsb is_stop_cb (At i <$> es) = false ∨
  at_pc c = CheckIdle ∧ empty_wait_task (core c) = true ∧ ready (egn (core c)) = false ∧ c' = goto Poll c ∧ es = [StopCb].
Proof.
  intros Hs. assert (Hb : ∀ es : list event, stop_cbs es = [] → existsb is_stop_cb (At i <$> es) = false).
  { intros l. induction l as [|e l IH]; [done|]. destruct e; simpl; try done; by apply IH. }
  destruct (at_pc c) eqn:Hp; try (left; assert (stop_cbs es = []) by
    (eapply (run_no_stop_cb fixfd kQueCap kMax resume (contents:=contents)); [exact Hs|congruence]); by auto).
  simpl in Hs. unfold run in Hs. rewrite Hp in Hs. destruct (empty_wait_task (core c)); [|by injection Hs as <- <-; left].
  destruct (ready (egn (core c))); injection Hs as <- <-; [by left|]. right. by destruct c.
Qed.

Lemma other_stop_cb l c c' es : l ≠ Run → one_step l c = Some (c', es) → stop_cbs es = [].
Proof.
  intros Hl Hs. destruct l as [|w h| | |p r]; [done|simpl in Hs..].
  - unfold push in Hs. case_decide; [done|]. destruct (try_push _ _); injection Hs as <- <-; [done|]. by case_match.
  - by injection Hs as <- <-.
  - destruct (owed c) as [|n] eqn:Hn; [done|]. by destruct (wake_up_step fixfd kQueCap kMax kCqEntries resume c n c' es Hn) as (-> & _);
      [simpl; by rewrite Hn|].
  - case_decide; [|done]. by destruct (kernel_complete _ _ _); [|done]; injection Hs as <- <-.
Qed.

Lemma step_moves l p p' es : subs (sch p) = ∅ → submitting p = false → l ≠ MainStep → orderly l p = true →
  step l p = Some (p', es) → moves (sch p) es (sch p') ∧ main p' = main p.
Proof.
  intros Hsub Hm Hl Ho Hs. destruct l as [|l]; [done|]. clear Hl. simpl in Hs.
  destruct (enabled l (main p)); [|done]. destruct (sched_step l (sch p)) as [[s e]|] eqn:Hst; [|done].
  injection Hs as <- <-. split; [|done]. destruct p as [m s0]. simpl in *.
  destruct l as [i l|t h|t|i]; simpl in *.
  - destruct (decide (l = NotifyStop)) as [->|Hn]; [done|]. destruct (m_ctxs s0 !! i) as [c|] eqn:Hc.
    2: { assert (Hnone : Scheduler.ctx_step fixfd kQueCap kMax kCqEntries resume i l s0 = None) by (unfold ctx_step; by rewrite Hc).
         destruct l; try congruence. destruct (busy i s0); [done|]. by rewrite Hnone in Hst. }
    destruct (decide (l = Run)) as [->|Hr].
    + destruct (busy i s0) eqn:Hb; [done|]. apply negb_false_iff, bool_decide_eq_true in Hb as [_ Hb].
      unfold ctx_step in Hst. rewrite Hc in Hst. destruct (one_step Run c) as [[c' e0]|] eqn:Hrun; [|done].
      destruct (run_stop_cb i _ _ _ Hrun) as [[Hcb Hex]|(Hp & He & Hrd & -> & ->)].
      * cbn in Hst. rewrite Hex in Hst. injection Hst as <- <-. by eapply mv_ctx.
      * injection Hst as <- <-. by apply mv_idle.
    + assert (Hst' : Scheduler.ctx_step fixfd kQueCap kMax kCqEntries resume i l s0 = Some (s, e)) by (by destruct l).
      unfold ctx_step in Hst'. rewrite Hc in Hst'. destruct (one_step l c) as [[c' e0]|] eqn:Hl; [|done].
      injection Hst' as <- <-. eapply mv_ctx; [done|done| |exact Hl|by eapply other_stop_cb].
      intros w h ->. simpl in Ho. unfold submitting in *. simpl in *. rewrite Hm in Ho. unfold still_waiting in Ho. rewrite Hc in Ho.
      by apply negb_true_iff, bool_decide_eq_false in Ho.
  - by destruct t; [|congruence].
  - by rewrite Hsub, lookup_empty in Hst.
  - destruct (cbs s0 !! i) as [q|] eqn:Hq; [|done]. destruct q as [|cnt|k]; simpl in Hst.
    + destruct (m_ctx_stop_flag s0 !! i) as [f|] eqn:Hf; [|done]. simpl in Hst. rewrite Z.land_0_r in Hst.
      injection Hst as <- <-. by apply mv_and.
    + case_decide; injection Hst as <- <-; [by apply mv_all|by apply mv_sub].
    + unfold stop_impl in Hst. case_decide as Hk; [|injection Hst as <- <-; apply mv_end with k; [done|lia]].
      destruct (lookup_lt_is_Some_2 _ _ Hk) as [c Hc]. unfold ctx_step in Hst. rewrite Hc in Hst. injection Hst as <- <-.
      by apply mv_notify.
Qed.

(** ** The invariant of a running program *)
Definition lowered (s : scheduler) (i : nat) : Prop := m_ctx_stop_flag s !! i = Some 0 ∨ is_Some (cbs s !! i).
Definition all_down (s : scheduler) : Prop := Forall (λ f, f = 0) (m_ctx_stop_flag s).

(** Of a context [c] that has shown [tr]. *)
Record ctx_ok (s : scheduler) (i : nat) (c : context) (tr : list event) : Prop := {
  k_idle : lowered s i → at_rest (contents:=contents) c ∧ settled tr;
  k_parked : parked (at_pc c) = true → lowered s i ∨ engaged c;
  k_due : stop_due c;
  k_stop : stop_requested c = true → all_down s;
}.

(** The contexts before the [k]th have been asked to stop. *)
Definition told (k : nat) (s : scheduler) : Prop :=
  ∀ i c, (i < k)%nat → m_ctxs s !! i = Some c → stop_requested c = true.

Record running (n : nat) (s : scheduler) (tr : list sched_event) : Prop := {
  r_subs : subs s = ∅;
  r_len : length (m_ctxs s) = n;
  r_dom : ∀ i q, cbs s !! i = Some q → (i < n)%nat;
  r_low : ∀ i q, cbs s !! i = Some q → q ≠ FetchAnd → m_ctx_stop_flag s !! i = Some 0;
  r_ctx : ∀ i c, m_ctxs s !! i = Some c → ctx_ok s i c (shown_by i tr);
  r_notify : ∀ j k, cbs s !! j = Some (Notify k) → all_down s;
  r_told : flags_up (m_ctx_stop_flag s) + subbing s = 0 → (∃ j k, cbs s !! j = Some (Notify k) ∧ told k s) ∨ told n s;
}.

(** What is known of the contexts on their own, and of the counters. *)
Record known (n : nat) (s : scheduler) (tr : list sched_event) : Prop := {
  n_live : ∀ i c, m_ctxs s !! i = Some c → at_pc c = Stopped ∨ live (contents:=contents) kCqEntries c (shown_by i tr);
  n_few : ∀ i, Z.of_nat (length (started (shown_by i tr))) < 2 ^ 32;
  n_counted : counted n s;
}.

Lemma ctx_ok_mono s s' i c tr : ctx_ok s i c tr → (lowered s' i ↔ lowered s i) → (all_down s → all_down s') →
  ctx_ok s' i c tr.
Proof. intros [] Hl Hd. split; rewrite ?Hl; auto. Qed.

(** Requests to stop come from [NotifyStop] only. *)
Lemma step_stop_requested l c c' es : l ≠ NotifyStop → one_step l c = Some (c', es) →
  stop_requested c' = stop_requested c.
Proof.
  intros Hl Hs. destruct l as [|w h| | |p r]; [|simpl in Hs; try done..].
  - simpl in Hs. unfold run in Hs. destruct (at_pc c) as [|[|n]| | | |cnt|num [|e l]|]; [..|done];
      repeat case_match; simplify_eq; try done; apply work_ok in Hs as (? & ? & _ & ->); done.
  - unfold push in Hs. case_decide; [done|]. by destruct (try_push _ _); injection Hs as <- <-.
  - destruct (owed c); [done|]. by destruct (wake_up _ _) as [[[? ?] ?]| | |]; simplify_eq/=.
  - case_decide; [|done]. by destruct (kernel_complete _ _ _); simplify_eq/=.
Qed.

(** A step of a context that is not a request to stop. *)
Lemma ctx_ok_step n s i l c c' es tr : known n s tr → m_ctxs s !! i = Some c → ctx_ok s i c (shown_by i tr) →
  l ≠ NotifyStop → (∀ w h, l = Push w h → m_num_wait_task (core c) ≠ 0) →
  one_step l c = Some (c', es) → stop_cbs es = [] → ctx_ok s i c' (shown_by i tr ++ es).
Proof.
  intros Hk Hc [Hi Hp Hd Hst] Hl Hpush Hs Hcb. split.
  - intros Hlow. destruct (Hi Hlow) as [Hr Hset]. pose proof (at_rest_wait _ Hr) as Hw.
    destruct (at_rest_step fixfd kQueCap kMax kCqEntries resume l c c' es Hr) as [Hr' He];
      [intros w h ->; by destruct (Hpush w h)|exact Hs|].
    split; [done|]. apply settled_app; [|done]. destruct He as [|[-> _]]; [by left|done].
  - intros Hpk. destruct (decide (l = Run)) as [->|Hr].
    + destruct (n_live _ _ _ Hk i c Hc) as [Hstp|Hlive]; [simpl in Hs; unfold run in Hs; by rewrite Hstp in Hs|].
      destruct (live_run_parked fixfd kQueCap kMax kCqEntries resume
        c c' es _ Hlive (n_few _ _ _ Hk i) Hs Hcb Hpk) as [|[Hpk' He]]; [by right|].
      destruct (Hp Hpk'); auto.
    + destruct (other_parked fixfd kQueCap kMax kCqEntries resume l c c' es Hr Hs) as [Heq He]. rewrite Heq in Hpk. destruct (Hp Hpk); auto.
  - by eapply stop_due_step.
  - rewrite (step_stop_requested _ _ _ _ Hl Hs). done.
Qed.

Lemma lowered_cb i q s j : is_Some (cbs s !! i) → (q = None → m_ctx_stop_flag s !! i = Some 0) →
  lowered (set_cb i q s) j ↔ lowered s j.
Proof.
  intros Hi Hq. unfold lowered, set_cb. simpl. destruct (decide (j = i)) as [->|Hne].
  - rewrite lookup_partial_alter_eq. destruct q as [q|]; [|specialize (Hq eq_refl); naive_solver].
    split; intros _; right; [done|by eexists].
  - by rewrite lookup_partial_alter_ne.
Qed.

(** A callback moves on: no context does. *)
Lemma ctx_ok_cb n s s' tr i q : running n s tr → is_Some (cbs s !! i) → (q = None → m_ctx_stop_flag s !! i = Some 0) →
  m_ctxs s' = m_ctxs s → (∀ j, lowered s' j ↔ lowered (set_cb i q s) j) → (all_down s → all_down s') →
  ∀ j c, m_ctxs s' !! j = Some c → ctx_ok s' j c (shown_by j tr).
Proof.
  intros Hr Hi Hq Hm Hl Hd j c Hj. rewrite Hm in Hj. apply ctx_ok_mono with s; [by eapply r_ctx| |done].
  rewrite Hl. by apply lowered_cb.
Qed.

Lemma all_down_set i s : all_down s → all_down (set_flag i 0 s).
Proof. intros Hd. by apply Forall_insert. Qed.

Lemma ctx_ok_idle n s i c tr : known n s tr → m_ctxs s !! i = Some c → ctx_ok s i c (shown_by i tr) →
  at_pc c = CheckIdle → empty_wait_task (core c) = true → ready (egn (core c)) = false →
  ctx_ok (set_cb i (Some FetchAnd) (set_ctx i (goto Poll c) s)) i (goto Poll c) (shown_by i tr ++ [StopCb]).
Proof.
  intros Hk Hc [Hi Hp Hd Hst] Hpc He Hrd. destruct (n_live _ _ _ Hk i c Hc) as [|Hlive]; [congruence|].
  assert (Hq : quiet (contents:=contents) c) by by eapply idle_quiet. split.
  - intros _. split; [right; exact (quiet_goto c Poll _ _ Hq eq_refl)|]. apply settled_app; [by right|].
    by eapply quiet_settled.
  - intros _. left. right. simpl. by rewrite lookup_partial_alter_eq.
  - apply (stop_due_same c); [done|done|by rewrite Hpc|done].
  - exact Hst.
Qed.

Lemma ctx_ok_notified s k c tr : ctx_ok s k c tr → all_down s → ctx_ok s k (notified c) tr.
Proof.
  intros [Hi Hp Hd Hst] Hall. split; [|exact Hp| |done].
  - intros Hlow. destruct (Hi Hlow) as [Hr Hset]. split; [|done].
    destruct Hr as [?|Hq]; [by left|right; apply quiet_goto; [done|apply Hq]].
  - exact (stop_due_step fixfd kQueCap kMax kCqEntries resume NotifyStop c (notified c) [] Hd eq_refl).
Qed.

Lemma moves_ctx n s tr es s' : running n s tr → known n s tr → moves s es s' →
  ∀ j c, m_ctxs s' !! j = Some c → ctx_ok s' j c (shown_by j (tr ++ es)).
Proof.
  intros Hr Hk Hm j d Hj. rewrite shown_by_app. pose proof (r_ctx _ _ _ Hr) as Hctx.
  destruct Hm as [i l c c' es Hc Hl Hp Hs Hcb|i c Hc Hpc Hi He Hrd|i f Hi Hf|i cnt Hi Ht|i cnt Hi Ht|i k c Hi Hc|i k Hi Hk'].
  - rewrite shown_by_at. apply list_lookup_insert_Some in Hj as [(<- & <- & _)|(Hne & Hj)].
    + rewrite decide_True by done. apply (ctx_ok_mono s); [|done|done]. by eapply ctx_ok_step; [| |by apply Hctx|..].
    + rewrite decide_False, app_nil_r by done. apply (ctx_ok_mono s); [by apply Hctx|done|done].
  - change [At i StopCb] with (At i <$> [StopCb]). rewrite shown_by_at.
    apply list_lookup_insert_Some in Hj as [(<- & <- & _)|(Hne & Hj)].
    + rewrite decide_True by done. by eapply ctx_ok_idle; [| |by apply Hctx|..].
    + rewrite decide_False, app_nil_r by done. apply (ctx_ok_mono s); [by apply Hctx| |done].
      unfold lowered. simpl. by rewrite lookup_partial_alter_ne.
  - rewrite app_nil_r. revert j d Hj. apply (ctx_ok_cb n s _ tr i (Some (FetchSub f))); [done|by eexists|done|done| |apply all_down_set].
    intros j. unfold lowered. simpl. destruct (decide (j = i)) as [->|Hne].
    + rewrite lookup_partial_alter_eq. split; intros _; right; by eexists.
    + by rewrite list_lookup_insert_ne.
  - rewrite app_nil_r. revert j d Hj. by apply (ctx_ok_cb n s _ tr i (Some (Notify 0))); [|by eexists|..].
  - rewrite app_nil_r. revert j d Hj. apply (ctx_ok_cb n s _ tr i None); [done|by eexists| |done|done|done].
    intros _. by eapply r_low.
  - rewrite app_nil_r. assert (Hmono : ∀ d, ctx_ok s j d (shown_by j tr) →
      ctx_ok (set_cb i (Some (Notify (S k))) (set_ctx k (notified c) s)) j d (shown_by j tr)).
    { intros c0 Hok. apply (ctx_ok_mono s); [done| |done].
      refine (lowered_cb i (Some (Notify (S k))) s j (mk_is_Some _ _ Hi) _). done. }
    apply list_lookup_insert_Some in Hj as [(<- & <- & _)|(Hne & Hj)].
    + apply Hmono. apply ctx_ok_notified; [by apply Hctx|]. by eapply r_notify.
    + apply Hmono. by apply Hctx.
  - rewrite app_nil_r. revert j d Hj. apply (ctx_ok_cb n s _ tr i None); [done|by eexists| |done|done|done].
    intros _. by eapply r_low.
Qed.

(** *** The callbacks *)
Lemma cbs_bound n (m : gmap nat cb_pc) : (∀ i q, m !! i = Some q → (i < n)%nat) → (size m ≤ n)%nat.
Proof.
  intros Hd. rewrite <- (size_dom (D := gset nat) m), <- (size_set_seq (C := gset nat) 0 n).
  apply subseteq_size. intros i [q Hq]%elem_of_dom. apply elem_of_set_seq. split; [lia|]. by eapply Hd.
Qed.

Lemma running_idle n s tr i cnt : Z.of_nat n < 2 ^ 30 → running n s tr → known n s tr → cbs s !! i = Some (FetchSub cnt) →
  m_stop_token s = cnt ↔ flags_up (m_ctx_stop_flag s) = 0 ∧ count_if is_subbing (delete i (cbs s)) = 0.
Proof.
  intros Hn Hr Hk Hi. apply (token_idle n); [done| |apply Hk|apply Hr|done].
  pose proof (cbs_bound n _ (r_dom _ _ _ Hr)). lia.
Qed.

Lemma moves_cbs n s tr es s' : Z.of_nat n < 2 ^ 30 → running n s tr → known n s tr → moves s es s' →
  ∀ i q, cbs s' !! i = Some q → (i < n)%nat ∧ (q ≠ FetchAnd → m_ctx_stop_flag s' !! i = Some 0) ∧
    (∀ k, q = Notify k → all_down s').
Proof.
  intros Hn Hr Hk Hm. pose proof (r_dom _ _ _ Hr) as Hd. pose proof (r_low _ _ _ Hr) as Hlo.
  pose proof (r_notify _ _ _ Hr) as Hno.
  assert (Hold : ∀ i q, cbs s !! i = Some q → (i < n)%nat ∧ (q ≠ FetchAnd → m_ctx_stop_flag s !! i = Some 0) ∧
    (∀ k, q = Notify k → all_down s)) by naive_solver.
  destruct Hm as [i l c c' es Hc Hl Hp Hs Hcb|i c Hc Hpc Hi He Hrd|i f Hi Hf|i cnt Hi Ht|i cnt Hi Ht|i k c Hi Hc|i k Hi Hk'];
    intros j q Hj; simpl in Hj; [by apply Hold|..]; apply lookup_partial_alter_Some in Hj as [(<- & Hj)|(Hne & Hj)];
    try (by apply Hold); try injection Hj as <-; try done.
  - split; [|done]. rewrite <- (r_len _ _ _ Hr). by eapply lookup_lt_Some.
  - destruct (Hold _ _ Hi) as [Hlt _]. split; [done|]. split; [|done]. intros _. simpl.
    apply list_lookup_insert_eq. by eapply lookup_lt_Some.
  - destruct (Hold _ _ Hj) as (Hlt & Hfl & Hall). split; [done|]. split.
    + intros Hq. simpl. by rewrite list_lookup_insert_ne; auto.
    + intros k Hq. apply all_down_set. by eapply Hall.
  - destruct (Hold _ _ Hi) as (Hlt & Hfl & _). split; [done|]. split; [intros _; by apply Hfl|]. intros k _.
    apply flags_up_zero; [apply (n_counted _ _ _ Hk)|]. by apply (running_idle n s tr i cnt).
  - destruct (Hold _ _ Hi) as (Hlt & Hfl & Hall). split; [done|]. split; [intros _; by apply Hfl|]. intros k' _. by eapply Hall.
Qed.

(** *** When nothing counts any more, everyone is told to stop *)
Definition telling (n : nat) (s : scheduler) : Prop := (∃ j k, cbs s !! j = Some (Notify k) ∧ told k s) ∨ told n s.
Definition up (s : scheduler) : Z := flags_up (m_ctx_stop_flag s) + subbing s.

(** Contexts keep their requests to stop, callbacks that notify stay. *)
Lemma telling_mono n s s' : telling n s →
  (∀ i c', m_ctxs s' !! i = Some c' → ∃ c, m_ctxs s !! i = Some c ∧ (stop_requested c = true → stop_requested c' = true)) →
  (∀ j k, cbs s !! j = Some (Notify k) → told k s → cbs s' !! j = Some (Notify k) ∨ telling n s') → telling n s'.
Proof.
  intros Ht Hm Hc. assert (Htold : ∀ k, told k s → told k s').
  { intros k Hk i c' Hi Hc'. destruct (Hm i c' Hc') as (c & Hx & Himp). apply Himp. by eapply Hk. }
  destruct Ht as [(j & k & Hj & Hk)|Hn]; [|right; by apply Htold].
  destruct (Hc j k Hj Hk) as [Hj'|]; [|done]. left. exists j, k. split; [done|by apply Htold].
Qed.

Lemma up_cb i q q' s : cbs s !! i = Some q → is_subbing q = is_subbing q' → up (set_cb i (Some q') s) = up s.
Proof.
  intros Hi Hq. unfold up, subbing, set_cb. cbn [m_ctx_stop_flag cbs].
  change (partial_alter (λ _, Some q') i (cbs s)) with (<[i := q']> (cbs s)).
  rewrite (count_if_update _ _ _ _ _ Hi), Hq. lia.
Qed.

Lemma up_end i q s : cbs s !! i = Some q → up (set_cb i None s) = up s - Z.b2z (is_subbing q).
Proof.
  intros Hi. unfold up, subbing, set_cb. cbn [m_ctx_stop_flag cbs].
  change (partial_alter (λ _, None) i (cbs s)) with (delete i (cbs s)).
  rewrite (count_if_delete _ _ _ _ Hi). lia.
Qed.

Lemma up_and n i f s tr : known n s tr → cbs s !! i = Some FetchAnd → m_ctx_stop_flag s !! i = Some f →
  up (set_cb i (Some (FetchSub f)) (set_flag i 0 s)) = up s.
Proof.
  intros Hk Hi Hf. unfold up, subbing, set_cb, set_flag. cbn [m_ctx_stop_flag cbs].
  change (partial_alter _ i (cbs s)) with (<[i := FetchSub f]> (cbs s)).
  rewrite (count_if_update _ _ _ _ _ Hi), (flags_up_insert _ _ _ _ Hf). cbn [is_subbing].
  destruct (c_flags _ _ (n_counted _ _ _ Hk)) as [_ Hfl].
  rewrite (proj1 (flag_bit _ (Forall_lookup_1 _ _ _ _ Hfl Hf))). change (Z.b2z false) with 0. lia.
Qed.

Lemma moves_told n s tr es s' : Z.of_nat n < 2 ^ 30 → running n s tr → known n s tr → moves s es s' →
  up s' = 0 → telling n s'.
Proof.
  intros Hn Hr Hk Hm Hup. assert (Hold : up s = 0 → telling n s) by exact (r_told _ _ _ Hr).
  assert (Hins : ∀ i c c' j d', m_ctxs s !! i = Some c → (stop_requested c = true → stop_requested c' = true) →
    <[i := c']> (m_ctxs s) !! j = Some d' → ∃ d, m_ctxs s !! j = Some d ∧ (stop_requested d = true → stop_requested d' = true)).
  { intros i c c' j d' Hc Hi Hj. apply list_lookup_insert_Some in Hj as [(<- & <- & _)|(_ & Hj)]; eauto. }
  destruct Hm as [i l c c' es Hc Hl Hp Hs Hcb|i c Hc Hpc Hi He Hrd|i f Hi Hf|i cnt Hi Ht|i cnt Hi Ht|i k c Hi Hc|i k Hi Hk'].
  - eapply telling_mono; [by apply Hold| |by auto]. intros j d'. eapply Hins; [done|].
    by rewrite (step_stop_requested _ _ _ _ Hl Hs).
  - eapply telling_mono; [apply Hold| |].
    + rewrite <- Hup. unfold up, subbing, set_cb, set_ctx. cbn [m_ctx_stop_flag cbs].
      change (partial_alter _ i (cbs s)) with (<[i := FetchAnd]> (cbs s)). rewrite count_if_insert by done. simpl. lia.
    + intros j d'. by eapply Hins.
    + intros j k Hj _. left. simpl. destruct (decide (j = i)) as [->|]; [congruence|]. by rewrite lookup_partial_alter_ne.
  - rewrite (up_and n i f s tr Hk Hi Hf) in Hup. eapply telling_mono; [by apply Hold|by eauto|].
    intros j k Hj _. left. simpl. destruct (decide (j = i)) as [->|]; [congruence|]. by rewrite lookup_partial_alter_ne.
  - left. exists i, 0%nat. split; [apply lookup_partial_alter_eq|]. intros j c Hj. lia.
  - destruct Ht. apply (running_idle n s tr i cnt); [done..|].
    change (up (set_cb i None s) = 0) in Hup. unfold up, subbing, set_cb in Hup. cbn [m_ctx_stop_flag cbs] in Hup.
    change (partial_alter (λ _, None) i (cbs s)) with (delete i (cbs s)) in Hup.
    pose proof (count_if_nonneg is_subbing (delete i (cbs s))).
    pose proof (flags_up_range _ (proj2 (c_flags _ _ (n_counted _ _ _ Hk)))). lia.
  - change (up (set_cb i (Some (Notify (S k))) s) = 0) in Hup. rewrite (up_cb i _ _ s Hi) in Hup by done.
    eapply telling_mono; [by apply Hold| |].
    + intros j d'. by eapply Hins.
    + intros j k0 Hj Hk0. simpl. destruct (decide (j = i)) as [->|]; [|left; by rewrite lookup_partial_alter_ne].
      right. left. exists i, (S k). simpl. split; [apply lookup_partial_alter_eq|]. assert (k0 = k) as -> by congruence.
      intros j d Hlt Hd. simpl in Hd. apply list_lookup_insert_Some in Hd as [(<- & <- & _)|(Hne & Hd)]; [done|].
      apply (Hk0 j); [lia|done].
  - rewrite (up_end i _ s Hi) in Hup. cbn [is_subbing Z.b2z] in Hup.
    eapply telling_mono; [apply Hold; lia|by eauto|].
    intros j k0 Hj Hk0. simpl. destruct (decide (j = i)) as [->|]; [|left; by rewrite lookup_partial_alter_ne].
    right. right. intros i0 c0 Hlt Hc0. apply (Hk0 i0); [|done]. assert (k0 = k) as -> by congruence.
    apply lookup_lt_Some in Hc0. simpl in Hc0. lia.
Qed.

Lemma moves_len s es s' : moves s es s' → length (m_ctxs s') = length (m_ctxs s) ∧ subs s' = subs s.
Proof. by intros []; simpl; rewrite ?length_insert. Qed.

Lemma running_step n s tr es s' : Z.of_nat n < 2 ^ 30 → running n s tr → known n s tr → moves s es s' →
  running n s' (tr ++ es).
Proof.
  intros Hn Hr Hk Hm. destruct (moves_len _ _ _ Hm) as [Hlen Hsub].
  pose proof (moves_cbs _ _ _ _ _ Hn Hr Hk Hm) as Hcb. split.
  - rewrite Hsub. apply Hr.
  - rewrite Hlen. apply Hr.
  - intros i q Hi. by apply (Hcb i q).
  - intros i q Hi. by apply (Hcb i q).
  - by eapply moves_ctx.
  - intros j k Hj. by eapply (Hcb j _ Hj).
  - exact (moves_told _ _ _ _ _ Hn Hr Hk Hm).
Qed.

(** ** Before loop *)
Record setup (n : nat) (s : scheduler) : Prop := {
  u_len : length (m_ctxs s) = n;
  u_cbs : cbs s = ∅;
  u_flags : Forall (λ f, f = 1) (m_ctx_stop_flag s);
  u_ctxs : Forall (λ c, at_pc c = Top ∧ stop_requested c = false) (m_ctxs s);
}.

Lemma setup_ctx n s i l s' es : setup n s → l ≠ Run → l ≠ NotifyStop →
  Scheduler.ctx_step fixfd kQueCap kMax kCqEntries resume i l s = Some (s', es) → setup n s'.
Proof.
  intros [H1 H2 H3 H4] Hr Hn Hs. unfold ctx_step in Hs. destruct (m_ctxs s !! i) as [c|] eqn:Hc; [|done].
  destruct (Context.step _ _ _ _ _ _ _ _) as [[c' e]|] eqn:Hst; [|done]. injection Hs as <- <-.
  pose proof (Forall_lookup_1 _ _ _ _ H4 Hc) as [Hpc Hsr].
  split; simpl; [by rewrite length_insert|done|done|]. apply Forall_insert; [done|].
  rewrite (step_stop_requested _ _ _ _ Hn Hst).
  by rewrite (proj1 (other_parked fixfd kQueCap kMax kCqEntries resume _ _ _ _ Hr Hst)).
Qed.

Lemma setup_step n l s s' es : setup n s → enabled l Submitting = true → sched_step l s = Some (s', es) → setup n s'.
Proof.
  intros Hu He Hs. destruct l as [i l|t h|t|i]; simpl in Hs.
  - destruct l; try done; (eapply setup_ctx; [exact Hu| | |exact Hs]; done).
  - destruct (_ && _); [|done]. injection Hs as <- <-. by destruct Hu.
  - destruct (subs s !! t) as [[h p]|]; [|done]. destruct p as [|k|k old|k]; simpl in Hs.
    + case_decide; [done|]. injection Hs as <- <-. by destruct Hu.
    + destruct (m_ctx_stop_flag s !! k) as [f|] eqn:Hf; [|done]. injection Hs as <- <-.
      destruct Hu as [H1 H2 H3 H4]. split; try done. simpl. apply Forall_insert; [done|].
      by rewrite (Forall_lookup_1 _ _ _ _ H3 Hf).
    + injection Hs as <- <-. by destruct Hu.
    + destruct (Scheduler.ctx_step _ _ _ _ _ _ _ _) as [[s1 e1]|] eqn:Hst; [|done]. injection Hs as <- <-.
      assert (Hu1 : setup n s1) by (eapply setup_ctx; [exact Hu| | |exact Hst]; done). by destruct Hu1.
  - by rewrite (u_cbs _ _ Hu), lookup_empty in Hs.
Qed.

Lemma flags_up_ones l : Forall (λ f, f = 1) l → flags_up l = Z.of_nat (length l).
Proof. induction 1 as [|f l -> _ IH]; [done|]. change (1 + flags_up l = Z.of_nat (S (length l))). lia. Qed.

Lemma setup_running n s tr : setup n s → subs s = ∅ → known n s tr → running n s tr.
Proof.
  intros [H1 H2 H3 H4] Hs Hk. split; try done; try (intros ? ?; by rewrite H2, lookup_empty).
  - intros i c Hc. destruct (Forall_lookup_1 _ _ _ _ H4 Hc) as [Hpc Hsr].
    split; [|by rewrite Hpc|split; congruence|congruence].
    intros [Hf|[q Hq]]; [by pose proof (Forall_lookup_1 _ _ _ _ H3 Hf)|by rewrite H2, lookup_empty in Hq].
  - unfold subbing. rewrite H2, count_if_empty, flags_up_ones by done.
    rewrite (proj1 (c_flags _ _ (n_counted _ _ _ Hk))). intros Hn. right. intros i c Hi. lia.
Qed.

(** ** Reachable states *)
Definition phase_ok (n : nat) (p : program) (tr : list sched_event) : Prop :=
  if submitting p then setup n (sch p) else running n (sch p) tr.
(** [join] has come back from the threads that are over. *)
Definition joined (p : program) : Prop :=
  ∀ i c, m_ctxs (sch p) !! i = Some c →
    match main p with Joining k => (i < k)%nat | Returned => True | _ => False end → at_pc c = Stopped.

Lemma moves_stopped s es s' i c' : moves s es s' → m_ctxs s' !! i = Some c' →
  ∃ c, m_ctxs s !! i = Some c ∧ (at_pc c = Stopped → at_pc c' = Stopped).
Proof.
  intros Hm Hi. destruct Hm as [j l c d es Hc Hl Hp Hs Hcb|j c Hc Hpc Hi' He Hrd|j f Hj Hf|j cnt Hj Ht|j cnt Hj Ht|j k c Hj Hc|j k Hj Hk'];
    simpl in Hi; eauto; apply list_lookup_insert_Some in Hi as [(<- & <- & _)|(_ & Hi)]; eauto;
    exists c; (split; [done|]); intros Hst; [by eapply stopped_step|congruence].
Qed.

Lemma loop_known n p tr : 2 * Z.of_nat kCqEntries < 2 ^ 24 → reach (orderly_machine n) p tr →
  (∀ i, Z.of_nat (length (started (shown_by i tr))) < 2 ^ 32) → known n (sch p) tr.
Proof.
  intros Hcq Hr Hf. apply restrict_reach, loop_sched in Hr. split; [|done|by eapply sched_counted_reach].
  intros i c Hi. eapply (live_reach fixfd kQueCap kMax kCqEntries resume true); [done| |done]. by eapply alone_reach.
Qed.

(** The step of a program that is still submitting. *)
Lemma submitting_step n l p p' tr es : submitting p = true → setup n (sch p) → known n (sch p) tr →
  orderly l p = true → step l p = Some (p', es) → phase_ok n p' (tr ++ es) ∧ joined p'.
Proof.
  intros Hsub Hu Hk Ho Hst. destruct p as [[| | |] s]; try done. destruct l as [|l].
  - simpl in Ho. apply bool_decide_eq_true in Ho. simpl in Hst. unfold loop_impl in Hst. simpl in Hst.
    rewrite decide_True in Hst by (by rewrite Ho). injection Hst as <- <-. rewrite app_nil_r.
    split; [by apply setup_running|by intros ? ? ? []].
  - cbn [step main sch] in Hst. destruct (enabled l Submitting) eqn:He; [|done].
    destruct (sched_step l s) as [[s1 e1]|] eqn:Hs1; [|done].
    injection Hst as <- <-. split; [by eapply setup_step|by intros ? ? ? []].
Qed.

(** The main thread's own steps. *)
Lemma main_joined p p' es : submitting p = false → joined p → step MainStep p = Some (p', es) →
  sch p' = sch p ∧ submitting p' = false ∧ joined p'.
Proof.
  intros Hsub Hj Hst. destruct p as [[|k|k|] s]; try done; simpl in Hst; unfold loop_impl in Hst; simpl in Hst.
  - unfold start_impl in Hst. case_decide; injection Hst as <- <-; (split; [done|]); (split; [done|]); [by intros ? ? ? []|].
    intros i c Hi Hlt. simpl in Hlt. lia.
  - unfold join_next in Hst. destruct (m_ctxs s !! k) as [c|] eqn:Hc; [destruct (at_pc c) eqn:Hpc; try done|];
      injection Hst as <- <-; (split; [done|]); (split; [done|]); intros i d Hi Hlt; simpl in *.
    + destruct (decide (i = k)) as [->|]; [congruence|]. apply (Hj i d Hi). simpl. lia.
    + apply (Hj i d Hi). simpl. apply lookup_ge_None in Hc. apply lookup_lt_Some in Hi. lia.
Qed.

Lemma running_program_step n l p p' tr es : Z.of_nat n < 2 ^ 30 → submitting p = false → running n (sch p) tr → joined p →
  known n (sch p) tr → orderly l p = true → step l p = Some (p', es) → phase_ok n p' (tr ++ es) ∧ joined p'.
Proof.
  intros Hn Hsub Hr Hj Hk Ho Hst. unfold phase_ok.
  destruct (decide (l = MainStep)) as [->|Hl].
  - destruct (main_joined p p' es Hsub Hj Hst) as (Hs & Hsub' & Hj'). rewrite Hsub', Hs. split; [|done].
    simpl in Hst. destruct (loop_impl p); [|done]. injection Hst as <- <-. by rewrite app_nil_r.
  - destruct (step_moves l p p' es (r_subs _ _ _ Hr) Hsub Hl Ho Hst) as [Hm Hmain]. split.
    + unfold submitting in *. rewrite Hmain, Hsub. by eapply running_step.
    + intros i c' Hi Hmn. destruct (moves_stopped _ _ _ _ _ Hm Hi) as (c & Hc & Himp). apply Himp.
      apply (Hj i c Hc). by rewrite <- Hmain.
Qed.

Lemma orderly_reach n p tr : Z.of_nat n < 2 ^ 30 → 2 * Z.of_nat kCqEntries < 2 ^ 24 → reach (orderly_machine n) p tr →
  (∀ i, Z.of_nat (length (started (shown_by i tr))) < 2 ^ 32) → phase_ok n p tr ∧ joined p.
Proof.
  intros Hn Hcq. induction 1 as [p [Hm (ctxs & Hs & Hl & Hf)]|p tr l p' es Hr IH Hst]; intros Hlt.
  - unfold phase_ok, submitting, joined. rewrite Hm. split; [|by intros ? ? ? []]. rewrite Hs. split; try done; simpl.
    + by apply Forall_replicate.
    + eapply Forall_impl; [exact Hf|]. by intros c [(? & ? & _) _ _ _ _].
  - assert (Hlt0 : ∀ i, Z.of_nat (length (started (shown_by i tr))) < 2 ^ 32).
    { intros i. specialize (Hlt i). rewrite shown_by_app, started_app, length_app in Hlt. lia. }
    destruct (IH Hlt0) as [Hph Hj]. pose proof (loop_known n p tr Hcq Hr Hlt0) as Hk.
    apply restrict_step in Hst as [Ho Hst]. unfold phase_ok in Hph. destruct (submitting p) eqn:Hsub.
    + by eapply submitting_step.
    + by eapply running_program_step.
Qed.

(** A context that was asked to stop, or is over: all of them are idle. *)
Lemma stop_all_rest n s tr j d : running n s tr → known n s tr → m_ctxs s !! j = Some d →
  stop_requested d = true ∨ at_pc d = Stopped →
  ∀ i c, m_ctxs s !! i = Some c → at_rest (contents:=contents) c ∧ settled (shown_by i tr).
Proof.
  intros Hr Hk Hj Hd i c Hi. pose proof (r_ctx _ _ _ Hr j d Hj) as Hok.
  assert (Hall : all_down s).
  { apply (k_stop _ _ _ _ Hok). destruct Hd as [Hd|Hd]; [done|]. by apply (k_due _ _ _ _ Hok). }
  apply (k_idle _ _ _ _ (r_ctx _ _ _ Hr i c Hi)). left.
  destruct (lookup_lt_is_Some_2 (m_ctx_stop_flag s) i) as [f Hf].
  { rewrite (proj1 (c_flags _ _ (n_counted _ _ _ Hk))), <- (r_len _ _ _ Hr). by eapply lookup_lt_Some. }
  by rewrite Hf, (Forall_lookup_1 _ _ _ _ Hall Hf).
Qed.

(** ** Nothing is stuck *)
Definition internal (l : label) : bool :=
  match l with
  | MainStep | Sched (CtxStep _ Run) | Sched (CtxStep _ WakeUp) | Sched (CbStep _) => true
  | _ => false
  end.
Definition can_go (n : nat) (p : program) : Prop :=
  ∃ l p' es, internal l = true ∧ m_step (orderly_machine n) l p = Some (p', es).

Definition asleep (c : context) : Prop :=
  at_pc c = Wait ∧ efd_count (m_uring (m_upxy (egn (core c)))) = 0 ∧ owed c = 0%nat.

Lemma asleep_dec c : asleep c ∨ ¬ asleep c.
Proof.
  unfold asleep. destruct (at_pc c) eqn:Hpc; try (right; by intros [? _]).
  destruct (decide (efd_count (m_uring (m_upxy (egn (core c)))) = 0 ∧ owed c = 0%nat)); [by left|right; naive_solver].
Qed.

Lemma rest_enabled c : at_rest (contents:=contents) c → at_pc c ≠ Stopped →
  asleep c ∨ is_Some (one_step Run c) ∨ is_Some (one_step WakeUp c).
Proof.
  intros [[? _]|Hq] Hns; [done|].
  destruct (quiet_enabled fixfd kQueCap kMax kCqEntries resume c Hq Hns) as [[Hpc He]|]; [|auto].
  destruct (owed c) as [|m] eqn:Ho; [by left|]. right. right. cbn [Context.step]. rewrite Ho.
  unfold wake_up, mbind, prog_bind, get, write_eventfd.
  pose proof (eventfd_write_ok (m_efd (m_upxy (egn (core c)))) task_flag (m_uring (m_upxy (egn (core c)))) ltac:(done)) as Hw.
  rewrite He, task_flag_eq in *. destruct (eventfd_write _ _ _) as [| |r k]; [lia|done|].
  destruct Hw as (-> & _). by rewrite decide_False.
Qed.

Lemma ctx_can_go n p i c l : main p = Joining n → subs (sch p) = ∅ → cbs (sch p) = ∅ → m_ctxs (sch p) !! i = Some c →
  l = Run ∨ l = WakeUp → is_Some (one_step l c) → ∀ m, can_go m p.
Proof.
  intros Hm Hs Hc Hi Hl [[c' es] Hst] m. exists (Sched (CtxStep i l)).
  assert (Hcs : ctx_step fixfd kQueCap kMax kCqEntries resume i l (sch p) = Some (set_ctx i c' (sch p), At i <$> es)).
  { unfold ctx_step. by rewrite Hi, Hst. }
  assert (He : ∃ s' es', sched_step (CtxStep i l) (sch p) = Some (s', es')).
  { destruct Hl as [-> | ->]; cbn [Scheduler.step]; [|by eauto]. unfold busy. rewrite Hs, Hc, !lookup_empty. simpl. rewrite Hcs. by eauto. }
  destruct He as (s' & es' & He). exists (Program (main p) s'), es'. split; [by destruct Hl as [-> | ->]|].
  unfold orderly_machine, restrict. cbn [m_step loop_machine].
  assert (Ho : orderly (Sched (CtxStep i l)) p = true) by by destruct Hl as [-> | ->]. rewrite Ho. cbn [step].
  assert (Hen : enabled (CtxStep i l) (main p) = true) by (rewrite Hm; by destruct Hl as [-> | ->]). by rewrite Hen, He.
Qed.

Lemma cb_can_go n p tr i q : running n (sch p) tr → known n (sch p) tr → cbs (sch p) !! i = Some q → can_go n p.
Proof.
  intros Hr Hk Hi. assert (He : ∃ s' es, sched_step (CbStep i) (sch p) = Some (s', es)).
  { cbn [Scheduler.step]. rewrite Hi. simpl. destruct q as [|cnt|k]; simpl.
    - destruct (lookup_lt_is_Some_2 (m_ctx_stop_flag (sch p)) i) as [f Hf]; [|rewrite Hf; by eauto].
      rewrite (proj1 (c_flags _ _ (n_counted _ _ _ Hk))). by eapply r_dom.
    - case_decide; eauto.
    - unfold stop_impl. case_decide as Hlt; [|by eauto]. destruct (lookup_lt_is_Some_2 _ _ Hlt) as [c Hc].
      unfold ctx_step. rewrite Hc. simpl. by eauto. }
  destruct He as (s' & es & He). exists (Sched (CbStep i)), (Program (main p) s'), es. split; [done|].
  unfold orderly_machine, restrict. cbn [m_step loop_machine orderly step enabled]. by rewrite He.
Qed.

(** Of contexts at rest, with no callback left, one is awake when one sleeps
    unasked. *)
Lemma one_awake n s tr i c : (0 < n)%nat → running n s tr → known n s tr → cbs s = ∅ →
  (∀ i c, m_ctxs s !! i = Some c → at_rest (contents:=contents) c) →
  m_ctxs s !! i = Some c → asleep c →
  ∃ j d, m_ctxs s !! j = Some d ∧ at_pc d ≠ Stopped ∧ ¬ asleep d.
Proof.
  intros Hn Hr Hk Hc Hrest Hi (Hpc & He & Ho). pose proof (r_ctx _ _ _ Hr i c Hi) as [_ _ [_ Hdue] _].
  assert (Hup : ¬ all_down s).
  { intros Hall. assert (Hno : up s = 0).
    { unfold up, subbing. rewrite Hc, count_if_empty, (proj2 (flags_up_zero _ (proj2 (c_flags _ _ (n_counted _ _ _ Hk))))) by done. done. }
    destruct (r_told _ _ _ Hr Hno) as [(j & k & Hj & _)|Htold]; [by rewrite Hc, lookup_empty in Hj|].
    destruct Hdue as [|]; [|by rewrite Hpc|lia|lia]. apply (Htold i); [|done].
    rewrite <- (r_len _ _ _ Hr). by eapply lookup_lt_Some. }
  apply not_Forall_Exists in Hup; [|apply _]. apply Exists_exists in Hup as (f & Hf & Hne).
  apply list_elem_of_lookup in Hf as [j Hf]. destruct (lookup_lt_is_Some_2 (m_ctxs s) j) as [d Hd].
  { rewrite (r_len _ _ _ Hr), <- (proj1 (c_flags _ _ (n_counted _ _ _ Hk))). by eapply lookup_lt_Some. }
  pose proof (r_ctx _ _ _ Hr j d Hd) as [_ Hpark [Hstp _] Hall].
  exists j, d. split; [done|]. split.
  - intros Hs. apply Hne. exact (Forall_lookup_1 _ _ _ _ (Hall (Hstp Hs)) Hf).
  - intros (Hpd & _). destruct (Hrest j d Hd) as [[? _]|Hq]; [congruence|].
    destruct (Hpark ltac:(by rewrite Hpd)) as [[Hl|[q Hl]]|Hen]; [congruence|by rewrite Hc, lookup_empty in Hl|].
    by apply (quiet_not_engaged _ Hq).
Qed.

Lemma program_can_go n p tr : (0 < n)%nat → submitting p = false → running n (sch p) tr → known n (sch p) tr →
  (∀ i c, m_ctxs (sch p) !! i = Some c → at_rest (contents:=contents) c) → main p = Returned ∨ can_go n p.
Proof.
  intros Hn Hsub Hr Hk Hrest.
  assert (Hmain : is_Some (loop_impl p) → can_go n p).
  { intros [m Hm]. exists MainStep, (Program m (sch p)), []. split; [done|].
    unfold orderly_machine, restrict. cbn [m_step loop_machine orderly]. rewrite Hsub. cbn [step negb orb]. by rewrite Hm. }
  destruct (main p) as [|k|k|] eqn:Hm; [by unfold submitting in Hsub; rewrite Hm in Hsub| | |by left]; right.
  { apply Hmain. unfold loop_impl. by rewrite Hm. }
  destruct (decide (cbs (sch p) = ∅)) as [Hc|Hc].
  2: { apply map_choose in Hc as (i & q & Hq). by eapply cb_can_go. }
  destruct (m_ctxs (sch p) !! k) as [c|] eqn:Hi; [|apply Hmain; unfold loop_impl, join_next; by rewrite Hm, Hi].
  destruct (decide (is_Some (loop_impl p))) as [|Hno]; [by apply Hmain|].
  assert (Hns : at_pc c ≠ Stopped). { intros Hs. apply Hno. unfold loop_impl, join_next. by rewrite Hm, Hi, Hs. }
  assert (Hgo : ∀ j d, m_ctxs (sch p) !! j = Some d → at_pc d ≠ Stopped → ¬ asleep d → can_go n p).
  { intros j d Hj Hd Ha. pose proof (r_subs _ _ _ Hr) as Hs.
    destruct (rest_enabled d (Hrest j d Hj) Hd) as [|[Hx|Hx]]; [done|..].
    - exact (ctx_can_go k p j d Run Hm Hs Hc Hj (or_introl eq_refl) Hx n).
    - exact (ctx_can_go k p j d WakeUp Hm Hs Hc Hj (or_intror eq_refl) Hx n). }
  destruct (asleep_dec c) as [Ha|Ha]; [|by eapply Hgo].
  destruct (one_awake n (sch p) tr k c Hn Hr Hk Hc Hrest Hi Ha) as (j & d & Hj & Hd & Hna). by eapply Hgo.
Qed.
End loop.

(** ** Properties *)

(** C2: [loop] returns only when the work that the queues took is done. For an
    orderly program, that is one that submits to the scheduler before [loop]
    only, and to contexts, from outside, only while they count a waiting
    coroutine: in every interleaving, as soon as one context has been asked to
    stop, and so also when [loop] has returned, every call of [submit] has
    handed its task to a context; every context has run every task that was
    queued to it, so that of the tasks handed to it each has been run, except
    those that its full queue turned away (the engine logs those and drops
    them); every I/O request it started has completed, and none of its
    coroutines waits; and [loop] returns only when every thread is over. *)
Theorem loop_returns_when_done {K Q C} `{UringLaws K} `{TaskQueueLaws Q kQueCap contents} fixfd kMax kCqEntries
    (resume : ptr → C → co_run) n p tr i c :
  (0 < n)%nat → Z.of_nat n < 2 ^ 30 → 2 * Z.of_nat kCqEntries < 2 ^ 24 →
  reach (orderly_machine (K:=K) fixfd kQueCap kMax kCqEntries resume n) p tr →
  (∀ j, Z.of_nat (length (started (shown_by j tr))) < 2 ^ 32) →
  main p = Returned ∨ (∃ j d, m_ctxs (sch p) !! j = Some d ∧ stop_requested d = true) →
  m_ctxs (sch p) !! i = Some c →
  called tr ≡ₚ submitted tr ∧
  popped (shown_by i tr) ≡ₚ queued (shown_by i tr) ∧
  handed i tr ⊆+ popped (shown_by i tr) ++ refused (shown_by i tr) ∧
  length (completed (shown_by i tr)) = length (started (shown_by i tr)) ∧
  m_num_wait_task (core c) = 0 ∧ (main p = Returned → at_pc c = Stopped).
Proof.
  intros Hn0 Hn Hcq Hr Hlt Hdone Hi.
  destruct (orderly_reach fixfd kQueCap kMax kCqEntries resume (contents:=contents) n p tr Hn Hcq Hr Hlt) as [Hph Hj].
  pose proof (loop_known fixfd kQueCap kMax kCqEntries resume (contents:=contents) n p tr Hcq Hr Hlt) as Hk.
  assert (Hret : main p = Returned → at_pc c = Stopped) by (intros Hm; apply (Hj i c Hi); by rewrite Hm).
  unfold phase_ok in Hph. destruct (submitting p) eqn:Hsub.
  - exfalso. unfold submitting in Hsub. destruct Hdone as [Hm|(j & d & Hjd & Hd)]; [by rewrite Hm in Hsub|].
    pose proof (Forall_lookup_1 _ _ _ _ (u_ctxs _ _ Hph) Hjd) as [_ ?]. congruence.
  - assert (Hd : ∃ j d, m_ctxs (sch p) !! j = Some d ∧ (stop_requested d = true ∨ at_pc d = Stopped)).
    { destruct Hdone as [Hm|(j & d & ? & ?)]; [exists i, c|exists j, d]; auto. }
    destruct Hd as (j & d & Hjd & Hd).
    destruct (stop_all_rest kCqEntries n (sch p) tr j d Hph Hk Hjd Hd i c Hi) as [Hrest [Hp Hc]].
    pose proof (dispatched_reach _ _ _ _ _ _ _ _ (loop_sched fixfd kQueCap kMax kCqEntries resume n p tr
      (restrict_reach _ _ _ _ Hr))) as [_ _ Hcalls Hh].
    unfold ongoing in Hcalls. rewrite (r_subs _ _ _ Hph), map_to_list_empty, app_nil_r in Hcalls.
    split_and!; [done|done| |done|by apply (at_rest_wait (contents:=contents))|done].
    by rewrite Hp, <- arrived_perm.
Qed.

(** C3: and then it does return: an orderly program ([orderly]: no worker submits
    to the scheduler, nobody does once [loop] has started, and pushes from
    outside go to contexts that count a waiting coroutine) whose contexts have
    nothing left to do is not stuck. Once submitting is over, whenever all
    contexts are idle (or over) and [loop] has not returned, some thread of the
    program can take a step without waiting for another task or for the
    kernel. *)
Theorem loop_never_hangs {K Q C} `{UringLaws K} `{TaskQueueLaws Q kQueCap contents} fixfd kMax kCqEntries
    (resume : ptr → C → co_run) n p tr :
  (0 < n)%nat → Z.of_nat n < 2 ^ 30 → 2 * Z.of_nat kCqEntries < 2 ^ 24 →
  reach (orderly_machine (K:=K) fixfd kQueCap kMax kCqEntries resume n) p tr →
  (∀ j, Z.of_nat (length (started (shown_by j tr))) < 2 ^ 32) →
  submitting p = false →
  (∀ i c, m_ctxs (sch p) !! i = Some c → at_rest (contents:=contents) c) →
  main p = Returned ∨
  ∃ l p' es, internal l = true ∧
    m_step (orderly_machine fixfd kQueCap kMax kCqEntries resume n) l p = Some (p', es).
Proof.
  intros Hn0 Hn Hcq Hr Hlt Hsub Hrest.
  destruct (orderly_reach fixfd kQueCap kMax kCqEntries resume (contents:=contents) n p tr Hn Hcq Hr Hlt) as [Hph _].
  pose proof (loop_known fixfd kQueCap kMax kCqEntries resume (contents:=contents) n p tr Hcq Hr Hlt) as Hk.
  unfold phase_ok in Hph. rewrite Hsub in Hph. by eapply program_can_go.
Qed.

(** ** Witnesses *)
Lemma shown_few i tr : (length (started (shown_by i tr)) ≤ length tr)%nat.
Proof. etrans; apply length_omap_le. Qed.

(** The main thread submits task 7, calls [loop]; the contexts run dry, the
    first stops both, and [loop] joins them. *)
Definition orderly_m := orderly_machine (H0 := list_queue 4) true 4 4 8 finisher 2.
Definition two_program : program (K:=sim) (Q:=list ptr) (C:=()) := Program Submitting two_contexts.
Definition loop_begin : list label :=
  (Sched <$> [Submit (Outside 0) 7] ++ replicate 4 (SubStep (Outside 0)) ++ [CtxStep 0 WakeUp]) ++ replicate 4 MainStep ++
  (Sched <$> replicate 3 (CtxStep 1 Run) ++ [CbStep 1; CbStep 1; CtxStep 1 Run] ++ replicate 4 (CtxStep 0 Run)).
Definition loop_run : list label :=
  loop_begin ++
  (Sched <$> replicate 5 (CbStep 0) ++ [CtxStep 0 WakeUp; CtxStep 1 WakeUp] ++ replicate 4 (CtxStep 0 Run) ++
    replicate 3 (CtxStep 1 Run)) ++ replicate 3 MainStep.

Lemma two_program_init : m_init orderly_m two_program.
Proof. split; [done|]. exact two_contexts_init. Qed.
Lemma loop_run_reach : reach orderly_m (final orderly_m loop_run two_program) (trace orderly_m loop_run two_program).
Proof. apply exec_reach_final; [apply two_program_init|by vm_compute]. Defined.
Lemma loop_begin_reach : reach orderly_m (final orderly_m loop_begin two_program) (trace orderly_m loop_begin two_program).
Proof. apply exec_reach_final; [apply two_program_init|by vm_compute]. Defined.

Lemma few_of_length tr : bool_decide (length tr < 1000)%nat = true →
  ∀ j, Z.of_nat (length (started (shown_by j tr))) < 2 ^ 32.
Proof. intros Ht%bool_decide_eq_true j. pose proof (shown_few j tr). lia. Qed.

(** Both contexts of the run above are over, and task 7 has been run. *)
Lemma loop_returns_when_done_witness : ∃ c,
  m_ctxs (sch (final orderly_m loop_run two_program)) !! 0%nat = Some c ∧
  called (trace orderly_m loop_run two_program) = [(Outside 0, 7)] ∧
  popped (shown_by 0 (trace orderly_m loop_run two_program)) ≡ₚ [7] ∧
  [7] ⊆+ popped (shown_by 0 (trace orderly_m loop_run two_program)) ++ [] ∧ m_num_wait_task (core c) = 0 ∧ at_pc c = Stopped.
Proof.
  assert (Hret : main (final orderly_m loop_run two_program) = Returned) by by vm_compute.
  assert (Hq : queued (shown_by 0 (trace orderly_m loop_run two_program)) = [7]) by by vm_compute.
  assert (Hlen : bool_decide (length (trace orderly_m loop_run two_program) < 1000)%nat = true) by by vm_compute.
  assert (Hlen2 : length (m_ctxs (sch (final orderly_m loop_run two_program))) = 2%nat) by by vm_compute.
  destruct (lookup_lt_is_Some_2 (m_ctxs (sch (final orderly_m loop_run two_program))) 0) as [c Hc]; [lia|].
  exists c. split; [exact Hc|]. split; [by vm_compute|].
  destruct (loop_returns_when_done (H2 := list_queue_laws 4) true 4 8 finisher 2
    (final orderly_m loop_run two_program) (trace orderly_m loop_run two_program) 0 c) as (_ & Hp & Hh & _ & Hw & Hs);
    [lia|lia|lia|exact loop_run_reach|exact (few_of_length _ Hlen)|by left|exact Hc|].
  split; [rewrite <- Hq; exact Hp|]. split; [|split; [exact Hw|exact (Hs Hret)]].
  assert (Hh7 : handed 0 (trace orderly_m loop_run two_program) = [7]) by by vm_compute.
  assert (Hr0 : refused (shown_by 0 (trace orderly_m loop_run two_program)) = []) by by vm_compute.
  rewrite Hh7, Hr0 in Hh. exact Hh.
Defined.

Definition idle_ctxs : list (context (K:=sim) (Q:=list ptr) (C:=())) :=
  Eval vm_compute in m_ctxs (sch (final orderly_m loop_begin two_program)).

(** Both contexts are idle, and the callback of the first is about to run. *)
Lemma loop_never_hangs_witness : ∃ l p' es, internal l = true ∧
  m_step orderly_m l (final orderly_m loop_begin two_program) = Some (p', es).
Proof.
  assert (Hlen : bool_decide (length (trace orderly_m loop_begin two_program) < 1000)%nat = true) by by vm_compute.
  assert (Hsub : submitting (final orderly_m loop_begin two_program) = false) by by vm_compute.
  assert (Hret : main (final orderly_m loop_begin two_program) ≠ Returned) by by vm_compute.
  assert (Hl : m_ctxs (sch (final orderly_m loop_begin two_program)) = idle_ctxs) by by vm_compute.
  revert Hlen Hsub Hret Hl. generalize loop_begin_reach.
  generalize (final orderly_m loop_begin two_program), (trace orderly_m loop_begin two_program).
  intros p tr Hr Hlen Hsub Hret Hl.
  assert (Hrest : Forall (at_rest (contents := id)) idle_ctxs)
    by (repeat (constructor; [right; by split|]); constructor).
  destruct (loop_never_hangs (H2 := list_queue_laws 4) true 4 8 finisher 2 p tr) as [Hm|Hgo];
    [lia|lia|lia|exact Hr|exact (few_of_length _ Hlen)|exact Hsub| |done|exact Hgo].
  intros i e Hi. rewrite Hl in Hi. exact (Forall_lookup_1 _ _ _ _ Hrest Hi).
Defined.
