(* ===== verification/Tcp.v ===== *)
(** * coro::io::net::tcp (include/coro/io/net/tcp/tcp.hpp, src/io/net/tcp/tcp.cpp)

    Connectors, servers and clients: which descriptor their requests name,
    next to the pool of fixed slots. The calls of the sockets API are an
    interface. [None] is [std::exit(1)] or a failed assertion. *)
From S2P Require Import Prelude MarkedBuffer Uring UringProxy IoAwaiter.
Local Open Scope Z_scope.
Local Open Scope coro_scope.

(** ** Connectors *)
Section connector.
Context {K : Type} `{Uring K}.
Context (kEnableFixfd : bool) (kFixFdArraySize : nat).

Record tcp_connector := Connector {
  m_sockfd : Z;                       (* the descriptor, or the index of a slot *)
  m_original_fd : Z;
  m_fixed_fd : item;
  m_sqe_flag : Z;
}.

Definition connector_new (sockfd : Z) (p : uring_proxy) : option (tcp_connector * uring_proxy) :=
  let '(it, p) := fixed_new kEnableFixfd p in
  '((fd, flag), p) ← assign kEnableFixfd kFixFdArraySize it sockfd 0 p;
  Some (Connector fd sockfd it flag, p).
Definition connector_read (c : tcp_connector) (buf : ptr) (len io_flags : Z) : io_op :=
  ReadAwaiter (m_sockfd c) buf len io_flags (m_sqe_flag c).
Definition connector_write (c : tcp_connector) (buf : ptr) (len io_flags : Z) : io_op :=
  WriteAwaiter (m_sockfd c) buf len io_flags (m_sqe_flag c).
(** [m_fixed_fd.return_back()], by [close] and by the destructor. *)
Definition connector_return (c : tcp_connector) (p : uring_proxy) : option (tcp_connector * uring_proxy) :=
  '(it, p) ← fixed_return_back kEnableFixfd kFixFdArraySize (m_fixed_fd c) p;
  Some (Connector (m_sockfd c) (m_original_fd c) it (m_sqe_flag c), p).
Definition connector_close (c : tcp_connector) (p : uring_proxy) :
    option (tcp_connector * io_op * uring_proxy) :=
  '(c, p) ← connector_return c p;
  Some (c, CloseAwaiter (m_original_fd c), p).

(** ** Programs with many connectors *)

(** Each connector with whether [close] was called on it. *)
Record tcp_state := TcpState {
  tproxy : uring_proxy (K:=K);
  conns : gmap nat (tcp_connector * bool);
}.
Inductive tcp_label :=
  | Open (c : nat) (sockfd : Z)
  | Read (c : nat) (buf : ptr) (len io_flags : Z)
  | Write (c : nat) (buf : ptr) (len io_flags : Z)
  | Close (c : nat)
  | Destroy (c : nat).
(** What a connector asks of the ring. *)
Definition tcp_event : Type := nat * io_op.

Definition tcp_step (l : tcp_label) (s : tcp_state) : option (tcp_state * list tcp_event) :=
  match l with
  | Open c fd =>
      if decide (conns s !! c = None) then
        '(x, p) ← connector_new fd (tproxy s);
        Some (TcpState p (<[c := (x, false)]> (conns s)), [])
      else None
  | Read c buf len fl => '(x, _) ← conns s !! c; Some (s, [(c, connector_read x buf len fl)])
  | Write c buf len fl => '(x, _) ← conns s !! c; Some (s, [(c, connector_write x buf len fl)])
  | Close c =>
      '(x, _) ← conns s !! c;
      '(x, op, p) ← connector_close x (tproxy s);
      Some (TcpState p (<[c := (x, true)]> (conns s)), [(c, op)])
  | Destroy c =>
      '(x, _) ← conns s !! c;
      '(_, p) ← connector_return x (tproxy s);
      Some (TcpState p (delete c (conns s)), [])
  end.

Definition tcp_machine (raw : list Z) (k : K) (entry_length : Z) : machine tcp_state tcp_label tcp_event :=
  Machine (λ s, ∃ p p', proxy_new raw k = Some p ∧
             proxy_init kEnableFixfd kFixFdArraySize entry_length p = Some p' ∧ s = TcpState p' ∅) tcp_step.

(** The descriptor that a request names. *)
Definition request_fd (r : request) : option Z :=
  match r with
  | Uring.Read fd _ _ _ | Accept fd _ | Recv fd _ _ _ | SendData fd _ _ _ | CloseFd fd | Connect fd _ _ => Some fd
  | Nop | Timeout _ _ _ => None
  end.
(** The file the kernel uses for it: with [IOSQE_FIXED_FILE], the entry of the
    ring's table. *)
Definition target (k : K) (op : io_op) : option Z :=
  fd ← request_fd (op_request op);
  if Z.testbit (default 0 (op_flags op)) 0 then registered k !! Z.to_nat fd else Some fd.

(** ** What the requests name *)
Context `{!UringLaws K} (Hfix : kEnableFixfd = true).

(** A slot written to: the other entries of the table stay. *)
Lemma write_frame p outs i fd p1 p2 : slots kFixFdArraySize p outs → i ∈ outs →
  write_slot (Z.to_nat i) fd p = Some p1 →
  update_register_fixed_fds kEnableFixfd kFixFdArraySize i p1 = Some p2 →
  registered (m_uring p2) = <[Z.to_nat i := fd]> (registered (m_uring p)).
Proof.
  intros Hs Hi Hw Hu. destruct (slots_write _ _ Hfix _ _ _ _ _ _ Hs Hi Hw Hu) as (Hs2 & Hd & _).
  by rewrite (s_reg _ _ _ Hs2), Hd, (s_reg _ _ _ Hs).
Qed.

Lemma back_frame p outs it p' : slots kFixFdArraySize p outs → (valid it = true → idx it ∈ outs) →
  fixed_return_back kEnableFixfd kFixFdArraySize it p = Some (set_invalid it, p') ∨
  fixed_return_back kEnableFixfd kFixFdArraySize it p = Some (it, p') →
  ∀ j, (valid it = true → Z.of_nat j ≠ idx it) → registered (m_uring p') !! j = registered (m_uring p) !! j.
Proof.
  intros Hs Hi Hr j Hj. unfold fixed_return_back in Hr. destruct (valid it) eqn:Hv; [|by destruct Hr; simplify_eq].
  destruct (back_fixed_fd _ _ it p) as [p3|] eqn:Hb; simpl in Hr; [|by destruct Hr].
  assert (p3 = p') as -> by (destruct Hr; by simplify_eq). clear Hr.
  unfold back_fixed_fd in Hb. rewrite Hv in Hb.
  destruct (m_null_fds p !! _) as [fd|]; [|done]. simpl in Hb.
  destruct (write_slot _ fd p) as [p1|] eqn:Hw; [|done]. simpl in Hb.
  destruct (update_register_fixed_fds _ _ _ p1) as [p2|] eqn:Hu; [|done]. injection Hb as <-. simpl.
  rewrite (write_frame _ _ _ _ _ _ Hs (Hi eq_refl) Hw Hu), list_lookup_insert_ne; [done|].
  specialize (Hj eq_refl). destruct (lent_index _ _ _ _ Hs (Hi eq_refl)). lia.
Qed.

Abbreviation pool s := (PoolState (tproxy s) ((λ x : tcp_connector * bool, m_fixed_fd x.1) <$> conns s)).

(** An open connector names its socket, through its slot or directly. *)
Definition names (k : K) (x : tcp_connector) : Prop :=
  if valid (m_fixed_fd x) then
    m_sockfd x = idx (m_fixed_fd x) ∧ m_sqe_flag x = IOSQE_FIXED_FILE ∧
    registered k !! Z.to_nat (m_sockfd x) = Some (m_original_fd x)
  else m_sockfd x = m_original_fd x ∧ m_sqe_flag x = 0.

Record tcp_ok (s : tcp_state) : Prop := {
  t_pool : ∃ null, pool_ok kFixFdArraySize null (pool s);
  t_names : ∀ c x, conns s !! c = Some (x, false) → names (m_uring (tproxy s)) x;
}.

(** Connectors keep their names while the table keeps their slots' entries. *)
Lemma names_frame k k' x : (∀ j, valid (m_fixed_fd x) = true → Z.of_nat j = idx (m_fixed_fd x) →
    registered k' !! j = registered k !! j) → 0 <= idx (m_fixed_fd x) ∨ valid (m_fixed_fd x) = false →
  names k x → names k' x.
Proof.
  unfold names. intros Hj Hp. destruct (valid (m_fixed_fd x)); [|done]. intros (H1 & H2 & H3).
  split_and!; [done..|]. rewrite Hj; [done..|]. destruct Hp; [lia|done].
Qed.

Lemma pool_distinct null s c1 c2 it1 it2 : pool_ok kFixFdArraySize null s →
  objs s !! c1 = Some it1 → objs s !! c2 = Some it2 → valid it1 = true → valid it2 = true →
  c1 ≠ c2 → idx it1 ≠ idx it2.
Proof.
  intros [Hs _ _] H1 H2 Hv1 Hv2 Hne Heq. apply Hne. eapply outs_distinct; [|done..].
  pose proof (balanced_nodup _ _ (s_bal _ _ _ Hs)) as Hnd. by apply NoDup_app in Hnd as (_ & _ & Hnd).
Qed.

Lemma pool_held null s c it : pool_ok kFixFdArraySize null s → objs s !! c = Some it → valid it = true →
  idx it ∈ outs (objs s).
Proof. intros _ Hc Hv. apply outs_elem. eauto. Qed.

Lemma valid_index it : 0 <= idx it ∨ valid it = false.
Proof. unfold valid. case_bool_decide; auto. Qed.

Lemma pool_lookup s c x b : conns s !! c = Some (x, b) → objs (pool s) !! c = Some (m_fixed_fd x).
Proof. intros Hc. simpl. by rewrite lookup_fmap, Hc. Qed.

(** [return_back], by [close] or the destructor: the pool and the other
    connectors. *)
Lemma return_others s c x b x' p : tcp_ok s → conns s !! c = Some (x, b) →
  connector_return x (tproxy s) = Some (x', p) →
  m_fixed_fd x' = set_invalid (m_fixed_fd x) ∨ x' = x ∧ valid (m_fixed_fd x) = false →
  ∀ c' y, c' ≠ c → conns s !! c' = Some (y, false) → names (m_uring p) y.
Proof.
  intros [(null & Hp) Hn] Hc Hr Hx c' y Hne Hc'.
  apply (names_frame (m_uring (tproxy s))); [|apply valid_index|by eapply Hn].
  intros j Hv Hj. unfold connector_return in Hr.
  destruct (fixed_return_back _ _ (m_fixed_fd x) (tproxy s)) as [[it p']|] eqn:Hb; [|done].
  injection Hr as <- <-. simpl in Hx. apply (back_frame _ _ (m_fixed_fd x) _ (o_slots _ _ _ Hp)).
  - intros Hvx. eapply pool_held; [exact Hp|by eapply pool_lookup|done].
  - destruct Hx as [->|[Hx _]]; [by left|]. apply (f_equal m_fixed_fd) in Hx. simpl in Hx. subst it. by right.
  - intros Hvx. rewrite Hj. eapply (pool_distinct _ _ c' c); [exact Hp|by eapply pool_lookup..|done|done|done].
Qed.

Lemma return_shape x p x' p' : connector_return x p = Some (x', p') →
  fixed_return_back kEnableFixfd kFixFdArraySize (m_fixed_fd x) p = Some (m_fixed_fd x', p') ∧
  (m_fixed_fd x' = set_invalid (m_fixed_fd x) ∨ x' = x ∧ valid (m_fixed_fd x) = false).
Proof.
  unfold connector_return. intros Hr.
  destruct (fixed_return_back _ _ (m_fixed_fd x) p) as [[it p1]|] eqn:Hb; [|done]. simplify_eq/=. split; [done|].
  unfold fixed_return_back in Hb. destruct (valid (m_fixed_fd x)) eqn:Hv.
  - left. destruct (back_fixed_fd _ _ _ _); simpl in Hb; [|done]. by simplify_eq.
  - right. simplify_eq. by destruct x.
Qed.

(** The constructor. *)
Lemma connector_new_ok s c fd x p : tcp_ok s → conns s !! c = None →
  connector_new fd (tproxy s) = Some (x, p) → tcp_ok (TcpState p (<[c := (x, false)]> (conns s))).
Proof.
  intros [(null & Hp) Hn] Hc Hnew. unfold connector_new in Hnew.
  destruct (fixed_new kEnableFixfd (tproxy s)) as [it p1] eqn:Hfn.
  destruct (assign _ _ it fd 0 p1) as [[[fd' fl] p2]|] eqn:Ha; [|done].
  simpl in Hnew. injection Hnew as <- <-.
  assert (Hreg : registered (m_uring p1) = registered (m_uring (tproxy s))).
  { unfold fixed_new, get_fixed_fd in Hfn. rewrite Hfix in Hfn. destruct (borrow _). by injection Hfn as <- <-. }
  assert (Hp1 : pool_ok kFixFdArraySize null (PoolState p1 (<[c := it]> (objs (pool s))))).
  { apply (pool_ok_step _ _ Hfix null (New c) _ _ [] Hp). simpl. by rewrite lookup_fmap, Hc, Hfn. }
  assert (Hp2 : pool_ok kFixFdArraySize null (PoolState p2 (<[c := it]> (objs (pool s))))).
  { apply (pool_ok_step _ _ Hfix null (Assign c fd 0) _ _ [(fd', fl)] Hp1). simpl.
    by rewrite lookup_insert_eq; simpl; rewrite Ha. }
  assert (Hci : objs (PoolState p1 (<[c := it]> (objs (pool s)))) !! c = Some it) by apply lookup_insert_eq.
  assert (Hx : if valid it then fd' = idx it ∧ fl = IOSQE_FIXED_FILE ∧
      registered (m_uring p2) = <[Z.to_nat (idx it) := fd]> (registered (m_uring (tproxy s))) ∧
      registered (m_uring p2) !! Z.to_nat (idx it) = Some fd
    else fd' = fd ∧ fl = 0 ∧ p2 = p1).
  { destruct (valid it) eqn:Hv.
    - pose proof (pool_held _ _ _ _ Hp1 Hci Hv) as Hin.
      destruct (slots_assign _ _ Hfix _ _ _ _ _ _ _ _ (o_slots _ _ _ Hp1) Hv Hin (o_ptr _ _ _ Hp1 _ _ Hci Hv) Ha)
        as (_ & -> & -> & Hr & _). split_and!; [done..| |done].
      unfold assign in Ha. rewrite Hv, (o_ptr _ _ _ Hp1 _ _ Hci Hv) in Ha. simpl in Ha.
      destruct (write_slot _ fd p1) as [p3|] eqn:Hw; [|done]. simpl in Ha.
      destruct (update_register_fixed_fds _ _ _ p3) as [p4|] eqn:Hu; [|done].
      simpl in Ha. injection Ha as <-. by rewrite (write_frame _ _ _ _ _ _ (o_slots _ _ _ Hp1) Hin Hw Hu); simpl; rewrite Hreg.
    - unfold assign in Ha. rewrite Hv in Ha. by injection Ha as <- <- <-. }
  split; [exists null; simpl; by rewrite fmap_insert|]. simpl. intros c' y Hc'.
  apply lookup_insert_Some in Hc' as [[<- Hy]|[Hne Hc']].
  - injection Hy as <-. unfold names. simpl. destruct (valid it); [|by destruct Hx as (-> & -> & _)].
    by destruct Hx as (-> & -> & _ & ?).
  - apply (names_frame (m_uring (tproxy s))); [|apply valid_index|by eapply Hn].
    intros j Hv Hj. destruct (valid it) eqn:Hvi; [|destruct Hx as (_ & _ & ->); by rewrite Hreg].
    destruct Hx as (_ & _ & -> & _). apply list_lookup_insert_ne. intros <-.
    eapply (pool_distinct _ _ c c' it (m_fixed_fd y) Hp2); [done|simpl; rewrite lookup_insert_ne by done; by eapply pool_lookup|done..|].
    rewrite <- Hj. destruct (valid_index it); [|congruence]. lia.
Qed.

Lemma tcp_ok_step l s s' es : tcp_ok s → tcp_step l s = Some (s', es) → tcp_ok s'.
Proof.
  intros Hok Hst. destruct l as [c fd|c buf len fl|c buf len fl|c|c]; simpl in Hst.
  - case_decide as Hc; [|done]. destruct (connector_new fd (tproxy s)) as [[x p]|] eqn:Hx; [|done].
    injection Hst as <- <-. by apply connector_new_ok with fd.
  - destruct (conns s !! c) as [[]|]; [|done]. by injection Hst as <- <-.
  - destruct (conns s !! c) as [[]|]; [|done]. by injection Hst as <- <-.
  - destruct (conns s !! c) as [[x b]|] eqn:Hc; [|done]. simpl in Hst. unfold connector_close in Hst.
    destruct (connector_return x (tproxy s)) as [[x' p]|] eqn:Hr; [|done]. injection Hst as <- <-.
    destruct (return_shape _ _ _ _ Hr) as [Hb Hs]. split; simpl.
    + destruct Hok as [(null & Hp) _]. exists null. rewrite fmap_insert.
      apply (pool_ok_step _ _ Hfix null (ReturnBack c) (pool s) _ [] Hp). simpl.
      by rewrite lookup_fmap, Hc; simpl; rewrite Hb.
    + intros c' y Hc'. apply lookup_insert_Some in Hc' as [[_ ?]|[Hne Hc']]; [done|].
      by eapply (return_others s c).
  - destruct (conns s !! c) as [[x b]|] eqn:Hc; [|done]. simpl in Hst.
    destruct (connector_return x (tproxy s)) as [[x' p]|] eqn:Hr; [|done]. injection Hst as <- <-.
    destruct (return_shape _ _ _ _ Hr) as [Hb Hs]. split; simpl.
    + destruct Hok as [(null & Hp) _]. exists null. rewrite fmap_delete.
      apply (pool_ok_step _ _ Hfix null (UringProxy.Destroy c) (pool s) _ [] Hp). simpl.
      by rewrite lookup_fmap, Hc; simpl; rewrite Hb.
    + intros c' y Hc'. apply lookup_delete_Some in Hc' as [Hne Hc']. by eapply (return_others s c).
Qed.

Lemma tcp_ok_reach raw k e s tr : length raw = kFixFdArraySize → reach (tcp_machine raw k e) s tr → tcp_ok s.
Proof.
  intros Hraw Hr. revert s tr Hr. apply reach_inv; [|intros; by eapply tcp_ok_step].
  intros s (p & p' & Hn & Hi & ->). split; [|done]. exists (m_null_fds p'). simpl. rewrite fmap_empty.
  destruct (slots_init _ _ Hfix _ _ _ _ _ Hraw Hn Hi) as (Hs & _). by split; simpl.
Qed.
End connector.

(** ** Servers and clients *)
Record sockaddr_in := SockAddr { sin_family : Z; sin_port : Z; s_addr : Z }.

Definition AF_INET : Z := 2.
Definition INADDR_ANY : Z := 0.
Definition O_NONBLOCK : Z := 2048.
(** [config::kBacklog] *)
Definition kBacklog : Z := 5.
(** On a little-endian machine. *)
Definition htons (port : Z) : Z := Z.lor (Z.shiftl (Z.land port 255) 8) (Z.land (Z.shiftr port 8) 255).

(** The calls of the sockets API. *)
Class Sockets (W : Type) := {
  socket : W → Z * W;
  fcntl_getfl : Z → W → Z * W;
  fcntl_setfl : Z → Z → W → Z * W;
  bind : Z → sockaddr_in → W → Z * W;
  listen : Z → Z → W → Z * W;
  (* what the kernel knows of a socket *)
  status_flags : W → Z → Z;
  bound : W → Z → option sockaddr_in;
  listening : W → Z → bool;
}.

Class SocketsLaws (W : Type) `{Sockets W} : Prop := {
  socket_ok w fd w' : socket w = (fd, w') → 0 <= fd → Z.testbit (status_flags w' fd) 11 = false;
  getfl_ok fd w r w' : fcntl_getfl fd w = (r, w') →
    w' = w ∧ (0 <= r → r = status_flags w fd);
  setfl_ok fd f w r w' : fcntl_setfl fd f w = (r, w') → 0 <= r → status_flags w' fd = f;
  bind_ok fd sa w w' : bind fd sa w = (0, w') →
    0 <= fd ∧ bound w' fd = Some sa ∧ status_flags w' fd = status_flags w fd;
  listen_ok fd n w w' : listen fd n w = (0, w') →
    listening w' fd = true ∧ bound w' fd = bound w fd ∧ status_flags w' fd = status_flags w fd;
}.

Section server.
Context {K W A : Type} `{Uring K} `{Sockets W}.
(** [A] are the C strings; [inet_pton] answers its result and the address it
    writes if that is 1. *)
Context (inet_pton : A → Z * Z).
Context (kEnableFixfd : bool) (kFixFdArraySize : nat).
(** Whether assertions are compiled out. *)
Context (NDEBUG : bool).

(** [set_fd_noblock] (src/utils.cpp): the second [fcntl] is in an assertion. *)
Definition set_fd_noblock (fd : Z) (w : W) : option W :=
  let '(flags, w) := fcntl_getfl fd w in
  if NDEBUG then Some w
  else if decide (flags < 0) then None
  else
    let '(r, w) := fcntl_setfl fd (Z.lor flags O_NONBLOCK) w in
    if decide (r < 0) then None else Some w.

(** [m_serveraddr], as both constructors fill it. *)
Definition serveraddr (addr : option A) (port : Z) : option sockaddr_in :=
  match addr with
  | Some a =>
      let '(r, v) := inet_pton a in
      if decide (r < 0) then None
      else Some (SockAddr AF_INET (htons port) (if decide (r = 1) then v else 0))
  | None => Some (SockAddr AF_INET (htons port) INADDR_ANY)
  end.

(** The fields that the constructor sets: [m_port] is not among them. *)
Record tcp_server := Server {
  m_listenfd : Z;
  m_serveraddr : sockaddr_in;
  server_fixed_fd : item;
  server_sqe_flag : Z;
}.

Definition tcp_server_new (addr : option A) (port : Z) (p : uring_proxy (K:=K)) (w : W) :
    option (tcp_server * uring_proxy * W) :=
  let '(it, p) := fixed_new kEnableFixfd p in
  let '(fd, w) := socket w in
  if decide (NDEBUG = false ∧ fd = -1) then None else
  w ← set_fd_noblock fd w;
  sa ← serveraddr addr port;
  let '(r, w) := bind fd sa w in
  if decide (r ≠ 0) then None else
  let '(r, w) := listen fd kBacklog w in
  if decide (r ≠ 0) then None else
  '((lfd, flag), p) ← assign kEnableFixfd kFixFdArraySize it fd 0 p;
  Some (Server lfd sa it flag, p, w).

Definition server_accept (s : tcp_server) (io_flags : Z) : io_op :=
  AcceptAwaiter (m_listenfd s) io_flags (server_sqe_flag s).

Record tcp_client := Client {
  m_clientfd : Z;
  client_serveraddr : sockaddr_in;
}.

Definition tcp_client_new (addr : option A) (port : Z) (w : W) : option (tcp_client * W) :=
  let '(fd, w) := socket w in
  if decide (fd < 0) then None else
  w ← set_fd_noblock fd w;
  sa ← serveraddr addr port;
  Some (Client fd sa, w).

(** [self] is the address of [m_serveraddr], a structure of 16 bytes. *)
Definition client_connect (c : tcp_client) (self : ptr) : io_op :=
  ConnectAwaiter (m_clientfd c) self 16.

Context `{!UringLaws K} `{!SocketsLaws W} (Hfix : kEnableFixfd = true).

Lemma set_fd_noblock_ok fd w w' : set_fd_noblock fd w = Some w' →
  (NDEBUG = true → w' = w) ∧ (NDEBUG = false → Z.testbit (status_flags w' fd) 11 = true).
Proof.
  unfold set_fd_noblock. intros Hs. destruct (fcntl_getfl fd w) as [r w1] eqn:Hg.
  destruct (getfl_ok _ _ _ _ Hg) as [-> Hr]. destruct NDEBUG; [injection Hs as <-; done|]. split; [done|]. intros _.
  case_decide; [done|]. destruct (fcntl_setfl _ _ w) as [r2 w2] eqn:Hf. case_decide; [done|]. injection Hs as <-.
  rewrite (setfl_ok _ _ _ _ _ Hf) by lia. rewrite Z.lor_spec. by apply orb_true_r.
Qed.

(** The address asked for; one that [inet_pton] does not understand is every
    address. *)
Definition asked (addr : option A) (port : Z) : sockaddr_in :=
  SockAddr AF_INET (htons port)
    match addr with
    | Some a => if decide ((inet_pton a).1 = 1) then (inet_pton a).2 else INADDR_ANY
    | None => INADDR_ANY
    end.

Lemma serveraddr_asked addr port sa : serveraddr addr port = Some sa → sa = asked addr port.
Proof.
  unfold serveraddr, asked. destruct addr as [a|]; [|by intros [= <-]].
  destruct (inet_pton a) as [r v]. simpl. case_decide; [done|]. by intros [= <-].
Qed.

(** A new object's descriptor, registered or not, is the one given. *)
Lemma assign_new_target p outs it p1 fd fd' fl p2 : slots kFixFdArraySize p outs →
  fixed_new kEnableFixfd p = (it, p1) → assign kEnableFixfd kFixFdArraySize it fd 0 p1 = Some (fd', fl, p2) →
  (if Z.testbit fl 0 then registered (m_uring p2) !! Z.to_nat fd' else Some fd') = Some fd.
Proof.
  intros Hs Hn Ha. pose proof (slots_new _ _ Hfix _ _ _ _ Hs Hn) as Hnew. destruct (valid it) eqn:Hv.
  - destruct Hnew as [Hs1 Hp].
    destruct (slots_assign _ _ Hfix _ _ _ _ _ _ _ _ Hs1 Hv ltac:(by left) Hp Ha) as (_ & -> & -> & Hr & _). done.
  - unfold assign in Ha. rewrite Hv in Ha. by injection Ha as <- <- <-.
Qed.
End server.

(** ** Properties *)

(** C27: requests reach the right socket: whatever connectors are opened, used,
    closed and destroyed, the file that the kernel uses for a read or a write
    of a connector that is not closed is the socket it was made for, through
    its fixed slot or directly. *)
Theorem tcp_names_socket {K} `{UringLaws K} n raw k e s tr c x buf len fl : length raw = n →
  reach (tcp_machine true n raw k e) s tr → conns s !! c = Some (x, false) →
  target (m_uring (tproxy s)) (connector_read x buf len fl) = Some (m_original_fd x) ∧
  target (m_uring (tproxy s)) (connector_write x buf len fl) = Some (m_original_fd x).
Proof.
  intros Hraw Hr Hc. pose proof (t_names _ _ (tcp_ok_reach true n eq_refl raw k e s tr Hraw Hr) c x Hc) as Hn.
  unfold names in Hn. unfold target, connector_read, connector_write. simpl. destruct (valid (m_fixed_fd x)).
  - destruct Hn as (-> & -> & Hn). done.
  - destruct Hn as (-> & ->). done.
Qed.

(** a server that is constructed listens at the port and address asked for
    (at every address, when [inet_pton] does not understand the one given), its
    accepts name its socket, and the socket is non-blocking only when assertions
    are compiled in. *)
Theorem tcp_server_spec {K W A} `{UringLaws K} `{SocketsLaws W} (inet_pton : A → Z * Z)
    n NDEBUG addr port p w outs s p' w' fl :
  slots n p outs → tcp_server_new inet_pton true n NDEBUG addr port p w = Some (s, p', w') →
  ∃ fd, target (m_uring p') (server_accept s fl) = Some fd ∧
    bound w' fd = Some (asked inet_pton addr port) ∧ listening w' fd = true ∧
    Z.testbit (status_flags w' fd) 11 = negb NDEBUG.
Proof.
  intros Hs Hnew. unfold tcp_server_new in Hnew.
  destruct (fixed_new true p) as [it p1] eqn:Hfn. destruct (socket w) as [fd w1] eqn:Hso.
  case_decide; [done|]. destruct (set_fd_noblock _ fd w1) as [w2|] eqn:Hnb; [|done]. simpl in Hnew.
  destruct (serveraddr inet_pton addr port) as [sa|] eqn:Hsa; [|done]. simpl in Hnew.
  destruct (bind fd sa w2) as [r3 w3] eqn:Hb. case_decide as Hr3; [done|].
  destruct (listen fd kBacklog w3) as [r4 w4] eqn:Hl. case_decide as Hr4; [done|].
  destruct (assign true n it fd 0 p1) as [[[lfd flag] p2]|] eqn:Ha; [|done]. injection Hnew as <- <- <-.
  assert (r3 = 0) as -> by lia. assert (r4 = 0) as -> by lia.
  apply bind_ok in Hb as (Hfd & Hbd & Hfl). apply listen_ok in Hl as (Hls & Hbd2 & Hfl2).
  destruct (set_fd_noblock_ok _ _ _ _ Hnb) as [Hrel Hdbg]. exists fd. split_and!.
  - pose proof (assign_new_target true n eq_refl _ _ _ _ _ _ _ _ Hs Hfn Ha) as Ht. exact Ht.
  - by rewrite Hbd2, Hbd, (serveraddr_asked _ _ _ _ Hsa).
  - done.
  - rewrite Hfl2, Hfl. destruct NDEBUG; simpl; [|by apply Hdbg].
    rewrite (Hrel eq_refl). exact (socket_ok _ _ _ Hso Hfd).
Qed.

(** ** Witnesses *)
Definition tcp_start : tcp_state := TcpState (proxy pool0) ∅.
Definition tcp_demo : list tcp_label :=
  [Open 1 77; Open 2 78; Open 3 79; Read 1 500 16 0; Close 1; Open 4 80]%nat.
Definition tcp_m := tcp_machine true 2 [0; 0] sim0 10240.
Definition tcp_end := final tcp_m tcp_demo tcp_start.

Lemma tcp_start_init : m_init tcp_m tcp_start.
Proof.
  destruct (proxy_new [0; 0] sim0) as [p|] eqn:Hp; [|done].
  destruct (proxy_init true 2 10240 p) as [p'|] eqn:Hp'.
  - exists p, p'. split_and!; [done..|]. unfold tcp_start, pool0, px. rewrite Hp. simpl. by rewrite Hp'.
  - vm_compute in Hp. injection Hp as <-. by vm_compute in Hp'.
Defined.

Lemma tcp_demo_reach : reach tcp_m tcp_end (trace tcp_m tcp_demo tcp_start).
Proof. apply exec_reach_final; [exact tcp_start_init|by vm_compute]. Defined.

(** The descriptor is not reset by [close]: a read of a closed connector can
    reach the socket of another one. *)
Lemma read_after_close : ∃ x, conns tcp_end !! 1%nat = Some (x, true) ∧
  target (m_uring (tproxy tcp_end)) (connector_read x 500 16 0) = Some 80.
Proof. eexists. split; by vm_compute. Qed.

Lemma tcp_names_socket_witness : ∃ x, conns tcp_end !! 2%nat = Some (x, false) ∧ m_sockfd x = 1 ∧
  target (m_uring (tproxy tcp_end)) (connector_read x 500 16 0) = Some 78.
Proof.
  eexists. split_and!; [by vm_compute|done|].
  edestruct (tcp_names_socket 2 [0; 0] sim0 10240 tcp_end (trace tcp_m tcp_demo tcp_start) 2) as [Ht _];
    [reflexivity|exact tcp_demo_reach|by vm_compute|exact Ht].
Defined.

(** Sockets of a kernel where every call succeeds. *)
Record sim_sockets := SimSockets {
  next_fd : nat;
  fd_flags : Z → Z;
  fd_bound : Z → option sockaddr_in;
  fd_listening : Z → bool;
}.
Definition at_fd {B} (fd : Z) (x : B) (f : Z → B) : Z → B := λ j, if decide (j = fd) then x else f j.
#[export] Instance sim_sockets_ops : Sockets sim_sockets := {|
  socket w := (Z.of_nat (next_fd w),
    SimSockets (S (next_fd w)) (at_fd (Z.of_nat (next_fd w)) 2 (fd_flags w)) (fd_bound w) (fd_listening w));
  fcntl_getfl fd w := (fd_flags w fd, w);
  fcntl_setfl fd f w := (0, SimSockets (next_fd w) (at_fd fd f (fd_flags w)) (fd_bound w) (fd_listening w));
  bind fd sa w :=
    if decide (fd < 0) then (-1, w)
    else (0, SimSockets (next_fd w) (fd_flags w) (at_fd fd (Some sa) (fd_bound w)) (fd_listening w));
  listen fd _ w := (0, SimSockets (next_fd w) (fd_flags w) (fd_bound w) (at_fd fd true (fd_listening w)));
  status_flags := fd_flags;
  bound := fd_bound;
  listening := fd_listening;
|}.
#[export] Instance sim_sockets_laws : SocketsLaws sim_sockets.
Proof.
  split; simpl.
  - intros w fd w' [= <- <-] _. simpl. unfold at_fd. by rewrite decide_True.
  - by intros w fd r w' [= <- <-].
  - intros w fd f r w' [= <- <-] _. simpl. unfold at_fd. by rewrite decide_True.
  - intros fd sa w w' Hb. case_decide; [done|]. injection Hb as <-. simpl. unfold at_fd.
    rewrite decide_True by done. split_and!; [lia|done|done].
  - intros fd n w w' [= <-]. simpl. unfold at_fd. by rewrite decide_True.
Qed.

Definition no_sockets : sim_sockets := SimSockets 10 (λ _, 0) (λ _, None) (λ _, false).
(** An address that is not understood. *)
Definition server_demo := tcp_server_new (λ _ : (), (0, 0)) true 2 true (Some ()) 8000 (proxy pool0) no_sockets.

Lemma pool0_slots : slots 2 (proxy pool0) [].
Proof.
  destruct (proxy_new [0; 0] sim0) as [p|] eqn:Hp; [|done].
  destruct (proxy_init true 2 10240 p) as [p'|] eqn:Hp'.
  - destruct (slots_init true 2 eq_refl [0; 0] sim0 10240 p p' eq_refl Hp Hp') as [Hs _].
    unfold pool0, px. rewrite Hp. simpl. by rewrite Hp'.
  - vm_compute in Hp. injection Hp as <-. by vm_compute in Hp'.
Defined.

Lemma tcp_server_spec_witness : ∃ s p' w' fd, server_demo = Some (s, p', w') ∧
  bound w' fd = Some (SockAddr AF_INET 16415 INADDR_ANY) ∧ Z.testbit (status_flags w' fd) 11 = false.
Proof.
  destruct server_demo as [[[s p'] w']|] eqn:Hd; [|by vm_compute in Hd].
  destruct (tcp_server_spec (λ _ : (), (0, 0)) 2 true (Some ()) 8000 (proxy pool0) no_sockets [] s p' w' 0 pool0_slots Hd)
    as (fd & _ & Hb & _ & Hf).
  exists s, p', w', fd. split_and!; [done|exact Hb|exact Hf].
Defined.
