(* ===== verification/Timer.v ===== *)
(** * coro::time::timer (include/coro/timer.hpp)

    The chained additions of a timer, at the width of [__kernel_timespec], the
    split of a duration, and the request that awaiting a timer makes. *)
From S2P Require Import Prelude Uring IoAwaiter.
Local Open Scope Z_scope.
Local Open Scope coro_scope.

(** [__kernel_timespec]: two 64-bit signed numbers. *)
Definition timespec : Type := Z * Z.

Record timer := Timer {
  m_ts : timespec;
  m_flag : Z;                         (* unsigned *)
}.

(** The constructor does not initialise [m_ts]: [raw] is what is there. *)
Definition timer_new (raw : timespec) (flag : Z) : timer := Timer raw flag.

(** An addition of a [uint64_t] to a signed field: computed unsigned, then
    converted back. *)
Definition plus_eq (field n : Z) : Z := s64 (u64 (u64 field + n)).

Definition add_seconds (seconds : Z) (t : timer) : timer :=
  Timer (plus_eq (m_ts t).1 seconds, (m_ts t).2) (m_flag t).
Definition add_mseconds (mseconds : Z) (t : timer) : timer :=
  Timer ((m_ts t).1, plus_eq (m_ts t).2 (u64 (1000000 * mseconds))) (m_flag t).
Definition add_useconds (useconds : Z) (t : timer) : timer :=
  Timer ((m_ts t).1, plus_eq (m_ts t).2 (u64 (1000 * useconds))) (m_flag t).
Definition add_nseconds (nseconds : Z) (t : timer) : timer :=
  Timer ((m_ts t).1, plus_eq (m_ts t).2 nseconds) (m_flag t).

(** [get_kernel_timespec] of [ticks] periods of [num / den] seconds.
    [duration_cast] rounds towards zero. *)
Definition get_kernel_timespec (num den ticks : Z) : timespec :=
  let seconds := Z.quot (ticks * num) den in
  let nanoseconds := Z.quot ((ticks * num - seconds * den) * 10 ^ 9) den in
  (seconds, nanoseconds).
Definition set_by_duration (num den ticks : Z) (t : timer) : timer :=
  Timer (get_kernel_timespec num den ticks) (m_flag t).

(** [operator co_await] *)
(** A time point is the duration since its clock's epoch. *)
Definition get_kernel_timespec_at (num den time_since_epoch : Z) : timespec :=
  get_kernel_timespec num den time_since_epoch.
Definition set_by_timepoint (num den time_since_epoch : Z) (t : timer) : timer :=
  Timer (get_kernel_timespec_at num den time_since_epoch) (m_flag t).

Definition co_await (t : timer) : io_op := TimerAwaiter (m_ts t) 1 0.

(** A chain of calls. *)
Inductive timer_call := Seconds (n : Z) | Mseconds (n : Z) | Useconds (n : Z) | Nseconds (n : Z).
Definition call (t : timer) (c : timer_call) : timer :=
  match c with
  | Seconds n => add_seconds n t
  | Mseconds n => add_mseconds n t
  | Useconds n => add_useconds n t
  | Nseconds n => add_nseconds n t
  end.
Definition calls (cs : list timer_call) (t : timer) : timer := foldl call t cs.

(** ** The reference: unbounded seconds and nanoseconds *)
Definition seconds_of (c : timer_call) : Z := match c with Seconds n => n | _ => 0 end.
Definition nanoseconds_of (c : timer_call) : Z :=
  match c with Seconds _ => 0 | Mseconds n => 1000000 * n | Useconds n => 1000 * n | Nseconds n => n end.
Definition total (f : timer_call → Z) (cs : list timer_call) : Z := foldr (λ c z, f c + z) 0 cs.

Definition is_s64 (z : Z) : Prop := - 2 ^ 63 <= z < 2 ^ 63.
Definition time_ok (ts : timespec) : Prop := is_s64 ts.1 ∧ is_s64 ts.2.

Lemma sw_uw w z : sw w (uw w z) = sw w z.
Proof. unfold sw, uw. f_equal. by rewrite Zplus_mod_idemp_l. Qed.

Lemma plus_eq_sw field n : plus_eq field n = s64 (field + n).
Proof. unfold plus_eq. by rewrite uw_add_l, sw_uw. Qed.

Lemma plus_eq_uw field n : plus_eq field (u64 n) = s64 (field + n).
Proof. rewrite plus_eq_sw, <- sw_uw, uw_add_r. apply sw_uw. Qed.

Lemma s64_small z : is_s64 z → s64 z = z.
Proof. intros Hz. apply sw_small; [lia|exact Hz]. Qed.

Lemma call_ts t c : time_ok (m_ts t) →
  m_ts (call t c) = (s64 ((m_ts t).1 + seconds_of c), s64 ((m_ts t).2 + nanoseconds_of c)) ∧
  time_ok (m_ts (call t c)).
Proof.
  intros [H1 H2].
  assert (Heq : m_ts (call t c) = (s64 ((m_ts t).1 + seconds_of c), s64 ((m_ts t).2 + nanoseconds_of c))).
  { destruct c; simpl; rewrite ?plus_eq_uw, ?plus_eq_sw, ?Z.add_0_r; f_equal; symmetry; by apply s64_small. }
  split; [done|]. rewrite Heq. split; simpl; (apply (sw_range 64); lia).
Qed.

Lemma calls_ts cs : ∀ t, time_ok (m_ts t) →
  m_ts (calls cs t) = (s64 ((m_ts t).1 + total seconds_of cs), s64 ((m_ts t).2 + total nanoseconds_of cs)).
Proof.
  induction cs as [|c cs IH]; intros t Ht; simpl.
  - destruct Ht. rewrite !Z.add_0_r, !s64_small by done. by destruct (m_ts t).
  - destruct (call_ts t c Ht) as [Hc Hok]. fold (calls cs (call t c)). rewrite IH by done. rewrite Hc. simpl.
    by rewrite !sw_add_l, !Z.add_assoc.
Qed.

Lemma calls_flag cs : ∀ t, m_flag (calls cs t) = m_flag t.
Proof. induction cs as [|c cs IH]; intros t; [done|]. simpl. fold (calls cs (call t c)). rewrite IH. by destruct c. Qed.

Lemma total_perm f cs cs' : cs ≡ₚ cs' → total f cs = total f cs'.
Proof. induction 1; simpl; lia. Qed.

(** ** Properties *)

(** a chain of additions is the addition of their sum: whatever their order,
    a timer's fields hold the total seconds and the total nanoseconds added,
    modulo 2^64, on top of what they held before. *)
Theorem timer_adds cs cs' t : time_ok (m_ts t) → cs ≡ₚ cs' →
  calls cs t = calls cs' t ∧
  m_ts (calls cs t) = (s64 ((m_ts t).1 + total seconds_of cs), s64 ((m_ts t).2 + total nanoseconds_of cs)) ∧
  (is_s64 ((m_ts t).1 + total seconds_of cs) → is_s64 ((m_ts t).2 + total nanoseconds_of cs) →
   (m_ts (calls cs t)).1 * 10 ^ 9 + (m_ts (calls cs t)).2 =
     (m_ts t).1 * 10 ^ 9 + (m_ts t).2 + total (λ c, seconds_of c * 10 ^ 9 + nanoseconds_of c) cs).
Proof.
  intros Ht Hp. pose proof (calls_ts cs t Ht) as Hcs. split_and!; [|done|].
  - pose proof (calls_ts cs' t Ht) as Hcs'. rewrite <- !(total_perm _ _ _ Hp) in Hcs'.
    pose proof (calls_flag cs t). pose proof (calls_flag cs' t).
    destruct (calls cs t), (calls cs' t). simpl in *. congruence.
  - intros H1 H2. rewrite Hcs. simpl. rewrite !s64_small by done.
    assert (Hsum : total (λ c, seconds_of c * 10 ^ 9 + nanoseconds_of c) cs =
      total seconds_of cs * 10 ^ 9 + total nanoseconds_of cs).
    { clear. induction cs; simpl; lia. }
    rewrite Hsum. lia.
Qed.

(** [get_kernel_timespec] loses nothing but fractions of a nanosecond: its
    two fields put together are the duration in nanoseconds, and the second is
    less than a second, of the sign of the first. *)
Theorem kernel_timespec_total num den ticks : 0 < num → 0 < den →
  let '(s, n) := get_kernel_timespec num den ticks in
  s * 10 ^ 9 + n = Z.quot (ticks * num * 10 ^ 9) den ∧
  Z.abs n < 10 ^ 9 ∧ (0 <= ticks → 0 <= s ∧ 0 <= n) ∧ (ticks <= 0 → s <= 0 ∧ n <= 0).
Proof.
  intros Hnum Hden. unfold get_kernel_timespec.
  pose proof (Z.quot_rem' (ticks * num) den) as Hqr.
  assert (Hr : ticks * num - Z.quot (ticks * num) den * den = Z.rem (ticks * num) den) by lia.
  rewrite Hr. set (q := Z.quot (ticks * num) den) in *. set (r := Z.rem (ticks * num) den) in *.
  assert (Hs : (0 <= ticks → 0 <= q ∧ 0 <= r < den) ∧ (ticks <= 0 → q <= 0 ∧ - den < r <= 0)).
  { split; intros Ht.
    - pose proof (Z.rem_bound_pos (ticks * num) den ltac:(nia) Hden). split; [|done].
      apply Z.quot_pos; nia.
    - pose proof (Z.rem_bound_pos (- (ticks * num)) den ltac:(nia) Hden) as Hb.
      rewrite Z.rem_opp_l in Hb by lia. fold r in Hb. split; [|lia].
      pose proof (Z.quot_pos (- (ticks * num)) den ltac:(nia) Hden) as Hq.
      rewrite Z.quot_opp_l in Hq by lia. fold q in Hq. lia. }
  assert (Hn : (0 <= r → 0 <= Z.quot (r * 10 ^ 9) den) ∧ (r <= 0 → Z.quot (r * 10 ^ 9) den <= 0) ∧
    (- den < r < den → Z.abs (Z.quot (r * 10 ^ 9) den) < 10 ^ 9)).
  { split_and!; intros H0.
    - apply Z.quot_pos; lia.
    - pose proof (Z.quot_pos (- (r * 10 ^ 9)) den ltac:(lia) Hden) as Hq. rewrite Z.quot_opp_l in Hq by lia. lia.
    - rewrite <- Z.quot_abs by lia. rewrite (Z.abs_eq den) by lia. apply Z.quot_lt_upper_bound; lia. }
  assert (Hsplit : q * 10 ^ 9 + Z.quot (r * 10 ^ 9) den = Z.quot (ticks * num * 10 ^ 9) den).
  { replace (ticks * num * 10 ^ 9) with (r * 10 ^ 9 + (q * 10 ^ 9) * den) by lia.
    rewrite Z.quot_add by (destruct (Z.le_gt_cases 0 ticks); nia). lia. }
  destruct (Z.le_gt_cases 0 ticks) as [Ht|Ht]; split_and!; try lia; intros; split; lia.
Qed.

(** Awaiting a timer asks for a relative time of the monotonic clock: the flag
    it was constructed with (absolute, another clock) is ignored, and time
    added to a timer is added to whatever its memory held. *)
Lemma timer_flag_ignored raw flag cs : time_ok raw →
  co_await (calls cs (timer_new raw flag)) =
    TimerAwaiter (s64 (raw.1 + total seconds_of cs), s64 (raw.2 + total nanoseconds_of cs)) 1 0.
Proof. intros Hr. unfold co_await. by rewrite calls_ts. Qed.

(** ** Witnesses *)
Lemma timer_adds_witness :
  m_ts (calls [Seconds 1; Mseconds 1500; Nseconds 7] (timer_new (0, 0) 0)) = (1, 1500000007) ∧
  calls [Seconds 1; Mseconds 1500; Nseconds 7] (timer_new (0, 0) 0) =
    calls [Mseconds 1500; Seconds 1; Nseconds 7] (timer_new (0, 0) 0).
Proof.
  destruct (timer_adds [Seconds 1; Mseconds 1500; Nseconds 7] [Mseconds 1500; Seconds 1; Nseconds 7]
    (timer_new (0, 0) 0)) as (H1 & H2 & _).
  - by split.
  - constructor.
  - split; [exact H2|exact H1].
Defined.

Lemma kernel_timespec_total_witness :
  get_kernel_timespec 1 1000 (-2500) = (-2, -500000000) ∧
  -2 * 10 ^ 9 + -500000000 = Z.quot (-2500 * 1 * 10 ^ 9) 1000.
Proof.
  split; [by vm_compute|].
  pose proof (kernel_timespec_total 1 1000 (-2500) eq_refl eq_refl) as [H _]. exact H.
Defined.
