(* ===== verification/Container.v ===== *)
(** * coro::detail::container (include/coro/detail/container.hpp)

    Where a promise or an event keeps its value: the general container, the
    one for references, and the one for plain data. Exceptions are values of
    type [X]; a call returns, throws, or ends the program. *)
From S2P Require Import Prelude.
Local Open Scope Z_scope.

(** What [result] throws. *)
Inductive thrown (X : Type) :=
  | Rethrow (e : X)
  | RuntimeError.                     (* "The return value was never set" *)
Arguments Rethrow {X}.
Arguments RuntimeError {X}.

Inductive outcome (X V : Type) :=
  | Ret (v : V)
  | Throw (t : thrown X)
  | Terminate.                        (* an exception left a noexcept function *)
Arguments Ret {X V}.
Arguments Throw {X V}.
Arguments Terminate {X V}.

(** What a coroutine and whoever awaits it do with the storage of a promise,
    and what they rely on: a promise is written at most once. *)
Class Promised (C X V : Type) := {
  c_new : C;
  c_return : V → C → C;
  c_except : X → C → C;
  c_result : C → outcome X V;
}.
Class PromiseLaws (C X V : Type) `{Promised C X V} := {
  result_return_new v : c_result (c_return v c_new) = Ret v;
  result_except_new e : c_result (c_except e c_new) = Throw (Rethrow e);
}.

(** The operations of a container, and what its users may rely on. *)
Class Container (C X V : Type) := {
  container_promised :: Promised C X V;
  c_ready : C → bool;
  c_exception : C → bool;
  c_unset : C → bool;
}.
Class ContainerLaws (C X V : Type) `{Container C X V} := {
  result_return v c : c_result (c_return v c) = Ret v;
  result_except e c : c_result (c_except e c) = Throw (Rethrow e);
  state_new : c_unset c_new = true;
  state_return v c : c_ready (c_return v c) = true;
  state_except e c : c_exception (c_except e c) = true;
  state_one c : (Z.b2z (c_ready c) + Z.b2z (c_exception c) + Z.b2z (c_unset c) = 1)%Z;
}.

#[export] Instance container_promise_laws {C X V} `{ContainerLaws C X V} : PromiseLaws C X V.
Proof. split; intros; [apply result_return|apply result_except]. Qed.

(** ** The general container *)
Module General.
Section general.
Context {X V : Type}.

(** The alternatives of [std::variant<unset_return_value, stored_type, exception_ptr>]. *)
Inductive storage :=
  | Unset
  | Stored (v : V)
  | Exception (e : X).

Definition container : storage := Unset.
Definition return_value (v : V) (c : storage) : storage := Stored v.
(** [result() &], [const &] and [&&] differ in the reference they return. *)
Definition result (c : storage) : outcome X V :=
  match c with
  | Stored v => Ret v
  | Exception e => Throw (Rethrow e)
  | Unset => Throw RuntimeError
  end.
Definition set_exception (e : X) (c : storage) : storage := Exception e.
Definition value_ready (c : storage) : bool := match c with Stored _ => true | _ => false end.
Definition value_exception (c : storage) : bool := match c with Exception _ => true | _ => false end.
Definition value_unset (c : storage) : bool := negb (value_ready c) && negb (value_exception c).
End general.
Arguments storage : clear implicits.

End General.

#[export] Instance general_promised {X V} : Promised (General.storage X V) X V := {|
  c_new := General.container; c_return := General.return_value;
  c_except := General.set_exception; c_result := General.result;
|}.
#[export] Instance general_container {X V} : Container (General.storage X V) X V := {|
  c_ready := General.value_ready; c_exception := General.value_exception;
  c_unset := General.value_unset;
|}.

(** ** The container of a reference type

    It stores the address of the referent; [result] reads through it in the
    memory of the time of the call. *)
Module Reference.
Section reference.
Context {X V : Type}.

Definition return_value (p : ptr) (c : General.storage X ptr) : General.storage X ptr :=
  General.return_value p c.
Definition result (mem : gmap ptr V) (c : General.storage X ptr) : option (outcome X V) :=
  match General.result c with
  | Ret p => v ← mem !! p; Some (Ret v)
  | Throw t => Some (Throw t)
  | Terminate => Some Terminate
  end.
End reference.
End Reference.

(** ** The container of plain data

    The value and the exception pointer share their storage; [bits] is what
    the storage holds, read as a pointer. *)
Module Pod.
Section pod.
Context {X V : Type}.
(** [T{}], and the pointer that the bytes of a value make. *)
Context (zero : V) (bits_of : V → ptr).

Inductive value_state := none | value | exception.
Inductive union :=
  | Raw (bits : ptr)                  (* never written *)
  | Val (v : V)
  | Exn (e : X).
Record pod := PodC { m_union : union; m_state : value_state }.

(** The constructor leaves the union uninitialised: [bits] is what the memory held. *)
Definition container (bits : ptr) : pod := PodC (Raw bits) none.
Definition return_value (v : V) (c : pod) : pod := PodC (Val v) value.

(** [result] is noexcept: rethrowing from it ends the program. *)
Definition result (c : pod) : outcome X V :=
  match m_state c with
  | value => match m_union c with Val v => Ret v | _ => Ret zero end
  | exception => Terminate
  | none => Ret zero
  end.

(** [set_exception] assigns to the exception pointer: the assignment releases
    what the storage held before, undefined when that is not a pointer to an
    exception. *)
Definition set_exception (e : X) (c : pod) : option pod :=
  let ok := PodC (Exn e) exception in
  match m_union c with
  | Raw bits => if decide (bits = nullptr) then Some ok else None
  | Val v => if decide (bits_of v = nullptr) then Some ok else None
  | Exn _ => Some ok
  end.

Definition value_ready (c : pod) : bool := match m_state c with value => true | _ => false end.
Definition value_exception (c : pod) : bool := match m_state c with exception => true | _ => false end.
Definition value_unset (c : pod) : bool := match m_state c with none => true | _ => false end.
End pod.
End Pod.

(** A promise of plain data whose coroutine throws nothing, in memory that held
    [bits]. *)
Definition pod_promised {V} (zero : V) (bits : ptr) : Promised (Pod.pod (X:=Empty_set) (V:=V)) Empty_set V := {|
  c_new := Pod.container bits; c_return := Pod.return_value;
  c_except := λ (e : Empty_set) _, match e with end;
  c_result := Pod.result zero;
|}.

(** ** Programs of a container *)
Section programs.
Context {C X V : Type} `{Container C X V}.

Inductive container_op :=
  | OpReturn (v : V)
  | OpExcept (e : X).
Definition apply_op (c : C) (o : container_op) : C :=
  match o with OpReturn v => c_return v c | OpExcept e => c_except e c end.
End programs.
Arguments container_op : clear implicits.

(** The general container as a pod program would use it: without exceptions. *)
Definition pod_run {X V} (zero : V) (bits_of : V → ptr) (ops : list V) (bits : ptr) : outcome X V :=
  Pod.result zero (foldl (λ c v, Pod.return_value v c) (Pod.container (X:=X) bits) ops).

#[export] Instance general_laws {X V} : ContainerLaws (General.storage X V) X V.
Proof. split; try done. intros []; done. Qed.

Lemma pod_promise_laws {V} (zero : V) bits :
  PromiseLaws (Pod.pod (X:=Empty_set) (V:=V)) Empty_set V (H := pod_promised zero bits).
Proof. split; [done|by intros []]. Qed.

Lemma general_result_last {X V} (ops : list (container_op X V)) o c :
  General.result (foldl apply_op c (ops ++ [o])) =
    match o with OpReturn v => Ret v | OpExcept e => Throw (Rethrow e) end.
Proof. rewrite foldl_app. by destruct o. Qed.

(** ** Properties *)

(** every container that keeps the interface's promises gives the last
    value returned into it, or the last exception, whatever came before. *)
Theorem container_last_wins {C X V} `{ContainerLaws C X V} (c : C) (ops : list (container_op X V)) o :
  c_result (foldl apply_op c (ops ++ [o])) =
    match o with OpReturn v => Ret v | OpExcept e => Throw (Rethrow e) end.
Proof.
  rewrite foldl_app. simpl. destruct o; simpl; [apply result_return|apply result_except].
Qed.

(** the general container: unset it throws the runtime error; it is in
    exactly one of its three states; [result] returns exactly when a value is
    ready and rethrows exactly when it holds an exception. *)
Theorem general_result_state {X V} (c : General.storage X V) :
  General.result General.container = Throw (X:=X) (V:=V) RuntimeError ∧
  (General.value_ready c = true ↔ ∃ v, General.result c = Ret v) ∧
  (General.value_exception c = true ↔ ∃ e, General.result c = Throw (Rethrow e)) ∧
  (General.value_unset c = true ↔ General.result c = Throw RuntimeError).
Proof.
  split; [done|]. destruct c; simpl; unfold General.value_unset; simpl; naive_solver.
Qed.

(** the container of a reference gives the value its referent has when
    [result] is called, not the one it had when it was returned. *)
Theorem reference_result {X V} (mem : gmap ptr V) p c v :
  Reference.result (X:=X) (<[p := v]> mem) (Reference.return_value p c) = Some (Ret v).
Proof. unfold Reference.result. simpl. by rewrite lookup_insert_eq. Qed.

(** as long as no exception is stored, the container of plain data agrees
    with the general one once a value was returned; before that it gives
    [T{}] where the general one throws. *)
Theorem pod_agrees {X V} zero bits_of (ops : list V) bits :
  pod_run (X:=X) zero bits_of ops bits =
    match ops with
    | [] => Ret zero
    | _ => General.result (foldl (λ c v, General.return_value v c) General.container ops)
    end.
Proof.
  unfold pod_run. destruct ops as [|v ops _] using rev_ind; [done|].
  rewrite !foldl_app. simpl. by destruct ops.
Qed.

(** (defect) an exception in plain data never reaches the caller: if the
    storage, uninitialised memory, happens to be null, [result] ends the
    program; if not, storing the exception is already undefined. *)
Theorem pod_exception_lost {X V} zero bits_of (e : X) bits :
  match Pod.set_exception (V:=V) bits_of e (Pod.container bits) with
  | Some c => bits = nullptr ∧ Pod.value_exception c = true ∧ Pod.result zero c = Terminate
  | None => bits ≠ nullptr
  end.
Proof. unfold Pod.set_exception. simpl. by case_decide. Qed.

(** ** Witnesses *)
Lemma container_last_wins_witness :
  c_result (foldl apply_op (c_new (C:=General.storage nat Z)) ([OpExcept 3%nat; OpReturn 4] ++ [OpReturn 5])) = Ret 5.
Proof. exact (container_last_wins (C:=General.storage nat Z) c_new [OpExcept 3%nat; OpReturn 4] (OpReturn 5)). Defined.
