(* ===== verification/Task.v ===== *)
(** * coro::task and its promise (include/coro/task.hpp)

    [Module Void] is the promise of a task without a value.
    [Module Chain] is the life of coroutine frames: creation, symmetric
    transfer between a task and the task that awaits it, [final_suspend],
    and the [exec_task]/[clean] pair of engine.cpp that resumes a handle.
    [Module Ownership] is the [task] object as owner of a frame. *)
From S2P Require Import Prelude Container.

(** ** promise<void> *)
Module Void.
Section void.
Context {X : Type}.

Record promise := Promise { m_exception_ptr : option X }.
Definition promise_new : promise := Promise None.
Definition return_void (c : promise) : promise := c.
Definition unhandled_exception (e : X) (c : promise) : promise := Promise (Some e).
Definition result (c : promise) : outcome X () :=
  match m_exception_ptr c with Some e => Throw (Rethrow e) | None => Ret () end.
End void.
Arguments promise : clear implicits.
End Void.

#[export] Instance void_promised {X} : Promised (Void.promise X) X () := {|
  c_new := Void.promise_new; c_return _ := Void.return_void; c_except := Void.unhandled_exception;
  c_result := Void.result;
|}.
#[export] Instance void_promise_laws {X} : PromiseLaws (Void.promise X) X ().
Proof. split; [by intros []|done]. Qed.

Module Chain.
Section chain.
(** Values, exceptions, side effects; the storage of the promise. *)
Context {X V A C : Type} `{Promised C X V}.

(** The body of a coroutine, from one suspension point to the next: what the
    compiler makes of a function with [co_await] and [co_return]. [CoSuspend]
    awaits something that is not a task (a mutex, an event, I/O): somebody else
    resumes the handle. *)
Inductive body :=
  | CoReturn (v : V)
  | CoThrow (e : X)
  | CoEffect (a : A) (k : body)
  | CoSuspend (k : body)
  | CoAwait (child : body) (k : outcome X V → body).

Inductive coro_state := normal | detach | none.

(** [promise_base] and its container. *)
Record promise := Promise {
  m_state : coro_state;
  m_continuation : option nat;
  m_value : C;
}.

(** Where a suspended coroutine is. *)
Inductive position :=
  | AtStart (b : body)                              (* initial_suspend *)
  | AtSuspend (b : body)
  | AtAwait (child : nat) (k : outcome X V → body)  (* co_await of a task *)
  | AtFinal.                                        (* final_suspend: done() *)

Record frame := Frame { f_pos : position; f_promise : promise }.

(** Who resumed the handle [h]: [exec_task (h)], or [task::resume] of its task. *)
Inductive caller := ByEngine (h : nat) | ByTask (h : nat).

(** The thread that runs coroutines for the caller [root]. *)
Inductive control :=
  | Idle
  | Run (h : nat) (root : caller) (b : body)
  | Returned (root : caller)          (* handle.resume() is over *)
  | Faulted (h : nat).                (* access to a frame that does not exist *)

Record state := State {
  heap : gmap nat frame;
  next : nat;                         (* handles are allocated in order *)
  ctl : control;
}.

Inductive label :=
  | Create (b : body)
  | Detach (h : nat)
  | ExecTask (h : nat)
  | TaskResume (h : nat)              (* task::resume *)
  | Tick.

Inductive event :=
  | Effect (a : A)
  | Suspended (h : nat)
  | Freed (h : nat)
  | Answer (h : nat) (more : bool).   (* what task::resume returned *)

Definition promise_new : promise := Promise normal None c_new.

(** A call of a coroutine function: the frame, [get_return_object],
    [initial_suspend] (always). *)
Definition create (b : body) (s : state) : nat * state :=
  (next s, State (<[next s := Frame (AtStart b) promise_new]> (heap s)) (S (next s)) (ctl s)).

(** [handle.resume()]. A coroutine that awaits a task runs [await_resume] (the
    task's [result]) and then, at the end of the full expression, the
    destructor of the temporary task. *)
Definition resume (h : nat) (root : caller) (s : state) : state * list event :=
  match heap s !! h with
  | Some (Frame (AtStart b) _) | Some (Frame (AtSuspend b) _) =>
      (State (heap s) (next s) (Run h root b), [])
  | Some (Frame (AtAwait child k) _) =>
      match heap s !! child with
      | Some f =>
          (State (delete child (heap s)) (next s) (Run h root (k (c_result (m_value (f_promise f))))),
           [Freed child])
      | None => (State (heap s) (next s) (Faulted child), [])
      end
  | Some (Frame AtFinal _) | None => (State (heap s) (next s) (Faulted h), [])
  end.

(** [final_awaitable::await_suspend]: the continuation, or nothing. *)
Definition final_await_suspend (p : promise) (root : caller) (s : state) : state * list event :=
  match m_continuation p with
  | Some c => resume c root s
  | None => (State (heap s) (next s) (Returned root), [])
  end.

(** [co_return] or an exception, then [final_suspend]. *)
Definition finish (h : nat) (root : caller) (put : C → C) (s : state) : state * list event :=
  match heap s !! h with
  | Some f =>
      let p := Promise (m_state (f_promise f)) (m_continuation (f_promise f)) (put (m_value (f_promise f))) in
      final_await_suspend p root (State (<[h := Frame AtFinal p]> (heap s)) (next s) (ctl s))
  | None => (State (heap s) (next s) (Faulted h), [])
  end.

(** [co_await] of the temporary task [child]: [await_ready] is false for a
    fresh coroutine; [await_suspend] sets the continuation and transfers. *)
Definition co_await (h : nat) (root : caller) (child : body) (k : outcome X V → body) (s : state)
    : state * list event :=
  match heap s !! h with
  | Some f =>
      let '(c, s) := create child s in
      let hp := <[h := Frame (AtAwait c k) (f_promise f)]> (heap s) in
      let hp := <[c := Frame (AtStart child) (Promise normal (Some h) c_new)]> hp in
      resume c root (State hp (next s) (ctl s))
  | None => (State (heap s) (next s) (Faulted h), [])
  end.

Definition suspend (h : nat) (root : caller) (k : body) (s : state) : state * list event :=
  match heap s !! h with
  | Some f => (State (<[h := Frame (AtSuspend k) (f_promise f)]> (heap s)) (next s) (Returned root),
               [Suspended h])
  | None => (State (heap s) (next s) (Faulted h), [])
  end.

(** One step of the body that runs. *)
Definition run (h : nat) (root : caller) (b : body) (s : state) : state * list event :=
  match b with
  | CoReturn v => finish h root (c_return v) s
  | CoThrow e => finish h root (c_except e) s
  | CoEffect a k => (State (heap s) (next s) (Run h root k), [Effect a])
  | CoSuspend k => suspend h root k s
  | CoAwait child k => co_await h root child k s
  end.

(** [done()] *)
Definition is_done (f : frame) : bool := match f_pos f with AtFinal => true | _ => false end.

(** [clean]: destroys the frame of a detached coroutine. *)
Definition clean (h : nat) (f : frame) (s : state) : state * list event :=
  match m_state (f_promise f) with
  | detach => (State (delete h (heap s)) (next s) Idle, [Freed h])
  | _ => (State (heap s) (next s) Idle, [])
  end.

(** [engine::exec_task] after [handle.resume()]. *)
Definition exec_task_check (h : nat) (s : state) : state * list event :=
  match heap s !! h with
  | Some f => if is_done f then clean h f s else (State (heap s) (next s) Idle, [])
  | None => (State (heap s) (next s) (Faulted h), [])
  end.

(** [task::resume], before and after [m_coroutine.resume()]. *)
Definition answer (h : nat) (s : state) : state * list event :=
  match heap s !! h with
  | Some f => (State (heap s) (next s) Idle, [Answer h (negb (is_done f))])
  | None => (State (heap s) (next s) (Faulted h), [])
  end.
Definition task_resume (h : nat) (s : state) : state * list event :=
  match heap s !! h with
  | Some f => if is_done f then answer h s else resume h (ByTask h) s
  | None => (State (heap s) (next s) (Faulted h), [])
  end.

(** [task::detach] *)
Definition set_detach (h : nat) (s : state) : option state :=
  f ← heap s !! h;
  let p := f_promise f in
  Some (State (<[h := Frame (f_pos f) (Promise detach (m_continuation p) (m_value p))]> (heap s))
          (next s) (ctl s)).

Definition step (l : label) (s : state) : option (state * list event) :=
  match l, ctl s with
  | Create b, Idle => let '(_, s) := create b s in Some (s, [])
  | Detach h, Idle => s ← set_detach h s; Some (s, [])
  | ExecTask h, Idle => Some (resume h (ByEngine h) s)
  | TaskResume h, Idle => Some (task_resume h s)
  | Tick, Run h root b => Some (run h root b s)
  | Tick, Returned (ByEngine h) => Some (exec_task_check h s)
  | Tick, Returned (ByTask h) => Some (answer h s)
  | _, _ => None
  end.

Definition init : state := State ∅ 0 Idle.
Definition chain_machine : machine state label event := Machine (λ s, s = init) step.

(** ** The meaning of a body

    What the body would do as an ordinary function: its effects in order, and
    how it ends. *)
Fixpoint eval (b : body) : list A * outcome X V :=
  match b with
  | CoReturn v => ([], Ret v)
  | CoThrow e => ([], Throw (Rethrow e))
  | CoEffect a k => let '(t, o) := eval k in (a :: t, o)
  | CoSuspend k => eval k
  | CoAwait child k =>
      let '(t1, o1) := eval child in
      let '(t2, o2) := eval (k o1) in
      (t1 ++ t2, o2)
  end.

(** Bodies that never suspend, and bodies whose nested tasks never do. *)
Fixpoint calm (b : body) : Prop :=
  match b with
  | CoReturn _ | CoThrow _ => True
  | CoEffect _ k => calm k
  | CoSuspend _ => False
  | CoAwait child k => calm child ∧ ∀ o, calm (k o)
  end.
Fixpoint nested_calm (b : body) : Prop :=
  match b with
  | CoReturn _ | CoThrow _ => True
  | CoEffect _ k | CoSuspend k => nested_calm k
  | CoAwait child k => calm child ∧ ∀ o, nested_calm (k o)
  end.

Definition effects (es : list event) : list A :=
  omap (λ e, match e with Effect a => Some a | _ => None end) es.

Lemma effects_app e1 e2 : effects (e1 ++ e2) = effects e1 ++ effects e2.
Proof. apply omap_app. Qed.

(** What the body's outcome does to the container. *)
Definition store (o : outcome X V) (c : C) : C :=
  match o with
  | Ret v => c_return v c
  | Throw (Rethrow e) => c_except e c
  | _ => c
  end.
Definition stored (o : outcome X V) (p : promise) : promise :=
  Promise (m_state p) (m_continuation p) (store o (m_value p)).

(** The state right after [h] has reached its final suspension. *)
Definition finished (h : nat) (root : caller) (o : outcome X V) (p : promise) (hp : gmap nat frame) (nx : nat)
    : state * list event :=
  final_await_suspend (stored o p) root
    (State (<[h := Frame AtFinal (stored o p)]> hp) nx Idle).

Definition fresh_from (nx : nat) (hp : gmap nat frame) : Prop := ∀ h, nx ≤ h → hp !! h = None.

Context `{!PromiseLaws C X V}.

Lemma eval_stored b : c_result (store (eval b).2 c_new) = (eval b).2.
Proof.
  induction b as [v|e|a k IH|k IH|child IHc k IHk]; simpl.
  - apply result_return_new.
  - apply result_except_new.
  - by destruct (eval k).
  - apply IH.
  - destruct (eval child) as [t1 o1]. specialize (IHk o1). by destruct (eval (k o1)).
Qed.

Lemma exec_tick ls s s1 e1 s2 e2 : step Tick s = Some (s1, e1) →
  exec chain_machine ls s1 = Some (s2, e2) →
  exec chain_machine (Tick :: ls) s = Some (s2, e1 ++ e2).
Proof. intros Hs He. cbn [exec m_step chain_machine]. by rewrite Hs, He. Qed.

Lemma final_ctl p root hp nx c1 c2 :
  final_await_suspend p root (State hp nx c1) = final_await_suspend p root (State hp nx c2).
Proof.
  unfold final_await_suspend, resume. simpl. by destruct (m_continuation p).
Qed.

Lemma exec_quiet ls s s1 r : step Tick s = Some (s1, []) →
  exec chain_machine ls s1 = Some r → exec chain_machine (Tick :: ls) s = Some r.
Proof. intros Hs He. cbn [exec m_step chain_machine]. rewrite Hs, He. by destruct r. Qed.

Lemma finish_return v h root hp nx c f : hp !! h = Some f →
  finish h root (c_return v) (State hp nx c) = finished h root (Ret v) (f_promise f) hp nx.
Proof. intros Hh. unfold finish, finished. simpl. rewrite Hh. apply final_ctl. Qed.
Lemma finish_except e h root hp nx c f : hp !! h = Some f →
  finish h root (c_except e) (State hp nx c) = finished h root (Throw (Rethrow e)) (f_promise f) hp nx.
Proof. intros Hh. unfold finish, finished. simpl. rewrite Hh. apply final_ctl. Qed.

Lemma exec_one s s1 e1 : step Tick s = Some (s1, e1) →
  exec chain_machine [Tick] s = Some (s1, e1).
Proof. intros Hs. rewrite (exec_tick [] s s1 e1 s1 [] Hs eq_refl). by rewrite app_nil_r. Qed.

(** [b] runs to the end in any coroutine [h], without going back to the
    engine: the frames it makes on the way are freed. *)
Definition runs (b : body) : Prop :=
  ∀ h root hp nx f, hp !! h = Some f → h < nx → fresh_from nx hp →
  ∃ n nx' es, exec chain_machine (replicate n Tick) (State hp nx (Run h root b)) =
    Some ((finished h root (eval b).2 (f_promise f) hp nx').1,
          es ++ (finished h root (eval b).2 (f_promise f) hp nx').2) ∧
    nx ≤ nx' ∧ effects es = (eval b).1.

Lemma finished_insert h root o p fr hp nx :
  finished h root o p (<[h := fr]> hp) nx = finished h root o p hp nx.
Proof. unfold finished. by rewrite insert_insert_eq. Qed.

(** Awaiting a task that runs to its end. *)
Lemma runs_await child k : runs child →
  ∀ h root hp nx f, hp !! h = Some f → h < nx → fresh_from nx hp →
  ∃ n nx' es, exec chain_machine (replicate n Tick) (State hp nx (Run h root (CoAwait child k))) =
    Some (State (<[h := Frame (AtAwait nx k) (f_promise f)]> hp) nx' (Run h root (k (eval child).2)), es) ∧
    nx ≤ nx' ∧ effects es = (eval child).1.
Proof.
  intros IHc h root hp nx f Hh Hlt Hfr.
  set (p1 := Promise normal (Some h) c_new).
  set (hp1 := <[nx := Frame (AtStart child) p1]> (<[h := Frame (AtAwait nx k) (f_promise f)]>
               (<[nx := Frame (AtStart child) promise_new]> hp))).
  assert (Hnh : nx ≠ h) by lia.
  destruct (IHc nx root hp1 (S nx) (Frame (AtStart child) p1)) as (n1 & nx1 & es1 & He1 & Hn1 & Hes1).
  { apply lookup_insert_eq. } { lia. }
  { intros h' Hh'. unfold hp1. rewrite !lookup_insert_ne by lia. apply Hfr. lia. }
  set (o1 := (eval child).2) in *.
  set (hp2 := <[h := Frame (AtAwait nx k) (f_promise f)]> hp).
  assert (Hfin : finished nx root o1 p1 hp1 nx1 = (State hp2 nx1 (Run h root (k o1)), [Freed nx])).
  { unfold finished, final_await_suspend, resume, p1, hp1. simpl.
    rewrite lookup_insert_ne, lookup_insert_ne, lookup_insert_eq by done.
    rewrite lookup_insert_eq. simpl. unfold o1. rewrite eval_stored. f_equal. f_equal.
    rewrite insert_insert_eq, delete_insert_eq.
    apply map_eq. intros i. unfold hp2. destruct (decide (i = nx)) as [->|].
    - rewrite lookup_delete_eq, lookup_insert_ne by done. symmetry. apply Hfr. lia.
    - rewrite lookup_delete_ne by done. destruct (decide (i = h)) as [->|].
      + by rewrite !lookup_insert_eq.
      + by rewrite !lookup_insert_ne. }
  exists (S n1), nx1, (es1 ++ [Freed nx]). split_and!; [|lia|].
  - cbn [replicate]. apply (exec_quiet _ _ (State hp1 (S nx) (Run nx root child))).
    { simpl. unfold co_await. simpl. rewrite Hh. unfold resume. simpl. by rewrite lookup_insert_eq. }
    simpl in He1. fold o1 in He1. by rewrite Hfin in He1.
  - by rewrite effects_app, Hes1, app_nil_r.
Qed.

Lemma eval_await child k t1 o1 t2 o2 : eval child = (t1, o1) → eval (k o1) = (t2, o2) →
  eval (CoAwait child k) = (t1 ++ t2, o2).
Proof. intros H1 H2. simpl. by rewrite H1, H2. Qed.

Lemma runs_calm b : calm b → runs b.
Proof.
  induction b as [v|e|a k IH|k IH|child IHc k IHk]; intros Hc h root hp nx f Hh Hlt Hfr.
  - exists 1, nx, []. split_and!; [|lia|done]. apply exec_one. cbn [step ctl run].
    rewrite (finish_return _ _ _ _ _ _ f) by done. by destruct (finished _ _ _ _ _ _).
  - exists 1, nx, []. split_and!; [|lia|done]. apply exec_one. cbn [step ctl run].
    rewrite (finish_except _ _ _ _ _ _ f) by done. by destruct (finished _ _ _ _ _ _).
  - destruct (IH Hc h root hp nx f Hh Hlt Hfr) as (n & nx' & es & He & Hn & Hes).
    exists (S n), nx', (Effect a :: es). cbn [eval]. destruct (eval k) as [t o]. split_and!; [|done|].
    + exact (exec_tick _ (State hp nx (Run h root (CoEffect a k))) _ [Effect a] _ _ eq_refl He).
    + simpl in *. by rewrite Hes.
  - done.
  - destruct Hc as [Hc1 Hc2].
    destruct (runs_await child k (IHc Hc1) h root hp nx f Hh Hlt Hfr) as (n1 & nx1 & es1 & He1 & Hn1 & Hes1).
    set (o1 := (eval child).2) in *. set (fr := Frame (AtAwait nx k) (f_promise f)) in *.
    destruct (IHk o1 (Hc2 o1) h root (<[h := fr]> hp) nx1 fr) as (n2 & nx2 & es2 & He2 & Hn2 & Hes2).
    { apply lookup_insert_eq. } { lia. }
    { intros h' Hh'. rewrite lookup_insert_ne by lia. apply Hfr. lia. }
    rewrite !finished_insert in He2. subst o1.
    destruct (eval child) as [t1 o1] eqn:Hev1. cbn [snd fst] in *.
    destruct (eval (k o1)) as [t2 o2] eqn:Hev2. rewrite (eval_await _ _ _ _ _ _ Hev1 Hev2).
    exists (n1 + n2), nx2, (es1 ++ es2). split_and!; [|lia|by rewrite effects_app, Hes1, Hes2].
    rewrite replicate_add, (exec_app _ _ _ _ _ _ He1), He2. by rewrite app_assoc.
Qed.

(** The task that nobody awaits, resumed whenever it has suspended itself: by
    its engine or by calls of [task::resume]. *)
Definition drives (root : caller) : label :=
  match root with ByEngine h => ExecTask h | ByTask h => TaskResume h end.
Definition scheduled (root : caller) (ls : list label) : Prop := Forall (λ l, l = Tick ∨ l = drives root) ls.

Lemma ticks_scheduled root n : scheduled root (replicate n Tick).
Proof. apply Forall_replicate. by left. Qed.

(** A coroutine that suspended itself goes on. *)
Lemma driven h root hp nx k f : root = ByEngine h ∨ root = ByTask h → hp !! h = Some (Frame (AtSuspend k) f) →
  ∃ es, exec chain_machine [Tick; drives root] (State hp nx (Returned root)) = Some (State hp nx (Run h root k), es) ∧
    effects es = [].
Proof.
  intros [-> | ->] Hh; cbn [exec m_step chain_machine step ctl drives].
  - exists []. unfold exec_task_check, resume. simpl. rewrite Hh. simpl. by rewrite Hh.
  - exists [Answer h true]. unfold answer, task_resume, resume. simpl. rewrite Hh. simpl. by rewrite Hh.
Qed.

(** What a driven coroutine with the body [b] ends with. *)
Definition driven_to (h : nat) (root : caller) (b : body) (f : frame) (hp : gmap nat frame) (nx : nat) : Prop :=
  ∃ ls nx' es, exec chain_machine ls (State hp nx (Run h root b)) =
    Some ((finished h root (eval b).2 (f_promise f) hp nx').1,
          es ++ (finished h root (eval b).2 (f_promise f) hp nx').2) ∧
    scheduled root ls ∧ nx ≤ nx' ∧ effects es = (eval b).1.

Lemma driven_calm h root b hp nx f : calm b → hp !! h = Some f → h < nx → fresh_from nx hp →
  driven_to h root b f hp nx.
Proof.
  intros Hb Hh Hlt Hfr. destruct (runs_calm b Hb h root hp nx f Hh Hlt Hfr) as (n & nx' & es & He & Hn & Hes).
  exists (replicate n Tick), nx', es. eauto using ticks_scheduled.
Qed.

Lemma runs_driven h root b : root = ByEngine h ∨ root = ByTask h → nested_calm b →
  ∀ hp nx f, hp !! h = Some f → h < nx → fresh_from nx hp → driven_to h root b f hp nx.
Proof.
  intros Hroot.
  induction b as [v|e|a k IH|k IH|child IHc k IHk]; intros Hc hp nx f Hh Hlt Hfr;
    [by apply driven_calm..| | |]; unfold driven_to in *.
  - destruct (IH Hc hp nx f Hh Hlt Hfr) as (ls & nx' & es & He & Hls & Hn & Hes).
    exists (Tick :: ls), nx', (Effect a :: es). cbn [eval]. destruct (eval k) as [t o]. split_and!; [| |done|].
    + exact (exec_tick _ (State hp nx (Run h root (CoEffect a k))) _ [Effect a] _ _ eq_refl He).
    + constructor; [by left|done].
    + simpl in *. by rewrite Hes.
  - set (fr := Frame (AtSuspend k) (f_promise f)).
    destruct (IH Hc (<[h := fr]> hp) nx fr) as (ls & nx' & es & He & Hls & Hn & Hes); [|done| |].
    { apply lookup_insert_eq. }
    { intros h' Hh'. rewrite lookup_insert_ne by lia. by apply Hfr. }
    rewrite !finished_insert in He.
    destruct (driven h root (<[h := fr]> hp) nx k (f_promise f) Hroot (lookup_insert_eq _ _ _)) as (ed & Hed & Hee).
    exists ([Tick] ++ [Tick; drives root] ++ ls), nx', (Suspended h :: ed ++ es).
    assert (H1 : step Tick (State hp nx (Run h root (CoSuspend k))) =
      Some (State (<[h := fr]> hp) nx (Returned root), [Suspended h])).
    { simpl. unfold suspend. simpl. by rewrite Hh. }
    split_and!; [| |done|].
    + refine (exec_tick _ _ _ [Suspended h] _ ((ed ++ es) ++ _) H1 _). by rewrite (exec_app _ _ _ _ _ _ Hed), He, app_assoc.
    + by repeat (constructor; [by auto|]).
    + change (Suspended h :: ed ++ es) with ([Suspended h] ++ ed ++ es). by rewrite !effects_app, Hee.
  - destruct Hc as [Hc1 Hc2].
    destruct (runs_await child k (runs_calm _ Hc1) h root hp nx f Hh Hlt Hfr) as (n1 & nx1 & es1 & He1 & Hn1 & Hes1).
    set (o1 := (eval child).2) in *. set (fr := Frame (AtAwait nx k) (f_promise f)) in *.
    destruct (IHk o1 (Hc2 o1) (<[h := fr]> hp) nx1 fr) as (ls & nx2 & es2 & He2 & Hls & Hn2 & Hes2).
    { apply lookup_insert_eq. } { lia. }
    { intros h' Hh'. rewrite lookup_insert_ne by lia. apply Hfr. lia. }
    rewrite !finished_insert in He2. subst o1.
    destruct (eval child) as [t1 o1] eqn:Hev1. cbn [snd fst] in *.
    destruct (eval (k o1)) as [t2 o2] eqn:Hev2. rewrite (eval_await _ _ _ _ _ _ Hev1 Hev2).
    exists (replicate n1 Tick ++ ls), nx2, (es1 ++ es2). split_and!; [| |lia|].
    + rewrite (exec_app _ _ _ _ _ _ He1), He2. by rewrite app_assoc.
    + apply Forall_app. split; [apply ticks_scheduled|done].
    + by rewrite effects_app, Hes1, Hes2.
Qed.

(** A task that nobody awaits. *)
Lemma runs_root h root b hp nx f : root = ByEngine h ∨ root = ByTask h → nested_calm b →
  hp !! h = Some f → h < nx → fresh_from nx hp → m_continuation (f_promise f) = None →
  ∃ ls nx' es, exec chain_machine ls (State hp nx (Run h root b)) =
    Some (State (<[h := Frame AtFinal (stored (eval b).2 (f_promise f))]> hp) nx' (Returned root), es) ∧
    scheduled root ls ∧ effects es = (eval b).1.
Proof.
  intros Hroot Hb Hh Hlt Hfr Hcont. destruct (runs_driven h root b Hroot Hb hp nx f Hh Hlt Hfr) as (ls & nx' & es & He & Hls & _ & Hes).
  unfold finished, final_await_suspend in He. simpl in He. rewrite Hcont in He. simpl in He.
  rewrite app_nil_r in He. by exists ls, nx', es.
Qed.

(** ** Until the next suspension *)

(** Does a body whose nested tasks are calm suspend itself? *)
Fixpoint suspends (b : body) : bool :=
  match b with
  | CoReturn _ | CoThrow _ => false
  | CoEffect _ k => suspends k
  | CoSuspend _ => true
  | CoAwait child k => suspends (k (eval child).2)
  end.

(** A body runs until it suspends itself, or to its end. *)
Definition segment_ok (b : body) (h : nat) (root : caller) (f : frame) (hp : gmap nat frame) (nx : nat) : Prop :=
  ∃ n nx' es, nx ≤ nx' ∧
    if suspends b then
      ∃ k, nested_calm k ∧ Suspended h ∈ es ∧ exec chain_machine (replicate n Tick) (State hp nx (Run h root b)) =
        Some (State (<[h := Frame (AtSuspend k) (f_promise f)]> hp) nx' (Returned root), es)
    else exec chain_machine (replicate n Tick) (State hp nx (Run h root b)) =
      Some ((finished h root (eval b).2 (f_promise f) hp nx').1,
            es ++ (finished h root (eval b).2 (f_promise f) hp nx').2).

Lemma segment_calm b h root hp nx f : calm b → suspends b = false → hp !! h = Some f → h < nx → fresh_from nx hp →
  segment_ok b h root f hp nx.
Proof.
  intros Hc Hs Hh Hlt Hfr. destruct (runs_calm b Hc h root hp nx f Hh Hlt Hfr) as (n & nx' & es & He & Hn & _).
  exists n, nx', es. by rewrite Hs.
Qed.

Lemma segment b : nested_calm b → ∀ h root hp nx f, hp !! h = Some f → h < nx → fresh_from nx hp →
  segment_ok b h root f hp nx.
Proof.
  induction b as [v|e|a k IH|k IH|child IHc k IHk]; intros Hc h root hp nx f Hh Hlt Hfr;
    [by apply segment_calm..| | |]; unfold segment_ok in *; cbn [suspends].
  - destruct (IH Hc h root hp nx f Hh Hlt Hfr) as (n & nx' & es & Hn & He).
    exists (S n), nx', (Effect a :: es). split; [done|]. cbn [eval].
    assert (Ht : ∀ s2 e2, exec chain_machine (replicate n Tick) (State hp nx (Run h root k)) = Some (s2, e2) →
      exec chain_machine (replicate (S n) Tick) (State hp nx (Run h root (CoEffect a k))) = Some (s2, Effect a :: e2)).
    { intros s2 e2 H2. exact (exec_tick _ (State hp nx (Run h root (CoEffect a k))) _ [Effect a] _ _ eq_refl H2). }
    destruct (eval k) as [t o]. destruct (suspends k); [|by apply Ht].
    destruct He as (k' & Hk' & Hin & He). exists k'. split; [done|]. split; [by right|by apply Ht].
  - exists 1, nx, [Suspended h]. split; [done|]. exists k. split; [done|]. split; [left|]. apply exec_one.
    simpl. unfold suspend. simpl. by rewrite Hh.
  - destruct Hc as [Hc1 Hc2].
    destruct (runs_await child k (runs_calm _ Hc1) h root hp nx f Hh Hlt Hfr) as (n1 & nx1 & es1 & He1 & Hn1 & _).
    set (o1 := (eval child).2) in *. set (fr := Frame (AtAwait nx k) (f_promise f)) in *.
    destruct (IHk o1 (Hc2 o1) h root (<[h := fr]> hp) nx1 fr) as (n2 & nx2 & es2 & Hn2 & He2).
    { apply lookup_insert_eq. } { lia. }
    { intros h' Hh'. rewrite lookup_insert_ne by lia. apply Hfr. lia. }
    exists (n1 + n2), nx2, (es1 ++ es2). split; [lia|]. rewrite replicate_add, (exec_app _ _ _ _ _ _ He1).
    destruct (suspends (k o1)).
    + destruct He2 as (k' & Hk' & Hin & He2). exists k'. rewrite insert_insert_eq in He2. rewrite He2.
      split; [done|]. split; [by apply elem_of_app; right|done].
    + rewrite !finished_insert in He2. subst o1. destruct (eval child) as [t1 o1] eqn:Hev1. cbn [snd fst] in *.
      destruct (eval (k o1)) as [t2 o2] eqn:Hev2. rewrite (eval_await _ _ _ _ _ _ Hev1 Hev2), He2. by rewrite app_assoc.
Qed.

(** Either way control goes back to whoever resumed a task that nobody awaits. *)
Lemma goes_back b h root hp nx f : nested_calm b → hp !! h = Some f → h < nx → fresh_from nx hp →
  m_continuation (f_promise f) = None →
  ∃ n nx' fr es, exec chain_machine (replicate n Tick) (State hp nx (Run h root b)) =
    Some (State (<[h := fr]> hp) nx' (Returned root), es).
Proof.
  intros Hb Hh Hlt Hfr Hcont. destruct (segment b Hb h root hp nx f Hh Hlt Hfr) as (n & nx' & es & _ & He).
  exists n, nx'. destruct (suspends b).
  - destruct He as (k & _ & _ & He). eauto.
  - unfold finished, final_await_suspend in He. simpl in He. rewrite Hcont in He. simpl in He. eauto.
Qed.

(** ** Handles are allocated in order *)
Definition bounded (s : state) : Prop := fresh_from (next s) (heap s).

Lemma fresh_insert nx hp h f : fresh_from nx hp → h < nx → fresh_from nx (<[h := f]> hp).
Proof. intros Hf Hh i Hi. rewrite lookup_insert_ne by lia. by apply Hf. Qed.
Lemma fresh_delete nx hp h : fresh_from nx hp → fresh_from nx (delete h hp).
Proof. intros Hf i Hi. apply lookup_delete_None. right. by apply Hf. Qed.
Lemma fresh_lt nx hp h f : fresh_from nx hp → hp !! h = Some f → h < nx.
Proof. intros Hf Hh. destruct (decide (h < nx)); [done|]. rewrite Hf in Hh by lia. done. Qed.

Lemma bounded_resume h root s : bounded s → bounded (resume h root s).1.
Proof.
  intros Hs. unfold resume. destruct (heap s !! h) as [[[b|b|c k|] p]|]; try done.
  destruct (heap s !! c); [|done]. by apply fresh_delete.
Qed.

Lemma bounded_finish h root put s : bounded s → bounded (finish h root put s).1.
Proof.
  intros Hs. unfold finish, final_await_suspend. destruct (heap s !! h) as [f|] eqn:Hh; [|done]. simpl.
  destruct (m_continuation _); [apply bounded_resume|]; by apply fresh_insert; [|eapply fresh_lt].
Qed.

Lemma bounded_run h root b s : bounded s → bounded (run h root b s).1.
Proof.
  intros Hs. destruct b as [v|e|a k|k|child k]; simpl; [by apply bounded_finish..|done| |].
  - unfold suspend. destruct (heap s !! h) as [f|] eqn:Hh; [|done]. by apply fresh_insert; [|eapply fresh_lt].
  - unfold co_await. destruct (heap s !! h) as [f|] eqn:Hh; [|done]. apply bounded_resume. unfold bounded. simpl.
    pose proof (fresh_lt _ _ _ _ Hs Hh). intros i Hi. rewrite !lookup_insert_ne by lia. apply Hs. lia.
Qed.

Lemma bounded_step l s s' es : bounded s → step l s = Some (s', es) → bounded s'.
Proof.
  intros Hs Hst. assert (He : ∀ h, bounded (exec_task_check h s).1 ∧ bounded (answer h s).1 ∧ bounded (task_resume h s).1).
  { intros h. unfold exec_task_check, task_resume, answer, clean. destruct (heap s !! h) as [f|] eqn:Hh; [|done].
    destruct (is_done f); (split_and!; [|done|]); try done; [|by apply bounded_resume].
    destruct (m_state (f_promise f)); [done|by apply fresh_delete|done]. }
  unfold step in Hst. destruct l as [b|h|h|h|], (ctl s) as [|h' root b'|root|h'] eqn:Hc; try done.
  - injection Hst as <- <-. intros i Hi. simpl in *. rewrite lookup_insert_ne by lia. apply Hs. lia.
  - unfold set_detach in Hst. destruct (heap s !! h) as [f|] eqn:Hh; [|done]. injection Hst as <- <-.
    by apply fresh_insert; [|eapply fresh_lt].
  - pose proof (bounded_resume h (ByEngine h) s Hs). by destruct (resume _ _ _); injection Hst as <- <-.
  - destruct (He h) as (_ & _ & Hr). by destruct (task_resume _ _); injection Hst as <- <-.
  - pose proof (bounded_run h' root b' s Hs). by destruct (run _ _ _ _); injection Hst as <- <-.
  - destruct root as [h|h]; destruct (He h) as (H1 & H2 & _).
    + by destruct (exec_task_check _ _); injection Hst as <- <-.
    + by destruct (answer _ _); injection Hst as <- <-.
Qed.

Lemma bounded_reach s tr : reach chain_machine s tr → bounded s.
Proof. revert s tr. apply reach_inv; [by intros s ->|]. intros s l s' es. apply bounded_step. Qed.

(** ** A nested task that suspends *)

(** It runs until it suspends itself; the engine (or [task::resume]) is done
    with the task that awaits it, and resumes the nested one. *)
Lemma nested_parks child k h root hp nx f : root = ByEngine h ∨ root = ByTask h → nested_calm child → suspends child = true →
  hp !! h = Some f → fresh_from nx hp →
  ∃ ls k' nx' es, exec chain_machine ls (State hp nx (Run h root (CoAwait child k))) =
    Some (State (<[nx := Frame (AtSuspend k') (Promise normal (Some h) c_new)]>
            (<[h := Frame (AtAwait nx k) (f_promise f)]> hp)) nx' (Run nx (ByEngine nx) k'), es) ∧
    S nx ≤ nx' ∧ nested_calm k' ∧ Suspended nx ∈ es ∧ Forall (λ l, l = Tick ∨ l = ExecTask nx) ls.
Proof.
  intros Hroot Hc Hs Hh Hfr. pose proof (fresh_lt _ _ _ _ Hfr Hh) as Hlt.
  set (p1 := Promise normal (Some h) c_new).
  set (hp1 := <[nx := Frame (AtStart child) p1]> (<[h := Frame (AtAwait nx k) (f_promise f)]>
               (<[nx := Frame (AtStart child) promise_new]> hp))).
  destruct (segment child Hc nx root hp1 (S nx) (Frame (AtStart child) p1)) as (n & nx' & es & Hn & He); [|lia| |].
  { apply lookup_insert_eq. }
  { intros i Hi. unfold hp1. rewrite !lookup_insert_ne by lia. apply Hfr. lia. }
  rewrite Hs in He. destruct He as (k' & Hk' & Hin & He).
  assert (Hhp : <[nx := Frame (AtSuspend k') p1]> hp1 =
    <[nx := Frame (AtSuspend k') p1]> (<[h := Frame (AtAwait nx k) (f_promise f)]> hp)).
  { unfold hp1. rewrite insert_insert_eq, (insert_insert_ne _ h nx), insert_insert_eq by lia. done. }
  cbn [f_promise] in He. rewrite Hhp in He.
  set (hp2 := <[nx := _]> (<[h := _]> hp)) in *.
  assert (Hstart : step Tick (State hp nx (Run h root (CoAwait child k))) = Some (State hp1 (S nx) (Run nx root child), [])).
  { simpl. unfold co_await. simpl. rewrite Hh. unfold resume. simpl. by rewrite lookup_insert_eq. }
  assert (Hback : ∃ ed, exec chain_machine [Tick; ExecTask nx] (State hp2 nx' (Returned root)) =
    Some (State hp2 nx' (Run nx (ByEngine nx) k'), ed)).
  { assert (Hh2 : hp2 !! h = Some (Frame (AtAwait nx k) (f_promise f))).
    { unfold hp2. by rewrite lookup_insert_ne, lookup_insert_eq by lia. }
    destruct Hroot as [-> | ->]; cbn [exec m_step chain_machine step ctl];
      [unfold exec_task_check|unfold answer]; cbn [heap next]; rewrite Hh2; cbn; unfold resume; cbn [heap next];
      unfold hp2; rewrite lookup_insert_eq; by eexists. }
  destruct Hback as (ed & Hback).
  exists (Tick :: replicate n Tick ++ [Tick; ExecTask nx]), k', nx', (es ++ ed). split_and!; [|done|done| |].
  - apply (exec_quiet _ _ _ _ Hstart). by rewrite (exec_app _ _ _ _ _ _ He), Hback.
  - apply elem_of_app. by left.
  - constructor; [by left|]. apply Forall_app. split; [apply Forall_replicate; by left|]. by repeat constructor; auto.
Qed.

(** It ends: its awaiting task destroys it and goes on, under the call of
    [exec_task] that resumed the nested one; then [exec_task] looks at it. *)
Lemma nested_faults k' k h hp nx nx0 f : nested_calm k' → (∀ o, nested_calm (k o)) → m_continuation (f_promise f) = None →
  hp !! h = Some f → nx0 < nx → h < nx0 → fresh_from nx0 hp →
  ∃ ls s es, exec chain_machine ls (State (<[nx0 := Frame (AtSuspend k') (Promise normal (Some h) c_new)]>
            (<[h := Frame (AtAwait nx0 k) (f_promise f)]> hp)) nx (Run nx0 (ByEngine nx0) k')) = Some (s, es) ∧
    Freed nx0 ∈ es ∧ heap s !! nx0 = None ∧ ctl s = Faulted nx0 ∧ Forall (λ l, l = Tick ∨ l = ExecTask nx0) ls.
Proof.
  intros Hk' Hk Hcont Hh Hlt Hlt0 Hfr. set (fr := Frame (AtAwait nx0 k) (f_promise f)).
  set (p1 := Promise normal (Some h) c_new). set (hp2 := <[nx0 := Frame (AtSuspend k') p1]> (<[h := fr]> hp)).
  destruct (runs_driven nx0 (ByEngine nx0) k' (or_introl eq_refl) Hk' hp2 nx (Frame (AtSuspend k') p1))
    as (ls & nx' & es & He & Hls & Hn & _); [apply lookup_insert_eq|done| |].
  { intros i Hi. unfold hp2. rewrite !lookup_insert_ne by lia. apply Hfr. lia. }
  set (o := (eval k').2) in *. set (hp3 := <[h := fr]> hp).
  assert (Hfin : finished nx0 (ByEngine nx0) o p1 hp2 nx' = (State hp3 nx' (Run h (ByEngine nx0) (k o)), [Freed nx0])).
  { unfold finished, final_await_suspend, resume, p1, hp2. simpl.
    rewrite lookup_insert_ne, lookup_insert_ne, lookup_insert_eq by lia. unfold fr. cbn.
    rewrite lookup_insert_eq. simpl. unfold o. rewrite eval_stored. f_equal. f_equal.
    rewrite insert_insert_eq, delete_insert_id; [done|]. rewrite lookup_insert_ne by lia. apply Hfr. lia. }
  cbn [f_promise] in He. rewrite Hfin in He. cbn [fst snd] in He.
  destruct (goes_back (k o) h (ByEngine nx0) hp3 nx' fr (Hk o)) as (n & nx2 & fr2 & es2 & He2); [apply lookup_insert_eq|lia| |done|].
  { intros i Hi. unfold hp3. rewrite lookup_insert_ne by lia. apply Hfr. lia. }
  assert (Hend : step Tick (State (<[h := fr2]> hp3) nx2 (Returned (ByEngine nx0))) =
    Some (State (<[h := fr2]> hp3) nx2 (Faulted nx0), [])).
  { cbn [step ctl]. unfold exec_task_check. cbn [heap next]. unfold hp3. rewrite !lookup_insert_ne by lia.
    by rewrite Hfr by lia. }
  exists (ls ++ replicate n Tick ++ [Tick]). eexists _, _. split.
  { rewrite (exec_app _ _ _ _ _ _ He), (exec_app _ _ _ _ _ _ He2). by rewrite (exec_one _ _ _ Hend). }
  split_and!; [| |done|].
  - apply elem_of_app. left. apply elem_of_app. right. left.
  - simpl. unfold hp3. rewrite !lookup_insert_ne by lia. by apply Hfr.
  - apply Forall_app. split; [exact Hls|]. apply Forall_app. split; [apply Forall_replicate; by left|]. by repeat constructor; auto.
Qed.
End chain.
End Chain.

Module Ownership.
(** The [task] objects of a program, known by numbers, each with its
    [m_coroutine]. *)
Record world := World {
  frames : gset nat;                  (* the frames alive *)
  tasks : gmap nat (option nat);
  loose : gset nat;                   (* frames given away: detach, handle() && *)
  next : nat;
}.

Inductive op :=
  | Call (x : nat)                    (* task x = f(...): get_return_object *)
  | Default (x : nat)                 (* task x; *)
  | MoveNew (y x : nat)               (* task y(std::move(x)) *)
  | MoveAssign (x y : nat)            (* x = std::move(y) *)
  | Destructor (x : nat)
  | Destroy (x : nat)                 (* x.destroy() *)
  | Detach (x : nat)                  (* x.detach() *)
  | Handle (x : nat).                 (* std::move(x).handle() *)

(** [coroutine_handle::destroy]: undefined for a frame that does not exist. *)
Definition destroy_frame (h : nat) (w : world) : option world :=
  if decide (h ∈ frames w) then Some (World (frames w ∖ {[h]}) (tasks w) (loose w) (next w)) else None.
Definition destroy_opt (c : option nat) (w : world) : option world :=
  match c with Some h => destroy_frame h w | None => Some w end.
Definition set_task (x : nat) (c : option nat) (w : world) : world :=
  World (frames w) (<[x := c]> (tasks w)) (loose w) (next w).
Definition let_go (h : nat) (w : world) : world :=
  World (frames w) (tasks w) ({[h]} ∪ loose w) (next w).

(** [None] is undefined behaviour or a program that does not compile or
    asserts; the boolean is what [destroy()] returns. *)
Definition apply (o : op) (w : world) : option (world * list bool) :=
  match o with
  | Call x =>
      if decide (tasks w !! x = None) then
        Some (World ({[next w]} ∪ frames w) (<[x := Some (next w)]> (tasks w)) (loose w) (S (next w)), [])
      else None
  | Default x => if decide (tasks w !! x = None) then Some (set_task x None w, []) else None
  | MoveNew y x =>
      c ← tasks w !! x;
      if decide (tasks w !! y = None) then Some (set_task y c (set_task x None w), []) else None
  | MoveAssign x y =>
      c ← tasks w !! x; d ← tasks w !! y;
      if decide (y = x) then Some (w, []) else
      w ← destroy_opt c w;
      Some (set_task x d (set_task y None w), [])
  | Destructor x =>
      c ← tasks w !! x; w ← destroy_opt c w;
      Some (World (frames w) (delete x (tasks w)) (loose w) (next w), [])
  | Destroy x =>
      c ← tasks w !! x;
      match c with
      | Some h => w ← destroy_frame h w; Some (set_task x None w, [true])
      | None => Some (w, [false])
      end
  | Detach x =>
      c ← tasks w !! x; h ← c;
      if decide (h ∈ frames w) then Some (set_task x None (let_go h w), []) else None
  | Handle x =>
      c ← tasks w !! x;
      let w := set_task x None w in
      Some (match c with Some h => let_go h w | None => w end, [])
  end.

Definition task_machine : machine world op bool := Machine (λ w, w = World ∅ ∅ ∅ 0) apply.

(** Each frame has one owner: a task object, or whoever it was given to. *)
Record owned (w : world) : Prop := {
  o_live : ∀ x h, tasks w !! x = Some (Some h) → h ∈ frames w ∧ h ∉ loose w;
  o_one : ∀ x y h, tasks w !! x = Some (Some h) → tasks w !! y = Some (Some h) → x = y;
  o_all : ∀ h, h ∈ frames w → h ∈ loose w ∨ ∃ x, tasks w !! x = Some (Some h);
  o_loose : loose w ⊆ frames w;
  o_next : ∀ h, h ∈ frames w → h < next w;
}.

Lemma destroy_owned w x c : owned w → tasks w !! x = Some c →
  ∃ w', destroy_opt c w = Some w' ∧ tasks w' = tasks w ∧ loose w' = loose w ∧ next w' = next w ∧
    owned (set_task x None w') ∧ ∀ h, h ∈ frames w' ↔ h ∈ frames w ∧ c ≠ Some h.
Proof.
  intros [Hl Ho Ha Hlo Hn] Hx. destruct c as [h|]; simpl.
  - destruct (Hl _ _ Hx) as [Hf Hnl]. unfold destroy_frame. rewrite decide_True by done.
    eexists. split_and!; [done..| |set_solver]. split; simpl.
    + intros y h' Hy. lookup_cases. destruct (Hl _ _ Hy). split; [|done].
      assert (h' ≠ h); [|set_solver]. intros ->. by rewrite (Ho _ _ _ Hx Hy) in Hk.
    + intros y z h' Hy Hz. lookup_cases. by eapply Ho.
    + intros h' [Hh' Hne]%elem_of_difference. destruct (Ha _ Hh') as [|[y Hy]]; [by left|right].
      exists y. rewrite lookup_insert_ne; [done|]. intros <-. set_solver.
    + set_solver.
    + set_solver.
  - exists w. split_and!; [done..| |naive_solver]. split; simpl; try done.
    + intros y h' Hy. lookup_cases. by eapply Hl.
    + intros y z h' Hy Hz. lookup_cases. by eapply Ho.
    + intros h' Hh'. destruct (Ha _ Hh') as [|[y Hy]]; [by left|right].
      exists y. rewrite lookup_insert_ne; congruence.
Qed.

(** Giving the coroutine of [x], which then has none, to the fresh or empty
    object [y]. *)
Lemma owned_move w x y c : owned w → tasks w !! x = Some c → x ≠ y →
  (∀ h, tasks w !! y ≠ Some (Some h)) → owned (set_task y c (set_task x None w)).
Proof.
  intros [Hl Ho Ha Hlo Hn] Hx Hxy Hy. split; simpl; try done.
  - intros z h Hz. lookup_cases; by eapply Hl.
  - intros z1 z2 h H1 H2. lookup_cases; try done; try (by eapply Ho);
      by (exfalso; match goal with
          | Hne : x ≠ ?z, Hz : tasks w !! ?z = Some (Some h) |- _ => by apply Hne, (Ho _ _ h)
          end).
  - intros h Hh. destruct (Ha _ Hh) as [|[z Hz]]; [by left|right].
    destruct (decide (z = x)) as [->|].
    + exists y. rewrite lookup_insert_eq. congruence.
    + exists z. rewrite !lookup_insert_ne; [done|congruence|]. intros <-. by apply (Hy h).
Qed.

Lemma owned_let_go w x h : owned w → tasks w !! x = Some (Some h) →
  owned (set_task x None (let_go h w)).
Proof.
  intros [Hl Ho Ha Hlo Hn] Hx. destruct (Hl _ _ Hx). split; simpl; try done.
  - intros y h' Hy. lookup_cases. destruct (Hl _ _ Hy). split; [done|].
    assert (h' ≠ h); [|set_solver]. intros ->. by rewrite (Ho _ _ _ Hx Hy) in Hk.
  - intros y z h' Hy Hz. lookup_cases. by eapply Ho.
  - intros h' Hh'. destruct (decide (h' = h)) as [->|]; [left; set_solver|].
    destruct (Ha _ Hh') as [|[y Hy]]; [left; set_solver|right].
    exists y. rewrite lookup_insert_ne; congruence.
  - set_solver.
Qed.

Lemma owned_forget w x : owned w → tasks w !! x = Some None →
  owned (World (frames w) (delete x (tasks w)) (loose w) (next w)).
Proof.
  intros [Hl Ho Ha Hlo Hn] Hx. split; simpl; try done.
  - intros y h Hy. lookup_cases. by eapply Hl.
  - intros y z h Hy Hz. lookup_cases. by eapply Ho.
  - intros h Hh. destruct (Ha _ Hh) as [|[y Hy]]; [by left|right]. exists y.
    rewrite lookup_delete_ne; congruence.
Qed.

Lemma owned_new w x c : owned w → tasks w !! x = None → (c = None ∨ c = Some (next w)) →
  owned (World (option_to_set c ∪ frames w) (<[x := c]> (tasks w)) (loose w) (S (next w))).
Proof.
  intros [Hl Ho Ha Hlo Hn] Hx Hc.
  assert (Hnx : next w ∉ frames w) by (intros H; apply Hn in H; lia).
  split; simpl.
  - intros y h Hy. lookup_cases; [destruct Hc as [|[= ->]]; [done|set_solver]|].
    destruct (Hl _ _ Hy). set_solver.
  - assert (Hfr : ∀ z, tasks w !! z ≠ Some (Some (next w))) by (intros z Hz; by destruct (Hl _ _ Hz)).
    intros y z h Hy Hz. destruct (decide (x = y)) as [<-|Hxy], (decide (x = z)) as [<-|Hxz];
      rewrite ?lookup_insert_eq, ?lookup_insert_ne in Hy by done;
      rewrite ?lookup_insert_eq, ?lookup_insert_ne in Hz by done; [done|..|by eapply Ho];
      exfalso; destruct Hc as [->| ->]; simplify_eq; by eapply Hfr.
  - intros h [Hh|Hh]%elem_of_union.
    + right. exists x. rewrite lookup_insert_eq. destruct c; set_solver.
    + destruct (Ha _ Hh) as [|[y Hy]]; [by left|right]. exists y.
      rewrite lookup_insert_ne; congruence.
  - set_solver.
  - intros h [Hh|Hh]%elem_of_union; [|apply Hn in Hh; lia].
    destruct Hc as [->| ->]; set_solver by lia.
Qed.

Lemma owned_empty w x : owned w → (∀ h, tasks w !! x ≠ Some (Some h)) → owned (set_task x None w).
Proof.
  intros [Hl Ho Ha Hlo Hn] Hx. split; simpl; try done.
  - intros y h Hy. lookup_cases. by eapply Hl.
  - intros y z h Hy Hz. lookup_cases. by eapply Ho.
  - intros h Hh. destruct (Ha _ Hh) as [|[y Hy]]; [by left|right]. exists y.
    rewrite lookup_insert_ne; [done|]. intros <-. by apply (Hx h).
Qed.

Lemma owned_step o w w' bs : owned w → apply o w = Some (w', bs) → owned w'.
Proof.
  intros Hw Ha. destruct o as [x|x|y x|x y|x|x|x|x]; simpl in Ha.
  - case_decide; simplify_eq.
    pose proof (owned_new w x (Some (next w)) Hw ltac:(done) (or_intror eq_refl)) as Hnew.
    exact Hnew.
  - case_decide as Hd; simplify_eq. apply owned_empty; [done|]. by rewrite Hd.
  - destruct (tasks w !! x) as [c|] eqn:Hx; [|done]. simpl in Ha. case_decide as Hy; simplify_eq.
    apply owned_move; [done..|congruence|by rewrite Hy].
  - destruct (tasks w !! x) as [c|] eqn:Hx; [|done]. simpl in Ha.
    destruct (tasks w !! y) as [d|] eqn:Hy; [|done]. simpl in Ha. case_decide; [by simplify_eq|].
    destruct (destroy_owned _ _ _ Hw Hx) as (w1 & Hd & Ht & _ & _ & Hw1 & _). rewrite Hd in Ha.
    simplify_eq/=.
    assert (Hm : set_task x d (set_task y None w1) = set_task x d (set_task y None (set_task x None w1))).
    { unfold set_task. simpl. rewrite (insert_insert_ne (tasks w1) y x) by done.
      by rewrite insert_insert_eq. }
    rewrite Hm. apply (owned_move _ y x d); [done| |done|].
    + simpl. rewrite lookup_insert_ne by done. by rewrite Ht.
    + intros h. simpl. by rewrite lookup_insert_eq.
  - destruct (tasks w !! x) as [c|] eqn:Hx; [|done]. simpl in Ha.
    destruct (destroy_owned _ _ _ Hw Hx) as (w1 & Hd & Ht & _ & _ & Hw1 & _). rewrite Hd in Ha.
    simplify_eq/=. pose proof (owned_forget _ x Hw1 (lookup_insert_eq _ _ _)) as Hf.
    simpl in Hf. by rewrite delete_insert_eq in Hf.
  - destruct (tasks w !! x) as [c|] eqn:Hx; [|done]. simpl in Ha.
    destruct (destroy_owned _ _ _ Hw Hx) as (w1 & Hd & Ht & _ & _ & Hw1 & _).
    destruct c as [h|]; [|by simplify_eq]. simpl in Hd. rewrite Hd in Ha. by simplify_eq/=.
  - destruct (tasks w !! x) as [[h|]|] eqn:Hx; try done. simpl in Ha. case_decide; simplify_eq.
    by apply owned_let_go.
  - destruct (tasks w !! x) as [[h|]|] eqn:Hx; try done; simpl in Ha; simplify_eq.
    + apply (owned_let_go w x h Hw Hx).
    + apply owned_empty; [done|]. by rewrite Hx.
Qed.

Lemma owned_reach w tr : reach task_machine w tr → owned w.
Proof.
  intros Hr. revert w tr Hr. apply reach_inv.
  - intros w ->. split; simpl; set_solver.
  - intros w l w' es Hw Hs. exact (owned_step l w w' es Hw Hs).
Qed.
End Ownership.

(** ** Properties *)

(** C17: a task whose nested tasks do not suspend computes what its body means
    as an ordinary function, for every promise that gives back what was put
    into it when new: that of a value in the general container (references are
    kept there as addresses), [promise<void>], and that of plain data as long
    as nothing is thrown ([pod_exception_lost] shows what happens otherwise).
    Created, possibly detached, and resumed by the engine each time it has
    suspended itself, it comes to its end; the effects are those of the body in
    order; the value or the exception ends up in its promise; every frame of an
    awaited task has been freed, and the task's own frame is freed exactly when
    the task was detached. *)
Theorem task_computes {X V A C} `{PromiseLaws C X V} (b : Chain.body (X:=X) (V:=V) (A:=A)) (det : bool) :
  Chain.nested_calm b →
  ∃ ls s es, exec (Chain.chain_machine (C:=C))
      (Chain.Create b :: (if det then [Chain.Detach 0] else []) ++ Chain.ExecTask 0 :: ls) Chain.init =
      Some (s, es) ∧
    Chain.scheduled (Chain.ByEngine 0) ls ∧ Chain.ctl s = Chain.Idle ∧ Chain.effects es = (Chain.eval b).1 ∧
    if det then Chain.heap s = ∅
    else ∃ p, Chain.heap s = {[0 := Chain.Frame (A:=A) Chain.AtFinal p]} ∧
              c_result (Chain.m_value p) = (Chain.eval b).2.
Proof.
  intros Hb. set (st := if det then Chain.detach else Chain.normal).
  set (f := Chain.Frame (Chain.AtStart b) (Chain.Promise st None (c_new (C:=C)))).
  destruct (Chain.runs_root 0 (Chain.ByEngine 0) b {[0 := f]} 1 f (or_introl eq_refl) Hb) as (ls & nx & es & He & Hls & Hes);
    [apply lookup_singleton_eq|lia| |done|].
  { intros h Hh. by rewrite lookup_singleton_ne by lia. }
  set (p := Chain.stored (Chain.eval b).2 (Chain.f_promise f)) in *.
  assert (Hstart : exec (Chain.chain_machine (C:=C))
    (Chain.Create b :: (if det then [Chain.Detach 0] else []) ++ [Chain.ExecTask 0]) Chain.init =
    Some (Chain.State {[0 := f]} 1 (Chain.Run 0 (Chain.ByEngine 0) b), [])) by by destruct det.
  rewrite insert_singleton_eq in He.
  assert (Hend : Chain.step Chain.Tick (Chain.State {[0 := Chain.Frame (A:=A) Chain.AtFinal p]} nx (Chain.Returned (Chain.ByEngine 0))) =
    Some (Chain.State (if det then ∅ else {[0 := Chain.Frame (A:=A) Chain.AtFinal p]}) nx Chain.Idle,
          if det then [Chain.Freed 0] else [])).
  { cbn [Chain.step Chain.ctl]. unfold Chain.exec_task_check. simpl. rewrite lookup_singleton_eq.
    simpl. unfold Chain.clean. simpl. unfold st. destruct det; simpl; [|done].
    by rewrite delete_singleton_eq. }
  assert (Hall : Chain.Create b :: (if det then [Chain.Detach 0] else []) ++ Chain.ExecTask 0 :: ls ++ [Chain.Tick] =
    (Chain.Create b :: (if det then [Chain.Detach 0] else []) ++ [Chain.ExecTask 0]) ++ ls ++ [Chain.Tick])
    by by destruct det.
  exists (ls ++ [Chain.Tick]). eexists _, _. split.
  { rewrite Hall, (exec_app _ _ _ _ _ _ Hstart), (exec_app _ _ _ _ _ _ He).
    by rewrite (Chain.exec_one _ _ _ Hend). }
  split; [apply Forall_app; split; [done|by repeat constructor; left]|].
  destruct det; simpl; rewrite Chain.effects_app, Hes, app_nil_r.
  - done.
  - split_and!; [done..|]. exists p. split; [done|]. apply Chain.eval_stored.
Qed.

(** a task that is driven by hand, [while (task.resume());], computes the
    same: each [resume] answers whether there is more, the last one that there
    is not, and the frame stays the task's, with the result. *)
Theorem task_resume_computes {X V A C} `{PromiseLaws C X V} (b : Chain.body (X:=X) (V:=V) (A:=A)) :
  Chain.nested_calm b →
  ∃ ls s es p, exec (Chain.chain_machine (C:=C)) (Chain.Create b :: Chain.TaskResume 0 :: ls) Chain.init = Some (s, es) ∧
    Chain.scheduled (Chain.ByTask 0) ls ∧ Chain.ctl s = Chain.Idle ∧ Chain.effects es = (Chain.eval b).1 ∧
    last es = Some (Chain.Answer 0 false) ∧
    Chain.heap s = {[0 := Chain.Frame (A:=A) Chain.AtFinal p]} ∧ c_result (Chain.m_value p) = (Chain.eval b).2.
Proof.
  intros Hb. set (f := Chain.Frame (Chain.AtStart b) (Chain.promise_new (C:=C))).
  destruct (Chain.runs_root 0 (Chain.ByTask 0) b {[0 := f]} 1 f (or_intror eq_refl) Hb) as (ls & nx & es & He & Hls & Hes);
    [apply lookup_singleton_eq|lia| |done|].
  { intros h Hh. by rewrite lookup_singleton_ne by lia. }
  set (p := Chain.stored (Chain.eval b).2 (Chain.f_promise f)) in *.
  assert (Hstart : exec (Chain.chain_machine (C:=C)) [Chain.Create b; Chain.TaskResume 0] Chain.init =
    Some (Chain.State {[0 := f]} 1 (Chain.Run 0 (Chain.ByTask 0) b), [])) by done.
  rewrite insert_singleton_eq in He.
  assert (Hend : Chain.step Chain.Tick (Chain.State {[0 := Chain.Frame (A:=A) Chain.AtFinal p]} nx (Chain.Returned (Chain.ByTask 0))) =
    Some (Chain.State {[0 := Chain.Frame (A:=A) Chain.AtFinal p]} nx Chain.Idle, [Chain.Answer 0 false])).
  { cbn [Chain.step Chain.ctl]. unfold Chain.answer. simpl. by rewrite lookup_singleton_eq. }
  exists (ls ++ [Chain.Tick]), (Chain.State {[0 := Chain.Frame (A:=A) Chain.AtFinal p]} nx Chain.Idle),
    (es ++ [Chain.Answer 0 false]), p. split_and!.
  - change (Chain.Create b :: Chain.TaskResume 0 :: ls ++ [Chain.Tick]) with
      ([Chain.Create b; Chain.TaskResume 0] ++ ls ++ [Chain.Tick]).
    rewrite (exec_app _ _ _ _ _ _ Hstart), (exec_app _ _ _ _ _ _ He). by rewrite (Chain.exec_one _ _ _ Hend).
  - apply Forall_app. split; [done|by repeat constructor; left].
  - done.
  - rewrite Chain.effects_app, Hes. simpl. by rewrite app_nil_r.
  - apply last_snoc.
  - done.
  - apply Chain.eval_stored.
Qed.

(** C18: (defect) whenever a task that nobody awaits, resumed by the engine or
    by [task::resume], awaits a nested task that suspends itself at least once
    (on a mutex, an event, I/O ...) and awaits no suspending task in turn, and
    the engine goes on to resume the nested task: when that ends, control
    passes to the awaiting task, which destroys it; the awaiting task goes on,
    to its end or to its next suspension, and control comes back to the
    [exec_task] of the nested task, which asks the destroyed frame whether it
    is done. From every reachable state, for every promise as above, whatever
    the child's body is otherwise, and whatever the awaiting task does after,
    as long as the tasks it awaits then do not suspend. *)
Theorem nested_suspend_use_after_free {X V A C} `{PromiseLaws C X V} (child : Chain.body (X:=X) (V:=V) (A:=A)) k h f
    (s : Chain.state (C:=C)) tr :
  reach Chain.chain_machine s tr → Chain.heap s !! h = Some f → Chain.m_continuation (Chain.f_promise f) = None →
  Chain.ctl s = Chain.Run h (Chain.ByEngine h) (Chain.CoAwait child k) ∨
    Chain.ctl s = Chain.Run h (Chain.ByTask h) (Chain.CoAwait child k) →
  Chain.nested_calm child → Chain.suspends child = true → (∀ o, Chain.nested_calm (k o)) →
  ∃ ls s' es, exec Chain.chain_machine ls s = Some (s', es) ∧
    Forall (λ l, l = Chain.Tick ∨ l = Chain.ExecTask (Chain.next s)) ls ∧
    Chain.Suspended (Chain.next s) ∈ es ∧ Chain.Freed (Chain.next s) ∈ es ∧
    Chain.heap s' !! Chain.next s = None ∧ Chain.ctl s' = Chain.Faulted (Chain.next s).
Proof.
  intros Hr Hh Hcont Hctl Hc Hs Hk. pose proof (Chain.bounded_reach _ _ Hr) as Hfr.
  pose proof (Chain.fresh_lt _ _ _ _ Hfr Hh) as Hlt.
  assert (Hroot : ∃ root, (root = Chain.ByEngine h ∨ root = Chain.ByTask h) ∧
    s = Chain.State (Chain.heap s) (Chain.next s) (Chain.Run h root (Chain.CoAwait child k))).
  { destruct s as [hp nx c]. simpl in Hctl. destruct Hctl as [-> | ->]; eauto. }
  destruct Hroot as (root & Hroot & Heq).
  destruct (Chain.nested_parks child k h root (Chain.heap s) (Chain.next s) f Hroot Hc Hs Hh Hfr)
    as (ls1 & k' & nx' & es1 & He1 & Hn & Hk' & Hsus & Hls1).
  destruct (Chain.nested_faults k' k h (Chain.heap s) nx' (Chain.next s) f Hk' Hk Hcont Hh)
    as (ls2 & s2 & es2 & He2 & Hfree & Hnone & Hf & Hls2); [lia|done|done|].
  exists (ls1 ++ ls2), s2, (es1 ++ es2). split_and!; [|by apply Forall_app|apply elem_of_app; by left|
    apply elem_of_app; by right|done|done].
  rewrite Heq at 1. by rewrite (exec_app _ _ _ _ _ _ He1), He2.
Qed.

(** a frame is never destroyed twice and never owned twice: over any
    sequence of task operations every task that holds a coroutine holds a
    living one of its own, every living frame is held by a task or was given
    away ([detach], [handle() &&]), and what was given away is never destroyed
    by a task. *)
Theorem task_ownership w tr : reach Ownership.task_machine w tr →
  (∀ x h, Ownership.tasks w !! x = Some (Some h) → h ∈ Ownership.frames w) ∧
  (∀ x y h, Ownership.tasks w !! x = Some (Some h) → Ownership.tasks w !! y = Some (Some h) → x = y) ∧
  (∀ h, h ∈ Ownership.frames w ↔
     h ∈ Ownership.loose w ∨ ∃ x, Ownership.tasks w !! x = Some (Some h)) ∧
  (∀ x h, Ownership.tasks w !! x = Some (Some h) → h ∉ Ownership.loose w).
Proof.
  intros [Hl Ho Ha Hlo Hn]%Ownership.owned_reach. split_and!.
  - intros x h Hx. by destruct (Hl _ _ Hx).
  - exact Ho.
  - intros h. split; [apply Ha|]. intros [Hh|[x Hx]]; [by apply Hlo|by destruct (Hl _ _ Hx)].
  - intros x h Hx. by destruct (Hl _ _ Hx).
Qed.

(** the destructor, [destroy()] and the move assignment of a task are
    always safe: the frame they destroy exists; after the destructor it is
    gone, and [destroy()] says whether there was one. *)
Theorem task_destroy_safe w tr x c : reach Ownership.task_machine w tr →
  Ownership.tasks w !! x = Some c →
  (∃ w', Ownership.apply (Ownership.Destructor x) w = Some (w', []) ∧
     Ownership.tasks w' !! x = None ∧ ∀ h, c = Some h → h ∉ Ownership.frames w') ∧
  (∃ w', Ownership.apply (Ownership.Destroy x) w = Some (w', [bool_decide (is_Some c)]) ∧
     Ownership.tasks w' !! x = Some None) ∧
  (∀ y d, Ownership.tasks w !! y = Some d → y ≠ x →
     ∃ w', Ownership.apply (Ownership.MoveAssign x y) w = Some (w', []) ∧
       Ownership.tasks w' !! x = Some d ∧ Ownership.tasks w' !! y = Some None ∧
       ∀ h, c = Some h → h ∉ Ownership.frames w').
Proof.
  intros Hw%Ownership.owned_reach Hx.
  destruct (Ownership.destroy_owned _ _ _ Hw Hx) as (w1 & Hd & Ht & _ & _ & _ & Hf).
  assert (Hgone : ∀ h, c = Some h → h ∉ Ownership.frames w1) by (intros h -> Hh; by apply Hf in Hh as []).
  split_and!; simpl; rewrite Hx; simpl.
  - rewrite Hd. simpl. eexists. split; [done|]. split; [apply lookup_delete_eq|done].
  - destruct c as [h|]; simpl in *.
    + rewrite Hd. simpl. eexists. split; [done|]. apply lookup_insert_eq.
    + exists w. by rewrite Hx.
  - intros y d Hy Hne. rewrite Hy. simpl. rewrite decide_False by done. rewrite Hd. simpl.
    eexists. split; [done|]. simpl. rewrite lookup_insert_eq, lookup_insert_ne by done.
    by rewrite lookup_insert_eq.
Qed.

(** ** Witnesses *)
Definition demo_body : Chain.body (X:=nat) (V:=nat) (A:=nat) :=
  Chain.CoEffect 1 (Chain.CoAwait (Chain.CoEffect 2 (Chain.CoThrow 9))
    (λ o, Chain.CoSuspend (match o with Throw _ => Chain.CoEffect 3 (Chain.CoReturn 5)
                           | _ => Chain.CoReturn 6 end))).

(** A task of the general container, detached; one without a value; and one of
    plain data, in memory that held 77. *)
Definition void_body : Chain.body (X:=nat) (V:=()) (A:=nat) :=
  Chain.CoAwait (Chain.CoEffect 2 (Chain.CoThrow 9))
    (λ o, Chain.CoSuspend (match o with Throw _ => Chain.CoEffect 3 (Chain.CoReturn ()) | _ => Chain.CoReturn () end)).
Definition pod_body : Chain.body (X:=Empty_set) (V:=Z) (A:=nat) :=
  Chain.CoAwait (Chain.CoReturn 4%Z) (λ o, Chain.CoSuspend (match o with Ret v => Chain.CoReturn (v + 1)%Z | _ => Chain.CoReturn 0%Z end)).

Lemma task_computes_witness :
  (∃ ls s es, exec (Chain.chain_machine (C:=General.storage nat nat))
    (Chain.Create demo_body :: [Chain.Detach 0] ++ Chain.ExecTask 0 :: ls) Chain.init = Some (s, es) ∧
    Chain.effects es = [1; 2; 3] ∧ Chain.heap s = ∅) ∧
  (∃ ls s es, exec (Chain.chain_machine (C:=Void.promise nat))
    (Chain.Create void_body :: [] ++ Chain.ExecTask 0 :: ls) Chain.init = Some (s, es) ∧ Chain.effects es = [2; 3]) ∧
  (∃ ls s es p, exec (Chain.chain_machine (C:=Pod.pod) (H:=pod_promised 0%Z 77%Z))
    (Chain.Create pod_body :: [] ++ Chain.ExecTask 0 :: ls) Chain.init = Some (s, es) ∧
    Chain.heap s = {[0 := Chain.Frame Chain.AtFinal p]} ∧ Pod.result 0%Z (Chain.m_value p) = Ret 5%Z).
Proof.
  split; [|split].
  - destruct (task_computes (C:=General.storage nat nat) demo_body true) as (ls & s & es & He & _ & _ & Hes & Hh).
    { simpl. split; [done|]. by intros [?|?|]. }
    exists ls, s, es. split_and!; [exact He|exact Hes|exact Hh].
  - destruct (task_computes (C:=Void.promise nat) void_body false) as (ls & s & es & He & _ & _ & Hes & _).
    { simpl. split; [done|]. by intros [?|?|]. }
    exists ls, s, es. split; [exact He|exact Hes].
  - destruct (task_computes (C:=Pod.pod) (H:=pod_promised 0%Z 77%Z) (H0:=pod_promise_laws 0%Z 77%Z) pod_body false)
      as (ls & s & es & He & _ & _ & _ & p & Hh & Hp).
    { simpl. split; [done|]. by intros [?|?|]. }
    exists ls, s, es, p. split_and!; [exact He|exact Hh|exact Hp].
Defined.

Lemma task_resume_computes_witness : ∃ ls s es, exec (Chain.chain_machine (C:=General.storage nat nat))
    (Chain.Create demo_body :: Chain.TaskResume 0 :: ls) Chain.init = Some (s, es) ∧
  Chain.effects es = [1; 2; 3] ∧ last es = Some (Chain.Answer 0 false).
Proof.
  destruct (task_resume_computes (C:=General.storage nat nat) demo_body) as (ls & s & es & p & He & _ & _ & Hes & Hl & _).
  { simpl. split; [done|]. by intros [?|?|]. }
  exists ls, s, es. split_and!; [exact He|exact Hes|exact Hl].
Defined.

(** A nested task that suspends itself twice, awaited by a task that then
    suspends itself. *)
Definition nested_body : Chain.body (X:=nat) (V:=nat) (A:=nat) :=
  Chain.CoEffect 1 (Chain.CoSuspend (Chain.CoSuspend (Chain.CoReturn 7))).
Definition awaiting_body : Chain.body (X:=nat) (V:=nat) (A:=nat) :=
  Chain.CoAwait nested_body (λ _, Chain.CoSuspend (Chain.CoReturn 8)).
Definition general_chain := Chain.chain_machine (X:=nat) (V:=nat) (A:=nat) (C:=General.storage nat nat).
Definition awaiting_state : Chain.state := final general_chain [Chain.Create awaiting_body; Chain.ExecTask 0] Chain.init.

Lemma nested_suspend_use_after_free_witness : ∃ ls s es, exec general_chain ls awaiting_state = Some (s, es) ∧
  Chain.Freed 1 ∈ es ∧ Chain.ctl s = Chain.Faulted 1.
Proof.
  destruct (nested_suspend_use_after_free (C:=General.storage nat nat) nested_body
    (λ _, Chain.CoSuspend (Chain.CoReturn 8)) 0 (Chain.Frame (Chain.AtStart awaiting_body) Chain.promise_new) awaiting_state
    (trace general_chain [Chain.Create awaiting_body; Chain.ExecTask 0] Chain.init))
    as (ls & s & es & He & _ & _ & Hf & _ & Hc);
    [apply exec_reach_final; [done|by vm_compute]|done|done|by left|done|done|done|].
  exists ls, s, es. split; [exact He|]. split; [exact Hf|exact Hc].
Defined.

Definition own_demo : list Ownership.op :=
  [Ownership.Call 1; Ownership.MoveNew 2 1; Ownership.Call 3; Ownership.MoveAssign 3 2; Ownership.Call 4;
   Ownership.Detach 4].
Definition own_end : Ownership.world := final Ownership.task_machine own_demo (Ownership.World ∅ ∅ ∅ 0).

Lemma own_demo_reach : reach Ownership.task_machine own_end
  (trace Ownership.task_machine own_demo (Ownership.World ∅ ∅ ∅ 0)).
Proof. apply exec_reach_final; [done|by vm_compute]. Defined.

Lemma task_ownership_witness : Ownership.tasks own_end !! 3 = Some (Some 0) ∧ 0 ∈ Ownership.frames own_end.
Proof.
  split; [by vm_compute|]. destruct (task_ownership _ _ own_demo_reach) as (H & _).
  apply (H 3). by vm_compute.
Defined.

Lemma task_destroy_safe_witness :
  ∃ w', Ownership.apply (Ownership.Destructor 3) own_end = Some (w', []) ∧ 0 ∉ Ownership.frames w'.
Proof.
  destruct (task_destroy_safe _ _ 3 (Some 0) own_demo_reach) as ((w' & H1 & _ & H2) & _); [by vm_compute|].
  exists w'. split; [exact H1|by apply H2].
Defined.
