(* ===== verification/Lifetime.v ===== *)
(** * The life of submitted coroutines (task.hpp: clean; the submit functions of
    context.hpp and scheduler.hpp; engine.cpp: submit_task, exec_task)

    Who destroys the frame of a coroutine: the [task] object, or, when the task
    was moved into a submit function, the engine that finds the coroutine done.
    The task objects are those of [Task.v]; here are the engines, taken
    together, and what they do to the frames. A coroutine that an engine has
    resumed is [running] until it suspends itself or ends; its [exec_task] has
    then still to ask it whether it is done ([returning]), while the other
    threads go on. *)
From stdpp Require Import gmultiset.
From S2P Require Import Prelude.
From S2P Require Task.
Import Task.Ownership.
Local Open Scope coro_scope.

Record life := Life {
  world : Task.Ownership.world;       (* the frames and the task objects *)
  detached : gset nat;                (* frames whose m_state is detach *)
  done : gset nat;                    (* frames that reached final_suspend *)
  queued : list nat;                  (* handles in the engines' queues *)
  suspended : gset nat;               (* handles kept by those who wake them *)
  running : gset nat;                 (* inside handle.resume() *)
  returning : gmultiset nat;          (* exec_tasks past it: done() is to be read *)
}.

(** What [submit_task] finds: room in the queue, a working thread, and the
    recursion at its limit. *)
Record found := Found { room : bool; is_in_working_state : bool; too_deep : bool }.

Inductive label :=
  | Own (o : op)                      (* an operation on task objects *)
  | SubmitMove (x : nat) (q : found)  (* submit(std::move(x)) *)
  | SubmitRef (x : nat) (q : found)   (* submit(x) *)
  | SubmitHandle (h : nat) (q : found)   (* submit(handle) of a new coroutine *)
  | Wake (h : nat) (q : found)        (* submit(handle) of a suspended coroutine *)
  | ExecOne (h : nat)                 (* exec_one_task takes [h] from a queue *)
  | Suspend (h : nat)                 (* a running coroutine suspends itself *)
  | Finish (h : nat)                  (* ... or reaches final_suspend *)
  | Check (h : nat).                  (* exec_task goes on after handle.resume() *)

Definition set_world (w : Task.Ownership.world) (s : life) : life :=
  Life w (detached s) (done s) (queued s) (suspended s) (running s) (returning s).
Definition set_queued (q : list nat) (s : life) : life :=
  Life (world s) (detached s) (done s) q (suspended s) (running s) (returning s).
Definition set_suspended (k : gset nat) (s : life) : life :=
  Life (world s) (detached s) (done s) (queued s) k (running s) (returning s).

(** [handle.resume()], called by [exec_task]; of a frame that does not exist,
    is done or is running it is undefined. *)
Definition resume (h : nat) (s : life) : option life :=
  if decide (h ∈ frames (world s) ∧ h ∉ done s ∧ h ∉ running s) then
    Some (Life (world s) (detached s) (done s) (queued s) (suspended s) ({[h]} ∪ running s) (returning s))
  else None.

(** [submit_task]: with no room, a working thread runs the handle itself
    unless the recursion is too deep; what else finds no room is dropped. *)
Definition submit (h : nat) (q : found) (s : life) : option life :=
  if room q then Some (set_queued (queued s ++ [h]) s)
  else if is_in_working_state q then (if too_deep q then Some s else resume h s)
  else Some s.

(** [task::handle() &]; [submit_task] asserts that there is one. *)
Definition handle (x : nat) (s : life) : option nat := c ← tasks (world s) !! x; c.

(** [task::detach]: the state in the promise, and the object's handle. *)
Definition detach (x : nat) (s : life) : option life :=
  h ← handle x s;
  '(w, _) ← apply (Detach x) (world s);
  Some (Life w ({[h]} ∪ detached s) (done s) (queued s) (suspended s) (running s) (returning s)).

(** [submit(task<void>&&)] and [submit(task<void>&)] *)
Definition submit_move (x : nat) (q : found) (s : life) : option life :=
  h ← handle x s; s ← detach x s; submit h q s.
Definition submit_ref (x : nat) (q : found) (s : life) : option life :=
  h ← handle x s; submit h q s.

(** [clean] of a coroutine that is done. *)
Definition clean (h : nat) (s : life) : option life :=
  if decide (h ∈ detached s) then
    w ← destroy_frame h (world s);
    Some (set_world (World (frames w) (tasks w) (loose w ∖ {[h]}) (next w)) s)
  else Some s.

(** The coroutine gives control back to its [exec_task], at a suspension, where
    it has left its handle with whoever is to wake it, or at its end. *)
Definition give_back (h : nat) (finished : bool) (s : life) : option life :=
  if decide (h ∈ running s) then
    Some (Life (world s) (detached s) (if finished then {[h]} ∪ done s else done s) (queued s)
            (if finished then suspended s else {[h]} ∪ suspended s) (running s ∖ {[h]}) ({[+ h +]} ⊎ returning s))
  else None.

(** [exec_task] after [handle.resume()]: [done()], undefined for a frame that
    does not exist, and [clean]. *)
Definition exec_task_check (h : nat) (s : life) : option life :=
  if decide (h ∈ frames (world s)) then if decide (h ∈ done s) then clean h s else Some s else None.

Definition set_returning (m : gmultiset nat) (s : life) : life :=
  Life (world s) (detached s) (done s) (queued s) (suspended s) (running s) m.

Definition step (l : label) (s : life) : option (life * list bool) :=
  match l with
  | Own (Detach x) => s ← detach x s; Some (s, [])
  | Own o => '(w, bs) ← apply o (world s); Some (set_world w s, bs)
  | SubmitMove x q => s ← submit_move x q s; Some (s, [])
  | SubmitRef x q => s ← submit_ref x q s; Some (s, [])
  | SubmitHandle h q => s ← submit h q s; Some (s, [])
  | Wake h q =>
      if decide (h ∈ suspended s) then s ← submit h q (set_suspended (suspended s ∖ {[h]}) s); Some (s, []) else None
  | ExecOne h =>
      if decide (h ∈ queued s) then s ← resume h (set_queued (filter (λ k, k ≠ h) (queued s)) s); Some (s, []) else None
  | Suspend h => s ← give_back h false s; Some (s, [])
  | Finish h => s ← give_back h true s; Some (s, [])
  | Check h => if decide (h ∈ returning s) then s ← exec_task_check h (set_returning (returning s ∖ {[+ h +]}) s); Some (s, []) else None
  end.

Definition life_start : life := Life (World ∅ ∅ ∅ 0) ∅ ∅ [] ∅ ∅ ∅.
Definition life_machine : machine life label bool := Machine (λ s, s = life_start) step.

(** What a caller has to see to: a coroutine is submitted (or detached) once,
    before it is done, and its task is not destroyed (or overwritten) before
    the engine is done with it. What the engines see to: a coroutine that was
    woken goes back to the worker that ran it, which goes on to its own queue
    after [exec_task] only. *)
Definition in_use (h : nat) (s : life) : bool :=
  bool_decide (h ∈ queued s ∨ h ∈ suspended s ∨ h ∈ running s ∨ h ∈ returning s).
Definition unused (x : nat) (s : life) : bool :=
  match handle x s with Some h => negb (in_use h s) | None => true end.
Definition not_done (x : nat) (s : life) : bool :=
  match handle x s with Some h => bool_decide (h ∉ done s) | None => true end.
Definition careful (l : label) (s : life) : bool :=
  match l with
  | Own (Destructor x) | Own (Destroy x) | Own (MoveAssign x _) => unused x s
  | Own (Detach x) => not_done x s
  | SubmitMove x _ | SubmitRef x _ => unused x s && not_done x s
  | SubmitHandle h _ => negb (in_use h s) && bool_decide (h ∈ frames (world s) ∧ h ∉ done s)
  | Wake h q => room q || bool_decide (h ∉ returning s)
  | ExecOne h => bool_decide (h ∉ returning s)
  | _ => true
  end.

(** ** The invariant *)
Record life_ok (s : life) : Prop := {
  f_owned : owned (world s);
  f_nodup : NoDup (queued s);
  f_once : ∀ h, multiplicity h (returning s) ≤ 1;
  f_apart : ∀ h, (h ∈ queued s → h ∉ suspended s ∧ h ∉ running s) ∧ (h ∈ running s → h ∉ suspended s ∧ h ∉ returning s);
  f_alive : ∀ h, h ∈ queued s ∨ h ∈ suspended s ∨ h ∈ running s → h ∈ frames (world s) ∧ h ∉ done s;
  f_back : ∀ h, h ∈ returning s → h ∈ frames (world s);
  f_detached : ∀ h, h ∈ detached s → h ∈ frames (world s) → h ∈ loose (world s) ∧ (h ∈ done s → h ∈ returning s);
  f_new : ∀ h, h ∈ detached s ∨ h ∈ done s → h < next (world s);
}.

(** Operations on task objects destroy at most the frame of their target. *)
Definition target (o : op) (s : life) : option nat :=
  match o with Destructor x | Destroy x | MoveAssign x _ => handle x s | _ => None end.

Lemma destroy_frames c w w' : destroy_opt c w = Some w' →
  tasks w' = tasks w ∧ loose w' = loose w ∧ next w' = next w ∧
  ∀ h, h ∈ frames w' ↔ h ∈ frames w ∧ c ≠ Some h.
Proof.
  destruct c as [k|]; simpl; [|intros [= <-]; naive_solver].
  unfold destroy_frame. case_decide; [|done]. intros [= <-]. simpl. split_and!; try done. set_solver.
Qed.

Lemma apply_frames o s w bs : apply o (world s) = Some (w, bs) →
  next (world s) ≤ next w ∧ loose (world s) ⊆ loose w ∧
  (∀ h, h ∈ frames (world s) → target o s ≠ Some h → h ∈ frames w) ∧
  (∀ h, h ∈ frames w → h ∈ frames (world s) ∨ h = next (world s)).
Proof.
  intros Ha. unfold target, handle. destruct o as [x|x|y x|x y|x|x|x|x]; simpl in Ha.
  - case_decide; simplify_eq/=. split_and!; [lia|done|set_solver|set_solver].
  - case_decide; simplify_eq/=. auto.
  - destruct (tasks _ !! x); [|done]. simpl in Ha. case_decide; simplify_eq/=. auto.
  - destruct (tasks (world s) !! x) as [c|]; [|done]. simpl in *. destruct (tasks _ !! y) as [d|]; [|done]. simpl in Ha.
    case_decide; [simplify_eq; auto|]. destruct (destroy_opt c _) as [w1|] eqn:Hd; simplify_eq/=.
    apply destroy_frames in Hd as (_ & -> & -> & Hf). split_and!; [done|done|naive_solver|naive_solver].
  - destruct (tasks (world s) !! x) as [c|]; [|done]. simpl in *. destruct (destroy_opt c _) as [w1|] eqn:Hd; simplify_eq/=.
    apply destroy_frames in Hd as (_ & -> & -> & Hf). split_and!; [done|done|naive_solver|naive_solver].
  - destruct (tasks (world s) !! x) as [[k|]|]; simpl in *; [|simplify_eq; auto|done].
    destruct (destroy_frame k _) as [w1|] eqn:Hd; simplify_eq/=.
    apply (destroy_frames (Some k)) in Hd as (_ & -> & -> & Hf). split_and!; [done|done|naive_solver|naive_solver].
  - destruct (tasks _ !! x) as [[k|]|]; simpl in Ha; try done. case_decide; simplify_eq/=. split_and!; [done|set_solver|auto..].
  - destruct (tasks _ !! x) as [[k|]|]; simplify_eq/=; [|auto]. split_and!; [done|set_solver|auto..].
Qed.

Lemma not_in_use h s : in_use h s = false ↔ h ∉ queued s ∧ h ∉ suspended s ∧ h ∉ running s ∧ h ∉ returning s.
Proof. unfold in_use. rewrite bool_decide_eq_false. tauto. Qed.

Lemma life_own s o w bs : life_ok s → careful (Own o) s = true → apply o (world s) = Some (w, bs) → life_ok (set_world w s).
Proof.
  intros [H1 H2 Ho H3 H4 Hb H5 H6] Hc Ha. destruct (apply_frames _ _ _ _ Ha) as (Hn & Hl & Hkeep & Hold).
  assert (Hsafe : ∀ h, target o s = Some h → in_use h s = false).
  { intros h Ht. unfold target in Ht. simpl in Hc. unfold unused in Hc.
    destruct o; try done; rewrite Ht in Hc; by apply negb_true_iff in Hc. }
  assert (Hsafe' : ∀ h, h ∈ queued s ∨ h ∈ suspended s ∨ h ∈ running s ∨ h ∈ returning s → target o s ≠ Some h).
  { intros h Hh Ht%Hsafe%not_in_use. tauto. }
  split; simpl; try done.
  - by eapply owned_step.
  - intros h Hh. destruct (H4 h Hh). split; [apply Hkeep; [done|apply Hsafe'; tauto]|done].
  - intros h Hh. apply Hkeep; [by apply Hb|apply Hsafe'; tauto].
  - intros h Hd Hf. assert (h ≠ next (world s)) by (intros ->; pose proof (H6 _ (or_introl Hd)); lia).
    destruct (H5 h Hd) as [? ?]; [by destruct (Hold h Hf)|]. auto.
  - intros h Hh. pose proof (H6 _ Hh). lia.
Qed.

(** A handle that nobody uses is resumed, or put into a queue. *)
Lemma life_resume s h s' : life_ok s → in_use h s = false → resume h s = Some s' → life_ok s'.
Proof.
  intros [H1 H2 Ho H3 H4 Hb H5 H6] (Hq & Hsu & Hr & Hre)%not_in_use Hs. unfold resume in Hs.
  case_decide as Hh; [|done]. destruct Hh as (Hf & Hd & _). injection Hs as <-. split; simpl; try done.
  - intros k. destruct (H3 k) as [Ha Hb']. split.
    + intros Hk. destruct (Ha Hk). set_solver.
    + intros [->%elem_of_singleton|Hk]%elem_of_union; [done|by apply Hb'].
  - intros k [Hk|[Hk|[->%elem_of_singleton|Hk]%elem_of_union]]; [apply H4; tauto..|done|apply H4; tauto].
Qed.

Lemma life_push s h : life_ok s → in_use h s = false → h ∈ frames (world s) → h ∉ done s →
  life_ok (set_queued (queued s ++ [h]) s).
Proof.
  intros [H1 H2 Ho H3 H4 Hb H5 H6] (Hq & Hsu & Hr & Hre)%not_in_use Hf Hd. split; simpl; try done.
  - by apply NoDup_snoc.
  - intros k. destruct (H3 k) as [Ha Hb']. split; [|done].
    intros [Hk| ->%list_elem_of_singleton]%elem_of_app; [by apply Ha|done].
  - intros k [[Hk| ->%list_elem_of_singleton]%elem_of_app|Hk]; [apply H4; tauto|done|apply H4; tauto].
Qed.

Lemma resume_ok h s : h ∈ frames (world s) → h ∉ done s → h ∉ running s →
  resume h s = Some (Life (world s) (detached s) (done s) (queued s) (suspended s) ({[h]} ∪ running s) (returning s)).
Proof. intros. unfold resume. by rewrite decide_True. Qed.

Lemma life_submit s h q s' : life_ok s → in_use h s = false → h ∈ frames (world s) → h ∉ done s →
  submit h q s = Some s' → life_ok s'.
Proof.
  intros Hok Hu Hf Hd Hs. unfold submit in Hs. destruct (room q); [injection Hs as <-; by apply life_push|].
  destruct (is_in_working_state q); [|by injection Hs as <-].
  destruct (too_deep q); [by injection Hs as <-|by eapply life_resume].
Qed.

(** A handle leaves the lists it is in. *)
Lemma life_out s q k : life_ok s → q ⊆+ queued s → k ⊆ suspended s → life_ok (set_queued q (set_suspended k s)).
Proof.
  intros [H1 H2 Ho H3 H4 Hb H5 H6] Hq Hk. assert (Hin : ∀ h, h ∈ q → h ∈ queued s) by (intros h Hh; by eapply elem_of_submseteq).
  split; simpl; try done.
  - apply submseteq_Permutation in Hq as [q' Hq]. rewrite Hq in H2. by apply NoDup_app in H2 as (? & _).
  - intros h. destruct (H3 h) as [Ha Hb']. split; intros Hh; [destruct (Ha (Hin h Hh))|destruct (Hb' Hh)]; set_solver.
  - intros h [Hh|[Hh|Hh]]; apply H4; [left; auto|right; left; set_solver|tauto].
Qed.

Lemma life_detach s x s' : life_ok s → (∀ h, handle x s = Some h → h ∉ done s) → detach x s = Some s' →
  life_ok s' ∧ queued s' = queued s ∧ suspended s' = suspended s ∧ running s' = running s ∧ returning s' = returning s ∧
  done s' = done s ∧ frames (world s') = frames (world s).
Proof.
  intros Hok Hnd Hs. unfold detach in Hs. destruct (handle x s) as [h|] eqn:Hx; [|done].
  destruct (apply (Detach x) (world s)) as [[w bs]|] eqn:Ha; [|done]. injection Hs as <-.
  pose proof (owned_step _ _ _ _ (f_owned _ Hok) Ha) as Hw. unfold handle in Hx. simpl in Ha.
  destruct (tasks (world s) !! x) as [c|] eqn:Hc; [|done]. simpl in Ha, Hx. subst c. simpl in Ha.
  case_decide as Hf; simplify_eq/=. destruct Hok as [H1 H2 Ho H3 H4 Hb H5 H6]. split; [|done].
  assert (Hlt : h < next (world s)) by (by eapply o_next).
  split; simpl; try done.
  - intros k [->%elem_of_singleton|Hk]%elem_of_union Hfk; [split; [set_solver|intros Hdk; by apply Hnd in Hdk]|].
    destruct (H5 k Hk Hfk). split; [set_solver|done].
  - intros k [[->%elem_of_singleton|Hk]%elem_of_union|Hk]; [done|auto..].
Qed.

(** A running coroutine gives control back. *)
Lemma life_give_back s h fin s' : life_ok s → give_back h fin s = Some s' → life_ok s'.
Proof.
  intros [H1 H2 Ho H3 H4 Hb H5 H6] Hs. unfold give_back in Hs. case_decide as Hr; [|done]. injection Hs as <-.
  destruct (H3 h) as [Hqr Hrr]. destruct (Hrr Hr) as [Hsu Hre]. destruct (H4 h) as [Hf Hd]; [tauto|].
  assert (Hq : h ∉ queued s) by (intros Hq; by destruct (Hqr Hq)).
  split; simpl; try done.
  - intros k. rewrite multiplicity_disj_union. destruct (decide (k = h)) as [->|Hne].
    + rewrite multiplicity_singleton_eq. apply not_elem_of_multiplicity in Hre. lia.
    + rewrite multiplicity_singleton_ne by done. apply Ho.
  - intros k. destruct (H3 k) as [Ha Hb']. split; intros Hk.
    + assert (k ≠ h) by congruence. destruct (Ha Hk). destruct fin; set_solver.
    + apply elem_of_difference in Hk as [Hk Hne]. destruct (Hb' Hk). rewrite not_elem_of_singleton in Hne.
      split; [destruct fin; set_solver|multiset_solver].
  - intros k Hk. assert (Hk' : k = h ∧ fin = false ∨ k ≠ h ∧ (k ∈ queued s ∨ k ∈ suspended s ∨ k ∈ running s)).
    { destruct (decide (k = h)) as [->|]; destruct fin; set_solver. }
    destruct Hk' as [[-> ->]|[Hne Hk']]; [done|]. destruct (H4 k Hk'). destruct fin; set_solver.
  - intros k [->%gmultiset_elem_of_singleton|Hk]%gmultiset_elem_of_disj_union; [done|auto].
  - intros k Hk Hfk. destruct (H5 k Hk Hfk) as [Hl Hret]. split; [done|]. intros Hdk.
    apply gmultiset_elem_of_disj_union. destruct (decide (k = h)) as [->|]; [left; by apply gmultiset_elem_of_singleton|right].
    apply Hret. destruct fin; set_solver.
  - intros k Hk. assert (k = h ∨ k ∈ detached s ∨ k ∈ done s) as [->|] by (destruct fin; set_solver); [by eapply o_next|auto].
Qed.

(** ... and its [exec_task] looks at it. *)
Lemma elem_of_minus (k h : nat) (m : gmultiset nat) : (∀ i, multiplicity i m ≤ 1) → k ∈ m ∖ {[+ h +]} ↔ k ∈ m ∧ k ≠ h.
Proof.
  intros Ho. specialize (Ho k). rewrite !elem_of_multiplicity, multiplicity_difference.
  destruct (decide (k = h)) as [->|Hne]; [rewrite multiplicity_singleton_eq|rewrite multiplicity_singleton_ne by done];
    split; intros; try lia; split; try lia; done.
Qed.

Lemma life_check s h : life_ok s → h ∈ returning s → ∃ s', step (Check h) s = Some (s', []) ∧ life_ok s' ∧
  frames (world s') = if decide (h ∈ done s ∧ h ∈ detached s) then frames (world s) ∖ {[h]} else frames (world s).
Proof.
  intros [H1 H2 Ho H3 H4 Hb H5 H6] Hh. pose proof (Hb h Hh) as Hf. simpl. rewrite decide_True by done.
  pose proof (λ k, elem_of_minus k h _ Ho) as Hin.
  assert (Hmono : ∀ k, multiplicity k (returning s ∖ {[+ h +]}) ≤ 1).
  { intros k. rewrite multiplicity_difference. specialize (Ho k). lia. }
  assert (Hsame : h ∉ done s ∨ h ∉ detached s → life_ok (set_returning (returning s ∖ {[+ h +]}) s)).
  { intros Hhd. split; simpl; try done.
    - intros k. destruct (H3 k) as [Ha Hb']. split; [done|]. intros Hk. destruct (Hb' Hk). rewrite Hin. tauto.
    - intros k [Hk _]%Hin. auto.
    - intros k Hk Hfk. destruct (H5 k Hk Hfk) as [? Hret]. split; [done|]. intros Hdk. rewrite Hin. split; [auto|].
      intros ->. tauto. }
  unfold exec_task_check. simpl. rewrite decide_True by done. case_decide as Hd.
  2: { eexists. split; [done|]. split; [apply Hsame; tauto|]. simpl. rewrite decide_False by tauto. done. }
  unfold clean. simpl. case_decide as Hdet.
  2: { eexists. split; [done|]. split; [apply Hsame; tauto|]. simpl. rewrite decide_False by tauto. done. }
  unfold destroy_frame. simpl. rewrite decide_True by done. eexists. split; [done|]. simpl. rewrite decide_True by done.
  split; [|done]. destruct H1 as [Hl Ho' Ha Hlo Hn]. destruct (H5 h Hdet Hf) as [Hloose _]. split; simpl; try done.
  - split; simpl; try done.
    + intros x k Hx. destruct (Hl _ _ Hx). set_solver.
    + intros k Hk. destruct (Ha k) as [|[y Hy]]; [set_solver|left; set_solver|right; by exists y].
    + set_solver.
    + intros k Hk. apply Hn. set_solver.
  - intros k. destruct (H3 k) as [Ha' Hb']. split; [done|]. intros Hk. destruct (Hb' Hk). rewrite Hin. tauto.
  - intros k Hk. destruct (H4 k Hk). assert (k ≠ h) by congruence. set_solver.
  - intros k [Hk Hne]%Hin. specialize (Hb k Hk). set_solver.
  - intros k Hk Hfk. destruct (H5 k Hk) as [? Hret]; [set_solver|]. split; [set_solver|].
    intros Hdk. rewrite Hin. split; [auto|set_solver].
Qed.

Lemma not_done_handle x s h : not_done x s = true → handle x s = Some h → h ∉ done s.
Proof. unfold not_done. intros Hn Hh. rewrite Hh in Hn. by apply bool_decide_eq_true in Hn. Qed.

Lemma handle_alive x s h : life_ok s → handle x s = Some h → h ∈ frames (world s).
Proof.
  unfold handle. intros Hok Hh. destruct (tasks (world s) !! x) as [c|] eqn:Hc; simplify_eq/=.
  by destruct (o_live _ (f_owned _ Hok) x h Hc).
Qed.

(** An engine takes a handle out of its queue. *)
Lemma life_exec s h : life_ok s → h ∈ queued s → h ∉ returning s → ∃ s', step (ExecOne h) s = Some (s', []) ∧ life_ok s' ∧
  h ∈ running s' ∧ world s' = world s ∧ detached s' = detached s.
Proof.
  intros Hok Hq Hre. destruct (f_alive _ Hok h) as [Hf Hd]; [by left|]. destruct (f_apart _ Hok h) as [Ha _].
  destruct (Ha Hq) as [Hsu Hr]. set (s1 := set_queued (filter (λ k, k ≠ h) (queued s)) s).
  assert (Hok1 : life_ok s1).
  { assert (s1 = set_queued (filter (λ k, k ≠ h) (queued s)) (set_suspended (suspended s) s)) as -> by by destruct s.
    apply life_out; [done|apply sublist_submseteq, sublist_filter|done]. }
  assert (Hu : in_use h s1 = false).
  { apply not_in_use. split_and!; [|done..]. by intros [? _]%list_elem_of_filter. }
  cbn [step]. rewrite decide_True by done. fold s1. pose proof (resume_ok h s1 Hf Hd Hr) as Hres. rewrite Hres.
  eexists. split; [done|]. split; [by eapply life_resume|]. split; [simpl; set_solver|done].
Qed.

Lemma life_wake s h q s' bs : life_ok s → careful (Wake h q) s = true → step (Wake h q) s = Some (s', bs) → life_ok s'.
Proof.
  intros Hok Hc Hs. simpl in Hs. case_decide as Hsu; [|done]. set (s1 := set_suspended (suspended s ∖ {[h]}) s) in *.
  assert (Hok1 : life_ok s1).
  { assert (s1 = set_queued (queued s) (set_suspended (suspended s ∖ {[h]}) s)) as -> by by destruct s.
    apply life_out; [done..|set_solver]. }
  destruct (f_alive _ Hok h) as [Hf Hd]; [tauto|]. destruct (f_apart _ Hok h) as [Ha Hb].
  assert (Hq : h ∉ queued s) by (intros Hq; by destruct (Ha Hq)).
  assert (Hr : h ∉ running s) by (intros Hr; by destruct (Hb Hr)).
  destruct (submit h q s1) as [s2|] eqn:Hsub; [|done]. injection Hs as <- <-.
  unfold submit in Hsub. simpl in Hc. destruct (room q); simpl in Hc.
  - injection Hsub as <-. destruct Hok1 as [H1 H2 Ho H3 H4 Hb' H5 H6]. split; simpl in *; try done.
    + by apply NoDup_snoc.
    + intros k. destruct (H3 k) as [Ha1 Hb1]. split; [|done].
      intros [Hk| ->%list_elem_of_singleton]%elem_of_app; [by apply Ha1|set_solver].
    + intros k [[Hk| ->%list_elem_of_singleton]%elem_of_app|Hk]; [apply H4; tauto|done|apply H4; tauto].
  - apply bool_decide_eq_true in Hc. assert (Hu : in_use h s1 = false) by (apply not_in_use; simpl; set_solver).
    destruct (is_in_working_state q); [|by injection Hsub as <-].
    destruct (too_deep q); [by injection Hsub as <-|by eapply life_resume].
Qed.

Lemma life_step l s s' bs : life_ok s → careful l s = true → step l s = Some (s', bs) → life_ok s'.
Proof.
  intros Hok Hc Hs. destruct l as [o|x q|x q|h q|h q|h|h|h|h].
  - destruct o as [x|x|y x|x y|x|x|x|x]; unfold step in Hs; lazymatch type of Hs with
      | context [detach] => idtac
      | context [apply ?o (world s)] => destruct (apply o (world s)) as [[w bs']|] eqn:Ha; [|done];
          injection Hs as <- <-; exact (life_own s o w bs' Hok Hc Ha)
      end.
    destruct (detach x s) as [s1|] eqn:Hd; [|done]. injection Hs as <- <-.
    eapply life_detach; [exact Hok| |exact Hd]. intros h. by apply not_done_handle.
  - simpl in Hc. apply andb_true_iff in Hc as [Hu Hn]. simpl in Hs. unfold submit_move in Hs.
    destruct (handle x s) as [h|] eqn:Hx; [|done]. destruct (detach x s) as [s1|] eqn:Hd; [|done]. simpl in Hs.
    destruct (life_detach s x s1 Hok) as (Hok1 & Hq & Hsu & Hru & Hre & Hdo & Hf); [intros k; by apply not_done_handle|done|].
    destruct (submit h q s1) as [s2|] eqn:Hsub; [|done]. injection Hs as <- <-.
    apply (life_submit s1 h q s2); [done| |rewrite Hf; by eapply handle_alive|rewrite Hdo; by eapply not_done_handle|done].
    unfold unused in Hu. rewrite Hx in Hu. unfold in_use. rewrite Hq, Hsu, Hru, Hre. by apply negb_true_iff in Hu.
  - simpl in Hc. apply andb_true_iff in Hc as [Hu Hn]. simpl in Hs. unfold submit_ref in Hs.
    destruct (handle x s) as [h|] eqn:Hx; [|done]. simpl in Hs. destruct (submit h q s) as [s2|] eqn:Hsub; [|done].
    injection Hs as <- <-. apply (life_submit s h q s2); [done| |by eapply handle_alive|by eapply not_done_handle|done].
    unfold unused in Hu. rewrite Hx in Hu. by apply negb_true_iff in Hu.
  - simpl in Hc, Hs. apply andb_true_iff in Hc as [Hu [Hf Hd]%bool_decide_eq_true].
    destruct (submit h q s) as [s2|] eqn:Hsub; [|done]. injection Hs as <- <-.
    apply (life_submit s h q s2); try done. by apply negb_true_iff in Hu.
  - by eapply life_wake.
  - simpl in Hc. apply bool_decide_eq_true in Hc.
    destruct (decide (h ∈ queued s)) as [Hq|Hq]; [|simpl in Hs; by rewrite decide_False in Hs].
    destruct (life_exec s h Hok Hq Hc) as (s1 & Hs1 & Hok1 & _). rewrite Hs1 in Hs. by injection Hs as <- <-.
  - simpl in Hs. destruct (give_back h false s) as [s1|] eqn:Hg; [|done]. injection Hs as <- <-. by eapply life_give_back.
  - simpl in Hs. destruct (give_back h true s) as [s1|] eqn:Hg; [|done]. injection Hs as <- <-. by eapply life_give_back.
  - destruct (decide (h ∈ returning s)) as [Hr|Hr]; [|simpl in Hs; by rewrite decide_False in Hs].
    destruct (life_check s h Hok Hr) as (s1 & Hs1 & Hok1 & _). rewrite Hs1 in Hs. by injection Hs as <- <-.
Qed.

Lemma life_reach s tr : reach (restrict careful life_machine) s tr → life_ok s.
Proof.
  intros Hr. revert s tr Hr. apply reach_inv.
  - intros s ->. split; simpl; try set_solver; [|constructor|multiset_solver..]. split; simpl; set_solver.
  - intros s l s' es Hok Hs. apply restrict_step in Hs as [Hc Hs]. by eapply life_step.
Qed.

(** The whole [exec_task] of a queued coroutine. *)
Lemma life_whole s h fin : life_ok s → h ∈ queued s → h ∉ returning s → ∃ s',
  exec life_machine [ExecOne h; if fin : bool then Finish h else Suspend h; Check h] s = Some (s', []) ∧ life_ok s' ∧
  (fin = true → h ∈ detached s → h ∉ frames (world s')).
Proof.
  intros Hok Hq Hre. destruct (life_exec s h Hok Hq Hre) as (s1 & Hs1 & Hok1 & Hr & Hw & Hdt).
  destruct (give_back h fin s1) as [s2|] eqn:Hg; [|unfold give_back in Hg; by rewrite decide_True in Hg].
  pose proof (life_give_back s1 h fin s2 Hok1 Hg) as Hok2.
  assert (Hr2 : h ∈ returning s2 ∧ (fin = true → h ∈ done s2) ∧ detached s2 = detached s1).
  { unfold give_back in Hg. rewrite decide_True in Hg by done. injection Hg as <-. simpl.
    split; [multiset_solver|]. split; [intros ->; set_solver|done]. }
  destruct Hr2 as (Hr2 & Hd2 & Hdt2). destruct (life_check s2 h Hok2 Hr2) as (s3 & Hs3 & Hok3 & Hf).
  assert (Hs2 : step (if fin then Finish h else Suspend h) s1 = Some (s2, [])) by (by destruct fin; simpl; rewrite Hg).
  exists s3. split; [|split; [done|]].
  - cbn [exec m_step life_machine]. by rewrite Hs1, Hs2, Hs3.
  - intros -> Hd. rewrite Hf, decide_True by (rewrite Hdt2, Hdt; auto). set_solver.
Qed.

(** ** A coroutine that nobody holds *)

(** Neither an engine nor a task has the handle [h] of a living frame. *)
Record lost (h : nat) (s : life) : Prop := {
  lost_alive : h ∈ frames (world s) ∧ h < next (world s);
  lost_queues : h ∉ queued s ∧ h ∉ suspended s ∧ h ∉ running s ∧ h ∉ returning s;
  lost_tasks : ∀ x, tasks (world s) !! x ≠ Some (Some h);
}.

Lemma destroy_tasks c w w' : destroy_opt c w = Some w' → tasks w' = tasks w.
Proof. by intros (-> & _)%destroy_frames. Qed.

Lemma apply_tasks o w w' bs x h : apply o w = Some (w', bs) → tasks w' !! x = Some (Some h) →
  h = next w ∨ ∃ y, tasks w !! y = Some (Some h).
Proof.
  intros Ha Hx. destruct o as [y|y|z y|y z|y|y|y|y]; simpl in Ha.
  - case_decide; simplify_eq/=. lookup_cases; eauto.
  - case_decide; simplify_eq/=. lookup_cases; eauto.
  - destruct (tasks w !! y) as [c|] eqn:Hy; [|done]. simpl in Ha. case_decide; simplify_eq/=. lookup_cases; eauto.
  - destruct (tasks w !! y) as [c|] eqn:Hy; [|done]. simpl in Ha. destruct (tasks w !! z) as [d|] eqn:Hz; [|done]. simpl in Ha.
    case_decide; [simplify_eq; eauto|]. destruct (destroy_opt c w) as [w1|] eqn:Hd; simplify_eq/=.
    apply destroy_tasks in Hd. rewrite Hd in Hx. lookup_cases; eauto.
  - destruct (tasks w !! y) as [c|] eqn:Hy; [|done]. simpl in Ha. destruct (destroy_opt c w) as [w1|] eqn:Hd; simplify_eq/=.
    apply destroy_tasks in Hd. rewrite Hd in Hx. lookup_cases; eauto.
  - destruct (tasks w !! y) as [[k|]|] eqn:Hy; simpl in Ha; [|simplify_eq; eauto|done].
    destruct (destroy_frame k w) as [w1|] eqn:Hd; simplify_eq/=.
    apply (destroy_tasks (Some k)) in Hd. rewrite Hd in Hx. lookup_cases; eauto.
  - destruct (tasks w !! y) as [[k|]|] eqn:Hy; simpl in Ha; try done. case_decide; simplify_eq/=. lookup_cases; eauto.
  - destruct (tasks w !! y) as [[k|]|] eqn:Hy; simplify_eq/=; lookup_cases; eauto.
Qed.

Lemma lost_apply h o s w bs : lost h s → apply o (world s) = Some (w, bs) → lost h (set_world w s).
Proof.
  intros [[Hf Hn] Hq Ht] Ha. destruct (apply_frames _ _ _ _ Ha) as (Hnx & _ & Hkeep & _). split; simpl; [|done|].
  - split; [|lia]. apply Hkeep; [done|]. unfold target, handle.
    destruct o as [x|x|y x|x y|x|x|x|x]; try done; specialize (Ht x); by destruct (tasks _ !! x) as [[k|]|]; simpl; congruence.
  - intros x Hx. destruct (apply_tasks _ _ _ _ _ _ Ha Hx) as [->|[y Hy]]; [lia|by apply (Ht y)].
Qed.

Lemma lost_resume h k s s' : lost h s → h ≠ k → resume k s = Some s' → lost h s'.
Proof.
  intros [Hf (Hq & Hsu & Hr & Hre) Ht] Hne Hs. unfold resume in Hs. case_decide; [|done]. injection Hs as <-.
  split; simpl; try done. set_solver.
Qed.

Lemma lost_submit h k q s s' : lost h s → h ≠ k → submit k q s = Some s' → lost h s'.
Proof.
  intros Hl Hne Hs. unfold submit in Hs. destruct (room q).
  - injection Hs as <-. destruct Hl as [Hf (Hq & Hsu) Ht]. split; simpl; try done.
    split; [|done]. by intros [?|?%list_elem_of_singleton]%elem_of_app.
  - destruct (is_in_working_state q); [|by injection Hs as <-].
    destruct (too_deep q); [by injection Hs as <-|by eapply lost_resume].
Qed.

Lemma lost_detach h x s s' : lost h s → detach x s = Some s' → lost h s'.
Proof.
  intros Hl Hs. unfold detach in Hs. destruct (handle x s) as [k|]; [|done].
  destruct (apply (Detach x) (world s)) as [[w bs]|] eqn:Ha; [|done]. injection Hs as <-.
  destruct (lost_apply h _ _ _ _ Hl Ha) as [H1 H2 H3]. by split.
Qed.

Lemma lost_handle h x s k : lost h s → handle x s = Some k → h ≠ k.
Proof. unfold handle. intros Hl Hx <-. apply (lost_tasks _ _ Hl x). by destruct (tasks _ !! x); simplify_eq/=. Qed.

Lemma lost_give_back h k fin s s' : lost h s → give_back k fin s = Some s' → lost h s'.
Proof.
  intros [Hf (Hq & Hsu & Hr & Hre) Ht] Hs. unfold give_back in Hs. case_decide as Hk; [|done]. injection Hs as <-.
  assert (h ≠ k) by congruence. split; simpl; try done. split_and!; [done|destruct fin; set_solver|set_solver|multiset_solver].
Qed.

Lemma lost_check h k s s' : lost h s → h ≠ k → exec_task_check k s = Some s' → lost h s'.
Proof.
  intros [[Hf Hn] Hq Ht] Hne Hs. unfold exec_task_check in Hs. case_decide; [|done].
  case_decide; [|by injection Hs as <-]. unfold clean in Hs. case_decide; [|by injection Hs as <-].
  unfold destroy_frame in Hs. case_decide; [|done]. injection Hs as <-. split; simpl; try done. set_solver.
Qed.

Lemma lost_step h l s s' bs : (∀ q, l ≠ SubmitHandle h q) → lost h s → step l s = Some (s', bs) → lost h s'.
Proof.
  intros Hl Hlost Hs. destruct l as [o|x q|x q|k q|k q|k|k|k|k].
  - destruct o as [x|x|y x|x y|x|x|x|x]; unfold step in Hs; lazymatch type of Hs with
      | context [detach] => idtac
      | context [apply ?o (world s)] => destruct (apply o (world s)) as [[w bs']|] eqn:Ha; [|done];
          injection Hs as <- <-; exact (lost_apply h o s w bs' Hlost Ha)
      end.
    destruct (detach x s) as [s1|] eqn:Hd; [|done]. injection Hs as <- <-. by eapply lost_detach.
  - simpl in Hs. unfold submit_move in Hs. destruct (handle x s) as [k|] eqn:Hx; [|done].
    destruct (detach x s) as [s1|] eqn:Hd; [|done]. simpl in Hs. destruct (submit k q s1) as [s2|] eqn:Hsub; [|done].
    injection Hs as <- <-. eapply lost_submit; [by eapply lost_detach|by eapply lost_handle|done].
  - simpl in Hs. unfold submit_ref in Hs. destruct (handle x s) as [k|] eqn:Hx; [|done]. simpl in Hs.
    destruct (submit k q s) as [s2|] eqn:Hsub; [|done]. injection Hs as <- <-.
    eapply lost_submit; [done|by eapply lost_handle|done].
  - simpl in Hs. destruct (submit k q s) as [s2|] eqn:Hsub; [|done]. injection Hs as <- <-.
    eapply lost_submit; [done| |done]. intros ->. by eapply Hl.
  - simpl in Hs. case_decide as Hk; [|done]. destruct (submit k q _) as [s2|] eqn:Hsub; [|done]. injection Hs as <- <-.
    destruct Hlost as [Hf (Hq & Hsu & Hr) Ht]. eapply (lost_submit h k); [|by intros ->|exact Hsub].
    split; simpl; try done. set_solver.
  - simpl in Hs. case_decide as Hk; [|done]. destruct (resume k _) as [s2|] eqn:Hres; [|done]. injection Hs as <- <-.
    destruct Hlost as [Hf (Hq & Hsu & Hr) Ht]. eapply (lost_resume h k); [|by intros ->|exact Hres].
    split; simpl; try done. split; [|done]. by intros [_ ?]%list_elem_of_filter.
  - simpl in Hs. destruct (give_back k false s) as [s1|] eqn:Hg; [|done]. injection Hs as <- <-. by eapply lost_give_back.
  - simpl in Hs. destruct (give_back k true s) as [s1|] eqn:Hg; [|done]. injection Hs as <- <-. by eapply lost_give_back.
  - simpl in Hs. case_decide as Hk; [|done]. destruct (exec_task_check k _) as [s1|] eqn:He; [|done]. injection Hs as <- <-.
    destruct Hlost as [Hf (Hq & Hsu & Hr & Hre) Ht]. eapply (lost_check h k); [|by intros ->|exact He].
    split; simpl; try done. split_and!; [done..|multiset_solver].
Qed.

(** ** Properties *)

(** C19: submitted coroutines live as long as they are used: in every program
    whose callers are careful, whatever is queued, suspended or running is a
    living coroutine that is not done, so that the engine that takes a handle
    can resume it, and the [exec_task] that has resumed a coroutine still finds
    it there when it asks whether it is done; one that was moved into the
    submission is destroyed by its [exec_task] when it is done, and nothing
    else is; no task object owns it, and once done it is alive only until then. *)
Theorem submitted_coroutines_live s tr : reach (restrict careful life_machine) s tr →
  (∀ h, h ∈ queued s ∨ h ∈ suspended s ∨ h ∈ running s → h ∈ frames (world s) ∧ h ∉ done s) ∧
  (∀ h, h ∈ queued s → h ∉ returning s → (∃ s', step (ExecOne h) s = Some (s', []) ∧ h ∈ running s') ∧
     ∀ fin, ∃ s', exec life_machine [ExecOne h; if fin : bool then Finish h else Suspend h; Check h] s = Some (s', []) ∧
       (fin = true → h ∈ detached s → h ∉ frames (world s'))) ∧
  (∀ h, h ∈ returning s → ∃ s', step (Check h) s = Some (s', []) ∧
     frames (world s') = if decide (h ∈ done s ∧ h ∈ detached s) then frames (world s) ∖ {[h]} else frames (world s)) ∧
  (∀ h, h ∈ detached s → h ∈ frames (world s) →
     (h ∈ done s → h ∈ returning s) ∧ ∀ x, tasks (world s) !! x ≠ Some (Some h)).
Proof.
  intros Hok%life_reach. split; [apply Hok|]. split; [|split].
  - intros h Hq Hre. destruct (life_exec s h Hok Hq Hre) as (s' & Hs & _ & Hr & _). split; [eauto|].
    intros fin. destruct (life_whole s h fin Hok Hq Hre) as (s2 & Hs2 & _ & Hf). eauto.
  - intros h Hre. destruct (life_check s h Hok Hre) as (s' & Hs & _ & Hf). eauto.
  - intros h Hd Hf. destruct (f_detached _ Hok h Hd Hf) as [Hl Hnd]. split; [done|]. intros x Hx.
    by destruct (o_live _ (f_owned _ Hok) _ _ Hx).
Qed.

(** C20: a task that the engine drops is lost: when a submission by move finds
    no room in the queue and cannot run the task itself, either because the
    thread is not a working one or because the recursion is at its limit, the
    frame stays allocated for ever, whatever the program does after (short of
    a caller that kept a copy of the handle); when it can run the task itself,
    it does, and the frame is destroyed at its end. *)
Theorem dropped_task_leaks s tr x h q s1 bs : reach (restrict careful life_machine) s tr →
  handle x s = Some h → careful (SubmitMove x q) s = true → step (SubmitMove x q) s = Some (s1, bs) → room q = false →
  if is_in_working_state q && negb (too_deep q) then
    ∃ s2, exec life_machine [Finish h; Check h] s1 = Some (s2, []) ∧ h ∉ frames (world s2)
  else ∀ ls s2 es, (∀ q, SubmitHandle h q ∉ ls) → exec life_machine ls s1 = Some (s2, es) → h ∈ frames (world s2).
Proof.
  intros Hr Hx Hc Hs Hroom. apply life_reach in Hr as Hok. pose proof (life_step _ _ _ _ Hok Hc Hs) as Hok1.
  simpl in Hc. apply andb_true_iff in Hc as [Hu Hn].
  simpl in Hs. unfold submit_move in Hs. rewrite Hx in Hs. destruct (detach x s) as [s0|] eqn:Hd; [|done]. simpl in Hs.
  destruct (life_detach s x s0 Hok) as (Hok0 & Hq & Hsu & Hru & Hre & _ & Hf); [intros k; by apply not_done_handle|done|].
  assert (Hdh : h ∈ detached s0).
  { unfold detach in Hd. rewrite Hx in Hd. destruct (apply _ _) as [[w b]|]; [|done]. injection Hd as <-. simpl. set_solver. }
  unfold submit in Hs. rewrite Hroom in Hs. pose proof (handle_alive _ _ _ Hok Hx) as Hal.
  unfold unused in Hu. rewrite Hx in Hu. apply negb_true_iff, not_in_use in Hu.
  assert (Hlost : lost h s0).
  { split; rewrite ?Hf, ?Hq, ?Hsu, ?Hru, ?Hre; [|done|].
    - split; [done|]. apply (o_next _ (f_owned _ Hok0)). by rewrite Hf.
    - destruct (f_detached _ Hok0 h Hdh) as [Hl _]; [by rewrite Hf|]. intros y Hy.
      by destruct (o_live _ (f_owned _ Hok0) _ _ Hy). }
  assert (Hleak : s1 = s0 → ∀ ls s2 es, (∀ q, SubmitHandle h q ∉ ls) → exec life_machine ls s1 = Some (s2, es) →
    h ∈ frames (world s2)).
  { intros -> ls s2 es Hls He. clear -Hlost Hls He. revert s0 es Hlost He. induction ls as [|l ls IH]; intros s1 es Hlost He; simpl in He.
    - injection He as <- _. apply Hlost.
    - destruct (step l s1) as [[s3 e1]|] eqn:Hs; [|done]. destruct (exec life_machine ls s3) as [[s4 e2]|] eqn:He2; [|done].
      injection He as <- _. eapply IH; [|eapply lost_step|exact He2]; [|..|exact Hlost|exact Hs].
      + intros q Hin. apply (Hls q). by right.
      + intros q ->. apply (Hls q). by left. }
  destruct (is_in_working_state q); cbn [andb]; [|apply Hleak; by injection Hs as <-]. destruct (too_deep q); cbn [negb].
  { apply Hleak. by injection Hs as <-. }
  destruct (resume h s0) as [s3|] eqn:Hres; [|done]. injection Hs as <- <-.
  assert (Hr1 : h ∈ running s3 ∧ detached s3 = detached s0).
  { unfold resume in Hres. case_decide; [|done]. injection Hres as <-. simpl. split; [set_solver|done]. }
  destruct Hr1 as [Hr1 Hdt]. destruct (give_back h true s3) as [s4|] eqn:Hg; [|unfold give_back in Hg; by rewrite decide_True in Hg].
  pose proof (life_give_back s3 h true s4 Hok1 Hg) as Hok4.
  assert (Hr4 : h ∈ returning s4 ∧ h ∈ done s4 ∧ detached s4 = detached s3).
  { unfold give_back in Hg. rewrite decide_True in Hg by done. injection Hg as <-. simpl. split; [multiset_solver|set_solver]. }
  destruct Hr4 as (Hr4 & Hd4 & Hdt4). destruct (life_check s4 h Hok4 Hr4) as (s5 & Hs5 & _ & Hf5).
  exists s5. split.
  - cbn [exec m_step life_machine]. assert (Hs4 : step (Finish h) s3 = Some (s4, [])) by (simpl; by rewrite Hg). by rewrite Hs4, Hs5.
  - rewrite Hf5, decide_True by (rewrite Hdt4, Hdt; auto). set_solver.
Qed.

(** The queue has room; it is full, outside the working thread; it is full, on
    the working thread. *)
Definition has_room : found := Found true true false.
Definition no_worker : found := Found false false false.
Definition run_here : found := Found false true false.

(** a task submitted by reference stays the caller's: destroyed before
    the engine has come to it, it is resumed after it is freed. *)
Theorem submit_ref_use_after_free : ∃ s,
  exec life_machine [Own (Call 0); SubmitRef 0 has_room; Own (Destructor 0)] life_start = Some (s, []) ∧
  queued s = [0] ∧ step (ExecOne 0) s = None.
Proof. eexists. split; [vm_compute; reflexivity|]. by split. Qed.

(** a coroutine that is woken while the [exec_task] that ran it has not
    asked it yet whether it is done, and that another thread, finding the queue
    full, runs to its end, is destroyed there: [done()] reads a frame that was
    freed. *)
Theorem woken_too_early_use_after_free : ∃ s,
  exec life_machine [Own (Call 0); SubmitMove 0 has_room; ExecOne 0; Suspend 0; Wake 0 run_here; Finish 0; Check 0] life_start = Some (s, []) ∧
  0 ∈ returning s ∧ step (Check 0) s = None.
Proof. eexists. split; [vm_compute; reflexivity|]. split; [by apply (bool_decide_unpack _)|done]. Qed.

(** ** Witnesses *)
Definition life_run : list label :=
  [Own (Call 3); SubmitMove 3 has_room; Own (Call 4); SubmitRef 4 run_here; ExecOne 0; Suspend 0; Check 0; Suspend 1; Wake 0 has_room].
Definition lives := restrict careful life_machine.
Lemma life_run_reach : reach lives (final lives life_run life_start) (trace lives life_run life_start).
Proof. apply exec_reach_final; [done|by vm_compute]. Defined.

Lemma submitted_coroutines_live_witness : ∃ s',
  exec life_machine [ExecOne 0; Finish 0; Check 0] (final lives life_run life_start) = Some (s', []) ∧ 0 ∉ frames (world s').
Proof.
  destruct (submitted_coroutines_live _ _ life_run_reach) as (_ & Hq & _).
  destruct (Hq 0) as [_ Hw]; [by vm_compute; left|by apply (bool_decide_unpack _); vm_compute|].
  destruct (Hw true) as (s' & Hs & Hf). exists s'. split; [exact Hs|]. refine (Hf eq_refl _). by vm_compute.
Defined.

(** Task 0 is dropped, by a thread that is not a worker, and stays allocated;
    a worker would have run it. *)
Lemma dropped_task_leaks_witness : ∃ s1, step (SubmitMove 3 no_worker) (final lives [Own (Call 3)] life_start) = Some (s1, []) ∧
  0 ∈ frames (world s1).
Proof.
  destruct (step (SubmitMove 3 no_worker) (final lives [Own (Call 3)] life_start)) as [[s1 bs]|] eqn:Hs; [|by vm_compute in Hs].
  assert (bs = []) as -> by (by vm_compute in Hs; injection Hs as _ <-).
  exists s1. split; [done|].
  refine (dropped_task_leaks (final lives [Own (Call 3)] life_start) (trace lives [Own (Call 3)] life_start) 3 0 no_worker s1 []
    _ _ _ Hs eq_refl [] s1 [] _ eq_refl);
    [apply exec_reach_final; [done|by vm_compute]|by vm_compute|by vm_compute|by intros ? ?%elem_of_nil].
Defined.
