(* ===== verification/Local.v ===== *)
(** * The thread-local context and engine (meta_info.hpp: linfo; context.hpp:
    local_context, submit_to_context; engine.hpp: local_engine, is_local_engine;
    context.cpp: start, init, deinit)

    Which context code that runs on a thread belongs to. The body of a worker
    sets it around [run]; everything else reads it. *)
From S2P Require Import Prelude.
Local Open Scope Z_scope.
Local Open Scope coro_scope.

(** Contexts are known by numbers, and an engine by that of its context. *)
Record local_info := LocalInfo { ctx : option nat; egn : option nat }.
Definition linfo_new : local_info := LocalInfo None None.

Definition is_in_working_state (linfo : local_info) : bool := bool_decide (is_Some (ctx linfo)).
(** [None] is a null pointer dereferenced. *)
Definition local_context (linfo : local_info) : option nat := ctx linfo.
Definition local_engine (linfo : local_info) : option nat := egn linfo.

Section local.
(** [engine::m_id] *)
Context (m_id : nat → Z).
Definition get_id (e : nat) : Z := m_id e.
Definition is_local_engine (e : nat) (linfo : local_info) : option bool :=
  l ← local_engine linfo; Some (bool_decide (get_id e = get_id l)).

(** The body of a worker's thread. *)
Inductive worker_pc :=
  | SetCtx                            (* context::init: linfo.ctx = this *)
  | SetEgn                            (* engine::init: linfo.egn = this *)
  | Running                           (* run *)
  | ClearCtx                          (* context::deinit: linfo.ctx = nullptr *)
  | Ended.

Record threads := Threads {
  linfo : nat → local_info;           (* by thread *)
  workers : gmap nat (nat * worker_pc);    (* the context of a thread *)
}.

Inductive label :=
  | Start (t c : nat)                 (* context::start: a new thread [t] *)
  | Step (t : nat)
  | SubmitToContext (t : nat).        (* submit_to_context by code on [t] *)
Inductive event :=
  | SubmittedTo (t c : nat).          (* local_context().submit_task *)

Definition set_worker (t : nat) (c : nat) (p : worker_pc) (l : local_info) (s : threads) : threads :=
  Threads (<[t := l]> (linfo s)) (<[t := (c, p)]> (workers s)).

Definition worker_step (t c : nat) (p : worker_pc) (s : threads) : option threads :=
  let l := linfo s t in
  match p with
  | SetCtx => Some (set_worker t c SetEgn (LocalInfo (Some c) (egn l)) s)
  | SetEgn => Some (set_worker t c Running (LocalInfo (ctx l) (Some c)) s)
  | Running => Some (set_worker t c ClearCtx l s)
  | ClearCtx => Some (set_worker t c Ended (LocalInfo None (egn l)) s)
  | Ended => None
  end.

Definition submit_to_context (t : nat) (s : threads) : option (threads * list event) :=
  c ← local_context (linfo s t); Some (s, [SubmittedTo t c]).

Definition step (l : label) (s : threads) : option (threads * list event) :=
  match l with
  | Start t c => if decide (workers s !! t = None) then Some (set_worker t c SetCtx linfo_new s, []) else None
  | Step t => '(c, p) ← workers s !! t; s ← worker_step t c p s; Some (s, [])
  | SubmitToContext t => submit_to_context t s
  end.

Definition local_machine : machine threads label event :=
  Machine (λ s, s = Threads (λ _, linfo_new) ∅) step.

(** What a thread finds. *)
Definition linfo_at (w : option (nat * worker_pc)) : local_info :=
  match w with
  | None | Some (_, SetCtx) => linfo_new
  | Some (c, SetEgn) => LocalInfo (Some c) None
  | Some (c, (Running | ClearCtx)) => LocalInfo (Some c) (Some c)
  | Some (c, Ended) => LocalInfo None (Some c)
  end.

Lemma local_reach s tr : reach local_machine s tr →
  (∀ t, linfo s t = linfo_at (workers s !! t)) ∧
  ∀ t c, SubmittedTo t c ∈ tr → ∃ p, workers s !! t = Some (c, p).
Proof.
  assert (Hset : ∀ t c p l s, (∀ t, linfo s t = linfo_at (workers s !! t)) → l = linfo_at (Some (c, p)) →
    ∀ t', linfo (set_worker t c p l s) t' = linfo_at (workers (set_worker t c p l s) !! t')).
  { intros t c p l s0 H0 Hl t'. simpl. destruct (decide (t = t')) as [<-|Hne].
    - by rewrite fn_lookup_insert, lookup_insert_eq.
    - by rewrite fn_lookup_insert_ne, lookup_insert_ne. }
  intros Hr. revert s tr Hr. apply (reach_inv_tr local_machine
    (λ s tr, (∀ t, linfo s t = linfo_at (workers s !! t)) ∧ ∀ t c, SubmittedTo t c ∈ tr → ∃ p, workers s !! t = Some (c, p))).
  { intros s ->. split; [done|]. by intros t c ?%elem_of_nil. }
  intros s tr l s' es [Hl Ht] Hs. destruct l as [t c|t|t]; simpl in Hs.
  - case_decide as Hn; [|done]. injection Hs as <- <-. rewrite app_nil_r. split; [by apply Hset|].
    intros t' c' Hin. destruct (Ht _ _ Hin) as [p Hp]. exists p. simpl. rewrite lookup_insert_ne; [done|congruence].
  - destruct (workers s !! t) as [[c p]|] eqn:Hw; [|done]. simpl in Hs.
    pose proof (Hl t) as Hlt. rewrite Hw in Hlt.
    assert (Hkeep : ∀ p' l', ∀ t' c', SubmittedTo t' c' ∈ tr → ∃ q, workers (set_worker t c p' l' s) !! t' = Some (c', q)).
    { intros p' l' t' c' Hin. destruct (Ht _ _ Hin) as [q Hq]. simpl. destruct (decide (t = t')) as [<-|Hne].
      - rewrite Hw in Hq. injection Hq as <- _. rewrite lookup_insert_eq. by eexists.
      - rewrite lookup_insert_ne by done. by eexists. }
    destruct p; simpl in Hs; try done; injection Hs as <- <-; rewrite app_nil_r, Hlt; (split; [by apply Hset|apply Hkeep]).
  - unfold submit_to_context, local_context in Hs. destruct (ctx (linfo s t)) as [c|] eqn:Hc; [|done].
    injection Hs as <- <-. split; [done|]. intros t' c' [Hin|Hin%list_elem_of_singleton]%elem_of_app; [by apply Ht|].
    injection Hin as -> ->. rewrite Hl in Hc. destruct (workers s !! t) as [[k p]|]; [|done].
    destruct p; simplify_eq/=; by eexists.
Qed.
End local.

(** ** Properties *)

(** on a worker the local context and engine are its own: from the first
    task of [run] to the last, in every interleaving of the threads,
    [submit_to_context] reaches the worker's own context, and the engine
    recognises itself; a thread that is no worker is not in the working state,
    and there both accessors dereference a null pointer. *)
Theorem worker_local (m_id : nat → Z) s tr t : reach local_machine s tr →
  (∀ c, workers s !! t = Some (c, Running) →
     is_in_working_state (linfo s t) = true ∧ submit_to_context t s = Some (s, [SubmittedTo t c]) ∧
     ∀ e, is_local_engine m_id e (linfo s t) = Some (bool_decide (m_id e = m_id c))) ∧
  (workers s !! t = None →
     is_in_working_state (linfo s t) = false ∧ submit_to_context t s = None ∧
     ∀ e, is_local_engine m_id e (linfo s t) = None) ∧
  ∀ c, SubmittedTo t c ∈ tr → ∃ p, workers s !! t = Some (c, p).
Proof.
  intros [Hl Ht]%local_reach. specialize (Hl t). unfold submit_to_context. split_and!.
  - intros c Hw. rewrite Hl, Hw. done.
  - intros Hw. rewrite Hl, Hw. done.
  - apply Ht.
Qed.

(** [deinit] leaves the engine of the thread behind: it clears [linfo.ctx] only. *)
Lemma deinit_keeps_engine : ∃ s tr, reach local_machine s tr ∧
  is_in_working_state (linfo s 5) = false ∧ local_engine (linfo s 5) = Some 1%nat.
Proof.
  exists (final local_machine ([Start 5 1] ++ replicate 4 (Step 5)) (Threads (λ _, linfo_new) ∅)). eexists.
  split; [apply exec_reach_final; [done|by vm_compute]|by vm_compute].
Qed.

(** ** Witness *)
Definition local_run : list label := [Start 5 1; Start 6 2; Step 5; Step 6; Step 5; Step 6; SubmitToContext 6].
Definition local_start : threads := Threads (λ _, linfo_new) ∅.
Lemma worker_local_witness :
  submit_to_context 5 (final local_machine local_run local_start) =
    Some (final local_machine local_run local_start, [SubmittedTo 5 1]).
Proof.
  destruct (worker_local (λ c, Z.of_nat c) (final local_machine local_run local_start)
    (trace local_machine local_run local_start) 5) as (Hw & _);
    [apply exec_reach_final; [done|by vm_compute]|].
  destruct (Hw 1%nat) as (_ & Hs & _); [by vm_compute|exact Hs].
Defined.
