(* ===== verification/Log.v ===== *)
(** * Logging (include/coro/log.hpp)

    Which messages reach the console and the log file. The sinks and their own
    levels are spdlog's. *)
From S2P Require Import Prelude.
From stdpp Require Import strings.

(** [spdlog::level], in order. *)
Inductive level := trace_level | debug_level | info_level | warn_level | err_level | critical_level | off_level.
Definition severity (l : level) : nat :=
  match l with
  | trace_level => 0 | debug_level => 1 | info_level => 2 | warn_level => 3
  | err_level => 4 | critical_level => 5 | off_level => 6
  end.
Definition at_least (l m : level) : bool := bool_decide (severity m <= severity l).

(** A message given to the logger of the file or to spdlog's default one. *)
Inductive sink := FileSink | Console.
Record message := Message { to : sink; msg_level : level; text : string }.

Section log.
(** [LOG_LEVEL], [LOGTOFILE] *)
Context (LOG_LEVEL : level) (LOGTOFILE : bool).

(** The bodies of the six functions: [if constexpr], [#ifdef LOGTOFILE]. *)
Definition log (l : level) (fmt : string) : list message :=
  if at_least l LOG_LEVEL then
    (if LOGTOFILE then [Message FileSink l fmt] else []) ++ [Message Console l fmt]
  else [].

Definition trace (fmt : string) : list message := log trace_level fmt.
Definition debug (fmt : string) : list message := log debug_level fmt.
Definition info (fmt : string) : list message := log info_level fmt.
Definition warn (fmt : string) : list message := log warn_level fmt.
Definition error (fmt : string) : list message := log err_level fmt.
Definition critical (fmt : string) : list message := log critical_level fmt.

(** [logger()] sets the level of the file's logger; that of spdlog's default
    logger, [default_level], is left as it is. *)
Definition logger_level (default_level : level) (s : sink) : level :=
  match s with FileSink => LOG_LEVEL | Console => default_level end.

(** What a logger writes, of what it is given. *)
Definition written (default_level : level) (s : sink) (ms : list message) : list string :=
  omap (λ m, if bool_decide (severity (logger_level default_level s) <= severity (msg_level m)) then
               match s, to m with
               | FileSink, FileSink | Console, Console => Some (text m)
               | _, _ => None
               end
             else None) ms.
End log.

(** what is logged where: a message is in the file exactly when there is
    one and its level is at least [LOG_LEVEL], and on the console exactly when
    it is also at least the level of spdlog's default logger, which nothing
    sets. *)
Theorem log_written LOG_LEVEL LOGTOFILE default_level l fmt :
  written LOG_LEVEL default_level FileSink (log LOG_LEVEL LOGTOFILE l fmt) =
    (if LOGTOFILE && bool_decide (severity LOG_LEVEL <= severity l) then [fmt] else []) ∧
  written LOG_LEVEL default_level Console (log LOG_LEVEL LOGTOFILE l fmt) =
    (if bool_decide (severity LOG_LEVEL `max` severity default_level <= severity l) then [fmt] else []).
Proof.
  unfold log, at_least, written. case_bool_decide as Hl.
  - split.
    + destruct LOGTOFILE; cbn; repeat case_bool_decide; done.
    + rewrite omap_app. destruct LOGTOFILE; cbn; repeat case_bool_decide; try done; lia.
  - split; [by rewrite andb_false_r|]. simpl. case_bool_decide; [lia|done].
Qed.

(** With [LOG_LEVEL] at debug, a debug message is not on the console: spdlog's
    default level is info. *)
Lemma debug_not_on_console fmt : written debug_level info_level Console (debug debug_level true fmt) = [].
Proof. done. Qed.
