(* ===== verification/ThreadPool.v ===== *)
(** * thread_pool (benchtests/bench_helper.hpp)

    The pool of threads that the benchmarks compare with: a queue per thread,
    filled in turns before [start], and emptied by its thread alone. *)
From S2P Require Import Prelude.
Local Open Scope coro_scope.

Section pool.
Context {T : Type}.

Record thread_pool := ThreadPool {
  m_thread_num : nat;
  m_cur_pos : nat;
  m_ques : list (list T);
}.

Definition thread_pool_new (thread_num : nat) : thread_pool := ThreadPool thread_num 0 (replicate thread_num []).

(** [None] is an access outside of [m_ques]. *)
Definition submit_task (task : T) (p : thread_pool) : option thread_pool :=
  q ← m_ques p !! m_cur_pos p;
  Some (ThreadPool (m_thread_num p) ((m_cur_pos p + 1) mod m_thread_num p) (<[m_cur_pos p := q ++ [task]]> (m_ques p))).

Fixpoint submit_all (ts : list T) (p : thread_pool) : option thread_pool :=
  match ts with [] => Some p | t :: ts => p ← submit_task t p; submit_all ts p end.

(** A round of the loop of [run(id)]: [front], [pop], [task()]. *)
Definition run (id : nat) (p : thread_pool) : option (thread_pool * list (nat * T)) :=
  q ← m_ques p !! id;
  match q with
  | [] => None                        (* the thread is over *)
  | task :: q => Some (ThreadPool (m_thread_num p) (m_cur_pos p) (<[id := q]> (m_ques p)), [(id, task)])
  end.

(** After [start], the threads run side by side; [join] waits until they are
    all over. *)
Definition pool_machine (p0 : thread_pool) : machine thread_pool nat (nat * T) := Machine (λ p, p = p0) run.
Definition joined (p : thread_pool) : Prop := ∀ id q, m_ques p !! id = Some q → q = [].

(** The tasks that thread [id] has run. *)
Definition ran_by (id : nat) (tr : list (nat * T)) : list T :=
  omap (λ e, if decide (e.1 = id) then Some e.2 else None) tr.

(** Every [n]th task, from the [id]th on. *)
Definition share (n id : nat) (ts : list T) : list T :=
  omap (λ '(k, t), if decide (k mod n = id) then Some t else None) (imap pair ts).

Lemma share_snoc n id ts t : share n id (ts ++ [t]) = share n id ts ++ (if decide (length ts mod n = id) then [t] else []).
Proof.
  unfold share. rewrite imap_app, omap_app. simpl. rewrite Nat.add_0_r. by case_decide.
Qed.

(** The pool after the submissions [ts]. *)
Record filled (n : nat) (ts : list T) (p : thread_pool) : Prop := {
  fi_num : m_thread_num p = n ∧ length (m_ques p) = n;
  fi_pos : m_cur_pos p = length ts mod n;
  fi_ques : ∀ id, (id < n)%nat → m_ques p !! id = Some (share n id ts);
}.

Lemma filled_new n : (0 < n)%nat → filled n [] (thread_pool_new n).
Proof.
  intros Hn. split; simpl.
  - by rewrite length_replicate.
  - by rewrite Nat.mod_small.
  - intros id Hid. by apply lookup_replicate.
Qed.

Lemma filled_submit n ts t p : (0 < n)%nat → filled n ts p → ∃ p', submit_task t p = Some p' ∧ filled n (ts ++ [t]) p'.
Proof.
  intros Hn [[Hnum Hlen] Hpos Hq]. assert (Hlt : (m_cur_pos p < n)%nat) by (rewrite Hpos; apply Nat.mod_upper_bound; lia).
  unfold submit_task. rewrite (Hq _ Hlt). simpl. eexists. split; [done|]. split; simpl.
  - by rewrite length_insert.
  - rewrite Hnum, Hpos, length_app. simpl. by rewrite Nat.Div0.add_mod_idemp_l.
  - intros id Hid. rewrite share_snoc. destruct (decide (id = m_cur_pos p)) as [->|Hne].
    + rewrite list_lookup_insert_eq by lia. by rewrite decide_True by done.
    + rewrite list_lookup_insert_ne by done. rewrite decide_False by congruence. by rewrite app_nil_r, Hq.
Qed.

Lemma filled_all n ts : (0 < n)%nat → ∀ ts0 p, filled n ts0 p → ∃ p', submit_all ts p = Some p' ∧ filled n (ts0 ++ ts) p'.
Proof.
  intros Hn. induction ts as [|t ts IH]; intros ts0 p Hp; simpl; [exists p; by rewrite app_nil_r|].
  destruct (filled_submit n ts0 t p Hn Hp) as (p1 & -> & Hp1). simpl.
  destruct (IH _ _ Hp1) as (p' & -> & Hp'). exists p'. by rewrite <- app_assoc in Hp'.
Qed.

(** What a thread has run and what is left of its queue. *)
Lemma pool_reach p0 p tr : reach (pool_machine p0) p tr →
  length (m_ques p) = length (m_ques p0) ∧
  ∀ id q0, m_ques p0 !! id = Some q0 → ∃ q, m_ques p !! id = Some q ∧ q0 = ran_by id tr ++ q.
Proof.
  intros Hr. revert p tr Hr. apply (reach_inv_tr (pool_machine p0) (λ p tr, length (m_ques p) = length (m_ques p0) ∧
    ∀ id q0, m_ques p0 !! id = Some q0 → ∃ q, m_ques p !! id = Some q ∧ q0 = ran_by id tr ++ q)).
  { intros p Hp. simpl in Hp. subst p. split; [done|]. intros id q0 H0. by exists q0. }
  intros p tr k p' es [Hlen Hq] Hs. simpl in Hs. unfold run in Hs.
  destruct (m_ques p !! k) as [[|t q]|] eqn:Hk; simplify_eq/=. split; [by rewrite length_insert|].
  intros id q0 H0. destruct (Hq id q0 H0) as (q1 & H1 & ->). unfold ran_by. rewrite omap_app. simpl.
  destruct (decide (k = id)) as [->|Hne].
  - assert (q1 = t :: q) as -> by congruence. exists q. rewrite list_lookup_insert_eq by (by eapply lookup_lt_Some).
    split; [done|]. by rewrite <- app_assoc.
  - exists q1. rewrite list_lookup_insert_ne by done. split; [done|]. by rewrite app_nil_r.
Qed.
End pool.
Arguments thread_pool : clear implicits.

(** the pool runs every task once: with at least one thread, any tasks can
    be submitted; thread [i] then runs, in order, a prefix of every [n]th task
    from the [i]th on, whatever the other threads do, and when [join] returns
    it has run all of those. *)
Theorem thread_pool_runs {T} n (ts : list T) : (0 < n)%nat →
  ∃ p0, submit_all ts (thread_pool_new n) = Some p0 ∧
  ∀ p tr id, reach (pool_machine p0) p tr → (id < n)%nat →
    (∃ q, m_ques p !! id = Some q ∧ share n id ts = ran_by id tr ++ q) ∧
    (joined p → ran_by id tr = share n id ts) ∧
    (¬ joined p → ∃ k, is_Some (run k p)).
Proof.
  intros Hn. destruct (filled_all n ts Hn [] _ (filled_new n Hn)) as (p0 & Hp0 & [[Hnum Hlen] _ Hq]).
  exists p0. split; [done|]. intros p tr id Hr Hid. destruct (pool_reach _ _ _ Hr) as [Hl Hran].
  destruct (Hran id _ (Hq id Hid)) as (q & Hqi & Heq). split_and!.
  - by exists q.
  - intros Hj. rewrite (Hj _ _ Hqi), app_nil_r in Heq. done.
  - intros Hnj. destruct (decide (Exists (λ q, q ≠ []) (m_ques p))) as [He|He].
    + apply Exists_exists in He as (q1 & (k & Hk)%list_elem_of_lookup & Hne). exists k. unfold run. rewrite Hk. by destruct q1.
    + destruct Hnj. intros k q1 Hk. apply not_Exists_Forall in He; [|intros l; destruct l; [right|left]; naive_solver].
      pose proof (Forall_lookup_1 _ _ _ _ He Hk) as Hd. simpl in Hd. by destruct (decide (q1 = [])) as [|Hx]; [|destruct (Hd Hx)].
Qed.

(** Without threads ([hardware_concurrency()] may be 0) the first submission is
    an access outside of the vector. *)
Lemma empty_pool_faults {T} (t : T) : submit_task t (thread_pool_new 0) = None.
Proof. done. Qed.

(** Five tasks for two threads. *)
Lemma thread_pool_runs_witness : ∃ p0, submit_all [1; 2; 3; 4; 5]%nat (thread_pool_new 2) = Some p0 ∧
  ∃ q, m_ques (final (pool_machine p0) [1; 0; 1] p0)%nat !! 0%nat = Some q ∧ [1; 3; 5]%nat = [1]%nat ++ q.
Proof.
  destruct (thread_pool_runs 2 [1; 2; 3; 4; 5]%nat ltac:(lia)) as (p0 & Hp0 & Hrun).
  exists p0. split; [exact Hp0|].
  assert (p0 = ThreadPool 2 1 [[1; 3; 5]; [2; 4]]%nat) as -> by (by vm_compute in Hp0; injection Hp0 as <-).
  destruct (Hrun (final (pool_machine (ThreadPool 2 1 [[1; 3; 5]; [2; 4]])) [1; 0; 1] (ThreadPool 2 1 [[1; 3; 5]; [2; 4]]))%nat
    (trace (pool_machine (ThreadPool 2 1 [[1; 3; 5]; [2; 4]])) [1; 0; 1] (ThreadPool 2 1 [[1; 3; 5]; [2; 4]]))%nat 0%nat)
    as ((q & Hq & Hs) & _); [apply exec_reach_final; [done|by vm_compute]|lia|].
  exists q. split; [exact Hq|]. exact Hs.
Defined.
