(* ===== verification/Gate.v ===== *)
(** * Gates, and the benchmarks that use them (benchtests/)

    What an event, a latch, a wait group, std::latch and std::promise have in
    common: coroutines wait until the gate has been opened a number of times.
    [Gate] is that interface, with the laws of safety ([GateLaws]) and of
    liveness ([GateLive]). Against it, the programs of event_bench.cpp,
    latch_bench.cpp and waitgroup_bench.cpp: coroutines that count and open the
    gate, and coroutines that wait at it and then count; first as automata of
    two stages, on which the proofs are done, then as the programs of the code,
    which follow them. The implementations are in [StdGate.v], [EventBench.v],
    [LatchBench.v] and [GroupBench.v]. *)
From S2P Require Import Prelude WaitList.
Local Open Scope Z_scope.
Local Open Scope coro_scope.

(** Where a coroutine is: in no call, in one that opens, in [wait] and able to
    go on, or suspended there. *)
Inductive status := Idle | Opens | Waits | Asleep.
#[export] Instance status_eq_dec : EqDecision status.
Proof. solve_decision. Defined.

Class Gate (S L E : Type) := {
  at_gate : S → nat → status;
  g_wait : nat → ptr → nat → L;       (* wait(), the awaiter at an address, on a context *)
  g_open : nat → L;                   (* set(), count_down(), done() *)
  g_step : nat → bool → L;            (* a step of the call of a coroutine *)
  opens : E → bool;
}.

Section gate.
Context {S L E : Type} `{!Gate S L E} (M : machine S L E).

(** How often the gate was opened. *)
Definition opened (es : list E) : nat := length (filter (λ e, opens e = true) es).

Lemma opened_app es1 es2 : opened (es1 ++ es2) = (opened es1 + opened es2)%nat.
Proof. unfold opened. by rewrite filter_app, length_app. Qed.

(** The others stay where they are, or are woken. *)
Definition others (t : nat) (s s' : S) : Prop :=
  ∀ u, u ≠ t → at_gate s' u = at_gate s u ∨ (at_gate s u = Asleep ∧ at_gate s' u = Waits).

(** Nobody gets through before the gate was opened [count] times. *)
Class GateLaws (count : nat) : Prop := {
  gl_init s t : m_init M s → at_gate s t = Idle;
  gl_wait s tr t a c s' es : reach M s tr → m_step M (g_wait t a c) s = Some (s', es) →
    (at_gate s' t = Waits ∨ at_gate s' t = Asleep) ∧ others t s s' ∧ opened es = 0%nat;
  gl_open s tr t s' es : reach M s tr → m_step M (g_open t) s = Some (s', es) →
    (at_gate s' t = Opens ∨ at_gate s' t = Idle) ∧ others t s s' ∧ opened es = 1%nat;
  gl_step s tr t sp s' es : reach M s tr → m_step M (g_step t sp) s = Some (s', es) →
    match at_gate s t with
    | Opens => at_gate s' t = Opens ∨ at_gate s' t = Idle
    | Waits => at_gate s' t = Waits ∨ at_gate s' t = Asleep ∨ (at_gate s' t = Idle ∧ count ≤ opened tr)%nat
    | Idle | Asleep => False
    end ∧ others t s s' ∧ opened es = 0%nat;
  gl_can_wait s tr t c : reach M s tr → at_gate s t = Idle → ∃ a, is_Some (m_step M (g_wait t a c) s);
  gl_can_open s tr t : reach M s tr → at_gate s t = Idle → (opened tr < count)%nat → is_Some (m_step M (g_open t) s);
}.

(** A call run alone comes to its end, one of [wait] when nobody is opening;
    and nobody is left asleep at an open gate. *)
Class GateLive (count : nat) : Prop := {
  gl_run s tr t : reach M s tr → at_gate s t = Opens ∨ at_gate s t = Waits ∧ (∀ u, at_gate s u ≠ Opens) →
    ∃ n s' es, exec M (replicate n (g_step t false)) s = Some (s', es) ∧
      (at_gate s' t = Idle ∨ at_gate s' t = Asleep) ∧
      (at_gate s t = Waits → ∀ u, u ≠ t → at_gate s' u = at_gate s u);
  gl_awake s tr t : reach M s tr → opened tr = count → (∀ u, at_gate s u ≠ Opens) → at_gate s t ≠ Asleep;
}.

Lemma others_trans t s1 s2 s3 : others t s1 s2 → others t s2 s3 → others t s1 s3.
Proof. intros H1 H2 u Hu. specialize (H1 u Hu). specialize (H2 u Hu). intuition congruence. Qed.

Lemma run_others count `{!GateLaws count} n t : ∀ s tr s' es, reach M s tr →
  exec M (replicate n (g_step t false)) s = Some (s', es) → others t s s'.
Proof.
  induction n as [|n IH]; intros s tr s' es Hr He; simpl in He; [by simplify_eq; left|].
  destruct (m_step M (g_step t false) s) as [[s1 e1]|] eqn:Hs; [|done].
  destruct (exec M _ s1) as [[s2 e2]|] eqn:He2; [|done]. simplify_eq.
  destruct (gl_step s tr t false s1 e1 Hr Hs) as (_ & Ho & _). eapply others_trans; [done|].
  eapply IH; [|done]. by econstructor.
Qed.
End gate.

(** ** The benchmarks *)

(** [loop_add] of bench_helper.hpp: [size_t cnt{0}; for (int i = 0; i < loop_num; i++) cnt += 1;] *)
Fixpoint rounds (i : nat) : Z := match i with O => 0 | S i => u64 (rounds i + 1) end.
Definition loop_add (loop_num : Z) : Z := rounds (Z.to_nat loop_num).

Lemma loop_add_eq loop_num : 0 <= loop_num < 2 ^ 31 → loop_add loop_num = loop_num.
Proof.
  intros Hn. unfold loop_add. assert (H : ∀ k, Z.of_nat k < 2 ^ 31 → rounds k = Z.of_nat k); [|rewrite H; lia].
  induction k as [|k IH]; intros Hk; [done|]. cbn [rounds]. rewrite IH by lia. rewrite uw_small by lia. lia.
Qed.

(** [countdown], [set], [done]: count, then open; [wait]: wait, then count. *)
Inductive kind := Opener | Waiter.
Inductive stage := Start | Middle | Over.
Inductive action := LoopAdd | Open | Await.
Definition code (k : kind) : list action := match k with Opener => [LoopAdd; Open] | Waiter => [Await; LoopAdd] end.

#[export] Instance kind_eq_dec : EqDecision kind.
Proof. solve_decision. Defined.
#[export] Instance stage_eq_dec : EqDecision stage.
Proof. solve_decision. Defined.

Section bench.
Context {S L E : Type} `{!Gate S L E} (M : machine S L E).
Context (ctx_of : nat → nat) (loop_num : Z).

Record bench := Bench {
  gate : S;
  clients : list (kind * stage);      (* in the order in which they are submitted *)
}.

Inductive bench_label :=
  | Move (t : nat) (a : ptr)          (* [t], in no call, goes on; its awaiter would be at [a] *)
  | Inner (t : nat) (spurious : bool). (* the call of [t] goes on *)

Inductive bench_event :=
  | Added (t : nat) (cnt : Z)
  | OfGate (e : E).

Definition put (t : nat) (c : kind) (g : stage) (s : bench) : bench :=
  Bench (gate s) (<[t := (c, g)]> (clients s)).
Definition call (l : L) (s : bench) : option (bench * list bench_event) :=
  match m_step M l (gate s) with
  | Some (g, es) => Some (Bench g (clients s), OfGate <$> es)
  | None => None
  end.

Definition client (t : nat) (a : ptr) (c : kind) (g : stage) (s : bench) : option (bench * list bench_event) :=
  match c, g with
  | Opener, Start => Some (put t c Middle s, [Added t (loop_add loop_num)])
  | Opener, Middle => call (g_open t) (put t c Over s)
  | Waiter, Start => call (g_wait t a (ctx_of t)) (put t c Middle s)
  | Waiter, Middle => Some (put t c Over s, [Added t (loop_add loop_num)])
  | _, Over => None
  end.

Definition bench_step (l : bench_label) (s : bench) : option (bench * list bench_event) :=
  match l with
  | Move t a =>
      '(c, g) ← clients s !! t;
      if decide (at_gate (gate s) t = Idle) then client t a c g s else None
  | Inner t sp => call (g_step t sp) s
  end.

Definition bench_machine (ks : list kind) : machine bench bench_label bench_event :=
  Machine (λ s, m_init M (gate s) ∧ clients s = (λ c, (c, Start)) <$> ks) bench_step.

(** *** What they have done *)
Definition gate_trace (tr : list bench_event) : list E := omap (λ e, match e with OfGate e => Some e | _ => None end) tr.
Definition added (t : nat) (tr : list bench_event) : list Z :=
  omap (λ e, match e with Added u n => if decide (u = t) then Some n else None | _ => None end) tr.

Lemma gate_trace_app t1 t2 : gate_trace (t1 ++ t2) = gate_trace t1 ++ gate_trace t2.
Proof. apply omap_app. Qed.
Lemma gate_trace_of es : gate_trace (OfGate <$> es) = es.
Proof. unfold gate_trace. induction es as [|e es IH]; csimpl; by rewrite ?IH. Qed.
Lemma added_app t t1 t2 : added t (t1 ++ t2) = added t t1 ++ added t t2.
Proof. apply omap_app. Qed.
Lemma added_of t es : added t (OfGate <$> es) = [].
Proof. unfold added. induction es as [|e es IH]; csimpl; by rewrite ?IH. Qed.

Definition finished (s : bench) : Prop :=
  ∀ t c g, clients s !! t = Some (c, g) → g = Over ∧ at_gate (gate s) t = Idle.

(** *** As the code is written

    The benchmarks' functions are programs of three actions; each goes through
    its stages as above. *)
Record runs := Runs {
  run_gate : S;
  rest : list (list action);          (* what is left of each *)
}.

Definition run_call (l : L) (s : runs) : option (runs * list bench_event) :=
  match m_step M l (run_gate s) with
  | Some (g, es) => Some (Runs g (rest s), OfGate <$> es)
  | None => None
  end.

Definition act (t : nat) (a : ptr) (x : action) (s : runs) : option (runs * list bench_event) :=
  match x with
  | LoopAdd => Some (s, [Added t (loop_add loop_num)])
  | Open => run_call (g_open t) s
  | Await => run_call (g_wait t a (ctx_of t)) s
  end.

Definition run_step (l : bench_label) (s : runs) : option (runs * list bench_event) :=
  match l with
  | Move t a =>
      match rest s !! t with
      | Some (x :: k) =>
          if decide (at_gate (run_gate s) t = Idle) then act t a x (Runs (run_gate s) (<[t := k]> (rest s))) else None
      | _ => None
      end
  | Inner t sp => run_call (g_step t sp) s
  end.

Definition run_machine (ps : list (list action)) : machine runs bench_label bench_event :=
  Machine (λ s, m_init M (run_gate s) ∧ rest s = ps) run_step.

Definition rest_of (x : kind * stage) : list action :=
  match x.2 with Start => code x.1 | Middle => tail (code x.1) | Over => [] end.
Definition run_of (s : bench) : runs := Runs (gate s) (rest_of <$> clients s).

Lemma run_call_of l s : run_call l (run_of s) = prod_map run_of id <$> call l s.
Proof. unfold run_call, call. simpl. by destruct (m_step _ _ _) as [[]|]. Qed.

Lemma run_step_of l s : run_step l (run_of s) = prod_map run_of id <$> bench_step l s.
Proof.
  destruct l as [t a|t sp]; [|apply run_call_of]. simpl. rewrite list_lookup_fmap.
  destruct (clients s !! t) as [[c g]|] eqn:Ht; [|done]. simpl.
  assert (Hput : ∀ g', Runs (gate s) (<[t := rest_of (c, g')]> (rest_of <$> clients s)) = run_of (put t c g' s)).
  { intros g'. unfold run_of, put. simpl. by rewrite list_fmap_insert. }
  pose proof (Hput Middle) as Hm. pose proof (Hput Over) as Ho.
  destruct c, g; cbn in *; case_decide; try done; rewrite ?Hm, ?Ho, ?run_call_of; done.
Qed.

Lemma runs_reach ks s tr : reach (run_machine (code <$> ks)) s tr →
  ∃ s0, s = run_of s0 ∧ reach (bench_machine ks) s0 tr.
Proof.
  induction 1 as [s [Hi Hr]|s tr l s' es _ (s0 & -> & Hr) Hs].
  - destruct s as [g r]. simpl in *. subst r. exists (Bench g ((λ c, (c, Start)) <$> ks)). split.
    + unfold run_of. simpl. by rewrite <- list_fmap_compose.
    + constructor. done.
  - simpl in Hs. rewrite run_step_of in Hs. destruct (bench_step l s0) as [[s1 es1]|] eqn:Hb; [|done].
    simplify_eq/=. exists s1. split; [done|]. by econstructor.
Qed.

Lemma run_exec_of ks ls : ∀ s,
  exec (run_machine (code <$> ks)) ls (run_of s) = prod_map run_of id <$> exec (bench_machine ks) ls s.
Proof.
  induction ls as [|l ls IH]; intros s; [done|]. cbn [exec m_step run_machine bench_machine]. rewrite run_step_of.
  destruct (bench_step l s) as [[s1 e1]|]; [|done]. simpl. rewrite IH. simpl. by destruct (exec _ ls s1) as [[]|].
Qed.

(** What holds of such programs after [tr]: who waits first counts after all
    those that open; and the run can be brought to its end, where all have
    counted to [loop_num], once (so somebody can go on while not all are over). *)
Definition run_order (ps : list (list action)) (tr : list bench_event) : Prop :=
  ∀ tr1 w x tr2 o, tr = tr1 ++ Added w x :: tr2 → ps !! w = Some (code Waiter) → ps !! o = Some (code Opener) →
    Added o (loop_add loop_num) ∈ tr1.
Definition run_over (s : runs) : Prop := ∀ t k, rest s !! t = Some k → k = [] ∧ at_gate (run_gate s) t = Idle.
Definition ends_well (ps : list (list action)) (s : runs) (tr : list bench_event) : Prop :=
  run_order ps tr ∧
  ∃ s' es, leads (run_machine ps) s es s' ∧ run_over s' ∧
    ∀ t k, ps !! t = Some k → added t (tr ++ es) = [loop_add loop_num].

(** The openers that have still to open. *)
Definition to_open (x : kind * stage) : nat :=
  match x with (Opener, Over) | (Waiter, _) => 0 | (Opener, _) => 1 end.
Definition openers (ks : list kind) : nat := length (filter (.= Opener) ks).

Lemma bench_gate ks s tr : reach (bench_machine ks) s tr → reach M (gate s) (gate_trace tr).
Proof.
  induction 1 as [s [Hi _]|s tr l s' es _ IH Hs]; [by constructor|]. rewrite gate_trace_app.
  assert (Hcall : ∀ k s0, gate s0 = gate s → call k s0 = Some (s', es) → reach M (gate s') (gate_trace tr ++ gate_trace es)).
  { intros k s0 H0 Hk. unfold call in Hk. rewrite H0 in Hk. destruct (m_step M k (gate s)) as [[g es0]|] eqn:Hg; [|done].
    simplify_eq/=. rewrite gate_trace_of. by econstructor. }
  destruct l as [t a|t sp]; simpl in Hs; [|by eapply Hcall in Hs].
  destruct (clients s !! t) as [[c g]|]; [|done]. simpl in Hs. case_decide; [|done].
  destruct c, g; simpl in Hs; try done; try (by eapply Hcall in Hs); simplify_eq/=; by rewrite app_nil_r.
Qed.

(** *** Where they are *)
Context (count : nat) `{!GateLaws M count}.

Definition client_ok (s : bench) (tr : list bench_event) (t : nat) (c : kind) (g : stage) : Prop :=
  let st := at_gate (gate s) t in
  let passed := (count ≤ opened (gate_trace tr))%nat in
  match c, g with
  | Opener, Start => st = Idle ∧ added t tr = []
  | Opener, Middle => st = Idle ∧ added t tr = [loop_add loop_num]
  | Opener, Over => (st = Opens ∨ st = Idle) ∧ added t tr = [loop_add loop_num]
  | Waiter, Start => st = Idle ∧ added t tr = []
  | Waiter, Middle => (st = Waits ∨ st = Asleep ∨ st = Idle ∧ passed) ∧ added t tr = []
  | Waiter, Over => st = Idle ∧ passed ∧ added t tr = [loop_add loop_num]
  end.

(** Whoever waits counts after all those who open. *)
Definition in_order (ks : list kind) (tr : list bench_event) : Prop :=
  ∀ tr1 w x tr2 o, tr = tr1 ++ Added w x :: tr2 → ks !! w = Some Waiter → ks !! o = Some Opener →
    Added o (loop_add loop_num) ∈ tr1.

Record bench_ok (ks : list kind) (s : bench) (tr : list bench_event) : Prop := {
  bo_kinds : fst <$> clients s = ks;
  bo_clients t c g : clients s !! t = Some (c, g) → client_ok s tr t c g;
  bo_nobody t : clients s !! t = None → at_gate (gate s) t = Idle;
  bo_opened : (opened (gate_trace tr) + sum_list_with to_open (clients s) = openers ks)%nat;
  bo_order : openers ks = count → in_order ks tr;
}.

Lemma in_order_same ks tr es : in_order ks tr → (∀ w x, Added w x ∉ es) → in_order ks (tr ++ es).
Proof.
  intros Ho Hes tr1 w x tr2 o Heq Hw Hop. destruct (app_eq_inv _ _ _ _ Heq) as [(l & -> & Hl)|(l & -> & Hl)].
  - destruct l as [|e l]; simpl in Hl.
    + exfalso. apply (Hes w x). rewrite <- Hl. by left.
    + injection Hl as <- ->. by eapply (Ho tr1).
  - exfalso. apply (Hes w x). rewrite Hl. apply elem_of_app. right. by left.
Qed.

Lemma not_added_gate es w x : Added w x ∉ (OfGate <$> es : list bench_event).
Proof. intros (e & ? & _)%list_elem_of_fmap. done. Qed.
Lemma added_elem t n tr : added t tr = [n] → Added t n ∈ tr.
Proof.
  intros Ha. assert (Hin : n ∈ added t tr) by (rewrite Ha; by left). apply list_elem_of_omap in Hin as (e & He & Hn).
  destruct e; [|done]. case_decide; by simplify_eq.
Qed.

Lemma client_ok_frame s s' tr es t u c g : others t (gate s) (gate s') → u ≠ t → added u es = [] →
  client_ok s tr u c g → client_ok s' (tr ++ es) u c g.
Proof.
  intros Ho Hu Ha Hok. unfold client_ok in *. rewrite added_app, Ha, app_nil_r, gate_trace_app, opened_app.
  destruct (Ho u Hu) as [-> |[Hs ->]]; rewrite ?Hs in Hok; destruct c, g; intuition (congruence || lia).
Qed.

Lemma all_opened ks s tr o : bench_ok ks s tr → openers ks = count → (count ≤ opened (gate_trace tr))%nat →
  ks !! o = Some Opener → Added o (loop_add loop_num) ∈ tr.
Proof.
  intros Hok Hn Hc Ho. rewrite <- (bo_kinds _ _ _ Hok) in Ho. apply list_lookup_fmap_Some in Ho as ([c g] & Hk & Hg).
  simpl in Hk. subst c. pose proof (bo_opened _ _ _ Hok) as Hsum. apply list_elem_of_lookup_2 in Hg as Hin.
  apply (sum_list_with_in _ to_open) in Hin. pose proof (bo_clients _ _ _ Hok _ _ _ Hg) as Hcl.
  destruct g; simpl in *; [lia..|]. by apply added_elem, Hcl.
Qed.

(** [t] goes on from [g] to [g']. *)
Lemma ok_update ks s s' tr es t c g g' : bench_ok ks s tr → clients s !! t = Some (c, g) →
  clients s' = <[t := (c, g')]> (clients s) → others t (gate s) (gate s') → (∀ u, u ≠ t → added u es = []) →
  client_ok s' (tr ++ es) t c g' → (opened (gate_trace es) + to_open (c, g') = to_open (c, g))%nat →
  (∀ w x, Added w x ∉ es) ∨ (∃ n, es = [Added t n] ∧ (c = Waiter → (count ≤ opened (gate_trace tr))%nat)) →
  bench_ok ks s' (tr ++ es).
Proof.
  intros Hok Ht Hcl Hoth Hadd Hme Hop Hord. pose proof (lookup_lt_Some _ _ _ Ht) as Hlt. split.
  - rewrite Hcl, list_fmap_insert, <- (bo_kinds _ _ _ Hok). apply list_insert_id. by rewrite list_lookup_fmap, Ht.
  - intros u c0 g0 Hu. rewrite Hcl in Hu. destruct (decide (u = t)) as [->|Hne].
    + rewrite list_lookup_insert_eq in Hu by done. by simplify_eq.
    + rewrite list_lookup_insert_ne in Hu by done. eapply client_ok_frame; [done..|by apply Hadd|by eapply bo_clients].
  - intros u Hu. rewrite Hcl in Hu. assert (u ≠ t) as Hne.
    { intros ->. by rewrite list_lookup_insert_eq in Hu by done. }
    rewrite list_lookup_insert_ne in Hu by done. pose proof (bo_nobody _ _ _ Hok _ Hu) as Hi.
    destruct (Hoth u Hne) as [-> |[Hx _]]; [done|congruence].
  - pose proof (sum_insert to_open _ _ _ (c, g') Ht) as Hsum. pose proof (bo_opened _ _ _ Hok).
    rewrite Hcl, gate_trace_app, opened_app. lia.
  - intros Hn. pose proof (bo_order _ _ _ Hok Hn) as Ho. destruct Hord as [Hno|(n & -> & Hc)]; [by apply in_order_same|].
    intros tr1 w x tr2 o Heq Hw Hop'.
    assert (Hnew : w = t → Added o (loop_add loop_num) ∈ tr).
    { intros ->. eapply all_opened; [done..| |done]. apply Hc.
      rewrite <- (bo_kinds _ _ _ Hok), list_lookup_fmap, Ht in Hw. by injection Hw. }
    destruct tr2 as [|e tr2 _] using rev_ind.
    + apply app_inj_tail in Heq as [-> [= -> _]]. by apply Hnew.
    + rewrite app_comm_cons, app_assoc in Heq. apply app_inj_tail in Heq as [-> _]. by eapply (Ho tr1).
Qed.

Lemma gates_ok_init ks s : m_init (bench_machine ks) s → bench_ok ks s [].
Proof.
  intros [Hi Hc]. split.
  - rewrite Hc, <- list_fmap_compose. apply list_fmap_id.
  - intros t c g Ht. rewrite Hc in Ht. apply list_lookup_fmap_Some in Ht as (k & [= -> ->] & _).
    assert (H0 : at_gate (gate s) t = Idle) by by eapply gl_init. by destruct k.
  - intros t _. by eapply gl_init.
  - rewrite Hc. clear Hc. change (opened (gate_trace [])) with 0%nat. unfold openers.
    induction ks as [|k ks IH]; [done|]. rewrite fmap_cons. cbn [sum_list_with].
    destruct k; [rewrite filter_cons_True by done|rewrite filter_cons_False by done]; cbn [to_open length]; lia.
  - intros _ tr1 w x tr2 o Heq. by destruct tr1.
Qed.

Lemma ok_call ks s s0 tr s' es t c g g' l : bench_ok ks s tr → clients s !! t = Some (c, g) →
  gate s0 = gate s → clients s0 = <[t := (c, g')]> (clients s) → call l s0 = Some (s', es) →
  (∀ gs ges, m_step M l (gate s) = Some (gs, ges) →
    others t (gate s) gs ∧ (opened ges + to_open (c, g') = to_open (c, g))%nat ∧
    client_ok (Bench gs (clients s0)) (tr ++ (OfGate <$> ges)) t c g') →
  bench_ok ks s' (tr ++ es).
Proof.
  intros Hok Ht Hg0 Hc0 Hs Hl. unfold call in Hs. rewrite Hg0 in Hs.
  destruct (m_step M l (gate s)) as [[gs ges]|]; [|done]. simplify_eq/=. destruct (Hl _ _ eq_refl) as (Ho & Hop & Hme).
  eapply ok_update; [done|done|done|done| |done|by rewrite gate_trace_of|].
  - intros u _. apply added_of.
  - left. intros. apply not_added_gate.
Qed.

Lemma gates_ok_step ks l s tr s' es : reach (bench_machine ks) s tr → bench_ok ks s tr →
  bench_step l s = Some (s', es) → bench_ok ks s' (tr ++ es).
Proof.
  intros Hr Hok Hs. pose proof (bench_gate _ _ _ Hr) as Hrg.
  assert (Hcount : ∀ t, added t (tr ++ [Added t (loop_add loop_num)]) = added t tr ++ [loop_add loop_num]).
  { intros t. rewrite added_app. csimpl. by rewrite decide_True. }
  destruct l as [t a|t sp]; simpl in Hs.
  - destruct (clients s !! t) as [[c g]|] eqn:Ht; [|done]. simpl in Hs. case_decide as Hi; [|done].
    pose proof (bo_clients _ _ _ Hok _ _ _ Ht) as Hme. unfold client_ok in Hme. pose proof (lookup_lt_Some _ _ _ Ht) as Hlt.
    assert (Hadd : ∀ g', s' = put t c g' s → es = [Added t (loop_add loop_num)] → to_open (c, g') = to_open (c, g) →
      client_ok s' (tr ++ es) t c g' → (c = Waiter → (count ≤ opened (gate_trace tr))%nat) → bench_ok ks s' (tr ++ es)).
    { intros g' -> -> Hop Hcl Hw. eapply ok_update; [done|exact Ht|done|by intros u _; left| |done|by rewrite <- Hop|eauto].
      intros u Hu. csimpl. by rewrite decide_False by done. }
    destruct c, g; simpl in Hs; try done.
    + simplify_eq. apply (Hadd Middle); try done. unfold client_ok. rewrite Hcount. destruct Hme as [? ->]. done.
    + eapply ok_call; [done|exact Ht|..|exact Hs|]; [done..|]. intros gs ges Hg.
      destruct (gl_open M _ _ _ _ _ Hrg Hg) as (Hst & Ho & Hop). split_and!; [done|by rewrite Hop|].
      unfold client_ok. simpl. rewrite added_app, added_of, app_nil_r. destruct Hme. done.
    + eapply ok_call; [done|exact Ht|..|exact Hs|]; [done..|]. intros gs ges Hg.
      destruct (gl_wait M _ _ _ _ _ _ _ Hrg Hg) as (Hst & Ho & Hop). split_and!; [done|by rewrite Hop|].
      unfold client_ok. simpl. rewrite added_app, added_of, app_nil_r. destruct Hme, Hst; auto.
    + simplify_eq. destruct Hme as [Hw Ha]. assert (Hp : (count ≤ opened (gate_trace tr))%nat) by intuition congruence.
      apply (Hadd Over); try done. unfold client_ok. rewrite Hcount, Ha, gate_trace_app, opened_app. split_and!; [done|lia|done].
  - destruct (clients s !! t) as [[c g]|] eqn:Ht.
    + eapply (ok_call ks s s tr s' es t c g g); [done|done|done|by rewrite list_insert_id|exact Hs|]. intros gs ges Hg.
      destruct (gl_step M _ _ _ _ _ _ Hrg Hg) as (Hst & Ho & Hop). split_and!; [done|by rewrite Hop|].
      pose proof (bo_clients _ _ _ Hok _ _ _ Ht) as Hme. unfold client_ok in *. simpl.
      rewrite added_app, added_of, app_nil_r, gate_trace_app, gate_trace_of, opened_app.
      destruct (at_gate (gate s) t) eqn:Hat; try done; destruct c, g; intuition (congruence || lia || auto).
    + exfalso. unfold call in Hs. destruct (m_step M (g_step t sp) (gate s)) as [[gs ges]|] eqn:Hg; [|done].
      destruct (gl_step M _ _ _ _ _ _ Hrg Hg) as (Hst & _). by rewrite (bo_nobody _ _ _ Hok _ Ht) in Hst.
Qed.

Lemma gates_ok_reach ks s tr : reach (bench_machine ks) s tr → bench_ok ks s tr.
Proof.
  induction 1 as [s Hi|s tr l s' es Hr IH Hs]; [by apply gates_ok_init|]. by eapply gates_ok_step.
Qed.

(** *** Every run can be brought to its end *)
Context `{!GateLive M count}.

Lemma inner_run ks s n t g es : exec M (replicate n (g_step t false)) (gate s) = Some (g, es) →
  leads (bench_machine ks) s (OfGate <$> es) (Bench g (clients s)).
Proof.
  intros He. exists (replicate n (Inner t false)). revert s es He. induction n as [|n IH]; intros s es He; simpl in *.
  - simplify_eq/=. by destruct s.
  - destruct (m_step M (g_step t false) (gate s)) as [[g1 e1]|] eqn:Hs; [|done].
    destruct (exec M _ g1) as [[g2 e2]|] eqn:He2; [|done]. simplify_eq/=.
    unfold call. rewrite Hs. rewrite (IH (Bench g1 (clients s)) e2 He2). by rewrite fmap_app.
Qed.

(** How many are in such a place. *)
Definition how_many (x : status) (s : bench) : nat :=
  length (filter (λ t, at_gate (gate s) t = x) (seq 0 (length (clients s)))).
Lemma fewer x s s' t : length (clients s') = length (clients s) →
  (∀ u, at_gate (gate s') u = x → at_gate (gate s) u = x) → (t < length (clients s))%nat →
  at_gate (gate s) t = x → at_gate (gate s') t ≠ x → (how_many x s' < how_many x s)%nat.
Proof.
  intros Hl Himp Ht Hx Hx'. unfold how_many. rewrite Hl. eapply filter_fewer; [done| |done|done].
  apply elem_of_seq. lia.
Qed.
Lemma gate_client ks s tr t : reach (bench_machine ks) s tr → at_gate (gate s) t ≠ Idle → (t < length (clients s))%nat.
Proof.
  intros Hr Ht. destruct (decide (t < length (clients s))%nat) as [|Hge]; [done|]. destruct Ht.
  eapply bo_nobody; [by eapply gates_ok_reach|]. apply lookup_ge_None. lia.
Qed.

Lemma openers_end ks s tr : reach (bench_machine ks) s tr → ∃ s' es, leads (bench_machine ks) s es s' ∧
  clients s' = clients s ∧ ∀ t, at_gate (gate s') t ≠ Opens.
Proof.
  remember (how_many Opens s) as n eqn:Hn. revert s tr Hn. induction n as [n IH] using lt_wf_ind. intros s tr Hn Hr.
  destruct (decide (Forall (λ t, at_gate (gate s) t ≠ Opens) (seq 0 (length (clients s))))) as [Hall|Hno].
  - exists s, []. split_and!; [apply leads_refl|done|]. intros t Ht. rewrite Forall_forall in Hall.
    apply (Hall t); [|done]. apply elem_of_seq. apply (gate_client _ _ _ t) in Hr; [lia|by rewrite Ht].
  - apply not_Forall_Exists in Hno; [|apply _]. apply Exists_exists in Hno as (t & Hin & Ht). apply elem_of_seq in Hin.
    apply dec_stable in Ht. pose proof (bench_gate _ _ _ Hr) as Hrg.
    destruct (gl_run M _ _ t Hrg (or_introl Ht)) as (k & g & es & He & Hend & _).
    pose proof (run_others M count _ _ _ _ _ _ Hrg He) as Hoth. pose proof (inner_run ks _ _ _ _ _ He) as Hl1.
    pose proof (leads_reach _ _ _ _ _ Hr Hl1) as Hr1.
    destruct (IH (how_many Opens (Bench g (clients s)))) with (s := Bench g (clients s)) (tr := tr ++ (OfGate <$> es))
      as (s' & es' & Hl2 & Hc & Hq); [|done|done|].
    + rewrite Hn. apply (fewer _ _ _ t); simpl; [done| |lia|done|intros Hx; destruct Hend; congruence].
      intros u Hu. destruct (decide (u = t)) as [->|Hne]; [done|]. destruct (Hoth u Hne) as [<-|[_ ?]]; congruence.
    + exists s', ((OfGate <$> es) ++ es'). split_and!; [by eapply leads_trans|done|done].
Qed.

Lemma waiters_end ks s tr : reach (bench_machine ks) s tr → (∀ t, at_gate (gate s) t ≠ Opens) →
  ∃ s' es, leads (bench_machine ks) s es s' ∧ clients s' = clients s ∧
    ∀ t, at_gate (gate s') t = Idle ∨ at_gate (gate s') t = Asleep.
Proof.
  remember (how_many Waits s) as n eqn:Hn. revert s tr Hn. induction n as [n IH] using lt_wf_ind. intros s tr Hn Hr Hq.
  destruct (decide (Forall (λ t, at_gate (gate s) t ≠ Waits) (seq 0 (length (clients s))))) as [Hall|Hno].
  - exists s, []. split_and!; [apply leads_refl|done|]. intros t. rewrite Forall_forall in Hall.
    destruct (at_gate (gate s) t) eqn:Ht; [by left|by destruct (Hq t)| |by right]. exfalso.
    apply (Hall t); [|done]. apply elem_of_seq. apply (gate_client _ _ _ t) in Hr; [lia|by rewrite Ht].
  - apply not_Forall_Exists in Hno; [|apply _]. apply Exists_exists in Hno as (t & Hin & Ht). apply elem_of_seq in Hin.
    apply dec_stable in Ht. pose proof (bench_gate _ _ _ Hr) as Hrg.
    destruct (gl_run M _ _ t Hrg (or_intror (conj Ht Hq))) as (k & g & es & He & Hend & Hoth). specialize (Hoth Ht).
    pose proof (inner_run ks _ _ _ _ _ He) as Hl1. pose proof (leads_reach _ _ _ _ _ Hr Hl1) as Hr1.
    assert (Hback : ∀ u x, at_gate g u = x → x ≠ Idle → x ≠ Asleep → at_gate (gate s) u = x).
    { intros u x Hu ??. destruct (decide (u = t)) as [->|Hne]; [destruct Hend; congruence|]. by rewrite <- Hoth. }
    destruct (IH (how_many Waits (Bench g (clients s)))) with (s := Bench g (clients s)) (tr := tr ++ (OfGate <$> es))
      as (s' & es' & Hl2 & Hc & Hall); [|done|done| |].
    + rewrite Hn. apply (fewer _ _ _ t); simpl; [done|intros u Hu; by apply Hback|lia|done|intros Hx; destruct Hend; congruence].
    + intros u Hu. by apply (Hq u), Hback.
    + exists s', ((OfGate <$> es) ++ es'). split_and!; [by eapply leads_trans|done|done].
Qed.

Lemma settles ks s tr : reach (bench_machine ks) s tr → ∃ s' es, leads (bench_machine ks) s es s' ∧
  clients s' = clients s ∧ ∀ t, at_gate (gate s') t = Idle ∨ at_gate (gate s') t = Asleep.
Proof.
  intros Hr. destruct (openers_end _ _ _ Hr) as (s1 & e1 & Hl1 & Hc1 & Hq).
  destruct (waiters_end ks s1 (tr ++ e1)) as (s2 & e2 & Hl2 & Hc2 & Hall); [by eapply leads_reach|done|].
  exists s2, (e1 ++ e2). split_and!; [by eapply leads_trans|congruence|done].
Qed.

(** What the clients have still to do. *)
Definition to_do (x : kind * stage) : nat := match x.2 with Start => 2 | Middle => 1 | Over => 0 end.

(** A client in no call goes on. *)
Lemma client_moves ks s tr t c g : openers ks = count → reach (bench_machine ks) s tr →
  clients s !! t = Some (c, g) → at_gate (gate s) t = Idle → g ≠ Over →
  ∃ l s' es, bench_step l s = Some (s', es) ∧ (sum_list_with to_do (clients s') < sum_list_with to_do (clients s))%nat.
Proof.
  intros Hn Hr Ht Hi Hg. pose proof (gates_ok_reach _ _ _ Hr) as Hok. pose proof (bench_gate _ _ _ Hr) as Hrg.
  assert (Hgo : ∀ a g' s' es, client t a c g s = Some (s', es) → clients s' = <[t := (c, g')]> (clients s) →
    (to_do (c, g') < to_do (c, g))%nat → ∃ l s' es, bench_step l s = Some (s', es) ∧
      (sum_list_with to_do (clients s') < sum_list_with to_do (clients s))%nat).
  { intros a g' s' es Hs Hc Hlt. exists (Move t a), s', es. split; [simpl; rewrite Ht; simpl; by rewrite decide_True|].
    rewrite Hc. pose proof (sum_insert to_do _ _ _ (c, g') Ht). lia. }
  destruct c, g; try done.
  - eapply (Hgo nullptr Middle); [done|done|unfold to_do; simpl; lia].
  - destruct (gl_can_open M _ _ t Hrg Hi) as [[g' e] Ho].
    { pose proof (bo_opened _ _ _ Hok). apply list_elem_of_lookup_2 in Ht. apply (sum_list_with_in _ to_open) in Ht.
      simpl in Ht. lia. }
    eapply (Hgo nullptr Over); [simpl; unfold call; simpl; by rewrite Ho|done|unfold to_do; simpl; lia].
  - destruct (gl_can_wait M _ _ t (ctx_of t) Hrg Hi) as [a [[g' e] Ha]].
    eapply (Hgo a Middle); [simpl; unfold call; simpl; by rewrite Ha|done|unfold to_do; simpl; lia].
  - eapply (Hgo nullptr Over); [done|done|unfold to_do; simpl; lia].
Qed.

(** When nobody can move, all have opened, so nobody is asleep. *)
Lemma rested_over ks s tr : openers ks = count → reach (bench_machine ks) s tr →
  (∀ t, at_gate (gate s) t = Idle ∨ at_gate (gate s) t = Asleep) →
  (∀ t c g, clients s !! t = Some (c, g) → at_gate (gate s) t = Idle → g = Over) → finished s.
Proof.
  intros Hn Hr Hall Hover. pose proof (gates_ok_reach _ _ _ Hr) as Hok. pose proof (bench_gate _ _ _ Hr) as Hrg.
  assert (Hsum : sum_list_with to_open (clients s) = 0%nat).
  { apply sum_zero. intros [c g] Hin. apply list_elem_of_lookup in Hin as [t Ht]. destruct c; [|done].
    pose proof (bo_clients _ _ _ Hok _ _ _ Ht) as Hme. unfold client_ok in Hme.
    assert (Hi : at_gate (gate s) t = Idle); [|by rewrite (Hover _ _ _ Ht Hi)].
    destruct (Hall t); [done|]. destruct g; intuition congruence. }
  pose proof (bo_opened _ _ _ Hok) as Hop. intros t c g Ht.
  assert (Hi : at_gate (gate s) t = Idle); [|by split; [eapply Hover|]].
  destruct (Hall t) as [|Ha]; [done|]. exfalso. eapply (gl_awake M); [exact Hrg|lia| |exact Ha].
  intros u Hu. destruct (Hall u); congruence.
Qed.

Lemma bench_ends ks s tr : openers ks = count → reach (bench_machine ks) s tr →
  ∃ s' es, leads (bench_machine ks) s es s' ∧ finished s'.
Proof.
  intros Hn. remember (sum_list_with to_do (clients s)) as n eqn:Hs. revert s tr Hs.
  induction n as [n IH] using lt_wf_ind. intros s tr Hs Hr.
  destruct (settles _ _ _ Hr) as (s1 & e1 & Hl1 & Hc1 & Hall). pose proof (leads_reach _ _ _ _ _ Hr Hl1) as Hr1.
  destruct (decide (Exists (λ t, at_gate (gate s1) t = Idle ∧ snd <$> clients s1 !! t ≠ Some Over) (seq 0 (length (clients s1)))))
    as [He|Hno].
  - apply Exists_exists in He as (t & Hin & Hi & Hg). apply elem_of_seq in Hin.
    destruct (lookup_lt_is_Some_2 (clients s1) t ltac:(lia)) as [[c g] Hc]. rewrite Hc in Hg.
    destruct (client_moves ks s1 _ t c g Hn Hr1 Hc Hi) as (l & s2 & e2 & Hs2 & Hlt); [by intros ->|].
    destruct (IH (sum_list_with to_do (clients s2))) with (s := s2) (tr := (tr ++ e1) ++ e2) as (s3 & e3 & Hl3 & Hf);
      [rewrite Hs, <- Hc1; exact Hlt|done|by econstructor|].
    exists s3, (e1 ++ e2 ++ e3). split; [|done]. eapply leads_trans; [done|]. eapply leads_trans; [|done]. by eapply leads_step.
  - exists s1, e1. split; [done|]. eapply rested_over; [done|exact Hr1|done|]. intros t c g Ht Hi.
    rewrite <- Forall_Exists_neg in Hno. rewrite Forall_forall in Hno. pose proof (lookup_lt_Some _ _ _ Ht).
    specialize (Hno t ltac:(apply elem_of_seq; lia)). rewrite Ht in Hno. destruct g; naive_solver.
Qed.

(** What there is to count was counted, once. *)
Lemma finished_added ks s tr t k : reach (bench_machine ks) s tr → finished s → ks !! t = Some k →
  added t tr = [loop_add loop_num].
Proof.
  intros Hr Hf Hk. pose proof (gates_ok_reach _ _ _ Hr) as Hok. rewrite <- (bo_kinds _ _ _ Hok) in Hk.
  apply list_lookup_fmap_Some in Hk as ([c g] & _ & Hg). destruct (Hf _ _ _ Hg) as [-> _].
  pose proof (bo_clients _ _ _ Hok _ _ _ Hg) as Hme. destruct c; apply Hme.
Qed.
Lemma over_when s n : rest s = replicate n [] → (∀ t, at_gate (run_gate s) t = Idle) → run_over s.
Proof. intros Hr Hi t k Hk. rewrite Hr in Hk. by apply lookup_replicate in Hk as [-> _]. Qed.

(** *** The programs of the code *)
Lemma code_kind ps (ks : list kind) t c : ps = code <$> ks → ps !! t = Some (code c) → ks !! t = Some c.
Proof.
  intros ->. rewrite list_lookup_fmap. intros (d & Hd & Heq)%fmap_Some. by destruct c, d.
Qed.

Lemma runs_in_order ps ks s tr : ps = code <$> ks → openers ks = count → reach (run_machine ps) s tr → run_order ps tr.
Proof.
  intros -> Hn (s0 & _ & Hr)%runs_reach tr1 w x tr2 o Heq Hw Ho.
  eapply (bo_order _ _ _ (gates_ok_reach _ _ _ Hr)); [done|exact Heq|by eapply code_kind..].
Qed.

Lemma runs_end_well ps ks s tr : ps = code <$> ks → openers ks = count → reach (run_machine ps) s tr → ends_well ps s tr.
Proof.
  intros Hps Hn Hr. split; [by eapply runs_in_order|]. subst ps. apply runs_reach in Hr as (s0 & -> & Hr).
  destruct (bench_ends _ _ _ Hn Hr) as (s1 & es & [ls Hl] & Hf). exists (run_of s1), es. split_and!.
  - exists ls. by rewrite run_exec_of, Hl.
  - intros t k Hk. simpl in Hk. apply list_lookup_fmap_Some in Hk as ([c g] & -> & Hg).
    by destruct (Hf _ _ _ Hg) as [-> ?].
  - intros t k Hk. apply list_lookup_fmap_Some in Hk as (c & _ & Hc). eapply finished_added; [|exact Hf|exact Hc].
    eapply leads_reach; [done|by exists ls].
Qed.
End bench.

(** ** Gates built on lists of awaiters *)
Lemma fresh_address {A} (m : gmap ptr A) : ∃ a, a ≠ nullptr ∧ m !! a = None.
Proof.
  destruct (exist_fresh (dom m ∪ {[nullptr]} : gset Z)) as [a Ha]. exists a.
  split; [set_solver|]. apply not_elem_of_dom. set_solver.
Qed.

Definition role_status (r : option role) : status :=
  match r with
  | None => Idle
  | Some (RLoop _ | RCas _ _ | RReady _) => Waits
  | Some (RParked _) => Asleep
  | Some (RIdle | RWalk _ | RVisit _ | RFault _) => Opens
  end.

(** ** How many open *)
Lemma openers_app k1 k2 : openers (k1 ++ k2) = (openers k1 + openers k2)%nat.
Proof. unfold openers. by rewrite filter_app, length_app. Qed.
Lemma openers_waiters n : openers (replicate n Waiter) = 0%nat.
Proof. by induction n. Qed.
Lemma openers_openers n : openers (replicate n Opener) = n.
Proof. induction n as [|n IH]; [done|]. by apply (f_equal Datatypes.S) in IH. Qed.

(** The tasks of the benchmarks of counting gates: half of them open. *)
Definition half_tasks {A} (opener waiter : A) (thread_num : nat) : list A :=
  let open_num := (thread_num / 2)%nat in
  let wait_num := (thread_num - open_num)%nat in
  replicate open_num opener ++ replicate wait_num waiter.

Lemma half_kinds n : half_tasks (code Opener) (code Waiter) n = code <$> half_tasks Opener Waiter n.
Proof. unfold half_tasks. by rewrite fmap_app, !fmap_replicate. Qed.
Lemma half_openers n : openers (half_tasks Opener Waiter n) = (n / 2)%nat.
Proof. unfold half_tasks. by rewrite openers_app, openers_waiters, openers_openers, Nat.add_0_r. Qed.
