(* ===== verification/StdGate.v ===== *)
(** * std::latch and std::promise as gates

    What the benchmarks compare with: the threads that wait are blocked. *)
From S2P Require Import Prelude Gate.
Local Open Scope Z_scope.
Local Open Scope coro_scope.

Record std_gate := StdGateC { counter : Z; blocked : gset nat }.
Inductive std_label := StdOpen (t : nat) | StdWait (t : nat) | StdStep (t : nat).
Inductive std_event := StdOpened (t : nat).

(** [count_down]: below zero is undefined. [set_value] of a promise that has
    its value throws. *)
Definition std_step (l : std_label) (s : std_gate) : option (std_gate * list std_event) :=
  match l with
  | StdOpen t =>
      if decide (t ∉ blocked s ∧ 0 < counter s) then Some (StdGateC (counter s - 1) (blocked s), [StdOpened t]) else None
  | StdWait t => if decide (t ∉ blocked s) then Some (StdGateC (counter s) ({[t]} ∪ blocked s), []) else None
  | StdStep t =>
      if decide (t ∈ blocked s ∧ counter s = 0) then Some (StdGateC (counter s) (blocked s ∖ {[t]}), []) else None
  end.
Definition std_machine (count : Z) : machine std_gate std_label std_event :=
  Machine (λ s, s = StdGateC count ∅) std_step.

#[export] Instance std_gate_gate : Gate std_gate std_label std_event := {|
  at_gate s t := if decide (t ∈ blocked s) then (if decide (counter s = 0) then Waits else Asleep) else Idle;
  g_wait t _ _ := StdWait t;
  g_open := StdOpen;
  g_step t _ := StdStep t;
  opens _ := true;
|}.

Lemma std_counter k s tr : reach (std_machine (Z.of_nat k)) s tr → counter s = Z.of_nat k - Z.of_nat (opened tr) ∧ 0 <= counter s.
Proof.
  revert s tr. apply reach_inv_tr.
  - intros s ->. unfold opened. simpl. lia.
  - intros s tr l s' es [Hc H0] Hs. rewrite opened_app. unfold opened in *. destruct l; simpl in Hs; step_inv Hs; simpl; lia.
Qed.

#[export] Instance std_gate_laws k : GateLaws (std_machine (Z.of_nat k)) k.
Proof.
  split.
  - by intros s t ->.
  - intros s tr t a c s' es _ Hs. simpl in Hs. case_decide; [|done]. simplify_eq/=. split_and!; [| |done].
    + rewrite decide_True by set_solver. case_decide; auto.
    + intros u Hu. left. simpl. by rewrite (decide_ext (u ∈ _) (u ∈ blocked s)) by set_solver.
  - intros s tr t s' es _ Hs. simpl in Hs. case_decide as Hd; [|done]. destruct Hd as [Ht Hc]. simplify_eq/=. split_and!; [| |done].
    + right. by rewrite decide_False.
    + intros u Hu. simpl. repeat case_decide; auto; lia.
  - intros s tr t sp s' es Hr Hs. pose proof (std_counter _ _ _ Hr). simpl in Hs. case_decide as Hd; [|done].
    destruct Hd as [Ht Hc]. simplify_eq/=. rewrite (decide_True _ _ Ht), (decide_True _ _ Hc). split_and!; [| |done].
    + right. right. rewrite decide_False by set_solver. split; [done|lia].
    + intros u Hu. left. simpl. by rewrite (decide_ext (u ∈ _) (u ∈ blocked s)) by set_solver.
  - intros s tr t c _ Hi. exists nullptr. simpl in *. destruct (decide (t ∈ blocked s)); [by case_decide|].
    rewrite decide_True by done. by eexists.
  - intros s tr t Hr Hi Hlt. pose proof (std_counter _ _ _ Hr). simpl in *. destruct (decide (t ∈ blocked s)); [by case_decide|].
    rewrite decide_True by (split; [done|lia]). by eexists.
Qed.

#[export] Instance std_gate_live k : GateLive (std_machine (Z.of_nat k)) k.
Proof.
  split.
  - intros s tr t _ Ht. simpl in Ht. destruct (decide (t ∈ blocked s)) as [Hb|]; [|by destruct Ht as [|[]]].
    destruct (decide (counter s = 0)) as [Hc|]; [|by destruct Ht as [|[]]].
    exists 1%nat, (StdGateC (counter s) (blocked s ∖ {[t]})), []. split_and!.
    + simpl. by rewrite decide_True.
    + simpl. rewrite decide_False by set_solver. by left.
    + intros _ u Hu. simpl. by rewrite (decide_ext (u ∈ _) (u ∈ blocked s)) by set_solver.
  - intros s tr t Hr Hop _ Ha. pose proof (std_counter _ _ _ Hr). simpl in Ha. case_decide; [|done]. case_decide; [done|]. lia.
Qed.
