(* ===== verification/EventBench.v ===== *)
(** * The event as a gate, and event_bench.cpp *)
From S2P Require Import Prelude WaitCount WaitList Event Gate StdGate.
Local Open Scope Z_scope.
Local Open Scope coro_scope.

(** ** The gate *)
#[export] Instance event_gate : Gate (state (V:=unit)) (label (V:=unit)) (event (V:=unit)) := {|
  at_gate s t := role_status (role_of <$> pcs s !! t);
  g_wait := Wait;
  g_open t := Set_ t tt;
  g_step := Step;
  opens e := match e with Stored _ _ => true | _ => false end;
|}.

Lemma others_insert t p (s s' : state (V:=unit)) : pcs s' = <[t := p]> (pcs s) → others t s s'.
Proof. intros Hp u Hu. left. simpl. by rewrite Hp, lookup_insert_ne. Qed.
Lemma others_delete t (s s' : state (V:=unit)) : pcs s' = delete t (pcs s) → others t s s'.
Proof. intros Hp u Hu. left. simpl. by rewrite Hp, lookup_delete_ne. Qed.

(** What a step of a call does to where the coroutines are. *)
Lemma event_gate_step (s : state (V:=unit)) st W t sp s' es : lists (view s) st W →
  step false (Step t sp) s = Some (s', es) →
  match at_gate s t with
  | Opens => at_gate s' t = Opens ∨ at_gate s' t = Idle
  | Waits => at_gate s' t = Waits ∨ at_gate s' t = Asleep ∨ (at_gate s' t = Idle ∧ ∃ a, pcs s !! t = Some (Ready a))
  | Idle | Asleep => False
  end ∧ others t s s' ∧ opened es = 0%nat.
Proof.
  intros Hl Hs. simpl in Hs. simpl at_gate. destruct (pcs s !! t) as [p|] eqn:Ht; [|done].
  destruct p as [a|a old|a|a| |x|x|x]; try done; simpl in Hs; simpl.
  - destruct (m_state s); (destruct (write_next _ _ _); [|done]); simplify_eq/=; rewrite lookup_insert_eq;
      (split_and!; [by left|by eapply others_insert|done]).
  - case_decide; [destruct (mem s !! a); [|done]|]; simplify_eq/=; rewrite lookup_insert_eq;
      (split_and!; [auto|by eapply others_insert|done]).
  - case_decide; [|done]. unfold await_resume in Hs. destruct (mem s !! a); [|done]. simplify_eq/=.
    rewrite lookup_delete_eq. split_and!; [eauto 6|by eapply others_delete|done].
  - unfold set_state in Hs. destruct (m_state s); simplify_eq/=; rewrite ?lookup_delete_eq, ?lookup_insert_eq;
      (split_and!; [auto|first [by eapply others_delete|by eapply others_insert]|done]).
  - case_decide as Hn; simplify_eq/=; [rewrite lookup_delete_eq; split_and!; [auto|by eapply others_delete|done]|].
    destruct (mem s !! x) as [aw|] eqn:Hm; [|done]. simplify_eq/=. rewrite lookup_insert_eq.
    split_and!; [by left| |done]. intros u Hu. simpl. rewrite lookup_insert_ne by done.
    destruct (lists_resume _ _ _ _ _ _ Hl (event_view_role _ _ _ Ht) Hn Hm) as (? & _ & Hpk & _).
    apply event_view_role_inv in Hpk as (r & Hr & Heq). destruct (decide (m_await_coro aw = u)) as [<-|Hne].
    + right. rewrite lookup_insert_eq, Hr. simpl. by rewrite <- Heq.
    + left. by rewrite lookup_insert_ne.
  - destruct (next_of _ _); simplify_eq/=; rewrite lookup_insert_eq; (split_and!; [by left|by eapply others_insert|done]).
Qed.

Lemma event_gate_wait eager (s : state (V:=unit)) t a c s' es : step eager (Wait t a c) s = Some (s', es) →
  at_gate s' t = Waits ∧ others t s s' ∧ opened es = 0%nat.
Proof.
  simpl. unfold await_ready. intros Hs. case_decide; [|done]. simplify_eq/=. rewrite lookup_insert_eq.
  split_and!; [by case_match|by eapply others_insert|done].
Qed.

Lemma event_gate_set eager (s : state (V:=unit)) t s' es : step eager (Set_ t tt) s = Some (s', es) →
  at_gate s' t = Opens ∧ others t s s' ∧ opened es = 1%nat.
Proof.
  simpl. unfold set. intros Hs. case_decide; [|done]. simplify_eq/=. rewrite lookup_insert_eq.
  split_and!; [done|by eapply others_insert|done].
Qed.

Lemma event_can_wait eager (s : state (V:=unit)) t c : at_gate s t = Idle → ∃ a, is_Some (step eager (Wait t a c) s).
Proof.
  simpl. intros Ht. destruct (fresh_address (mem s)) as (a & Hn & Hm). exists a. unfold await_ready.
  rewrite decide_True; [by eexists|]. split_and!; [|done..]. by destruct (pcs s !! t) as [[]|].
Qed.
Lemma event_can_set eager (s : state (V:=unit)) t : at_gate s t = Idle → is_Some (step eager (Set_ t tt) s).
Proof. simpl. intros Ht. unfold set. rewrite decide_True; [by eexists|]. by destruct (pcs s !! t) as [[]|]. Qed.

(** *** A call run alone comes to its end *)
Definition settled (t : nat) (s : state (V:=unit)) : Prop :=
  ∃ n s' es, exec (event_machine false false) (replicate n (Step t false)) s = Some (s', es) ∧
    (at_gate s' t = Idle ∨ at_gate s' t = Asleep) ∧
    (at_gate s t = Waits → ∀ u, u ≠ t → at_gate s' u = at_gate s u).

Lemma settled_step t s s1 es1 : step false (Step t false) s = Some (s1, es1) → settled t s1 →
  (at_gate s t = Waits → at_gate s1 t = Waits ∧ ∀ u, u ≠ t → at_gate s1 u = at_gate s u) → settled t s.
Proof.
  intros Hs (n & s' & es & He & Hend & Hoth) Hw. exists (S n), s', (es1 ++ es). split_and!; [|done|].
  - cbn [replicate exec m_step event_machine]. by rewrite Hs, He.
  - intros Ht u Hu. destruct (Hw Ht) as [Ht1 H1]. by rewrite Hoth, H1.
Qed.

Lemma settled_now t s s1 es1 : step false (Step t false) s = Some (s1, es1) → at_gate s1 t = Idle ∨ at_gate s1 t = Asleep →
  (at_gate s t = Waits → ∀ u, u ≠ t → at_gate s1 u = at_gate s u) → settled t s.
Proof.
  intros Hs Hend Hw. exists 1%nat, s1, (es1 ++ []). split_and!; [|done|done].
  cbn [replicate exec m_step event_machine]. by rewrite Hs.
Qed.

Lemma walk_settles b s tr t x : reach (event_machine false b) s tr → pcs s !! t = Some (Resume x) → settled t s.
Proof.
  intros (st & W & Hl)%event_lists_reach Ht; [|done].
  destruct (drain_run (event_machine false false) view (λ t, Step t false) Wake (W t) s st W t x Hl (event_view_role _ _ _ Ht) eq_refl)
    as (s' & ws & He & [Hg _ _ _ _ _]).
  do 3 eexists. split_and!; [exact He| |].
  - left. simpl in Hg. rewrite lookup_fmap in Hg. simpl. by destruct (pcs s' !! t).
  - intros Hw. simpl in Hw. by rewrite Ht in Hw.
Qed.

Lemma open_settles b s tr t : reach (event_machine false b) s tr → at_gate s t = Opens → settled t s.
Proof.
  intros Hr Ht. simpl in Ht. destruct (pcs s !! t) as [p|] eqn:Hp; [|done].
  destruct (event_lists_reach _ _ _ _ eq_refl Hr) as (st & W & Hl).
  assert (Hno : at_gate s t = Waits → False) by (simpl; rewrite Hp; by destruct p).
  destruct p as [a|a old|a|a| |x|x|x]; try done.
  - destruct (m_state s) as [|h] eqn:Hm.
    + eapply (settled_now t s (leave t s)); [cbn [step]; rewrite Hp; unfold set_state; by rewrite Hm| |by intros ?%Hno].
      left. simpl. by rewrite lookup_delete_eq.
    + assert (Hs : step false (Step t false) s = Some (set_pc t (Resume h) (put_state This s), [Fired t])).
      { cbn [step]. rewrite Hp. unfold set_state. by rewrite Hm. }
      eapply settled_step; [exact Hs| |by intros ?%Hno]. eapply walk_settles; [by eapply (reach_step _ _ _ (Step t false))|].
      apply lookup_insert_eq.
  - by eapply walk_settles.
  - assert (Hs : ∃ p, step false (Step t false) s = Some (set_pc t p s, []) ∧ (p = Faulted x ∨ ∃ nx, p = Resume nx)).
    { cbn [step]. rewrite Hp. simpl. destruct (next_of (mem s) x); eauto. }
    destruct Hs as (p & Hs & Hcase). assert (Hr1 : reach (event_machine false b) (set_pc t p s) (tr ++ [])).
    { by eapply (reach_step _ _ _ (Step t false)). }
    assert (Hp1 : pcs (set_pc t p s) !! t = Some p) by apply lookup_insert_eq.
    destruct Hcase as [->|[nx ->]].
    + destruct (event_lists_reach _ _ _ _ eq_refl Hr1) as (st1 & W1 & Hl1).
      by destruct (l_nofault _ _ _ Hl1 t x (event_view_role _ _ _ Hp1)).
    + eapply settled_step; [exact Hs|by eapply walk_settles|by intros ?%Hno].
  - by destruct (l_nofault _ _ _ Hl t x (event_view_role _ _ _ Hp)).
Qed.

Lemma no_opens (s : state (V:=unit)) : (∀ u, at_gate s u ≠ Opens) →
  (∀ t, pcs s !! t ≠ Some SetState) ∧ ∀ t w, pcs s !! t ≠ Some (Resume w) ∧ pcs s !! t ≠ Some (Next w).
Proof. intros Hn. split; [intros t Ht|intros t w; split; intros Ht]; apply (Hn t); simpl; by rewrite Ht. Qed.

(** [wait] and nobody opening: registered, or let through. *)
Lemma moved_same t p (s s' : state (V:=unit)) : pcs s' = <[t := p]> (pcs s) → ∀ u, u ≠ t → at_gate s' u = at_gate s u.
Proof. intros Hp u Hu. simpl. by rewrite Hp, lookup_insert_ne. Qed.

Lemma ready_settles s t a aw : pcs s !! t = Some (Ready a) → mem s !! a = Some aw → (∀ u, at_gate s u ≠ Opens) → settled t s.
Proof.
  intros Hp Hm Hno. eapply settled_now.
  - cbn [step]. rewrite Hp, decide_True; [unfold await_resume; by rewrite Hm|]. right.
    intros (u & q & Hu & ->)%map_Exists_lookup. by destruct (proj2 (no_opens _ Hno) u a).
  - left. simpl. by rewrite lookup_delete_eq.
  - intros _ u Hu. simpl. by rewrite lookup_delete_ne.
Qed.

Lemma register_settles s t a aw : pcs s !! t = Some (Register a) → mem s !! a = Some aw → m_await_coro aw = t →
  (∀ u, at_gate s u ≠ Opens) → settled t s.
Proof.
  intros Hp Hm Ht Hno. assert (Hkeep : ∀ q s1, pcs s1 = <[t := q]> (pcs s) → role_status (Some (role_of q)) ≠ Opens →
    ∀ u, at_gate s1 u ≠ Opens).
  { intros q s1 H1 Hq u. destruct (decide (u = t)) as [->|Hu]; [simpl; by rewrite H1, lookup_insert_eq|].
    by rewrite (moved_same _ _ _ _ H1 u Hu). }
  destruct (m_state s) as [|old] eqn:Hst.
  - eapply settled_step; [cbn [step]; rewrite Hp; cbn [mbind option_bind register_awaiter]; rewrite Hst, (write_next_ok _ _ _ _ Hm); done| |].
    + eapply ready_settles; [apply lookup_insert_eq|simpl; apply lookup_insert_eq|]. by eapply Hkeep.
    + intros _. split; [simpl; by rewrite lookup_insert_eq|by eapply moved_same].
  - eapply settled_step; [cbn [step]; rewrite Hp; cbn [mbind option_bind register_awaiter]; rewrite Hst, (write_next_ok _ _ _ _ Hm); done| |].
    + eapply settled_now.
      * cbn [step]. simpl pcs. rewrite lookup_insert_eq. cbn [mbind option_bind register_awaiter]. simpl m_state.
        rewrite Hst, decide_True by done. simpl. rewrite lookup_insert_eq. done.
      * right. simpl. by rewrite lookup_insert_eq.
      * intros _. by eapply moved_same.
    + intros _. split; [simpl; by rewrite lookup_insert_eq|by eapply moved_same].
Qed.

Lemma wait_settles b s tr t : reach (event_machine false b) s tr → at_gate s t = Waits → (∀ u, at_gate s u ≠ Opens) → settled t s.
Proof.
  intros Hr Ht Hno. simpl in Ht. destruct (pcs s !! t) as [p|] eqn:Hp; [|done].
  destruct (event_lists_reach _ _ _ _ eq_refl Hr) as (st & W & Hl).
  assert (Hown : ∀ a, role_awaiter (role_of p) = Some a → ∃ aw, mem s !! a = Some aw ∧ m_await_coro aw = t).
  { intros a Ha. destruct (l_owned _ _ _ Hl _ _ _ (event_view_role _ _ _ Hp) Ha) as (_ & aw & Hm & Hc & _). by exists aw. }
  destruct p as [a|a old|a|a| |x|x|x]; try done; destruct (Hown a eq_refl) as (aw & Hm & Hc).
  - by eapply register_settles.
  - destruct (decide (m_state s = Waiters old)) as [He|He].
    + eapply settled_now; [cbn [step]; rewrite Hp; simpl; rewrite decide_True by done; by rewrite Hm| |].
      * right. simpl. by rewrite lookup_insert_eq.
      * intros _. by eapply moved_same.
    + eapply settled_step; [cbn [step]; rewrite Hp; simpl; rewrite decide_False by naive_solver; done| |].
      * eapply register_settles; [apply lookup_insert_eq|exact Hm|done|]. intros u.
        destruct (decide (u = t)) as [->|Hu]; [simpl; by rewrite lookup_insert_eq|].
        by rewrite (moved_same t (Register a) s (set_pc t (Register a) s) eq_refl u Hu).
      * intros _. split; [simpl; by rewrite lookup_insert_eq|by eapply moved_same].
  - by eapply ready_settles.
Qed.

(** An event whose [set] was called is open, or about to be. *)
Lemma stored_opening b (s : state (V:=unit)) tr : reach (event_machine false b) s tr → (0 < opened tr)%nat → opening s.
Proof.
  intros Hr. assert (Hi : reach (event_machine false b) s tr ∧ ((0 < opened tr)%nat → opening s)); [|apply Hi].
  induction Hr as [s Hi|s tr l s' es Hr [_ IH] Hs]; [split; [by apply reach_init|intros Hx; by apply Nat.lt_irrefl in Hx]|].
  split; [by eapply reach_step|]. rewrite opened_app. intros Hop.
  destruct (event_lists_reach _ _ _ _ eq_refl Hr) as (st & W & Hl). cbn [m_step event_machine] in Hs.
  destruct l as [t a c|t []|t sp].
  - destruct (event_gate_wait _ _ _ _ _ _ _ Hs) as (_ & _ & He). eapply opening_kept; [done|exact Hs|apply IH; lia].
  - by eapply opening_set.
  - destruct (event_gate_step _ _ _ _ _ _ _ Hl Hs) as (_ & _ & He). eapply opening_kept; [done|exact Hs|apply IH; lia].
Qed.

Lemma asleep_parked (s : state (V:=unit)) t : at_gate s t = Asleep → ∃ a, pcs s !! t = Some (Parked a).
Proof. simpl. destruct (pcs s !! t) as [[]|]; try done. eauto. Qed.

#[export] Instance event_gate_laws : GateLaws (event_machine (V:=unit) false false) 1.
Proof.
  split.
  - by intros s t ->.
  - intros s tr t a c s' es _ Hs. destruct (event_gate_wait false s t a c s' es Hs) as (? & ? & ?). auto.
  - intros s tr t s' es _ Hs. destruct (event_gate_set false s t s' es Hs) as (? & ? & ?). auto.
  - intros s tr t sp s' es Hr Hs. destruct (event_lists_reach _ _ _ _ eq_refl Hr) as (st & W & Hl).
    destruct (event_gate_step s st W t sp s' es Hl Hs) as (Hg & Ho & He). split_and!; [|done..].
    destruct (at_gate s t); try done. destruct Hg as [?|[?|[? [a Ha]]]]; auto. right. right. split; [done|].
    pose proof (known_reach _ _ _ Hr) as [Hp _ _ Hset Hst]. destruct (Hset (Hp _ _ Ha eq_refl)) as [v Hv].
    destruct (Hst _ Hv) as [u Hu]. unfold opened.
    assert (Hin : Stored u v ∈ filter (λ e, opens e = true) tr) by by apply list_elem_of_filter.
    destruct (filter _ tr); [by apply elem_of_nil in Hin|simpl; lia].
  - intros s tr t c _ Hi. exact (event_can_wait false s t c Hi).
  - intros s tr t _ Hi _. exact (event_can_set false s t Hi).
Qed.

#[export] Instance event_gate_live : GateLive (event_machine (V:=unit) false false) 1.
Proof.
  split.
  - intros s tr t Hr [Ht|[Ht Hno]]; [by eapply open_settles|by eapply wait_settles].
  - intros s tr t Hr Hop Hno Ha. destruct (no_opens _ Hno) as [Hs Hw]. destruct (asleep_parked _ _ Ha) as [a Hpa].
    destruct (stored_opening _ _ _ Hr) as [Hset|[u Hu]]; [lia| |by destruct (Hs u)].
    eapply (no_parked_when_set false false); [done|exact Hr|by apply bool_decide_eq_true|exact Hw|exact Hpa].
Qed.

(** ** The programs *)
Definition set_tp : list action := [LoopAdd; Open].          (* promise.set_value() *)
Definition wait_tp : list action := [Await; LoopAdd].        (* future.wait() *)
Definition set_future : list action := [LoopAdd; Open].
Definition wait_future : list action := [Await; LoopAdd].
Definition set : list action := [LoopAdd; Open].             (* ev.set() *)
Definition wait : list action := [Await; LoopAdd].           (* co_await ev.wait() *)

(** The tasks in the order in which they are submitted. *)
Definition event_tasks (wait set : list action) (thread_num : nat) : list (list action) :=
  replicate (thread_num - 1) wait ++ [set].

Section programs.
Context (ctx_of : nat → nat) (thread_num : nat) (loop_num : Z).

Definition threadpool_stl_future := run_machine (std_machine 1) ctx_of loop_num (event_tasks wait_tp set_tp thread_num).
Definition event_bench_promise := run_machine (std_machine 1) ctx_of loop_num (event_tasks wait_future set_future thread_num).
Definition event_bench := run_machine (event_machine (V:=unit) false false) ctx_of loop_num (event_tasks wait set thread_num).
End programs.

Lemma event_kinds n : event_tasks wait set n = code <$> replicate (n - 1) Waiter ++ [Opener].
Proof. unfold event_tasks. by rewrite fmap_app, fmap_replicate. Qed.
Lemma event_openers n : openers (replicate n Waiter ++ [Opener]) = 1%nat.
Proof. by rewrite openers_app, openers_waiters. Qed.

(** ** Properties *)

(** the event benchmark: with any number of threads, in any interleaving
    (a woken coroutine runs when [set] has left its awaiter), whoever waits
    counts after the setter has; and whatever has happened, the run can be
    brought to its end, where everyone has counted to [loop_num], once. *)
Theorem event_bench_ends ctx_of thread_num loop_num s tr :
  reach (event_bench ctx_of thread_num loop_num) s tr →
  ends_well (event_machine false false) ctx_of loop_num (event_tasks wait set thread_num) s tr.
Proof. intros Hr. eapply runs_end_well; [apply _..|apply event_kinds|apply event_openers|exact Hr]. Qed.

Definition event_run : list bench_label :=
  [Move 0 16; Inner 0 false; Inner 0 false; Move 1 0; Move 1 0; Inner 1 false; Inner 1 false; Inner 1 false;
   Inner 1 false; Inner 0 false; Move 0 16]%nat.

Lemma event_bench_ends_witness : ∃ s tr, reach (event_bench id 2 3) s tr ∧
  ends_well (event_machine false false) id 3 (event_tasks wait set 2) s tr ∧
  run_over s ∧ omap (λ e, match e with Added t _ => Some t | _ => None end) tr = [1%nat; 0%nat].
Proof.
  set (M := event_bench id 2 3). set (s0 := Runs (init (V:=unit) false) (event_tasks wait set 2)).
  assert (Hr : reach M (final M event_run s0) (trace M event_run s0)) by (apply exec_reach_final; [done|by vm_compute]).
  assert (Hf : rest (final M event_run s0) = replicate 2 []) by by vm_compute.
  assert (Hp : pcs (run_gate (final M event_run s0)) = ∅) by by vm_compute.
  exists (final M event_run s0), (trace M event_run s0). split_and!; [done|by apply event_bench_ends| |by vm_compute].
  apply (over_when _ _ Hf). intros t. simpl. by rewrite Hp.
Defined.

(** The same benchmark with a promise, whose [set_value] would throw when
    called twice: in the thread pool and in coroutines that block their thread
    alike. *)
Theorem promise_bench_ends ctx_of thread_num loop_num s tr :
  reach (threadpool_stl_future ctx_of thread_num loop_num) s tr ∨ reach (event_bench_promise ctx_of thread_num loop_num) s tr →
  ends_well (std_machine 1) ctx_of loop_num (event_tasks wait set thread_num) s tr.
Proof. intros [Hr|Hr]; (eapply runs_end_well; [apply (std_gate_laws 1)|apply (std_gate_live 1)|apply event_kinds|apply event_openers|exact Hr]). Qed.
