(* ===== verification/LatchBench.v ===== *)
(** * The latch as a gate, and latch_bench.cpp *)
From S2P Require Import Prelude WaitCount WaitList Event Latch Gate StdGate EventBench.
Local Open Scope Z_scope.
Local Open Scope coro_scope.

(** ** The gate *)
#[export] Instance latch_gate : Gate latch latch_label latch_event := {|
  at_gate s t := at_gate (m_ev s) t;
  g_wait := LatchWait;
  g_open := CountDown;
  g_step := LatchStep;
  opens := is_down;
|}.

Lemma downs_opened tr : downs tr = Z.of_nat (opened tr).
Proof. done. Qed.
Lemma event_opened es : opened (OfEvent <$> es) = 0%nat.
Proof. unfold opened. induction es; simpl; [done|]. by rewrite filter_cons_False by done. Qed.
Lemma down_opened t es : opened (Down t :: es) = (1 + opened es)%nat.
Proof. unfold opened. by rewrite filter_cons_True by done. Qed.

Lemma on_event_inv eager l s s' es : on_event eager l s = Some (s', es) →
  ∃ es0, Event.step eager l (m_ev s) = Some (m_ev s', es0) ∧ es = OfEvent <$> es0.
Proof. unfold on_event. destruct (Event.step _ _ _) as [[e es0]|]; intros; simplify_eq/=. eauto. Qed.
Lemma on_event_some eager l s : is_Some (Event.step eager l (m_ev s)) → is_Some (on_event eager l s).
Proof. intros [[e es] He]. unfold on_event. rewrite He. by eexists. Qed.

Lemma latch_gate_down s t s' es : count_down false t s = Some (s', es) →
  (at_gate s' t = Opens ∨ at_gate s' t = Idle) ∧ others t s s' ∧ opened es = 1%nat.
Proof.
  unfold count_down. intros Hs. case_decide as Ht; [|done]. case_decide.
  - destruct (on_event _ _ _) as [[s1 es1]|] eqn:He; [|done]. simplify_eq.
    destruct (on_event_inv _ _ _ _ _ He) as (es0 & Hst & ->). apply event_gate_set in Hst as (Hg & Ho & _).
    split_and!; [by left|exact Ho|by rewrite down_opened, event_opened].
  - simplify_eq/=. split_and!; [right; by rewrite Ht|by intros u _; left|done].
Qed.

(** Nobody is let through too early. *)
Lemma latch_passed k s tr t a : 0 <= k < 2 ^ 63 → reach (latch_machine false k) s tr →
  Event.pcs (m_ev s) !! t = Some (Event.Ready a) → k <= downs tr.
Proof.
  intros Hk Hr Ha. destruct (decide (downs tr <= k + 2 ^ 63)) as [Hd|]; [|lia].
  destruct (counted_reach false k s tr eq_refl Hk Hr) as [_ Hop]; [lia|]. apply Hop.
  destruct (decide (k = 0)) as [->|Hz]; [apply Hop; pose proof (downs_nonneg tr); lia|].
  destruct (latch_event_reach _ _ _ _ Hr) as [tr' He]. rewrite bool_decide_false in He by lia.
  left. by eapply (Event.k_passed _ _ (Event.known_reach _ _ _ He)).
Qed.

#[export] Instance latch_gate_laws k : Z.of_nat k < 2 ^ 63 → GateLaws (latch_machine false (Z.of_nat k)) k.
Proof.
  intros Hk. split.
  - by intros s t ->.
  - intros s tr t a c s' es _ Hs. destruct (on_event_inv _ _ _ _ _ Hs) as (es0 & Hst & ->).
    destruct (event_gate_wait _ _ _ _ _ _ _ Hst) as (? & Ho & _). split_and!; [by left|exact Ho|apply event_opened].
  - intros s tr t s' es _ Hs. exact (latch_gate_down s t s' es Hs).
  - intros s tr t sp s' es Hr Hs. destruct (on_event_inv _ _ _ _ _ Hs) as (es0 & Hst & ->).
    destruct (latch_event_reach _ _ _ _ Hr) as [tr' He]. destruct (Event.event_lists_reach _ _ _ _ eq_refl He) as (st & W & Hl).
    destruct (event_gate_step _ _ _ _ _ _ _ Hl Hst) as (Hg & Ho & _). split_and!; [|exact Ho|apply event_opened].
    simpl in *. destruct (role_status _); try done. destruct Hg as [?|[?|[? [a Ha]]]]; auto. right. right. split; [done|].
    pose proof (latch_passed (Z.of_nat k) s tr t a ltac:(lia) Hr Ha) as Hp. exact (proj2 (Nat2Z.inj_le _ _) Hp).
  - intros s tr t c _ Hi. destruct (event_can_wait false (m_ev s) t c Hi) as [a Ha]. exists a. by apply on_event_some.
  - intros s tr t _ Hi _. simpl. unfold count_down. simpl in Hi. rewrite decide_True by by destruct (Event.pcs (m_ev s) !! t) as [[]|].
    case_decide; [|by eexists].
    destruct (on_event_some false (Event.Set_ t tt) (Latch (s64 (m_count s - 1)) (m_ev s))) as [[s1 es1] H1].
    { exact (event_can_set false (m_ev s) t Hi). }
    rewrite H1. by eexists.
Qed.

Lemma latch_exec k n t : ∀ s e es, exec (event_machine (V:=unit) false false) (replicate n (Step t false)) (m_ev s) = Some (e, es) →
  exec (latch_machine false k) (replicate n (LatchStep t false)) s = Some (Latch.Latch (m_count s) e, OfEvent <$> es).
Proof.
  induction n as [|n IH]; intros s e es He; cbn [replicate exec] in *; [simplify_eq/=; by destruct s|].
  cbn [m_step event_machine latch_machine latch_step] in *. unfold on_event.
  destruct (Event.step false (Step t false) (m_ev s)) as [[e1 es1]|]; [|done].
  destruct (exec _ _ e1) as [[e2 es2]|] eqn:He2; [|done]. simplify_eq.
  rewrite (IH (Latch.Latch (m_count s) e1) _ _ He2). simpl. by rewrite fmap_app.
Qed.

#[export] Instance latch_gate_live k : Z.of_nat k < 2 ^ 63 → GateLive (latch_machine false (Z.of_nat k)) k.
Proof.
  intros Hk. split.
  - intros s tr t Hr Ht. destruct (latch_event_reach _ _ _ _ Hr) as [tr' He].
    assert (Hset : settled t (m_ev s)) by (destruct Ht as [Ht|[Ht Hno]]; [by eapply open_settles|by eapply wait_settles]).
    destruct Hset as (n & e & es & Hx & Hend & Hoth). eexists n, _, _. split_and!; [by apply latch_exec|exact Hend|exact Hoth].
  - intros s tr t Hr Hop Hno Ha. destruct (no_opens (m_ev s) Hno) as [Hs Hw].
    destruct (asleep_parked (m_ev s) t Ha) as [a Hpa].
    eapply (latch_releases (Z.of_nat k) s tr Hr); [lia|rewrite downs_opened; lia| |exact Hpa].
    intros u. split; [apply Hs|]. intros w. by apply Hw.
Qed.

(** ** The programs *)
Definition countdown_tp : list action := [LoopAdd; Open].    (* lt.count_down() *)
Definition wait_tp : list action := [Await; LoopAdd].        (* lt.wait() *)
Definition countdown_stl : list action := [LoopAdd; Open].
Definition wait_stl : list action := [Await; LoopAdd].
Definition countdown : list action := [LoopAdd; Open].
Definition wait : list action := [Await; LoopAdd].           (* co_await lt.wait() *)

Section programs.
Context (ctx_of : nat → nat) (thread_num : nat) (loop_num : Z).
Let countdown_num : Z := Z.of_nat (thread_num / 2).

Definition threadpool_stl_latch :=
  run_machine (std_machine countdown_num) ctx_of loop_num (half_tasks countdown_tp wait_tp thread_num).
Definition latch_bench_stl :=
  run_machine (std_machine countdown_num) ctx_of loop_num (half_tasks countdown_stl wait_stl thread_num).
Definition latch_bench :=
  run_machine (latch_machine false countdown_num) ctx_of loop_num (half_tasks countdown wait thread_num).
End programs.

(** ** Properties *)

(** C33: the latch benchmark, with any number of threads and in any
    interleaving in which a woken coroutine runs only after [set] has left its
    awaiter (otherwise event.cpp:40 reads an awaiter that may be gone:
    [event_use_after_free]): whoever waits counts after all of
    [thread_num / 2] have counted down; and whatever has happened, the run can
    be brought to its end, where everyone has counted to [loop_num], once. *)
Theorem latch_bench_ends ctx_of thread_num loop_num s tr : Z.of_nat thread_num < 2 ^ 31 →
  reach (latch_bench ctx_of thread_num loop_num) s tr →
  ends_well (latch_machine false (Z.of_nat (thread_num / 2))) ctx_of loop_num (half_tasks countdown wait thread_num) s tr.
Proof.
  intros Hn Hr. assert (Hk : Z.of_nat (thread_num / 2) < 2 ^ 63).
  { pose proof (Nat.Div0.div_le_upper_bound thread_num 2 thread_num ltac:(lia)). lia. }
  eapply runs_end_well; [by apply latch_gate_laws|by apply latch_gate_live|apply half_kinds|apply half_openers|exact Hr].
Qed.

(** Two wait while two count down; one of them finds the latch open. *)
Definition latch_run : list bench_label :=
  [Move 2 16; Inner 2 false; Inner 2 false; Move 0 0; Move 0 0; Move 1 0; Move 1 0; Inner 1 false; Move 3 32;
   Inner 1 false; Inner 1 false; Inner 1 false; Inner 2 false; Inner 3 false; Move 2 0; Move 3 0]%nat.

Lemma latch_bench_ends_witness : ∃ s tr, reach (latch_bench id 4 3) s tr ∧
  ends_well (latch_machine false (Z.of_nat (4 / 2))) id 3 (half_tasks countdown wait 4) s tr ∧
  run_over s ∧ omap (λ e, match e with Added t _ => Some t | _ => None end) tr = [0; 1; 2; 3]%nat.
Proof.
  set (M := latch_bench id 4 3). set (s0 := Runs (latch_init 2) (half_tasks countdown wait 4)).
  assert (Hr : reach M (final M latch_run s0) (trace M latch_run s0)) by (apply exec_reach_final; [by split|vm_compute; reflexivity]).
  assert (Hf : rest (final M latch_run s0) = replicate 4 []) by by vm_compute.
  assert (Hp : pcs (m_ev (run_gate (final M latch_run s0))) = ∅) by by vm_compute.
  exists (final M latch_run s0), (trace M latch_run s0). split_and!; [exact Hr|exact (latch_bench_ends id 4 3 _ _ eq_refl Hr)| |by vm_compute].
  apply (over_when _ _ Hf). intros t. simpl. by rewrite Hp.
Defined.

(** The same benchmark with std::latch, in the thread pool and in coroutines
    that block their thread. *)
Theorem std_latch_bench_ends ctx_of thread_num loop_num s tr :
  reach (threadpool_stl_latch ctx_of thread_num loop_num) s tr ∨ reach (latch_bench_stl ctx_of thread_num loop_num) s tr →
  ends_well (std_machine (Z.of_nat (thread_num / 2))) ctx_of loop_num (half_tasks countdown_tp wait_tp thread_num) s tr.
Proof. intros [Hr|Hr]; (eapply runs_end_well; [apply std_gate_laws|apply std_gate_live|apply half_kinds|apply half_openers|exact Hr]). Qed.
