(* ===== verification/GroupBench.v ===== *)
(** * The wait group as a gate, and waitgroup_bench.cpp

    Nobody gets through early, but somebody may be left asleep. *)
From S2P Require Import Prelude WaitCount WaitList WaitGroup Gate StdGate.
Local Open Scope Z_scope.
Local Open Scope coro_scope.

(** ** The gate *)
(** The wait group without [add]; a call of [done] is shown. *)
Definition group_step (l : label) (s : state) : option (state * list (event + nat)) :=
  match l with
  | Add _ => None
  | _ =>
      match step false l s with
      | Some (s', es) => Some (s', (inl <$> es) ++ match l with Done t => [inr t] | _ => [] end)
      | None => None
      end
  end.
Definition group_machine (count : Z) : machine state label (event + nat) :=
  Machine (λ s, s = init count) group_step.

#[export] Instance group_gate : Gate state label (event + nat) := {|
  at_gate s t := role_status (role_of <$> pcs s !! t);
  g_wait := Wait;
  g_open := Done;
  g_step := Step;
  opens e := match e with inr _ => true | inl _ => false end;
|}.

Lemma group_opened es : opened (inl <$> es : list (event + nat)) = 0%nat.
Proof. unfold opened. induction es; simpl; [done|]. by rewrite filter_cons_False by done. Qed.

Lemma group_inv l s s' es : group_step l s = Some (s', es) →
  ∃ es0, step false l s = Some (s', es0) ∧ (∀ n, l ≠ Add n) ∧
    opened es = match l with Done _ => 1%nat | _ => 0%nat end.
Proof.
  intros Hs. destruct l; cbn [group_step] in Hs; try done;
    destruct (step _ _ _) as [[s1 es1]|]; simplify_eq; eexists; (split_and!; [done|done|]);
    by rewrite opened_app, group_opened.
Qed.

Lemma group_lists k s tr : reach (group_machine k) s tr → ∃ st W, lists (view s) st W.
Proof.
  revert s tr. apply reach_inv.
  - intros s ->. exists [], (λ _, []). by apply lists_empty.
  - intros s l s' es (st & W & Hl) Hs. destruct (group_inv _ _ _ _ Hs) as (es0 & Hst & _). exact (lists_step s st W l s' es0 Hl Hst).
Qed.

(** The counter, and what follows from being let through. *)
Definition let_through (p : pc) : bool :=
  match p with Ready _ | DoneXchg | DoneResume _ | DoneNext _ | Faulted _ => true | _ => false end.
Record counts (k : nat) (s : state) (tr : list (event + nat)) : Prop := {
  c_count : (opened tr ≤ k)%nat → m_count s = Z.of_nat k - Z.of_nat (opened tr);
  c_through t p : pcs s !! t = Some p → let_through p = true → (k ≤ opened tr)%nat;
}.

Lemma counts_frame k s s' tr es : counts k s tr → opened es = 0%nat → m_count s' = m_count s →
  (∀ t p, pcs s' !! t = Some p → let_through p = true → pcs s !! t = Some p ∨ (k ≤ opened tr)%nat) →
  counts k s' (tr ++ es).
Proof.
  intros [Hc Ht] He Hm Hp. split; rewrite opened_app, He, Nat.add_0_r.
  - by rewrite Hm.
  - intros t p H1 H2. destruct (Hp t p H1 H2); [by eapply Ht|done].
Qed.

Lemma wait_inv t a c s s' es : step false (Wait t a c) s = Some (s', es) →
  m_count s' = m_count s ∧ pcs s' = <[t := WaitCount a]> (pcs s).
Proof. simpl. unfold wait. case_decide; [|done]. intros. by simplify_eq/=. Qed.

Lemma counts_step k l s tr s' es : Z.of_nat k < 2 ^ 31 → counts k s tr → group_step l s = Some (s', es) → counts k s' (tr ++ es).
Proof.
  intros Hk Hc Hs. destruct (group_inv _ _ _ _ Hs) as (es0 & Hst & Hna & Hop). clear Hs.
  destruct l as [t a c|n|t|t sp]; [|simpl in Hst..].
  - destruct (wait_inv _ _ _ _ _ _ Hst) as [Hm Hpc].
    apply (counts_frame k s); [done..|]. rewrite Hpc. intros u p Hu Hp. lookup_cases. by left.
  - by destruct (Hna n).
  - case_decide as Ht; [|done]. unfold done_sub in Hst. destruct Hc as [Hc Hth].
    assert (Hcount : (opened (tr ++ es) ≤ k)%nat → s32 (m_count s - 1) = Z.of_nat k - Z.of_nat (opened (tr ++ es))).
    { rewrite opened_app, Hop. intros Hle. rewrite Hc by lia. rewrite sw_small by lia. lia. }
    case_decide as H1; simplify_eq; (split; [exact Hcount|]); rewrite opened_app, Hop; simpl; intros u p Hu Hp.
    + lookup_cases; [|specialize (Hth _ _ Hu Hp); lia]. destruct (decide (opened tr ≤ k)%nat) as [Hle|]; [|lia]. rewrite Hc in H1 by done. lia.
    + specialize (Hth _ _ Hu Hp). lia.
  - destruct (pcs s !! t) as [p|] eqn:Ht; [|done]. pose proof (c_through _ _ _ Hc _ _ Ht) as Hthr.
    destruct p as [a|a|a h|a|a| |h|h|h]; try done; simpl in Hst; unfold await_resume, resume in Hst.
    + case_decide as H0; simplify_eq; (apply (counts_frame k s); [done..|]); simpl; intros u p Hu Hp; lookup_cases; try (by left).
      right. destruct (decide (opened tr ≤ k)%nat) as [Hle|]; [|lia]. rewrite (c_count _ _ _ Hc Hle) in H0. lia.
    + destruct (write_next _ _ _); [|done]. simplify_eq/=. apply (counts_frame k s); [done..|]. simpl. intros u p Hu Hp. lookup_cases. by left.
    + case_decide; [destruct (mem s !! a); [|done]|]; simplify_eq/=; (apply (counts_frame k s); [done..|]); simpl; intros u p Hu Hp; lookup_cases; by left.
    + case_decide; [|done]. destruct (mem s !! a); [|done]. simplify_eq/=. apply (counts_frame k s); [done..|]. simpl. intros u p Hu Hp. lookup_cases. by left.
    + simplify_eq. apply (counts_frame k s); [done..|]. auto.
    + case_decide; [simplify_eq; apply (counts_frame k s); [done..|]; auto|].
      destruct (mem s !! h); [|done]. simplify_eq/=. apply (counts_frame k s); [done..|]. auto.
    + case_match; simplify_eq; (apply (counts_frame k s); [done..|]); auto.
Qed.

Lemma counts_reach k s tr : Z.of_nat k < 2 ^ 31 → reach (group_machine (Z.of_nat k)) s tr → counts k s tr.
Proof.
  intros Hk. apply reach_inv_tr.
  - intros ? ->. split; [|intros t p Hp; simpl in Hp; by rewrite lookup_empty in Hp].
    intros _. unfold opened. simpl. rewrite ?sw_small by lia. lia.
  - intros s0 tr0 l s' es Hc Hs. by eapply counts_step.
Qed.

Lemma group_insert t p (s s' : state) : pcs s' = <[t := p]> (pcs s) → others t s s'.
Proof. intros Hp u Hu. left. simpl. by rewrite Hp, lookup_insert_ne. Qed.
Lemma group_delete t (s s' : state) : pcs s' = delete t (pcs s) → others t s s'.
Proof. intros Hp u Hu. left. simpl. by rewrite Hp, lookup_delete_ne. Qed.

Lemma group_gate_step (s : state) st W t sp s' es : lists (view s) st W → step false (Step t sp) s = Some (s', es) →
  match at_gate s t with
  | Opens => at_gate s' t = Opens ∨ at_gate s' t = Idle
  | Waits => at_gate s' t = Waits ∨ at_gate s' t = Asleep ∨ (at_gate s' t = Idle ∧ ∃ a, pcs s !! t = Some (Ready a))
  | Idle | Asleep => False
  end ∧ others t s s'.
Proof.
  intros Hl Hs. simpl in Hs. simpl at_gate. destruct (pcs s !! t) as [p|] eqn:Ht; [|done].
  destruct p as [a|a|a h|a|a| |x|x|x]; try done; simpl in Hs; simpl.
  - case_decide; simplify_eq/=; rewrite lookup_insert_eq; (split; [by left|by eapply group_insert]).
  - destruct (write_next _ _ _); [|done]. simplify_eq/=. rewrite lookup_insert_eq. split; [by left|by eapply group_insert].
  - case_decide; [destruct (mem s !! a); [|done]|]; simplify_eq/=; rewrite lookup_insert_eq; (split; [auto|by eapply group_insert]).
  - case_decide; [|done]. unfold await_resume in Hs. destruct (mem s !! a); [|done]. simplify_eq/=.
    rewrite lookup_delete_eq. split; [eauto 6|by eapply group_delete].
  - simplify_eq/=. rewrite lookup_insert_eq. split; [by left|by eapply group_insert].
  - case_decide as Hn; simplify_eq/=; [rewrite lookup_delete_eq; split; [auto|by eapply group_delete]|].
    unfold resume in Hs. destruct (mem s !! x) as [aw|] eqn:Hm; [|done]. simplify_eq/=. rewrite lookup_insert_eq.
    split; [by left|]. intros u Hu. simpl. rewrite lookup_insert_ne by done.
    destruct (lists_resume _ _ _ _ _ _ Hl (wg_view_role _ _ _ Ht) Hn Hm) as (? & _ & Hpk & _).
    apply wg_view_role_inv in Hpk as (r & Hr & Heq). destruct (decide (m_await_coro aw = u)) as [<-|Hne].
    + right. rewrite lookup_insert_eq, Hr. simpl. by rewrite <- Heq.
    + left. by rewrite lookup_insert_ne.
  - destruct (next_of _ _); simplify_eq/=; rewrite lookup_insert_eq; (split; [by left|by eapply group_insert]).
Qed.

#[export] Instance group_gate_laws k : Z.of_nat k < 2 ^ 31 → GateLaws (group_machine (Z.of_nat k)) k.
Proof.
  intros Hk. split.
  - by intros s t ->.
  - intros s tr t a c s' es _ Hs. destruct (group_inv _ _ _ _ Hs) as (es0 & Hst & _ & Hop).
    destruct (wait_inv _ _ _ _ _ _ Hst) as [_ Hpc]. split_and!; [left|by eapply group_insert|done].
    simpl. by rewrite Hpc, lookup_insert_eq.
  - intros s tr t s' es _ Hs. destruct (group_inv _ _ _ _ Hs) as (es0 & Hst & _ & Hop). simpl in Hst.
    case_decide as Ht; [|done]. unfold done_sub in Hst. case_decide; simplify_eq/=; (split_and!; [| |done]).
    + rewrite lookup_insert_eq. by left.
    + by eapply group_insert.
    + rewrite Ht. by right.
    + intros u _. by left.
  - intros s tr t sp s' es Hr Hs. destruct (group_inv _ _ _ _ Hs) as (es0 & Hst & _ & Hop).
    destruct (group_lists _ _ _ Hr) as (st & W & Hl).
    destruct (group_gate_step _ _ _ _ _ _ _ Hl Hst) as (Hg & Ho). split_and!; [|exact Ho|done].
    destruct (at_gate s t); try done. destruct Hg as [?|[?|[? [a Ha]]]]; auto. right. right. split; [done|].
    by eapply (c_through _ _ _ (counts_reach _ _ _ Hk Hr)).
  - intros s tr t c _ Hi. destruct (fresh_address (mem s)) as (a & Hn & Hm). exists a. simpl in *. unfold wait.
    rewrite decide_True; [by eexists|]. split_and!; [|done..]. by destruct (pcs s !! t) as [[]|].
  - intros s tr t _ Hi _. simpl in *. rewrite decide_True by by destruct (pcs s !! t) as [[]|]. by destruct (done_sub t s).
Qed.

(** ** The programs *)
Definition countdown_tp : list action := [LoopAdd; Open].    (* lt.count_down() *)
Definition wait_tp : list action := [Await; LoopAdd].        (* lt.wait() *)
Definition done_stl : list action := [LoopAdd; Open].
Definition wait_stl : list action := [Await; LoopAdd].
Definition done : list action := [LoopAdd; Open].            (* wg.done() *)
Definition wait : list action := [Await; LoopAdd].           (* co_await wg.wait() *)

Section programs.
Context (ctx_of : nat → nat) (thread_num : nat) (loop_num : Z).
Let done_num : Z := Z.of_nat (thread_num / 2).

Definition threadpool_stl_latch :=
  run_machine (std_machine done_num) ctx_of loop_num (half_tasks countdown_tp wait_tp thread_num).
Definition waitgroup_bench_stl :=
  run_machine (std_machine done_num) ctx_of loop_num (half_tasks done_stl wait_stl thread_num).
Definition waitgroup_bench :=
  run_machine (group_machine done_num) ctx_of loop_num (half_tasks done wait thread_num).
End programs.

(** ** Properties *)

(** the wait group benchmark: whoever waits counts after all of
    [thread_num / 2] have counted. *)
Theorem waitgroup_bench_in_order ctx_of thread_num loop_num s tr : Z.of_nat thread_num < 2 ^ 31 →
  reach (waitgroup_bench ctx_of thread_num loop_num) s tr →
  run_order loop_num (half_tasks done wait thread_num) tr.
Proof.
  intros Hn Hr. assert (Hk : Z.of_nat (thread_num / 2) < 2 ^ 31).
  { pose proof (Nat.Div0.div_le_upper_bound thread_num 2 thread_num ltac:(lia)). lia. }
  eapply runs_in_order; [by apply group_gate_laws|apply half_kinds|apply half_openers|exact Hr].
Qed.

Lemma waitgroup_bench_in_order_witness : ∃ s tr, reach (waitgroup_bench id 2 3) s tr ∧
  run_order 3 (half_tasks done wait 2) tr ∧ added 0 tr = [3] ∧ added 1 tr = [3].
Proof.
  set (M := waitgroup_bench id 2 3). set (s0 := Runs (init 1) (half_tasks done wait 2)).
  set (ls := [Move 1 16; Inner 1 false; Inner 1 false; Inner 1 false; Move 0 0; Move 0 0; Inner 0 false; Inner 0 false;
    Inner 0 false; Inner 0 false; Inner 1 false; Move 1 0]%nat).
  assert (Hr : reach M (final M ls s0) (trace M ls s0)) by (apply exec_reach_final; [by split|vm_compute; reflexivity]).
  exists (final M ls s0), (trace M ls s0).
  split_and!; [exact Hr|exact (waitgroup_bench_in_order id 2 3 _ _ eq_refl Hr)|by vm_compute..].
Defined.

(** C34: (defect) the wait group benchmark, with two coroutines, may not come to
    its end: the waiter is put to sleep after the only [done], and nobody can
    go on. *)
Theorem waitgroup_bench_may_hang :
  ∃ s tr, reach (waitgroup_bench id 2 2) s tr ∧ added 0 tr = [2] ∧ added 1 tr = [] ∧
    at_gate (run_gate s) 1%nat = Asleep ∧ ∀ l, run_step (group_machine 1) id 2 l s = None.
Proof.
  set (M := waitgroup_bench id 2 2). set (s0 := Runs (init 1) (half_tasks done wait 2)).
  set (ls := [Move 1 16; Inner 1 false; Move 0 0; Move 0 0; Inner 0 false; Inner 0 false; Inner 1 false; Inner 1 false]%nat).
  assert (Hc : rest (final M ls s0) = [[]; [LoopAdd]]) by by vm_compute.
  assert (Hp : pcs (run_gate (final M ls s0)) = {[1%nat := Parked 16]}) by by vm_compute.
  exists (final M ls s0), (trace M ls s0). split_and!.
  - apply exec_reach_final; [by split|by vm_compute].
  - by vm_compute.
  - by vm_compute.
  - by vm_compute.
  - intros [t a|t sp]; simpl; rewrite ?Hc; unfold run_call; simpl; rewrite ?Hp.
    + destruct t as [|[|t]]; simpl; by rewrite ?lookup_singleton_eq.
    + destruct (decide (t = 1%nat)) as [->|]; [by rewrite lookup_singleton_eq|by rewrite lookup_singleton_ne].
Qed.
