(* ===== verification/Monitor.v ===== *)
(** * Clients of std::mutex and std::condition_variable (benchtests/)

    The benchmarks compare the library with threads that share data under a
    mutex and wait for conditions on it. First those threads in general: a loop
    that locks, waits, acts on the data, notifies and unlocks, with the loop's
    functions as a parameter; and that such threads always end, if somebody can
    go on and everybody is told. Then the clients of channel_bench.cpp and
    condition_variable_bench.cpp. *)
From S2P Require Import Prelude.
Local Open Scope Z_scope.
Local Open Scope coro_scope.

(** ** Threads that wait for conditions *)
Section monitor.
Context {D L E : Type}.

Inductive wakes := NotifyOne | NotifyAll.

(** The body of [while (...) { unique_lock lck(mtx); cv.wait(lck, pred); ... }]. *)
Record client := Client {
  over : L → bool;                    (* the loop is not entered any more *)
  pred : L → D → bool;
  act : L → D → L * D * list E;
  notify : wakes;
  unlocks : bool;                     (* mtx.unlock() before the end of the block *)
}.

Inductive pc :=
  | Head                              (* the condition of the loop *)
  | Want                              (* mtx.lock(), in unique_lock or in wait *)
  | Check                             (* pred, with the mutex *)
  | Asleep
  | Act
  | Notify
  | Unlock
  | UnlockAgain                       (* ~unique_lock after mtx.unlock() *)
  | Ended
  | Faulted.                          (* unlocked a mutex it does not own *)

#[export] Instance pc_eq_dec : EqDecision pc.
Proof. solve_decision. Defined.

Record thread := Thread { at_pc : pc; local : L }.
Record monitor := Monitor {
  holder : option nat;
  data : D;
  threads : list thread;
}.

Definition asleep (th : thread) : bool := match at_pc th with Asleep => true | _ => false end.
Definition roused (th : thread) : thread := if asleep th then Thread Want (local th) else th.

(** [notify_one] wakes one of those that sleep, here [u]; if there is any. *)
Definition rouse (w : wakes) (u : nat) (ths : list thread) : option (list thread) :=
  match w with
  | NotifyAll => Some (roused <$> ths)
  | NotifyOne =>
      if existsb asleep ths then
        th ← ths !! u; if asleep th then Some (<[u := Thread Want (local th)]> ths) else None
      else Some ths
  end.

Definition put (t : nat) (p : pc) (l : L) (ths : list thread) : list thread := <[t := Thread p l]> ths.

(** A step of thread [t]; [u] is whom it wakes. *)
Definition advance (c : client) (t u : nat) (th : thread) (s : monitor) : option (monitor * list E) :=
  let l := local th in
  let to p := put t p l (threads s) in
  match at_pc th with
  | Head => Some (Monitor (holder s) (data s) (to (if over c l then Ended else Want)), [])
  | Want => match holder s with None => Some (Monitor (Some t) (data s) (to Check), []) | Some _ => None end
  | Check =>
      if pred c l (data s) then Some (Monitor (holder s) (data s) (to Act), [])
      else Some (Monitor None (data s) (to Asleep), [])
  | Act => let '(l', d, es) := act c l (data s) in Some (Monitor (holder s) d (put t Notify l' (threads s)), es)
  | Notify => ths ← rouse (notify c) u (threads s); Some (Monitor (holder s) (data s) (put t Unlock l ths), [])
  | Unlock => Some (Monitor None (data s) (to (if unlocks c then UnlockAgain else Head)), [])
  | UnlockAgain =>
      if decide (holder s = Some t) then Some (Monitor None (data s) (to Head), [])
      else Some (Monitor (holder s) (data s) (to Faulted), [])
  | Asleep | Ended | Faulted => None
  end.

Inductive label := Step (t u : nat) | Spurious (t : nat).

Context (cs : list client).

(** [wait] may return without a notification; it looks at [pred] again. *)
Definition step (l : label) (s : monitor) : option (monitor * list E) :=
  match l with
  | Step t u => c ← cs !! t; th ← threads s !! t; advance c t u th s
  | Spurious t =>
      th ← threads s !! t;
      if asleep th then Some (Monitor (holder s) (data s) (put t Want (local th) (threads s)), []) else None
  end.

Definition monitor_init (d : D) (ls : list L) : monitor := Monitor None d (Thread Head <$> ls).
Definition monitor_machine (d : D) (ls : list L) : machine monitor label E :=
  Machine (λ s, s = monitor_init d ls) step.

Definition ended (s : monitor) : Prop := Forall (λ th, at_pc th = Ended) (threads s).
Definition no_spurious (l : label) : Prop := match l with Step _ _ => True | Spurious _ => False end.

(** *** Where the mutex is *)
Definition holds (p : pc) : bool := match p with Check | Act | Notify | Unlock => true | _ => false end.
Definition owner_ok (s : monitor) : Prop :=
  ∀ t, holder s = Some t ↔ ∃ th, threads s !! t = Some th ∧ holds (at_pc th) = true.

Lemma roused_holds th : holds (at_pc (roused th)) = holds (at_pc th).
Proof. by destruct th as [[] l]. Qed.
Lemma roused_local th : local (roused th) = local th.
Proof. by destruct th as [[] l]. Qed.

(** What [rouse] does, in both of its forms. *)
Lemma rouse_lookup w u ths ths' : rouse w u ths = Some ths' →
  ∀ t th, ths !! t = Some th → ths' !! t = Some th ∨ ths' !! t = Some (roused th).
Proof.
  intros Hr t th Ht. destruct w; simpl in Hr.
  - destruct (existsb asleep ths); [|simplify_eq; by left]. destruct (ths !! u) as [v|] eqn:Hu; [|done]. simpl in Hr.
    destruct (asleep v) eqn:Hv; [|done]. simplify_eq. destruct (decide (u = t)) as [->|Hne].
    + rewrite list_lookup_insert_eq by (by eapply lookup_lt_Some). right. simplify_eq. unfold roused. by rewrite Hv.
    + rewrite list_lookup_insert_ne by done. by left.
  - simplify_eq. right. by rewrite list_lookup_fmap, Ht.
Qed.

Lemma rouse_length w u ths ths' : rouse w u ths = Some ths' → length ths' = length ths.
Proof.
  intros Hr. destruct w; simpl in Hr; [|simplify_eq; by rewrite length_fmap].
  destruct (existsb asleep ths); [|by simplify_eq]. destruct (ths !! u) as [v|]; [|done]. simpl in Hr.
  destruct (asleep v); [|done]. simplify_eq. by rewrite length_insert.
Qed.

Lemma rouse_lookup_inv w u ths ths' : rouse w u ths = Some ths' →
  ∀ t th', ths' !! t = Some th' → ∃ th, ths !! t = Some th ∧ (th' = th ∨ th' = roused th).
Proof.
  intros Hr t th' Ht. assert (is_Some (ths !! t)) as [th Hth].
  { apply lookup_lt_is_Some. rewrite <- (rouse_length _ _ _ _ Hr). by eapply lookup_lt_Some. }
  exists th. split; [done|]. destruct (rouse_lookup _ _ _ _ Hr _ _ Hth) as [?|?]; [left|right]; congruence.
Qed.

Lemma rouse_local w u ths ths' : rouse w u ths = Some ths' → local <$> ths' = local <$> ths.
Proof.
  intros Hr. apply list_eq. intros t. rewrite !list_lookup_fmap. destruct (ths' !! t) as [th'|] eqn:Ht.
  - destruct (rouse_lookup_inv _ _ _ _ Hr _ _ Ht) as (th & -> & [-> | ->]); simpl; by rewrite ?roused_local.
  - apply lookup_ge_None in Ht. rewrite (rouse_length _ _ _ _ Hr) in Ht. by apply lookup_ge_None in Ht as ->.
Qed.

Lemma rouse_some w ths : ∃ u ths', rouse w u ths = Some ths'.
Proof.
  destruct w; simpl; [|by exists 0%nat; eexists]. destruct (existsb asleep ths) eqn:He; [|by exists 0%nat; eexists].
  apply existsb_exists in He as (th & Hin & Ha). apply list_elem_of_In, list_elem_of_lookup in Hin as [u Hu].
  exists u. rewrite Hu. simpl. rewrite Ha. by eexists.
Qed.

(** A thread that is awake moves by its own steps only. *)
Lemma step_keeps l s s' es u th : step l s = Some (s', es) → threads s !! u = Some th → asleep th = false →
  (∀ v, l ≠ Step u v) → threads s' !! u = Some th.
Proof.
  intros Hs Hu Ha Hl. assert (Hput : ∀ t p k ths, t ≠ u → ths !! u = Some th → put t p k ths !! u = Some th).
  { intros t p k ths Ht Hx. unfold put. by rewrite list_lookup_insert_ne. }
  destruct l as [t v|t]; simpl in Hs.
  - assert (Hne : t ≠ u) by (intros ->; by destruct (Hl v)). destruct (cs !! t) as [c|]; [|done].
    destruct (threads s !! t) as [th'|]; [|done]. simpl in Hs. unfold advance in Hs.
    destruct (at_pc th'); try done; try (repeat case_match; simplify_eq; by apply Hput).
    destruct (rouse (notify c) v (threads s)) as [ths|] eqn:Hr; [|done]. simplify_eq/=. apply Hput; [done|].
    destruct (rouse_lookup _ _ _ _ Hr _ _ Hu) as [?|Hx]; [done|]. rewrite Hx. unfold roused. by rewrite Ha.
  - destruct (threads s !! t) as [th'|] eqn:Ht; [|done]. simpl in Hs. destruct (asleep th') eqn:Ha'; [|done]. simplify_eq/=.
    apply Hput; [|done]. intros ->. congruence.
Qed.

(** *** Clients that end: the laws *)

(** [Inv] is what the data and the threads' own variables satisfy, after the
    events so far; [work] is what a thread has left to do. *)
Class Progressing (Inv : D → list L → list E → Prop) (work : L → nat) : Prop := {
  pr_act d ls tr t c l l' d' es :
    Inv d ls tr → cs !! t = Some c → ls !! t = Some l → over c l = false → pred c l d = true →
    act c l d = (l', d', es) → Inv d' (<[t := l']> ls) (tr ++ es) ∧ (work l' < work l)%nat;
  pr_go d ls tr t c l : Inv d ls tr → cs !! t = Some c → ls !! t = Some l → over c l = false →
    ∃ u c' l', cs !! u = Some c' ∧ ls !! u = Some l' ∧ over c' l' = false ∧ pred c' l' d = true;
  pr_told : Forall (λ c, notify c = NotifyAll) cs ∨ (length cs ≤ 2)%nat;
  pr_unlock : Forall (λ c, unlocks c = false) cs;
}.

Context {Inv : D → list L → list E → Prop} {work : L → nat} `{!Progressing Inv work}.

(** Somebody has acted and not notified yet. *)
Definition telling (s : monitor) : Prop := ∃ t l, threads s !! t = Some (Thread Notify l).

(** What holds of a thread, by where it is. *)
Definition thread_ok (c : client) (tell : Prop) (d : D) (th : thread) : Prop :=
  match at_pc th with
  | Head | Notify | Unlock => True
  | Want | Check => over c (local th) = false
  | Act => over c (local th) = false ∧ pred c (local th) d = true
  | Asleep => over c (local th) = false ∧ (pred c (local th) d = false ∨ tell)
  | Ended => over c (local th) = true
  | UnlockAgain | Faulted => False
  end.

Record monitor_ok (s : monitor) (tr : list E) : Prop := {
  mo_len : length (threads s) = length cs;
  mo_inv : Inv (data s) (local <$> threads s) tr;
  mo_owner : owner_ok s;
  mo_threads t th c : threads s !! t = Some th → cs !! t = Some c → thread_ok c (telling s) (data s) th;
}.

Lemma put_lookup t p l ths u th : (t < length ths)%nat → put t p l ths !! u = Some th →
  u = t ∧ th = Thread p l ∨ u ≠ t ∧ ths !! u = Some th.
Proof.
  intros Hlt Hu. unfold put in Hu. destruct (decide (t = u)) as [<-|Hne].
  - rewrite list_lookup_insert_eq in Hu by done. left. by simplify_eq.
  - rewrite list_lookup_insert_ne in Hu by done. by right.
Qed.
Lemma put_same t p l ths : (t < length ths)%nat → put t p l ths !! t = Some (Thread p l).
Proof. intros. by apply list_lookup_insert_eq. Qed.
Lemma put_other t p l ths u : u ≠ t → put t p l ths !! u = ths !! u.
Proof. intros. by apply list_lookup_insert_ne. Qed.
Lemma put_local t p l ths th : ths !! t = Some th → local th = l → local <$> put t p l ths = local <$> ths.
Proof.
  intros Ht <-. unfold put. rewrite list_fmap_insert. apply list_insert_id. by rewrite list_lookup_fmap, Ht.
Qed.

(** One owner at most. *)
Lemma holds_inj s t u th uh : owner_ok s → threads s !! t = Some th → threads s !! u = Some uh →
  holds (at_pc th) = true → holds (at_pc uh) = true → t = u.
Proof.
  intros Ho Ht Hu Hth Huh. assert (holder s = Some t) by (apply Ho; eauto). assert (holder s = Some u) by (apply Ho; eauto).
  congruence.
Qed.

(** The owner after [t] moves to [p] and the holder becomes [h]. *)
Lemma owner_put s h d t th p l : owner_ok s → threads s !! t = Some th →
  h = (if holds p then Some t else if holds (at_pc th) then None else holder s) →
  (holds p = true → holds (at_pc th) = true ∨ holder s = None) →
  owner_ok (Monitor h d (put t p l (threads s))).
Proof.
  intros Ho Ht -> Hp u. simpl. pose proof (lookup_lt_Some _ _ _ Ht) as Hlt. split.
  - intros Hh. destruct (decide (u = t)) as [->|Hne].
    + exists (Thread p l). split; [by apply put_same|]. simpl. destruct (holds p); [done|].
      destruct (holds (at_pc th)) eqn:Hth; [done|]. apply Ho in Hh as (th' & Ht' & Hh'). congruence.
    + destruct (holds p); [congruence|]. destruct (holds (at_pc th)); [done|].
      apply Ho in Hh as (uh & Hu & Huh). exists uh. by rewrite put_other.
  - intros (uh & Hu & Huh). apply put_lookup in Hu as [[-> ->]|[Hne Hu]]; [|..|done].
    + simpl in Huh. by rewrite Huh.
    + assert (Hhu : holder s = Some u) by (apply Ho; eauto).
      assert (Hth : holds (at_pc th) = false).
      { destruct (holds (at_pc th)) eqn:Hth; [|done]. destruct Hne. by eapply holds_inj. }
      rewrite Hth. destruct (holds p); [|done]. destruct (Hp eq_refl); congruence.
Qed.

Lemma thread_ok_mono c (P Q : Prop) d th : (P → Q) → thread_ok c P d th → thread_ok c Q d th.
Proof. unfold thread_ok. destruct (at_pc th); naive_solver. Qed.
Lemma thread_ok_roused c P d th : thread_ok c P d th → thread_ok c P d (roused th).
Proof. destruct th as [[] l]; unfold thread_ok; simpl; naive_solver. Qed.

Lemma monitor_ok_init d ls : length ls = length cs → Inv d ls [] → monitor_ok (monitor_init d ls) [].
Proof.
  intros Hl Hi. split; simpl.
  - by rewrite length_fmap.
  - by rewrite <- list_fmap_compose, list_fmap_id.
  - intros t. split; [done|]. intros (th & Ht & Hh). apply list_lookup_fmap_Some in Ht as (l & -> & _). done.
  - intros t th c Ht _. by apply list_lookup_fmap_Some in Ht as (l & -> & _).
Qed.

(** [t] moves on alone: either the data stay and it had nothing to tell, or it
    has the mutex and now has something to tell. *)
Lemma ok_move s tr t th c p l h d es : monitor_ok s tr → threads s !! t = Some th → cs !! t = Some c →
  h = (if holds p then Some t else if holds (at_pc th) then None else holder s) →
  (holds p = true → holds (at_pc th) = true ∨ holder s = None) →
  Inv d (<[t := l]> (local <$> threads s)) (tr ++ es) → (∀ P, thread_ok c P d (Thread p l)) →
  (d = data s ∧ at_pc th ≠ Notify) ∨ (p = Notify ∧ holds (at_pc th) = true) →
  monitor_ok (Monitor h d (put t p l (threads s))) (tr ++ es).
Proof.
  intros [Hlen Hinv Ho Hth] Ht Hc Hh Hp Hi Hme Hd. pose proof (lookup_lt_Some _ _ _ Ht) as Hlt. split; simpl.
  - unfold put. by rewrite length_insert.
  - unfold put. by rewrite list_fmap_insert.
  - by eapply owner_put.
  - intros u uh c' Hu Hc'. apply put_lookup in Hu as [[-> ->]|[Hne Hu]]; [|..|done].
    { by replace c' with c by congruence. }
    pose proof (Hth u uh c' Hu Hc') as Hok. destruct Hd as [[-> Hn]|[-> Hhold]].
    + eapply thread_ok_mono; [|exact Hok]. intros (v & k & Hv). exists v, k. simpl. rewrite put_other; [done|].
      intros ->. simplify_eq/=.
    + assert (Htell : telling (Monitor h d (put t Notify l (threads s)))) by (exists t, l; by apply put_same).
      assert (holds (at_pc uh) = false) by (destruct (holds (at_pc uh)) eqn:?; [destruct Hne; by eapply holds_inj|done]).
      unfold thread_ok in *. destruct (at_pc uh); naive_solver.
Qed.

(** After a notification nobody sleeps. *)
Lemma rouse_all_awake s tr t th c u ths : monitor_ok s tr → threads s !! t = Some th → cs !! t = Some c →
  at_pc th = Notify → rouse (notify c) u (threads s) = Some ths → ∀ v vh, ths !! v = Some vh → asleep vh = false.
Proof.
  intros Hok Ht Hc Hn Hr v vh Hv. destruct (notify c) eqn:Hw; simpl in Hr.
  2: { simplify_eq. apply list_lookup_fmap_Some in Hv as (w & -> & _). by destruct w as [[] l]. }
  destruct (asleep vh) eqn:Ha; [|done]. exfalso.
  assert (Hex : existsb asleep (threads s) = true ∧ ∃ uh, threads s !! u = Some uh ∧ asleep uh = true ∧
    ths = <[u := Thread Want (local uh)]> (threads s)).
  { destruct (existsb asleep (threads s)) eqn:He.
    - split; [done|]. destruct (threads s !! u) as [uh|] eqn:Hu; [|done]. simpl in Hr.
      destruct (asleep uh) eqn:Hau; [|done]. simplify_eq. eauto.
    - injection Hr as <-. enough (existsb asleep (threads s) = true) by congruence.
      apply existsb_exists. exists vh. split; [|done]. apply list_elem_of_In, list_elem_of_lookup. by exists v. }
  destruct Hex as (_ & uh & Hu & Hau & ->). destruct (decide (u = v)) as [->|Hne].
  { rewrite list_lookup_insert_eq in Hv by (by eapply lookup_lt_Some). by simplify_eq. }
  rewrite list_lookup_insert_ne in Hv by done.
  assert (u ≠ t ∧ v ≠ t) as [? ?] by (split; intros ->; simplify_eq; unfold asleep in *; by rewrite Hn in *).
  pose proof (lookup_lt_Some _ _ _ Ht). pose proof (lookup_lt_Some _ _ _ Hu). pose proof (lookup_lt_Some _ _ _ Hv).
  pose proof (mo_len _ _ Hok). destruct pr_told as [Hall|]; [|lia].
  pose proof (Forall_lookup_1 _ _ _ _ Hall Hc) as Hx. simpl in Hx. congruence.
Qed.

Lemma ok_notify s tr t th c u ths : monitor_ok s tr → threads s !! t = Some th → cs !! t = Some c →
  at_pc th = Notify → rouse (notify c) u (threads s) = Some ths →
  monitor_ok (Monitor (holder s) (data s) (put t Unlock (local th) ths)) tr.
Proof.
  intros Hok Ht Hc Hn Hr. pose proof (rouse_all_awake _ _ _ _ _ _ _ Hok Ht Hc Hn Hr) as Haw.
  destruct Hok as [Hlen Hinv Ho Hth]. pose proof (rouse_length _ _ _ _ Hr) as Hl.
  pose proof (lookup_lt_Some _ _ _ Ht) as Hlt.
  assert (Htt : ths !! t = Some th).
  { destruct (rouse_lookup _ _ _ _ Hr _ _ Ht) as [?|Hx]; [done|]. rewrite Hx. destruct th as [p l]. simpl in Hn. by rewrite Hn. }
  split; simpl.
  - unfold put. by rewrite length_insert, Hl.
  - rewrite (put_local _ _ _ _ _ Htt eq_refl). by rewrite (rouse_local _ _ _ _ Hr).
  - intros v. simpl. rewrite (Ho v). split.
    + intros (vh & Hv & Hh). destruct (decide (v = t)) as [->|Hne].
      { exists (Thread Unlock (local th)). split; [|done]. apply put_same. lia. }
      destruct (rouse_lookup _ _ _ _ Hr _ _ Hv) as [Hx|Hx]; eexists; (split; [by rewrite put_other|]);
        by rewrite ?roused_holds.
    + intros (vh & Hv & Hh). apply put_lookup in Hv as [[-> ->]|[Hne Hv]]; [|..|lia].
      { exists th. by rewrite Hn. }
      destruct (rouse_lookup_inv _ _ _ _ Hr _ _ Hv) as (wh & Hw & [-> | ->]); exists wh; by rewrite ?roused_holds in Hh.
  - intros v vh c' Hv Hc'. apply put_lookup in Hv as [[-> ->]|[Hne Hv]]; [done|..|lia].
    pose proof (Haw _ _ Hv) as Hna. destruct (rouse_lookup_inv _ _ _ _ Hr _ _ Hv) as (wh & Hw & Hor).
    pose proof (Hth _ _ _ Hw Hc') as Hok. assert (Hk : thread_ok c' (telling s) (data s) vh).
    { destruct Hor as [-> | ->]; [done|by apply thread_ok_roused]. }
    unfold thread_ok, asleep in *. by destruct (at_pc vh).
Qed.

(** [t] moves on and keeps its variables, and the data. *)
Lemma ok_stay s tr t th c p h : monitor_ok s tr → threads s !! t = Some th → cs !! t = Some c →
  h = (if holds p then Some t else if holds (at_pc th) then None else holder s) →
  (holds p = true → holds (at_pc th) = true ∨ holder s = None) →
  (∀ P, thread_ok c P (data s) (Thread p (local th))) → at_pc th ≠ Notify →
  monitor_ok (Monitor h (data s) (put t p (local th) (threads s))) (tr ++ []).
Proof.
  intros Hok Ht Hc Hh Hp Hme Hn. eapply ok_move; eauto. rewrite app_nil_r, list_insert_id; [apply Hok|].
  by rewrite list_lookup_fmap, Ht.
Qed.

Lemma ok_advance s tr t th c u s' es : monitor_ok s tr → threads s !! t = Some th → cs !! t = Some c →
  advance c t u th s = Some (s', es) → monitor_ok s' (tr ++ es).
Proof.
  intros Hok Ht Hc Hs. pose proof (mo_threads _ _ Hok _ _ _ Ht Hc) as Hth. unfold advance in Hs. unfold thread_ok in Hth.
  pose proof (mo_owner _ _ Hok t) as Ho.
  pose proof (Forall_lookup_1 _ _ _ _ pr_unlock Hc) as Hul. simpl in Hul. destruct (at_pc th) eqn:Hp; simplify_eq/=.
  - eapply ok_stay; eauto; rewrite ?Hp; [by destruct (over c (local th))|by destruct (over c (local th))| |done].
    intros P. unfold thread_ok. simpl. by destruct (over c (local th)) eqn:?.
  - destruct (holder s) eqn:Hh; [done|]. simplify_eq. eapply ok_stay; eauto; by rewrite ?Hp.
  - assert (Hh : holder s = Some t) by (apply Ho; exists th; by rewrite Hp).
    destruct (pred c (local th) (data s)) eqn:Hpr; simplify_eq; eapply ok_stay; eauto; rewrite ?Hp; try done; auto.
    intros P. unfold thread_ok. simpl. auto.
  - destruct Hth as [Hov Hpr]. destruct (act c (local th) (data s)) as [[l d] es'] eqn:Ha. simplify_eq.
    assert (Hh : holder s = Some t) by (apply Ho; exists th; by rewrite Hp).
    assert (Hl : (local <$> threads s) !! t = Some (local th)) by by rewrite list_lookup_fmap, Ht.
    destruct (pr_act _ _ _ _ _ _ _ _ _ (mo_inv _ _ Hok) Hc Hl Hov Hpr Ha) as [Hi _].
    eapply ok_move; eauto; rewrite ?Hp; auto. by intros P.
  - destruct (rouse (notify c) u (threads s)) as [ths|] eqn:Hr; [|done]. simplify_eq/=.
    rewrite app_nil_r. by eapply ok_notify.
  - rewrite Hul. eapply ok_stay; eauto; by rewrite ?Hp.
  - done.
Qed.

Lemma client_of s tr t th : monitor_ok s tr → threads s !! t = Some th → ∃ c, cs !! t = Some c.
Proof. intros Hok Ht. apply lookup_lt_is_Some. rewrite <- (mo_len _ _ Hok). by eapply lookup_lt_Some. Qed.

Lemma monitor_ok_step l s tr s' es : monitor_ok s tr → step l s = Some (s', es) → monitor_ok s' (tr ++ es).
Proof.
  intros Hok Hs. destruct l as [t u|t]; simpl in Hs.
  - destruct (cs !! t) as [c|] eqn:Hc; [|done]. destruct (threads s !! t) as [th|] eqn:Ht; [|done]. by eapply ok_advance.
  - destruct (threads s !! t) as [th|] eqn:Ht; [|done]. simpl in Hs. destruct (asleep th) eqn:Ha; [|done]. simplify_eq.
    destruct (client_of _ _ _ _ Hok Ht) as [c Hc].
    pose proof (mo_threads _ _ Hok _ _ _ Ht Hc) as Hth. unfold thread_ok, asleep in *.
    destruct (at_pc th) eqn:Hp; try done. destruct Hth as [Hov _]. eapply ok_stay; eauto; by rewrite ?Hp.
Qed.

Lemma monitor_ok_reach d ls s tr : length ls = length cs → Inv d ls [] →
  reach (monitor_machine d ls) s tr → monitor_ok s tr.
Proof.
  intros Hl Hi. apply reach_inv_tr; [intros ? ->; by apply monitor_ok_init|].
  intros s0 tr0 l s1 es Hok Hs. by eapply monitor_ok_step.
Qed.

(** *** Somebody can go on *)
Definition can_go (s : monitor) : Prop := ∃ t u, is_Some (step (Step t u) s).

Lemma goes s tr t th : monitor_ok s tr → threads s !! t = Some th →
  at_pc th = Head ∨ (at_pc th = Want ∧ holder s = None) ∨ holds (at_pc th) = true → can_go s.
Proof.
  intros Hok Ht Hp. destruct (client_of _ _ _ _ Hok Ht) as [c Hc]. exists t.
  destruct (rouse_some (notify c) (threads s)) as (u & ths & Hr). exists u. simpl. rewrite Hc, Ht. simpl. unfold advance.
  destruct Hp as [-> |[[-> ->]|Hh]]; [done..|]. destruct (at_pc th); try done.
  - by case_match.
  - by destruct (act c _ _) as [[]].
  - by rewrite Hr.
Qed.

Lemma monitor_go s tr : monitor_ok s tr → can_go s ∨ ended s.
Proof.
  intros Hok. destruct (holder s) as [t|] eqn:Hh.
  { apply (mo_owner _ _ Hok) in Hh as (th & Ht & Hhold). left. eapply goes; eauto. }
  destruct (decide (Exists (λ th, at_pc th = Head ∨ at_pc th = Want) (threads s))) as [He|Hne].
  { apply Exists_exists in He as (th & (t & Ht)%list_elem_of_lookup & Hp). left. eapply goes; naive_solver. }
  assert (Hrest : ∀ t th c, threads s !! t = Some th → cs !! t = Some c →
    at_pc th = Ended ∧ over c (local th) = true ∨ at_pc th = Asleep ∧ over c (local th) = false ∧ pred c (local th) (data s) = false).
  { intros t th c Ht Hc. pose proof (mo_threads _ _ Hok _ _ _ Ht Hc) as Hth. unfold thread_ok in Hth.
    assert (Hno : holds (at_pc th) = false).
    { destruct (holds (at_pc th)) eqn:Hx; [|done]. assert (holder s = Some t) by (apply (mo_owner _ _ Hok); eauto). congruence. }
    assert (at_pc th ≠ Head ∧ at_pc th ≠ Want) as [??].
    { split; intros Hx; apply Hne, Exists_exists; exists th; (split; [apply list_elem_of_lookup; by exists t|auto]). }
    destruct (at_pc th) eqn:Hp; try done; [right|by left]. destruct Hth as [? [?|(v & k & Hv)]]; [done|].
    assert (holder s = Some v) by (apply (mo_owner _ _ Hok); by exists (Thread Notify k)). congruence. }
  destruct (decide (Forall (λ th, at_pc th = Ended) (threads s))) as [|Hna]; [by right|].
  apply not_Forall_Exists, Exists_exists in Hna as (th & (t & Ht)%list_elem_of_lookup & Hp); [|apply _].
  destruct (client_of _ _ _ _ Hok Ht) as [c Hc]. destruct (Hrest _ _ _ Ht Hc) as [[? _]|(_ & Hov & _)]; [done|].
  destruct (pr_go _ _ _ t c (local th) (mo_inv _ _ Hok) Hc) as (u & c' & l & Hc' & Hl & Hov' & Hpr);
    [by rewrite list_lookup_fmap, Ht|done|].
  apply list_lookup_fmap_Some in Hl as (uh & -> & Hu). destruct (Hrest _ _ _ Hu Hc') as [[_ ?]|(_ & _ & ?)]; congruence.
Qed.

(** *** Threads that are not woken for nothing stop *)
Definition rank (p : pc) : nat :=
  match p with
  | Head => 4 | Want => 3 | Check => 2 | Act => 1 | Asleep => 0
  | Notify => 6 + 3 * length cs | Unlock => 5 | UnlockAgain => 5 | Ended | Faulted => 0
  end.
Definition thread_left (th : thread) : nat := work (local th) * (6 + 3 * length cs) + rank (at_pc th).
Definition steps_left (s : monitor) : nat := sum_list_with thread_left (threads s).

Lemma left_put s t th p l : threads s !! t = Some th →
  (thread_left (Thread p l) < thread_left th)%nat →
  (sum_list_with thread_left (put t p l (threads s)) < steps_left s)%nat.
Proof. intros Ht Hlt. pose proof (sum_insert thread_left _ _ _ (Thread p l) Ht). unfold steps_left, put. lia. Qed.

Lemma left_rouse w u ths ths' : rouse w u ths = Some ths' →
  (sum_list_with thread_left ths' ≤ sum_list_with thread_left ths + 3 * length ths)%nat.
Proof.
  intros Hr. assert (Hrs : ∀ th, (thread_left (roused th) ≤ thread_left th + 3)%nat).
  { intros [p l]. unfold thread_left. destruct p; simpl; lia. }
  destruct w; simpl in Hr; [|simplify_eq; by apply sum_fmap_le]. destruct (existsb asleep ths); [|simplify_eq; lia].
  destruct (ths !! u) as [th|] eqn:Hu; [|done]. simpl in Hr. destruct (asleep th) eqn:Ha; [|done]. simplify_eq.
  pose proof (sum_insert thread_left _ _ _ (Thread Want (local th)) Hu). pose proof (lookup_lt_Some _ _ _ Hu).
  specialize (Hrs th). unfold roused in Hrs. rewrite Ha in Hrs. lia.
Qed.

Lemma step_left l s tr s' es : monitor_ok s tr → no_spurious l → step l s = Some (s', es) →
  (steps_left s' < steps_left s)%nat.
Proof.
  intros Hok Hl Hs. destruct l as [t u|]; [clear Hl|done]. simpl in Hs.
  destruct (cs !! t) as [c|] eqn:Hc; [|done]. destruct (threads s !! t) as [th|] eqn:Ht; [|done]. simpl in Hs.
  pose proof (mo_threads _ _ Hok _ _ _ Ht Hc) as Hth. unfold thread_ok in Hth. unfold advance in Hs.
  pose proof (Forall_lookup_1 _ _ _ _ pr_unlock Hc) as Hul. simpl in Hul.
  assert (Hstay : ∀ p, (rank p < rank (at_pc th))%nat → (thread_left (Thread p (local th)) < thread_left th)%nat).
  { intros p Hp. unfold thread_left. simpl. lia. }
  destruct (at_pc th) eqn:Hp; simplify_eq/=; unfold steps_left at 1; simpl.
  - eapply left_put; [done|]. apply Hstay. destruct (over _ _); simpl; lia.
  - destruct (holder s); [done|]. simplify_eq/=. eapply left_put; [done|]. apply Hstay. simpl. lia.
  - destruct (pred _ _ _); simplify_eq/=; (eapply left_put; [done|]); apply Hstay; simpl; lia.
  - destruct Hth as [Hov Hpr]. destruct (act c (local th) (data s)) as [[l d] es'] eqn:Ha. simplify_eq/=.
    assert (Hl : (local <$> threads s) !! t = Some (local th)) by by rewrite list_lookup_fmap, Ht.
    destruct (pr_act _ _ _ _ _ _ _ _ _ (mo_inv _ _ Hok) Hc Hl Hov Hpr Ha) as [_ Hw].
    eapply left_put; [done|]. unfold thread_left. rewrite Hp. simpl. nia.
  - destruct (rouse (notify c) u (threads s)) as [ths|] eqn:Hr; [|done]. simplify_eq/=.
    pose proof (left_rouse _ _ _ _ Hr) as Hle. rewrite (mo_len _ _ Hok) in Hle.
    assert (Htt : ths !! t = Some th).
    { destruct (rouse_lookup _ _ _ _ Hr _ _ Ht) as [?|Hx]; [done|]. rewrite Hx. destruct th as [p l]. simpl in Hp. by rewrite Hp. }
    pose proof (sum_insert thread_left _ _ _ (Thread Unlock (local th)) Htt) as Hsum.
    unfold thread_left at 2 4 in Hsum. rewrite Hp in Hsum. simpl in Hsum. unfold steps_left, put. lia.
  - rewrite Hul. eapply left_put; [done|]. apply Hstay. simpl. lia.
  - done.
Qed.

Lemma exec_left d ls0 ls : ∀ s tr s' es, monitor_ok s tr → Forall no_spurious ls →
  exec (monitor_machine d ls0) ls s = Some (s', es) →
  (length ls + steps_left s' ≤ steps_left s)%nat ∧ monitor_ok s' (tr ++ es).
Proof.
  induction ls as [|l ls IH]; intros s tr s' es Hok Hn He; simpl in He.
  { simplify_eq. rewrite app_nil_r. split; [simpl; lia|done]. }
  destruct (step l s) as [[s1 e1]|] eqn:Hs; [|done]. destruct (exec _ ls s1) as [[s2 e2]|] eqn:He2; [|done]. simplify_eq.
  apply Forall_cons in Hn as [Hl Hn]. pose proof (step_left _ _ _ _ _ Hok Hl Hs).
  destruct (IH s1 (tr ++ e1) s' e2) as [Hlen Hok']; [by eapply monitor_ok_step|done..|]. simpl.
  split; [lia|]. by rewrite app_assoc.
Qed.

(** Without spurious wake-ups the threads take a bounded number of steps, and
    when none is left they are all over. *)
Lemma monitor_ends d ls0 ls s es : length ls0 = length cs → Inv d ls0 [] → Forall no_spurious ls →
  exec (monitor_machine d ls0) ls (monitor_init d ls0) = Some (s, es) →
  (length ls ≤ steps_left (monitor_init d ls0))%nat ∧ monitor_ok s es ∧ (can_go s ∨ ended s).
Proof.
  intros Hlen Hi Hn He. destruct (exec_left _ _ _ _ _ _ _ (monitor_ok_init d ls0 Hlen Hi) Hn He) as [Hle Hok].
  split_and!; [lia|done|by eapply monitor_go].
Qed.

Lemma ended_over s tr t c l : monitor_ok s tr → ended s → cs !! t = Some c → (local <$> threads s) !! t = Some l →
  over c l = true.
Proof.
  intros Hok He Hc Hl. apply list_lookup_fmap_Some in Hl as (th & -> & Ht).
  pose proof (mo_threads _ _ Hok _ _ _ Ht Hc) as Hth. unfold thread_ok in Hth.
  pose proof (Forall_lookup_1 _ _ _ _ He Ht) as Hx. simpl in Hx. by rewrite Hx in Hth.
Qed.
End monitor.
Arguments client : clear implicits.
Arguments monitor : clear implicits.

(** ** channel_bench.cpp: a queue between two threads *)
Section channel_tp.
Context {T : Type} (value : T).       (* return_type{}, or bench_str *)

Definition capacity : Z := 16.
Inductive queue_event := Pushed (v : T) | Took (v : T).

(** The local variable of both is [int total_num]. *)
Definition remaining (total_num : Z) : bool := bool_decide (total_num <= 0).

Definition producer_cnt (total_num : Z) (que : list T) : Z :=
  let cnt := s32 (u64 (capacity - Z.of_nat (length que))) in if decide (total_num < cnt) then total_num else cnt.

Definition channel_producer_tp : client (list T) Z queue_event := {|
  over := remaining;
  pred _ que := bool_decide (Z.of_nat (length que) < capacity);
  act total_num que :=
    let cnt := producer_cnt total_num que in
    let vs := replicate (Z.to_nat cnt) value in
    (s32 (total_num - cnt), que ++ vs, Pushed <$> vs);
  notify := NotifyAll;
  unlocks := false;
|}.

(** [while (!que.empty())]: take the front, [total_num--]. *)
Fixpoint drain (que : list T) (total_num : Z) : Z :=
  match que with [] => total_num | _ :: que => drain que (s32 (total_num - 1)) end.

Definition channel_consumer_tp : client (list T) Z queue_event := {|
  over := remaining;
  pred _ que := negb (bool_decide (que = []));
  act total_num que := (drain que total_num, [], Took <$> que);
  notify := NotifyAll;
  unlocks := false;
|}.

Definition channel_tp : list (client (list T) Z queue_event) := [channel_producer_tp; channel_consumer_tp].
Definition channel_tp_machine (n : Z) := monitor_machine channel_tp [] [n; n].

Definition pushed (tr : list queue_event) : list T := omap (λ e, match e with Pushed v => Some v | _ => None end) tr.
Definition took (tr : list queue_event) : list T := omap (λ e, match e with Took v => Some v | _ => None end) tr.

Lemma events_of vs : pushed (Pushed <$> vs) = vs ∧ took (Pushed <$> vs) = [] ∧
  pushed (Took <$> vs) = [] ∧ took (Took <$> vs) = vs.
Proof. unfold pushed, took. induction vs as [|v vs (H1 & H2 & H3 & H4)]; csimpl; [done|]. by rewrite H1, H2, H3, H4. Qed.

Lemma queue_pushed_app t1 t2 : pushed (t1 ++ t2) = pushed t1 ++ pushed t2.
Proof. apply omap_app. Qed.
Lemma queue_took_app t1 t2 : took (t1 ++ t2) = took t1 ++ took t2.
Proof. apply omap_app. Qed.

Lemma drain_sum que : ∀ total_num, Z.of_nat (length que) <= total_num < 2 ^ 31 →
  drain que total_num = total_num - Z.of_nat (length que).
Proof.
  induction que as [|v que IH]; intros m Hm; simpl in *; [lia|]. rewrite sw_small by lia. rewrite IH by lia. lia.
Qed.

(** What was pushed, what was taken, what is left to do. *)
Definition queue_inv (n : Z) (que : list T) (ls : list Z) (tr : list queue_event) : Prop :=
  ∃ p c, ls = [p; c] ∧ 0 <= p ∧ 0 <= c ∧ Z.of_nat (length que) <= capacity ∧
    pushed tr = took tr ++ que ∧ pushed tr = replicate (Z.to_nat (n - p)) value ∧
    p <= n ∧ Z.of_nat (length (took tr)) = n - c.

Lemma queue_counts n que p c tr : queue_inv n que [p; c] tr → c = p + Z.of_nat (length que).
Proof.
  intros (p' & c' & [= <- <-] & Hp & Hc & Hq & Hpt & Hpr & Hn & Ht). rewrite Hpt in Hpr.
  apply (f_equal length) in Hpr. rewrite length_app, length_replicate in Hpr. lia.
Qed.

Lemma producer_acts n que p c tr : n < 2 ^ 31 → queue_inv n que [p; c] tr → 0 < p → Z.of_nat (length que) < capacity →
  let cnt := producer_cnt p que in let vs := replicate (Z.to_nat cnt) value in
  queue_inv n (que ++ vs) [s32 (p - cnt); c] (tr ++ (Pushed <$> vs)) ∧ (Z.to_nat (s32 (p - cnt)) < Z.to_nat p)%nat.
Proof.
  intros Hn (p' & c' & [= <- <-] & Hp0 & Hc & Hq & Hpt & Hrep & Hpn & Htk) Hp Hlt cnt vs.
  destruct (events_of vs) as (E1 & E2 & _).
  assert (Hcn : cnt = Z.min p (capacity - Z.of_nat (length que))).
  { unfold cnt, producer_cnt, capacity in *. rewrite (uw_small 64) by lia. rewrite sw_small by lia. case_decide; lia. }
  clearbody cnt. subst cnt. unfold capacity in *. rewrite sw_small by lia. split; [|lia].
  unfold queue_inv. rewrite queue_pushed_app, queue_took_app, E1, E2, app_nil_r. eexists _, c. split; [done|].
  split_and!; try lia; subst vs.
  - rewrite length_app, length_replicate. unfold capacity. lia.
  - by rewrite Hpt, app_assoc.
  - rewrite Hrep, <- replicate_add. f_equal. lia.
Qed.

Lemma consumer_acts n que p c tr : n < 2 ^ 31 → queue_inv n que [p; c] tr → que ≠ [] →
  queue_inv n [] [p; drain que c] (tr ++ (Took <$> que)) ∧ (Z.to_nat (drain que c) < Z.to_nat c)%nat.
Proof.
  intros Hn Hi Hne. pose proof (queue_counts _ _ _ _ _ Hi) as Hcnt.
  destruct Hi as (p' & c' & [= <- <-] & Hp0 & Hc & Hq & Hpt & Hrep & Hpn & Htk).
  destruct (events_of que) as (_ & _ & E3 & E4). rewrite drain_sum by lia. split.
  - unfold queue_inv. rewrite queue_pushed_app, queue_took_app, E3, E4, !app_nil_r, length_app. eexists p, _. split; [done|].
    unfold capacity. simpl. split_and!; try done; lia.
  - destruct que; [done|]. simpl in *. lia.
Qed.

#[export] Instance channel_tp_progressing n : 0 <= n < 2 ^ 31 → Progressing channel_tp (queue_inv n) Z.to_nat.
Proof.
  intros Hn. split.
  - intros que ls tr t cl l l' que' es Hi Hc Hl Hov Hpr Ha. pose proof Hi as (p & c & -> & _).
    destruct t as [|[|t]]; [| |done]; injection Hc as <-; injection Hl as <-; injection Ha as <- <- <-; apply bool_decide_eq_false in Hov.
    + apply bool_decide_eq_true in Hpr. apply producer_acts; [lia|done|lia|done].
    + apply negb_true_iff, bool_decide_eq_false in Hpr. apply consumer_acts; [lia|done..].
  - intros que ls tr t cl l Hi Hc Hl Hov. pose proof Hi as (p & c & -> & Hp & Hc0 & _).
    pose proof (queue_counts _ _ _ _ _ Hi) as Hcnt.
    assert (Hc' : 0 < c).
    { destruct t as [|[|t]]; [| |done]; injection Hc as <-; injection Hl as <-; apply bool_decide_eq_false in Hov; lia. }
    destruct (decide (que = [])) as [->|Hne].
    + exists 0%nat, channel_producer_tp, p. simpl in *. split_and!; try done. apply bool_decide_eq_false. lia.
    + exists 1%nat, channel_consumer_tp, c. split_and!; try done; simpl; [apply bool_decide_eq_false; lia|by rewrite bool_decide_false].
  - left. by repeat constructor.
  - by repeat constructor.
Qed.

Lemma queue_inv_init n : 0 <= n → queue_inv n [] [n; n] [].
Proof. intros Hn. exists n, n. split; [done|]. unfold capacity. simpl. rewrite Z.sub_diag. split_and!; try done; lia. Qed.
End channel_tp.

(** ** condition_variable_bench.cpp: turns *)

(** The data is [int gid], the local variable [int run_cnt], the event the id. *)
Definition notify_one_tp (id : Z) : client Z Z Z := {|
  over := remaining;
  pred _ gid := bool_decide (id = gid);
  act run_cnt gid := (s32 (run_cnt - 1), Z.rem (s32 (gid + 1)) 2, [id]);
  notify := NotifyOne;
  unlocks := false;
|}.
Definition turns_machine (run_cnt : Z) := monitor_machine [notify_one_tp 0; notify_one_tp 1] 0 [run_cnt; run_cnt].

(** The ids in turn. *)
Definition turns (k : nat) : list Z := (λ i, Z.of_nat (i mod 2)) <$> seq 0 k.

(** The local variable of [notify_all_tp] is 1 until it has run. *)
Definition notify_all_tp (id : Z) : client Z Z Z := {|
  over := remaining;
  pred _ gid := bool_decide (id = gid);
  act _ gid := (0, s32 (gid + 1), [id]);
  notify := NotifyAll;
  unlocks := true;
|}.

Lemma turns_snoc k : turns (S k) = turns k ++ [Z.of_nat (k mod 2)].
Proof. unfold turns. by rewrite seq_S, fmap_app. Qed.

(** Thread 0 is first; [gid] is who is next. *)
Definition turns_inv (n gid : Z) (ls : list Z) (tr : list Z) : Prop :=
  ∃ a b, ls = [a; b] ∧ 0 <= a ∧ b <= n ∧ tr = turns (Z.to_nat (2 * n - a - b)) ∧
    (gid = 0 ∧ a = b ∨ gid = 1 ∧ b = a + 1).

#[export] Instance turns_progressing n : n < 2 ^ 31 →
  Progressing [notify_one_tp 0; notify_one_tp 1] (turns_inv n) Z.to_nat.
Proof.
  intros Hn. split.
  - intros gid ls tr t cl l l' gid' es (a & b & -> & Ha & Hb & -> & Hg) Hc Hl Hov Hpr Hact.
    assert (Hnext : ∀ k, Z.to_nat (k + 1) = S (Z.to_nat k) ∨ k < 0) by lia.
    destruct t as [|[|t]]; [| |done]; injection Hc as <-; injection Hl as <-; injection Hact as <- <- <-;
      apply bool_decide_eq_false in Hov; apply bool_decide_eq_true in Hpr; simpl; rewrite (sw_small 32 (_ - 1)) by lia;
      (split; [|lia]); eexists _, _; (split; [done|]); (split; [lia|]); (split; [lia|]).
    + destruct Hg as [[-> ->]|[-> _]]; [|done]. split; [|by right; split; [|lia]].
      replace (2 * n - (b - 1) - b) with (2 * (n - b) + 1) by lia. destruct (Hnext (2 * (n - b))) as [-> |]; [|lia].
      rewrite turns_snoc. f_equal; [do 2 f_equal; lia|]. do 2 f_equal.
      replace (Z.to_nat (2 * (n - b))) with (Z.to_nat (n - b) * 2)%nat by lia. by rewrite Nat.Div0.mod_mul.
    + destruct Hg as [[-> _]|[-> ->]]; [done|]. split; [|by left; split; [|lia]].
      replace (2 * n - a - (a + 1 - 1)) with (2 * (n - a - 1) + 1 + 1) by lia. destruct (Hnext (2 * (n - a - 1) + 1)) as [-> |]; [|lia].
      rewrite turns_snoc. f_equal; [do 2 f_equal; lia|]. do 2 f_equal.
      replace (Z.to_nat (2 * (n - a - 1) + 1)) with (1 + Z.to_nat (n - a - 1) * 2)%nat by lia. by rewrite Nat.Div0.mod_add.
  - intros gid ls tr t cl l (a & b & -> & Ha & Hb & _ & Hg) Hc Hl Hov.
    assert (Hov' : 0 < b).
    { destruct t as [|[|t]]; [| |done]; injection Hc as <-; injection Hl as <-; apply bool_decide_eq_false in Hov; lia. }
    destruct Hg as [[-> ->]|[-> ->]]; [exists 0%nat, (notify_one_tp 0), b|exists 1%nat, (notify_one_tp 1), (a + 1)];
      (split_and!; [done..| |done]); simpl; apply bool_decide_eq_false; lia.
  - right. simpl. lia.
  - by repeat constructor.
Qed.

(** ** Properties *)

(** C32: two threads and a queue: for any [n], without spurious wake-ups they
    take at most [24 n + 8] steps, whatever the schedule; when they cannot go on
    they are both over, and the consumer has taken the [n] values; up to then
    there are never more than 16 in the queue and none is lost. *)
Theorem stl_channel_completes {T} (value : T) n ls s es :
  0 <= n < 2 ^ 31 → Forall no_spurious ls →
  exec (channel_tp_machine value n) ls (monitor_init [] [n; n]) = Some (s, es) →
  (length ls ≤ 24 * Z.to_nat n + 8)%nat ∧
  pushed es = took es ++ data s ∧ Z.of_nat (length (data s)) <= 16 ∧
  (can_go (channel_tp value) s ∨ ended s ∧ took es = replicate (Z.to_nat n) value).
Proof.
  intros Hn Hls He. pose proof (channel_tp_progressing value n Hn) as Hpr.
  destruct (monitor_ends (channel_tp value) (Inv := queue_inv value n) [] [n; n] ls s es eq_refl (queue_inv_init value n ltac:(lia)) Hls He)
    as (Hle & Hok & Hgo).
  pose proof (mo_inv _ _ _ Hok) as Hi. destruct Hi as (p & c & Hl & Hp & Hc & Hq & Hpt & Hrep & Hpn & Htk).
  split_and!; [unfold steps_left, thread_left in Hle; simpl in Hle; lia|done|done|].
  destruct Hgo as [Hgo|Hend]; [by left|right]. split; [done|].
  assert (H0 : remaining p = true) by (eapply (ended_over _ _ _ 0 (channel_producer_tp value)); [done|done|done|by rewrite Hl]).
  assert (H1 : remaining c = true) by (eapply (ended_over _ _ _ 1 channel_consumer_tp); [done|done|done|by rewrite Hl]).
  apply bool_decide_eq_true in H0, H1. assert (p = 0) as -> by lia. assert (c = 0) as -> by lia.
  rewrite Z.sub_0_r in *. rewrite Hpt in Hrep. pose proof (f_equal length Hrep) as Hlen.
  rewrite length_app, length_replicate in Hlen. assert (data s = []) as Hd by (destruct (data s); [done|simpl in Hlen; lia]).
  by rewrite Hd, app_nil_r in Hrep.
Qed.

(** A pool of one thread, or contexts of one worker, run the second client when
    the first is over. *)
Definition one_by_one {D L} (l : label) (s : monitor D L) : bool :=
  match l with
  | Step 0 _ | Spurious _ => true
  | Step _ _ => match threads s !! 0%nat with Some th => bool_decide (at_pc th = Ended) | None => true end
  end.

(** with one thread only the benchmark hangs, whatever the wake-ups: the
    producer waits for room, and the consumer is never run. *)
Theorem one_thread_hangs {T} (value : T) n s tr : 16 < n < 2 ^ 31 →
  reach (restrict one_by_one (channel_tp_machine value n)) s tr →
  took tr = [] ∧ ¬ ended s ∧ ∃ p, threads s !! 0%nat = Some p ∧ at_pc p ≠ Ended.
Proof.
  intros Hn Hr. pose proof (channel_tp_progressing value n ltac:(lia)) as Hpr.
  set (J := λ s tr, monitor_ok (channel_tp value) (Inv := queue_inv value n) s tr ∧ threads s !! 1%nat = Some (Thread Head n)).
  assert (Hnot : ∀ s tr, J s tr → took tr = [] ∧ ∃ p, threads s !! 0%nat = Some p ∧ at_pc p ≠ Ended).
  { intros s0 tr0 [Hok H1]. pose proof (mo_inv _ _ _ Hok) as Hi. pose proof Hi as (p & c & Hl & Hp & _ & Hq & Hpt & Hrep & Hpn & Htk).
    rewrite Hl in Hi. apply queue_counts in Hi. assert (c = n) as ->.
    { pose proof (f_equal (.!! 1%nat) Hl) as H. by rewrite list_lookup_fmap, H1 in H; injection H. }
    assert (Ht : took tr0 = []) by (destruct (took tr0); [done|simpl in Htk; lia]). split; [done|].
    assert (Hl0 : (local <$> threads s0) !! 0%nat = Some p) by by rewrite Hl.
    apply list_lookup_fmap_Some in Hl0 as (th & -> & H0). exists th. split; [done|]. intros He.
    pose proof (mo_threads _ _ _ Hok _ _ (channel_producer_tp value) H0 eq_refl) as Hth. unfold thread_ok in Hth.
    rewrite He in Hth. apply bool_decide_eq_true in Hth. unfold capacity in Hq. lia. }
  assert (HJ : J s tr).
  { revert s tr Hr. apply reach_inv_tr.
    - intros s0 ->. split; [apply monitor_ok_init; [done|apply queue_inv_init; lia]|done].
    - intros s0 tr0 l s' es HJ Hs. destruct (Hnot _ _ HJ) as (_ & p & H0 & Hne). destruct HJ as [Hok H1].
      apply restrict_step in Hs as [Ho Hs]. split; [exact (monitor_ok_step _ _ _ _ _ _ Hok Hs)|].
      eapply step_keeps; [exact Hs|done|done|]. intros v ->. simpl in Ho. rewrite H0 in Ho. by apply bool_decide_eq_true in Ho. }
  destruct (Hnot _ _ HJ) as (Ht & p & H0 & Hne). split_and!; [done| |by exists p].
  intros He. by pose proof (Forall_lookup_1 _ _ _ _ He H0).
Qed.

(** two threads that take turns: without spurious wake-ups they take at
    most [24 n + 8] steps; when they cannot go on they are both over, and have
    alternated, [n] times each, thread 0 first. *)
Theorem stl_turns_alternate n ls s es : 0 <= n < 2 ^ 31 → Forall no_spurious ls →
  exec (turns_machine n) ls (monitor_init 0 [n; n]) = Some (s, es) →
  (length ls ≤ 24 * Z.to_nat n + 8)%nat ∧ es = turns (length es) ∧
  (can_go [notify_one_tp 0; notify_one_tp 1] s ∨ ended s ∧ length es = (2 * Z.to_nat n)%nat).
Proof.
  intros Hn Hls He. pose proof (turns_progressing n ltac:(lia)) as Hpr.
  destruct (monitor_ends [notify_one_tp 0; notify_one_tp 1] (Inv := turns_inv n) 0 [n; n] ls s es eq_refl) as (Hle & Hok & Hgo);
    [|done..|].
  { exists n, n. split_and!; [done|lia|lia| |by left]. by replace (2 * n - n - n) with 0 by lia. }
  pose proof (mo_inv _ _ _ Hok) as (a & b & Hl & Ha & Hb & Htr & Hg).
  assert (Hlen : length es = Z.to_nat (2 * n - a - b)) by (rewrite Htr; unfold turns; by rewrite length_fmap, length_seq).
  split_and!; [unfold steps_left, thread_left in Hle; simpl in Hle; lia|by rewrite Hlen|].
  destruct Hgo as [Hgo|Hend]; [by left|right]. split; [done|].
  assert (H0 : remaining a = true) by (eapply (ended_over _ _ _ 0 (notify_one_tp 0)); [done|done|done|by rewrite Hl]).
  assert (H1 : remaining b = true) by (eapply (ended_over _ _ _ 1 (notify_one_tp 1)); [done|done|done|by rewrite Hl]).
  apply bool_decide_eq_true in H0, H1. lia.
Qed.

(** [notify_all_tp] unlocks the mutex that its [unique_lock] owns: when the
    [unique_lock] goes, the thread unlocks a mutex that it does not own. *)
Theorem notify_all_unlocks_twice ids s t u id l : ids !! t = Some id →
  threads s !! t = Some (Thread Unlock l) →
  ∃ s', exec (monitor_machine (notify_all_tp <$> ids) 0 []) [Step t u; Step t u] s = Some (s', []) ∧
    threads s' !! t = Some (Thread Faulted l).
Proof.
  intros Hid Ht. pose proof (lookup_lt_Some _ _ _ Ht) as Hlt. simpl. rewrite list_lookup_fmap, Hid, Ht. simpl.
  unfold put. rewrite list_lookup_insert_eq by done. simpl. eexists. split; [done|]. simpl. apply list_lookup_insert_eq.
  by rewrite length_insert.
Qed.

(** ** Witnesses *)

(** The consumer looks first, sleeps, and is woken. *)
Definition channel_run : list label := [Step 1 0; Step 1 0; Step 1 0] ++ replicate 6 (Step 0 1) ++ replicate 6 (Step 1 0) ++ [Step 0 1].

Lemma stl_channel_completes_witness : ∃ s es,
  exec (channel_tp_machine 7%nat 3) channel_run (monitor_init [] [3; 3]) = Some (s, es) ∧
  took es = [7; 7; 7]%nat ∧ (length channel_run ≤ 80)%nat ∧
  (can_go (channel_tp 7%nat) s ∨ ended s ∧ took es = replicate 3 7%nat).
Proof.
  eexists _, _. split; [vm_compute; reflexivity|]. split; [done|].
  edestruct (stl_channel_completes 7%nat 3 channel_run) as (Hl & _ & _ & H); [lia| |vm_compute; reflexivity|].
  - by repeat constructor.
  - split; [exact Hl|exact H].
Defined.

(** The producer fills the queue, goes round once more, and sleeps. *)
Definition full_run : list label := replicate 9 (Step 0 0).
Lemma one_thread_hangs_witness : ∃ s tr, exec (restrict one_by_one (channel_tp_machine 7%nat 20)) full_run (monitor_init [] [20; 20]) = Some (s, tr) ∧
  length (pushed tr) = 16%nat ∧ took tr = [] ∧ ¬ ended s.
Proof.
  eexists _, _. split; [vm_compute; reflexivity|]. split; [done|].
  edestruct (one_thread_hangs 7%nat 20) as (H1 & H2 & _); [lia| |split; [exact H1|exact H2]].
  eapply exec_reach; [done|]. instantiate (1 := full_run). vm_compute. reflexivity.
Defined.

Definition turns_run : list label :=
  replicate 3 (Step 1 1) ++ replicate 6 (Step 0 1) ++ replicate 6 (Step 1 0) ++ [Step 0 0].
Lemma stl_turns_alternate_witness : ∃ s es, exec (turns_machine 1) turns_run (monitor_init 0 [1; 1]) = Some (s, es) ∧
  es = [0; 1] ∧ (length turns_run ≤ 32)%nat.
Proof.
  eexists _, _. split; [vm_compute; reflexivity|]. split; [done|].
  edestruct (stl_turns_alternate 1 turns_run) as (Hl & _); [lia| |vm_compute; reflexivity|exact Hl]. by repeat constructor.
Defined.

Lemma notify_all_unlocks_twice_witness : ∃ s tr,
  exec (monitor_machine [notify_all_tp 0] 0 [1]) (replicate 5 (Step 0 0)) (monitor_init 0 [1]) = Some (s, tr) ∧
  ∃ s', exec (monitor_machine (notify_all_tp <$> [0]) 0 []) [Step 0 0; Step 0 0] s = Some (s', []) ∧
    threads s' !! 0%nat = Some (Thread Faulted 0).
Proof.
  eexists _, _. split; [vm_compute; reflexivity|]. by apply (notify_all_unlocks_twice [0] _ 0 0 0).
Defined.
