(* ===== verification/Spinlock.v ===== *)
(** * coro::detail::spinlock (include/coro/spinlock.hpp)

    The lock of the condition variables' lists, every atomic access a step. *)
From S2P Require Import Prelude.

Inductive pc :=
  | Exchange                          (* lock: lock_.exchange(true) *)
  | Spin                              (* lock: while (lock_.load()) *)
  | TryExchange                       (* try_lock: the load gave false *)
  | Critical.                         (* holds the lock *)

Record spinlock := SpinlockS { lock_ : bool; pcs : gmap nat pc }.

Inductive label :=
  | Lock (t : nat)
  | TryLock (t : nat)
  | Unlock (t : nat)
  | Step (t : nat).

Inductive event :=
  | Entered (t : nat)
  | TryFailed (t : nat).

Definition init : spinlock := SpinlockS false ∅.
Definition set_pc (t : nat) (p : pc) (s : spinlock) : spinlock := SpinlockS (lock_ s) (<[t := p]> (pcs s)).

(** [lock_.exchange(true)]: the old value, and the lock taken. *)
Definition exchange (s : spinlock) : bool * spinlock := (lock_ s, SpinlockS true (pcs s)).

Definition lock (t : nat) (p : pc) (s : spinlock) : option (spinlock * list event) :=
  match p with
  | Exchange =>
      let '(old, s) := exchange s in
      if old then Some (set_pc t Spin s, []) else Some (set_pc t Critical s, [Entered t])
  | Spin => if lock_ s then Some (s, []) else Some (set_pc t Exchange s, [])
  | TryExchange =>
      let '(old, s) := exchange s in
      if old then Some (SpinlockS (lock_ s) (delete t (pcs s)), [TryFailed t])
      else Some (set_pc t Critical s, [Entered t])
  | Critical => None
  end.

Definition try_lock (t : nat) (s : spinlock) : spinlock * list event :=
  if lock_ s then (s, [TryFailed t]) else (set_pc t TryExchange s, []).

Definition unlock (t : nat) (s : spinlock) : spinlock := SpinlockS false (delete t (pcs s)).

Definition step (l : label) (s : spinlock) : option (spinlock * list event) :=
  match l with
  | Lock t => if decide (pcs s !! t = None) then Some (set_pc t Exchange s, []) else None
  | TryLock t => if decide (pcs s !! t = None) then Some (try_lock t s) else None
  | Unlock t => match pcs s !! t with Some Critical => Some (unlock t s, []) | _ => None end
  | Step t => p ← pcs s !! t; lock t p s
  end.

Definition spin_machine : machine spinlock label event := Machine (λ s, s = init) step.

(** The flag is set exactly when somebody is inside, and then it is one. *)
Definition guarded (s : spinlock) : Prop :=
  (∀ t1 t2, pcs s !! t1 = Some Critical → pcs s !! t2 = Some Critical → t1 = t2) ∧
  (lock_ s = true ↔ ∃ t, pcs s !! t = Some Critical).

Lemma guarded_outside s t p : guarded s → pcs s !! t ≠ Some Critical → p ≠ Critical →
  guarded (set_pc t p s).
Proof.
  intros [H1 H2] Ht Hp. split; simpl.
  - intros t1 t2 ??. lookup_cases. by apply H1.
  - rewrite H2. split; intros [u Hu]; exists u.
    + rewrite lookup_insert_ne; [done|]. by intros ->.
    + by lookup_cases.
Qed.

Lemma guarded_enter s t : guarded s → lock_ s = false →
  guarded (SpinlockS true (<[t := Critical]> (pcs s))).
Proof.
  intros [H1 H2] Hl. assert (Hno : ∀ u, pcs s !! u ≠ Some Critical).
  { intros u Hu. rewrite (proj2 H2) in Hl; [done|]. by exists u. }
  split; simpl.
  - intros t1 t2 Ht1 Ht2. lookup_cases; try done; by destruct (Hno _ Ht1) + destruct (Hno _ Ht2).
  - split; [|done]. intros _. exists t. apply lookup_insert_eq.
Qed.

Lemma guarded_step l s s' es : guarded s → step l s = Some (s', es) → guarded s'.
Proof.
  intros Hg Hs. destruct l as [t|t|t|t]; simpl in Hs.
  - case_decide as Ht; [|done]. simplify_eq. apply guarded_outside; [done|by rewrite Ht|done].
  - case_decide as Ht; [|done]. unfold try_lock in Hs. destruct (lock_ s) eqn:Hl; simplify_eq; [done|].
    apply guarded_outside; [done|by rewrite Ht|done].
  - destruct (pcs s !! t) as [[]|] eqn:Ht; try done. simplify_eq. destruct Hg as [H1 H2].
    assert (Hno : ∀ u, u ≠ t → pcs s !! u ≠ Some Critical) by (intros u Hu Hc; by apply Hu, H1).
    split; simpl.
    + intros t1 t2 ??. lookup_cases. by apply H1.
    + split; [done|]. intros [u Hu]. lookup_cases. by destruct (Hno u).
  - destruct (pcs s !! t) as [p|] eqn:Ht; [|done]. simpl in Hs.
    assert (Hpc : ∀ q, p ≠ Critical → q ≠ Critical → lock_ s = true →
      guarded (SpinlockS true (<[t := q]> (pcs s)))).
    { intros q Hp Hq Hl. pose proof (guarded_outside s t q Hg) as H. unfold set_pc in H.
      rewrite Hl in H. apply H; congruence. }
    destruct p; simpl in Hs; try done; destruct (lock_ s) eqn:Hl; simplify_eq; try done.
    + exact (Hpc Spin ltac:(done) ltac:(done) eq_refl).
    + exact (guarded_enter s t Hg Hl).
    + by apply (guarded_outside s t Exchange); [|congruence|].
    + destruct Hg as [H1 H2]. split; simpl.
      * intros t1 t2 ??. lookup_cases. by apply H1.
      * split; [|done]. intros _. destruct (proj1 H2 Hl) as [u Hu]. exists u.
        rewrite lookup_delete_ne; [done|]. intros <-. congruence.
    + exact (guarded_enter s t Hg Hl).
Qed.

(** ** Properties *)

(** the spinlock excludes: never two threads inside, and the flag is set
    exactly while one is. *)
Theorem spinlock_excludes s tr : reach spin_machine s tr →
  (∀ t1 t2, pcs s !! t1 = Some Critical → pcs s !! t2 = Some Critical → t1 = t2) ∧
  (lock_ s = true ↔ ∃ t, pcs s !! t = Some Critical).
Proof.
  intros Hr. revert s tr Hr. apply (reach_inv _ guarded).
  - intros s ->. split; [done|]. split; [done|]. by intros [t Ht].
  - intros s l s' es Hg Hs. exact (guarded_step l s s' es Hg Hs).
Qed.

(** a thread in [lock] gets in within two of its steps once the lock is
    free and nobody interferes; [try_lock] gets in or gives up in two. *)
Theorem spinlock_progress s t p : pcs s !! t = Some p → lock_ s = false → p ≠ Critical →
  ∃ n s', n ≤ 2 ∧ exec spin_machine (replicate n (Step t)) s = Some (s', [Entered t]) ∧
    pcs s' !! t = Some Critical.
Proof.
  intros Ht Hl Hp. destruct p; [exists 1|exists 2|exists 1|done]; eexists; (split; [lia|]);
    simpl; rewrite Ht; simpl; rewrite Hl; simpl; rewrite ?lookup_insert_eq; simpl; rewrite ?Hl; simpl;
    (split; [done|]); apply lookup_insert_eq.
Qed.

(** ** Witnesses *)
Definition spin_demo : list label := [Lock 1; Lock 2; Step 1; Step 2; Step 2; TryLock 3].

Lemma spinlock_excludes_witness :
  pcs (final spin_machine spin_demo init) !! 1 = Some Critical ∧ lock_ (final spin_machine spin_demo init) = true.
Proof.
  split; [by vm_compute|].
  apply (spinlock_excludes _ (trace spin_machine spin_demo init)).
  - apply exec_reach_final; [done|by vm_compute].
  - exists 1. by vm_compute.
Defined.

Lemma spinlock_progress_witness : ∃ n s', n ≤ 2 ∧
  exec spin_machine (replicate n (Step 2)) (final spin_machine (spin_demo ++ [Unlock 1]) init) = Some (s', [Entered 2]) ∧
  pcs s' !! 2 = Some Critical.
Proof. apply (spinlock_progress _ 2 Spin); by vm_compute. Defined.
