(* ===== verification/LockBench.v ===== *)
(** * Locks as the benchmarks use them

    [Lock] is what std::mutex, [detail::spinlock] and [coro::mutex] promise to
    the coroutines of mutex_bench.cpp, which lock, count and unlock: one inside
    at a time, and nobody waits for a lock for ever that is free. The
    implementations are in [MutexBench.v]. *)
From S2P Require Import Prelude Gate.
Local Open Scope Z_scope.
Local Open Scope coro_scope.

(** Where a coroutine is: in no call and without the lock, in [lock], with the
    lock, in [unlock]. *)
Inductive place := Outside | Entering | Inside | Leaving.
#[export] Instance place_eq_dec : EqDecision place.
Proof. solve_decision. Defined.

Class Lock (S L : Type) := {
  at_lock : S → nat → place;
  l_lock : nat → ptr → nat → L;       (* lock(), the awaiter at an address, on a context *)
  l_unlock : nat → L;
  l_step : nat → bool → L;            (* a step of the call of a coroutine *)
}.

Section lock.
Context {S L E : Type} `{!Lock S L} (M : machine S L E).

Definition same_places (t : nat) (s s' : S) : Prop := ∀ u, u ≠ t → at_lock s' u = at_lock s u.

Class LockLaws : Prop := {
  ll_init s t : m_init M s → at_lock s t = Outside;
  ll_lock s tr t a c s' es : reach M s tr → m_step M (l_lock t a c) s = Some (s', es) →
    at_lock s' t = Entering ∧ same_places t s s';
  ll_unlock s tr t s' es : reach M s tr → m_step M (l_unlock t) s = Some (s', es) →
    (at_lock s' t = Leaving ∨ at_lock s' t = Outside) ∧ same_places t s s';
  ll_step s tr t sp s' es : reach M s tr → m_step M (l_step t sp) s = Some (s', es) →
    match at_lock s t with
    | Entering => at_lock s' t = Entering ∨ at_lock s' t = Inside
    | Leaving => at_lock s' t = Leaving ∨ at_lock s' t = Outside
    | Outside | Inside => False
    end ∧ same_places t s s';
  ll_exclusive s tr t1 t2 : reach M s tr → at_lock s t1 = Inside → at_lock s t2 = Inside → t1 = t2;
  ll_can_lock s tr t c : reach M s tr → at_lock s t = Outside → ∃ a, is_Some (m_step M (l_lock t a c) s);
  ll_can_unlock s tr t : reach M s tr → at_lock s t = Inside → is_Some (m_step M (l_unlock t) s);
  (* unlock comes to its end, and so does somebody's lock when nobody has the lock *)
  ll_leave s tr t : reach M s tr → at_lock s t = Leaving →
    ∃ n s' es, exec M (replicate n (l_step t false)) s = Some (s', es) ∧ at_lock s' t = Outside;
  ll_enter s tr t : reach M s tr → at_lock s t = Entering → (∀ u, at_lock s u ≠ Inside ∧ at_lock s u ≠ Leaving) →
    ∃ u n s' es, exec M (replicate n (l_step u false)) s = Some (s', es) ∧ at_lock s' u = Inside;
}.

Lemma run_places `{!LockLaws} n t : ∀ s tr s' es, reach M s tr →
  exec M (replicate n (l_step t false)) s = Some (s', es) → same_places t s s'.
Proof.
  induction n as [|n IH]; intros s tr s' es Hr He; simpl in He; [by simplify_eq|].
  destruct (m_step M (l_step t false) s) as [[s1 e1]|] eqn:Hs; [|done].
  destruct (exec M _ s1) as [[s2 e2]|] eqn:He2; [|done]. simplify_eq.
  destruct (ll_step s tr t false s1 e1 Hr Hs) as (_ & Ho). assert (Hr1 : reach M s1 (tr ++ e1)) by by econstructor.
  intros u Hu. rewrite (IH s1 _ _ _ Hr1 He2 u Hu). by apply Ho.
Qed.
End lock.

(** ** The benchmark *)
Inductive lock_action := LockIt | CountUp | UnlockIt.
#[export] Instance lock_action_eq_dec : EqDecision lock_action.
Proof. solve_decision. Defined.

(** [add]: lock, [loop_add], unlock. *)
Definition add_code : list lock_action := [LockIt; CountUp; UnlockIt].

Section bench.
Context {S L E : Type} `{!Lock S L} (M : machine S L E).
Context (ctx_of : nat → nat) (loop_num : Z).

Record locked := Locked {
  the_lock : S;
  todo : list (list lock_action);     (* what is left of each *)
}.

Definition lock_call (l : L) (s : locked) : option (locked * list (bench_event (E:=E))) :=
  match m_step M l (the_lock s) with
  | Some (g, es) => Some (Locked g (todo s), OfGate <$> es)
  | None => None
  end.

Definition lock_act (t : nat) (a : ptr) (x : lock_action) (s : locked) : option (locked * list (bench_event (E:=E))) :=
  match x with
  | LockIt => lock_call (l_lock t a (ctx_of t)) s
  | CountUp => Some (s, [Added t (loop_add loop_num)])
  | UnlockIt => lock_call (l_unlock t) s
  end.

Definition in_call (s : locked) (t : nat) : bool :=
  match at_lock (the_lock s) t with Entering | Leaving => true | _ => false end.

Definition lockers_step (l : bench_label) (s : locked) : option (locked * list (bench_event (E:=E))) :=
  match l with
  | Move t a =>
      match todo s !! t with
      | Some (x :: k) => if in_call s t then None else lock_act t a x (Locked (the_lock s) (<[t := k]> (todo s)))
      | _ => None
      end
  | Inner t sp => lock_call (l_step t sp) s
  end.

Definition lockers_machine (ps : list (list lock_action)) : machine locked bench_label (bench_event (E:=E)) :=
  Machine (λ s, m_init M (the_lock s) ∧ todo s = ps) lockers_step.

(** Between [lock] and [unlock]. *)
Definition in_section (s : locked) (t : nat) : Prop :=
  todo s !! t = Some [UnlockIt] ∨ todo s !! t = Some [CountUp; UnlockIt] ∧ in_call s t = false.
Definition all_done (s : locked) : Prop := ∀ t k, todo s !! t = Some k → k = [] ∧ at_lock (the_lock s) t = Outside.

Lemma done_when s n : todo s = replicate n [] → (∀ t, at_lock (the_lock s) t = Outside) → all_done s.
Proof. intros Hr Hi t k Hk. rewrite Hr in Hk. by apply lookup_replicate in Hk as [-> _]. Qed.

(** One in the section at a time; and the run can be brought to its end, where
    all have counted, once (so somebody can go on while not all are over). *)
Definition excludes_and_ends (ps : list (list lock_action)) (s : locked) (tr : list (bench_event (E:=E))) : Prop :=
  (∀ t1 t2, in_section s t1 → in_section s t2 → t1 = t2) ∧
  ∃ s' es, leads (lockers_machine ps) s es s' ∧ all_done s' ∧
    ∀ t, (t < length ps)%nat → added t (tr ++ es) = [loop_add loop_num].

(** *** Where they are *)
Definition place_ok (s : locked) (tr : list (bench_event (E:=E))) (t : nat) (k : list lock_action) : Prop :=
  let p := at_lock (the_lock s) t in
  (k = add_code ∧ p = Outside ∧ added t tr = []) ∨
  (k = [CountUp; UnlockIt] ∧ (p = Entering ∨ p = Inside) ∧ added t tr = []) ∨
  (k = [UnlockIt] ∧ p = Inside ∧ added t tr = [loop_add loop_num]) ∨
  (k = [] ∧ (p = Leaving ∨ p = Outside) ∧ added t tr = [loop_add loop_num]).

Record lockers_ok (n : nat) (s : locked) (tr : list (bench_event (E:=E))) : Prop := {
  lo_length : length (todo s) = n;
  lo_reach : ∃ gtr, reach M (the_lock s) gtr;
  lo_place t k : todo s !! t = Some k → place_ok s tr t k;
  lo_nobody t : todo s !! t = None → at_lock (the_lock s) t = Outside;
}.

Context `{!LockLaws M}.

Ltac places := unfold place_ok, add_code in *; simpl in *; destruct_or?; destruct_and?; simplify_eq/=; intuition congruence.

(** [t] goes from [k] to [k']. *)
Lemma lockers_update n s s' tr es t k k' : lockers_ok n s tr → todo s !! t = Some k →
  todo s' = <[t := k']> (todo s) → (∃ gtr, reach M (the_lock s') gtr) → same_places t (the_lock s) (the_lock s') →
  (∀ u, u ≠ t → added u es = []) → place_ok s' (tr ++ es) t k' → lockers_ok n s' (tr ++ es).
Proof.
  intros Hok Ht Htodo Hr Hsame Hadd Hme. pose proof (lookup_lt_Some _ _ _ Ht) as Hlt. split; [|done|..].
  - rewrite Htodo, length_insert. apply Hok.
  - intros u q Hu. rewrite Htodo in Hu. destruct (decide (u = t)) as [->|Hne].
    + rewrite list_lookup_insert_eq in Hu by done. by simplify_eq.
    + rewrite list_lookup_insert_ne in Hu by done. unfold place_ok.
      rewrite (Hsame u Hne), added_app, (Hadd u Hne), app_nil_r. by eapply lo_place.
  - intros u Hu. rewrite Htodo in Hu. destruct (decide (u = t)) as [->|Hne].
    + by rewrite list_lookup_insert_eq in Hu by done.
    + rewrite list_lookup_insert_ne in Hu by done. rewrite (Hsame u Hne). by eapply lo_nobody.
Qed.

Lemma lockers_call n s tr s' es t k k' l : lockers_ok n s tr → todo s !! t = Some k →
  lock_call l (Locked (the_lock s) (<[t := k']> (todo s))) = Some (s', es) →
  (∀ gtr g ges, reach M (the_lock s) gtr → m_step M l (the_lock s) = Some (g, ges) →
    same_places t (the_lock s) g ∧ place_ok (Locked g (todo s')) tr t k') →
  lockers_ok n s' (tr ++ es).
Proof.
  intros Hok Ht Hs Hl. unfold lock_call in Hs. simpl in Hs. destruct (m_step M l (the_lock s)) as [[g ges]|] eqn:Hg; [|done].
  simplify_eq/=. destruct (lo_reach _ _ _ Hok) as [gtr Hr]. destruct (Hl _ _ _ Hr eq_refl) as (Hsame & Hme).
  eapply lockers_update; [done|exact Ht|done|exists (gtr ++ ges); by econstructor|done|intros; apply added_of|].
  unfold place_ok in *. by rewrite added_app, added_of, app_nil_r.
Qed.

Lemma lockers_ok_step n s l tr s' es : lockers_ok n s tr → lockers_step l s = Some (s', es) → lockers_ok n s' (tr ++ es).
Proof.
  intros Hok Hs. destruct l as [t a|t sp]; simpl in Hs.
  - destruct (todo s !! t) as [[|x k]|] eqn:Ht; try done. pose proof (lo_place _ _ _ Hok _ _ Ht) as Hme.
    unfold in_call in Hs. destruct x; simpl in Hs.
    + destruct (at_lock (the_lock s) t); try done; (eapply lockers_call; [done|exact Ht|exact Hs|]); intros gtr g ges Hr Hg;
        destruct (ll_lock M _ _ _ _ _ _ _ Hr Hg) as [Hp Hsame]; (split; [done|]); places.
    + assert (Hadd : s' = Locked (the_lock s) (<[t := k]> (todo s)) ∧ es = [Added t (loop_add loop_num)] ∧ at_lock (the_lock s) t ≠ Entering).
      { by destruct (at_lock (the_lock s) t); simplify_eq. }
      destruct Hadd as (-> & -> & Hne). eapply lockers_update; [done|exact Ht|done|apply Hok|done| |].
      * intros u Hu. csimpl. by rewrite decide_False by done.
      * assert (Ha : added t (tr ++ [Added t (loop_add loop_num)]) = added t tr ++ [loop_add loop_num]).
        { rewrite added_app. csimpl. by rewrite decide_True. }
        unfold place_ok in *. rewrite Ha. destruct Hme as [?|[(? & Hp & ->)|?]]; [places| |places]. destruct Hp; places.
    + destruct (at_lock (the_lock s) t); try done; (eapply lockers_call; [done|exact Ht|exact Hs|]); intros gtr g ges Hr Hg;
        destruct (ll_unlock M _ _ _ _ _ Hr Hg) as [Hp Hsame]; (split; [done|]); places.
  - destruct (todo s !! t) as [k|] eqn:Ht.
    + eapply (lockers_call n s tr s' es t k k); [done|done|rewrite list_insert_id by done; destruct s; exact Hs|].
      intros gtr g ges Hr Hg. destruct (ll_step M _ _ _ _ _ _ Hr Hg) as [Hp Hsame]. split; [done|].
      pose proof (lo_place _ _ _ Hok _ _ Ht) as Hme. unfold place_ok in *. simpl.
      destruct (at_lock (the_lock s) t); try done; places.
    + exfalso. unfold lock_call in Hs. destruct (m_step M (l_step t sp) (the_lock s)) as [[g ges]|] eqn:Hg; [|done].
      destruct (lo_reach _ _ _ Hok) as [gtr Hr]. destruct (ll_step M _ _ _ _ _ _ Hr Hg) as [Hp _].
      by rewrite (lo_nobody _ _ _ Hok _ Ht) in Hp.
Qed.

Lemma lockers_reach n s tr : reach (lockers_machine (replicate n add_code)) s tr → lockers_ok n s tr.
Proof.
  revert s tr. apply reach_inv_tr; [|intros; by eapply lockers_ok_step].
  intros s [Hi Ht]. split.
  - by rewrite Ht, length_replicate.
  - exists []. by constructor.
  - intros t k Hk. rewrite Ht in Hk. apply lookup_replicate in Hk as [-> _]. left. split_and!; [done|by eapply ll_init|done].
  - intros t _. by eapply ll_init.
Qed.

(** *** One at a time, and to the end *)
Lemma section_inside n s tr t : lockers_ok n s tr → in_section s t → at_lock (the_lock s) t = Inside.
Proof.
  intros Hok Hin. unfold in_section, in_call in Hin.
  destruct Hin as [Ht|[Ht Hc]]; pose proof (lo_place _ _ _ Hok _ _ Ht) as Hme; unfold place_ok, add_code in Hme.
  - places.
  - destruct Hme as [?|[(_ & [Hp|Hp] & _)|?]]; [places|by rewrite Hp in Hc|done|places].
Qed.

(** What there is to do. *)
Definition to_do (s : locked) : nat := sum_list_with length (todo s).

Lemma move_less n s tr t a x k s' es : lockers_ok n s tr → todo s !! t = Some (x :: k) → in_call s t = false →
  lock_act t a x (Locked (the_lock s) (<[t := k]> (todo s))) = Some (s', es) → todo s' = <[t := k]> (todo s) →
  ∃ l s' es, lockers_step l s = Some (s', es) ∧ (to_do s' < to_do s)%nat.
Proof.
  intros Hok Ht Hc Hs Htodo. exists (Move t a), s', es. split; [simpl; by rewrite Ht, Hc|].
  unfold to_do. rewrite Htodo. pose proof (sum_insert length _ _ _ k Ht) as Hsum. simpl in Hsum. lia.
Qed.

Lemma inside_goes n s tr t : lockers_ok n s tr → at_lock (the_lock s) t = Inside →
  ∃ l s' es, lockers_step l s = Some (s', es) ∧ (to_do s' < to_do s)%nat.
Proof.
  intros Hok Hp. destruct (todo s !! t) as [k|] eqn:Ht; [|by rewrite (lo_nobody _ _ _ Hok _ Ht) in Hp].
  assert (Hc : in_call s t = false) by (unfold in_call; by rewrite Hp).
  destruct (lo_place _ _ _ Hok _ _ Ht) as [(_ & Hx & _)|[(-> & _)|[(-> & _)|(_ & [Hx|Hx] & _)]]]; try congruence.
  - by eapply (move_less n s tr t nullptr).
  - destruct (lo_reach _ _ _ Hok) as [gtr Hr]. destruct (ll_can_unlock M _ _ _ Hr Hp) as [[g ges] Hg].
    eapply (move_less n s tr t nullptr); [done..|simpl; unfold lock_call; simpl; by rewrite Hg|done].
Qed.

Lemma inner_leads ps s k t g es : exec M (replicate k (l_step t false)) (the_lock s) = Some (g, es) →
  leads (lockers_machine ps) s (OfGate <$> es) (Locked g (todo s)).
Proof.
  intros He. exists (replicate k (Inner t false)). revert s es He. induction k as [|k IH]; intros s es He; simpl in *.
  - simplify_eq/=. by destruct s.
  - destruct (m_step M (l_step t false) (the_lock s)) as [[g1 e1]|] eqn:Hs; [|done].
    destruct (exec M _ g1) as [[g2 e2]|] eqn:He2; [|done]. simplify_eq/=.
    unfold lock_call. rewrite Hs. rewrite (IH (Locked g1 (todo s)) e2 He2). by rewrite fmap_app.
Qed.

Definition leavers (s : locked) : nat :=
  length (filter (λ t, at_lock (the_lock s) t = Leaving) (seq 0 (length (todo s)))).
Lemma client_lt n s tr t : lockers_ok n s tr → at_lock (the_lock s) t ≠ Outside → (t < length (todo s))%nat.
Proof.
  intros Hok Ht. destruct (decide (t < length (todo s))%nat) as [|Hge]; [done|]. destruct Ht.
  eapply lo_nobody; [done|]. apply lookup_ge_None. lia.
Qed.

(** All that unlock have unlocked. *)
Lemma leavers_end n s tr : reach (lockers_machine (replicate n add_code)) s tr →
  ∃ s' es, leads (lockers_machine (replicate n add_code)) s es s' ∧ todo s' = todo s ∧ ∀ t, at_lock (the_lock s') t ≠ Leaving.
Proof.
  remember (leavers s) as m eqn:Hm. revert s tr Hm. induction m as [m IH] using lt_wf_ind. intros s tr Hm Hr.
  pose proof (lockers_reach _ _ _ Hr) as Hok.
  destruct (decide (Forall (λ t, at_lock (the_lock s) t ≠ Leaving) (seq 0 (length (todo s))))) as [Hall|Hno].
  - exists s, []. split_and!; [apply leads_refl|done|]. intros t Ht. rewrite Forall_forall in Hall.
    apply (Hall t); [|done]. apply elem_of_seq. apply (client_lt _ _ _ t) in Hok; [lia|by rewrite Ht].
  - apply not_Forall_Exists in Hno; [|apply _]. apply Exists_exists in Hno as (t & Hin & Ht). apply dec_stable in Ht.
    destruct (lo_reach _ _ _ Hok) as [gtr Hg]. destruct (ll_leave M _ _ _ Hg Ht) as (k & g & es & He & Hend).
    pose proof (run_places M _ _ _ _ _ _ Hg He) as Hsame. pose proof (inner_leads (replicate n add_code) s _ _ _ _ He) as Hl1.
    destruct (IH (leavers (Locked g (todo s)))) with (s := Locked g (todo s)) (tr := tr ++ (OfGate <$> es))
      as (s' & es' & Hl2 & Hc & Hq); [|done|by eapply leads_reach|].
    + rewrite Hm. unfold leavers. simpl. eapply filter_fewer; [|exact Hin|done|congruence].
      intros u Hu. destruct (decide (u = t)) as [->|Hne]; [done|]. by rewrite <- (Hsame u Hne).
    + exists s', ((OfGate <$> es) ++ es'). split_and!; [by eapply leads_trans|done|done].
Qed.

(** Somebody gets further, or all are over. *)
Lemma lockers_progress n s tr : reach (lockers_machine (replicate n add_code)) s tr → (∀ t, at_lock (the_lock s) t ≠ Leaving) →
  (∃ s' es, leads (lockers_machine (replicate n add_code)) s es s' ∧ (to_do s' < to_do s)%nat) ∨ all_done s.
Proof.
  intros Hr Hno. pose proof (lockers_reach _ _ _ Hr) as Hok. destruct (lo_reach _ _ _ Hok) as [gtr Hg].
  assert (Hstep : ∀ s0 e0, leads (lockers_machine (replicate n add_code)) s e0 s0 →
    (∃ l s' es, lockers_step l s0 = Some (s', es) ∧ (to_do s' < to_do s)%nat) →
    ∃ s' es, leads (lockers_machine (replicate n add_code)) s es s' ∧ (to_do s' < to_do s)%nat).
  { intros s0 e0 Hl (l & s' & es & Hs & Hlt). exists s', (e0 ++ es). split; [|done].
    eapply leads_trans; [exact Hl|]. by apply (leads_step _ _ l). }
  destruct (decide (Exists (λ t, at_lock (the_lock s) t = Inside) (seq 0 (length (todo s))))) as [Hin|Hnin].
  { apply Exists_exists in Hin as (t & _ & Ht). left. eapply Hstep; [apply leads_refl|]. by eapply inside_goes. }
  assert (Hni : ∀ t, at_lock (the_lock s) t ≠ Inside).
  { intros t Ht. apply Hnin, Exists_exists. exists t. split; [|done]. apply elem_of_seq.
    apply (client_lt _ _ _ t) in Hok; [lia|by rewrite Ht]. }
  destruct (decide (Exists (λ t, at_lock (the_lock s) t = Entering) (seq 0 (length (todo s))))) as [He|Hne].
  { apply Exists_exists in He as (t & _ & Ht). left.
    destruct (ll_enter M _ _ _ Hg Ht (λ u, conj (Hni u) (Hno u))) as (u & k & g & es & He & Hu).
    pose proof (inner_leads (replicate n add_code) s _ _ _ _ He) as Hl. eapply Hstep; [exact Hl|].
    pose proof (lockers_reach _ _ _ (leads_reach _ _ _ _ _ Hr Hl)) as Hok1.
    exact (inside_goes _ (Locked g (todo s)) _ u Hok1 Hu). }
  destruct (decide (Exists (.≠ []) (todo s))) as [Ht|Hnil].
  - left. apply Exists_exists in Ht as (k & Hk & Hkn). apply list_elem_of_lookup in Hk as [t Ht]. destruct k as [|x k]; [done|].
    assert (Hp : at_lock (the_lock s) t = Outside).
    { destruct (at_lock (the_lock s) t) eqn:Hp; [done| |by destruct (Hni t)|by destruct (Hno t)]. destruct Hne.
      apply Exists_exists. exists t. split; [|done]. apply elem_of_seq. apply lookup_lt_Some in Ht. lia. }
    eapply Hstep; [apply leads_refl|]. destruct (ll_can_lock M _ _ t (ctx_of t) Hg Hp) as [a [[g ges] Ha]].
    destruct (lo_place _ _ _ Hok _ _ Ht) as [([= -> ->] & _)|[(_ & [Hx|Hx] & _)|[(_ & Hx & _)|(? & _)]]]; try congruence.
    eapply (move_less n s tr t a); [done|exact Ht|unfold in_call; by rewrite Hp|simpl; unfold lock_call; simpl; by rewrite Ha|done].
  - right. intros t k Ht. split.
    + destruct k as [|x k]; [done|]. destruct Hnil. apply Exists_exists. exists (x :: k). split; [|done]. by eapply list_elem_of_lookup_2.
    + destruct (at_lock (the_lock s) t) eqn:Hp; [done| |by destruct (Hni t)|by destruct (Hno t)]. destruct Hne.
      apply Exists_exists. exists t. split; [|done]. apply elem_of_seq. apply lookup_lt_Some in Ht. lia.
Qed.

Lemma lockers_finish n s tr : reach (lockers_machine (replicate n add_code)) s tr →
  ∃ s' es, leads (lockers_machine (replicate n add_code)) s es s' ∧ all_done s'.
Proof.
  remember (to_do s) as m eqn:Hm. revert s tr Hm. induction m as [m IH] using lt_wf_ind. intros s tr Hm Hr.
  destruct (leavers_end _ _ _ Hr) as (s1 & e1 & Hl1 & Ht1 & Hno). pose proof (leads_reach _ _ _ _ _ Hr Hl1) as Hr1.
  destruct (lockers_progress _ _ _ Hr1 Hno) as [(s2 & e2 & Hl2 & Hlt)|Hd]; [|by exists s1, e1].
  destruct (IH (to_do s2)) with (s := s2) (tr := (tr ++ e1) ++ e2) as (s3 & e3 & Hl3 & Hd);
    [unfold to_do in *; rewrite Ht1 in Hlt; lia|done|by eapply leads_reach|].
  exists s3, (e1 ++ e2 ++ e3). split; [|done]. eapply leads_trans; [done|]. by eapply leads_trans.
Qed.

Lemma done_added n s tr t : lockers_ok n s tr → all_done s → (t < n)%nat → added t tr = [loop_add loop_num].
Proof.
  intros Hok Hd Ht. destruct (lookup_lt_is_Some_2 (todo s) t) as [k Hk]; [by rewrite (lo_length _ _ _ Hok)|].
  destruct (Hd _ _ Hk) as [-> _]. pose proof (lo_place _ _ _ Hok _ _ Hk) as Hme. places.
Qed.

Lemma lockers_end n s tr : reach (lockers_machine (replicate n add_code)) s tr →
  excludes_and_ends (replicate n add_code) s tr.
Proof.
  intros Hr. pose proof (lockers_reach _ _ _ Hr) as Hok. split.
  - destruct (lo_reach _ _ _ Hok) as [gtr Hg]. intros t1 t2 H1 H2. by eapply (ll_exclusive M); [|eapply section_inside..].
  - destruct (lockers_finish _ _ _ Hr) as (s' & es & Hl & Hd). exists s', es. split_and!; [done|done|].
    intros t Ht. rewrite length_replicate in Ht. eapply done_added; [|exact Hd|exact Ht].
    eapply lockers_reach. by eapply leads_reach.
Qed.
End bench.
