(* ===== verification/MutexBench.v ===== *)
(** * The mutexes as locks, and mutex_bench.cpp

    std::mutex, [detail::spinlock] and [coro::mutex] keep the promise of
    [LockBench.v]; the benchmark's three programs. *)
From S2P Require Import Prelude WaitCount LockSpec Spinlock Mutex Gate LockBench.
Local Open Scope Z_scope.
Local Open Scope coro_scope.

(** ** std::mutex: a thread is blocked until it gets the mutex *)
Record std_mutex := StdMutex { std_owner : option nat; std_blocked : gset nat }.
Inductive std_mutex_label := StdLock (t : nat) | StdUnlock (t : nat) | StdTake (t : nat).

Definition std_mutex_step (l : std_mutex_label) (s : std_mutex) : option (std_mutex * list False) :=
  match l with
  | StdLock t =>
      if decide (t ∉ std_blocked s ∧ std_owner s ≠ Some t) then Some (StdMutex (std_owner s) ({[t]} ∪ std_blocked s), []) else None
  | StdTake t =>
      if decide (t ∈ std_blocked s ∧ std_owner s = None) then Some (StdMutex (Some t) (std_blocked s ∖ {[t]}), []) else None
  | StdUnlock t => if decide (std_owner s = Some t) then Some (StdMutex None (std_blocked s), []) else None
  end.
Definition std_mutex_machine : machine std_mutex std_mutex_label False :=
  Machine (λ s, s = StdMutex None ∅) std_mutex_step.

#[export] Instance std_mutex_lock : LockBench.Lock std_mutex std_mutex_label := {|
  at_lock s t := if decide (t ∈ std_blocked s) then Entering else if decide (std_owner s = Some t) then Inside else Outside;
  l_lock t _ _ := StdLock t;
  l_unlock := StdUnlock;
  l_step t _ := StdTake t;
|}.

Lemma std_owner_runs s tr t : reach std_mutex_machine s tr → std_owner s = Some t → t ∉ std_blocked s.
Proof.
  intros Hr. revert s tr Hr t. apply (reach_inv _ (λ s, ∀ t, std_owner s = Some t → t ∉ std_blocked s)).
  - by intros s ->.
  - intros s l s' es Hi Hs. destruct l; simpl in Hs; case_decide as Hd; simplify_eq/=; set_solver.
Qed.

#[export] Instance std_mutex_laws : LockLaws std_mutex_machine.
Proof.
  split; simpl.
  - by intros s t ->.
  - intros s tr t _ _ s' es _ Hs. case_decide; [|done]. simplify_eq/=. rewrite decide_True by set_solver.
    split; [done|]. intros u Hu. simpl. by rewrite (decide_ext (u ∈ _) (u ∈ std_blocked s)) by set_solver.
  - intros s tr t s' es Hr Hs. case_decide as Ho; [|done]. pose proof (std_owner_runs _ _ _ Hr Ho). simplify_eq/=.
    rewrite decide_False by done. split; [by right|]. intros u Hu. simpl. case_decide; [done|].
    rewrite Ho. by rewrite decide_False by congruence.
  - intros s tr t _ s' es _ Hs. case_decide as Hd; [|done]. destruct Hd as [Hb Ho]. simplify_eq/=.
    rewrite (decide_True _ _ Hb). rewrite decide_False by set_solver. rewrite decide_True by done. split; [by right|].
    intros u Hu. simpl. rewrite (decide_ext (u ∈ _) (u ∈ std_blocked s)) by set_solver. case_decide; [done|].
    rewrite Ho. by rewrite !decide_False by congruence.
  - intros s tr t1 t2 _ H1 H2. repeat case_decide; congruence.
  - intros s tr t _ _ Ht. exists nullptr. destruct (decide (t ∈ _)); [done|]. destruct (decide (_ = Some t)); [done|]. rewrite decide_True by done. by eexists.
  - intros s tr t _ Ht. repeat case_decide; (done || by eexists).
  - intros s tr t _ Ht. by repeat case_decide.
  - intros s tr t Hr Ht Hno. destruct (decide (t ∈ std_blocked s)) as [Hb|]; [|by case_decide].
    destruct (std_owner s) as [h|] eqn:Ho.
    { destruct (Hno h) as [[] _]. rewrite decide_False by by eapply std_owner_runs. by rewrite decide_True. }
    exists t, 1%nat, (StdMutex (Some t) (std_blocked s ∖ {[t]})), []. split; [simpl; by rewrite decide_True|]. simpl.
    rewrite decide_False by set_solver. by rewrite decide_True.
Qed.

(** ** spinlock *)
Module SpinLocks.
Import Spinlock.

#[export] Instance spin_lock : LockBench.Lock spinlock label := {|
  at_lock s t :=
    match pcs s !! t with
    | None => Outside
    | Some Critical => Inside
    | Some _ => Entering
    end;
  l_lock t _ _ := Lock t;
  l_unlock := Unlock;
  l_step t _ := Step t;
|}.

(** The spinlock of threads that only [lock] and [unlock]. *)
Definition locks_step (l : label) (s : spinlock) : option (spinlock * list event) :=
  match l with TryLock _ => None | _ => step l s end.
Definition locks_machine : machine spinlock label event := Machine (λ s, s = init) locks_step.

Lemma locks_step_inv l s s' es : locks_step l s = Some (s', es) → step l s = Some (s', es) ∧ ∀ t, l ≠ TryLock t.
Proof. by destruct l. Qed.

Lemma locks_guarded s tr : reach locks_machine s tr → guarded s ∧ ∀ t, pcs s !! t ≠ Some TryExchange.
Proof.
  revert s tr. apply reach_inv.
  - intros s Hi. cbn in Hi. subst s. split; [split; [done|split; [done|by intros [t Ht]]]|by intros t Ht].
  - intros s l s' es [Hg Ht] Hs. apply locks_step_inv in Hs as [Hs Hl]. split; [by eapply guarded_step|].
    intros u Hu. destruct l as [t|t|t|t]; [| by destruct (Hl t)| |]; simpl in Hs.
    + case_decide; [|done]. simplify_eq/=. lookup_cases. by apply (Ht u).
    + destruct (pcs s !! t) as [[]|]; try done. simplify_eq/=. lookup_cases. by apply (Ht u).
    + destruct (pcs s !! t) as [p|] eqn:Hp; [|done]. simpl in Hs. specialize (Ht u) as Hu'.
      destruct p; simpl in Hs; try (by destruct (Ht t)); destruct (lock_ s); simplify_eq/=; lookup_cases; done.
Qed.

#[export] Instance spin_lock_laws : LockLaws locks_machine.
Proof.
  split; simpl.
  - by intros s t ->.
  - intros s tr t _ _ s' es _ Hs. case_decide; [|done]. simplify_eq/=. rewrite lookup_insert_eq.
    split; [done|]. intros u Hu. simpl. by rewrite lookup_insert_ne.
  - intros s tr t s' es _ Hs. destruct (pcs s !! t) as [[]|]; try done. simplify_eq/=. rewrite lookup_delete_eq.
    split; [by right|]. intros u Hu. simpl. by rewrite lookup_delete_ne.
  - intros s tr t _ s' es Hr Hs. destruct (locks_guarded _ _ Hr) as [_ Ht]. specialize (Ht t).
    destruct (pcs s !! t) as [p|] eqn:Hp; [|done]. simpl in Hs.
    destruct p; simpl in Hs; try done; destruct (lock_ s); simplify_eq/=; rewrite ?Hp, ?lookup_insert_eq;
      (split; [auto|]); intros u Hu; simpl; by rewrite ?lookup_insert_ne.
  - intros s tr t1 t2 Hr H1 H2. destruct (locks_guarded _ _ Hr) as [[He _] _]. apply He;
      [destruct (pcs s !! t1) as [[]|]|destruct (pcs s !! t2) as [[]|]]; done.
  - intros s tr t _ _ Ht. exists nullptr. destruct (pcs s !! t) as [[]|]; [done..|]. by eexists.
  - intros s tr t _ Ht. destruct (pcs s !! t) as [[]|]; [done..| |done]. by eexists.
  - intros s tr t _ Ht. by destruct (pcs s !! t) as [[]|].
  - intros s tr t Hr Ht Hno. destruct (locks_guarded _ _ Hr) as [[_ Hl] Htry].
    assert (Hfree : lock_ s = false).
    { destruct (lock_ s); [|done]. destruct (proj1 Hl eq_refl) as [u Hu]. destruct (Hno u) as [[] _]. by rewrite Hu. }
    destruct (pcs s !! t) as [p|] eqn:Hp; [|done].
    assert (Hn : ∃ n, (n = 1 ∨ n = 2)%nat ∧ ∃ s' es, exec locks_machine (replicate n (Step t)) s = Some (s', es) ∧ pcs s' !! t = Some Critical).
    { destruct p; try done; [exists 1%nat|exists 2%nat|by destruct (Htry t)]; (split; [auto|]); do 2 eexists; simpl; rewrite Hp; simpl;
        rewrite Hfree; simpl; rewrite ?lookup_insert_eq; simpl; rewrite ?Hfree; simpl; (split; [done|]); apply lookup_insert_eq. }
    destruct Hn as (n & _ & s' & es & He & Hc). exists t, n, s', es. split; [done|]. by rewrite Hc.
Qed.
End SpinLocks.
Import SpinLocks.

(** ** coro::mutex *)
Module MutexLocks.
Import Mutex.

Definition pc_place (p : option pc) : place :=
  match p with
  | None => Outside
  | Some Holding => Inside
  | Some (RegLoad _ | RegCasFree _ | RegCasPush _ _ | Waiting _ | Resumed _) => Entering
  | Some (UnlReadList | UnlCas | UnlXchg | UnlRev _ _ | UnlPop _ | UnlResume _) => Leaving
  end.

#[export] Instance mutex_lock : LockBench.Lock state label := {|
  at_lock s t := pc_place (pcs s !! t);
  l_lock := Lock;
  l_unlock := Unlock;
  l_step := Step;
|}.

Lemma places_insert t p (s s' : state) : pcs s' = <[t := p]> (pcs s) → same_places t s s'.
Proof. intros Hp u Hu. simpl. by rewrite Hp, lookup_insert_ne. Qed.

(** An address for one more awaiter. *)
Lemma fresh_awaiter {A} (m : gmap ptr A) : ∃ a, 1 < a ∧ m !! a = None.
Proof.
  destruct (exist_fresh (set_map (λ z, Z.to_pos (z - 1)) (dom m) : gset positive)) as [p Hp]. exists (Z.pos p + 1).
  split; [lia|]. apply not_elem_of_dom. intros Hin. apply Hp. apply elem_of_map. exists (Z.pos p + 1). split; [lia|done].
Qed.

(** [unlock] resumes a coroutine that waits. *)
Lemma resumed_waits s a t r aw : repr s a → pcs s !! t = Some (UnlResume r) → mem s !! r = Some aw →
  m_await_coro aw ≠ t ∧ pcs s !! m_await_coro aw = Some (Waiting r).
Proof.
  intros Hr Ht Hm. pose proof (r_owner _ _ Hr _ _ Ht eq_refl) as Hh. pose proof (r_held _ _ Hr) as Hheld. rewrite Hh in Hheld.
  destruct Hheld as (p & l & st & Hp & _ & Hq). simplify_eq. destruct (q_taken _ _ _ _ _ Hq) as (l' & -> & _ & _).
  destruct (queued_in _ _ _ _ _ r Hq) as (aw' & Haw & Hw); [by left|]. simplify_eq. split; [|done]. intros Heq. rewrite Heq in Hw. congruence.
Qed.

Lemma mutex_place_step s a t sp s' es : repr s a → step (Step t sp) s = Some (s', es) →
  match at_lock s t with
  | Entering => at_lock s' t = Entering ∨ at_lock s' t = Inside
  | Leaving => at_lock s' t = Leaving ∨ at_lock s' t = Outside
  | Outside | Inside => False
  end ∧ same_places t s s'.
Proof.
  intros Hr Hs. simpl in Hs. simpl at_lock. destruct (pcs s !! t) as [p|] eqn:Ht; [|done].
  assert (Hgo : ∀ q s0, pcs s0 = pcs s → s' = set_pc t q s0 → pcs s' !! t = Some q ∧ same_places t s s').
  { intros q s0 H0 ->. split; [simpl; by rewrite lookup_insert_eq|apply (places_insert t q); simpl; by rewrite H0]. }
  assert (Hwr : ∀ b v s0 s1, write_next b v s0 = Some s1 → pcs s1 = pcs s0).
  { intros b v s0 s1 (aw & _ & ->)%mutex_write_next_inv. done. }
  destruct p; try done; simpl in Hs; simpl.
  - destruct (write_next _ _ s) as [s1|] eqn:E1; [|done]. simpl in Hs. pose proof (Hwr _ _ _ _ E1) as H1.
    case_decide; [simplify_eq; destruct (Hgo _ _ H1 eq_refl) as [-> ?]; auto|].
    destruct (write_next _ _ s1) as [s2|] eqn:E2; [|done]. simplify_eq/=. pose proof (Hwr _ _ _ _ E2) as H2.
    destruct (Hgo _ s2 ltac:(congruence) eq_refl) as [Hp ?]. rewrite Hp. auto.
  - case_decide; simplify_eq; (edestruct Hgo as [Hp Hsame]; [|reflexivity|]; [done|rewrite Hp; auto]).
  - case_decide; [destruct (mem s !! this); [|done]|]; simplify_eq/=;
      (edestruct Hgo as [Hp Hsame]; [|reflexivity|]; [done|rewrite Hp; auto]).
  - unfold await_resume in Hs. destruct (mem s !! this); [|done]. simplify_eq/=. rewrite lookup_insert_eq.
    split; [by right|by eapply places_insert].
  - case_decide; simplify_eq; (edestruct Hgo as [Hp Hsame]; [|reflexivity|]; [done|rewrite Hp; auto]).
  - case_decide; simplify_eq; [|edestruct Hgo as [Hp Hsame]; [|reflexivity|]; [done|rewrite Hp; auto]].
    simpl. rewrite lookup_delete_eq. split; [by right|]. intros u Hu. simpl. by rewrite lookup_delete_ne.
  - case_decide; [|done]. simplify_eq. edestruct Hgo as [Hp Hsame]; [|reflexivity|]; [done|rewrite Hp; auto].
  - destruct (read_next _ _); [|done]. simpl in Hs. destruct (write_next _ _ s) as [s1|] eqn:E1; [|done].
    pose proof (Hwr _ _ _ _ E1) as H1. simpl in Hs.
    case_decide; simplify_eq; (destruct (Hgo _ _ H1 eq_refl) as [Hp ?]; rewrite Hp; auto).
  - destruct (read_next _ _); [|done]. simplify_eq/=. rewrite lookup_insert_eq. split; [by left|by eapply places_insert].
  - unfold resume in Hs. simpl in Hs. destruct (mem s !! to_resume) as [aw|] eqn:Hm; [|done]. simplify_eq/=.
    destruct (resumed_waits _ _ _ _ _ Hr Ht Hm) as [Hne Hw]. rewrite lookup_insert_ne, lookup_delete_eq by done.
    split; [by right|]. intros u Hu. simpl. destruct (decide (m_await_coro aw = u)) as [<-|].
    + by rewrite lookup_insert_eq, Hw.
    + by rewrite lookup_insert_ne, lookup_delete_ne.
Qed.

(** *** A call run alone *)
Lemma unlock_rank s a t p : repr s a → pcs s !! t = Some p → pc_place (Some p) = Leaving → ∃ n, rank s p n.
Proof.
  intros Hr Ht Hp. assert (Hop : owner p = true) by by destruct p. pose proof (r_owner _ _ Hr _ _ Ht Hop) as Hh.
  pose proof (r_held _ _ Hr) as Hheld. rewrite Hh in Hheld. destruct Hheld as (p' & l & st & Hhp & _ & Hq). simplify_eq.
  pose proof (q_stack _ _ _ _ _ Hq) as Hst. destruct p as [| | | | | | | | |aw r|r|r]; try done; simpl; eauto.
  destruct (reverse_facts _ _ _ _ _ Hr Ht) as (x & la & lr & st' & _ & _ & Hx & Hn & _ & Hla & _).
  exists (length (aw :: la) + 2)%nat, (aw :: la). split; [|done]. split; [done|]. split; [done|]. exists (m_next x).
  unfold next_in. by rewrite Hx.
Qed.

Lemma release_leaves s a t p s' w : repr s a → pcs s !! t = Some p → unlock t p s = Some (s', [Release t w]) → pcs s' !! t = None.
Proof.
  intros Hr Ht Hs. destruct p; try done; simpl in Hs.
  - case_decide; by simplify_eq.
  - case_decide; [|by simplify_eq]. simplify_eq/=. apply lookup_delete_eq.
  - by case_decide; simplify_eq.
  - destruct (read_next _ _); [|done]. simpl in Hs. destruct (write_next _ _ _); [|done]. simpl in Hs. case_decide; by simplify_eq.
  - destruct (read_next _ _); by simplify_eq/=.
  - unfold resume in Hs. simpl in Hs. destruct (mem s !! to_resume) as [aw|] eqn:Hm; [|done]. simplify_eq/=.
    destruct (resumed_waits _ _ _ _ _ Hr Ht Hm) as [Hne _]. by rewrite lookup_insert_ne, lookup_delete_eq.
Qed.

Lemma unlock_leaves n : ∀ s a t p, repr s a → pcs s !! t = Some p → rank s p n →
  ∃ k s' es, exec mutex_machine (replicate k (l_step t false)) s = Some (s', es) ∧ at_lock s' t = Outside.
Proof.
  induction n as [n IH] using lt_wf_ind. intros s a t p Hr Ht Hn.
  destruct (unlock_progress _ _ _ _ _ Hr Ht Hn) as (s' & es & Hs & Hcase).
  assert (Hst : m_step mutex_machine (Step t false) s = Some (s', es)) by (simpl; by rewrite <- Hs, <- (rank_step s t p n false)).
  destruct Hcase as [[w ->]|[-> (p' & n' & Hp' & Hn' & Hlt)]].
  - exists 1%nat, s', ([Release t w] ++ []). split; [cbn [replicate exec]; simpl l_step; by rewrite Hst|].
    simpl. by rewrite (release_leaves _ _ _ _ _ _ Hr Ht Hs).
  - destruct (ref_step _ _ _ mutex_refines _ _ _ _ _ Hr Hst) as (ls & a' & _ & Hr').
    destruct (IH n' Hlt _ _ _ _ Hr' Hp' Hn') as (k & s2 & e2 & He & Hend). exists (S k), s2, ([] ++ e2).
    split; [|done]. cbn [replicate exec]. simpl l_step. simpl l_step in He. by rewrite Hst, He.
Qed.

Definition enters (s : state) (t : nat) : Prop :=
  ∃ n s' es, exec mutex_machine (replicate n (l_step t false)) s = Some (s', es) ∧ at_lock s' t = Inside.

Lemma enters_step s t s1 e1 : step (Step t false) s = Some (s1, e1) → enters s1 t → enters s t.
Proof.
  intros Hs (n & s' & es & He & Hin). exists (S n), s', (e1 ++ es). split; [|done].
  cbn [replicate exec m_step mutex_machine]. simpl l_step in *. by rewrite Hs, He.
Qed.

Lemma resumed_enters s t a aw : pcs s !! t = Some (Resumed a) → mem s !! a = Some aw → enters s t.
Proof.
  intros Hp Hm. exists 1%nat. do 2 eexists. split.
  - cbn [replicate exec m_step mutex_machine]. simpl l_step. cbn [step]. rewrite Hp. unfold await_resume. by rewrite Hm.
  - simpl. by rewrite lookup_insert_eq.
Qed.

Lemma free_enters s t a aw : pcs s !! t = Some (RegCasFree a) → mem s !! a = Some aw → m_state s = nolocked → enters s t.
Proof.
  intros Hp Hm Hs. eapply enters_step; [cbn [step]; rewrite Hp; simpl; by rewrite decide_True|].
  eapply resumed_enters; [apply lookup_insert_eq|exact Hm].
Qed.

Lemma load_enters s t a aw : pcs s !! t = Some (RegLoad a) → mem s !! a = Some aw → m_state s = nolocked → enters s t.
Proof.
  intros Hp Hm Hs. eapply enters_step; [cbn [step]; rewrite Hp; simpl; rewrite (mutex_write_next_ok _ _ _ _ Hm); simpl; by rewrite decide_True|].
  eapply free_enters; [apply lookup_insert_eq|simpl; apply lookup_insert_eq|done].
Qed.

(** Nobody inside or leaving: the coroutine that was handed the mutex gets in;
    or the mutex is free, and whoever asks for it gets in. *)
Lemma mutex_enters s a t : repr s a → at_lock s t = Entering → (∀ u, at_lock s u ≠ Inside ∧ at_lock s u ≠ Leaving) →
  ∃ u n s' es, exec mutex_machine (replicate n (l_step u false)) s = Some (s', es) ∧ at_lock s' u = Inside.
Proof.
  intros Hr Ht Hno. change (∃ u, enters s u). pose proof (r_held _ _ Hr) as Hheld. destruct (holder a) as [h|] eqn:Hh.
  - destruct Hheld as (p & l & st & Hp & Ho & _). exists h. pose proof (Hno h) as [Hi Hl]. simpl in Hi, Hl. rewrite Hp in Hi, Hl.
    destruct p as [| | | |b| | | | | | |]; try done. destruct (r_owned _ _ Hr _ _ _ Hp eq_refl) as (_ & aw & Hm & _).
    by eapply resumed_enters.
  - destruct Hheld as (Hst & _ & _ & Hw). exists t. simpl in Ht. destruct (pcs s !! t) as [p|] eqn:Hp; [|done].
    assert (Hno' : owner p = false). { destruct (owner p) eqn:Ho; [|done]. pose proof (r_owner _ _ Hr _ _ Hp Ho). congruence. }
    destruct p as [b|b|b v|b|b| | | | | | |]; try done; try (by destruct (Hw t b));
      destruct (r_owned _ _ Hr _ _ _ Hp eq_refl) as (_ & aw & Hm & _ & Hv).
    + by eapply load_enters.
    + by eapply free_enters.
    + destruct (Hv v eq_refl) as [_ Hvn]. eapply enters_step; [cbn [step]; rewrite Hp; simpl; rewrite decide_False by naive_solver; done|].
      eapply load_enters; [apply lookup_insert_eq|exact Hm|exact Hst].
Qed.

#[export] Instance mutex_lock_laws : LockLaws mutex_machine.
Proof.
  split.
  - intros s t Hi. cbn in Hi. by subst s.
  - intros s tr t a c s' es _ Hs. cbn in Hs. unfold await_suspend in Hs. case_decide; [|done]. simplify_eq/=.
    rewrite lookup_insert_eq. split; [done|by eapply places_insert].
  - intros s tr t s' es _ Hs. cbn in Hs. destruct (pcs s !! t) as [[]|] eqn:Ht; try done. case_decide; [|done]. simplify_eq/=.
    rewrite lookup_insert_eq. split; [by left|by eapply places_insert].
  - intros s tr t sp s' es (a & _ & Hr)%mutex_reach_repr Hs. by eapply mutex_place_step.
  - intros s tr t1 t2 (a & _ & Hr)%mutex_reach_repr H1 H2.
    assert (Hin : ∀ t, at_lock s t = Inside → holder a = Some t); [|by apply Hin in H1; apply Hin in H2; congruence].
    intros t Ht. simpl in Ht. destruct (pcs s !! t) as [[]|] eqn:Hp; try done. by eapply r_owner.
  - intros s tr t c _ Ht. destruct (fresh_awaiter (mem s)) as (a & Ha & Hm). exists a. simpl in *. unfold await_suspend.
    rewrite decide_True; [by eexists|]. destruct (pcs s !! t) as [[]|]; done.
  - intros s tr t (a & _ & Hr)%mutex_reach_repr Ht. simpl in Ht. destruct (pcs s !! t) as [[]|] eqn:Hp; try done.
    by destruct (progress s a t Holding Hr Hp).
  - intros s tr t (a & _ & Hr)%mutex_reach_repr Ht. simpl in Ht. destruct (pcs s !! t) as [p|] eqn:Hp; [|done].
    destruct (unlock_rank _ _ _ _ Hr Hp Ht) as [n Hn]. by eapply unlock_leaves.
  - intros s tr t (a & _ & Hr)%mutex_reach_repr Ht Hno. by eapply mutex_enters.
Qed.
End MutexLocks.
Import MutexLocks.

(** ** The programs *)
Definition add_tp : list lock_action := [LockIt; CountUp; UnlockIt].       (* std::mutex, in the pool *)
Definition add_stl : list lock_action := [LockIt; CountUp; UnlockIt].      (* std::mutex, in coroutines *)
Definition add_spin : list lock_action := [LockIt; CountUp; UnlockIt].     (* detail::spinlock *)
Definition add : list lock_action := [LockIt; CountUp; UnlockIt].          (* co_await mtx.lock() *)

Section programs.
Context (ctx_of : nat → nat) (thread_num : nat) (loop_num : Z).

Definition threadpool_stl_mutex := lockers_machine std_mutex_machine ctx_of loop_num (replicate thread_num add_tp).

(** [mutex_bench<mutex_type>] *)
Definition mutex_bench {S L E} `{!LockBench.Lock S L} (M : machine S L E) (add : list lock_action) :=
  lockers_machine M ctx_of loop_num (replicate thread_num add).
Definition coro_stl_mutex := mutex_bench std_mutex_machine add_stl.
Definition coro_spinlock := mutex_bench locks_machine add_spin.
Definition coro_mutex := mutex_bench Mutex.mutex_machine add.
End programs.

(** ** Properties *)

(** C21: the mutex benchmark with [coro::mutex]: with any number of threads and
    in any interleaving, one coroutine at a time is between [lock] and
    [unlock]; and whatever has happened, the run can be brought to its end,
    where everyone has counted to [loop_num], once. *)
Theorem coro_mutex_ends ctx_of thread_num loop_num s tr :
  reach (coro_mutex ctx_of thread_num loop_num) s tr →
  excludes_and_ends Mutex.mutex_machine ctx_of loop_num (replicate thread_num add) s tr.
Proof. apply lockers_end. apply _. Qed.

(** The same with the spinlock, *)
Theorem coro_spinlock_ends ctx_of thread_num loop_num s tr :
  reach (coro_spinlock ctx_of thread_num loop_num) s tr →
  excludes_and_ends locks_machine ctx_of loop_num (replicate thread_num add_spin) s tr.
Proof. apply lockers_end. apply _. Qed.

(** and with std::mutex. *)
Theorem stl_mutex_ends ctx_of thread_num loop_num s tr :
  reach (threadpool_stl_mutex ctx_of thread_num loop_num) s tr ∨ reach (coro_stl_mutex ctx_of thread_num loop_num) s tr →
  excludes_and_ends std_mutex_machine ctx_of loop_num (replicate thread_num add_stl) s tr.
Proof. intros [Hr|Hr]; by eapply lockers_end; [apply _|]. Qed.

(** ** Witnesses *)

(** 1 queues behind 0 and gets the mutex from it. *)
Definition mutex_run : list bench_label :=
  [Move 0 16; Inner 0 false; Inner 0 false; Inner 0 false; Move 1 32; Inner 1 false; Inner 1 false; Move 0 0; Move 0 0;
   Inner 0 false; Inner 0 false; Inner 0 false; Inner 0 false; Inner 0 false; Inner 0 false; Inner 1 false; Move 1 0;
   Move 1 0; Inner 1 false; Inner 1 false]%nat.

Lemma coro_mutex_ends_witness : ∃ s tr, reach (coro_mutex id 2 3) s tr ∧
  excludes_and_ends Mutex.mutex_machine id 3 (replicate 2 add) s tr ∧ all_done s ∧
  omap (λ e, match e with Added t n => Some (t, n) | _ => None end) tr = [(0%nat, 3); (1%nat, 3)].
Proof.
  set (M := coro_mutex id 2 3). set (s0 := Locked Mutex.init (replicate 2 add)).
  assert (Hr : reach M (final M mutex_run s0) (trace M mutex_run s0)) by (apply exec_reach_final; [by split|vm_compute; reflexivity]).
  assert (Hf : todo (final M mutex_run s0) = replicate 2 []) by by vm_compute.
  assert (Hp : Mutex.pcs (the_lock (final M mutex_run s0)) = ∅) by by vm_compute.
  exists (final M mutex_run s0), (trace M mutex_run s0).
  split_and!; [exact Hr|exact (coro_mutex_ends id 2 3 _ _ Hr)| |by vm_compute].
  apply (done_when _ _ Hf). intros t. simpl. by rewrite Hp.
Defined.

Lemma coro_spinlock_ends_witness : ∃ s tr, reach (coro_spinlock id 2 3) s tr ∧
  excludes_and_ends locks_machine id 3 (replicate 2 add_spin) s tr ∧ added 0 tr = [3] ∧ added 1 tr = [3].
Proof.
  set (M := coro_spinlock id 2 3). set (s0 := Locked Spinlock.init (replicate 2 add_spin)).
  set (ls := [Move 0 0; Move 1 0; Inner 0 false; Inner 1 false; Inner 1 false; Move 0 0; Move 0 0; Inner 1 false;
    Inner 1 false; Move 1 0; Move 1 0]%nat).
  assert (Hr : reach M (final M ls s0) (trace M ls s0)) by (apply exec_reach_final; [by split|vm_compute; reflexivity]).
  exists (final M ls s0), (trace M ls s0).
  split_and!; [exact Hr|exact (coro_spinlock_ends id 2 3 _ _ Hr)|by vm_compute..].
Defined.
