(* ===== verification/CondVar.v ===== *)
(** * coro::condition_variable (include/coro/comp/condition_variable.hpp,
    src/comp/condition_variable.cpp)

    Condition variables of one mutex, on the contract of the mutex
    ([LockSpec.v]; [Mutex.v] proves that the mutex implements it). The
    spinlock makes each access to a variable's list one step. The data that
    the conditions speak about are a parameter. *)
From S2P Require Import Prelude WaitCount LockSpec.
Local Open Scope Z_scope.
Local Open Scope coro_scope.

Section condition_variable.
(** The variables, the protected data, the conditions ([cond_type]) and the
    context of each coroutine. *)
Context {CV D Cond : Type} `{EqDecision CV} (holds : Cond → D → bool) (ctx_of : nat → nat).
(** The writes of the data that do not take the mutex. *)
Context (unlocked : D → D → bool).

(** Where a coroutine is. The awaiter [cv_awaiter] is its variable [m_cv], its
    condition [m_cond], and whether it has been suspended ([m_suspend_state]). *)
Inductive pc :=
  | LockWait                                             (* mutex.lock(): queued *)
  | Holding                                              (* owns the mutex *)
  | Eval (cv : CV) (m_cond : option Cond)                (* register_lock *)
  | RegisterCv (cv : CV) (m_cond : option Cond)          (* ... to call register_cv *)
  | InCv (cv : CV) (m_cond : option Cond)                (* in the variable's list *)
  | Popped (cv : CV) (m_cond : option Cond)              (* out of it, to be woken up *)
  | LockQueued (cv : CV) (m_cond : option Cond)          (* wake_up: queued on the mutex *)
  | Handed (cv : CV) (m_cond : option Cond)              (* resume: owns the mutex *)
  | Resumed (cv : CV) (m_cond : option Cond).            (* submitted to its context *)

Record state := State {
  lk : lock_state;                    (* the mutex *)
  leaving : bool;                     (* its holder has to unlock it *)
  data : D;
  cvq : CV → list nat;                (* m_head .. m_tail of each variable *)
  pcs : gmap nat pc;
  waking : gmap nat (list nat);       (* what each notifying thread has to wake up *)
  nwait : nat → Z;
}.

Inductive label :=
  | Lock (t : nat)
  | Unlock (t : nat)
  | Wait (t : nat) (cv : CV) (m_cond : option Cond)
  | Step (t : nat)                    (* the awaiter's next step *)
  | Leave                             (* the unlock of a coroutine that suspended *)
  | NotifyOne (n : nat) (cv : CV)
  | NotifyAll (n : nat) (cv : CV)
  | WakeUp (n : nat)
  | Update (t : nat) (d : D)          (* the holder writes the data *)
  | Write (d : D).                    (* somebody writes without the mutex *)

Inductive event :=
  | Return (t : nat) (m_cond : option Cond)   (* wait() returned *)
  | Sleep (t : nat) (cv : CV).        (* entered the list *)

Definition init (d : D) : state := State lock_init false d (λ _, []) ∅ ∅ (λ _, 0).

Definition set_lk (l : lock_state) (s : state) : state :=
  State l (leaving s) (data s) (cvq s) (pcs s) (waking s) (nwait s).
Definition set_leaving (b : bool) (s : state) : state :=
  State (lk s) b (data s) (cvq s) (pcs s) (waking s) (nwait s).
Definition set_data (d : D) (s : state) : state :=
  State (lk s) (leaving s) d (cvq s) (pcs s) (waking s) (nwait s).
Definition set_cvq (cv : CV) (l : list nat) (s : state) : state :=
  State (lk s) (leaving s) (data s) (<[cv := l]> (cvq s)) (pcs s) (waking s) (nwait s).
Definition set_pc (t : nat) (p : pc) (s : state) : state :=
  State (lk s) (leaving s) (data s) (cvq s) (<[t := p]> (pcs s)) (waking s) (nwait s).
Definition leave (t : nat) (s : state) : state :=
  State (lk s) (leaving s) (data s) (cvq s) (delete t (pcs s)) (waking s) (nwait s).
Definition set_waking (n : nat) (l : list nat) (s : state) : state :=
  State (lk s) (leaving s) (data s) (cvq s) (pcs s)
    (if decide (l = []) then delete n (waking s) else <[n := l]> (waking s)) (nwait s).
Definition set_nwait (w : nat → Z) (s : state) : state :=
  State (lk s) (leaving s) (data s) (cvq s) (pcs s) (waking s) w.

(** The mutex resumes the waiter it hands itself to: [mutex_awaiter::resume],
    which [cv_awaiter] overrides. *)
Definition handed_pc (p : pc) : option pc :=
  match p with
  | LockWait => Some Holding
  | LockQueued cv c => Some (Handed cv c)
  | _ => None
  end.

(** [m_mtx.unlock()] by [t]. *)
Definition unlock (t : nat) (s : state) : option state :=
  match lock_step (LRelease t) (lk s) with
  | Some (l, [Release _ (Some w)]) =>
      p ← pcs s !! w.2; q ← handed_pc p; Some (set_pc w.2 q (set_lk l s))
  | Some (l, _) => Some (set_lk l s)
  | None => None
  end.

(** [mutex_awaiter::register_lock] by or for [t]: acquired, or queued. *)
Definition register_lock (t : nat) (acquired queued : pc) (s : state) : option state :=
  match lock_step (LAcquire t) (lk s) with
  | Some (l, _) => Some (set_pc t acquired (set_lk l s))
  | None =>
      match lock_step (LEnqueue (ctx_of t, t)) (lk s) with
      | Some (l, _) => Some (set_pc t queued (set_lk l s))
      | None => None
      end
  end.

(** [m_cond && m_cond()] *)
Definition cond_holds (c : option Cond) (d : D) : bool :=
  match c with Some c => holds c d | None => false end.
(** [m_cond && !m_cond()] *)
Definition cond_fails (c : option Cond) (d : D) : bool :=
  match c with Some c => negb (holds c d) | None => false end.

(** [cv_awaiter::register_lock] up to [register_cv], [register_cv], and
    [cv_awaiter::resume], [cv_awaiter::await_resume]. *)
Definition cv_step (t : nat) (p : pc) (s : state) : option (state * list event) :=
  match p with
  | Eval cv c =>
      if cond_holds c (data s) then Some (set_pc t Holding s, [Return t c])
      else Some (set_pc t (RegisterCv cv c) (set_nwait (register_wait (ctx_of t) 1 (nwait s)) s), [])
  | RegisterCv cv c =>
      Some (set_leaving true (set_pc t (InCv cv c) (set_cvq cv (cvq s cv ++ [t]) s)), [Sleep t cv])
  | Handed cv c =>
      if cond_fails c (data s) then
        Some (set_pc t (RegisterCv cv c) (set_nwait (register_wait (ctx_of t) 0 (nwait s)) s), [])
      else Some (set_pc t (Resumed cv c) s, [])
  | Resumed cv c =>
      Some (set_pc t Holding (set_nwait (unregister_wait (ctx_of t) 1 (nwait s)) s), [Return t c])
  | _ => None
  end.

Definition to_popped (s : state) (t : nat) : state :=
  match pcs s !! t with Some (InCv cv c) => set_pc t (Popped cv c) s | _ => s end.

(** [notify_one] and [notify_all] up to the wake-ups: the list is cut. *)
Definition pop (n : nat) (cv : CV) (ts : list nat) (rest : list nat) (s : state) : option state :=
  if decide (waking s !! n = None) then
    Some (set_waking n ts (foldl to_popped (set_cvq cv rest s) ts))
  else None.

(** [cv_awaiter::wake_up] of the next awaiter a notifying thread has. *)
Definition wake_up (n : nat) (s : state) : option state :=
  l ← waking s !! n;
  match l with
  | t :: l =>
      p ← pcs s !! t;
      match p with
      | Popped cv c => s ← register_lock t (Handed cv c) (LockQueued cv c) s; Some (set_waking n l s)
      | _ => None
      end
  | [] => None
  end.

#[local] Notation quiet s := (s0 ← s; Some (s0, [])).

Definition step (l : label) (s : state) : option (state * list event) :=
  match l with
  | Lock t => if decide (pcs s !! t = None) then quiet (register_lock t Holding LockWait s) else None
  | Unlock t =>
      match pcs s !! t with
      | Some Holding => quiet (unlock t (leave t s))
      | _ => None
      end
  | Wait t cv c =>
      match pcs s !! t with Some Holding => Some (set_pc t (Eval cv c) s, []) | _ => None end
  | Step t => p ← pcs s !! t; cv_step t p s
  | Leave =>
      if leaving s then
        t ← holder (lk s); quiet (unlock t (set_leaving false s))
      else None
  | NotifyOne n cv =>
      match cvq s cv with
      | [] => Some (s, [])
      | t :: l => quiet (pop n cv [t] l s)
      end
  | NotifyAll n cv => quiet (pop n cv (cvq s cv) [] s)
  | WakeUp n => quiet (wake_up n s)
  | Update t d => match pcs s !! t with Some Holding => Some (set_data d s, []) | _ => None end
  | Write d => if unlocked (data s) d then Some (set_data d s, []) else None
  end.

Definition cv_machine (d : D) : machine state label event := Machine (λ s, s = init d) step.

(** ** Where the coroutines are *)

(** Owner of the mutex, in its queue, in the list of a variable, or on its way
    from there with a notifying thread. *)
Inductive place := AsOwner | InLock | InList (cv : CV) | WithNotifier.

Definition place_of (p : pc) : place :=
  match p with
  | Holding | Eval _ _ | RegisterCv _ _ | Handed _ _ | Resumed _ _ => AsOwner
  | LockWait | LockQueued _ _ => InLock
  | InCv cv _ => InList cv
  | Popped _ _ => WithNotifier
  end.
Definition at_place (s : state) (t : nat) (x : place) : Prop := place_of <$> pcs s !! t = Some x.

(** Every coroutine is in one place, the one that its program counter says,
    and exactly once. *)
Record placed (s : state) : Prop := {
  p_owner : ∀ t, at_place s t AsOwner → holder (lk s) = Some t ∧ leaving s = false;
  p_held : ∀ t, holder (lk s) = Some t → leaving s = true ∨ at_place s t AsOwner;
  p_free : holder (lk s) = None → queue (lk s) = [] ∧ leaving s = false;
  p_queue : ∀ t, t ∈ (queue (lk s)).*2 ↔ at_place s t InLock;
  p_cv : ∀ cv t, t ∈ cvq s cv ↔ at_place s t (InList cv);
  p_waking : ∀ t, (∃ n l, waking s !! n = Some l ∧ t ∈ l) ↔ at_place s t WithNotifier;
  p_nodup_lock : NoDup (queue (lk s)).*2;
  p_nodup_cv : ∀ cv, NoDup (cvq s cv);
  p_nodup_wake : ∀ n l, waking s !! n = Some l → NoDup l;
  p_disj : ∀ n1 n2 l1 l2 t, waking s !! n1 = Some l1 → waking s !! n2 = Some l2 →
    t ∈ l1 → t ∈ l2 → n1 = n2;
}.

(** The lists a coroutine can be in, and when it is. *)
Inductive home := HomeCv (cv : CV) | HomeNotifier (n : nat) | HomeLock.
Definition lives (s : state) (t : nat) (h : home) : Prop :=
  match h with
  | HomeCv cv => t ∈ cvq s cv
  | HomeNotifier n => ∃ l, waking s !! n = Some l ∧ t ∈ l
  | HomeLock => t ∈ (queue (lk s)).*2
  end.

Lemma lives_place s t h : placed s → lives s t h →
  at_place s t (match h with HomeCv cv => InList cv | HomeNotifier _ => WithNotifier | HomeLock => InLock end).
Proof.
  intros Hs Hh. destruct h as [cv|n|]; simpl in Hh; [by apply (p_cv _ Hs)| |by apply (p_queue _ Hs)].
  destruct Hh as (l & ? & ?). apply (p_waking _ Hs). by eauto.
Qed.

(** No coroutine is in two lists. *)
Lemma lives_once s t h1 h2 : placed s → lives s t h1 → lives s t h2 → h1 = h2.
Proof.
  intros Hs H1 H2. pose proof (lives_place _ _ _ Hs H1) as P1. pose proof (lives_place _ _ _ Hs H2) as P2.
  assert (Hx : ∀ x, at_place s t x → ∀ y, at_place s t y → x = y) by (unfold at_place; intros x Hx y Hy; congruence).
  pose proof (Hx _ P1 _ P2) as He. destruct h1 as [cv|n|], h2 as [cv'|n'|]; simplify_eq; try done.
  destruct H1 as (l1 & Hl1 & Ht1), H2 as (l2 & Hl2 & Ht2). f_equal. by eapply (p_disj _ Hs).
Qed.

Lemma at_insert s t p x u : at_place (set_pc t p s) u x ↔
  (u = t ∧ place_of p = x) ∨ (u ≠ t ∧ at_place s u x).
Proof.
  unfold at_place. simpl. destruct (decide (u = t)) as [->|].
  - rewrite lookup_insert_eq. simpl. naive_solver.
  - rewrite lookup_insert_ne by done. naive_solver.
Qed.

Lemma at_delete s t x u : at_place (leave t s) u x ↔ u ≠ t ∧ at_place s u x.
Proof.
  unfold at_place. simpl. destruct (decide (u = t)) as [->|].
  - rewrite lookup_delete_eq. naive_solver.
  - rewrite lookup_delete_ne by done. naive_solver.
Qed.

Lemma at_fun s t x y : at_place s t x → at_place s t y → x = y.
Proof. unfold at_place. congruence. Qed.

Lemma at_absent s t x : pcs s !! t = None → ¬ at_place s t x.
Proof. unfold at_place. by intros ->. Qed.

(** A step of a coroutine that stays in its place. *)
Lemma placed_same s s' : placed s → lk s' = lk s → leaving s' = leaving s → cvq s' = cvq s →
  waking s' = waking s → (∀ t x, at_place s' t x ↔ at_place s t x) → placed s'.
Proof.
  intros [] Hlk Hlv Hcv Hw Hat. split; rewrite ?Hlk, ?Hlv, ?Hcv, ?Hw; intros;
    try setoid_rewrite Hat; try (rewrite Hat in *); eauto.
Qed.

Lemma placed_set_pc s t p q : placed s → pcs s !! t = Some p → place_of p = place_of q →
  placed (set_pc t q s).
Proof.
  intros Hs Ht Hpq. apply (placed_same s); try done. intros u x. rewrite at_insert.
  assert (at_place s t (place_of q)) by (unfold at_place; rewrite Ht; simpl; by f_equal).
  split; [intros [[-> <-]|[_ ?]]; done|]. intros Hu. destruct (decide (u = t)) as [->|]; [|by right].
  left. split; [done|]. by eapply at_fun.
Qed.

(** The owner goes away, leaving the unlock to be done. *)
Lemma placed_owner_out s t : placed s → at_place s t AsOwner → placed (set_leaving true (leave t s)).
Proof.
  intros [Ho Hh Hf Hq Hc Hw Hn1 Hn2 Hn3 Hd] Ht. destruct (Ho _ Ht) as [Hhol Hlv].
  assert (Hne : ∀ u x, x ≠ AsOwner → at_place s u x ↔ at_place (leave t s) u x).
  { intros u x Hx. rewrite at_delete. split; [|naive_solver]. intros Hu. split; [|done].
    intros ->. by pose proof (at_fun _ _ _ _ Hu Ht). }
  change (at_place (leave t s)) with (at_place (set_leaving true (leave t s))) in Hne.
  split; simpl; try done.
  - intros u Hu. assert (u ≠ t ∧ at_place s u AsOwner) as [? Hu'] by by apply at_delete.
    destruct (Ho _ Hu'). congruence.
  - intros u Hu. by left.
  - intros Hn. congruence.
  - intros u. rewrite Hq. by apply Hne.
  - intros cv u. rewrite Hc. by apply Hne.
  - intros u. rewrite Hw. by apply Hne.
Qed.

(** The unlock that has to be done is done. *)
Lemma placed_unlock s t s' : placed s → leaving s = true → holder (lk s) = Some t →
  unlock t (set_leaving false s) = Some s' → placed s'.
Proof.
  intros [Ho Hh Hf Hq Hc Hw Hn1 Hn2 Hn3 Hd] Hlv Hhol Hu. unfold unlock in Hu.
  assert (Hno : ∀ u, ¬ at_place s u AsOwner) by (intros u H; destruct (Ho _ H); congruence).
  simpl in Hu. rewrite Hhol, decide_True in Hu by done.
  destruct (queue (lk s)) as [|w q] eqn:Hqq; simplify_eq/=.
  - split; simpl; try done; try (by constructor). intros u Hu; by apply Hno in Hu.
  - destruct (pcs s !! w.2) as [p|] eqn:Hp; [|done]. simpl in Hu.
    assert (Hin : at_place s w.2 InLock) by (apply Hq; left).
    destruct (handed_pc p) as [q'|] eqn:Hhp; [|done]. simplify_eq/=.
    assert (Hpq : place_of q' = AsOwner) by (destruct p; by simplify_eq/=).
    apply NoDup_cons in Hn1 as [Hnin Hn1].
    set (s' := set_pc w.2 q' (set_lk (LockState (Some w.2) q) (set_leaving false s))).
    assert (Hat : ∀ u x, at_place s' u x ↔ (u = w.2 ∧ AsOwner = x) ∨ (u ≠ w.2 ∧ at_place s u x)).
    { intros u x. unfold s'. rewrite at_insert, Hpq. done. }
    assert (Hne : ∀ u x, x ≠ AsOwner → x ≠ InLock → at_place s u x ↔ at_place s' u x).
    { intros u x ??. rewrite Hat. split; [|naive_solver]. intros Hu. right. split; [|done].
      intros ->. by pose proof (at_fun _ _ _ _ Hu Hin). }
    split; simpl; try done.
    + intros u [[-> _]|[_ Hu]]%Hat; [done|by apply Hno in Hu].
    + intros u [= <-]. right. apply Hat. by left.
    + intros u. rewrite Hat. split.
      * intros Hu. right. split; [by intros ->|]. apply Hq. by right.
      * intros [[_ ?]|[Hne' Hu]]; [done|]. apply Hq, elem_of_cons in Hu as [|]; done.
    + intros cv u. rewrite Hc. by apply Hne.
    + intros u. rewrite Hw. by apply Hne.
Qed.

(** A coroutine that was nowhere asks for the mutex. *)
Lemma placed_register s t acq que s' : placed s → pcs s !! t = None →
  place_of acq = AsOwner → place_of que = InLock →
  register_lock t acq que s = Some s' → placed s'.
Proof.
  intros [Ho Hh Hf Hq Hc Hw Hn1 Hn2 Hn3 Hd] Ht Ha Hqu Hr. unfold register_lock in Hr. simpl in Hr.
  pose proof (λ x, at_absent s t x Ht) as Hab.
  assert (Hne : ∀ p u x, place_of p ≠ x → at_place s u x ↔ at_place (set_pc t p s) u x).
  { intros p u x Hx. rewrite at_insert. split; [|naive_solver]. intros Hu. right. split; [|done].
    intros ->. by apply Hab in Hu. }
  destruct (holder (lk s)) as [h|] eqn:Hhol; simplify_eq/=; split; simpl; try done.
  - intros u Hu. apply (Hne que) in Hu; [|congruence]. destruct (Ho _ Hu). split; congruence.
  - intros u Hu. destruct (Hh u) as [?|Hu']; [congruence|by left|right]. apply (Hne que); [congruence|done].
  - intros u. rewrite fmap_app. simpl. rewrite elem_of_app, Hq, list_elem_of_singleton.
    transitivity (at_place (set_pc t que s) u InLock); [|done]. rewrite at_insert, Hqu.
    split; [|naive_solver]. intros [Hu| ->]; [|by left]. right. split; [|done].
    intros ->. by apply Hab in Hu.
  - intros cv u. rewrite Hc. apply (Hne que). congruence.
  - intros u. rewrite Hw. apply (Hne que). congruence.
  - rewrite fmap_app. apply NoDup_snoc; [done|]. simpl. rewrite Hq. apply Hab.
  - intros u Hu. change (at_place (set_pc t acq s) u AsOwner) in Hu. apply at_insert in Hu as [[-> _]|[_ Hu]].
    + split; [done|]. by apply Hf.
    + destruct (Ho _ Hu). congruence.
  - intros u [= <-]. right. apply (at_insert s). by left.
  - intros u. rewrite Hq. apply (Hne acq). congruence.
  - intros cv u. rewrite Hc. apply (Hne acq). congruence.
  - intros u. rewrite Hw. apply (Hne acq). congruence.
Qed.

(** [register_cv]. *)
Lemma placed_register_cv s t cv c : placed s → pcs s !! t = None →
  placed (set_pc t (InCv cv c) (set_cvq cv (cvq s cv ++ [t]) s)).
Proof.
  intros [Ho Hh Hf Hq Hc Hw Hn1 Hn2 Hn3 Hd] Ht.
  pose proof (λ x, at_absent s t x Ht) as Hab.
  set (s' := set_pc t (InCv cv c) (set_cvq cv (cvq s cv ++ [t]) s)).
  assert (Hat : ∀ u x, at_place s' u x ↔ (u = t ∧ InList cv = x) ∨ (u ≠ t ∧ at_place s u x)).
  { intros u x. unfold s'. rewrite at_insert. done. }
  assert (Hne : ∀ u x, x ≠ InList cv → at_place s u x ↔ at_place s' u x).
  { intros u x Hx. rewrite Hat. split; [|naive_solver]. intros Hu. right. split; [|done].
    intros ->. by apply Hab in Hu. }
  split; simpl; try done.
  - intros u Hu. apply Ho. by apply Hne.
  - intros u Hu. destruct (Hh _ Hu); [by left|right]. by apply Hne.
  - intros u. rewrite Hq. by apply Hne.
  - intros cv' u. destruct (decide (cv' = cv)) as [->|].
    + rewrite fn_lookup_insert, elem_of_app, Hc, list_elem_of_singleton, Hat.
      split; [|naive_solver]. intros [Hu| ->]; [|by left]. right. split; [|done].
      intros ->. by apply Hab in Hu.
    + rewrite fn_lookup_insert_ne by done. rewrite Hc. apply Hne. congruence.
  - intros u. rewrite Hw. by apply Hne.
  - intros cv'. destruct (decide (cv' = cv)) as [->|].
    + rewrite fn_lookup_insert. apply NoDup_snoc; [done|]. rewrite Hc. apply Hab.
    + by rewrite fn_lookup_insert_ne.
Qed.

(** ... and the notifications. *)
Lemma waking_insert n l s m l' : waking (set_waking n l s) !! m = Some l' ↔
  (m = n ∧ l' = l ∧ l ≠ []) ∨ (m ≠ n ∧ waking s !! m = Some l').
Proof.
  simpl. case_decide; destruct (decide (m = n)) as [->|];
    rewrite ?lookup_delete_eq, ?lookup_insert_eq, ?lookup_delete_ne, ?lookup_insert_ne by done;
    naive_solver.
Qed.

Lemma to_popped_eq s t : ∃ m, to_popped s t = State (lk s) (leaving s) (data s) (cvq s) m (waking s) (nwait s).
Proof. unfold to_popped. destruct (pcs s !! t) as [[]|]; destruct s; eexists; reflexivity. Qed.

Lemma popped_eq ts : ∀ s, ∃ m,
  foldl to_popped s ts = State (lk s) (leaving s) (data s) (cvq s) m (waking s) (nwait s).
Proof.
  induction ts as [|t ts IH]; intros s; simpl; [destruct s; by eexists|].
  destruct (to_popped_eq s t) as [m ->]. destruct (IH (State (lk s) (leaving s) (data s) (cvq s) m (waking s) (nwait s))) as [m' ->].
  by eexists.
Qed.

Lemma at_popped cv ts : ∀ s u x, NoDup ts → (∀ t, t ∈ ts → at_place s t (InList cv)) →
  at_place (foldl to_popped s ts) u x ↔ (u ∈ ts ∧ x = WithNotifier) ∨ (u ∉ ts ∧ at_place s u x).
Proof.
  induction ts as [|t ts IH]; intros s u x Hnd Hts; simpl.
  - split; [intros; right; split; [apply not_elem_of_nil|done]|]. intros [[H _]|[_ ?]]; [by apply elem_of_nil in H|done].
  - apply NoDup_cons in Hnd as [Hnt Hnd].
    assert (Ht : ∀ u x, at_place (to_popped s t) u x ↔ (u = t ∧ x = WithNotifier) ∨ (u ≠ t ∧ at_place s u x)).
    { intros u' x'. pose proof (Hts t ltac:(left)) as H. unfold at_place in H.
      destruct (pcs s !! t) as [p|] eqn:Hp; [|done]. unfold to_popped. rewrite Hp.
      destruct p; try done. rewrite at_insert. simpl. naive_solver. }
    rewrite IH; [|done|].
    + rewrite Ht, elem_of_cons. destruct (decide (u = t)) as [->|]; naive_solver.
    + intros t' Ht'. apply Ht. right. split; [by intros ->|]. apply Hts. by right.
Qed.

Lemma placed_pop s n cv ts rest s' : placed s → cvq s cv = ts ++ rest →
  pop n cv ts rest s = Some s' → placed s'.
Proof.
  intros [Ho Hh Hf Hq Hc Hw Hn1 Hn2 Hn3 Hd] Hcv Hp. unfold pop in Hp. case_decide as Hnw; [|done].
  pose proof (Hn2 cv) as Hnd. rewrite Hcv in Hnd. apply NoDup_app in Hnd as (Hnt & Hdisj & Hnr).
  assert (Hts : ∀ t, t ∈ ts → at_place (set_cvq cv rest s) t (InList cv)).
  { intros t Ht. apply (Hc cv). rewrite Hcv. apply elem_of_app. by left. }
  assert (Hat : ∀ u x, at_place s' u x ↔ (u ∈ ts ∧ x = WithNotifier) ∨ (u ∉ ts ∧ at_place s u x)).
  { intros u x. injection Hp as <-. etransitivity; [|apply (at_popped cv ts _ u x Hnt Hts)]. done. }
  destruct (popped_eq ts (set_cvq cv rest s)) as [m Hm]. rewrite Hm in Hp.
  assert (Hne : ∀ u x, x ≠ WithNotifier → x ≠ InList cv → at_place s u x ↔ at_place s' u x).
  { intros u x ??. rewrite Hat. split; [|naive_solver]. intros Hu. right. split; [|done].
    intros Hin. apply Hts in Hin. by pose proof (at_fun _ _ _ _ Hu Hin). }
  assert (Hwk : ∀ k l, waking s' !! k = Some l ↔ (k = n ∧ l = ts ∧ ts ≠ []) ∨ (k ≠ n ∧ waking s !! k = Some l)).
  { intros k l. injection Hp as <-. rewrite waking_insert. done. }
  assert (Hcq : cvq s' = <[cv := rest]> (cvq s)) by (injection Hp as <-; done).
  assert (lk s' = lk s ∧ leaving s' = leaving s) as [Hlk Hlv] by (injection Hp as <-; done).
  clear Hp Hm. split; rewrite ?Hlk, ?Hlv; try done.
  - intros u Hu. apply Ho. by apply Hne.
  - intros u Hu. destruct (Hh _ Hu); [by left|right]. by apply Hne.
  - intros u. rewrite Hq. by apply Hne.
  - intros cv' u. rewrite Hcq. destruct (decide (cv' = cv)) as [->|].
    + rewrite fn_lookup_insert, Hat. split.
      * intros Hu. right. split; [intros ?; by apply (Hdisj u)|]. apply (Hc cv).
        rewrite Hcv. apply elem_of_app. by right.
      * intros [[_ ?]|[Hn Hu]]; [done|]. apply (Hc cv) in Hu. rewrite Hcv in Hu.
        by apply elem_of_app in Hu as [|].
    + rewrite fn_lookup_insert_ne by done. rewrite Hc. apply Hne; congruence.
  - intros u. rewrite Hat. split.
    + intros (k & l & [(-> & -> & _)|[Hkn Hk]]%Hwk & Hin); [by left|]. right.
      assert (Hu : at_place s u WithNotifier) by (apply Hw; eauto). split; [|done].
      intros Ht. apply Hts in Ht. by pose proof (at_fun _ _ _ _ Hu Ht).
    + intros [[Hin _]|[Hn Hu]].
      * exists n, ts. split; [|done]. apply Hwk. left. split_and!; [done..|]. intros ->. by apply elem_of_nil in Hin.
      * apply Hw in Hu as (k & l & Hk & Hin). exists k, l. split; [|done]. apply Hwk. right.
        split; [|done]. intros ->. by rewrite Hnw in Hk.
  - intros cv'. rewrite Hcq. destruct (decide (cv' = cv)) as [->|].
    + by rewrite fn_lookup_insert.
    + by rewrite fn_lookup_insert_ne.
  - intros k l [(-> & -> & _)|[_ Hk]]%Hwk; [done|by eapply Hn3].
  - intros k1 k2 l1 l2 u [(-> & -> & _)|[H1 Hk1]]%Hwk [(-> & -> & _)|[H2 Hk2]]%Hwk Hu1 Hu2;
      try done; [| |by eapply Hd].
    + assert (Hu : at_place s u WithNotifier) by (apply Hw; eauto). apply Hts in Hu1.
      by pose proof (at_fun _ _ _ _ Hu Hu1).
    + assert (Hu : at_place s u WithNotifier) by (apply Hw; eauto). apply Hts in Hu2.
      by pose proof (at_fun _ _ _ _ Hu Hu2).
Qed.

Lemma placed_popped_out s n t l : placed s → waking s !! n = Some (t :: l) →
  placed (leave t (set_waking n l s)).
Proof.
  intros [Ho Hh Hf Hq Hc Hw Hn1 Hn2 Hn3 Hd] Hn.
  assert (Ht : at_place s t WithNotifier) by (apply Hw; exists n, (t :: l); split; [done|left]).
  pose proof (Hn3 _ _ Hn) as Hnd. apply NoDup_cons in Hnd as [Hnt Hnd].
  set (s' := leave t (set_waking n l s)).
  assert (Hat : ∀ u x, at_place s' u x ↔ u ≠ t ∧ at_place s u x).
  { intros u x. unfold s'. by rewrite at_delete. }
  assert (Hne : ∀ u x, x ≠ WithNotifier → at_place s u x ↔ at_place s' u x).
  { intros u x Hx. rewrite Hat. split; [|naive_solver]. intros Hu. split; [|done]. intros ->.
    by pose proof (at_fun _ _ _ _ Hu Ht). }
  assert (Hwk : ∀ k l', waking s' !! k = Some l' ↔ (k = n ∧ l' = l ∧ l ≠ []) ∨ (k ≠ n ∧ waking s !! k = Some l')).
  { intros k l'. apply waking_insert. }
  split; try done.
  - intros u Hu. apply Ho. by apply Hne.
  - intros u Hu. destruct (Hh _ Hu); [by left|right]. by apply Hne.
  - intros u. etransitivity; [apply Hq|]. by apply Hne.
  - intros cv u. etransitivity; [apply Hc|]. by apply Hne.
  - intros u. rewrite Hat. split.
    + intros (k & l' & [(-> & -> & _)|[Hkn Hk]]%Hwk & Hin).
      * split; [by intros ->|]. apply Hw. exists n, (t :: l). split; [done|by right].
      * split; [|apply Hw; eauto]. intros ->. apply Hkn.
        eapply Hd; [exact Hk|exact Hn|done|left].
    + intros [Hut Hu]. apply Hw in Hu as (k & l' & Hk & Hin). destruct (decide (k = n)) as [->|].
      * rewrite Hn in Hk. injection Hk as <-. apply elem_of_cons in Hin as [|Hin]; [done|].
        exists n, l. split; [|done]. apply Hwk. left. split_and!; [done..|].
        intros ->. by apply elem_of_nil in Hin.
      * exists k, l'. split; [|done]. apply Hwk. by right.
  - intros k l' [(-> & -> & _)|[_ Hk]]%Hwk; [done|by eapply Hn3].
  - intros k1 k2 l1 l2 u [(-> & -> & _)|[H1 Hk1]]%Hwk [(-> & -> & _)|[H2 Hk2]]%Hwk Hu1 Hu2;
      try done; [..|by eapply Hd].
    + eapply Hd; [exact Hn|exact Hk2|by right|done].
    + eapply Hd; [exact Hk1|exact Hn|done|by right].
Qed.

Lemma register_lock_leave t a q n l s s1 : register_lock t a q s = Some s1 →
  register_lock t a q (leave t (set_waking n l s)) = Some (set_waking n l s1).
Proof.
  unfold register_lock. simpl. destruct (holder (lk s)); intros [= <-];
    unfold set_pc, set_lk, leave, set_waking; simpl; by rewrite insert_delete_eq.
Qed.

Lemma placed_cv_step s t p s' es : placed s → pcs s !! t = Some p → cv_step t p s = Some (s', es) →
  placed s'.
Proof.
  intros Hs Ht Hst. destruct p as [| |cv c|cv c|cv c|cv c|cv c|cv c|cv c]; try done; simpl in Hst.
  - case_match; simplify_eq; [by eapply placed_set_pc|].
    apply (placed_same (set_pc t (RegisterCv cv c) s)); try done. by eapply placed_set_pc.
  - simplify_eq. assert (Hat : at_place s t AsOwner) by (unfold at_place; by rewrite Ht).
    pose proof (placed_owner_out _ _ Hs Hat) as Hout.
    assert (Hnone : pcs (set_leaving true (leave t s)) !! t = None) by apply lookup_delete_eq.
    pose proof (placed_register_cv _ t cv c Hout Hnone) as Hreg. unfold set_pc, leave in Hreg.
    simpl in Hreg. by rewrite insert_delete_eq in Hreg.
  - case_match; simplify_eq; [|by eapply placed_set_pc].
    apply (placed_same (set_pc t (RegisterCv cv c) s)); try done. by eapply placed_set_pc.
  - simplify_eq. apply (placed_same (set_pc t Holding s)); try done. by eapply placed_set_pc.
Qed.

Lemma placed_leave s t s' : placed s → at_place s t AsOwner → unlock t (leave t s) = Some s' →
  placed s'.
Proof.
  intros Hs Ht Hu. destruct (p_owner _ Hs _ Ht) as [Hh Hlv].
  apply (placed_unlock (set_leaving true (leave t s)) t); [by apply placed_owner_out|done|done|].
  unfold set_leaving, leave in *. simpl in *. by rewrite <- Hlv.
Qed.

Lemma placed_wake_up s n s' : placed s → wake_up n s = Some s' → placed s'.
Proof.
  intros Hs Hw. unfold wake_up in Hw. destruct (waking s !! n) as [[|t l]|] eqn:Hn; try done.
  simpl in Hw. destruct (pcs s !! t) as [p|] eqn:Ht; [|done]. simpl in Hw. destruct p as [| | | | |cv c| | |]; try done.
  destruct (register_lock _ _ _ s) as [s1|] eqn:Hr; [|done]. simplify_eq/=.
  apply (register_lock_leave _ _ _ n l) in Hr.
  eapply placed_register; [by apply placed_popped_out| |..|exact Hr]; [apply lookup_delete_eq|done|done].
Qed.

Lemma placed_step l s s' es : placed s → step l s = Some (s', es) → placed s'.
Proof.
  intros Hs Hst. destruct l as [t|t|t cv c|t| |n cv|n cv|n|t d|d]; simpl in Hst.
  - case_decide as Ht; [|done]. destruct (register_lock _ _ _ s) as [s1|] eqn:Hr; [|done].
    simplify_eq/=. by eapply (placed_register s t Holding LockWait).
  - destruct (pcs s !! t) as [[]|] eqn:Ht; try done. destruct (unlock _ _) as [s1|] eqn:Hu; [|done].
    simplify_eq/=. apply (placed_leave s t); [done| |done]. unfold at_place. by rewrite Ht.
  - destruct (pcs s !! t) as [[]|] eqn:Ht; try done. simplify_eq. by eapply placed_set_pc.
  - destruct (pcs s !! t) as [p|] eqn:Ht; [|done]. by eapply placed_cv_step.
  - destruct (leaving s) eqn:Hl; [|done]. destruct (holder (lk s)) as [t|] eqn:Hh; [|done]. simpl in Hst.
    destruct (unlock _ _) as [s1|] eqn:Hu; [|done]. simplify_eq/=. by eapply (placed_unlock s t).
  - destruct (cvq s cv) as [|t q] eqn:Hq; [by simplify_eq|].
    destruct (pop _ _ _ _ _) as [s1|] eqn:Hp; [|done]. simplify_eq/=. by eapply (placed_pop s n cv [t] q).
  - destruct (pop _ _ _ _ _) as [s1|] eqn:Hp; [|done]. simplify_eq/=.
    eapply (placed_pop s n cv (cvq s cv) []); [done|by rewrite app_nil_r|done].
  - destruct (wake_up n s) as [s1|] eqn:Hw; [|done]. simplify_eq/=. by eapply placed_wake_up.
  - destruct (pcs s !! t) as [[]|]; try done. simplify_eq. by apply (placed_same s).
  - destruct (unlocked (data s) d); simplify_eq. by apply (placed_same s).
Qed.

Lemma placed_reach d s tr : reach (cv_machine d) s tr → placed s.
Proof.
  intros Hr. revert s tr Hr. apply reach_inv.
  - intros s ->. split; simpl; try done; try (by constructor).
    + intros t. split; [intros H; by apply elem_of_nil in H|by intros H%at_absent].
    + intros cv t. split; [intros H; by apply elem_of_nil in H|by intros H%at_absent].
    + intros t. split; [by intros (n & l & H & _)|by intros H%at_absent].
  - intros s l s' es Hs Hst. exact (placed_step l s s' es Hs Hst).
Qed.

(** ** The condition when [wait] returns *)

(** Unlocked writes do not make a condition false. *)
Definition harmless : Prop := ∀ c d d', unlocked d d' = true → holds c d = true → holds c d' = true.

Definition cond_kept (s : state) : Prop :=
  ∀ t cv c, pcs s !! t = Some (Resumed cv (Some c)) → holds c (data s) = true.

Lemma cond_kept_set t p s : (∀ cv c, p ≠ Resumed cv (Some c)) → cond_kept s → cond_kept (set_pc t p s).
Proof. intros Hp Hk u cv c Hu. simpl in *. lookup_cases; [by destruct (Hp cv c)|]. by eapply Hk. Qed.

Lemma cond_kept_unlock t s s1 : cond_kept s → unlock t s = Some s1 → cond_kept s1.
Proof.
  intros Hk Hu. unfold unlock in Hu. simpl in Hu. case_decide; [|done].
  destruct (queue (lk s)) as [|w q]; [by simplify_eq|].
  destruct (pcs s !! w.2) as [p|]; [|done]. simpl in Hu. destruct (handed_pc p) as [q'|] eqn:Hp; [|done].
  simplify_eq/=. apply cond_kept_set; [|done]. intros cv c ->. by destruct p.
Qed.

Lemma cond_kept_register t a q s s1 : (∀ cv c, a ≠ Resumed cv (Some c)) → (∀ cv c, q ≠ Resumed cv (Some c)) →
  cond_kept s → register_lock t a q s = Some s1 → cond_kept s1.
Proof.
  intros Ha Hq Hk Hr. unfold register_lock in Hr. simpl in Hr.
  destruct (holder (lk s)); simplify_eq; by apply cond_kept_set.
Qed.

Lemma cond_kept_pop n cv ts r s s1 : cond_kept s → pop n cv ts r s = Some s1 → cond_kept s1.
Proof.
  intros Hk Hp. unfold pop in Hp. case_decide; [|done]. injection Hp as <-.
  assert (Hf : ∀ ts s0, cond_kept s0 → cond_kept (foldl to_popped s0 ts)).
  { induction ts0 as [|t ts0 IH]; intros s0 Hk0; simpl; [done|]. apply IH. unfold to_popped.
    destruct (pcs s0 !! t) as [[]|]; try done. by apply cond_kept_set. }
  exact (Hf ts (set_cvq cv r s) Hk).
Qed.

Lemma cond_kept_step l s s' es : harmless → placed s → cond_kept s →
  step l s = Some (s', es) → cond_kept s'.
Proof.
  intros Hw Hs Hk Hst.
  assert (Hset' : ∀ t p s0, (∀ cv c, p ≠ Resumed cv (Some c)) → pcs s0 = pcs s → data s0 = data s →
    cond_kept (set_pc t p s0)).
  { intros t p s0 Hp Hps Hds. apply cond_kept_set; [done|]. intros u cv c. rewrite Hps, Hds. apply Hk. }
  destruct l as [t|t|t cv c|t| |n cv|n cv|n|t d|d]; simpl in Hst.
  - case_decide as Ht; [|done]. destruct (register_lock _ _ _ s) as [s1|] eqn:Hr; [|done].
    simplify_eq/=. by eapply (cond_kept_register t Holding LockWait).
  - destruct (pcs s !! t) as [[]|] eqn:Ht; try done. destruct (unlock _ _) as [s1|] eqn:Hu; [|done].
    simplify_eq/=. eapply cond_kept_unlock; [|exact Hu]. intros u cv c Hu'. simpl in *. lookup_cases. by eapply Hk.
  - destruct (pcs s !! t) as [[]|]; try done. simplify_eq. by apply cond_kept_set.
  - destruct (pcs s !! t) as [p|] eqn:Ht; [|done]. simpl in Hst.
    destruct p as [| |cv c|cv c|cv c|cv c|cv c|cv c|cv c]; try done; simpl in Hst.
    + case_match; simplify_eq; by apply Hset'.
    + simplify_eq. exact (cond_kept_set t (InCv cv c) (set_cvq cv (cvq s cv ++ [t]) s) ltac:(done) Hk).
    + case_match eqn:Hf; simplify_eq; [by apply Hset'|]. intros u cv' c' Hu. simpl in *. lookup_cases.
      * by apply negb_false_iff in Hf.
      * by eapply Hk.
    + simplify_eq. by apply Hset'.
  - destruct (leaving s); [|done]. destruct (holder (lk s)) as [t|]; [|done]. simpl in Hst.
    destruct (unlock _ _) as [s1|] eqn:Hu; [|done]. simplify_eq/=.
    exact (cond_kept_unlock t (set_leaving false s) s' Hk Hu).
  - destruct (cvq s cv) as [|t q]; [by simplify_eq|].
    destruct (pop _ _ _ _ _) as [s1|] eqn:Hp; [|done]. simplify_eq/=. by eapply cond_kept_pop.
  - destruct (pop _ _ _ _ _) as [s1|] eqn:Hp; [|done]. simplify_eq/=. by eapply cond_kept_pop.
  - unfold wake_up in Hst. destruct (waking s !! n) as [[|t l]|]; try done. simpl in Hst.
    destruct (pcs s !! t) as [[]|]; try done. simpl in Hst.
    destruct (register_lock _ _ _ s) as [s1|] eqn:Hr; [|done]. simplify_eq/=.
    by eapply (cond_kept_register t (Handed cv m_cond) (LockQueued cv m_cond)) in Hr.
  - destruct (pcs s !! t) as [p|] eqn:Ht; [|done]. destruct p; try done. simplify_eq.
    intros u cv c Hu. simpl in *. exfalso.
    assert (at_place s t AsOwner) as [? _]%(p_owner _ Hs) by (unfold at_place; by rewrite Ht).
    assert (at_place s u AsOwner) as [? _]%(p_owner _ Hs) by (unfold at_place; by rewrite Hu).
    congruence.
  - destruct (unlocked (data s) d) eqn:Hd; simplify_eq. intros t cv c Ht. simpl in *.
    by eapply Hw, Hk.
Qed.

Lemma cond_kept_reach d s tr : harmless → reach (cv_machine d) s tr → cond_kept s.
Proof.
  intros Hw Hr. induction Hr as [s Hi|s tr l s' es Hr IH Hst]; [by rewrite Hi|].
  eapply cond_kept_step; [done|by eapply placed_reach|done|exact Hst].
Qed.

(** ** Wake-ups *)
Lemma register_lock_ok t a q s : ∃ l b, register_lock t a q s = Some (set_pc t (if b : bool then a else q) (set_lk l s)).
Proof.
  unfold register_lock. simpl. destruct (holder (lk s)).
  - by exists (LockState (Some n) (queue (lk s) ++ [(ctx_of t, t)])), false.
  - by exists (LockState (Some t) (queue (lk s))), true.
Qed.

Lemma wake_up_one s n t l : placed s → waking s !! n = Some (t :: l) →
  ∃ s' cv c, wake_up n s = Some s' ∧ pcs s !! t = Some (Popped cv c) ∧ placed s' ∧
    (waking s' = if decide (l = []) then delete n (waking s) else <[n := l]> (waking s)) ∧
    cvq s' = cvq s ∧ (∃ q, pcs s' = <[t := q]> (pcs s) ∧ (q = Handed cv c ∨ q = LockQueued cv c)).
Proof.
  intros Hs Hn. assert (Ht : at_place s t WithNotifier).
  { apply (p_waking _ Hs). exists n, (t :: l). split; [done|left]. }
  unfold at_place in Ht. destruct (pcs s !! t) as [p|] eqn:Hp; [|done].
  destruct p as [| | | | |cv c| | |]; try done.
  destruct (register_lock_ok t (Handed cv c) (LockQueued cv c) s) as (k & b & Hr).
  assert (Hw : wake_up n s = Some (set_waking n l (set_pc t (if b then Handed cv c else LockQueued cv c) (set_lk k s)))).
  { unfold wake_up. rewrite Hn. simpl. rewrite Hp. simpl. by rewrite Hr. }
  eexists _, cv, c. split; [exact Hw|]. split_and!; [done|by eapply placed_wake_up|done|done|].
  eexists. split; [done|]. destruct b; auto.
Qed.

Lemma popped_pcs n ts rest cv s u : NoDup ts →
  pcs (set_waking n ts (foldl to_popped (set_cvq cv rest s) ts)) !! u =
    if decide (u ∈ ts) then (match pcs s !! u with Some (InCv cv' c) => Some (Popped cv' c) | o => o end)
    else pcs s !! u.
Proof.
  intros Hnd. simpl. change (pcs s) with (pcs (set_cvq cv rest s)). generalize (set_cvq cv rest s) as s0.
  induction Hnd as [|t ts Hnt Hnd IH]; intros s0; simpl; [done|].
  rewrite IH. assert (Hne : ∀ v, v ≠ t → pcs (to_popped s0 t) !! v = pcs s0 !! v).
  { intros v Hv. unfold to_popped. destruct (pcs s0 !! t) as [[]|]; try done. simpl.
    by rewrite lookup_insert_ne. }
  destruct (decide (u = t)) as [->|Hut].
  - rewrite decide_False by done. rewrite decide_True by left. unfold to_popped.
    destruct (pcs s0 !! t) as [[]|] eqn:Ht; try done. apply lookup_insert_eq.
  - rewrite (Hne u Hut). destruct (decide (u ∈ ts)).
    + by rewrite decide_True by by right.
    + rewrite decide_False; [done|]. by intros [|]%elem_of_cons.
Qed.


Lemma wake_run d l : ∀ s n, placed s → waking s !! n = Some l → l ≠ [] →
  ∃ s', exec (cv_machine d) (replicate (length l) (WakeUp n)) s = Some (s', []) ∧
    waking s' !! n = None ∧ cvq s' = cvq s ∧
    (∀ t, t ∈ l → ∃ cv c, pcs s !! t = Some (Popped cv c) ∧
       (pcs s' !! t = Some (Handed cv c) ∨ pcs s' !! t = Some (LockQueued cv c))) ∧
    (∀ t, t ∉ l → pcs s' !! t = pcs s !! t).
Proof.
  induction l as [|t l IH]; intros s n Hs Hn Hne; [done|].
  destruct (wake_up_one s n t l Hs Hn) as (s1 & cv & c & Hw & Ht & Hs1 & Hwk & Hcv & q & Hpcs & Hq).
  assert (Hst : m_step (cv_machine d) (WakeUp n) s = Some (s1, [])).
  { cbn [m_step cv_machine step]. by rewrite Hw. }
  pose proof (p_nodup_wake _ Hs _ _ Hn) as Hnd. apply NoDup_cons in Hnd as [Hnt Hnd].
  destruct (decide (l = [])) as [->|Hl].
  - exists s1. split_and!; [cbn [length replicate exec]; by rewrite Hst|by rewrite Hwk, lookup_delete_eq|done| |].
    + intros u Hu. apply list_elem_of_singleton in Hu as ->. exists cv, c. split; [done|].
      rewrite Hpcs, lookup_insert_eq. destruct Hq as [-> | ->]; auto.
    + intros u Hu. rewrite Hpcs, lookup_insert_ne; [done|]. intros ->. apply Hu. left.
  - destruct (IH s1 n Hs1) as (s2 & He & Hwk2 & Hcv2 & Hin & Hout); [by rewrite Hwk, lookup_insert_eq|done|].
    exists s2. split_and!; [|done|congruence| |].
    + cbn [length replicate exec]. by rewrite Hst, He.
    + intros u Hu. apply elem_of_cons in Hu as [->|Hu].
      * exists cv, c. split; [done|]. rewrite (Hout t Hnt), Hpcs, lookup_insert_eq.
        destruct Hq as [-> | ->]; auto.
      * destruct (Hin u Hu) as (cv' & c' & Hu1 & Hu2). exists cv', c'. split; [|done].
        rewrite Hpcs, lookup_insert_ne in Hu1; [done|]. by intros ->.
    + intros u Hu. rewrite Hout, Hpcs, lookup_insert_ne; [done|..].
      * intros ->. apply Hu. left.
      * intros Hul. apply Hu. by right.
Qed.

(** [pop] and the wake-ups of what it took. *)
Lemma notify_run d s n cv ts rest : placed s → waking s !! n = None → cvq s cv = ts ++ rest → ts ≠ [] →
  ∃ s0 s', pop n cv ts rest s = Some s0 ∧
    exec (cv_machine d) (replicate (length ts) (WakeUp n)) s0 = Some (s', []) ∧
    cvq s' cv = rest ∧
    (∀ t, t ∈ ts → ∃ c, pcs s !! t = Some (InCv cv c) ∧
       (pcs s' !! t = Some (Handed cv c) ∨ pcs s' !! t = Some (LockQueued cv c))) ∧
    (∀ t, t ∉ ts → pcs s' !! t = pcs s !! t).
Proof.
  intros Hs Hn Hq Hts.
  assert (Hp : pop n cv ts rest s = Some (set_waking n ts (foldl to_popped (set_cvq cv rest s) ts))).
  { unfold pop. by rewrite decide_True. }
  pose proof (placed_pop _ _ _ _ _ _ Hs Hq Hp) as Hs0.
  destruct (popped_eq ts (set_cvq cv rest s)) as [m Hm].
  assert (Hpcs : ∀ u, pcs (set_waking n ts (foldl to_popped (set_cvq cv rest s) ts)) !! u =
    if decide (u ∈ ts) then (match pcs s !! u with Some (InCv cv' c) => Some (Popped cv' c) | o => o end)
    else pcs s !! u).
  { intros u. apply popped_pcs. pose proof (p_nodup_cv _ Hs cv) as Hnd. rewrite Hq in Hnd.
    by apply NoDup_app in Hnd as (? & _). }
  set (s0 := set_waking n ts _) in *.
  destruct (wake_run d ts s0 n Hs0) as (s' & He & _ & Hcv & Hin & Hout); [|done|].
  { apply waking_insert. by left. }
  exists s0, s'. split_and!; [done|done| | |].
  - rewrite Hcv. unfold s0. rewrite Hm. simpl. apply fn_lookup_insert.
  - intros t Ht. destruct (Hin t Ht) as (cv' & c & Hp1 & Hp2). rewrite Hpcs, decide_True in Hp1 by done.
    assert (Hat : at_place s t (InList cv)).
    { apply (p_cv _ Hs). rewrite Hq. apply elem_of_app. by left. }
    unfold at_place in Hat. destruct (pcs s !! t) as [[]|]; simplify_eq/=. eauto.
  - intros t Ht. rewrite Hout by done. by rewrite Hpcs, decide_False.
Qed.
Lemma return_cond d s tr l s' es t c : reach (cv_machine d) s tr → step l s = Some (s', es) →
  Return t c ∈ es →
  holder (lk s') = Some t ∧ pcs s' !! t = Some Holding ∧
  (harmless → ∀ c0, c = Some c0 → holds c0 (data s') = true).
Proof.
  intros Hr Hst Hin. pose proof (placed_reach _ _ _ Hr) as Hs.
  assert (Ht : l = Step t).
  { destruct l; simpl in Hst; try (step_inv Hst; by (apply elem_of_nil in Hin)).
    destruct (pcs s !! t0) as [p|]; [|done]. simpl in Hst. destruct p; try done; simpl in Hst;
      step_inv Hst; repeat (apply elem_of_cons in Hin as [Hin|Hin]; [by simplify_eq|]);
      by apply elem_of_nil in Hin. }
  subst l. simpl in Hst. destruct (pcs s !! t) as [p|] eqn:Hp; [|done]. simpl in Hst.
  assert (Ho : place_of p = AsOwner → holder (lk s) = Some t).
  { intros Hpl. apply (p_owner _ Hs). unfold at_place. rewrite Hp. simpl. by f_equal. }
  destruct p as [| |cv c'|cv c'|cv c'|cv c'|cv c'|cv c'|cv c']; try done; simpl in Hst.
  - case_match eqn:Hc; simplify_eq; [|by apply elem_of_nil in Hin].
    apply list_elem_of_singleton in Hin. simplify_eq. simpl. rewrite lookup_insert_eq.
    split_and!; [by apply Ho|done|]. by intros _ c0 ->.
  - simplify_eq. apply list_elem_of_singleton in Hin. done.
  - step_inv Hst; by apply elem_of_nil in Hin.
  - simplify_eq. apply list_elem_of_singleton in Hin. simplify_eq. simpl. rewrite lookup_insert_eq.
    split_and!; [by apply Ho|done|]. intros Hw c0 ->.
    by apply (cond_kept_reach _ _ _ Hw Hr t cv).
Qed.
(** ** The contract with the contexts *)

(** Between the [register_wait] of an awaiter and its [await_resume]. *)
Definition charged (p : pc) : bool :=
  match p with LockWait | Holding | Eval _ _ => false | _ => true end.
Definition suspended (s : state) : gmap nat nat :=
  map_imap (λ t p, if charged p then Some t else None) (pcs s).

Lemma suspended_lookup s t : suspended s !! t =
  match pcs s !! t with Some p => if charged p then Some t else None | None => None end.
Proof. unfold suspended. rewrite map_lookup_imap. by destruct (pcs s !! t). Qed.

Lemma suspended_same s s' : (∀ t, charged <$> pcs s' !! t = charged <$> pcs s !! t ∨
    from_option charged false (pcs s' !! t) = false ∧ from_option charged false (pcs s !! t) = false) →
  suspended s' = suspended s.
Proof.
  intros Hs. apply map_eq. intros t. rewrite !suspended_lookup. destruct (Hs t) as [Heq|[H1 H2]].
  - destruct (pcs s' !! t), (pcs s !! t); simplify_eq/=; [|done]. by rewrite Heq.
  - destruct (pcs s' !! t), (pcs s !! t); simpl in *; by rewrite ?H1, ?H2.
Qed.

Lemma suspended_set s t p q : pcs s !! t = Some q → charged p = charged q → suspended (set_pc t p s) = suspended s.
Proof.
  intros Ht Hp. apply suspended_same. intros u. left. simpl. destruct (decide (u = t)) as [->|].
  - rewrite lookup_insert_eq, Ht. simpl. by rewrite Hp.
  - by rewrite lookup_insert_ne.
Qed.

(** What does not change the counters, nor who is charged. *)
Definition uncharged (s s' : state) : Prop := suspended s' = suspended s ∧ nwait s' = nwait s.

Lemma suspended_free s t p : from_option charged false (pcs s !! t) = false → charged p = false →
  suspended (set_pc t p s) = suspended s.
Proof.
  intros Ht Hp. apply suspended_same. intros u. simpl. destruct (decide (u = t)) as [->|].
  - rewrite lookup_insert_eq. by right.
  - rewrite lookup_insert_ne by done. by left.
Qed.

Lemma suspended_leave s t : from_option charged false (pcs s !! t) = false → suspended (leave t s) = suspended s.
Proof.
  intros Ht. apply suspended_same. intros u. simpl. destruct (decide (u = t)) as [->|].
  - rewrite lookup_delete_eq. by right.
  - rewrite lookup_delete_ne by done. by left.
Qed.

Lemma unlock_uncharged t s s' : unlock t s = Some s' → uncharged s s'.
Proof.
  unfold unlock. destruct (lock_step _ _) as [[l es]|]; [|done].
  destruct es as [|[| | |? [w|]] [|]]; try (by intros [= <-]).
  destruct (pcs s !! w.2) as [p|] eqn:Hp; [|done]. simpl. destruct (handed_pc p) as [q|] eqn:Hq; [|done].
  intros [= <-]. split; [|done]. apply (suspended_set (set_lk l s) w.2 q p Hp). by destruct p; simplify_eq/=.
Qed.

Lemma register_uncharged t a q s s' : register_lock t a q s = Some s' →
  (∀ p, p = a ∨ p = q → suspended (set_pc t p s) = suspended s) → uncharged s s'.
Proof.
  unfold register_lock. intros Hr Hs. destruct (lock_step (LAcquire t) (lk s)) as [[l es]|].
  - injection Hr as <-. split; [|done]. by apply (Hs a); left.
  - destruct (lock_step _ _) as [[l es]|]; [|done]. injection Hr as <-. split; [|done]. by apply (Hs q); right.
Qed.

Lemma popped_uncharged ts : ∀ s, uncharged s (foldl to_popped s ts).
Proof.
  induction ts as [|t ts IH]; intros s; simpl; [done|].
  assert (Hp : uncharged s (to_popped s t)).
  { unfold to_popped. destruct (pcs s !! t) as [p|] eqn:Hp; [|done]. destruct p; try done.
    split; [|done]. by apply (suspended_set s t _ _ Hp). }
  destruct (IH (to_popped s t)), Hp. split; congruence.
Qed.

Lemma pop_uncharged n cv ts rest s s' : pop n cv ts rest s = Some s' → uncharged s s'.
Proof.
  unfold pop. case_decide; [|done]. intros [= <-]. exact (popped_uncharged ts (set_cvq cv rest s)).
Qed.

Lemma wake_up_uncharged n s s' : wake_up n s = Some s' → uncharged s s'.
Proof.
  unfold wake_up. destruct (waking s !! n) as [[|t l]|]; [done| |done]. simpl.
  destruct (pcs s !! t) as [p|] eqn:Hp; [|done]. simpl. destruct p as [| | | | |cv c| | |]; try done.
  destruct (register_lock _ _ _ _) as [s1|] eqn:Hr; [|done]. simpl. intros [= <-].
  apply register_uncharged in Hr; [exact Hr|]. intros q Hq. apply (suspended_set s t q _ Hp). by destruct Hq as [-> | ->].
Qed.

Definition cv_accounted (s : state) : Prop := accounts ctx_of (suspended s) (nwait s).

Lemma uncharged_accounted s s' : uncharged s s' → cv_accounted s → cv_accounted s'.
Proof. unfold cv_accounted. by intros [-> ->]. Qed.

Lemma cv_step_accounted t p s s' es : cv_accounted s → pcs s !! t = Some p → cv_step t p s = Some (s', es) →
  cv_accounted s'.
Proof.
  intros Ha Hp Hs. assert (Hlook : suspended s !! t = if charged p then Some t else None)
    by (rewrite suspended_lookup; by rewrite Hp).
  assert (Hset : ∀ q w, charged q = charged p → cv_accounted (set_nwait w s) → cv_accounted (set_pc t q (set_nwait w s))).
  { intros q w Hq Hw. eapply uncharged_accounted; [|exact Hw]. split; [|done].
    by apply (suspended_set (set_nwait w s) t q p). }
  destruct p as [| |cv c|cv c| | | |cv c|cv c]; simpl in Hs; try done.
  - destruct (cond_holds c (data s)); injection Hs as <- <-; [by apply (Hset Holding (nwait s))|].
    assert (Hi : suspended (set_pc t (RegisterCv cv c) s) = <[t := t]> (suspended s)).
    { unfold suspended, set_pc. simpl. by rewrite map_imap_insert. }
    unfold cv_accounted. change (suspended _) with (suspended (set_pc t (RegisterCv cv c) s)). rewrite Hi.
    by apply accounts_register.
  - injection Hs as <- <-. by apply (Hset (InCv cv c) (nwait s)).
  - destruct (cond_fails c (data s)); injection Hs as <- <-.
    + apply (Hset (RegisterCv cv c)); [done|]. by apply accounts_register_none.
    + by apply (Hset (Resumed cv c) (nwait s)).
  - injection Hs as <- <-. assert (Hi : suspended (set_pc t Holding s) = delete t (suspended s)).
    { unfold suspended, set_pc. simpl. by rewrite map_imap_insert. }
    unfold cv_accounted. change (suspended _) with (suspended (set_pc t Holding s)). rewrite Hi.
    by apply (accounts_unregister ctx_of _ _ t t).
Qed.

Lemma cv_accounted_step l s s' es : cv_accounted s → step l s = Some (s', es) → cv_accounted s'.
Proof.
  intros Ha Hs. assert (Hq : ∀ o : option state, (s0 ← o; Some (s0, [] : list event)) = Some (s', es) → o = Some s').
  { intros [s0|]; [|done]. by intros [= <- _]. }
  destruct l as [t|t|t cv c|t| |n cv|n cv|n|t d|d]; simpl in Hs.
  - case_decide as Hn; [|done]. apply Hq in Hs. eapply uncharged_accounted; [|exact Ha].
    apply register_uncharged in Hs; [exact Hs|]. intros p Hp. apply suspended_free; [by rewrite Hn|by destruct Hp as [-> | ->]].
  - destruct (pcs s !! t) as [[]|] eqn:Hp; try done. apply Hq, unlock_uncharged in Hs as [H1 H2].
    eapply uncharged_accounted; [|exact Ha]. split; [|exact H2]. rewrite H1. apply suspended_leave. by rewrite Hp.
  - destruct (pcs s !! t) as [[]|] eqn:Hp; try done. injection Hs as <- <-.
    eapply uncharged_accounted; [|exact Ha]. split; [|done]. by apply (suspended_set s t _ _ Hp).
  - destruct (pcs s !! t) as [p|] eqn:Hp; [|done]. by eapply cv_step_accounted.
  - destruct (leaving s); [|done]. destruct (holder (lk s)); [|done]. apply Hq, unlock_uncharged in Hs.
    by eapply uncharged_accounted; [exact Hs|].
  - destruct (cvq s cv) as [|t l]; [by injection Hs as <- <-|]. apply Hq, pop_uncharged in Hs. by eapply uncharged_accounted.
  - apply Hq, pop_uncharged in Hs. by eapply uncharged_accounted.
  - apply Hq, wake_up_uncharged in Hs. by eapply uncharged_accounted.
  - destruct (pcs s !! t) as [[]|]; try done. by injection Hs as <- <-.
  - destruct (unlocked (data s) d); [|done]. by injection Hs as <- <-.
Qed.

Lemma cv_accounted_reach d s tr : reach (cv_machine d) s tr → cv_accounted s.
Proof.
  revert s tr. apply reach_inv.
  - intros s -> c. done.
  - intros s l s' es Hc Hs. exact (cv_accounted_step l s s' es Hc Hs).
Qed.

(** The awaiter that [cv_awaiter::resume] submits. *)
Definition woken (l : label) (s : state) : option nat :=
  match l with
  | Step t =>
      match pcs s !! t with
      | Some (Handed cv c) => if cond_fails c (data s) then None else Some t
      | _ => None
      end
  | _ => None
  end.
#[global] Instance cv_waits d : WaitAccounting (cv_machine d) :=
  awaiters_waits (cv_machine d) suspended ctx_of nwait woken.
#[global] Instance cv_waits_laws d : WaitAccountingLaws (cv_machine d).
Proof. apply awaiters_waits_laws, cv_accounted_reach. Qed.
End condition_variable.
(** ** Properties *)

(** [wait] returns with the mutex held and with its condition true,
    whatever was notified when, provided that no write outside of the mutex can
    make the condition false. *)
Theorem wait_returns {CV D Cond} `{EqDecision CV} (holds : Cond → D → bool) ctx_of unlocked d
    (s : state (CV:=CV)) tr l s' es t c :
  reach (cv_machine holds ctx_of unlocked d) s tr → step holds ctx_of unlocked l s = Some (s', es) →
  Return t c ∈ es →
  holder (lk s') = Some t ∧ pcs s' !! t = Some Holding ∧
  (harmless holds unlocked → ∀ c0, c = Some c0 → holds c0 (data s') = true).
Proof. apply return_cond. Qed.


(** [notify_all] empties the list of the variable; run with its wake-ups,
    one per coroutine, it terminates, and everybody who slept there then owns
    the mutex or is in its queue. Nobody else is touched. *)
Theorem notify_all_wakes {CV D Cond} `{EqDecision CV} (holds : Cond → D → bool) ctx_of uw d
    (s : state (CV:=CV)) tr n cv :
  reach (cv_machine holds ctx_of uw d) s tr → waking s !! n = None → cvq s cv ≠ [] →
  ∃ s', exec (cv_machine holds ctx_of uw d)
          (NotifyAll n cv :: replicate (length (cvq s cv)) (WakeUp n)) s = Some (s', []) ∧
    cvq s' cv = [] ∧
    (∀ t, t ∈ cvq s cv → ∃ c, pcs s !! t = Some (InCv cv c) ∧
       (pcs s' !! t = Some (Handed cv c) ∨ pcs s' !! t = Some (LockQueued cv c))) ∧
    (∀ t, t ∉ cvq s cv → pcs s' !! t = pcs s !! t).
Proof.
  intros Hr Hn Hne. pose proof (placed_reach _ _ _ _ _ _ Hr) as Hs.
  destruct (notify_run holds ctx_of uw d s n cv (cvq s cv) [] Hs Hn) as (s0 & s' & Hp & He & Hcv & Hin & Hout);
    [by rewrite app_nil_r|done|].
  exists s'. split_and!; try done. apply exec_cons with s0 [] [] ; [|done|done].
  cbn [m_step cv_machine step]. by rewrite Hp.
Qed.

(** [notify_one] wakes the coroutine that has slept longest, and only it;
    on an empty list it does nothing. *)
Theorem notify_one_wakes_first {CV D Cond} `{EqDecision CV} (holds : Cond → D → bool) ctx_of uw d
    (s : state (CV:=CV)) tr n cv :
  reach (cv_machine holds ctx_of uw d) s tr → waking s !! n = None →
  match cvq s cv with
  | [] => step holds ctx_of uw (NotifyOne n cv) s = Some (s, [])
  | t :: q =>
      ∃ s' c, exec (cv_machine holds ctx_of uw d) [NotifyOne n cv; WakeUp n] s = Some (s', []) ∧
        cvq s' cv = q ∧ pcs s !! t = Some (InCv cv c) ∧
        (pcs s' !! t = Some (Handed cv c) ∨ pcs s' !! t = Some (LockQueued cv c)) ∧
        ∀ u, u ≠ t → pcs s' !! u = pcs s !! u
  end.
Proof.
  intros Hr Hn. pose proof (placed_reach _ _ _ _ _ _ Hr) as Hs.
  destruct (cvq s cv) as [|t q] eqn:Hq; [simpl; by rewrite Hq|].
  destruct (notify_run holds ctx_of uw d s n cv [t] q Hs Hn Hq) as (s0 & s' & Hp & He & Hcv & Hin & Hout); [done|].
  destruct (Hin t ltac:(left)) as (c & Hc1 & Hc2). exists s', c. split_and!; try done.
  - apply exec_cons with s0 [] []; [|done|done]. cbn [m_step cv_machine step]. by rewrite Hq, Hp.
  - intros u Hu. apply Hout. by intros ->%list_elem_of_singleton.
Qed.

(** ** Witnesses *)

(** Coroutines 1 and 3 wait until the data are at least 5; coroutine 2 sets them to 7. *)
Definition cv_holds (c d : Z) : bool := bool_decide (c <= d).
Definition cv_sleep (t : nat) : list (label (CV:=bool) (D:=Z) (Cond:=Z)) :=
  [Lock t; Wait t true (Some 5); Step t; Step t; Leave].
Definition cv_demo : list (label (CV:=bool) (D:=Z) (Cond:=Z)) :=
  cv_sleep 1 ++ cv_sleep 3 ++ [Lock 2; Update 2 7].
Definition cv_demo_end : list (label (CV:=bool) (D:=Z) (Cond:=Z)) :=
  cv_demo ++ [NotifyOne 2 true; WakeUp 2; Unlock 2; Step 1].
Definition cvm := cv_machine (CV:=bool) cv_holds (λ t, t) (λ _ _, false) 0.

Lemma cv_demo_reach : reach cvm (final cvm cv_demo (init 0)) (trace cvm cv_demo (init 0)).
Proof. apply exec_reach_final; [done|by vm_compute]. Defined.
Lemma cv_demo_end_reach : reach cvm (final cvm cv_demo_end (init 0)) (trace cvm cv_demo_end (init 0)).
Proof. apply exec_reach_final; [done|by vm_compute]. Defined.

Lemma wait_returns_witness : ∃ s', step cv_holds (λ t, t) (λ _ _, false) (Step 1) (final cvm cv_demo_end (init 0)) =
    Some (s', [Return 1 (Some 5)]) ∧ cv_holds 5 (data s') = true.
Proof.
  eexists. split; [by vm_compute|].
  refine (proj2 (proj2 (wait_returns cv_holds (λ t, t) (λ _ _, false) 0 _ _ (Step 1) _ _ 1 (Some 5)
    cv_demo_end_reach _ _)) _ 5 eq_refl); [by vm_compute|left|by intros ?].
Defined.


Lemma notify_all_wakes_witness : ∃ s',
  exec cvm (NotifyAll 2 true :: replicate 2 (WakeUp 2)) (final cvm cv_demo (init 0)) = Some (s', []).
Proof.
  destruct (notify_all_wakes cv_holds (λ t, t) (λ _ _, false) 0 _ _ 2 true cv_demo_reach) as (s' & He & _);
    [by vm_compute|by vm_compute|]. exists s'. exact He.
Defined.

Lemma notify_one_wakes_first_witness : ∃ s', exec cvm [NotifyOne 2 true; WakeUp 2]
    (final cvm cv_demo (init 0)) = Some (s', []) ∧ cvq s' true = [3%nat].
Proof.
  pose proof (notify_one_wakes_first cv_holds (λ t, t) (λ _ _, false) 0 _ _ 2 true cv_demo_reach ltac:(by vm_compute)) as H.
  assert (Hq : cvq (final cvm cv_demo (init 0)) true = [1; 3]%nat) by by vm_compute.
  rewrite Hq in H. destruct H as (s' & c & He & Hc & _). by exists s'.
Defined.
