(* ===== verification/CvBench.v ===== *)
(** * The coroutines of condition_variable_bench.cpp

    They call [cv.wait] without [co_await] and let the guard of the mutex go
    at once. On the contract of the condition variable ([CondVar.v]): nobody
    ever waits, so the coroutines take no turns. (The threads of the same file
    are in [Monitor.v].) *)
From S2P Require Import Prelude WaitCount LockSpec CondVar.
Local Open Scope Z_scope.
Local Open Scope coro_scope.

(** ** The programs *)
Inductive cv_action :=
  | Guard                             (* co_await mtx.lock_guard(); *)
  | Unguard                           (* ... the guard is destroyed at the end of the statement *)
  | DropWait                          (* cv.wait(mtx, ...); the awaiter is made and destroyed *)
  | ReadGid                           (* gid = (gid + 1) % 2: the read *)
  | WriteGid                          (* ... the write *)
  | NotifyOneIt
  | NotifyAllIt.
#[export] Instance cv_action_eq_dec : EqDecision cv_action.
Proof. solve_decision. Defined.

Definition notify_all : list cv_action := [Guard; Unguard; DropWait; NotifyAllIt].

(** The loop, [run_cnt] times. *)
Definition notify_one_round : list cv_action := [Guard; Unguard; DropWait; ReadGid; WriteGid; NotifyOneIt].
Definition notify_one (run_cnt : Z) : list cv_action := mjoin (replicate (Z.to_nat run_cnt) notify_one_round).

Definition cv_notifyall_tasks (thread_num : nat) : list (list cv_action) := replicate thread_num notify_all.
Definition notifyone_run_cnt : Z := 1000.
Definition cv_notifyone_tasks : list (list cv_action) := replicate 2 (notify_one notifyone_run_cnt).

(** ** The machine *)
#[local] Abbreviation cv_state := (state (CV:=unit) (D:=unit) (Cond:=unit)).
#[local] Abbreviation cv_label := (label (CV:=unit) (D:=unit) (Cond:=unit)).
#[local] Abbreviation cv_event := (event (CV:=unit) (Cond:=unit)).

Section bench.
Context (ctx_of : nat → nat).

Definition cvm : machine cv_state cv_label cv_event := cv_machine (λ _ _, true) ctx_of (λ _ _, false) ().

Record cv_bench := CvBench {
  cvs : cv_state;
  gid : Z;
  todo : list (list cv_action * Z);   (* what is left of each, and what it read of gid *)
}.

(** [Move]: a coroutine goes on; [Inner]: the condition variable does. *)
Inductive cvb_label := Move (t : nat) | InStep (t : nat) | InLeave | InWakeUp (t : nat).
Inductive cvb_event := Wrote (t : nat) (gid : Z) | OfCv (e : cv_event).

Definition cv_call (l : cv_label) (s : cv_bench) : option (cv_bench * list cvb_event) :=
  match m_step cvm l (cvs s) with
  | Some (c, es) => Some (CvBench c (gid s) (todo s), OfCv <$> es)
  | None => None
  end.

Definition cv_act (t : nat) (x : cv_action) (k : list cv_action) (v : Z) (s : cv_bench) : option (cv_bench * list cvb_event) :=
  let go s := CvBench (cvs s) (gid s) (<[t := (k, v)]> (todo s)) in
  match x with
  | Guard => cv_call (Lock t) (go s)
  | Unguard => cv_call (Unlock t) (go s)
  | DropWait => Some (go s, [])
  | ReadGid => Some (CvBench (cvs s) (gid s) (<[t := (k, gid s)]> (todo s)), [])
  | WriteGid => let g := Z.rem (v + 1) 2 in Some (CvBench (cvs s) g (<[t := (k, v)]> (todo s)), [Wrote t g])
  | NotifyOneIt => cv_call (NotifyOne t ()) (go s)
  | NotifyAllIt => cv_call (NotifyAll t ()) (go s)
  end.

Definition cvb_step (l : cvb_label) (s : cv_bench) : option (cv_bench * list cvb_event) :=
  match l with
  | Move t =>
      match todo s !! t with
      | Some (x :: k, v) =>
          if decide (x = Unguard ∨ pcs (cvs s) !! t = None) then cv_act t x k v s else None
      | _ => None
      end
  | InStep t => cv_call (Step t) s
  | InLeave => cv_call Leave s
  | InWakeUp t => cv_call (WakeUp t) s
  end.

Definition cvb_machine (ps : list (list cv_action)) : machine cv_bench cvb_label cvb_event :=
  Machine (λ s, s = CvBench (init ()) 0 ((λ k, (k, 0)) <$> ps)) cvb_step.

(** ** Nobody waits *)

(** The guards of a program are let go in the next action. *)
Fixpoint paired (k : list cv_action) : bool :=
  match k with
  | [] => true
  | Guard :: k => match k with Unguard :: k => paired k | _ => false end
  | Unguard :: _ => false
  | _ :: k => paired k
  end.

Definition locking (p : pc (CV:=unit) (Cond:=unit)) : Prop := p = LockWait ∨ p = Holding.

Record nobody_waits (s : cv_state) : Prop := {
  nw_leaving : leaving s = false;
  nw_list : cvq s () = [];
  nw_waking : waking s = ∅;
  nw_pcs t p : pcs s !! t = Some p → locking p;
}.

Definition client_ok (s : cv_state) (t : nat) (k : list cv_action) : Prop :=
  (pcs s !! t = None ∧ paired k = true) ∨
  (∃ k' p, k = Unguard :: k' ∧ paired k' = true ∧ pcs s !! t = Some p).

Record cvb_ok (s : cv_bench) : Prop := {
  co_reach : ∃ tr, reach cvm (cvs s) tr;
  co_waits : nobody_waits (cvs s);
  co_client t k v : todo s !! t = Some (k, v) → client_ok (cvs s) t k;
  co_nobody t : todo s !! t = None → pcs (cvs s) !! t = None;
}.

(** What the calls do to a condition variable where nobody waits. *)
Definition kept (t : nat) (s s' : cv_state) : Prop := ∀ u, u ≠ t → is_Some (pcs s' !! u) ↔ is_Some (pcs s !! u).

Lemma lock_quiet s t s' es : nobody_waits s → m_step cvm (Lock t) s = Some (s', es) →
  nobody_waits s' ∧ kept t s s' ∧ is_Some (pcs s' !! t) ∧ es = [].
Proof.
  intros [Hl Hq Hw Hp] Hs. simpl in Hs. case_decide; [|done].
  destruct (register_lock_ok ctx_of t Holding LockWait s) as (l & b & Hr). rewrite Hr in Hs. simplify_eq/=. split_and!.
  - split; [done..|]. intros u p Hu. simpl in Hu. lookup_cases; [destruct b; unfold locking; auto|by eapply Hp].
  - intros u Hu. simpl. by rewrite lookup_insert_ne.
  - rewrite lookup_insert_eq. by eexists.
  - done.
Qed.

Lemma unlock_quiet s t s' es : nobody_waits s → m_step cvm (Unlock t) s = Some (s', es) →
  nobody_waits s' ∧ kept t s s' ∧ pcs s' !! t = None ∧ es = [].
Proof.
  intros [Hl Hq Hw Hp] Hs. simpl in Hs. destruct (pcs s !! t) as [[]|]; try done.
  destruct (unlock t (leave t s)) as [s1|] eqn:Hu; [|done]. simplify_eq/=. unfold unlock in Hu. simpl in Hu.
  case_decide; [|done]. destruct (queue (lk s)) as [|w q]; simplify_eq/=.
  - split_and!; [|intros u Hu; simpl; by rewrite lookup_delete_ne|by rewrite lookup_delete_eq|done].
    split; [done..|]. intros u p Hu. simpl in Hu. lookup_cases. by eapply Hp.
  - destruct (delete t (pcs s) !! w.2) as [p|] eqn:Hwp; [|done]. simpl in Hu.
    destruct (handed_pc p) as [p'|] eqn:Hh; [|done]. simplify_eq/=.
    apply lookup_delete_Some in Hwp as [Hne Hwp]. assert (Hp' : locking p').
    { destruct (Hp _ _ Hwp) as [->| ->]; simplify_eq/=. by right. }
    split_and!; [|intros u Hu; simpl|by rewrite lookup_insert_ne, lookup_delete_eq by done|done].
    + split; [done..|]. intros u r Hu. simpl in Hu. lookup_cases; [done|by eapply Hp].
    + destruct (decide (w.2 = u)) as [<-|]; [rewrite lookup_insert_eq, Hwp; split; by eexists|].
      by rewrite lookup_insert_ne, lookup_delete_ne.
Qed.

Lemma notify_quiet s t l s' es : nobody_waits s → l = NotifyOne t () ∨ l = NotifyAll t () →
  m_step cvm l s = Some (s', es) → nobody_waits s' ∧ pcs s' = pcs s ∧ es = [].
Proof.
  intros Hn Hl Hs. pose proof Hn as [Hlv Hq Hw Hp]. destruct Hl as [->| ->]; simpl in Hs; rewrite Hq in Hs.
  - by simplify_eq/=.
  - unfold pop in Hs. rewrite Hw, decide_True in Hs by apply lookup_empty. simplify_eq/=. split_and!; [|done..].
    split; simpl; [done|by rewrite fn_lookup_insert|by rewrite Hw, delete_empty|].
    intros u p Hu. by eapply Hp.
Qed.

Lemma notify_goes s t l : nobody_waits s → l = NotifyOne t () ∨ l = NotifyAll t () → is_Some (m_step cvm l s).
Proof.
  intros [Hlv Hq Hw Hp] [->| ->]; simpl; rewrite Hq; [by eexists|]. unfold pop. rewrite Hw, decide_True by apply lookup_empty. by eexists.
Qed.

(** Nothing happens inside. *)
Lemma inside_quiet s l : nobody_waits s → (∃ t, l = Step t ∨ l = WakeUp t) ∨ l = Leave → m_step cvm l s = None.
Proof.
  intros [Hl Hq Hw Hp] [[t [->| ->]]| ->]; simpl.
  - destruct (pcs s !! t) as [p|] eqn:Ht; [|done]. by destruct (Hp _ _ Ht) as [->| ->].
  - unfold wake_up. by rewrite Hw.
  - by rewrite Hl.
Qed.

(** [t] goes from [k] to [k']. *)
Lemma cvb_update s s' t k v k' v' : cvb_ok s → todo s !! t = Some (k, v) → todo s' = <[t := (k', v')]> (todo s) →
  (∃ tr, reach cvm (cvs s') tr) → nobody_waits (cvs s') → kept t (cvs s) (cvs s') → client_ok (cvs s') t k' → cvb_ok s'.
Proof.
  intros Hok Ht Htodo Hr Hn Hk Hme. pose proof (lookup_lt_Some _ _ _ Ht) as Hlt.
  assert (Hnone : ∀ u, u ≠ t → pcs (cvs s) !! u = None → pcs (cvs s') !! u = None).
  { intros u Hu Hp. apply eq_None_not_Some. rewrite (Hk u Hu), Hp. by intros [??]. }
  split; [done..| |].
  - intros u q w Hu. rewrite Htodo in Hu. destruct (decide (u = t)) as [->|Hne].
    + rewrite list_lookup_insert_eq in Hu by done. by simplify_eq.
    + rewrite list_lookup_insert_ne in Hu by done. destruct (co_client _ Hok _ _ _ Hu) as [[Hp ?]|(q' & p & -> & Hq & Hp)].
      * left. split; [by apply Hnone|done].
      * right. destruct (proj2 (Hk u Hne)) as [p' Hp']; [by rewrite Hp|]. by exists q', p'.
  - intros u Hu. rewrite Htodo in Hu. destruct (decide (u = t)) as [->|Hne].
    + by rewrite list_lookup_insert_eq in Hu by done.
    + rewrite list_lookup_insert_ne in Hu by done. apply Hnone; [done|]. by eapply co_nobody.
Qed.

Definition no_sleep (tr : list cvb_event) : Prop := ∀ t cv, OfCv (Sleep t cv) ∉ tr.

Lemma cvb_ok_step s l s' es : cvb_ok s → cvb_step l s = Some (s', es) → cvb_ok s' ∧ no_sleep es.
Proof.
  intros Hok Hs. pose proof (co_waits _ Hok) as Hn. destruct (co_reach _ Hok) as [tr Hr].
  assert (Hin : ∀ l', (∃ t, l' = Step t ∨ l' = WakeUp t) ∨ l' = Leave → cv_call l' s = Some (s', es) → cvb_ok s' ∧ no_sleep es).
  { intros l' Hl Hc. unfold cv_call in Hc. by rewrite (inside_quiet _ _ Hn Hl) in Hc. }
  destruct l as [t|t| |t]; simpl in Hs; try (eapply Hin; [|done]; eauto).
  destruct (todo s !! t) as [[[|x k] v]|] eqn:Ht; try done. pose proof (co_client _ Hok _ _ _ Ht) as Hme.
  case_decide as Hgo; [|done].
  assert (Hsame : ∀ v' g es', paired k = true → pcs (cvs s) !! t = None → s' = CvBench (cvs s) g (<[t := (k, v')]> (todo s)) →
    es = es' → no_sleep es' → cvb_ok s' ∧ no_sleep es).
  { intros v' g es' Hk Hp -> -> Hes. split; [|done]. eapply cvb_update; [done|exact Ht|done|by eexists|done|done|by left]. }
  assert (Hcall : ∀ l', cv_call l' (CvBench (cvs s) (gid s) (<[t := (k, v)]> (todo s))) = Some (s', es) →
    (∀ c ces, m_step cvm l' (cvs s) = Some (c, ces) → nobody_waits c ∧ kept t (cvs s) c ∧ client_ok c t k ∧ ces = []) →
    cvb_ok s' ∧ no_sleep es).
  { intros l' Hc Hl. unfold cv_call in Hc. cbn [cvs] in Hc. destruct (m_step cvm l' (cvs s)) as [[c ces]|] eqn:Hcs; [|done].
    destruct (Hl _ _ eq_refl) as (? & ? & ? & ->). simplify_eq/=. split; [|by intros u cv ?%elem_of_nil].
    eapply cvb_update; [done|exact Ht|done| |done..]. exists (tr ++ []). by econstructor. }
  assert (Hout : x ≠ Unguard → pcs (cvs s) !! t = None ∧ paired (x :: k) = true).
  { intros Hx. destruct Hme as [?|(k' & p & [= ? ?] & _)]; [done|by subst]. }
  destruct x; try (destruct (Hout ltac:(done)) as [Hp Hk]); simpl in Hs.
  - eapply Hcall; [exact Hs|]. intros c ces Hc. destruct (lock_quiet _ _ _ _ Hn Hc) as (? & ? & [p Hp'] & ->).
    split_and!; [done..| |done]. simpl in Hk. destruct k as [|[] k]; try done. right. by exists k, p.
  - destruct Hme as [[_ ?]|(k' & p & [= <-] & Hk & Hp)]; [done|]. eapply Hcall; [exact Hs|]. intros c ces Hc.
    destruct (unlock_quiet _ _ _ _ Hn Hc) as (? & ? & ? & ->). split_and!; [done..| |done]. by left.
  - simplify_eq. eapply Hsame; [done|done|reflexivity|reflexivity|by intros u cv ?%elem_of_nil].
  - simplify_eq. eapply Hsame; [done|done|reflexivity|reflexivity|by intros u cv ?%elem_of_nil].
  - simplify_eq. eapply Hsame; [done|done|reflexivity|reflexivity|]. by intros u cv ?%list_elem_of_singleton.
  - eapply Hcall; [exact Hs|]. intros c ces Hc. destruct (notify_quiet _ _ _ _ _ Hn ltac:(by left) Hc) as (? & Hpc & ->).
    split_and!; [done|intros u _; by rewrite Hpc|left; by rewrite Hpc|done].
  - eapply Hcall; [exact Hs|]. intros c ces Hc. destruct (notify_quiet _ _ _ _ _ Hn ltac:(by right) Hc) as (? & Hpc & ->).
    split_and!; [done|intros u _; by rewrite Hpc|left; by rewrite Hpc|done].
Qed.

Lemma cvb_reach ps s tr : Forall (λ k, paired k = true) ps → reach (cvb_machine ps) s tr → cvb_ok s ∧ no_sleep tr.
Proof.
  intros Hps. revert s tr. apply reach_inv_tr.
  - intros s Hi. cbn in Hi. subst s. split; [|by intros u cv ?%elem_of_nil]. split; simpl.
    + exists []. by constructor.
    + by split.
    + intros t k v Ht. apply list_lookup_fmap_Some in Ht as (k' & [= -> ->] & Ht). left. split; [apply lookup_empty|].
      rewrite Forall_lookup in Hps. by eapply Hps.
    + intros t _. apply lookup_empty.
  - intros s tr l s' es [Hok Hno] Hs. destruct (cvb_ok_step _ _ _ _ Hok Hs) as [? Hes]. split; [done|].
    intros t cv [?|?]%elem_of_app; [by eapply Hno|by eapply Hes].
Qed.

(** Whoever holds the mutex can let it go. *)
Lemma holder_goes s t : cvb_ok s → holder (lk (cvs s)) = Some t → is_Some (cvb_step (Move t) s).
Proof.
  intros Hok Hh. pose proof (co_waits _ Hok) as Hn. destruct (co_reach _ Hok) as [tr Hr].
  pose proof (placed_reach _ _ _ _ _ _ Hr) as Hpl. destruct (p_held _ Hpl _ Hh) as [Hl|Ha]; [by rewrite (nw_leaving _ Hn) in Hl|].
  unfold at_place in Ha. destruct (pcs (cvs s) !! t) as [p|] eqn:Hp; [|done].
  assert (p = Holding) as -> by (destruct (nw_pcs _ Hn _ _ Hp) as [->| ->]; done).
  destruct (todo s !! t) as [[k v]|] eqn:Ht; [|by rewrite (co_nobody _ Hok _ Ht) in Hp].
  destruct (co_client _ Hok _ _ _ Ht) as [[? _]|(k' & p & -> & _ & _)]; [congruence|].
  simpl. rewrite Ht. rewrite decide_True by by left. simpl. unfold cv_call. simpl. rewrite Hp. unfold unlock. simpl.
  rewrite Hh, decide_True by done. destruct (queue (lk (cvs s))) as [|w q] eqn:Hq; [by eexists|]. simpl.
  assert (Hw : at_place (cvs s) w.2 InLock) by (apply (p_queue _ Hpl); rewrite Hq; by left).
  unfold at_place in Hw. destruct (pcs (cvs s) !! w.2) as [pw|] eqn:Hpw; [|done].
  assert (pw = LockWait) as -> by (destruct (nw_pcs _ Hn _ _ Hpw) as [->| ->]; done).
  rewrite lookup_delete_ne, Hpw by (intros Heq; rewrite <- Heq in Hpw; congruence). simpl. by eexists.
Qed.

Lemma cvb_goes s : cvb_ok s → (∃ l, is_Some (cvb_step l s)) ∨ ∀ t k v, todo s !! t = Some (k, v) → k = [].
Proof.
  intros Hok. destruct (decide (Forall (λ x, x.1 = []) (todo s))) as [Hall|Hno].
  - right. intros t k v Ht. rewrite Forall_lookup in Hall. by apply (Hall _ _ Ht).
  - left. apply not_Forall_Exists in Hno; [|apply _]. apply Exists_exists in Hno as ([k v] & Hin & Hk). simpl in Hk.
    apply list_elem_of_lookup in Hin as [t Ht]. pose proof (co_waits _ Hok) as Hn.
    destruct (co_client _ Hok _ _ _ Ht) as [[Hp Hpr]|(k' & p & -> & _ & Hp)].
    + exists (Move t). destruct k as [|x k]; [done|]. simpl. rewrite Ht. rewrite decide_True by by right.
      destruct x; [|done|by eexists|by eexists|by eexists| |]; simpl; unfold cv_call.
      * simpl. rewrite decide_True by done. destruct (register_lock_ok ctx_of t Holding LockWait (cvs s)) as (l & b & ->). by eexists.
      * destruct (notify_goes (cvs s) t (NotifyOne t ()) Hn) as [[c es] Hc]; [by left|]. cbn [cvs]. rewrite Hc. by eexists.
      * destruct (notify_goes (cvs s) t (NotifyAll t ()) Hn) as [[c es] Hc]; [by right|]. cbn [cvs]. rewrite Hc. by eexists.
    + destruct (co_reach _ Hok) as [tr Hr]. pose proof (placed_reach _ _ _ _ _ _ Hr) as Hpl.
      destruct (holder (lk (cvs s))) as [h|] eqn:Hh; [exists (Move h); by apply holder_goes|]. exfalso.
      destruct (nw_pcs _ Hn _ _ Hp) as [->| ->].
      * assert (Hq : at_place (cvs s) t InLock) by by (unfold at_place; rewrite Hp). apply (p_queue _ Hpl) in Hq.
        destruct (p_free _ Hpl Hh) as [Hqn _]. rewrite Hqn in Hq. by apply elem_of_nil in Hq.
      * assert (Ho : at_place (cvs s) t AsOwner) by by (unfold at_place; rewrite Hp). destruct (p_owner _ Hpl _ Ho). congruence.
Qed.

(** Every step is one of a program. *)
Definition to_do (s : cv_bench) : nat := sum_list_with (λ x, length x.1) (todo s).

Lemma cvb_step_less s l s' es : cvb_ok s → cvb_step l s = Some (s', es) → (to_do s = S (to_do s'))%nat.
Proof.
  intros Hok Hs. pose proof (co_waits _ Hok) as Hn.
  assert (Hcall : ∀ l' s0, cv_call l' s0 = Some (s', es) → todo s' = todo s0).
  { intros l' s0 Hc. unfold cv_call in Hc. destruct (m_step cvm l' (cvs s0)) as [[]|]; by simplify_eq/=. }
  destruct l as [t|t| |t]; simpl in Hs; try (unfold cv_call in Hs; rewrite inside_quiet in Hs; [done|done|eauto]).
  destruct (todo s !! t) as [[[|x k] v]|] eqn:Ht; try done. case_decide; [|done].
  assert (Hput : ∃ v', todo s' = <[t := (k, v')]> (todo s)).
  { destruct x; simpl in Hs; try (exists v; by apply Hcall in Hs); simplify_eq/=; eauto. }
  destruct Hput as [v' Hput]. unfold to_do. rewrite Hput.
  pose proof (sum_insert (λ x : list cv_action * Z, length x.1) _ _ _ (k, v') Ht) as Hsum. simpl in Hsum. lia.
Qed.

Lemma cvb_ends ps s : cvb_ok s → ∃ s' es, leads (cvb_machine ps) s es s' ∧ ∀ t k v, todo s' !! t = Some (k, v) → k = [].
Proof.
  remember (to_do s) as n eqn:Hm. revert s Hm. induction n as [n IH] using lt_wf_ind. intros s Hm Hok.
  destruct (cvb_goes _ Hok) as [[l [[s1 e1] Hs]]|Hd]; [|exists s, []; split; [apply leads_refl|exact Hd]].
  pose proof (cvb_step_less _ _ _ _ Hok Hs) as Hlt. destruct (cvb_ok_step _ _ _ _ Hok Hs) as [Hok1 _].
  destruct (IH (to_do s1) ltac:(lia) s1 eq_refl Hok1) as (s2 & e2 & Hl & Hd). exists s2, (e1 ++ e2). split; [|done].
  eapply leads_trans; [|done]. by apply (leads_step _ _ l).
Qed.

(** How long a run is. *)
Lemma cvb_length ps ls : ∀ s s' es, cvb_ok s → exec (cvb_machine ps) ls s = Some (s', es) → (to_do s = length ls + to_do s')%nat.
Proof.
  induction ls as [|l ls IH]; intros s s' es Hok He; simpl in He; [by simplify_eq|].
  destruct (cvb_step l s) as [[s1 e1]|] eqn:Hs; [|done]. destruct (exec _ ls s1) as [[s2 e2]|] eqn:He2; [|done]. simplify_eq.
  destruct (cvb_ok_step _ _ _ _ Hok Hs) as [Hok1 _]. rewrite (cvb_step_less _ _ _ _ Hok Hs), (IH _ _ _ Hok1 He2). simpl. lia.
Qed.
End bench.

(** ** Properties *)

(** C40: (defect) in [cv_notifyall_bench] and [cv_notifyone_bench], as
    coroutines, nobody ever waits for its condition: nobody is in the list of
    the condition variable, so every notification is for nobody. They come to
    their end, and in no run can more steps be taken than the programs have. *)
Theorem cv_bench_never_waits ctx_of ps s tr :
  (∃ thread_num, ps = cv_notifyall_tasks thread_num) ∨ ps = cv_notifyone_tasks →
  reach (cvb_machine ctx_of ps) s tr →
  cvq (cvs s) () = [] ∧ (∀ t cv, OfCv (Sleep t cv) ∉ tr) ∧
  (∃ s' es, leads (cvb_machine ctx_of ps) s es s' ∧ ∀ t k v, todo s' !! t = Some (k, v) → k = []) ∧
  (∀ ls s' es, exec (cvb_machine ctx_of ps) ls s = Some (s', es) → (length ls ≤ to_do s)%nat).
Proof.
  intros Hps Hr. destruct (cvb_reach ctx_of ps s tr) as [Hok Hno]; [|done|].
  - destruct Hps as [[n ->]| ->]; apply Forall_replicate; [done|by vm_compute].
  - split_and!; [apply (co_waits _ _ Hok)|exact Hno|by eapply cvb_ends|].
    intros ls s' es He. rewrite (cvb_length _ _ _ _ _ _ Hok He). lia.
Qed.

Definition cv_turns (t : nat) (n : nat) : list cvb_label := replicate n (Move t).

(** (defect) the two coroutines of [cv_notifyone_bench] are meant to take
    turns, 0 first; but coroutine 1, whose turn is when [gid] is 1, can run all
    its rounds before 0 has begun. *)
Theorem cv_notifyone_out_of_turn :
  ∃ s tr, reach (cvb_machine id cv_notifyone_tasks) s tr ∧
    (∀ u g, Wrote u g ∈ tr → u = 1%nat) ∧ length tr = Z.to_nat notifyone_run_cnt ∧
    (fst <$> todo s) = [notify_one notifyone_run_cnt; []] ∧ gid s = 0.
Proof.
  set (M := cvb_machine id cv_notifyone_tasks). set (s0 := CvBench (init ()) 0 ((λ k, (k, 0)) <$> cv_notifyone_tasks)).
  set (ls := cv_turns 1 (6 * Z.to_nat notifyone_run_cnt)).
  exists (final M ls s0), (trace M ls s0). split_and!.
  - apply exec_reach_final; [done|by vm_compute].
  - assert (Hf : forallb (λ e, match e with Wrote u _ => Nat.eqb u 1 | _ => true end) (trace M ls s0) = true) by by vm_compute.
    rewrite forallb_forall in Hf. intros u g Hin%list_elem_of_In. by apply Hf, Nat.eqb_eq in Hin.
  - by vm_compute.
  - by vm_compute.
  - by vm_compute.
Qed.

(** ** Witnesses *)
Lemma cv_bench_never_waits_witness : ∃ s tr, reach (cvb_machine id (cv_notifyall_tasks 2)) s tr ∧
  cvq (cvs s) () = [] ∧ (fst <$> todo s) = [[]; []].
Proof.
  set (M := cvb_machine id (cv_notifyall_tasks 2)). set (s0 := CvBench (init ()) 0 ((λ k, (k, 0)) <$> cv_notifyall_tasks 2)).
  set (ls := [Move 0; Move 1; Move 0; Move 0; Move 1; Move 1; Move 1; Move 0]%nat).
  assert (Hr : reach M (final M ls s0) (trace M ls s0)) by (apply exec_reach_final; [done|vm_compute; reflexivity]).
  exists (final M ls s0), (trace M ls s0). split_and!; [exact Hr| |by vm_compute].
  apply (cv_bench_never_waits id (cv_notifyall_tasks 2) _ _ (or_introl (ex_intro _ 2%nat eq_refl)) Hr).
Defined.
