(* ===== verification/Channel.v ===== *)
(** * coro::channel (include/coro/comp/channel.hpp)

    First the three buffers: the ring of any capacity, the ring whose capacity
    is a power of two (free-running [size_t] positions), and the single slot of
    [channel<T, 0>], behind one interface. Then [send], [recv] and [close] of
    any buffer, as a machine on the condition variables of [CondVar.v]. *)
From S2P Require Import Prelude MarkedBuffer LockSpec CondVar.
Local Open Scope Z_scope.
Local Open Scope coro_scope.

(** ** The buffers *)

(** The part of a channel that the mutex protects; [None] is an access outside
    of the array. *)
Class Buffer (Q T : Type) := {
  empty : Q → bool;
  full : Q → bool;
  push : T → Q → option Q;
  pop_front : Q → option (T * Q);
}.

(** A buffer of [cap] elements: [rep q l] when it holds [l], oldest first. *)
Class BufferLaws (Q T : Type) `{Buffer Q T} (cap : nat) (rep : Q → list T → Prop) : Prop := {
  rep_bound q l : rep q l → (length l ≤ cap)%nat;
  rep_empty q l : rep q l → empty q = bool_decide (l = []);
  rep_full q l : rep q l → full q = bool_decide (length l = cap);
  rep_push q l x : rep q l → (length l < cap)%nat → ∃ q', push x q = Some q' ∧ rep q' (l ++ [x]);
  rep_pop q x l : rep q (x :: l) → ∃ q', pop_front q = Some (x, q') ∧ rep q' l;
}.

(** [channel<T, capacity>] *)
Module Ring.
Section ring.
Context {T : Type} (capacity : Z).
Record ring := RingC {
  m_head : Z;
  m_tail : Z;
  m_num : Z;                          (* size_t *)
  m_array : list T;
}.
Definition ring_empty (q : ring) : bool := bool_decide (m_num q = 0).
Definition ring_full (q : ring) : bool := bool_decide (m_num q = capacity).
Definition ring_push (x : T) (q : ring) : option ring :=
  a ← write_at (Z.to_nat (m_tail q)) x (m_array q);
  let tail := u64 (m_tail q + 1) in
  let num := u64 (m_num q + 1) in
  Some (RingC (m_head q) (if decide (capacity <= tail) then 0 else tail) num a).
Definition ring_pop (q : ring) : option (T * ring) :=
  x ← m_array q !! Z.to_nat (m_head q);
  let head := u64 (m_head q + 1) in
  let num := u64 (m_num q - 1) in
  Some (x, RingC (if decide (capacity <= head) then 0 else head) (m_tail q) num (m_array q)).
End ring.
End Ring.

(** [channel<T, capacity>] with [std::has_single_bit(capacity)] *)
Module Pow2.
Section pow2.
Context {T : Type} (capacity : Z).
Definition mask : Z := capacity - 1.
Record ring := RingC {
  m_head : Z;
  m_tail : Z;                         (* size_t, never reset *)
  m_array : list T;
}.
Definition head (q : ring) : Z := Z.land (m_head q) mask.
Definition tail (q : ring) : Z := Z.land (m_tail q) mask.
Definition pow_empty (q : ring) : bool := bool_decide (m_head q = m_tail q).
Definition pow_full (q : ring) : bool := bool_decide (u64 (m_tail q - m_head q) = capacity).
Definition pow_push (x : T) (q : ring) : option ring :=
  a ← write_at (Z.to_nat (tail q)) x (m_array q);
  Some (RingC (m_head q) (u64 (m_tail q + 1)) a).
Definition pow_pop (q : ring) : option (T * ring) :=
  x ← m_array q !! Z.to_nat (head q);
  Some (x, RingC (u64 (m_head q + 1)) (m_tail q) (m_array q)).
End pow2.
End Pow2.

(** [channel<T, 0>] *)
Module Slot.
Section slot.
Context {T : Type}.
Record slot := SlotC { m_data : option T }.
Definition slot_empty (q : slot) : bool := negb (bool_decide (is_Some (m_data q))).
Definition slot_full (q : slot) : bool := bool_decide (is_Some (m_data q)).
Definition slot_push (x : T) (q : slot) : option slot := Some (SlotC (Some x)).
(** [recv] moves the optional out; it is not empty there. *)
Definition slot_pop (q : slot) : option (T * slot) := x ← m_data q; Some (x, SlotC None).
End slot.
End Slot.

(** *** Circular arrays *)
Section circular.
Context {T : Type} (cap : Z) (Hcap : 0 < cap).

Definition circular (a : list T) (start : Z) (l : list T) : Prop :=
  length a = Z.to_nat cap ∧ Z.of_nat (length l) <= cap ∧
  ∀ i x, l !! i = Some x → a !! Z.to_nat ((start + Z.of_nat i) mod cap) = Some x.

Lemma mod_ne s i j : 0 <= i → i < j → j < i + cap → (s + i) mod cap ≠ (s + j) mod cap.
Proof.
  intros Hi Hij Hj Heq.
  assert (H : ((s + j) - (s + i)) mod cap = 0).
  { rewrite Zminus_mod, Heq, Z.sub_diag. by apply Z.mod_0_l; lia. }
  replace (s + j - (s + i)) with (j - i) in H by lia. rewrite Z.mod_small in H by lia. lia.
Qed.

Lemma circular_push a s l x : circular a s l → Z.of_nat (length l) < cap →
  let i := Z.to_nat ((s + Z.of_nat (length l)) mod cap) in
  write_at i x a = Some (<[i := x]> a) ∧ circular (<[i := x]> a) s (l ++ [x]).
Proof.
  intros (Ha & Hl & Hx) Hlt i. pose proof (Z.mod_pos_bound (s + Z.of_nat (length l)) cap Hcap) as Hb.
  assert (Hi : (i < length a)%nat) by (unfold i; lia). split; [unfold write_at; by rewrite decide_True|].
  split_and!; [by rewrite length_insert|rewrite length_app; simpl; lia|].
  intros j y Hj. destruct (decide (j < length l)%nat) as [Hjl|Hjl].
  - rewrite lookup_app_l in Hj by done. rewrite list_lookup_insert_ne; [by apply Hx|].
    unfold i. intros Heq. apply Z2Nat.inj in Heq; [|lia|apply Z.mod_pos_bound; lia].
    by apply (mod_ne s (Z.of_nat j) (Z.of_nat (length l))); lia.
  - rewrite lookup_app_r in Hj by lia. apply list_lookup_singleton_Some in Hj as [Hj <-].
    assert (j = length l) as -> by lia. by apply list_lookup_insert_eq.
Qed.

Lemma circular_pop a s x l : circular a s (x :: l) →
  a !! Z.to_nat (s mod cap) = Some x ∧ circular a (s + 1) l.
Proof.
  intros (Ha & Hl & Hx). simpl in Hl. split.
  - specialize (Hx 0%nat x eq_refl). by rewrite Z.add_0_r in Hx.
  - split_and!; [done|lia|]. intros i y Hi. specialize (Hx (S i) y Hi).
    by replace (s + 1 + Z.of_nat i) with (s + Z.of_nat (S i)) by lia.
Qed.

Lemma circular_mod a s s' l : s mod cap = s' mod cap → circular a s l → circular a s' l.
Proof.
  intros Hs (Ha & Hl & Hx). split_and!; [done..|]. intros i x Hi. rewrite <- (Hx i x Hi).
  by rewrite <- Zplus_mod_idemp_l, <- Hs, Zplus_mod_idemp_l.
Qed.

(** Positions that wrap around at [cap]. *)
Lemma wrap_next h : 0 <= h < cap → (if decide (cap <= h + 1) then 0 else h + 1) = (h + 1) mod cap.
Proof.
  intros Hh. case_decide.
  - assert (h + 1 = cap) as -> by lia. by rewrite Z.mod_same by lia.
  - by rewrite Z.mod_small by lia.
Qed.
End circular.

(** *** The buffers keep the promises of the interface *)
#[export] Instance ring_buffer {T} capacity : Buffer (Ring.ring (T:=T)) T := {|
  empty := Ring.ring_empty; full := Ring.ring_full capacity;
  push := Ring.ring_push capacity; pop_front := Ring.ring_pop capacity;
|}.

Definition ring_rep {T} (capacity : Z) (q : Ring.ring) (l : list T) : Prop :=
  circular capacity (Ring.m_array q) (Ring.m_head q) l ∧ Ring.m_num q = Z.of_nat (length l) ∧
  0 <= Ring.m_head q < capacity ∧
  Ring.m_tail q = (Ring.m_head q + Z.of_nat (length l)) mod capacity.

Lemma ring_laws {T} capacity : 0 < capacity < 2 ^ 64 →
  BufferLaws (Ring.ring (T:=T)) T (H := ring_buffer capacity) (Z.to_nat capacity) (ring_rep capacity).
Proof.
  intros Hcap. split.
  - intros q l ((_ & Hl & _) & _). lia.
  - intros q l (_ & Hn & _). simpl. unfold Ring.ring_empty. apply bool_decide_ext.
    rewrite Hn. split; [destruct l; simpl; [done|lia]|by intros ->].
  - intros q l ((_ & Hl & _) & Hn & _). simpl. unfold Ring.ring_full. apply bool_decide_ext. lia.
  - intros q l x (Hc & Hn & Hh & Ht) Hlt. simpl. unfold Ring.ring_push.
    destruct (circular_push capacity ltac:(lia) _ _ _ x Hc ltac:(lia)) as [Hw Hc'].
    rewrite Ht, Hw. simpl. eexists. split; [done|].
    pose proof (Z.mod_pos_bound (Ring.m_head q + Z.of_nat (length l)) capacity ltac:(lia)) as Hb.
    rewrite !uw_small by lia. rewrite wrap_next by lia.
    split_and!; simpl; [done|rewrite length_app; simpl; lia|lia..|].
    rewrite length_app. simpl. rewrite Zplus_mod_idemp_l. f_equal. lia.
  - intros q x l (Hc & Hn & Hh & Ht). simpl. unfold Ring.ring_pop.
    destruct (circular_pop capacity _ _ _ _ Hc) as [Hx Hc']. rewrite Z.mod_small in Hx by done.
    rewrite Hx. simpl. eexists. split; [done|]. simpl in Hn.
    assert (Hl : Z.of_nat (length (x :: l)) <= capacity) by apply Hc. simpl in Hl.
    rewrite !uw_small by lia. rewrite wrap_next by lia.
    pose proof (Z.mod_pos_bound (Ring.m_head q + 1) capacity ltac:(lia)) as Hb.
    split_and!; simpl; [|lia..|].
    + eapply circular_mod; [|exact Hc']. by rewrite Zmod_mod.
    + rewrite Ht, Zplus_mod_idemp_l. simpl. f_equal. lia.
Qed.

#[export] Instance pow2_buffer {T} capacity : Buffer (Pow2.ring (T:=T)) T := {|
  empty := Pow2.pow_empty; full := Pow2.pow_full capacity;
  push := Pow2.pow_push capacity; pop_front := Pow2.pow_pop capacity;
|}.

Definition pow2_rep {T} (capacity : Z) (q : Pow2.ring) (l : list T) : Prop :=
  circular capacity (Pow2.m_array q) (Pow2.m_head q) l ∧ 0 <= Pow2.m_head q < 2 ^ 64 ∧
  Pow2.m_tail q = u64 (Pow2.m_head q + Z.of_nat (length l)).

Lemma land_mask k z : 0 <= k → Z.land z (Pow2.mask (2 ^ k)) = z mod 2 ^ k.
Proof. intros. unfold Pow2.mask. replace (2 ^ k - 1) with (Z.ones k) by (rewrite Z.ones_equiv; lia). by apply Z.land_ones. Qed.

Lemma mod_u64 k z : 0 <= k <= 64 → (u64 z) mod 2 ^ k = z mod 2 ^ k.
Proof.
  intros Hk. unfold uw. symmetry. apply Znumtheory.Zmod_div_mod; [lia..|].
  exists (2 ^ (64 - k)). rewrite <- Z.pow_add_r by lia. f_equal. lia.
Qed.

Lemma pow2_laws {T} k : 0 <= k < 64 →
  BufferLaws (Pow2.ring (T:=T)) T (H := pow2_buffer (2 ^ k)) (Z.to_nat (2 ^ k)) (pow2_rep (2 ^ k)).
Proof.
  intros Hk. assert (Hpos : 0 < 2 ^ k) by lia.
  assert (Hlt : 2 ^ k < 2 ^ 64) by (apply Z.pow_lt_mono_r; lia). split.
  - intros q l ((_ & Hl & _) & _). lia.
  - intros q l ((_ & Hl & _) & Hh & Ht). simpl. unfold Pow2.pow_empty. apply bool_decide_ext.
    rewrite Ht. unfold uw. split.
    + intros Heq. destruct l as [|x l]; [done|]. exfalso. simpl in *.
      apply (mod_ne (2 ^ 64) ltac:(lia) (Pow2.m_head q) 0 (Z.of_nat (S (length l)))); try lia.
      rewrite Z.add_0_r, Z.mod_small by lia. done.
    + intros ->. simpl. by rewrite Z.add_0_r, Z.mod_small.
  - intros q l ((_ & Hl & _) & Hh & Ht). simpl. unfold Pow2.pow_full. rewrite Ht. rewrite uw_sub_l.
    replace (Pow2.m_head q + Z.of_nat (length l) - Pow2.m_head q) with (Z.of_nat (length l)) by lia.
    rewrite uw_small by lia. apply bool_decide_ext. lia.
  - intros q l x (Hc & Hh & Ht) Hll. simpl. unfold Pow2.pow_push, Pow2.tail.
    destruct (circular_push (2 ^ k) Hpos _ _ _ x Hc ltac:(lia)) as [Hw Hc'].
    rewrite land_mask, Ht, mod_u64, Hw by lia. simpl. eexists. split; [done|].
    split_and!; simpl; [done|lia..|]. rewrite uw_add_l, length_app. simpl. f_equal. lia.
  - intros q x l (Hc & Hh & Ht). simpl. unfold Pow2.pow_pop, Pow2.head.
    destruct (circular_pop (2 ^ k) _ _ _ _ Hc) as [Hx Hc'].
    rewrite land_mask by lia. rewrite Hx. simpl. eexists. split; [done|].
    pose proof (uw_range 64 (Pow2.m_head q + 1) ltac:(lia)).
    split_and!; simpl; [|lia..|].
    + eapply circular_mod; [|exact Hc']. by rewrite mod_u64 by lia.
    + rewrite uw_add_l, Ht. simpl. f_equal. lia.
Qed.

#[export] Instance slot_buffer {T} : Buffer (Slot.slot (T:=T)) T := {|
  empty := Slot.slot_empty; full := Slot.slot_full; push := Slot.slot_push; pop_front := Slot.slot_pop;
|}.
Definition slot_rep {T} (q : Slot.slot) (l : list T) : Prop := l = option_list (Slot.m_data q).

#[export] Instance slot_laws {T} : BufferLaws (Slot.slot (T:=T)) T 1 slot_rep.
Proof.
  split; unfold slot_rep.
  - intros [[x|]] l ->; simpl; lia.
  - intros [[x|]] l ->; done.
  - intros [[x|]] l ->; done.
  - intros [[x|]] l y ->; simpl; [lia|]. intros _. by exists (Slot.SlotC (Some y)).
  - intros [[x|]] y l; simpl; [|done]. intros [= -> ->]. by exists (Slot.SlotC None).
Qed.

(** ** send, recv, close *)

(** [m_producer_cv] and [m_consumer_cv], and their predicates. *)
Inductive cvid := Producer | Consumer.
Inductive cond := NotFullOrClosed | NotEmptyOrClosed.
#[export] Instance cvid_eq_dec : EqDecision cvid.
Proof. solve_decision. Defined.

Section channel.
Context {Q T : Type} `{Buffer Q T} (ctx_of : nat → nat).

(** The buffer and [m_close_state] (0 complete_close, 1 part_close, 2 no_close). *)
Record chan_data := ChanData { buf : Q; m_close_state : Z }.
Definition complete_close : Z := 0.
Definition part_close : Z := 1.
Definition no_close : Z := 2.

Definition part_closed (d : chan_data) : bool := bool_decide (m_close_state d <= part_close).
Definition complete_closed (d : chan_data) : bool := bool_decide (m_close_state d <= complete_close).

Definition chan_holds (c : cond) (d : chan_data) : bool :=
  match c with
  | NotFullOrClosed => negb (full (buf d)) || part_closed d
  | NotEmptyOrClosed => negb (empty (buf d)) || part_closed d
  end.

(** [close] stores [part_close] without the mutex. *)
Definition store_closed (d : chan_data) : chan_data := ChanData (buf d) part_close.
Definition is_close (d d' : chan_data) : bool :=
  bool_decide (m_close_state d' = part_close).

Abbreviation cv_state := (CondVar.state (CV:=cvid) (D:=chan_data) (Cond:=cond)).
Abbreviation cv_label := (CondVar.label (CV:=cvid) (D:=chan_data) (Cond:=cond)).

(** Where a call of [send], [recv] or [close] is. *)
Inductive phase :=
  | SendOpen (v : T)                  (* part_closed_atomic() *)
  | SendLock (v : T)                  (* co_await lock_guard() *)
  | SendWait (v : T)                  (* co_await m_producer_cv.wait *)
  | SendNotify                        (* m_consumer_cv.notify_one() *)
  | SendUnlock (b : bool)             (* co_return b, the guard unlocks *)
  | RecvOpen
  | RecvLock
  | RecvWait
  | RecvNotify (x : T)
  | RecvUnlock (x : option T)
  | CloseStore
  | CloseProducers
  | CloseConsumers
  | CloseEnd.

Record chan := Chan {
  cvs : cv_state;
  phases : gmap nat phase;
}.

Inductive chan_label :=
  | Send (t : nat) (v : T)
  | Recv (t : nat)
  | Close (t : nat)
  | Go (t : nat)                      (* the next step of the call of [t] *)
  | Inner (t : nat)                   (* of its cv_awaiter *)
  | InnerLeave.

Inductive chan_event :=
  | Pushed (t : nat) (v : T)
  | Took (t : nat) (x : T)
  | SendRet (t : nat) (b : bool)
  | RecvRet (t : nat) (x : option T)
  | Closed (t : nat).

Definition chan_init (q : Q) : chan := Chan (CondVar.init (ChanData q no_close)) ∅.

(** A step of the mutex and the condition variables. *)
Definition cv (l : cv_label) (s : cv_state) : option cv_state :=
  fst <$> CondVar.step chan_holds ctx_of is_close l s.

Definition start (t : nat) (p : phase) (s : chan) : option (chan * list chan_event) :=
  if decide (phases s !! t = None ∧ CondVar.pcs (cvs s) !! t = None ∧
             CondVar.waking (cvs s) !! t = None)
  then Some (Chan (cvs s) (<[t := p]> (phases s)), []) else None.

(** The call of [t] goes on to [p] after [l]; or it ends. *)
Definition goto (t : nat) (l : cv_label) (p : phase) (es : list chan_event) (s : chan)
    : option (chan * list chan_event) :=
  c ← cv l (cvs s); Some (Chan c (<[t := p]> (phases s)), es).
Definition stay (t : nat) (p : phase) (es : list chan_event) (s : chan)
    : option (chan * list chan_event) :=
  Some (Chan (cvs s) (<[t := p]> (phases s)), es).
Definition finish (t : nat) (es : list chan_event) (s : chan) : option (chan * list chan_event) :=
  Some (Chan (cvs s) (delete t (phases s)), es).

(** Has [t] the mutex (and nobody left to wake up)? *)
Definition holds_lock (t : nat) (s : chan) : bool :=
  match CondVar.pcs (cvs s) !! t with Some Holding => true | _ => false end.
Definition awake (t : nat) (s : chan) : bool :=
  match CondVar.waking (cvs s) !! t with None => true | Some _ => false end.

(** The body of [send] and [recv] between [wait] and the notification. *)
Definition send_body (t : nat) (v : T) (s : chan) : option (chan * list chan_event) :=
  let d := CondVar.data (cvs s) in
  if part_closed d then stay t (SendUnlock false) [] s
  else q ← push v (buf d); goto t (Update t (ChanData q (m_close_state d))) SendNotify [Pushed t v] s.

Definition recv_body (t : nat) (s : chan) : option (chan * list chan_event) :=
  let d := CondVar.data (cvs s) in
  if empty (buf d) && part_closed d then
    goto t (Update t (ChanData (buf d) complete_close)) (RecvUnlock None) [] s
  else '(x, q) ← pop_front (buf d);
    goto t (Update t (ChanData q (m_close_state d))) (RecvNotify x) [Took t x] s.

Definition unlock_end (t : nat) (e : chan_event) (s : chan) : option (chan * list chan_event) :=
  if awake t s then c ← cv (Unlock t) (cvs s); finish t [e] (Chan c (phases s))
  else c ← cv (WakeUp t) (cvs s); Some (Chan c (phases s), []).

Definition go (t : nat) (p : phase) (s : chan) : option (chan * list chan_event) :=
  match p with
  | SendOpen v =>
      if part_closed (CondVar.data (cvs s)) then finish t [SendRet t false] s
      else goto t (Lock t) (SendLock v) [] s
  | SendLock v => goto t (Wait t Producer (Some NotFullOrClosed)) (SendWait v) [] s
  | SendWait v => if holds_lock t s then send_body t v s else None
  | SendNotify => goto t (NotifyOne t Consumer) (SendUnlock true) [] s
  | SendUnlock b => unlock_end t (SendRet t b) s
  | RecvOpen =>
      if complete_closed (CondVar.data (cvs s)) then finish t [RecvRet t None] s
      else goto t (Lock t) RecvLock [] s
  | RecvLock => goto t (Wait t Consumer (Some NotEmptyOrClosed)) RecvWait [] s
  | RecvWait => if holds_lock t s then recv_body t s else None
  | RecvNotify x => goto t (NotifyOne t Producer) (RecvUnlock (Some x)) [] s
  | RecvUnlock x => unlock_end t (RecvRet t x) s
  | CloseStore => goto t (Write (store_closed (CondVar.data (cvs s)))) CloseProducers [Closed t] s
  | CloseProducers => goto t (NotifyAll t Producer) CloseConsumers [] s
  | CloseConsumers =>
      if awake t s then goto t (NotifyAll t Consumer) CloseEnd [] s
      else c ← cv (WakeUp t) (cvs s); Some (Chan c (phases s), [])
  | CloseEnd =>
      if awake t s then finish t [] s
      else c ← cv (WakeUp t) (cvs s); Some (Chan c (phases s), [])
  end.

Definition chan_step (l : chan_label) (s : chan) : option (chan * list chan_event) :=
  match l with
  | Send t v => start t (SendOpen v) s
  | Recv t => start t RecvOpen s
  | Close t => start t CloseStore s
  | Go t => p ← phases s !! t; go t p s
  | Inner t => c ← cv (Step t) (cvs s); Some (Chan c (phases s), [])
  | InnerLeave => c ← cv Leave (cvs s); Some (Chan c (phases s), [])
  end.

Definition chan_machine (q : Q) : machine chan chan_label chan_event :=
  Machine (λ s, s = chan_init q) chan_step.

(** The values that went in, and the values that came out. *)
Definition pushed (tr : list chan_event) : list T :=
  omap (λ e, match e with Pushed _ v => Some v | _ => None end) tr.
Definition took (tr : list chan_event) : list T :=
  omap (λ e, match e with Took _ x => Some x | _ => None end) tr.

(** *** The condition of a call that waits *)
Lemma close_harmless : harmless chan_holds is_close.
Proof.
  intros c d d' Hc _. apply bool_decide_eq_true in Hc.
  assert (Hp : part_closed d' = true) by (apply bool_decide_eq_true; rewrite Hc; done).
  destruct c; simpl; by rewrite Hp, orb_true_r.
Qed.

Lemma cv_data l c c' : cv l c = Some c' →
  CondVar.data c' = match l with Update _ d | Write d => d | _ => CondVar.data c end.
Proof.
  unfold cv. intros Hs. destruct (CondVar.step _ _ _ l c) as [[c1 es]|] eqn:Hst; [|done]. simplify_eq/=.
  assert (Hun : ∀ t (s s1 : cv_state), unlock t s = Some s1 → CondVar.data s1 = CondVar.data s).
  { intros t s s1 Hu. unfold unlock in Hu. step_inv Hu; done. }
  assert (Hrl : ∀ t a q (s s1 : cv_state), register_lock ctx_of t a q s = Some s1 → CondVar.data s1 = CondVar.data s).
  { intros t a q s s1 Hu. unfold register_lock in Hu. step_inv Hu; done. }
  assert (Hpop : ∀ n v ts r (s s1 : cv_state), pop n v ts r s = Some s1 → CondVar.data s1 = CondVar.data s).
  { intros n v ts r s s1 Hp. unfold pop in Hp. case_decide; [|done]. injection Hp as <-. simpl.
    destruct (popped_eq ts (set_cvq v r s)) as [m ->]. done. }
  destruct l as [t|t|t v k|t| |n v|n v|n|t d|d]; simpl in Hst; try (by step_inv Hst).
  - case_decide; [|done]. destruct (register_lock _ _ _ _ c) eqn:E; [|done]. simplify_eq/=. by eapply Hrl.
  - destruct (CondVar.pcs c !! t) as [[]|]; try done. destruct (unlock _ _) eqn:E; [|done]. simplify_eq/=.
    by rewrite (Hun _ _ _ E).
  - destruct (CondVar.pcs c !! t) as [p|]; [|done]. simpl in Hst. destruct p; try done; simpl in Hst; by step_inv Hst.
  - destruct (leaving c); [|done]. destruct (holder (lk c)); [|done]. simpl in Hst.
    destruct (unlock _ _) eqn:E; [|done]. simplify_eq/=. by rewrite (Hun _ _ _ E).
  - destruct (cvq c v); [by simplify_eq|]. destruct (pop _ _ _ _ _) eqn:E; [|done]. simplify_eq/=. by eapply Hpop.
  - destruct (pop _ _ _ _ _) eqn:E; [|done]. simplify_eq/=. by eapply Hpop.
  - unfold wake_up in Hst. destruct (CondVar.waking c !! n) as [[|t l]|]; try done. simpl in Hst.
    destruct (CondVar.pcs c !! t) as [[]|]; try done. simpl in Hst.
    destruct (register_lock _ _ _ _ c) eqn:E; [|done]. simplify_eq/=. by rewrite (Hrl _ _ _ _ _ E).
Qed.

Definition wait_cond (p : phase) : option cond :=
  match p with SendWait _ => Some NotFullOrClosed | RecvWait => Some NotEmptyOrClosed | _ => None end.

(** A coroutine in [wait] with condition [c]: on its way, or through it. *)
Definition wait_ok (c : cond) (d : chan_data) (p : CondVar.pc (CV:=cvid) (Cond:=cond)) : Prop :=
  match p with
  | Holding => chan_holds c d = true
  | LockWait => False
  | Eval _ k | RegisterCv _ k | InCv _ k | Popped _ k | LockQueued _ k | Handed _ k | Resumed _ k => k = Some c
  end.
Definition waiting (t : nat) (c : cond) (s : cv_state) : Prop :=
  ∃ p, CondVar.pcs s !! t = Some p ∧ wait_ok c (CondVar.data s) p.

(** Labels of other coroutines. *)
Definition not_by (t : nat) (l : cv_label) : Prop :=
  match l with
  | Lock u | Unlock u | Wait u _ _ | Update u _ => u ≠ t
  | _ => True
  end.

Lemma waiting_frame t c s s' : waiting t c s → CondVar.data s' = CondVar.data s →
  (∀ p, CondVar.pcs s !! t = Some p → wait_ok c (CondVar.data s) p →
     ∃ p', CondVar.pcs s' !! t = Some p' ∧ wait_ok c (CondVar.data s) p') →
  waiting t c s'.
Proof.
  intros (p & Hp & Hw) Hd Hpc. destruct (Hpc p Hp Hw) as (p' & Hp' & Hw'). exists p'. by rewrite Hd.
Qed.

Lemma waiting_unlock t c u s s' : waiting t c s → unlock u s = Some s' → waiting t c s'.
Proof.
  intros Hw Hu. unfold unlock in Hu. simpl in Hu. case_decide; [|done].
  destruct (queue (lk s)) as [|w q]; [simplify_eq; apply (waiting_frame t c s); eauto|].
  destruct (CondVar.pcs s !! w.2) as [p|] eqn:Hp; [|done]. simpl in Hu.
  destruct (handed_pc p) as [q'|] eqn:Hq; [|done]. simplify_eq/=. apply (waiting_frame t c s); [done|done|].
  intros r Hr Hwr. simpl. destruct (decide (w.2 = t)) as [<-|Hne].
  - exists q'. rewrite lookup_insert_eq. split; [done|]. destruct p; simplify_eq/=; done.
  - exists r. by rewrite lookup_insert_ne.
Qed.

Lemma waiting_register t c u a q s s' : waiting t c s → register_lock ctx_of u a q s = Some s' →
  (u = t → wait_ok c (CondVar.data s) a ∧ wait_ok c (CondVar.data s) q) → waiting t c s'.
Proof.
  intros Hw Hr Hu. destruct (register_lock_ok ctx_of u a q s) as (k & b & Hok). rewrite Hok in Hr.
  simplify_eq. apply (waiting_frame t c s); [done|done|]. intros r Hr Hwr. simpl.
  destruct (decide (u = t)) as [->|Hne].
  - destruct (Hu eq_refl). exists (if b then a else q). rewrite lookup_insert_eq. by destruct b.
  - exists r. by rewrite lookup_insert_ne.
Qed.

Lemma waiting_pop t c n v ts r s s' : waiting t c s → NoDup ts → pop n v ts r s = Some s' → waiting t c s'.
Proof.
  intros Hw Hnd Hp. unfold pop in Hp. case_decide; [|done]. injection Hp as <-.
  apply (waiting_frame t c s); [done|simpl; by destruct (popped_eq ts (set_cvq v r s)) as [m ->]|].
  intros p Hpt Hwp. rewrite popped_pcs by done. rewrite Hpt. case_decide; [|eauto].
  destruct p; eauto.
Qed.

Lemma waiting_step t c l s s' : placed s → cond_kept chan_holds s → waiting t c s → not_by t l →
  cv l s = Some s' → waiting t c s'.
Proof.
  intros Hpl Hck Hw Hby Hs. unfold cv in Hs.
  destruct (CondVar.step _ _ _ l s) as [[c1 es]|] eqn:Hst; [|done]. simplify_eq/=.
  assert (Hother : ∀ u q s1, u ≠ t → CondVar.pcs s1 = <[u := q]> (CondVar.pcs s) →
    CondVar.data s1 = CondVar.data s → waiting t c s1).
  { intros u q s1 Hu Hps Hds. apply (waiting_frame t c s); [done|done|]. intros p Hp Hwp. exists p.
    by rewrite Hps, lookup_insert_ne. }
  destruct l as [u|u|u v k|u| |n v|n v|n|u d|d]; simpl in Hst, Hby.
  - case_decide; [|done]. destruct (register_lock _ _ _ _ s) eqn:E; [|done]. simplify_eq/=.
    by eapply waiting_register.
  - destruct (CondVar.pcs s !! u) as [[]|] eqn:Hu; try done. destruct (unlock _ _) eqn:E; [|done]. simplify_eq/=.
    eapply waiting_unlock; [|exact E]. destruct Hw as (p & Hp & Hwp). exists p. simpl.
    by rewrite lookup_delete_ne.
  - destruct (CondVar.pcs s !! u) as [[]|]; try done. simplify_eq. by eapply (Hother u).
  - destruct (CondVar.pcs s !! u) as [p|] eqn:Hu; [|done]. simpl in Hst.
    destruct (decide (u = t)) as [->|Hne].
    + destruct Hw as (p' & Hp' & Hwp). simplify_eq.
      destruct p' as [| |v k|v k|v k|v k|v k|v k|v k]; try done; simpl in Hst, Hwp; subst.
      * case_match eqn:Hc; simplify_eq; eexists; (split; [apply lookup_insert_eq|done]).
      * simplify_eq. eexists. split; [apply lookup_insert_eq|done].
      * case_match; simplify_eq; eexists; (split; [apply lookup_insert_eq|done]).
      * simplify_eq. eexists. split; [apply lookup_insert_eq|]. simpl. by eapply Hck.
    + destruct p; try done; simpl in Hst; step_inv Hst; by eapply (Hother u).
  - destruct (leaving s); [|done]. destruct (holder (lk s)); [|done]. simpl in Hst.
    destruct (unlock _ _) eqn:E; [|done]. simplify_eq/=. by eapply (waiting_unlock t c n (set_leaving false s)).
  - destruct (cvq s v) as [|u q] eqn:Hq; [by simplify_eq|]. destruct (pop _ _ _ _ _) eqn:E; [|done]. simplify_eq/=.
    eapply (waiting_pop t c n v [u] q); [done|apply NoDup_singleton|done].
  - destruct (pop _ _ _ _ _) eqn:E; [|done]. simplify_eq/=.
    eapply (waiting_pop t c n v); [done|apply (p_nodup_cv _ Hpl)|done].
  - unfold wake_up in Hst. destruct (CondVar.waking s !! n) as [[|u l]|]; try done. simpl in Hst.
    destruct (CondVar.pcs s !! u) as [p|] eqn:Hu; [|done]. simpl in Hst. destruct p as [| | | | |v k| | |]; try done.
    destruct (register_lock _ _ _ _ s) eqn:E; [|done]. simplify_eq/=.
    assert (Hr : waiting t c s0); [|exact Hr].
    eapply waiting_register; [done|exact E|]. intros ->. destruct Hw as (p' & Hp' & Hwp). by simplify_eq/=.
  - destruct (CondVar.pcs s !! u) as [[]|] eqn:Hu; try done. simplify_eq.
    destruct Hw as (p & Hp & Hwp). exists p. split; [done|]. simpl.
    destruct p; try done. exfalso. apply Hby.
    assert (at_place s u AsOwner) as [? _]%(p_owner _ Hpl) by (unfold at_place; by rewrite Hu).
    assert (at_place s t AsOwner) as [? _]%(p_owner _ Hpl) by (unfold at_place; by rewrite Hp).
    congruence.
  - destruct (is_close (CondVar.data s) d) eqn:Hcl; simplify_eq. destruct Hw as (p & Hp & Hwp).
    exists p. split; [done|]. simpl. destruct p; try done. simpl in *. by eapply close_harmless.
Qed.

(** *** What a step does to the data *)
Inductive moved (d : chan_data) : chan_data → list chan_event → Prop :=
  | moved_not es : pushed es = [] → took es = [] → moved d d es
  | moved_push t v q : part_closed d = false → full (buf d) = false → push v (buf d) = Some q →
      moved d (ChanData q (m_close_state d)) [Pushed t v]
  | moved_took t x q : empty (buf d) = false → pop_front (buf d) = Some (x, q) →
      moved d (ChanData q (m_close_state d)) [Took t x]
  | moved_close t : moved d (store_closed d) [Closed t]
  | moved_complete : empty (buf d) = true → part_closed d = true →
      moved d (ChanData (buf d) complete_close) [].

(** Every call that waits is in [wait] with its condition. *)
Definition waits (s : chan) : Prop :=
  ∀ t p c, phases s !! t = Some p → wait_cond p = Some c → waiting t c (cvs s).

Lemma waits_holding s t p c : waits s → phases s !! t = Some p → wait_cond p = Some c →
  holds_lock t s = true → chan_holds c (CondVar.data (cvs s)) = true.
Proof.
  intros Hw Hp Hc Hh. destruct (Hw t p c Hp Hc) as (q & Hq & Hwq). unfold holds_lock in Hh.
  rewrite Hq in Hh. by destruct q.
Qed.

Lemma not_full d : part_closed d = false → chan_holds NotFullOrClosed d = true → full (buf d) = false.
Proof. simpl. intros ->. rewrite orb_false_r. by apply negb_true_iff. Qed.
Lemma not_empty d : empty (buf d) && part_closed d = false → chan_holds NotEmptyOrClosed d = true →
  empty (buf d) = false.
Proof. simpl. by destruct (empty (buf d)), (part_closed d). Qed.

(** What [go] ends with is a step of the condition variables, or nothing. *)
Lemma goto_data t l q es s s1 : (∀ u d, l ≠ Update u d) → (∀ d, l ≠ Write d) → pushed es = [] → took es = [] →
  goto t l q es s = Some s1 → moved (CondVar.data (cvs s)) (CondVar.data (cvs s1.1)) s1.2.
Proof.
  intros H1 H2 He1 He2 Hgo. unfold goto in Hgo. destruct (cv l (cvs s)) as [c|] eqn:Hc; [|done].
  simplify_eq/=. apply cv_data in Hc. rewrite Hc.
  destruct l; try (by constructor); [by destruct (H1 t0 d)|by destruct (H2 d)].
Qed.

Lemma wake_step_data t s s1 : (c ← cv (WakeUp t) (cvs s); Some (Chan c (phases s), [])) = Some s1 →
  moved (CondVar.data (cvs s)) (CondVar.data (cvs s1.1)) s1.2.
Proof.
  intros Hgo. destruct (cv (WakeUp t) (cvs s)) as [c|] eqn:Hc; [|done]. simplify_eq/=.
  apply cv_data in Hc. rewrite Hc. by constructor.
Qed.

Lemma unlock_end_data t e s s1 : pushed [e] = [] → took [e] = [] → unlock_end t e s = Some s1 →
  moved (CondVar.data (cvs s)) (CondVar.data (cvs s1.1)) s1.2.
Proof.
  intros He1 He2 Hgo. unfold unlock_end in Hgo. destruct (awake t s); [|by apply wake_step_data in Hgo].
  destruct (cv (Unlock t) (cvs s)) as [c|] eqn:Hc; [|done]. simpl in Hgo. unfold finish in Hgo.
  simplify_eq/=. apply cv_data in Hc. rewrite Hc. by constructor.
Qed.

Lemma go_data t p s s' es : waits s → phases s !! t = Some p → go t p s = Some (s', es) →
  moved (CondVar.data (cvs s)) (CondVar.data (cvs s')) es.
Proof.
  intros Hws Hph Hg.
  destruct p; simpl in Hg; unfold stay, finish in Hg.
  - case_match; [simplify_eq; by constructor|]. by eapply goto_data in Hg.
  - by eapply goto_data in Hg.
  - destruct (holds_lock t s) eqn:Hh; [|done]. unfold send_body in Hg.
    pose proof (waits_holding _ _ _ _ Hws Hph eq_refl Hh) as Hcond.
    destruct (part_closed _) eqn:Hpc; [unfold stay in Hg; simplify_eq; by constructor|].
    destruct (push v _) as [q|] eqn:Hpu; [|done]. simpl in Hg. unfold goto in Hg.
    destruct (cv _ (cvs s)) as [c|] eqn:Hc; [|done]. simplify_eq/=. apply cv_data in Hc. rewrite Hc.
    constructor; [done|by apply not_full|done].
  - by eapply goto_data in Hg.
  - by eapply unlock_end_data in Hg.
  - case_match; [simplify_eq; by constructor|]. by eapply goto_data in Hg.
  - by eapply goto_data in Hg.
  - destruct (holds_lock t s) eqn:Hh; [|done]. unfold recv_body in Hg.
    pose proof (waits_holding _ _ _ _ Hws Hph eq_refl Hh) as Hcond.
    destruct (empty _ && part_closed _) eqn:Hpc.
    + unfold goto in Hg. destruct (cv _ (cvs s)) as [c|] eqn:Hc; [|done]. simplify_eq/=.
      apply cv_data in Hc. rewrite Hc. apply andb_true_iff in Hpc as []. by constructor.
    + destruct (pop_front _) as [[x q]|] eqn:Hpo; [|done]. simpl in Hg. unfold goto in Hg.
      destruct (cv _ (cvs s)) as [c|] eqn:Hc; [|done]. simplify_eq/=. apply cv_data in Hc. rewrite Hc.
      constructor; [by apply not_empty|done].
  - by eapply goto_data in Hg.
  - by eapply unlock_end_data in Hg.
  - unfold goto in Hg. destruct (cv _ (cvs s)) as [c|] eqn:Hc; [|done]. simplify_eq/=.
    apply cv_data in Hc. rewrite Hc. by constructor.
  - by eapply goto_data in Hg.
  - destruct (awake t s); [by eapply goto_data in Hg|by apply wake_step_data in Hg].
  - destruct (awake t s); [simplify_eq; by constructor|by apply wake_step_data in Hg].
Qed.

Lemma chan_moved l s s' es : waits s → chan_step l s = Some (s', es) →
  moved (CondVar.data (cvs s)) (CondVar.data (cvs s')) es.
Proof.
  intros Hws Hs. destruct l as [t v|t|t|t|t|]; simpl in Hs; unfold start in Hs;
    try (case_decide; [|done]; simplify_eq; by constructor).
  - destruct (phases s !! t) as [p|] eqn:Hp; [|done]. by eapply go_data.
  - destruct (cv (Step t) (cvs s)) as [c|] eqn:Hc; [|done]. simplify_eq/=. apply cv_data in Hc.
    rewrite Hc. by constructor.
  - destruct (cv Leave (cvs s)) as [c|] eqn:Hc; [|done]. simplify_eq/=. apply cv_data in Hc.
    rewrite Hc. by constructor.
Qed.

(** *** The condition variables below a channel *)
Definition applied (lo : option cv_label) (c c' : cv_state) : Prop :=
  match lo with Some l => cv l c = Some c' | None => c' = c end.

(** A step of the channel is at most one of the condition variables, and of
    the calls that wait it moves none but those it lets into [wait]. *)
Definition tracks (s s' : chan) : Prop :=
  ∃ lo, applied lo (cvs s) (cvs s') ∧
    ∀ u p c, phases s' !! u = Some p → wait_cond p = Some c →
      (phases s !! u = Some p ∧ from_option (not_by u) True lo) ∨ ∃ v, lo = Some (Wait u v (Some c)).

Lemma tracks_phase t s lo c ps : applied lo (cvs s) c → (∀ u, u ≠ t → phases (Chan c ps) !! u = phases s !! u) →
  (∀ u, u ≠ t → from_option (not_by u) True lo) →
  (∀ p k, ps !! t = Some p → wait_cond p = Some k → ∃ v, lo = Some (Wait t v (Some k))) →
  tracks s (Chan c ps).
Proof.
  intros Ha Hps Hby Ht. exists lo. split; [done|]. intros u p k Hp Hk.
  destruct (decide (u = t)) as [->|Hne]; [right; by eapply Ht|]. left. split; [|by apply Hby].
  by rewrite <- Hps.
Qed.

Lemma goto_tracks t l q es s s' es' : goto t l q es s = Some (s', es') → (∀ u, u ≠ t → not_by u l) →
  (∀ k, wait_cond q = Some k → ∃ v, l = Wait t v (Some k)) → tracks s s'.
Proof.
  intros Hg Hby Hq. unfold goto in Hg. destruct (cv l (cvs s)) as [c|] eqn:Hc; [|done]. simplify_eq/=.
  apply (tracks_phase t s (Some l)); [done|..|done|].
  - intros u Hu. simpl. by rewrite lookup_insert_ne.
  - rewrite lookup_insert_eq. intros p k [= <-] Hk. destruct (Hq k Hk) as [v ->]. by exists v.
Qed.

Lemma wake_tracks l s s' (es es0 : list chan_event) : (c ← cv l (cvs s); Some (Chan c (phases s), es)) = Some (s', es0) →
  (∀ u, not_by u l) → tracks s s'.
Proof.
  intros Hg Hby. destruct (cv l (cvs s)) as [c|] eqn:Hc; [|done]. simplify_eq/=.
  exists (Some l). split; [done|]. intros u p k Hp Hk. left. split; [done|]. apply Hby.
Qed.

Lemma stay_tracks t q es s s' es' : stay t q es s = Some (s', es') → wait_cond q = None → tracks s s'.
Proof.
  intros Hg Hq. unfold stay in Hg. simplify_eq/=. apply (tracks_phase t s None); try done.
  - intros u Hu. simpl. by rewrite lookup_insert_ne.
  - rewrite lookup_insert_eq. intros p k [= <-]. congruence.
Qed.

Lemma finish_tracks t es s lo c s' es' : finish t es (Chan c (phases s)) = Some (s', es') →
  applied lo (cvs s) c → (∀ u, u ≠ t → from_option (not_by u) True lo) → tracks s s'.
Proof.
  intros Hg Ha Hby. unfold finish in Hg. simplify_eq/=. apply (tracks_phase t s lo); try done.
  - intros u Hu. simpl. by rewrite lookup_delete_ne.
  - by rewrite lookup_delete_eq.
Qed.

Lemma go_tracks t p s s' es : go t p s = Some (s', es) → tracks s s'.
Proof.
  intros Hg.
  assert (Hend : ∀ e, unlock_end t e s = Some (s', es) → tracks s s').
  { intros e Hu. unfold unlock_end in Hu. destruct (awake t s).
    - destruct (cv (Unlock t) (cvs s)) as [c|] eqn:Hc; [|done]. simpl in Hu.
      eapply (finish_tracks t _ s (Some (Unlock t))); [exact Hu|done|by simpl; auto].
    - by eapply (wake_tracks (WakeUp t)). }
  assert (Hwk : (c ← cv (WakeUp t) (cvs s); Some (Chan c (phases s), [])) = Some (s', es) → tracks s s').
  { intros Hu. by eapply (wake_tracks (WakeUp t)). }
  assert (Hfin : ∀ es0, finish t es0 s = Some (s', es) → tracks s s').
  { intros es0 Hf. destruct s as [c ps]. by eapply (finish_tracks t es0 _ None). }
  assert (Hgo : ∀ l q es0, wait_cond q = None → (∀ u, u ≠ t → not_by u l) →
    goto t l q es0 s = Some (s', es) → tracks s s').
  { intros l q es0 Hq Hl Hg'. eapply goto_tracks; [exact Hg'|done|congruence]. }
  destruct p; simpl in Hg; repeat case_match; try done;
    try (by eapply Hend); try (by eapply Hfin); try (by eapply Hwk);
    try (by eapply Hgo in Hg; [|done|by simpl; auto]).
  - eapply goto_tracks; [done|by simpl; auto|]. simpl. intros k [= <-]. eauto.
  - unfold send_body in Hg. case_match; [by eapply stay_tracks|].
    destruct (push v _); [|done]. simpl in Hg. by eapply Hgo in Hg; [|done|by simpl; auto].
  - eapply goto_tracks; [done|by simpl; auto|]. simpl. intros k [= <-]. eauto.
  - unfold recv_body in Hg. case_match; [by eapply Hgo in Hg; [|done|by simpl; auto]|].
    destruct (pop_front _) as [[]|]; [|done]. simpl in Hg. by eapply Hgo in Hg; [|done|by simpl; auto].
Qed.

Lemma chan_tracks l s s' es : chan_step l s = Some (s', es) → tracks s s'.
Proof.
  intros Hs. assert (Hst : ∀ t p, wait_cond p = None → start t p s = Some (s', es) → tracks s s').
  { intros t p Hp Hst. unfold start in Hst. case_decide; [|done]. by eapply (stay_tracks t p []). }
  destruct l as [t v|t|t|t|t|]; simpl in Hs; try (by eapply Hst in Hs).
  - destruct (phases s !! t) as [p|] eqn:Hp; [|done]. by eapply go_tracks.
  - by eapply (wake_tracks (Step t)).
  - by eapply (wake_tracks Leave).
Qed.

(** *** First in, first out *)
Context {cap : nat} {rep : Q → list T → Prop} `{!BufferLaws Q T cap rep}.

Definition fifo (d : chan_data) (tr : list chan_event) : Prop :=
  ∃ l, rep (buf d) l ∧ pushed tr = took tr ++ l.

Lemma pushed_app t1 t2 : pushed (t1 ++ t2) = pushed t1 ++ pushed t2.
Proof. apply omap_app. Qed.
Lemma took_app t1 t2 : took (t1 ++ t2) = took t1 ++ took t2.
Proof. apply omap_app. Qed.

Lemma fifo_moved d d' tr es : fifo d tr → moved d d' es → fifo d' (tr ++ es).
Proof.
  intros (l & Hl & Htr) Hm. unfold fifo. rewrite pushed_app, took_app, Htr.
  destruct Hm as [es H1 H2|t v q Hpc Hf Hpu|t x q He Hpo|t|He Hpc]; simpl.
  - exists l. by rewrite H1, H2, !app_nil_r.
  - rewrite (rep_full _ _ Hl) in Hf. apply bool_decide_eq_false in Hf.
    pose proof (rep_bound _ _ Hl). destruct (rep_push _ _ v Hl ltac:(lia)) as (q' & Hq & Hr).
    simplify_eq. exists (l ++ [v]). split; [done|]. by rewrite app_nil_r, app_assoc.
  - rewrite (rep_empty _ _ Hl) in He. apply bool_decide_eq_false in He. destruct l as [|y l]; [done|].
    destruct (rep_pop _ _ _ Hl) as (q' & Hq & Hr). simplify_eq. exists l. split; [done|].
    by rewrite app_nil_r, <- app_assoc.
  - exists l. by rewrite !app_nil_r.
  - exists l. by rewrite !app_nil_r.
Qed.

(** A channel that was closed and found empty. *)
Definition drained (d : chan_data) : bool := part_closed d && empty (buf d).

Lemma drained_moved d d' es : drained d = true → moved d d' es → drained d' = true.
Proof.
  unfold drained. rewrite !andb_true_iff. intros [Hp He] Hm.
  destruct Hm as [es H1 H2|t v q Hpc Hf Hpu|t x q He' Hpo|t|He' Hpc]; try congruence; done.
Qed.
(** Where the answer [nullopt] of [recv] comes from. *)
Definition none_pending (s : chan) : Prop :=
  complete_closed (CondVar.data (cvs s)) = true ∨ ∃ t, phases s !! t = Some (RecvUnlock None).

Lemma go_none t p s s' es : phases s !! t = Some p → go t p s = Some (s', es) →
  (∃ u, phases s' !! u = Some (RecvUnlock None)) ∨ (∃ u, RecvRet u None ∈ es) →
  none_pending s ∨ drained (CondVar.data (cvs s)) = true.
Proof.
  intros Hp Hg Hn.
  assert (Hph : ∀ (q : phase) u, <[t := q]> (phases s) !! u = Some (RecvUnlock None) → q ≠ RecvUnlock None →
    none_pending s ∨ drained (CondVar.data (cvs s)) = true).
  { intros q u Hu Hq. left. right. destruct (decide (u = t)) as [->|];
      [rewrite lookup_insert_eq in Hu; congruence|]. rewrite lookup_insert_ne in Hu by done. eauto. }
  assert (Hdel : ∀ u, delete t (phases s) !! u = Some (RecvUnlock None) → none_pending s).
  { intros u Hu%lookup_delete_Some. right. naive_solver. }
  destruct p as [v|v|v| |b| | | |x|[x|]| | | |]; simpl in Hg;
    unfold send_body, recv_body, unlock_end, goto, stay, finish in Hg; step_inv Hg;
    destruct Hn as [[u Hu]|[u Hu]]; simpl in *;
    try (by eapply Hph in Hu); try (by left; eapply Hdel);
    try (by repeat (apply elem_of_cons in Hu as [Hu|Hu]; [done|]); apply elem_of_nil in Hu);
    try (by left; left); try (by left; right; eauto); by right; unfold drained; rewrite andb_comm.
Qed.

Lemma step_none l s s' es : chan_step l s = Some (s', es) →
  (∃ u, phases s' !! u = Some (RecvUnlock None)) ∨ (∃ u, RecvRet u None ∈ es) →
  none_pending s ∨ drained (CondVar.data (cvs s)) = true.
Proof.
  intros Hs Hn.
  assert (Hst : ∀ t q, q ≠ RecvUnlock None → start t q s = Some (s', es) → none_pending s).
  { intros t q Hq Hst. unfold start in Hst. case_decide; [|done]. simplify_eq/=.
    destruct Hn as [[u Hu]|[u Hu]]; [|by apply elem_of_nil in Hu].
    apply lookup_insert_Some in Hu as [[_ ?]|[_ Hu]]; [done|]. right. eauto. }
  destruct l as [t v|t|t|t|t|]; simpl in Hs; try (by left; eapply Hst in Hs).
  - destruct (phases s !! t) as [p|] eqn:Hp; [|done]. by eapply go_none.
  - destruct (cv _ _); [|done]. simplify_eq/=. left. right.
    destruct Hn as [?|[u Hu]]; [done|by apply elem_of_nil in Hu].
  - destruct (cv _ _); [|done]. simplify_eq/=. left. right.
    destruct Hn as [?|[u Hu]]; [done|by apply elem_of_nil in Hu].
Qed.

Lemma complete_moved d d' es : moved d d' es → complete_closed d' = true →
  complete_closed d = true ∨ drained d' = true.
Proof.
  intros Hm Hc. destruct Hm as [es H1 H2|t v q Hpc Hf Hpu|t x q He' Hpo|t|He' Hpc]; auto. done.
Qed.

(** *** The invariant of the channel *)
Record chan_ok (q : Q) (s : chan) (tr : list chan_event) : Prop := {
  ok_cv : ∃ ctr, reach (cv_machine chan_holds ctx_of is_close (ChanData q no_close)) (cvs s) ctr;
  ok_waits : waits s;
  ok_fifo : fifo (CondVar.data (cvs s)) tr;
  ok_drained : none_pending s ∨ (∃ t, RecvRet t None ∈ tr) → drained (CondVar.data (cvs s)) = true;
}.

Lemma cv_reach d (c c' : cv_state) ctr lo : reach (cv_machine chan_holds ctx_of is_close d) c ctr →
  applied lo c c' → ∃ ctr', reach (cv_machine chan_holds ctx_of is_close d) c' ctr'.
Proof.
  intros Hr Ha. destruct lo as [l|]; simpl in Ha; [|subst; eauto]. unfold cv in Ha.
  destruct (CondVar.step chan_holds ctx_of is_close l c) as [[c1 es]|] eqn:Hs; [|done]. simplify_eq/=.
  eexists. eapply reach_step; [exact Hr|exact Hs].
Qed.

Lemma waits_tracks d s s' ctr : reach (cv_machine chan_holds ctx_of is_close d) (cvs s) ctr →
  waits s → tracks s s' → waits s'.
Proof.
  intros Hr Hw (lo & Ha & Ht) t p c Hp Hc.
  destruct (Ht t p c Hp Hc) as [[Hp0 Hby]|[v ->]]; simpl in Ha.
  - destruct lo as [l|]; simpl in *; [|rewrite Ha; by eapply Hw].
    eapply waiting_step; [by eapply placed_reach|by eapply cond_kept_reach, Hr; apply close_harmless|
      by eapply Hw|done|done].
  - unfold cv in Ha. simpl in Ha. destruct (CondVar.pcs (cvs s) !! t) as [[]|]; try done. simplify_eq/=.
    eexists. split; [by rewrite <- Ha; apply lookup_insert_eq|done].
Qed.

Lemma chan_ok_init q : rep q [] → chan_ok q (chan_init q) [].
Proof.
  intros Hq. split.
  - eexists. by apply reach_init.
  - by intros t p c Hp.
  - by exists [].
  - intros [[Hc|[t Ht]]|[t Ht]]; [done..|by apply elem_of_nil in Ht].
Qed.

Lemma chan_ok_step q l s s' tr es : chan_ok q s tr → chan_step l s = Some (s', es) →
  chan_ok q s' (tr ++ es).
Proof.
  intros [[ctr Hcv] Hw Hf Hd] Hs. pose proof (chan_moved _ _ _ _ Hw Hs) as Hm.
  pose proof (chan_tracks _ _ _ _ Hs) as Ht. split.
  - destruct Ht as (lo & Ha & _). by eapply cv_reach.
  - by eapply waits_tracks.
  - by eapply fifo_moved.
  - intros Hn. assert (Hor : none_pending s ∨ (∃ t, RecvRet t None ∈ tr) ∨
      drained (CondVar.data (cvs s)) = true ∨ drained (CondVar.data (cvs s')) = true).
    { destruct Hn as [[Hc|Hph]|[t [Hin|Hin]%elem_of_app]].
      - destruct (complete_moved _ _ _ Hm Hc); [by left; left|auto].
      - destruct (step_none _ _ _ _ Hs (or_introl Hph)); auto.
      - eauto.
      - destruct (step_none _ _ _ _ Hs (or_intror (ex_intro _ t Hin))); auto. }
    destruct Hor as [?|[?|[?|?]]]; [..|done]; eapply drained_moved; eauto.
Qed.

Lemma chan_ok_reach q s tr : rep q [] → reach (chan_machine q) s tr → chan_ok q s tr.
Proof.
  intros Hq. apply reach_inv_tr; [intros ? ->; by apply chan_ok_init|].
  intros s0 tr0 l s' es Hok Hs. by eapply chan_ok_step.
Qed.
End channel.

(** ** Properties *)

(** C29: first in, first out, and bounded: at every point of every interleaving
    of sends, receives and closes, the values that went in are those that came
    out, in the same order, followed by those in the buffer, of which there are
    never more than the capacity. *)
Theorem channel_fifo {Q T} `{BufferLaws Q T cap rep} ctx_of q (s : chan) tr :
  rep q [] → reach (chan_machine ctx_of q) s tr →
  ∃ l, rep (buf (CondVar.data (cvs s))) l ∧ pushed tr = took tr ++ l ∧ (length l ≤ cap)%nat.
Proof.
  intros Hq Hr. destruct (ok_fifo _ _ _ _ (chan_ok_reach _ _ _ _ Hq Hr)) as (l & Hl & Htr).
  exists l. split_and!; [done|done|by eapply rep_bound].
Qed.

(** a call that [wait] let through with the mutex never gets stuck on the
    buffer: the element it writes is inside of the array and free (not full),
    the one it reads is there (not empty). *)
Theorem channel_body_safe {Q T} `{BufferLaws Q T cap rep} ctx_of q (s : chan) tr t p :
  rep q [] → reach (chan_machine ctx_of q) s tr →
  phases s !! t = Some p → is_Some (wait_cond p) → holds_lock t s = true →
  is_Some (chan_step ctx_of (Go t) s).
Proof.
  intros Hq Hr Hp [c Hc] Hh. destruct (chan_ok_reach _ _ _ _ Hq Hr) as [_ Hw (l & Hl & _) _].
  pose proof (waits_holding _ _ _ _ Hw Hp Hc Hh) as Hcond. pose proof Hh as Hh'. unfold holds_lock in Hh'.
  assert (Hup : ∀ d, cv ctx_of (Update t d) (cvs s) = Some (CondVar.set_data d (cvs s))).
  { intros d. unfold cv. simpl. by destruct (CondVar.pcs (cvs s) !! t) as [[]|]. }
  simpl. rewrite Hp. simpl. destruct p; try discriminate Hc; injection Hc as <-;
    cbn [go]; rewrite Hh.
  - unfold send_body. destruct (part_closed _) eqn:Hpc; [done|].
    pose proof (not_full _ Hpc Hcond) as Hf. rewrite (rep_full _ _ Hl) in Hf.
    apply bool_decide_eq_false in Hf. pose proof (rep_bound _ _ Hl).
    destruct (rep_push _ _ v Hl ltac:(lia)) as (q' & -> & _). simpl. unfold goto. by rewrite Hup.
  - unfold recv_body. destruct (_ && _) eqn:Hpc; [unfold goto; by rewrite Hup|].
    pose proof (not_empty _ Hpc Hcond) as He. rewrite (rep_empty _ _ Hl) in He.
    apply bool_decide_eq_false in He. destruct l as [|x l]; [done|].
    destruct (rep_pop _ _ _ Hl) as (q' & -> & _). simpl. unfold goto. by rewrite Hup.
Qed.

(** [recv] answers [nullopt] only when the channel is closed and everything
    that was ever accepted has been taken; nothing is accepted any more. *)
Theorem channel_none_drained {Q T} `{BufferLaws Q T cap rep} ctx_of q (s : chan) tr t :
  rep q [] → reach (chan_machine ctx_of q) s tr → RecvRet t None ∈ tr →
  part_closed (CondVar.data (cvs s)) = true ∧ pushed tr = took tr.
Proof.
  intros Hq Hr Hin. destruct (chan_ok_reach _ _ _ _ Hq Hr) as [_ _ (l & Hl & Htr) Hd].
  specialize (Hd (or_intror (ex_intro _ t Hin))). apply andb_true_iff in Hd as [Hp He]. split; [done|].
  rewrite (rep_empty _ _ Hl) in He. apply bool_decide_eq_true in He as ->. by rewrite app_nil_r in Htr.
Qed.

(** [close] is final: from any reachable state of a closed channel, no
    schedule adds a value, and the channel stays closed. *)
Theorem channel_close_final {Q T} `{BufferLaws Q T cap rep} ctx_of q (s s' : chan) tr ls es :
  rep q [] → reach (chan_machine ctx_of q) s tr → part_closed (CondVar.data (cvs s)) = true →
  exec (chan_machine ctx_of q) ls s = Some (s', es) →
  part_closed (CondVar.data (cvs s')) = true ∧ pushed es = [].
Proof.
  intros Hq Hr Hc He. revert s tr es Hr Hc He. induction ls as [|l ls IH]; intros s tr es Hr Hc He; simpl in He.
  { by simplify_eq. }
  destruct (chan_step ctx_of l s) as [[s1 e1]|] eqn:Hs; [|done].
  destruct (exec _ ls s1) as [[s2 e2]|] eqn:He2; [|done]. simplify_eq.
  pose proof (chan_moved _ _ _ _ _ (ok_waits _ _ _ _ (chan_ok_reach _ _ _ _ Hq Hr)) Hs) as Hm.
  assert (Hs1 : part_closed (CondVar.data (cvs s1)) = true ∧ pushed e1 = []) by (destruct Hm; by rewrite ?Hc in *).
  destruct Hs1 as [Hc1 Hp1]. destruct (IH s1 (tr ++ e1) e2) as [Hc2 Hp2]; [by eapply reach_step|done|done|].
  split; [done|]. by rewrite pushed_app, Hp1, Hp2.
Qed.

(** A receiver that is on its way to sleep, and a [close] next to it. *)
Definition lost_close : list (chan_label (T:=nat)) :=
  [Recv 1; Go 1; Go 1; Inner 1; Close 2; Go 2; Go 2; Go 2; Go 2; Inner 1; InnerLeave].

(** A receiver that sleeps, alone: nothing of it can move. *)
Lemma asleep_stuck {Q T} `{Buffer Q T} ctx_of (s : chan) u c t :
  phases s = {[ u := RecvWait ]} → CondVar.pcs (cvs s) = {[ u := InCv Consumer c ]} →
  chan_step ctx_of (Go t) s = None ∧ chan_step ctx_of (Inner t) s = None.
Proof.
  intros Hph Hpc. unfold chan_step, cv, CondVar.step. rewrite Hph, Hpc.
  destruct (decide (u = t)) as [->|Hne].
  - rewrite !lookup_singleton_eq. simpl. unfold holds_lock. by rewrite Hpc, lookup_singleton_eq.
  - by rewrite !lookup_singleton_ne.
Qed.

(** [close] stores its state without the mutex, so it can come between the
    receiver's look at the condition and its entry in the list: [close] then
    returns having woken nobody, and the receiver sleeps on a closed channel,
    with no step left to any coroutine in flight. *)
Theorem channel_close_lost_wakeup (ctx_of : nat → nat) :
  ∃ (s : chan) tr, exec (chan_machine ctx_of (Slot.SlotC None)) lost_close (chan_init (Slot.SlotC None)) = Some (s, tr) ∧
    tr = [Closed 2] ∧ part_closed (CondVar.data (cvs s)) = true ∧
    CondVar.cvq (cvs s) Consumer = [1%nat] ∧ phases s = {[ 1%nat := RecvWait ]} ∧
    (∀ t, chan_step ctx_of (Go t) s = None ∧ chan_step ctx_of (Inner t) s = None) ∧
    chan_step ctx_of InnerLeave s = None.
Proof.
  eexists _, _. split; [vm_compute; reflexivity|]. split_and!; try reflexivity. intros t. by apply (asleep_stuck _ _ 1 (Some NotEmptyOrClosed)).
Qed.

(** ** Witnesses *)

(** 1 sends 7 and 8 to a channel of capacity 2 or more; 2 receives. *)
Definition send_run (t : nat) (v : nat) : list (chan_label (T:=nat)) :=
  [Send t v; Go t; Go t; Inner t; Go t; Go t; Go t].
Definition recv_run (t : nat) : list (chan_label (T:=nat)) :=
  [Recv t; Go t; Go t; Inner t; Go t; Go t; Go t].
Definition chan_demo : list (chan_label (T:=nat)) := send_run 1 7 ++ send_run 1 8 ++ recv_run 2.

Definition ring3 : Ring.ring := Ring.RingC 0 0 0 [0; 0; 0]%nat.
Definition ring_m := chan_machine (H := ring_buffer 3) (λ t, t) ring3.
Lemma ring3_rep : ring_rep 3 ring3 [].
Proof. unfold ring_rep, circular. simpl. split_and!; try done; lia. Qed.
Lemma ring3_demo_reach : reach ring_m (final ring_m chan_demo (chan_init ring3)) (trace ring_m chan_demo (chan_init ring3)).
Proof. apply exec_reach_final; [done|by vm_compute]. Defined.

Lemma channel_fifo_witness :
  pushed (trace ring_m chan_demo (chan_init ring3)) = [7; 8]%nat ∧
  ∃ l, pushed (trace ring_m chan_demo (chan_init ring3)) = took (trace ring_m chan_demo (chan_init ring3)) ++ l ∧
    (length l ≤ 3)%nat.
Proof.
  split; [by vm_compute|].
  destruct (channel_fifo (H0 := ring_laws 3 ltac:(lia)) (λ t, t) ring3 _ _ ring3_rep ring3_demo_reach) as (l & _ & Hl & Hb).
  exists l. split; [exact Hl|exact Hb].
Defined.

Definition pow2_2 : Pow2.ring := Pow2.RingC 0 0 [0; 0]%nat.
Definition pow_m := chan_machine (H := pow2_buffer (2 ^ 1)) (λ t, t) pow2_2.
Lemma pow2_2_rep : pow2_rep (2 ^ 1) pow2_2 [].
Proof. unfold pow2_rep, circular. simpl. split_and!; try done; lia. Qed.
Definition pow_demo : list (chan_label (T:=nat)) := send_run 1 7 ++ [Recv 2; Go 2; Go 2; Inner 2].
Lemma pow2_2_demo_reach : reach pow_m (final pow_m pow_demo (chan_init pow2_2)) (trace pow_m pow_demo (chan_init pow2_2)).
Proof. apply exec_reach_final; [done|by vm_compute]. Defined.

Lemma channel_body_safe_witness :
  is_Some (chan_step (H := pow2_buffer (2 ^ 1)) (λ t, t) (Go 2) (final pow_m pow_demo (chan_init pow2_2))).
Proof.
  apply (channel_body_safe (H0 := pow2_laws 1 ltac:(lia)) (λ t, t) pow2_2 _ _ 2 RecvWait pow2_2_rep pow2_2_demo_reach);
    [by vm_compute|by eexists|by vm_compute].
Defined.

(** 2 closes the channel after one value; 3 takes the value, then finds it closed. *)
Definition close_demo : list (chan_label (T:=nat)) := send_run 1 7 ++ [Close 2; Go 2; Go 2; Go 2; Go 2].
Definition drain_demo : list (chan_label (T:=nat)) :=
  close_demo ++ recv_run 3 ++ [Recv 3; Go 3; Go 3; Inner 3; Go 3; Go 3].
Definition slot_m := chan_machine (λ t, t) (Slot.SlotC (T:=nat) None).
Definition slot0 : chan (T:=nat) := chan_init (Slot.SlotC (T:=nat) None).
Lemma close_demo_reach : reach slot_m (final slot_m close_demo slot0) (trace slot_m close_demo slot0).
Proof. apply exec_reach_final; [done|by vm_compute]. Defined.
Lemma drain_demo_reach : reach slot_m (final slot_m drain_demo slot0) (trace slot_m drain_demo slot0).
Proof. apply exec_reach_final; [done|by vm_compute]. Defined.

Lemma channel_none_drained_witness :
  pushed (trace slot_m drain_demo slot0) = [7%nat] ∧
  pushed (trace slot_m drain_demo slot0) = took (trace slot_m drain_demo slot0).
Proof.
  split; [by vm_compute|].
  refine (proj2 (channel_none_drained (λ t, t) (Slot.SlotC None) _ _ 3 eq_refl drain_demo_reach _)).
  apply list_elem_of_In. vm_compute. tauto.
Defined.

(** A send that was on its way when the channel was closed. *)
Lemma channel_close_final_witness : ∃ s' es,
  exec slot_m (recv_run 3 ++ [Send 4 9%nat; Go 4]) (final slot_m close_demo slot0) = Some (s', es) ∧ pushed es = [].
Proof.
  assert (He : bool_decide (is_Some (exec slot_m (recv_run 3 ++ [Send 4 9%nat; Go 4]) (final slot_m close_demo slot0))) = true)
    by by vm_compute.
  apply bool_decide_eq_true in He as [[s' es] He]. exists s', es. split; [done|].
  refine (proj2 (channel_close_final (λ t, t) (Slot.SlotC None) _ s' _ _ es eq_refl close_demo_reach _ He)).
  by vm_compute.
Defined.
