(* ===== verification/ChannelEquiv.v ===== *)
(** * The three channels are one (include/coro/comp/channel.hpp)

    [channel] has a general class and two specialised ones, for capacities
    that are powers of two and for capacity 0. A channel over any buffer that
    satisfies [BufferLaws] shows, under every schedule, what a channel over a
    plain list of the same capacity shows; so the specialised classes are
    equivalent to the general one. *)
From S2P Require Import Prelude WaitCount LockSpec CondVar Channel.
Local Open Scope Z_scope.
Local Open Scope coro_scope.

(** ** Condition variables do not look at the data except through conditions *)
Section data.
Context {CV D1 D2 Cond : Type} `{EqDecision CV} (ctx_of : nat → nat).
Context (holds1 : Cond → D1 → bool) (holds2 : Cond → D2 → bool).
Context (un1 : D1 → D1 → bool) (un2 : D2 → D2 → bool).

(** The same state with other data. *)
Definition with_data (d : D2) (s : CondVar.state (CV:=CV) (D:=D1) (Cond:=Cond)) : CondVar.state (D:=D2) :=
  State (lk s) (leaving s) d (cvq s) (pcs s) (waking s) (nwait s).

(** A step that does not write the data, as a label over either. *)
Definition relabel (l : CondVar.label (CV:=CV) (D:=D1) (Cond:=Cond)) :
    option (CondVar.label (CV:=CV) (D:=D2) (Cond:=Cond)) :=
  match l with
  | Lock t => Some (Lock t)
  | Unlock t => Some (Unlock t)
  | Wait t cv c => Some (Wait t cv c)
  | Step t => Some (Step t)
  | Leave => Some Leave
  | NotifyOne n cv => Some (NotifyOne n cv)
  | NotifyAll n cv => Some (NotifyAll n cv)
  | WakeUp n => Some (WakeUp n)
  | Update _ _ | Write _ => None
  end.

Lemma unlock_data t d s : unlock t (with_data d s) = with_data d <$> unlock t s.
Proof.
  unfold unlock. change (lk (with_data d s)) with (lk s).
  destruct (lock_step (LRelease t) (lk s)) as [[l [|[| | |t' [w|]] [|]]]|]; try done.
  change (pcs (with_data d s)) with (pcs s). destruct (pcs s !! w.2) as [p|]; [|done]. simpl.
  by destruct (handed_pc p).
Qed.

Lemma register_data t p q d s : register_lock ctx_of t p q (with_data d s) = with_data d <$> register_lock ctx_of t p q s.
Proof.
  unfold register_lock. change (lk (with_data d s)) with (lk s). destruct (lock_step (LAcquire t) (lk s)) as [[]|]; [done|].
  by destruct (lock_step (LEnqueue _) (lk s)) as [[]|].
Qed.

Lemma popped_data ts : ∀ d s, foldl to_popped (with_data d s) ts = with_data d (foldl to_popped s ts).
Proof.
  induction ts as [|t ts IH]; intros d s; [done|]. simpl. rewrite <- IH. f_equal.
  unfold to_popped. simpl. by destruct (pcs s !! t) as [[]|].
Qed.

Lemma pop_data n cv ts rest d s : pop n cv ts rest (with_data d s) = with_data d <$> pop n cv ts rest s.
Proof.
  unfold pop. simpl. case_decide; [|done]. simpl. f_equal.
  change (set_cvq cv rest (with_data d s)) with (with_data d (set_cvq cv rest s)). by rewrite popped_data.
Qed.

Lemma wake_data n d s : wake_up ctx_of n (with_data d s) = with_data d <$> wake_up ctx_of n s.
Proof.
  unfold wake_up. simpl. destruct (waking s !! n) as [[|t l]|]; [done| |done]. simpl.
  destruct (pcs s !! t) as [[]|]; try done. simpl. rewrite register_data.
  by destruct (register_lock _ _ _ _ s).
Qed.

Lemma cv_step_data t p d s : (∀ c, holds1 c (data s) = holds2 c d) →
  cv_step holds2 ctx_of t p (with_data d s) = prod_map (with_data d) id <$> cv_step holds1 ctx_of t p s.
Proof.
  intros Hh. assert (H1 : ∀ c, cond_holds holds2 c d = cond_holds holds1 c (data s)) by (intros [c|]; simpl; by rewrite ?Hh).
  assert (H2 : ∀ c, cond_fails holds2 c d = cond_fails holds1 c (data s)) by (intros [c|]; simpl; by rewrite ?Hh).
  destruct p; simpl; try done; rewrite ?H1, ?H2; by case_match.
Qed.

Lemma step_data l l' d s : relabel l = Some l' → (∀ c, holds1 c (data s) = holds2 c d) →
  CondVar.step holds2 ctx_of un2 l' (with_data d s) =
  prod_map (with_data d) id <$> CondVar.step holds1 ctx_of un1 l s.
Proof.
  intros Hl Hh. destruct l; simpl in Hl; simplify_eq; simpl.
  - case_decide; [|done]. rewrite register_data. by destruct (register_lock _ _ _ _ s).
  - destruct (pcs s !! t) as [[]|]; try done. change (leave t (with_data d s)) with (with_data d (leave t s)).
    rewrite unlock_data. by destruct (unlock t (leave t s)).
  - by destruct (pcs s !! t) as [[]|].
  - destruct (pcs s !! t) as [p|]; [|done]. by apply cv_step_data.
  - destruct (leaving s); [|done]. destruct (holder (lk s)) as [t|]; [|done]. simpl.
    change (set_leaving false (with_data d s)) with (with_data d (set_leaving false s)).
    rewrite unlock_data. by destruct (unlock t (set_leaving false s)).
  - destruct (cvq s cv) as [|t l]; [done|]. rewrite pop_data. by destruct (pop _ _ _ _ s).
  - rewrite pop_data. by destruct (pop _ _ _ _ s).
  - rewrite wake_data. by destruct (wake_up _ _ s).
Qed.
End data.

(** ** The reference: a channel over a list *)
#[export] Instance list_buffer {T} (cap : nat) : Buffer (list T) T := {|
  empty l := bool_decide (l = []);
  full l := bool_decide (length l = cap);
  push x l := Some (l ++ [x]);
  pop_front l := match l with [] => None | x :: l => Some (x, l) end;
|}.

Section reference.
Context {Q T : Type} (cap : nat) `{BufferLaws Q T cap rep} (ctx_of : nat → nat).
Abbreviation spec_chan := (Channel.chan (Q:=list T) (T:=T)).
Abbreviation spec_step := (chan_step (H := list_buffer cap) ctx_of).
Abbreviation spec_data s := (CondVar.data (cvs s)).

(** The channel's state with the elements in the buffer [q]. *)
Definition over (q : Q) (s : spec_chan) : Channel.chan (Q:=Q) (T:=T) :=
  Chan (with_data (ChanData q (m_close_state (spec_data s))) (cvs s)) (phases s).

(** What the channel over the buffer does, given what the reference does. *)
Definition matches (r : option (spec_chan * list (chan_event (T:=T)))) (r' : option (Channel.chan (Q:=Q) * list chan_event)) : Prop :=
  match r with
  | Some (s, es) => ∃ q, rep q (buf (spec_data s)) ∧ r' = Some (over q s, es)
  | None => r' = None
  end.

Lemma agree_holds q (s : spec_chan) c : rep q (buf (spec_data s)) →
  chan_holds (H := list_buffer cap) c (spec_data s) =
  chan_holds c (ChanData q (m_close_state (spec_data s))).
Proof.
  intros Hq. destruct c; simpl; [rewrite (rep_full _ _ Hq)|rewrite (rep_empty _ _ Hq)]; done.
Qed.

Lemma cv_over l l' q (s : spec_chan) : relabel l = Some l' → rep q (buf (spec_data s)) →
  match cv (H := list_buffer cap) ctx_of l (cvs s) with
  | Some c => cv ctx_of l' (cvs (over q s)) = Some (with_data (ChanData q (m_close_state (spec_data s))) c) ∧
      CondVar.data c = spec_data s
  | None => cv ctx_of l' (cvs (over q s)) = None
  end.
Proof.
  intros Hl Hq. unfold cv. unfold over. simpl.
  rewrite (step_data ctx_of (chan_holds (H := list_buffer cap)) chan_holds is_close is_close l l' _ _ Hl)
    by (intros; by apply agree_holds).
  destruct (CondVar.step _ _ _ l (cvs s)) as [[c es]|] eqn:Hs; [|done]. simpl. split; [done|].
  assert (Hc : cv (H := list_buffer cap) ctx_of l (cvs s) = Some c) by (unfold cv; by rewrite Hs).
  apply cv_data in Hc. by destruct l.
Qed.

Lemma goto_matches l l' q t p es s : relabel l = Some l' → rep q (buf (spec_data s)) →
  matches (goto (H := list_buffer cap) ctx_of t l p es s) (goto ctx_of t l' p es (over q s)).
Proof.
  intros Hl Hq. pose proof (cv_over l l' q s Hl Hq) as Hc. unfold goto.
  destruct (cv (H := list_buffer cap) ctx_of l (cvs s)) as [c|]; [|by rewrite Hc].
  destruct Hc as [-> Hd]. simpl. exists q. unfold over. simpl. by rewrite Hd.
Qed.

Lemma inner_matches l l' q s : relabel l = Some l' → rep q (buf (spec_data s)) →
  matches (c ← cv (H := list_buffer cap) ctx_of l (cvs s); Some (Chan c (phases s), []))
    (c ← cv ctx_of l' (cvs (over q s)); Some (Chan c (phases s), [])).
Proof.
  intros Hl Hq. pose proof (cv_over l l' q s Hl Hq) as Hc.
  destruct (cv (H := list_buffer cap) ctx_of l (cvs s)) as [c|]; [|by rewrite Hc].
  destruct Hc as [-> Hd]. simpl. exists q. unfold over. simpl. by rewrite Hd.
Qed.

Lemma update_matches q q' l z t p es s : rep q (buf (spec_data s)) → rep q' l →
  matches (goto (H := list_buffer cap) ctx_of t (Update t (ChanData l z)) p es s)
    (goto ctx_of t (Update t (ChanData q' z)) p es (over q s)).
Proof.
  intros Hq Hq'. unfold goto, cv, over. simpl.
  destruct (CondVar.pcs (cvs s) !! t) as [[]|]; simpl; try done. by exists q'.
Qed.

Lemma end_matches q t e s : rep q (buf (spec_data s)) →
  matches (unlock_end (H := list_buffer cap) ctx_of t e s) (unlock_end ctx_of t e (over q s)).
Proof.
  intros Hq. unfold unlock_end. change (awake t (over q s)) with (awake t s). destruct (awake t s).
  - pose proof (cv_over (Unlock t) (Unlock t) q s eq_refl Hq) as Hc.
    destruct (cv (H := list_buffer cap) ctx_of (Unlock t) (cvs s)) as [c|]; [|by rewrite Hc].
    destruct Hc as [-> Hd]. simpl. exists q. unfold over. simpl. by rewrite Hd.
  - by apply inner_matches.
Qed.

Lemma send_matches q t v s : rep q (buf (spec_data s)) → waits (H := list_buffer cap) s → phases s !! t = Some (SendWait v) →
  holds_lock t s = true →
  matches (send_body (H := list_buffer cap) ctx_of t v s) (send_body ctx_of t v (over q s)).
Proof.
  intros Hq Hw Hp Hh. pose proof (waits_holding (H := list_buffer cap) _ _ _ _ Hw Hp eq_refl Hh) as Hc.
  unfold send_body. change (part_closed (spec_data (over q s))) with (part_closed (spec_data s)).
  destruct (part_closed (spec_data s)) eqn:Hpc; [by exists q|].
  pose proof (not_full (H := list_buffer cap) _ Hpc Hc) as Hf. simpl in Hf. apply bool_decide_eq_false in Hf.
  pose proof (rep_bound _ _ Hq). destruct (rep_push q _ v Hq ltac:(lia)) as (q' & Hp' & Hr'). simpl.
  rewrite Hp'. simpl. by apply update_matches.
Qed.

Lemma recv_matches q t s : rep q (buf (spec_data s)) → waits (H := list_buffer cap) s → phases s !! t = Some RecvWait →
  holds_lock t s = true →
  matches (recv_body (H := list_buffer cap) ctx_of t s) (recv_body ctx_of t (over q s)).
Proof.
  intros Hq Hw Hp Hh. pose proof (waits_holding (H := list_buffer cap) _ _ _ _ Hw Hp eq_refl Hh) as Hc.
  unfold recv_body. change (part_closed (spec_data (over q s))) with (part_closed (spec_data s)).
  change (empty (buf (spec_data (over q s)))) with (empty q). rewrite (rep_empty _ _ Hq).
  change (empty (buf (spec_data s))) with (bool_decide (buf (spec_data s) = [])).
  destruct (bool_decide (buf (spec_data s) = []) && part_closed (spec_data s)) eqn:He; [by apply update_matches|].
  pose proof (not_empty (H := list_buffer cap) _ He Hc) as Hne. simpl in Hne. apply bool_decide_eq_false in Hne.
  change (pop_front (buf (spec_data s))) with (match buf (spec_data s) with [] => None | x :: l => Some (x, l) end).
  change (buf (spec_data (over q s))) with q.
  destruct (buf (spec_data s)) as [|x l] eqn:Hb; [done|].
  destruct (rep_pop q x l Hq) as (q' & -> & Hr'). simpl. apply update_matches; [by rewrite Hb|done].
Qed.

Lemma go_matches q t p s : rep q (buf (spec_data s)) → waits (H := list_buffer cap) s → phases s !! t = Some p →
  matches (go (H := list_buffer cap) ctx_of t p s) (go ctx_of t p (over q s)).
Proof.
  intros Hq Hw Hp. destruct p; cbn [go].
  - change (part_closed (spec_data (over q s))) with (part_closed (spec_data s)).
    destruct (part_closed _); [by exists q|by apply goto_matches].
  - by apply goto_matches.
  - change (holds_lock t (over q s)) with (holds_lock t s).
    destruct (holds_lock t s) eqn:Hh; [by apply send_matches|done].
  - by apply goto_matches.
  - by apply end_matches.
  - change (complete_closed (spec_data (over q s))) with (complete_closed (spec_data s)).
    destruct (complete_closed _); [by exists q|by apply goto_matches].
  - by apply goto_matches.
  - change (holds_lock t (over q s)) with (holds_lock t s).
    destruct (holds_lock t s) eqn:Hh; [by apply recv_matches|done].
  - by apply goto_matches.
  - by apply end_matches.
  - unfold goto, cv. simpl. by exists q.
  - by apply goto_matches.
  - change (awake t (over q s)) with (awake t s). destruct (awake t s); [by apply goto_matches|by apply inner_matches].
  - change (awake t (over q s)) with (awake t s). destruct (awake t s); [by exists q|by apply inner_matches].
Qed.

Lemma step_matches q l s : rep q (buf (spec_data s)) → waits (H := list_buffer cap) s →
  matches (spec_step l s) (chan_step ctx_of l (over q s)).
Proof.
  intros Hq Hw. assert (Hst : ∀ t p, matches (start t p s) (start t p (over q s))).
  { intros t p. unfold start. simpl. case_decide; [by exists q|done]. }
  destruct l; simpl; try apply Hst; try by apply inner_matches.
  destruct (phases s !! t) as [p|] eqn:Hp; [by apply go_matches|done].
Qed.

#[export] Instance list_laws : BufferLaws (H := list_buffer cap) (list T) T cap (λ l l', l = l' ∧ (length l ≤ cap)%nat).
Proof.
  split; simpl.
  - by intros l ? [<- ?].
  - by intros l ? [<- ?].
  - by intros l ? [<- ?].
  - intros l ? x [<- Hl] Hlt. exists (l ++ [x]). split_and!; [done|done|]. rewrite length_app. simpl. lia.
  - intros l x l' [-> Hl]. exists l'. split_and!; [done|done|]. simpl in Hl. lia.
Qed.

Lemma exec_matches ls : ∀ q s tr, rep q (buf (spec_data s)) →
  reach (chan_machine (H := list_buffer cap) ctx_of []) s tr →
  snd <$> exec (chan_machine ctx_of q) ls (over q s) = snd <$> exec (chan_machine (H := list_buffer cap) ctx_of []) ls s.
Proof.
  assert (Hq0 : ∀ q1 q2 ls (s : Channel.chan (Q:=Q)), exec (chan_machine ctx_of q1) ls s = exec (chan_machine ctx_of q2) ls s).
  { intros q1 q2 ls0. induction ls0 as [|l ls0 IH]; intros s; [done|]. simpl.
    destruct (chan_step ctx_of l s) as [[s1 e]|]; [|done]. by rewrite (IH s1). }
  induction ls as [|l ls IH]; intros q s tr Hq Hr; [done|]. simpl.
  assert (Hnil : @nil T = [] ∧ (length (@nil T) ≤ cap)%nat) by (split; [done|simpl; lia]).
  pose proof (ok_waits _ _ _ _ (chan_ok_reach (BufferLaws0 := list_laws) _ _ _ _ Hnil Hr)) as Hw.
  pose proof (step_matches q l s Hq Hw) as Hm.
  destruct (spec_step l s) as [[s1 e]|] eqn:Hs; simpl in Hm; [|by rewrite Hm].
  destruct Hm as (q1 & Hq1 & ->). rewrite (Hq0 q q1).
  assert (Hr1 : reach (chan_machine (H := list_buffer cap) ctx_of []) s1 (tr ++ e)) by (by eapply reach_step).
  specialize (IH q1 s1 _ Hq1 Hr1).
  destruct (exec (chan_machine ctx_of q1) ls (over q1 s1)) as [[]|],
    (exec (chan_machine (H := list_buffer cap) ctx_of []) ls s1) as [[]|]; simpl in *; congruence.
Qed.
End reference.

(** ** The three classes *)

(** A new channel of each class; [raw] is what its array holds. *)
Definition ring_channel {T} (capacity : Z) (raw : list T) (ctx_of : nat → nat) :=
  chan_machine (H := ring_buffer capacity) ctx_of (Ring.RingC 0 0 0 raw).
Definition pow2_channel {T} (capacity : Z) (raw : list T) (ctx_of : nat → nat) :=
  chan_machine (H := pow2_buffer capacity) ctx_of (Pow2.RingC 0 0 raw).
Definition slot_channel {T} (ctx_of : nat → nat) :=
  chan_machine (H := slot_buffer) ctx_of (Slot.SlotC (T:=T) None).

(** What a machine shows under a schedule, or that the schedule is not possible. *)
Definition shows {S L E} (M : machine S L E) (ls : list L) (s : S) : option (list E) := snd <$> exec M ls s.

Lemma shows_reference {Q T} `{BufferLaws Q T cap rep} ctx_of q ls : rep q [] →
  shows (chan_machine ctx_of q) ls (chan_init q) =
  shows (chan_machine (H := list_buffer cap) ctx_of []) ls (chan_init []).
Proof.
  intros Hq. apply (exec_matches cap ctx_of ls q (chan_init []) [] Hq). by apply reach_init.
Qed.

Lemma empty_circular {T} (raw : list T) n : 0 < n < 2 ^ 64 → Z.of_nat (length raw) = n → circular n raw 0 [].
Proof. intros Hn Hl. unfold circular. simpl. split_and!; [lia|lia|done]. Qed.

(** ** Properties *)

(** C28: the specialised channels are equivalent to the general one: under every
    schedule of sends, receives and closes, the channel for a capacity of 2^k,
    with its masked, never reset indices, and the channel of capacity 0, with its
    single slot, accept, deliver and answer what the general channel of capacity
    2^k and of capacity 1 does, and block where it blocks. *)
Theorem channels_equivalent {T} k (raw raw' : list T) (x : T) ctx_of ls : 0 <= k < 64 →
  Z.of_nat (length raw) = 2 ^ k → Z.of_nat (length raw') = 2 ^ k →
  shows (pow2_channel (2 ^ k) raw ctx_of) ls (chan_init (Pow2.RingC 0 0 raw)) =
    shows (ring_channel (2 ^ k) raw' ctx_of) ls (chan_init (Ring.RingC 0 0 0 raw')) ∧
  shows (slot_channel ctx_of) ls (chan_init (Slot.SlotC (T:=T) None)) =
    shows (ring_channel 1 [x] ctx_of) ls (chan_init (Ring.RingC 0 0 0 [x])).
Proof.
  intros Hk Hr Hr'. assert (Hp : 0 < 2 ^ k < 2 ^ 64) by (split; [lia|apply Z.pow_lt_mono_r; lia]).
  unfold pow2_channel, ring_channel, slot_channel. split.
  - rewrite (shows_reference (H0 := pow2_laws k Hk)).
    + symmetry. apply (shows_reference (H0 := ring_laws (2 ^ k) Hp)).
      unfold ring_rep. simpl. split_and!; [by apply empty_circular|lia..|by rewrite Z.mod_0_l by lia].
    + unfold pow2_rep. simpl. split_and!; [by apply empty_circular|lia..|done].
  - assert (H1 : 0 < 1 < 2 ^ 64) by lia. rewrite (shows_reference (H0 := slot_laws)) by done.
    symmetry. apply (shows_reference (H0 := ring_laws 1 H1)).
    unfold ring_rep. simpl. split_and!; [by apply empty_circular|lia..|done].
Qed.

(** ** Witnesses *)
Lemma channels_equivalent_witness :
  shows (pow2_channel (2 ^ 1) [0; 0]%nat (λ t, t)) chan_demo (chan_init (Pow2.RingC 0 0 [0; 0]%nat)) =
    shows (ring_channel (2 ^ 1) [5; 6]%nat (λ t, t)) chan_demo (chan_init (Ring.RingC 0 0 0 [5; 6]%nat)) ∧
  shows (pow2_channel (2 ^ 1) [0; 0]%nat (λ t, t)) chan_demo (chan_init (Pow2.RingC 0 0 [0; 0]%nat)) =
    Some [Pushed 1 7; SendRet 1 true; Pushed 1 8; SendRet 1 true; Took 2 7; RecvRet 2 (Some 7)]%nat.
Proof.
  split; [|by vm_compute].
  destruct (channels_equivalent 1 [0; 0]%nat [5; 6]%nat 0%nat (λ t, t) chan_demo) as [He _];
    [lia|reflexivity|reflexivity|exact He].
Defined.
