(* ===== verification/Bench.v ===== *)
(** * The coroutines of channel_bench.cpp

    A producer that sends [total_num] values and closes the channel, a consumer
    that receives until there are no more, over the channel of [Channel.v] with
    any of its buffers. (The clients of std::mutex that the benchmark compares
    with are in [Monitor.v].) *)
From S2P Require Import Prelude CondVar Channel.
Local Open Scope Z_scope.
Local Open Scope coro_scope.

Section channel_bench.
Context {Q T : Type} `{Buffer Q T} (ctx_of : nat → nat).

Abbreviation chan := (Channel.chan (Q:=Q) (T:=T)).
Abbreviation label_ := (chan_label (T:=T)).
Abbreviation event_ := (chan_event (T:=T)).
Abbreviation phase_ := (phase (T:=T)).

(** *** What the next step of a call may be *)
Inductive goes (closed : bool) (t : nat) : phase_ → option phase_ → list event_ → Prop :=
  | g_refused v : closed = true → goes closed t (SendOpen v) None [SendRet t false]
  | g_open v : goes closed t (SendOpen v) (Some (SendLock v)) []
  | g_lock v : goes closed t (SendLock v) (Some (SendWait v)) []
  | g_late v : closed = true → goes closed t (SendWait v) (Some (SendUnlock false)) []
  | g_push v : goes closed t (SendWait v) (Some SendNotify) [Pushed t v]
  | g_notify : goes closed t SendNotify (Some (SendUnlock true)) []
  | g_sent b : goes closed t (SendUnlock b) None [SendRet t b]
  | g_done : goes closed t RecvOpen None [RecvRet t None]
  | g_ropen : goes closed t RecvOpen (Some RecvLock) []
  | g_rlock : goes closed t RecvLock (Some RecvWait) []
  | g_none : goes closed t RecvWait (Some (RecvUnlock None)) []
  | g_take x : goes closed t RecvWait (Some (RecvNotify x)) [Took t x]
  | g_rnotify x : goes closed t (RecvNotify x) (Some (RecvUnlock (Some x))) []
  | g_received x : goes closed t (RecvUnlock x) None [RecvRet t x]
  | g_store : goes closed t CloseStore (Some CloseProducers) [Closed t]
  | g_producers : goes closed t CloseProducers (Some CloseConsumers) []
  | g_consumers : goes closed t CloseConsumers (Some CloseEnd) []
  | g_closed : goes closed t CloseEnd None []
  | g_same p : goes closed t p (Some p) [].

Definition is_closed (s : chan) : bool := part_closed (CondVar.data (cvs s)).

Lemma go_goes t p (s s' : chan) es : phases s !! t = Some p → go ctx_of t p s = Some (s', es) →
  goes (is_closed s) t p (phases s' !! t) es ∧ ∀ u, u ≠ t → phases s' !! u = phases s !! u.
Proof.
  intros Hp Hg. unfold is_closed.
  destruct p; simpl in Hg; unfold send_body, recv_body, unlock_end, goto, stay, finish in Hg; step_inv Hg;
    (split; [|intros u Hu; by rewrite ?lookup_insert_ne, ?lookup_delete_ne by done]);
    rewrite ?lookup_insert_eq, ?lookup_delete_eq, ?Hp; by constructor.
Qed.

(** Only a call of [close] closes the channel. *)
Definition closes (e : event_) : bool := match e with Closed _ => true | _ => false end.

Lemma cv_closed l (c c' : CondVar.state) : cv ctx_of l c = Some c' →
  part_closed (CondVar.data c') = part_closed (match l with Update _ d | Write d => d | _ => CondVar.data c end).
Proof. intros Hc. by rewrite (cv_data _ _ _ _ Hc). Qed.

Lemma go_closed t p (s s' : chan) es : go ctx_of t p s = Some (s', es) →
  is_closed s' = is_closed s || existsb closes es.
Proof.
  intros Hg. unfold is_closed. destruct p; simpl in Hg; unfold send_body, recv_body, unlock_end, goto, stay, finish in Hg;
    step_inv Hg; rewrite ?orb_false_r, ?orb_true_r;
    repeat match goal with Hc : cv ctx_of _ _ = Some _ |- _ => rewrite (cv_closed _ _ _ Hc); clear Hc end; try done.
  by match goal with Hc : empty _ && _ = true |- _ => apply andb_true_iff in Hc as [_ ->] end.
Qed.

(** *** The two coroutines *)
Context (value : T) (total_num : Z).

(** [return_type{}] or [bench_str] is [value]; the channel is told who calls. *)
Inductive producer_pc :=
  | Loop (i : Z)                      (* for (int i = 0; i < total_num; i++) *)
  | Sending (i : Z)                   (* co_await ch.send(value) *)
  | Closing                           (* ch.close() *)
  | ProducerEnd.
Inductive consumer_pc :=
  | Receive                           (* while (true) *)
  | Receiving                         (* co_await ch.recv() *)
  | ConsumerEnd.

Definition producer_id : nat := 0.
Definition consumer_id : nat := 1.

Record bench := Bench {
  ch : chan;
  producer : producer_pc;
  consumer : consumer_pc;
}.

Inductive bench_label :=
  | Produce                           (* to the next call *)
  | Consume
  | Call (l : label_).                (* a step of a call *)

(** [channel_producer] between two calls, and when one has returned. *)
Definition channel_producer (s : bench) : option (bench * list event_) :=
  match producer s with
  | Loop i =>
      let '(l, p) := if decide (i < total_num) then (Send producer_id value, Sending i) else (Close producer_id, Closing) in
      '(c, es) ← chan_step ctx_of l (ch s); Some (Bench c p (consumer s), es)
  | _ => None
  end.
Definition producer_resumed (returned : bool) (p : producer_pc) : producer_pc :=
  if returned then match p with Sending i => Loop (s32 (i + 1)) | Closing => ProducerEnd | p => p end else p.

(** [channel_consumer] *)
Definition channel_consumer (s : bench) : option (bench * list event_) :=
  match consumer s with
  | Receive => '(c, es) ← chan_step ctx_of (Recv consumer_id) (ch s); Some (Bench c (producer s) Receiving, es)
  | _ => None
  end.
Definition answer (es : list event_) : option (option T) :=
  head (omap (λ e, match e with RecvRet t x => if decide (t = consumer_id) then Some x else None | _ => None end) es).
Definition consumer_resumed (a : option (option T)) (c : consumer_pc) : consumer_pc :=
  match a with Some (Some _) => Receive | Some None => ConsumerEnd | None => c end.

Definition running (t : nat) (c : chan) : bool := bool_decide (is_Some (phases c !! t)).

Definition bench_step (l : bench_label) (s : bench) : option (bench * list event_) :=
  match l with
  | Produce => channel_producer s
  | Consume => channel_consumer s
  | Call (Go _ as l) | Call (Inner _ as l) | Call (InnerLeave as l) =>
      '(c, es) ← chan_step ctx_of l (ch s);
      Some (Bench c (producer_resumed (running producer_id (ch s) && negb (running producer_id c)) (producer s))
        (consumer_resumed (answer es) (consumer s)), es)
  | Call _ => None                    (* nobody else calls *)
  end.

(** [channel_bench]: both are submitted to the scheduler. *)
Definition channel_bench (q : Q) : bench := Bench (chan_init q) (Loop 0) Receive.
Definition bench_machine (q : Q) : machine bench bench_label event_ := Machine (λ s, s = channel_bench q) bench_step.

(** What the consumer was given. *)
Definition received (tr : list event_) : list T :=
  omap (λ e, match e with RecvRet t (Some x) => if decide (t = consumer_id) then Some x else None | _ => None end) tr.

Lemma received_app t1 t2 : received (t1 ++ t2) = received t1 ++ received t2.
Proof. apply omap_app. Qed.

Lemma bench_chan q s tr : reach (bench_machine q) s tr → reach (chan_machine ctx_of q) (ch s) tr.
Proof.
  induction 1 as [s ->|s tr l s' es _ IH Hs]; [by constructor|]. simpl in Hs.
  assert (Hstep : ∀ l p c, ('(c0, es0) ← chan_step ctx_of l (ch s); Some (Bench c0 (p c0 es0) (c c0 es0), es0)) = Some (s', es) →
    reach (chan_machine ctx_of q) (ch s') (tr ++ es)).
  { intros l0 p c Hx. destruct (chan_step ctx_of l0 (ch s)) as [[c0 es0]|] eqn:Hc; [|done]. simplify_eq/=. by econstructor. }
  destruct l as [| |l]; simpl in Hs.
  - unfold channel_producer in Hs. destruct (producer s); [|done..]. case_decide; by apply (Hstep _ (λ _ _, _) (λ _ _, _)) in Hs.
  - unfold channel_consumer in Hs. destruct (consumer s); [|done..]. by apply (Hstep _ (λ _ _, _) (λ _ _, _)) in Hs.
  - destruct l; try done; by apply (Hstep _ (λ c0 _, _) (λ _ es0, consumer_resumed (answer es0) _)) in Hs.
Qed.

(** *** Where the two are *)
Definition sent (i : Z) : list T := replicate (Z.to_nat i) value.

Definition producer_ok (p : producer_pc) (ph : option phase_) (closed : bool) (vs : list T) : Prop :=
  match p, ph with
  | Loop i, None => 0 <= i <= total_num ∧ closed = false ∧ vs = sent i
  | Sending i, Some ph =>
      0 <= i < total_num ∧ closed = false ∧
      match ph with
      | SendOpen v | SendLock v | SendWait v => v = value ∧ vs = sent i
      | SendNotify | SendUnlock true => vs = sent (i + 1)
      | _ => False
      end
  | Closing, Some ph =>
      vs = sent total_num ∧
      match ph with CloseStore => closed = false | CloseProducers | CloseConsumers | CloseEnd => closed = true | _ => False end
  | ProducerEnd, None => closed = true ∧ vs = sent total_num
  | _, _ => False
  end.

Definition consumer_ok (c : consumer_pc) (ph : option phase_) (tr : list event_) : Prop :=
  match c, ph with
  | Receive, None => took tr = received tr
  | Receiving, Some ph =>
      match ph with
      | RecvOpen | RecvLock | RecvWait | RecvUnlock None => took tr = received tr
      | RecvNotify x | RecvUnlock (Some x) => took tr = received tr ++ [x]
      | _ => False
      end
  | ConsumerEnd, None => took tr = received tr ∧ RecvRet consumer_id None ∈ tr
  | _, _ => False
  end.

Record bench_ok (s : bench) (tr : list event_) : Prop := {
  bo_producer : producer_ok (producer s) (phases (ch s) !! producer_id) (is_closed (ch s)) (pushed tr);
  bo_consumer : consumer_ok (consumer s) (phases (ch s) !! consumer_id) tr;
  bo_only t : (2 ≤ t)%nat → phases (ch s) !! t = None;
}.

Context (Htotal : 0 <= total_num < 2 ^ 31).

(** Events that are not the consumer's business, or not the producer's. *)
Definition for_producer (es : list event_) : Prop := took es = [] ∧ received es = [] ∧ answer es = None.
Definition for_consumer (es : list event_) : Prop := pushed es = [] ∧ existsb closes es = false.

Lemma sent_next i : 0 <= i → sent (i + 1) = sent i ++ [value].
Proof. intros Hi. unfold sent. replace (Z.to_nat (i + 1)) with (Z.to_nat i + 1)%nat by lia. by rewrite replicate_add. Qed.

Lemma producer_goes p ph ph' closed vs es : producer_ok p (Some ph) closed vs → goes closed producer_id ph ph' es →
  producer_ok (producer_resumed (negb (bool_decide (is_Some ph'))) p) ph' (closed || existsb closes es) (vs ++ pushed es) ∧
  for_producer es.
Proof.
  intros Hp Hg. unfold for_producer, producer_resumed. destruct p as [i|i| |]; try done; simpl in Hp.
  - destruct Hp as (Hi & Hcl & Hph).
    destruct Hg; try done; simpl; rewrite ?app_nil_r; subst closed; simpl; (split; [|done]); try done.
    + destruct Hph as [-> ->]. split_and!; [lia..|done|]. by rewrite sent_next by lia.
    + destruct b; [|done]. rewrite sw_small by lia. split_and!; [lia..|done|exact Hph].
  - destruct Hp as (-> & Hph). destruct Hg; try done; subst; simpl; rewrite ?app_nil_r, ?orb_false_r; done.
Qed.

Lemma consumer_goes c ph ph' closed tr es : consumer_ok c (Some ph) tr → goes closed consumer_id ph ph' es →
  consumer_ok (consumer_resumed (answer es) c) ph' (tr ++ es) ∧ for_consumer es.
Proof.
  intros Hc Hg. unfold for_consumer. destruct c; try done; simpl in Hc.
  assert (Hlast : RecvRet consumer_id None ∈ tr ++ [RecvRet consumer_id None]) by (apply elem_of_app; right; by left).
  destruct Hg; try done; simpl; (split; [|done]); unfold consumer_ok; rewrite took_app, received_app; simpl;
    rewrite ?app_nil_r; try done; try (by rewrite Hc).
  destruct x as [x|]; simpl; rewrite ?app_nil_r; done.
Qed.

Lemma consumer_more c ph tr es : for_producer es → consumer_ok c ph tr → consumer_ok c ph (tr ++ es).
Proof.
  intros (Ht & Hr & _) Hc. unfold consumer_ok in *. rewrite took_app, received_app, Ht, Hr, !app_nil_r.
  destruct c, ph; try done. destruct Hc as [? ?]. split; [done|]. apply elem_of_app. by left.
Qed.

Lemma not_resumed b p : producer_resumed (b && negb b) p = p.
Proof. by destruct b. Qed.

Lemma chan_go t (s s' : chan) es : chan_step ctx_of (Go t) s = Some (s', es) → ∃ p, phases s !! t = Some p ∧
  goes (is_closed s) t p (phases s' !! t) es ∧ (∀ u, u ≠ t → phases s' !! u = phases s !! u) ∧
  is_closed s' = is_closed s || existsb closes es.
Proof.
  simpl. intros Hs. destruct (phases s !! t) as [p|] eqn:Hp; [|done]. simpl in Hs. exists p.
  destruct (go_goes _ _ _ _ _ Hp Hs). split_and!; [done..|by eapply go_closed].
Qed.

(** What leaves the calls where they are. *)
Lemma chan_inner l (s s' : chan) es : match l with Inner _ | InnerLeave => True | _ => False end →
  chan_step ctx_of l s = Some (s', es) → phases s' = phases s ∧ es = [] ∧ is_closed s' = is_closed s.
Proof.
  intros Hl Hs. assert (Hcv : ∀ k, (∀ t d, k ≠ Update t d) → (∀ d, k ≠ Write d) →
    (c ← cv ctx_of k (cvs s); Some (Chan c (phases s), [])) = Some (s', es) → phases s' = phases s ∧ es = [] ∧ is_closed s' = is_closed s).
  { intros k H1 H2 Hk. destruct (cv ctx_of k (cvs s)) as [c|] eqn:Hc; [|done]. simplify_eq/=. split_and!; [done..|].
    unfold is_closed. simpl. rewrite (cv_closed _ _ _ Hc). destruct k; try done; [by destruct (H1 t d)|by destruct (H2 d)]. }
  destruct l; try done; simpl in Hs; by eapply Hcv in Hs.
Qed.

Lemma bench_call l s tr s' es : bench_ok s tr → bench_step (Call l) s = Some (s', es) → bench_ok s' (tr ++ es).
Proof.
  intros [Hp Hc Ho] Hs.
  assert (Hin : ∀ k, match k with Inner _ | InnerLeave => True | _ => False end →
    bench_step (Call k) s = Some (s', es) → bench_ok s' (tr ++ es)).
  { intros k Hk Hb. assert (∃ c, chan_step ctx_of k (ch s) = Some (c, es) ∧
      s' = Bench c (producer_resumed (running producer_id (ch s) && negb (running producer_id c)) (producer s)) (consumer_resumed (answer es) (consumer s)))
      as (c & Hst & ->).
    { destruct k; try done; cbn [bench_step] in Hb; destruct (chan_step _ _ _) as [[c es0]|]; [|done| |done]; simplify_eq/=; eauto. }
    destruct (chan_inner _ _ _ _ Hk Hst) as (Hph & -> & Hcl). unfold running. rewrite Hph, not_resumed, app_nil_r.
    split; simpl; rewrite ?Hph, ?Hcl; done. }
  destruct l as [| | |t|t|]; try done; [|by apply (Hin (Inner t))|by apply (Hin InnerLeave)]. clear Hin. cbn [bench_step] in Hs.
  destruct (chan_step ctx_of (Go t) (ch s)) as [[c es0]|] eqn:Hst; [|done]. simplify_eq/=.
  destruct (chan_go _ _ _ _ Hst) as (p & Hpt & Hg & Hother & Hcl).
  destruct (decide (t = producer_id)) as [->|Hnp]; [|destruct (decide (t = consumer_id)) as [->|Hnc]].
  - rewrite Hpt in Hp. destruct (producer_goes _ _ _ _ _ _ Hp Hg) as [Hp' Hf]. split; simpl.
    + rewrite Hcl, pushed_app. unfold running. rewrite Hpt. simpl. exact Hp'.
    + rewrite Hother by done. destruct Hf as (? & ? & Ha). rewrite Ha. simpl. apply consumer_more; done.
    + intros u Hu. rewrite Hother by (unfold producer_id; lia). by apply Ho.
  - rewrite Hpt in Hc. destruct (consumer_goes _ _ _ _ _ _ Hc Hg) as [Hc' [Hpu Hce]]. split; simpl; [|exact Hc'|].
    + unfold running. rewrite Hother, not_resumed, Hcl, Hce, orb_false_r, pushed_app, Hpu, app_nil_r by done. exact Hp.
    + intros u Hu. rewrite Hother by (unfold consumer_id; lia). by apply Ho.
  - exfalso. rewrite Ho in Hpt; [done|]. unfold producer_id, consumer_id in *. lia.
Qed.

(** A call that begins. *)
Lemma chan_start t p (s s' : chan) es : start t p s = Some (s', es) →
  es = [] ∧ phases s' = <[t := p]> (phases s) ∧ is_closed s' = is_closed s.
Proof. unfold start. intros Hs. case_decide; [|done]. by simplify_eq. Qed.

Lemma bench_ok_step l s tr s' es : bench_ok s tr → bench_step l s = Some (s', es) → bench_ok s' (tr ++ es).
Proof.
  intros Hok Hs. destruct l as [| |l]; [| |by eapply bench_call]; destruct Hok as [Hp Hc Ho]; simpl in Hs.
  - unfold channel_producer in Hs. destruct (producer s) as [i| | |] eqn:Hpc; try done. unfold producer_ok in Hp.
    destruct (phases (ch s) !! producer_id) eqn:Hph; [done|]. destruct Hp as (Hi & Hcl & Hv).
    case_decide; simpl in Hs; (destruct (start _ _ _) as [[c es0]|] eqn:Hst; [|done]); simplify_eq/=;
      destruct (chan_start _ _ _ _ _ Hst) as (-> & Hps & Hcl'); rewrite app_nil_r; split; simpl; rewrite ?Hps, ?Hcl';
      rewrite ?lookup_insert_eq; try (by rewrite lookup_insert_ne by done);
      try (intros u Hu; rewrite lookup_insert_ne by (unfold producer_id; lia); by apply Ho).
    + split_and!; [lia..|done|done|done].
    + assert (i = total_num) as -> by lia. done.
  - unfold channel_consumer in Hs. destruct (consumer s) eqn:Hcc; try done. unfold consumer_ok in Hc.
    destruct (phases (ch s) !! consumer_id) eqn:Hph; [done|].
    simpl in Hs. destruct (start _ _ _) as [[c es0]|] eqn:Hst; [|done]; simplify_eq/=;
      destruct (chan_start _ _ _ _ _ Hst) as (-> & Hps & Hcl'); rewrite app_nil_r; split; simpl; rewrite ?Hps, ?Hcl'.
    + by rewrite lookup_insert_ne by done.
    + by rewrite lookup_insert_eq.
    + intros u Hu; rewrite lookup_insert_ne by (unfold consumer_id; lia); by apply Ho.
Qed.

Lemma bench_ok_reach q s tr : reach (bench_machine q) s tr → bench_ok s tr.
Proof.
  apply reach_inv_tr.
  - intros s0 ->. split; [|done|done]. unfold producer_ok. cbn [producer channel_bench ch chan_init phases].
    rewrite lookup_empty. split_and!; [lia..|done|done].
  - intros s0 tr0 l s' es Hok Hs. by eapply bench_ok_step.
Qed.

(** What was sent, and what was taken. *)
Lemma bench_sent s tr : bench_ok s tr → ∃ k, pushed tr = replicate k value ∧ (k ≤ Z.to_nat total_num)%nat.
Proof.
  intros [Hp _ _]. unfold producer_ok in Hp.
  destruct (producer s) as [i|i| |], (phases (ch s) !! producer_id) as [ph|]; try done.
  - destruct Hp as (? & _ & ->). eexists. split; [done|lia].
  - destruct Hp as (? & _ & Hv).
    assert (∃ j, pushed tr = sent j ∧ j <= total_num) as (j & -> & ?); [|eexists; split; [done|lia]].
    destruct ph as [v|v|v| |[]| | | | | | | | |]; try done; [exists i..|exists (i + 1)|exists (i + 1)];
      (split; [|lia]); first [exact Hv|apply Hv].
  - destruct Hp as (-> & _). by eexists.
  - destruct Hp as (_ & ->). by eexists.
Qed.

Lemma bench_all_sent s tr : bench_ok s tr → is_closed (ch s) = true → pushed tr = sent total_num.
Proof.
  intros [Hp _ _] Hcl. rewrite Hcl in Hp. unfold producer_ok in Hp.
  destruct (producer s), (phases (ch s) !! producer_id); try done; naive_solver.
Qed.

Lemma bench_took s tr : bench_ok s tr → ∃ r, took tr = received tr ++ r.
Proof.
  intros [_ Hc _]. unfold consumer_ok in Hc. destruct (consumer s), (phases (ch s) !! consumer_id) as [ph|]; try done.
  - exists []. by rewrite app_nil_r.
  - destruct ph as [v|v|v| |b| | | |x|[x|]| | | |]; try done; try (exists []; by rewrite app_nil_r); by exists [x].
  - exists []. rewrite app_nil_r. apply Hc.
Qed.

Lemma bench_ended s tr : bench_ok s tr → consumer s = ConsumerEnd → took tr = received tr ∧ RecvRet consumer_id None ∈ tr.
Proof. intros [_ Hc _] He. rewrite He in Hc. unfold consumer_ok in Hc. by destruct (phases (ch s) !! consumer_id). Qed.
End channel_bench.

(** A part of a list of equal values. *)
Lemma replicate_prefix {A} (l r : list A) k x : l ++ r = replicate k x → l = replicate (length l) x ∧ (length l ≤ k)%nat.
Proof.
  intros Hl. split.
  - pose proof (Forall_replicate (eq x) k x eq_refl) as Hall. rewrite <- Hl in Hall.
    apply Forall_app in Hall as [Hall _]. symmetry. by apply replicate_as_Forall_2.
  - apply (f_equal length) in Hl. rewrite length_replicate, length_app in Hl. lia.
Qed.

(** ** Properties *)

(** C30: the benchmark delivers: at any point of any interleaving the consumer
    was given some of the values, as many as it took or one less, and no more
    than were sent; when it is over it was given [total_num] values, and the
    channel is closed and empty. *)
Theorem channel_bench_delivers {Q T} `{BufferLaws Q T cap rep} ctx_of (value : T) total_num q s tr :
  rep q [] → 0 <= total_num < 2 ^ 31 → reach (bench_machine ctx_of value total_num q) s tr →
  (∃ k, received tr = replicate k value ∧ (k ≤ Z.to_nat total_num)%nat) ∧
  (consumer s = ConsumerEnd → received tr = replicate (Z.to_nat total_num) value ∧
    is_closed (ch s) = true ∧ rep (buf (CondVar.data (cvs (ch s)))) []).
Proof.
  intros Hq Hn Hr. pose proof (bench_chan _ _ _ _ _ _ Hr) as Hrc.
  pose proof (bench_ok_reach ctx_of value total_num Hn q s tr Hr) as Hok.
  destruct (channel_fifo ctx_of q (ch s) tr Hq Hrc) as (l & Hl & Hpt & _).
  destruct (bench_sent _ _ _ _ Hok) as (k & Hk & Hle), (bench_took _ _ _ _ Hok) as (r & Hr'). split.
  - rewrite Hk, Hr', <- app_assoc in Hpt. symmetry in Hpt. apply replicate_prefix in Hpt as [Hrc' ?].
    eexists. split; [exact Hrc'|lia].
  - intros He. destruct (bench_ended _ _ _ _ Hok He) as [Ht Hnone].
    destruct (channel_none_drained ctx_of q (ch s) tr _ Hq Hrc Hnone) as [Hcl Hpt'].
    assert (Hall : pushed tr = sent value total_num) by by eapply bench_all_sent. split_and!; [|done|].
    + by rewrite <- Ht, <- Hpt'.
    + rewrite Hpt' in Hpt. destruct l; [done|]. apply (f_equal length) in Hpt. rewrite length_app in Hpt. simpl in Hpt. lia.
Qed.

(** One value through the channel; the last look of the consumer; the end of
    the producer, and the consumer's way to sleep. *)
Definition send_one : list (bench_label (T:=nat)) :=
  [Produce; Call (Go 0); Call (Go 0); Call (Inner 0); Call (Go 0); Call (Go 0); Call (Go 0)].
Definition recv_one : list (bench_label (T:=nat)) :=
  [Consume; Call (Go 1); Call (Go 1); Call (Inner 1); Call (Go 1); Call (Go 1); Call (Go 1)].
Definition hang_run (n : nat) : list (bench_label (T:=nat)) :=
  concat (replicate n (send_one ++ recv_one)) ++
  [Consume; Call (Go 1); Call (Go 1); Call (Inner 1);
   Produce; Call (Go 0); Call (Go 0); Call (Go 0); Call (Go 0); Call (Inner 1); Call InnerLeave].

Definition bench_buffer : Pow2.ring (T:=nat) := Pow2.RingC 0 0 (replicate 16 0%nat).
Definition bench_16 := bench_machine (H := pow2_buffer (2 ^ 4)) (λ t, t) 0%nat.
Definition hung (n : nat) : bench (Q:=Pow2.ring (T:=nat)) (T:=nat) :=
  final (bench_16 (Z.of_nat n) bench_buffer) (hang_run n) (channel_bench bench_buffer).

(** C31: (defect) the benchmark can hang: in a run with the size of the
    registered one ([100 * capacity] values), the consumer has received
    everything, the producer has closed the channel and is over, and the
    consumer, which looked before the channel was closed, sleeps for ever. *)
Theorem channel_bench_may_hang : ∃ s tr, reach (bench_16 1600 bench_buffer) s tr ∧
  producer s = ProducerEnd ∧ consumer s = Receiving ∧ length (received tr) = 1600%nat ∧
  ∀ l, m_step (bench_16 1600 bench_buffer) l s = None.
Proof.
  exists (hung 1600), (trace (bench_16 1600 bench_buffer) (hang_run 1600) (channel_bench bench_buffer)).
  assert (Hph : phases (ch (hung 1600)) = {[ 1%nat := RecvWait ]}) by by vm_compute.
  assert (Hpc : CondVar.pcs (cvs (ch (hung 1600))) = {[ 1%nat := InCv Consumer (Some NotEmptyOrClosed) ]}) by by vm_compute.
  assert (Hp : producer (hung 1600) = ProducerEnd) by by vm_compute.
  assert (Hc : consumer (hung 1600) = Receiving) by by vm_compute.
  assert (Hl : leaving (cvs (ch (hung 1600))) = false) by by vm_compute.
  split_and!; [apply exec_reach_final; [done|by vm_compute]|done|done|by vm_compute|].
  intros l. simpl. generalize dependent (hung 1600). intros s Hph Hpc Hp Hc Hl.
  destruct l as [| |l]; simpl; [unfold channel_producer; by rewrite Hp|unfold channel_consumer; by rewrite Hc|].
  destruct l as [t v|t|t|t|t|]; try done.
  - destruct (asleep_stuck (H := pow2_buffer (2 ^ 4)) (λ t, t) (ch s) 1 (Some NotEmptyOrClosed) t Hph Hpc) as [-> _]. done.
  - destruct (asleep_stuck (H := pow2_buffer (2 ^ 4)) (λ t, t) (ch s) 1 (Some NotEmptyOrClosed) t Hph Hpc) as [_ ->]. done.
  - unfold chan_step, cv. simpl. by rewrite Hl.
Qed.

(** ** Witnesses *)
Definition end_run : list (bench_label (T:=nat)) :=
  concat (replicate 2 (send_one ++ recv_one)) ++
  [Produce; Call (Go 0); Call (Go 0); Call (Go 0); Call (Go 0)] ++
  [Consume; Call (Go 1); Call (Go 1); Call (Inner 1); Call (Go 1); Call (Go 1)].

Lemma pow2_16_rep : pow2_rep (2 ^ 4) bench_buffer [].
Proof. unfold pow2_rep, circular. simpl. split_and!; try done; lia. Qed.

Lemma channel_bench_delivers_witness :
  consumer (final (bench_16 2 bench_buffer) end_run (channel_bench bench_buffer)) = ConsumerEnd ∧
  received (trace (bench_16 2 bench_buffer) end_run (channel_bench bench_buffer)) = replicate (Z.to_nat 2) 0%nat.
Proof.
  assert (Hc : consumer (final (bench_16 2 bench_buffer) end_run (channel_bench bench_buffer)) = ConsumerEnd) by by vm_compute.
  split; [exact Hc|].
  refine (proj1 (proj2 (channel_bench_delivers (H0 := pow2_laws 4 ltac:(lia)) (λ t, t) 0%nat 2 bench_buffer _ _ pow2_16_rep _ _) Hc)).
  - lia.
  - apply exec_reach_final; [done|by vm_compute].
Defined.
