(* ===== verification/Waiting.v ===== *)
(** * Components that wait, and the contexts they wait on

    The mutex, wait groups, events and condition variables keep the contract of
    [WaitCount.v] with the contexts. Here it is used: whoever they submit to a
    context was counted there, so that they keep to the discipline under which
    [scheduler::loop] is safe ([Loop.v]); and a context that counts nobody has
    nobody suspended in any of them. *)
From S2P Require Import Prelude WaitCount LockSpec WaitList.
From S2P Require Mutex WaitGroup Event CondVar.
From S2P Require Import Uring Engine Context Scheduler Loop.
Local Open Scope Z_scope.
Local Open Scope coro_scope.

Section contract.
Context {S L E : Type} (M : machine S L E) `{WaitAccountingLaws _ _ _ M}.

Lemma counter_nonzero s tr c : reach M s tr → 0 < suspended_on M s c < 2 ^ 64 → counter M s c ≠ 0.
Proof. intros Hr Hc. rewrite (counter_suspended _ _ c Hr), uw_small by lia. lia. Qed.

Lemma counter_zero s tr c : reach M s tr → suspended_on M s c < 2 ^ 64 → counter M s c = 0 → suspended_on M s c = 0.
Proof.
  intros Hr Hlt Hz. rewrite (counter_suspended _ _ c Hr) in Hz. pose proof (suspended_on_nonneg s c).
  by rewrite uw_small in Hz.
Qed.
(** Whoever keeps the contract keeps to the discipline. *)
Lemma contract_orderly {K Q C} (p : program (K:=K) (Q:=Q) (C:=C)) s tr l i c w h :
  reach M s tr → suspended_on M s i < 2 ^ 64 → submits M l s = Some i →
  m_ctxs (sch p) !! i = Some c → m_num_wait_task (core c) = counter M s i →
  orderly (Sched (CtxStep i (Push w h))) p = true.
Proof.
  intros Hr Hlt Hs Hi Hc. simpl. apply orb_true_iff. right. unfold still_waiting. rewrite Hi, Hc.
  apply negb_true_iff, bool_decide_eq_false. refine (counter_nonzero s tr i Hr _).
  split; [by eapply submits_suspended|done].
Qed.
End contract.

(** ** All of them, on the same contexts *)
Section components.
Context {V CV D Cond : Type} `{EqDecision CV} (holds : Cond → D → bool) (ctx_of : nat → nat) (unlocked : D → D → bool).
Context (eager initial_set : bool) (d : D).

Definition components :=
  beside Mutex.mutex_machine (beside (WaitGroup.wait_group_machine eager)
    (beside (Event.event_machine (V:=V) eager initial_set) (CondVar.cv_machine (CV:=CV) holds ctx_of unlocked d))).
#[export] Instance components_waits : WaitAccounting components.
Proof. unfold components. apply _. Defined.
#[export] Instance components_waits_laws : WaitAccountingLaws components.
Proof. unfold components, components_waits. apply _. Qed.
End components.

Definition nobody_waits {Key A} `{Countable Key} (ctx : A → nat) (m : gmap Key A) (c : nat) : Prop :=
  ∀ a x, m !! a = Some x → ctx x ≠ c.

Lemma nobody_counted {Key A} `{Countable Key} (ctx : A → nat) (m : gmap Key A) c :
  count_if (λ x, bool_decide (ctx x = c)) m = 0 → nobody_waits ctx m c.
Proof. rewrite count_if_zero. intros Hz a x Hx. exact (proj1 (bool_decide_eq_false _) (Hz a x Hx)). Qed.

(** ** Properties *)

(** C23: components keep programs orderly: in every interleaving of mutexes, wait
    groups, events and condition variables, a step that submits a coroutine to
    a context does so while the context counts that coroutine; in a program
    whose contexts' counters are those of the components, the submission is one
    that the discipline of [loop] allows. *)
Theorem components_keep_orderly {V CV D Cond} `{EqDecision CV} (holds : Cond → D → bool) ctx_of unlocked
    eager initial_set (d : D) {K Q C} (p : program (K:=K) (Q:=Q) (C:=C)) s tr l i c w h :
  let M := components (V:=V) (CV:=CV) holds ctx_of unlocked eager initial_set d in
  reach M s tr → suspended_on M s i < 2 ^ 64 → submits M l s = Some i →
  m_ctxs (sch p) !! i = Some c → m_num_wait_task (core c) = counter M s i →
  orderly (Sched (CtxStep i (Push w h))) p = true.
Proof. intros M. by apply (contract_orderly M). Qed.

(** C24: a context that counts nobody has nobody suspended: when the mutex, the
    wait group, the event and the condition variables of a program run side by
    side, in every interleaving of their coroutines, and the counter of a
    context is 0, then no awaiter of any of them belongs to a coroutine of that
    context; so what [run] takes for idle is idle. *)
Theorem idle_context_waits_nowhere {V CV D Cond} `{EqDecision CV} (holds : Cond → D → bool) ctx_of unlocked
    eager initial_set (d : D) s tr c :
  reach (components (V:=V) (CV:=CV) holds ctx_of unlocked eager initial_set d) s tr →
  suspended_on (components (V:=V) (CV:=CV) holds ctx_of unlocked eager initial_set d) s c < 2 ^ 64 →
  counter (components (V:=V) (CV:=CV) holds ctx_of unlocked eager initial_set d) s c = 0 →
  nobody_waits Mutex.m_ctx (Mutex.mem s.1) c ∧
  nobody_waits WaitList.m_ctx (WaitGroup.mem s.2.1) c ∧
  nobody_waits WaitList.m_ctx (Event.mem s.2.2.1) c ∧
  ∀ t p, CondVar.pcs s.2.2.2 !! t = Some p → CondVar.charged p = true → ctx_of t ≠ c.
Proof.
  intros Hr Hlt Hz. pose proof (counter_zero _ s tr c Hr Hlt Hz) as Hreg. simpl in Hreg.
  pose proof (count_if_nonneg (λ x, bool_decide (Mutex.m_ctx x = c)) (Mutex.mem s.1)).
  pose proof (count_if_nonneg (λ x, bool_decide (WaitList.m_ctx x = c)) (WaitGroup.mem s.2.1)).
  pose proof (count_if_nonneg (λ x, bool_decide (WaitList.m_ctx x = c)) (Event.mem s.2.2.1)).
  pose proof (count_if_nonneg (λ x, bool_decide (ctx_of x = c)) (CondVar.suspended s.2.2.2)).
  split_and!; [apply nobody_counted; lia..|]. intros t p Hp Hch.
  apply (nobody_counted ctx_of (CondVar.suspended s.2.2.2) c ltac:(lia) t).
  rewrite CondVar.suspended_lookup, Hp. by rewrite Hch.
Qed.

(** ** Witnesses *)

(** Coroutines of the contexts 0 and 1 wait on the mutex and on the event; the
    mutex is about to submit coroutine 1 of context 1, which it hands itself to. *)
Abbreviation demo_m := (components (V:=Z) (CV:=()) (Cond:=()) (λ _ (d : bool), d) (λ t, t) (λ _ _, false) false false true).
Definition demo_start : Mutex.state * (WaitGroup.state * (Event.state (V:=Z) * CondVar.state (CV:=()) (D:=bool) (Cond:=()))) :=
  (Mutex.init, (WaitGroup.init 1, (Event.init false, CondVar.init true))).
Definition demo_labels : list (Mutex.label + (WaitGroup.label + (Event.label (V:=Z) + CondVar.label (CV:=()) (D:=bool) (Cond:=())))) :=
  (inl <$> Mutex.mutex_demo ++ replicate 6 (Mutex.Step 0 false)) ++ ((inr ∘ inr ∘ inl) <$> Event.ev_demo).

Lemma demo_reach : reach demo_m (final demo_m demo_labels demo_start) (trace demo_m demo_labels demo_start).
Proof. apply exec_reach_final; [repeat split; by exists 1|by vm_compute]. Defined.

(** A program whose second context counts the two of them. *)
Definition counting (n : Z) : context (K:=sim) (Q:=list ptr) (C:=()) :=
  let c := sim_context [] sim0 () in Ctx (set_wait_task n (core c)) (at_pc c) false 0.
Definition counting_program : program := Program (Joining 0) (init_impl [counting 2; counting 2]).

Lemma components_keep_orderly_witness :
  submits demo_m (inl (Mutex.Step 0 false)) (final demo_m demo_labels demo_start) = Some 1%nat ∧
  orderly (Sched (CtxStep 1 (Push true 7))) counting_program = true.
Proof.
  assert (Hs : submits demo_m (inl (Mutex.Step 0 false)) (final demo_m demo_labels demo_start) = Some 1%nat) by by vm_compute.
  assert (Hc : counter demo_m (final demo_m demo_labels demo_start) 1%nat = 2) by by vm_compute.
  assert (Hr : suspended_on demo_m (final demo_m demo_labels demo_start) 1%nat = 2) by by vm_compute.
  split; [exact Hs|].
  apply (components_keep_orderly (V:=Z) (CV:=()) (Cond:=()) (λ _ (d : bool), d) (λ t, t) (λ _ _, false) false false true
    counting_program _ _ (inl (Mutex.Step 0 false)) 1 (counting 2) true 7 demo_reach).
  - by rewrite Hr.
  - exact Hs.
  - done.
  - by rewrite Hc.
Defined.

(** The contexts 0 and 1 have waiters, so context 2 has none. *)
Lemma idle_context_waits_nowhere_witness :
  counter demo_m (final demo_m demo_labels demo_start) 1%nat = 2 ∧
  nobody_waits Mutex.m_ctx (Mutex.mem (final demo_m demo_labels demo_start).1) 2.
Proof.
  assert (Hc : counter demo_m (final demo_m demo_labels demo_start) 2%nat = 0) by by vm_compute.
  assert (Hr : suspended_on demo_m (final demo_m demo_labels demo_start) 2%nat = 0) by by vm_compute.
  split; [by vm_compute|].
  destruct (idle_context_waits_nowhere (λ _ (d : bool), d) (λ t, t) (λ _ _, false) false false true
    (final demo_m demo_labels demo_start) (trace demo_m demo_labels demo_start) 2 demo_reach) as [Hn _];
    [by rewrite Hr|exact Hc|exact Hn].
Defined.
