(* ===== verification/Sequential.v ===== *)
(** * Coroutines that do one I/O operation after the other

    A coroutine of the examples and of the benchmark's servers runs as if the
    awaiters it [co_await]s were blocking calls. Such a coroutine is a program
    given by its positions: the operation awaited there, and the position that
    the operation's answer leads to. Here programs are compiled to what the
    engine resumes, and the worker of [Context.v] is shown to run them so. *)
From S2P Require Import Prelude Effects Uring UringProxy IoAwaiter Engine Context.
Local Open Scope Z_scope.
Local Open Scope coro_scope.

Section sequential.
Context {P : Type} (next_op : P → option io_op) (resumed : P → Z → P).
(** Where the awaiter of a coroutine is: in its frame. *)
Context (awaiter_of : ptr → ptr).

(** ** Programs as coroutines *)
Inductive frame :=
  | Begin (p : P)                     (* initial_suspend *)
  | Awaiting (p : P)                  (* suspended in its awaiter *)
  | Final (p : P).                    (* final_suspend *)
Abbreviation frame_map := (gmap ptr frame).

(** On from the position [p], up to the next suspension. *)
Definition go_on (h : ptr) (p : P) (c : frame_map) : co_run :=
  match next_op p with
  | Some op => Do (StartIo (awaiter_of h) h op) (<[h := Awaiting p]> c) (λ c _, Stop false c)
  | None => Stop true (<[h := Final p]> c)
  end.

(** Resuming what is no suspended coroutine is an access to a dead awaiter. *)
Definition resume (h : ptr) (c : frame_map) : co_run :=
  match c !! h with
  | Some (Begin p) => go_on h p c
  | Some (Awaiting p) => Do (EndIo (awaiter_of h)) c (λ c r, go_on h (resumed p r) c)
  | _ => Do (EndIo (awaiter_of h)) c (λ c _, Stop false c)
  end.

(** ** The same programs with blocking calls

    where the calls that answer [rs] lead; [None] when it makes fewer calls. *)
Fixpoint blocking (p : P) (rs : list Z) : option P :=
  match rs with
  | [] => Some p
  | r :: rs => if next_op p then blocking (resumed p r) rs else None
  end.

Lemma blocking_snoc p rs r q : blocking p rs = Some q → is_Some (next_op q) →
  blocking p (rs ++ [r]) = Some (resumed q r).
Proof.
  revert p. induction rs as [|x rs IH]; intros p Hb Hq; simpl in *.
  - injection Hb as ->. by destruct Hq as [op ->].
  - destruct (next_op p); [by apply IH|done].
Qed.

(** The answers that the awaiter at [a] has got. *)
Definition answers (a : ptr) (tr : list event) : list Z :=
  omap (λ e, match e with Completed p r => if decide (p = a) then Some r else None | _ => None end) tr.

Lemma answers_app a e1 e2 : answers a (e1 ++ e2) = answers a e1 ++ answers a e2.
Proof. apply omap_app. Qed.
Lemma answers_none a es : completed es = [] → answers a es = [].
Proof. induction es as [|e es IH]; [done|]. by destruct e. Qed.

Definition answered (r : option Z) (i : io_info) : io_info :=
  match r with Some r => set_result r i | None => i end.

(** The frame [f] and the awaiter [i] of the coroutine [h] of the program [p0]
    are those of the blocking program after the answers [rs]; an answer may
    have arrived that the coroutine has not been resumed with. *)
Definition runs_blocking (h : ptr) (p0 : P) (rs : list Z) (f : frame) (i : option io_info) : Prop :=
  match f with
  | Begin p => p = p0 ∧ rs = [] ∧ i = None
  | Awaiting p => ∃ op seen r, next_op p = Some op ∧ i = Some (answered r (await_suspend h op)) ∧
      rs = seen ++ option_list r ∧ blocking p0 seen = Some p
  | Final p => next_op p = None ∧ blocking p0 rs = Some p ∧ i = None
  end.

(** Where a coroutine that may be resumed goes on. *)
Definition next_position (f : frame) (i : option io_info) : option P :=
  match f with
  | Begin p => Some p
  | Awaiting p => i ← i; r ← result i; Some (resumed p r)
  | Final _ => None
  end.

Section machine.
Context {K Q : Type} `{Uring K} `{TaskQueue Q}.
Context (fixfd : bool) (kQueCap kMax kCqEntries : nat) (has_cb : bool).
Context (contents : Q → list ptr).

Abbreviation state := (Engine.state (K:=K) (Q:=Q) (C:=frame_map)).
Abbreviation context := (Context.context (K:=K) (Q:=Q) (C:=frame_map)).
Abbreviation tasks s := (m_task_queue (egn s)).

(** Each coroutine is submitted once: while it has not begun and is not queued. *)
Definition submits_once (l : label) (s : context) : bool :=
  match l with
  | Push _ h =>
      match frames (core s) !! h with
      | Some (Begin _) => bool_decide (h ∉ contents (tasks (core s)))
      | _ => false
      end
  | _ => true
  end.

(** A context with the coroutines [progs] to run. *)
Definition io_machine (progs : gmap ptr P) : machine context label event :=
  restrict submits_once
    (Machine (λ s, fresh s ∧ frames (core s) = Begin <$> progs) (step fixfd kQueCap kMax kCqEntries resume has_cb)).

Lemma io_machine_context progs s tr : reach (io_machine progs) s tr →
  reach (context_machine fixfd kQueCap kMax kCqEntries resume has_cb) s tr.
Proof.
  intros Hr. apply restrict_reach in Hr. induction Hr as [s [Hf _]|s tr l s' es _ IH Hs]; [by constructor|].
  by econstructor.
Qed.

(** ** What resuming such a coroutine does *)
Context `{!UringLaws K} `{!TaskQueueLaws Q kQueCap contents} `{!Inj (=) (=) awaiter_of}.

Abbreviation exec := (Engine.exec kMax resume).

(** The coroutine [h] at [p] after [go_on]: its frame, and its awaiter. *)
Definition frame_at (p : P) : frame := if next_op p then Awaiting p else Final p.
Definition awaiter_at (h : ptr) (p : P) : option io_info := await_suspend h <$> next_op p.

(** Nothing changes but the frame and the awaiter of [h]. *)
Record resumed_to (h : ptr) (p : P) (s : state) (es : list event) (s' : state) : Prop := {
  to_frames : frames s' = <[h := frame_at p]> (frames s);
  to_infos : infos s' = partial_alter (λ _, awaiter_at h p) (awaiter_of h) (infos s);
  to_tasks : tasks s' = tasks s;
  to_events : completed es = [] ∧ queued es = [] ∧ ∀ h', Dropped h' ∉ es;
}.

Lemma start_io_ok p h op (s : state) a s' es : start_io p h op s = Ok (a, s', es) →
  infos s' = <[p := await_suspend h op]> (infos s) ∧ frames s' = frames s ∧ tasks s' = tasks s ∧ es = [Started p].
Proof.
  unfold start_io. intros Hs. apply bind_ok in Hs as (? & ? & ? & e1 & [= <- <- <-] & Hs & ->).
  case_decide; [|done]. destruct (acquire_urs 1 (m_upxy (egn s))) as [[urs up]|]; [|done].
  apply bind_ok in Hs as (? & ? & ? & e2 & [= <- <- <-] & Hs & ->).
  by apply bind_ok in Hs as (? & ? & ? & e3 & [= <- <- <-] & [= <- <- <-] & ->).
Qed.

Lemma start_io_goes p h op (s : state) : infos s !! p = None → h ≠ nullptr → ∃ s' es, start_io p h op s = Ok ((), s', es).
Proof.
  intros Hp Hh. unfold start_io, mbind, prog_bind, get. rewrite decide_True by done.
  destruct (acquire_total (m_upxy (egn s))) as (urs & up & ->). eauto.
Qed.

(** What [go_on] does, when the awaiter of [h] is free. *)
Lemma go_on_ok submit h p (s : state) fin s' es : infos s !! awaiter_of h = None →
  run_co submit (go_on h p (frames s)) s = Ok (fin, s', es) → resumed_to h p s es s'.
Proof.
  intros Hn Hs. unfold go_on in Hs. destruct (next_op p) as [op|] eqn:Hop; simpl in Hs.
  - apply bind_ok in Hs as (? & ? & ? & e1 & [= <- <- <-] & Hs & ->).
    apply bind_ok in Hs as (x & s1 & e2 & e3 & Hst & Hs & ->).
    apply bind_ok in Hst as (? & s2 & e4 & e5 & Hst & [= <- <- <-] & ->).
    apply start_io_ok in Hst as (Hi & Hf & Ht & ->). simpl in *.
    apply bind_ok in Hs as (? & ? & ? & e6 & [= <- <- <-] & Hs & ->).
    apply bind_ok in Hs as (? & ? & ? & e7 & [= <- <- <-] & [= <- <- <-] & ->).
    split; simpl; [by rewrite Hf; unfold frame_at; rewrite Hop| |done|].
    + rewrite Hi. unfold awaiter_at. by rewrite Hop.
    + split_and!; [done..|]. set_solver.
  - apply bind_ok in Hs as (? & ? & ? & e1 & [= <- <- <-] & [= <- <- <-] & ->).
    split; simpl; [by unfold frame_at; rewrite Hop| |done|].
    + unfold awaiter_at. rewrite Hop. simpl. apply map_eq. intros a. destruct (decide (a = awaiter_of h)) as [->|Hne].
      * by rewrite lookup_partial_alter_eq.
      * by rewrite lookup_partial_alter_ne.
    + split_and!; [done..|]. set_solver.
Qed.

Lemma go_on_goes submit h p (s : state) : infos s !! awaiter_of h = None → h ≠ nullptr →
  ∃ fin s' es, run_co submit (go_on h p (frames s)) s = Ok (fin, s', es).
Proof.
  intros Hn Hh. unfold go_on. destruct (next_op p) as [op|]; simpl; [|by do 3 eexists].
  destruct (start_io_goes (awaiter_of h) h op (set_frames (<[h:=Awaiting p]> (frames s)) s) Hn Hh) as (s1 & es & Hs).
  unfold mbind, prog_bind, modify, get. unfold mbind, prog_bind in Hs. rewrite Hs. by do 3 eexists.
Qed.

(** An awaiter whose coroutine is at its initial or final suspension point is
    not there. *)
Definition free_unless_awaiting (f : frame) (i : option io_info) : Prop :=
  match f with Awaiting _ => True | _ => i = None end.

Lemma exec_ok h f p (s : state) s' es : frames s !! h = Some f → free_unless_awaiting f (infos s !! awaiter_of h) →
  next_position f (infos s !! awaiter_of h) = Some p → exec h s = Ok ((), s', es) → resumed_to h p s es s'.
Proof.
  intros Hf Hfree Hp Hs. unfold Engine.exec, max_stack in Hs. cbn [exec_task] in Hs.
  apply bind_ok in Hs as (? & ? & ? & e1 & [= <- <- <-] & Hs & ->).
  apply bind_ok in Hs as (fin & s1 & e2 & e3 & Hrun & Hs & ->).
  assert (Hto : resumed_to h p s e2 s1).
  { unfold resume in Hrun. rewrite Hf in Hrun. destruct f as [q|q|q]; simpl in Hp, Hfree; [| |done].
    - injection Hp as ->. by eapply go_on_ok.
    - destruct (infos s !! awaiter_of h) as [i|] eqn:Hi; [|done]. simpl in Hp.
      destruct (result i) as [r|] eqn:Hr; [|done]. injection Hp as <-. simpl in Hrun.
      apply bind_ok in Hrun as (? & ? & ? & e4 & [= <- <- <-] & Hrun & ->).
      apply bind_ok in Hrun as (x & s2 & e5 & e6 & Hend & Hrun & ->). unfold end_io in Hend.
      apply bind_ok in Hend as (? & ? & ? & e7 & [= <- <- <-] & Hend & ->). simpl in Hend. rewrite Hi, Hr in Hend.
      apply bind_ok in Hend as (? & ? & ? & e8 & [= <- <- <-] & [= <- <- <-] & ->).
      apply bind_ok in Hrun as (? & ? & ? & e9 & [= <- <- <-] & Hrun & ->).
      apply go_on_ok in Hrun as [Hf1 Hi1 Ht1 He1]; [|by apply lookup_delete_eq]. split; try done.
      rewrite Hi1. simpl. apply map_eq. intros a. destruct (decide (a = awaiter_of h)) as [->|Hne].
      + by rewrite !lookup_partial_alter_eq.
      + by rewrite !lookup_partial_alter_ne, lookup_delete_ne. }
  destruct Hto as [H1 H2 H3 (H4 & H5 & H6)].
  assert (s' = s1 ∧ (e3 = [] ∨ e3 = [Cleaned h])) as [-> He]
    by (destruct fin; injection Hs as <- <-; auto).
  split; try done. rewrite app_nil_l, completed_app, queued_app, H4, H5.
  destruct He as [-> | ->]; split_and!; try done; set_solver.
Qed.

Lemma exec_goes h f p (s : state) : frames s !! h = Some f → free_unless_awaiting f (infos s !! awaiter_of h) →
  next_position f (infos s !! awaiter_of h) = Some p → h ≠ nullptr → ∃ s' es, exec h s = Ok ((), s', es).
Proof.
  intros Hf Hfree Hp Hh. unfold Engine.exec, max_stack. cbn [exec_task]. unfold mbind, prog_bind, get. simpl.
  assert (Hgo : ∃ fin s1 es, run_co (submit_task kMax (exec_task kMax resume kMax) true) (resume h (frames s)) s = Ok (fin, s1, es)).
  { generalize (submit_task kMax (exec_task kMax resume kMax) true). intros submit. unfold resume. rewrite Hf.
    destruct f as [q|q|q]; simpl in Hp, Hfree; [by apply go_on_goes| |done].
    destruct (infos s !! awaiter_of h) as [i|] eqn:Hi; [|done]. simpl in Hp.
    destruct (result i) as [r|] eqn:Hr; [|done]. simpl. unfold modify, end_io, get, put.
    unfold mbind, prog_bind. simpl. rewrite Hi, Hr. simpl. set (s1 := set_infos _ _).
    destruct (go_on_goes submit h (resumed q r) s1) as (fin & s2 & es & Hgo);
      [by apply lookup_delete_eq|done|]. simpl in Hgo. rewrite Hgo. by do 3 eexists. }
  destruct Hgo as (fin & s1 & es & ->). destruct fin; by do 2 eexists.
Qed.

(** ** The invariant *)

(** Of all coroutines; [x] has been taken from the queue and is being run. *)
Record coroutines_ok (progs : gmap ptr P) (x : option ptr) (s : state) (tr : list event) : Prop := {
  c_runs : ∀ h p0, progs !! h = Some p0 → ∃ f, frames s !! h = Some f ∧
    runs_blocking h p0 (answers (awaiter_of h) tr) f (infos s !! awaiter_of h);
  c_frames : ∀ h f, frames s !! h = Some f → is_Some (progs !! h);
  c_infos : ∀ a i, infos s !! a = Some i → ∃ h, is_Some (progs !! h) ∧ a = awaiter_of h;
  c_nodup : NoDup (contents (tasks s));
  c_queue : ∀ h, h ∈ contents (tasks s) → h ≠ nullptr ∧
    ∃ f p, frames s !! h = Some f ∧ next_position f (infos s !! awaiter_of h) = Some p;
  c_woken : ∀ h p i, x ≠ Some h → frames s !! h = Some (Awaiting p) → infos s !! awaiter_of h = Some i →
    is_Some (result i) → h ∈ contents (tasks s) ∨ Dropped h ∈ tr;
}.

Lemma runs_free h p0 rs f i : runs_blocking h p0 rs f i → free_unless_awaiting f i.
Proof. destruct f; simpl; intuition. Qed.

Lemma runs_next h p0 rs f i p : runs_blocking h p0 rs f i → next_position f i = Some p → blocking p0 rs = Some p.
Proof.
  destruct f as [q|q|q]; simpl; [|intros (op & seen & r & Hop & -> & -> & Hq)|done].
  - by intros (-> & -> & _) [= ->].
  - destruct r as [r|]; simpl; [|done]. intros [= <-]. by apply blocking_snoc; [|eexists].
Qed.

Lemma runs_at h p0 rs p : blocking p0 rs = Some p → runs_blocking h p0 rs (frame_at p) (awaiter_at h p).
Proof.
  intros Hp. unfold frame_at, awaiter_at. destruct (next_op p) as [op|] eqn:Hop; simpl.
  - exists op, rs, None. by rewrite app_nil_r.
  - by rewrite Hop.
Qed.

Lemma coroutines_same progs x s s' tr es : coroutines_ok progs x s tr → frames s' = frames s → infos s' = infos s →
  tasks s' = tasks s → completed es = [] → coroutines_ok progs x s' (tr ++ es).
Proof.
  intros [H1 H2 H3 H4 H5 H6] Hf Hi Ht He.
  split; rewrite ?Hf, ?Hi, ?Ht; try done.
  - intros h p0 Hh. by rewrite answers_app, (answers_none _ es), app_nil_r; [apply H1|].
  - intros h p i Hx Hh Ha Hr. destruct (H6 h p i Hx Hh Ha Hr); [by left|right; set_solver].
Qed.

(** A coroutine that was taken from the queue is run. *)
Lemma coroutines_exec progs h f p s tr s' es : coroutines_ok progs (Some h) s tr → h ∉ contents (tasks s) →
  frames s !! h = Some f → next_position f (infos s !! awaiter_of h) = Some p →
  exec h s = Ok ((), s', es) → coroutines_ok progs None s' (tr ++ es).
Proof.
  intros [H1 H2 H3 H4 H5 H6] Hq Hf Hp Hs. destruct (H2 _ _ Hf) as [p0 Hp0].
  destruct (H1 _ _ Hp0) as (f' & Hf' & Hrun). assert (f' = f) as -> by congruence.
  destruct (exec_ok h f p s s' es Hf (runs_free _ _ _ _ _ Hrun) Hp Hs) as [Hfr Hin Ht (Hc & _ & Hd)].
  pose proof (runs_next _ _ _ _ _ _ Hrun Hp) as Hpos.
  assert (Hans : ∀ a, answers a (tr ++ es) = answers a tr)
    by (intros a; by rewrite answers_app, (answers_none _ es), app_nil_r).
  assert (Hother : ∀ h', h' ≠ h → infos s' !! awaiter_of h' = infos s !! awaiter_of h').
  { intros h' Hne. rewrite Hin, lookup_partial_alter_ne; [done|]. by intros ?%(inj awaiter_of). }
  assert (Hself : infos s' !! awaiter_of h = awaiter_at h p) by (by rewrite Hin, lookup_partial_alter_eq).
  split; rewrite ?Hfr, ?Ht.
  - intros h' q Hh'. rewrite Hans. destruct (decide (h' = h)) as [->|Hne].
    + assert (q = p0) as -> by congruence. rewrite lookup_insert_eq, Hself. eexists. split; [done|]. by apply runs_at.
    + rewrite lookup_insert_ne, Hother by done. by apply H1.
  - intros h' f' Hh'. apply lookup_insert_Some in Hh' as [[<- _]|[_ Hh']]; [by exists p0|by eapply H2].
  - intros a i Ha. rewrite Hin in Ha. destruct (decide (a = awaiter_of h)) as [->|Hne]; [by exists h; split; [exists p0|]|].
    rewrite lookup_partial_alter_ne in Ha by done. by eapply H3.
  - done.
  - intros h' Hh'. assert (h' ≠ h) by (by intros ->). rewrite lookup_insert_ne, Hother by done. by apply H5.
  - intros h' q i _ Hh' Hi Hr. destruct (decide (h' = h)) as [->|Hne].
    + rewrite Hself in Hi. unfold awaiter_at in Hi. destruct (next_op p); [|done]. injection Hi as <-. by destruct Hr.
    + rewrite lookup_insert_ne in Hh' by done. rewrite Hother in Hi by done.
      destruct (H6 h' q i) as [|Hdr]; [congruence|done..|by left|right; set_solver].
Qed.

(** A coroutine whose answer has arrived is submitted. *)
Lemma coroutines_submit progs h f p s tr s' es : coroutines_ok progs (Some h) s tr → h ∉ contents (tasks s) →
  h ≠ nullptr → frames s !! h = Some f → next_position f (infos s !! awaiter_of h) = Some p →
  submit_task kMax exec true h s = Ok ((), s', es) → coroutines_ok progs None s' (tr ++ es).
Proof.
  intros Hok Hq Hn Hf Hp Hs. destruct (submit_cases _ _ _ _ _ _ _ _ Hs) as
    [(q & r & up & Hpush & _ & -> & ->)|[(_ & -> & -> & _)|(_ & _ & _ & s1 & e1 & Hex & -> & ->)]].
  - pose proof (try_push_ok h (tasks s)) as Ht. rewrite Hpush in Ht. destruct Ht as [_ Ht].
    destruct Hok as [H1 H2 H3 H4 H5 H6]. split; simpl; try done.
    + intros h' p0 Hh'. by rewrite answers_app, app_nil_r; apply H1.
    + rewrite Ht. by constructor.
    + intros h'. rewrite Ht, elem_of_cons. intros [-> |Hh']; [eauto|by apply H5].
    + intros h' p' i _ Hh' Hi Hr. rewrite Ht, elem_of_cons. destruct (decide (h' = h)) as [->|Hne]; [by left; left|].
      destruct (H6 h' p' i) as [|Hdr]; [congruence|done..|by left; right|right; set_solver].
  - destruct Hok as [H1 H2 H3 H4 H5 H6]. split; try done.
    + intros h' p0 Hh'. by rewrite answers_app, app_nil_r; apply H1.
    + intros h' p' i _ Hh' Hi Hr. destruct (decide (h' = h)) as [->|Hne]; [right; set_solver|].
      destruct (H6 h' p' i) as [|Hdr]; [congruence|done..|by left|right; set_solver].
  - assert (Hok1 : coroutines_ok progs (Some h) (set_depth (u64 (m_max_recursive_depth (egn s) + 1)) s) (tr ++ [Inline h]))
      by (by apply coroutines_same with s).
    pose proof (coroutines_exec progs h f p _ _ _ _ Hok1 Hq Hf Hp Hex) as Hok2. rewrite <- app_assoc in Hok2.
    destruct Hok2 as [H1 H2 H3 H4 H5 H6]. by split.
Qed.

(** The answer of a completion reaches its coroutine. *)
Lemma coroutines_answer progs h f i a r s tr : coroutines_ok progs None s tr → frames s !! h = Some f →
  a = awaiter_of h → infos s !! a = Some i → result i = None → h ∉ contents (tasks s) ∧
  coroutines_ok progs (Some h) (set_infos (<[a := set_result r i]> (infos s)) s) (tr ++ [Completed a r]) ∧
  ∃ p, next_position f (Some (set_result r i)) = Some p ∧ handle i = h.
Proof.
  intros [H1 H2 H3 H4 H5 H6] Hf -> Hi Hr. destruct (H2 _ _ Hf) as [p0 Hp0].
  destruct (H1 _ _ Hp0) as (f' & Hf' & Hrun). assert (f' = f) as -> by congruence.
  rewrite Hi in Hrun. destruct f as [q|q|q]; simpl in Hrun; [naive_solver| |naive_solver].
  destruct Hrun as (op & seen & r0 & Hop & [= ->] & Hseen & Hq). destruct r0 as [r0|]; [done|]. simpl in Hseen. rewrite app_nil_r in Hseen.
  assert (Hnin : h ∉ contents (tasks s)).
  { intros Hh. destruct (H5 _ Hh) as (_ & f' & p & Hf2 & Hp). assert (f' = Awaiting q) as -> by congruence.
    by rewrite Hi in Hp. }
  assert (Hother : ∀ h', h' ≠ h → (<[awaiter_of h := set_result r (await_suspend h op)]> (infos s)) !! awaiter_of h' = infos s !! awaiter_of h').
  { intros h' Hne. apply lookup_insert_ne. by intros ?%(inj awaiter_of). }
  assert (Hans : ∀ h', answers (awaiter_of h') (tr ++ [Completed (awaiter_of h) r]) =
    answers (awaiter_of h') tr ++ (if decide (h' = h) then [r] else [])).
  { intros h'. rewrite answers_app. simpl. destruct (decide (h' = h)) as [->|Hne].
    - by rewrite decide_True.
    - rewrite decide_False; [done|]. by intros ?%(inj awaiter_of). }
  split; [done|]. split; [|by eexists].
  split; simpl; try done.
  - intros h' q' Hh'. destruct (decide (h' = h)) as [->|Hne].
    + assert (q' = p0) as -> by congruence. exists (Awaiting q). split; [done|].
      rewrite lookup_insert_eq. exists op, seen, (Some r). split_and!; try done.
      rewrite Hans, decide_True by done. by rewrite Hseen.
    + rewrite Hother by done. rewrite Hans, decide_False, app_nil_r by done. by apply H1.
  - intros a' i' Hi'. apply lookup_insert_Some in Hi' as [[<- _]|[_ Hi']]; [by eexists|by eapply H3].
  - intros h' Hh'. assert (h' ≠ h) by (by intros ->). rewrite Hother by done. by apply H5.
  - intros h' p' i' Hx Hh' Hi' Hr'. rewrite Hother in Hi' by congruence.
    destruct (H6 h' p' i') as [|Hdr]; [done..|by left|right; set_solver].
Qed.

Lemma coroutines_handle progs c i s tr s' es : coroutines_ok progs None s tr → infos s !! user_data c = Some i →
  result i = None → handle i ≠ nullptr → handle_cqe_entry kMax resume c s = Ok ((), s', es) →
  coroutines_ok progs None s' (tr ++ es).
Proof.
  intros Hok Hi Hr Hn Hs. unfold handle_cqe_entry in Hs.
  apply bind_ok in Hs as (? & ? & ? & e1 & [= <- <- <-] & Hs & ->). rewrite Hi in Hs.
  destruct (call_cb i (res c)) as [r|]; [|done].
  apply bind_ok in Hs as (? & ? & ? & e2 & [= <- <- <-] & Hs & ->).
  apply bind_ok in Hs as (? & ? & ? & e3 & [= <- <- <-] & Hs & ->).
  destruct (c_infos _ _ _ _ Hok _ _ Hi) as (h & [p0 Hp0] & Ha).
  destruct (c_runs _ _ _ _ Hok _ _ Hp0) as (f & Hf & _).
  destruct (coroutines_answer progs h f i _ r s tr Hok Hf Ha Hi Hr) as (Hq & Hok1 & p & Hp & Hh). subst h.
  replace (tr ++ [] ++ [] ++ [Completed (user_data c) r] ++ e3) with ((tr ++ [Completed (user_data c) r]) ++ e3)
    by (by rewrite <- app_assoc).
  eapply coroutines_submit; [exact Hok1|done|done|exact Hf| |exact Hs].
  simpl. by rewrite <- Ha, lookup_insert_eq.
Qed.

(** One task of the queue. *)
Lemma coroutines_task progs s tr s' es : coroutines_ok progs None s tr →
  exec_one_task kMax resume s = Ok ((), s', es) → coroutines_ok progs None s' (tr ++ es).
Proof.
  intros [H1 H2 H3 H4 H5 H6] Hs. unfold exec_one_task, schedule in Hs.
  apply bind_ok in Hs as (h & s1 & e1 & e2 & Hs & He & ->).
  apply bind_ok in Hs as (? & ? & ? & e3 & [= <- <- <-] & Hs & ->).
  pose proof (pop_ok (tasks s)) as Hp. destruct (pop (tasks s)) as [[h' q]|]; [|done].
  apply bind_ok in Hs as (? & ? & ? & e4 & [= <- <- <-] & Hs & ->).
  apply bind_ok in Hs as (? & ? & ? & e5 & [= <- <- <-] & [= <- <- <-] & ->).
  destruct (H5 h') as (_ & f & p & Hf & Hpos); [rewrite Hp; by left|].
  rewrite Hp in H4. apply NoDup_cons in H4 as [Hn H4]. simpl in He.
  replace (tr ++ ([] ++ [] ++ [Popped h'] ++ []) ++ e2) with ((tr ++ [Popped h']) ++ e2) by (by rewrite <- app_assoc).
  refine (coroutines_exec progs h' f p (set_queue q s) _ _ _ _ Hn Hf Hpos He).
  split; simpl; try done.
  - intros h0 p0 Hh0. by rewrite answers_app, app_nil_r; apply H1.
  - intros h0 Hh0. apply H5. rewrite Hp. by right.
  - intros h0 p0 i Hx Hh0 Hi Hr. destruct (H6 h0 p0 i) as [Hin|Hdr]; [done..| |right; set_solver].
    rewrite Hp in Hin. apply elem_of_cons in Hin as [->|Hin]; [done|by left].
Qed.

(** The steps of the worker that poll. *)
Lemma poll_same s a s' es (m : prog state event a) x :
  (m : prog state event a) s = Ok (x, s', es) →
  (∀ s x s' es, m s = Ok (x, s', es) → frames s' = frames s ∧ infos s' = infos s ∧ tasks s' = tasks s ∧ es = []) →
  ∀ progs tr, coroutines_ok progs None s tr → coroutines_ok progs None s' (tr ++ es).
Proof. intros Hm Hsame progs tr Hok. destruct (Hsame _ _ _ _ Hm) as (? & ? & ? & ->). by eapply coroutines_same. Qed.

Lemma coroutines_run progs s tr s' es : coroutines_ok progs None (core s) tr →
  (∀ num c l, at_pc s = Handle num (c :: l) →
     ∃ i, infos (core s) !! user_data c = Some i ∧ result i = None ∧ handle i ≠ nullptr ∧ well_typed i = true) →
  run fixfd kQueCap kMax resume has_cb s = Some (s', es) → at_pc s' ≠ Stopped → coroutines_ok progs None (core s') (tr ++ es).
Proof.
  intros Hok Hh Hr Hs'. unfold run in Hr. destruct (at_pc s) as [|[|n]| | | |cnt|num [|c l]|] eqn:Hp; [..|done].
  - destruct (stop_requested s); injection Hr as <- <-; [done|by apply coroutines_same with (core s)].
  - injection Hr as <- <-. by apply coroutines_same with (core s).
  - apply work_ok in Hr as ([] & c & Hx & ->). by eapply coroutines_task.
  - destruct (empty_wait_task (core s)); [destruct (ready (egn (core s)))|]; injection Hr as <- <-;
      by apply coroutines_same with (core s).
  - apply work_ok in Hr as ([] & c & Hx & ->). eapply poll_same; [exact Hx| |done].
    intros s0 x s1 e1 H1. unfold do_io_submit, mbind, prog_bind, get in H1. by case_decide; injection H1 as <- <- <-.
  - apply work_ok in Hr as (cnt & c & Hx & ->). eapply poll_same; [exact Hx| |done].
    intros s0 x s1 e1 H1. unfold Engine.wait_eventfd, UringProxy.wait_eventfd, mbind, prog_bind, get in H1.
    destruct (eventfd_read _ _); by simplify_eq/=.
  - destruct (wake_by_cqe cnt); [|injection Hr as <- <-; by apply coroutines_same with (core s)].
    apply work_ok in Hr as (l & c & Hx & ->). eapply poll_same; [exact Hx| |done].
    intros s0 x s1 e1 H1. unfold peek_cqes, mbind, prog_bind, get in H1. by case_decide; [|done]; injection H1 as <- <- <-.
  - apply work_ok in Hr as ([] & c & Hx & ->). eapply poll_same; [exact Hx| |done].
    intros s0 x s1 e1 H1. by injection H1 as <- <- <-.
  - apply work_ok in Hr as ([] & c' & Hx & ->). destruct (Hh num c l eq_refl) as (i & Hi & Hri & Hn & _).
    by eapply coroutines_handle.
Qed.

Lemma coroutines_push progs w h s tr s' es : coroutines_ok progs None (core s) tr →
  submits_once (Push w h) s = true → push kMax w h s = Some (s', es) → coroutines_ok progs None (core s') (tr ++ es).
Proof.
  intros Hok Hd Hs. unfold submits_once in Hd. destruct (frames (core s) !! h) as [[p|p|p]|] eqn:Hf; [|done..].
  apply bool_decide_eq_true in Hd. unfold push in Hs. case_decide as Hn; [done|].
  destruct (try_push h (tasks (core s))) as [q|] eqn:Hq; injection Hs as <- <-.
  - pose proof (try_push_ok h (tasks (core s))) as Ht. rewrite Hq in Ht. destruct Ht as [_ Ht].
    destruct Hok as [H1 H2 H3 H4 H5 H6]. split; simpl; try done.
    + intros h' p0 Hh'. by rewrite answers_app, app_nil_r; apply H1.
    + rewrite Ht. by constructor.
    + intros h'. rewrite Ht, elem_of_cons. intros [-> |Hh']; [eauto|by apply H5].
    + intros h' p' i Hx Hh' Hi Hr. rewrite Ht, elem_of_cons.
      destruct (H6 h' p' i) as [|Hdr]; [done..|by left; right|right; set_solver].
  - apply coroutines_same with (core s); try done. by case_match.
Qed.

Lemma coroutines_step progs l s tr s' es : coroutines_ok progs None (core s) tr →
  (∀ num c k, at_pc s = Handle num (c :: k) →
     ∃ i, infos (core s) !! user_data c = Some i ∧ result i = None ∧ handle i ≠ nullptr ∧ well_typed i = true) →
  submits_once l s = true →
  step fixfd kQueCap kMax kCqEntries resume has_cb l s = Some (s', es) → at_pc s' ≠ Stopped →
  coroutines_ok progs None (core s') (tr ++ es).
Proof.
  intros Hok Hh Hd Hs Hs'. destruct l as [|w h| | |p r]; simpl in Hs.
  - by eapply coroutines_run.
  - by eapply coroutines_push.
  - injection Hs as <- <-. by apply coroutines_same with (core s).
  - destruct (owed s) as [|n]; [done|]. destruct (wake_up task_flag (core s)) as [[[[] c] e]| | |] eqn:Hw; [|done..].
    injection Hs as <- <-. eapply (poll_same _ _ _ _ _ _ Hw); [|done].
    intros s0 x s1 e1 H1. unfold wake_up, mbind, prog_bind, get in H1. by destruct (write_eventfd _ _); simplify_eq/=.
  - case_decide; [|done]. destruct (kernel_complete _ _ _); [|done]. injection Hs as <- <-.
    by apply coroutines_same with (core s).
Qed.

Lemma coroutines_start progs s : fresh s → frames (core s) = Begin <$> progs → coroutines_ok progs None (core s) [].
Proof.
  intros [_ Hq _ _ Hi] Hf. assert (Ht : contents (tasks (core s)) = []) by (rewrite Hq; apply queue_new_ok).
  split; rewrite ?Hf, ?Hi, ?Ht.
  - intros h p0 Hh. exists (Begin p0). by rewrite lookup_fmap, Hh, lookup_empty.
  - intros h f. rewrite lookup_fmap. by destruct (progs !! h); [eauto|].
  - intros a i. by rewrite lookup_empty.
  - constructor.
  - by intros h ?%elem_of_nil.
  - intros h p i _. rewrite lookup_fmap. by destruct (progs !! h).
Qed.

Context (entries_small : 2 * Z.of_nat kCqEntries < 2 ^ 24).

Lemma coroutines_reach progs s tr : reach (io_machine progs) s tr →
  Z.of_nat (length (started tr)) < 2 ^ 32 → at_pc s ≠ Stopped → coroutines_ok progs None (core s) tr.
Proof.
  induction 1 as [s [Hf Hfr]|s tr l s' es Hr IH Hs]; intros Hlt Hpc; [by apply coroutines_start|].
  rewrite started_app, length_app in Hlt. apply restrict_step in Hs as [Hd Hs]. simpl in Hs.
  assert (Hns : at_pc s ≠ Stopped)
    by (intros Hst; apply Hpc; exact (stopped_step fixfd kQueCap kMax kCqEntries resume has_cb _ _ _ _ Hst Hs)).
  apply coroutines_step with l s; [apply IH; [lia|done]| |done..].
  apply io_machine_context in Hr.
  destruct (live_reach fixfd kQueCap kMax kCqEntries resume has_cb (contents:=contents) entries_small _ _ Hr) as [|Hl]; [lia|done|].
  intros num c k Hp. by eapply live_handles.
Qed.

(** The next task of the queue does not fault. *)
Lemma task_goes progs s tr : coroutines_ok progs None s tr → contents (tasks s) ≠ [] →
  ∃ s' es, exec_one_task kMax resume s = Ok ((), s', es).
Proof.
  intros [H1 H2 H3 H4 H5 H6] Hne. unfold exec_one_task, schedule, mbind, prog_bind, get.
  pose proof (pop_ok (tasks s)) as Hp. destruct (pop (tasks s)) as [[h q]|]; [|done]. simpl.
  destruct (H5 h) as (Hn & f & p & Hf & Hpos); [rewrite Hp; by left|]. destruct (H2 _ _ Hf) as [p0 Hp0].
  destruct (H1 _ _ Hp0) as (f' & Hf' & Hrun). assert (f' = f) as -> by congruence.
  destruct (exec_goes h f p (set_queue q s)) as (s' & es & ->); [done|by eapply runs_free|done|done|by do 2 eexists].
Qed.

Lemma work_goes progs s tr n : coroutines_ok progs None (core s) tr → live (contents:=contents) kCqEntries s tr →
  at_pc s = Work (S n) → is_Some (run fixfd kQueCap kMax resume has_cb s).
Proof.
  intros Hok Hl Hp. unfold run, work. rewrite Hp. pose proof (l_batch _ _ _ Hl _ Hp) as Hb.
  destruct (task_goes progs (core s) tr Hok) as (s' & es & ->); [by intros Hc; rewrite Hc in Hb; simpl in Hb; lia|done].
Qed.

(** Who waits, waits for the kernel; who has been answered is queued. *)
Lemma awaiting_where progs s tr h p : coroutines_ok progs None (core s) tr → live (contents:=contents) kCqEntries s tr →
  frames (core s) !! h = Some (Awaiting p) → ∃ i, infos (core s) !! awaiter_of h = Some i ∧
    match result i with
    | None => awaiter_of h ∈ waiting_io (handled s) (core s)
    | Some _ => h ∈ contents (tasks (core s)) ∨ Dropped h ∈ tr
    end.
Proof.
  intros Hok Hl Hf. destruct (c_frames _ _ _ _ Hok _ _ Hf) as [p0 Hp0].
  destruct (c_runs _ _ _ _ Hok _ _ Hp0) as (f & Hf' & Hrun). assert (f = Awaiting p) as -> by congruence.
  destruct Hrun as (op & seen & r & _ & Hi & _). eexists. split; [exact Hi|].
  destruct r as [r|]; simpl.
  - eapply (c_woken _ _ _ _ Hok); [done|exact Hf|exact Hi|by eexists].
  - apply (io_infos _ _ (l_io _ _ _ Hl)). by eexists.
Qed.
End machine.
End sequential.

(** ** Properties *)

(** C5: awaiting is blocking: in every interleaving of the worker, other threads
    and the kernel, each coroutine that does its I/O with [co_await] is where
    the same program would be if the awaiters were blocking calls that had
    returned the answers its awaiter has got so far (the last one, when the
    coroutine has not been resumed with it, is stored there). While it is
    suspended its request is with the kernel, or the answer has arrived and it
    is queued again, unless the engine dropped it (its queue was full and the
    recursion at its limit, which shows in the trace: then the coroutine stays
    where it is for ever); and the worker never resumes one that is not ready. *)
Theorem awaiting_is_blocking {P K Q} next_op resumed awaiter_of `{!Inj (=) (=) awaiter_of} `{UringLaws K}
    `{TaskQueueLaws Q kQueCap contents} fixfd kMax kCqEntries has_cb (progs : gmap ptr P) s tr :
  2 * Z.of_nat kCqEntries < 2 ^ 24 →
  reach (io_machine (K:=K) next_op resumed awaiter_of fixfd kQueCap kMax kCqEntries has_cb contents progs) s tr →
  Z.of_nat (length (started tr)) < 2 ^ 32 → at_pc s ≠ Stopped →
  (∀ h p0, progs !! h = Some p0 → ∃ f, frames (core s) !! h = Some f ∧
     runs_blocking next_op resumed h p0 (answers (awaiter_of h) tr) f (infos (core s) !! awaiter_of h)) ∧
  (∀ h p, frames (core s) !! h = Some (Awaiting p) → ∃ i, infos (core s) !! awaiter_of h = Some i ∧
     match result i with
     | None => awaiter_of h ∈ waiting_io (handled s) (core s)
     | Some _ => h ∈ contents (m_task_queue (egn (core s))) ∨ Dropped h ∈ tr
     end) ∧
  (∀ n, at_pc s = Work (S n) →
     is_Some (run fixfd kQueCap kMax (resume next_op resumed awaiter_of) has_cb s)).
Proof.
  intros Hsmall Hr Hlt Hpc.
  pose proof (coroutines_reach next_op resumed awaiter_of _ _ _ _ _ _ Hsmall _ _ _ Hr Hlt Hpc) as Hok.
  apply io_machine_context in Hr.
  destruct (live_reach fixfd kQueCap kMax kCqEntries _ has_cb (contents:=contents) Hsmall _ _ Hr Hlt) as [?|Hl]; [done|].
  split; [apply Hok|]. split; [intros h p; by eapply awaiting_where|]. intros n. by eapply work_goes.
Qed.

(** ** Witnesses *)

(** A coroutine that awaits two no-ops. *)
Definition noops_op (n : nat) : option io_op := match n with O => None | S _ => Some NoopAwaiter end.
Definition noops_resumed (n : nat) (r : Z) : nat := pred n.
Definition at_frame (h : ptr) : ptr := h + 500.
#[export] Instance at_frame_inj : Inj (=) (=) at_frame.
Proof. intros x y. unfold at_frame. lia. Qed.
Definition noops : gmap ptr nat := {[ 7 := 2%nat ]}.
Abbreviation noops_m := (io_machine (H0 := list_queue 4) noops_op noops_resumed at_frame true 4 4 8 true id noops).
Definition noops_start : context := sim_context [] sim0 (Begin <$> noops).
(** The first no-op is answered, the coroutine is queued, and is next. *)
Definition noops_run : list label :=
  [Push true 7; WakeUp] ++ replicate 11 Run ++ [Complete 507 0] ++ replicate 5 Run.
Lemma noops_reach : reach noops_m (final noops_m noops_run noops_start) (trace noops_m noops_run noops_start).
Proof. apply exec_reach_final; [split; [apply sim_context_fresh|done]|by vm_compute]. Defined.

Lemma awaiting_is_blocking_witness : ∃ s : context (K:=sim) (Q:=list ptr) (C:=gmap ptr frame),
  at_pc s = Work 1 ∧ frames (core s) !! 7 = Some (Awaiting 2%nat) ∧
  is_Some (run (H0 := list_queue 4) true 4 4 (resume noops_op noops_resumed at_frame) true s).
Proof.
  assert (Hpc : at_pc (final noops_m noops_run noops_start) = Work 1) by by vm_compute.
  assert (Hf : frames (core (final noops_m noops_run noops_start)) !! 7 = Some (Awaiting 2%nat)) by by vm_compute.
  exists (final noops_m noops_run noops_start). split; [exact Hpc|]. split; [exact Hf|].
  refine (proj2 (proj2 (awaiting_is_blocking (H2 := list_queue_laws 4) noops_op noops_resumed at_frame true 4 8 true noops
    _ _ _ noops_reach _ _)) 0%nat Hpc); by vm_compute.
Defined.
