(* ===== verification/Programs.v ===== *)
(** * The programs that come with the library

    The echo server of the benchmark (benchmark/sheepcoro_model: session,
    server) and the examples (examples/stdin_client.cpp, timer.cpp), as
    programs of [Sequential.v]. The connectors of a session and of a client are
    those that [Tcp.connector_new] makes of a descriptor; the buffers are in
    the coroutines' frames. *)
From S2P Require Import Prelude Effects Uring UringProxy IoAwaiter Engine Context Tcp Timer Sequential.
Local Open Scope Z_scope.
Local Open Scope coro_scope.

Section programs.
(** [BUFFLEN]; [tcp_connector(fd)]. *)
Context (BUFFLEN : Z) (connector_of : Z → tcp_connector).

(** Where a session is: at the [read] of the loop's condition, at the [write]
    of [ret] bytes, at [close], at the end with what [close] answered. *)
Inductive session_pc := SessionRead | SessionWrite (ret : Z) | SessionClose | SessionEnd (ret : Z).

Inductive client_pc :=
  | ClientConnect
  | ClientRead (conn : tcp_connector)
  | ClientClose (conn : tcp_connector)
  | ClientEnd.

Inductive program :=
  | Session (conn : tcp_connector) (buf : ptr) (pc : session_pc)
  | Server (server : tcp_server) (accepting : bool)
  | Client (client : tcp_client) (self buf : ptr) (pc : client_pc)
  | Echo (conn : tcp_connector) (buf : ptr) (ret : option Z)    (* None: at the read of stdin *)
  | TimerFunc (m_ts : timespec) (result : option Z).

(** [conn.close()] *)
Definition close_op (conn : tcp_connector) : io_op := CloseAwaiter (m_original_fd conn).

Definition session_op (conn : tcp_connector) (buf : ptr) (pc : session_pc) : option io_op :=
  match pc with
  | SessionRead => Some (connector_read conn buf BUFFLEN 0)
  | SessionWrite ret => Some (connector_write conn buf ret 0)
  | SessionClose => Some (close_op conn)
  | SessionEnd _ => None
  end.
Definition session (pc : session_pc) (ret : Z) : session_pc :=
  match pc with
  | SessionRead => if decide (ret > 0) then SessionWrite ret else SessionClose
  | SessionWrite _ => if decide (ret <= 0) then SessionClose else SessionRead
  | SessionClose => SessionEnd ret
  | SessionEnd ret => SessionEnd ret
  end.

Definition server_op (server : tcp_server) (accepting : bool) : option io_op :=
  if accepting then Some (server_accept server 0) else None.
(** [submit_to_scheduler(session(client_fd))] for a descriptor: [submits]. *)
Definition server (accepting : bool) (client_fd : Z) : bool := accepting && bool_decide (client_fd > 0).

Definition client_op (client : tcp_client) (self buf : ptr) (pc : client_pc) : option io_op :=
  match pc with
  | ClientConnect => Some (client_connect client self)
  | ClientRead conn => Some (connector_read conn buf BUFFLEN 0)
  | ClientClose conn => Some (close_op conn)
  | ClientEnd => None
  end.
Definition client (pc : client_pc) (ret : Z) : client_pc :=
  match pc with
  | ClientConnect => if decide (ret <= 0) then ClientEnd else ClientRead (connector_of ret)
  | ClientRead conn => if decide (ret > 0) then ClientRead conn else ClientClose conn
  | ClientClose _ => ClientEnd
  | ClientEnd => ClientEnd
  end.

Definition echo_op (conn : tcp_connector) (buf : ptr) (ret : option Z) : io_op :=
  match ret with
  | None => StdinAwaiter buf BUFFLEN 0 0
  | Some ret => connector_write conn buf ret 0
  end.
Definition echo (at_write : option Z) (ret : Z) : option Z :=
  match at_write with None => Some ret | Some _ => None end.

(** [co_await timer().add_seconds(2)]; [raw] is the timer's uninitialised
    [m_ts]. *)
Definition timer_func (raw : timespec) : program := TimerFunc (m_ts (add_seconds 2 (timer_new raw 0))) None.

Definition next_op (p : program) : option io_op :=
  match p with
  | Session conn buf pc => session_op conn buf pc
  | Server s accepting => server_op s accepting
  | Client c self buf pc => client_op c self buf pc
  | Echo conn buf ret => Some (echo_op conn buf ret)
  | TimerFunc ts None => Some (co_await (Timer.Timer ts 0))
  | TimerFunc _ (Some _) => None
  end.
Definition resumed (p : program) (ret : Z) : program :=
  match p with
  | Session conn buf pc => Session conn buf (session pc ret)
  | Server s accepting => Server s (server accepting ret)
  | Client c self buf pc => Client c self buf (client pc ret)
  | Echo conn buf at_write => Echo conn buf (echo at_write ret)
  | TimerFunc ts result => TimerFunc ts (Some ret)
  end.

(** The descriptors of the sessions and echoes that a program hands to
    [submit_to_scheduler] on its way. *)
Definition submits (p : program) (ret : Z) : list Z :=
  match p with
  | Server _ true => if decide (ret > 0) then [ret] else []
  | Client _ _ _ ClientConnect => if decide (ret <= 0) then [] else [ret]
  | _ => []
  end.
Fixpoint submitted (p : program) (rs : list Z) : list Z :=
  match rs with [] => [] | r :: rs => submits p r ++ submitted (resumed p r) rs end.

(** ** What the programs do, call by call *)

(** Rounds of an echo: [n] bytes read, [m] bytes of them written. *)
Definition rounds_answers (rounds : list (Z * Z)) : list Z := rounds ≫= λ '(n, m), [n; m].

(** The answers after which a session is at [pc]: it has done some rounds, and
    it leaves its loop at the first answer that is not positive. *)
Definition session_history (pc : session_pc) (seen : list Z) : Prop :=
  ∃ rounds, Forall (λ '(n, m), 0 < n ∧ 0 < m) rounds ∧
  let left_loop l := ∃ e, e <= 0 ∧ (l = rounds_answers rounds ++ [e] ∨ ∃ n, 0 < n ∧ l = rounds_answers rounds ++ [n; e]) in
  match pc with
  | SessionRead => seen = rounds_answers rounds
  | SessionWrite n => 0 < n ∧ seen = rounds_answers rounds ++ [n]
  | SessionClose => left_loop seen
  | SessionEnd ret => ∃ l, left_loop l ∧ seen = l ++ [ret]
  end.

Lemma rounds_snoc rounds n m : rounds_answers (rounds ++ [(n, m)]) = (rounds_answers rounds ++ [n]) ++ [m].
Proof. unfold rounds_answers. by rewrite bind_app, <- app_assoc. Qed.

Lemma session_history_next conn buf pc seen ret : session_history pc seen → is_Some (session_op conn buf pc) →
  session_history (session pc ret) (seen ++ [ret]).
Proof.
  intros (rounds & Hr & Hpc) [op Hop]. destruct pc as [|n| |x]; simpl in *; [| | |done].
  - subst seen. case_decide; exists rounds; (split; [done|]); [split; [lia|done]|]. exists ret. split; [lia|by left].
  - destruct Hpc as [Hn ->]. case_decide.
    + exists rounds. split; [done|]. exists ret. split; [done|]. right. exists n. by rewrite <- app_assoc.
    + exists (rounds ++ [(n, ret)]). split; [|by rewrite rounds_snoc].
      apply Forall_app. split; [done|]. constructor; [lia|done].
  - exists rounds. split; [done|]. by exists seen.
Qed.

Abbreviation blocking := (blocking next_op resumed).

(** A property of all positions that a program reaches with its answers. *)
Lemma blocking_inv (I : program → list Z → Prop) p0 :
  I p0 [] → (∀ p seen r, I p seen → is_Some (next_op p) → I (resumed p r) (seen ++ [r])) →
  ∀ rs p, blocking p0 rs = Some p → I p rs.
Proof.
  intros H0 Hstep.
  assert (Hgen : ∀ rs p1 seen p, I p1 seen → blocking p1 rs = Some p → I p (seen ++ rs)).
  { induction rs as [|r rs IH]; intros p1 seen p H1 Hb; simpl in Hb; [injection Hb as <-; by rewrite app_nil_r|].
    destruct (next_op p1) as [op|] eqn:Hop; [|done]. rewrite (cons_middle r seen rs), app_assoc.
    apply (IH (resumed p1 r)); [|done]. by apply Hstep; [|eexists]. }
  intros rs p. exact (Hgen rs p0 [] p H0).
Qed.

Lemma session_blocking conn buf rs p : blocking (Session conn buf SessionRead) rs = Some p →
  ∃ pc, p = Session conn buf pc ∧ session_history pc rs.
Proof.
  revert rs p. apply (blocking_inv (λ p rs, ∃ pc, p = Session conn buf pc ∧ session_history pc rs)).
  - exists SessionRead. split; [done|]. by exists [].
  - intros p seen r (pc & -> & Hh) Hop. exists (session pc r). split; [done|]. by eapply session_history_next.
Qed.

(** *** The server accepts until an accept fails *)
Lemma server_blocking srv rs p : blocking (Server srv true) rs = Some p →
  ∃ accepting, p = Server srv accepting ∧
    if accepting then Forall (λ fd, 0 < fd) rs ∧ submitted (Server srv true) rs = rs
    else ∃ fds e, rs = fds ++ [e] ∧ Forall (λ fd, 0 < fd) fds ∧ e <= 0 ∧ submitted (Server srv true) rs = fds.
Proof.
  induction rs as [|r rs IH]; intros Hb; simpl in Hb; [injection Hb as <-; by exists true|].
  unfold server in *. simpl in *. destruct (decide (r > 0)) as [Hr|Hr].
  - rewrite bool_decide_true in * by done. destruct (IH Hb) as ([|] & -> & Hrs).
    + exists true. destruct Hrs as [Hf Hs]. rewrite Hs. split; [done|]. split; [|done]. constructor; [lia|done].
    + destruct Hrs as (fds & e & -> & Hf & He & Hs). exists false. split; [done|]. exists (r :: fds), e.
      rewrite Hs. split_and!; try done. constructor; [lia|done].
  - rewrite bool_decide_false in * by done. destruct rs as [|x rs]; simpl in Hb; [|done]. injection Hb as <-.
    exists false. split; [done|]. exists [], r. split_and!; try done; lia.
Qed.

(** The echo of the client has no way out of its loop. *)
Lemma echo_blocking conn buf rs p : blocking (Echo conn buf None) rs = Some p → is_Some (next_op p).
Proof.
  intros Hb. assert (∃ w, p = Echo conn buf w) as [w ->]; [|by destruct w].
  revert rs p Hb. apply (blocking_inv (λ p _, ∃ w, p = Echo conn buf w)); [by eexists|].
  intros p seen r [w ->] _. by eexists.
Qed.
End programs.

(** ** Properties *)


(** A write that the kernel does in part counts as done: of the 16 bytes read,
    5 are sent back, and the session goes on with the next read. *)
Lemma session_short_write BUFFLEN connector_of conn buf :
  blocking (next_op BUFFLEN) (resumed connector_of) (Session conn buf SessionRead) [16; 5] =
    Some (Session conn buf SessionRead).
Proof. done. Qed.

(** ** Witnesses *)
Definition demo_conn : tcp_connector := Connector 9 9 invalid_fd_item 0.
Definition direct (fd : Z) : tcp_connector := Connector fd fd invalid_fd_item 0.
Definition one_session : gmap ptr program := {[ 7 := Session demo_conn 300 SessionRead ]}.
Abbreviation echo_m :=
  (io_machine (H0 := list_queue 4) (next_op 1040) (resumed direct) at_frame true 4 4 8 true id one_session).
Definition echo_start : context := sim_context [] sim0 (Begin <$> one_session).
(** The session has read 16 bytes, and asks to write them. *)
Definition echo_run : list label :=
  [Push true 7; WakeUp] ++ replicate 11 Run ++ [Complete 507 16] ++ replicate 6 Run.
Lemma echo_reach : reach echo_m (final echo_m echo_run echo_start) (trace echo_m echo_run echo_start).
Proof. apply exec_reach_final; [split; [apply sim_context_fresh|done]|by vm_compute]. Defined.

